(* ===== verification/_CoqProject ===== *)
-Q . S2P
JsPrelude.v
JsInt32.v
JsNumber.v
JsDigits.v
JsValue.v
JsUnicode.v
JsImmutable.v
JsRegExp.v
YamlCommon.v
YamlTypes.v
YamlBinary.v
YamlSchema.v
YamlSchemaTheory.v
YamlLoader.v
YamlStore.v
YamlLoaderTotal.v
YamlTotality.v
YamlDumper.v
YamlDuplicates.v
YamlDumpTotal.v
YamlQuoted.v
YamlRoundTrip.v
CoreMicrotask.v
CorePromise.v
CorePromiseTheory.v
LodashCache.v
LodashCacheTheory.v
LodashCacheClients.v
LodashMatch.v
LodashMatchTheory.v
LodashMatchExact.v
LodashDebounce.v
LodashDebounceTheory.v
NodeBuffer.v
NodeBufferInts.v
NodeBufferFixed.v
NodeBufferMemory.v
NodeBufferText.v
NodeBufferOrder.v
SwaggerData.v
JsonSchema.v
SwaggerSample.v
SwaggerSampleTheory.v
SwaggerSearch.v
JsJson.v
SwaggerHighlight.v
SwaggerUrl.v
SwaggerDeepLink.v
SwaggerAuth.v
SwaggerOAuth.v
SwaggerOAuthTheory.v
SwaggerOAuthSafety.v
SwaggerErrors.v
SwaggerValidate.v
SwaggerSystem.v
SwaggerSystemTheory.v
SwaggerSpec.v
SwaggerSpecTheory.v
SwaggerExecute.v
SwaggerOperations.v
SwaggerCurl.v
