(* ===== verification/JsPrelude.v ===== *)
(** * The browser code of the light client's API documentation

    The repository serves the interface description of its light client with
    Swagger UI.  Its readable build is src/client/lcd/swagger-ui/swagger-ui.js, and
    src/client/lcd/swagger-ui/oauth2-redirect.html is the page the authorization
    server sends the browser back to.  That application reads the description with the
    YAML library js-yaml, keeps it and what the user enters in a store that plugins
    extend, validates what was entered, authorizes and sends requests, and shows
    bodies, examples, links and commands; it runs on promises (core-js where the browser
    has none), delays, remembers and compares with lodash, and carries the byte buffers
    of Node ("Buffer") for the libraries that need them.  This library models these
    parts function by function and proves what a user of them relies on.  The line
    numbers of the manifest refer to the two files.

    ** The parts and how they interact

    - The language.  JsPrelude (this file) has strings as lists of UTF-16 units
      with the methods the sources call, outcomes ([Ret], [Throw],
      [OutOfFuel]), the state and error monad [SE] with its notation, and the
      program logic [wp] with the tactics that run it.  JsInt32 has the bitwise
      operators on 32-bit integers, JsNumber and JsDigits the binary64 numbers
      and their digits, JsValue the values, the heap of mutable objects and
      [String(v)], JsRegExp anchored regular expressions by derivatives,
      JsUnicode the pairs of units and [encodeURIComponent] with its inverse,
      JsJson [JSON.parse] and [JSON.stringify], JsImmutable the interface of the
      persistent maps the page keeps its state in.  JsonSchema is no part of the
      program: it is the meaning of a schema, which examples are measured by.
    - js-yaml, common code: YamlCommon (the helper module, [Mark],
      [YAMLException]).
    - js-yaml, types and schemas: YamlTypes (one definition per resolve,
      construct, predicate and represent function), YamlSchema ([Schema],
      [Schema.create], [compileList], [compileMap] and the five predefined
      schemas).  The loader asks the compiled schema for types; the types build
      values on the heap.
    - js-yaml, loader: YamlLoader, from the character classes to [load],
      [loadAll], [safeLoad] and [safeLoadAll].  The mutable [State] of the source
      is the record [State]; the fields that are never assigned after
      construction are in [Env].
    - js-yaml, dumper: YamlDumper, from [compileStyleMap] to [dump] and
      [safeDump].
    - core-js: CoreMicrotask has the linked list of microtasks with its flush;
      CorePromise has promises on top of such a queue.  What users write
      (executors, handlers, thenables) is a tree [code] of calls to the module, and
      [step] runs one reaction, microtask or task.
    - lodash: LodashDebounce has [debounce] as a state machine over calls, timers
      and time; LodashCache has [Hash], [ListCache], [MapCache], [Stack],
      [SetCache] and [memoize]; LodashMatch has [find] with a source to match, the
      deep comparison on the heap with its [Stack].
    - Swagger UI, helpers on data: SwaggerData (plain data and the utility module),
      SwaggerSample ([sampleFromSchema]), SwaggerSearch (query strings and forms),
      SwaggerHighlight (the tokenizer), SwaggerUrl ([sanitizeUrl]), SwaggerValidate
      ([validateParam]), SwaggerCurl ([curl]).
    - Swagger UI, plugins and state: SwaggerSystem (how plugins are merged and actions
      wrapped), SwaggerErrors, SwaggerAuth, SwaggerDeepLink and SwaggerSpec (the
      reducers and selectors of the plugins err, auth, layout with deep links, and
      spec), SwaggerOperations (the operations of a description and their tags).  A
      state is a record with one field for each field of the map of the source, and a
      reducer is a function on it that may throw; [makeReducer] keeps the state
      then, as the source does.
    - Swagger UI, whole runs: SwaggerOAuth has the four OAuth2 flows with the form, the
      window, the redirect page and the replies as one system of events, on top of
      SwaggerAuth and SwaggerErrors; SwaggerExecute has the button that validates and
      executes, on top of SwaggerSpec and SwaggerValidate.
    - Buffer: NodeBuffer, every method of the buffer prototype and of the
      constructor.  A buffer is a view of a store of bytes, so that slices and
      the buffers over one ArrayBuffer share what is written.

    ** What the theorems show

    - Totality of the loader (YamlLoaderTotal, YamlTotality): every call of an
      entry point returns documents or throws, whatever the text; the mark of an
      exception lies inside the text; with the safe schema only data is created.
      [safeLoadAll] is the exception: it loses the schema.  The invariant is
      proved once for each function of the loader against the class [Admits],
      which says what the types of a schema promise, and YamlTotality discharges
      it for the predefined schemas.
    - Mappings (YamlStore): storing entries one by one, with merges, implements
      the plain specification of a mapping; keys that are written twice are refused,
      merged ones may be overridden, and the key [__proto__] reaches the prototype.
    - Schemas (YamlSchemaTheory): compiling keeps the last type for each tag and
      kind, and the index finds it.
    - Strings (YamlQuoted, YamlRoundTrip): what [safeDump] writes for a string,
      plain or quoted, [safeLoad] reads back.
    - The dumper (YamlDuplicates, YamlDumpTotal): anchors go to exactly the objects
      that are referenced twice, and because of them dumping ends for every value,
      also one that contains itself.
    - Binary data (YamlBinary): the base64 of the type [!!binary] is inverted.
    - Microtasks (CoreMicrotask): the list with [head] and [last] is a queue, and a
      flush is on its way while it is not empty, whatever tasks add or throw.
    - Promises (CorePromiseTheory): one invariant of the machine says that a promise
      has exactly one means of being settled; so it settles once, its reactions run
      in order and once, and none is forgotten.
    - Debouncing (LodashDebounceTheory): an invocation serves the latest call, in
      time, and only after a quiet period where that is promised; without the trailing
      edge a call that waits is given up.
    - Caches (LodashCacheTheory, LodashCacheClients): the class [FiniteMap] is the
      promise of a cache, each layer is an instance built on the ones below it, and
      [memoize] is proved against it.  When keys are the same is said apart from the
      containers they go to, and the containers are proved to keep them apart.
      [Stack] is a stack while it is short and a map later.
    - Matching (LodashMatchTheory, LodashMatchExact): the comparison ends, for cyclic
      data too, while the stack is a list, and for some data not when it has become a
      map; what it accepts matches, and without arrays it accepts all that matches.
    - Requests (SwaggerSpecTheory, SwaggerExecute): the values that are entered are the
      values that are checked and sent, nothing is sent that was checked with an
      error, and resolved parts of a description are what is read.
      SwaggerOperations: every operation is listed under its tags.
    - Authorization (SwaggerAuth, SwaggerOAuthTheory, SwaggerOAuthSafety): logging in
      and out change what they should; the flow with an access code sends what the
      grant needs, a second run sends the old code; only a reply with a token (or the
      redirect, in the implicit flow) authorizes.
    - Plugins and errors (SwaggerSystemTheory, SwaggerErrors): the wrappers of an action
      are applied in order; what clearing and adding errors does to the list.
    - Links, commands and data (SwaggerUrl, SwaggerDeepLink, SwaggerCurl, SwaggerSearch,
      SwaggerSampleTheory, SwaggerValidate, SwaggerHighlight): no link runs a script;
      links and queries are read back, with spaces for the underscores of a link; the
      command for curl is read by a shell as the request; examples are valid for schemas
      that keep to what the page looks at; an integer is accepted exactly when it is one
      within the bounds; highlighting shows the text.
    - Buffer: integers (NodeBufferInts, NodeBufferFixed), views and copies
      (NodeBufferMemory), text (NodeBufferText: what becomes of every string, lone
      surrogates included), comparison (NodeBufferOrder).

    ** Fuel and bounds

    Loops of the source that are not structural carry fuel, and running out of
    it is the outcome [OutOfFuel], which no theorem accepts as a result: [wp]
    makes it [False].  A loop of the loader that scans characters has one step
    for each position of the input and the terminating zero; [composeNode] gets
    two steps for each, because a node that nests without moving on is a block
    collection at its first entry or the content of a property.
    YamlLoaderTotal proves that these are never exhausted.  The dumper may nest two
    levels deeper than there are objects on the heap, which YamlDumpTotal proves
    enough while anchors are on; [highlight] gets a step for each character and
    three more; [sampleFromSchema], [validate] and the merge of resolved parts get the
    depth of the data and one more; [JSON_parse] gets two steps for each unit and one more; the
    deep comparison gets a depth, and one more than there are objects is proved
    enough while its stack is a list.  Loops over a string or a list are structural.
    Integers of the source are [Z]; the bitwise operators wrap at 32 bits, and where
    Buffer computes in binary64 with more than 53 bits the result is rounded by [fl].

    ** What is assumed and what is left out

    - Packages that are not part of the sources are parameters: base64-js and ieee754
      (arguments of the definitions that call them), the maps, sets and trees of
      Immutable.js (the classes [ImMap], [ImCollection], [ImTree] and [ShownMap] with
      their laws, which association lists satisfy), deep-extend, url-parse,
      swagger-client ([buildRequest], [opId]) and the hash of a parameter.
    - [Host] is what the page's environment decides: whether there is a Buffer
      and an esprima, which patterns are regular expressions, and what esprima
      and the functions stored in a document return.  The engine's own regular
      expressions, dates and built-in prototype properties are parameters where
      patterns and values come from the user, as is how a browser writes a
      fragment.
    - The user's callbacks of the loader are recorded as the values they receive.
    - The function behind [debounce] does not call the debounced function, and
      times are whole milliseconds.  Promises are those of the constructor itself:
      subclasses, Node's domains and iterables that are no arrays are left out.
      Keys of caches are all values but symbols.  Matching is modelled with the flags
      of its callers, without customizers, [Map] and [Set] objects.
    - Of the branches for engines without typed arrays only the integer writers
      are modelled, and [arrayIndexOf] for encodings of single bytes.  Plugin objects
      have no identity: one that is listed twice is two objects with one content.
    - Not modelled: React components and what they render (but for the handlers of the
      OAuth2 form and of the Execute button), because React is not part of the
      sources; downloading, parsing and resolving a description, which is the work of
      swagger-client; selectors that read one field, the sorting of the groups and
      the modes of the layout; the XML examples, which change a shared schema while
      they read it; the rest of lodash and core-js, of which the modelled code uses
      only the language; the two minified builds of the same modules; and the Go code
      of the repository, which is another program. *)

From stdpp Require Export base tactics option list numbers strings.
From Stdlib Require Export ZArith Lia Bool.

#[global] Open Scope Z_scope.
#[global] Set Default Goal Selector "!".

(** ** JavaScript strings

    A JavaScript string is a sequence of UTF-16 code units; a code unit is a
    [Z] in [[0, 65536)].  [js] turns an ASCII literal of the source into code
    units. *)

Abbreviation jsstr := (list Z).

Definition js (s : string) : jsstr :=
  List.map (fun a => Z.of_N (Ascii.N_of_ascii a)) (String.list_ascii_of_string s).

Definition strlen {A} (s : list A) : Z := Z.of_nat (length s).

(** [s.charCodeAt(i)].  Out of range the language gives [NaN], which compares
    unequal to every code and is neither below nor above any bound; every use
    in the source only compares the result with codes, and [-1] answers those
    comparisons in the same way. *)
Definition charCodeAt (s : jsstr) (i : Z) : Z :=
  if decide (i < 0) then -1 else default (-1) (s !! Z.to_nat i).

(** [s[i]], a one-unit string or [undefined]. *)
Definition char_at (s : jsstr) (i : Z) : option Z :=
  if decide (i < 0) then None else s !! Z.to_nat i.

(** [s.slice(a, b)] for non-negative [a] and [b]. *)
Definition slice {A} (s : list A) (a b : Z) : list A :=
  take (Z.to_nat b - Z.to_nat a) (drop (Z.to_nat a) s).

(** [s.slice(a)]. *)
Definition slice_from {A} (s : list A) (a : Z) : list A := drop (Z.to_nat a) s.

(** [s1 === s2] on strings. *)
Definition jseqb (s1 s2 : jsstr) : bool := bool_decide (s1 = s2).

(** [s.indexOf(c)] for a one-unit string [c]. *)
Fixpoint indexOf_from (i : Z) (s : jsstr) (c : Z) : Z :=
  match s with
  | [] => -1
  | x :: s' => if x =? c then i else indexOf_from (i + 1) s' c
  end.
Definition indexOf (s : jsstr) (c : Z) : Z := indexOf_from 0 s c.

(** [s.replace(/[cs]/g, "")]: all units of [cs] removed. *)
Definition remove_chars (cs s : jsstr) : jsstr :=
  List.filter (fun x => negb (existsb (Z.eqb x) cs)) s.

(** [s.split(c)] for a one-unit separator. *)
Fixpoint split_char (c : Z) (s : jsstr) : list jsstr :=
  match s with
  | [] => [[]]
  | x :: s' =>
      if x =? c then [] :: split_char c s'
      else match split_char c s' with
           | [] => [[x]]
           | h :: t => (x :: h) :: t
           end
  end.

(** [arr.join(sep)]. *)
Fixpoint join (sep : jsstr) (l : list jsstr) : jsstr :=
  match l with
  | [] => []
  | [x] => x
  | x :: l' => x ++ sep ++ join sep l'
  end.

(** [toUpperCase] and [toLowerCase] on ASCII letters. *)
Definition upper_unit (c : Z) : Z :=
  if (97 <=? c) && (c <=? 122) then c - 32 else c.
Definition lower_unit (c : Z) : Z :=
  if (65 <=? c) && (c <=? 90) then c + 32 else c.
Definition toUpperCase (s : jsstr) : jsstr := upper_unit <$> s.
Definition toLowerCase (s : jsstr) : jsstr := lower_unit <$> s.

(** [String.fromCharCode(c)] applies ToUint16. *)
Definition fromCharCode (c : Z) : jsstr := [c mod 65536].

(** ** 32-bit integer operators

    [ToInt32] and the bitwise operators of the language on integers. *)

Definition toInt32 (z : Z) : Z := (z + 2 ^ 31) mod 2 ^ 32 - 2 ^ 31.
Definition shl32 (a k : Z) : Z := toInt32 (Z.shiftl (toInt32 a) (k mod 32)).
Definition sar32 (a k : Z) : Z := Z.shiftr (toInt32 a) (k mod 32).
Definition and32 (a b : Z) : Z := Z.land (toInt32 a) (toInt32 b).
Definition or32 (a b : Z) : Z := Z.lor (toInt32 a) (toInt32 b).

(** ** Outcomes

    A call returns, throws, or exhausts the fuel a loop of the model was
    given.  The last is not a behaviour of the program: the theorems show it
    never happens. *)

Inductive outcome (X A : Type) : Type :=
| Ret (a : A)
| Throw (e : X)
| OutOfFuel.
Arguments Ret {X A} a.
Arguments Throw {X A} e.
Arguments OutOfFuel {X A}.

#[global] Instance outcome_ret X : MRet (outcome X) := fun A a => Ret a.
#[global] Instance outcome_bind X : MBind (outcome X) :=
  fun A B f m =>
    match m with Ret a => f a | Throw e => Throw e | OutOfFuel => OutOfFuel end.

(** Computations over a mutable state. *)
Definition SE (St X A : Type) : Type := St -> outcome X (A * St).

#[global] Instance SE_ret St X : MRet (SE St X) := fun A a s => Ret (a, s).
#[global] Instance SE_bind St X : MBind (SE St X) :=
  fun A B f m s =>
    match m s with
    | Ret (a, s') => f a s'
    | Throw e => Throw e
    | OutOfFuel => OutOfFuel
    end.

Section monad_ops.
Context {St X : Type}.

Definition getS : SE St X St := fun s => Ret (s, s).
Definition gets {A} (f : St -> A) : SE St X A := fun s => Ret (f s, s).
Definition modifyS (f : St -> St) : SE St X unit := fun s => Ret (tt, f s).
Definition raise {A} (e : X) : SE St X A := fun _ => Throw e.
Definition diverge {A} : SE St X A := fun _ => OutOfFuel.
Definition liftO {A} (o : outcome X A) : SE St X A :=
  fun s => match o with
           | Ret a => Ret (a, s)
           | Throw e => Throw e
           | OutOfFuel => OutOfFuel
           end.
End monad_ops.

(** ** A program logic for [SE]

    [wp m Q R s]: run from [s], [m] does not exhaust its fuel, satisfies [Q]
    when it returns and [R] when it throws. *)

Definition wp {St X A} (m : SE St X A) (Q : A -> St -> Prop) (R : X -> Prop)
    (s : St) : Prop :=
  match m s with
  | Ret (a, s') => Q a s'
  | Throw e => R e
  | OutOfFuel => False
  end.

Section wp_rules.
Context {St X : Type}.
Implicit Types s : St.

Lemma wp_ret {A} (a : A) (Q : A -> St -> Prop) (R : X -> Prop) s :
  Q a s -> wp (mret a : SE St X A) Q R s.
Proof. done. Qed.

Lemma wp_bind {A B} (m : SE St X A) (k : A -> SE St X B) Q R s :
  wp m (fun a s' => wp (k a) Q R s') R s -> wp (m ≫= k) Q R s.
Proof.
  unfold wp, mbind, SE_bind. by destruct (m s) as [[a s']|e|].
Qed.

Lemma wp_mono {A} (m : SE St X A) (Q Q' : A -> St -> Prop) (R R' : X -> Prop) s :
  wp m Q R s -> (forall a s', Q a s' -> Q' a s') -> (forall e, R e -> R' e) ->
  wp m Q' R' s.
Proof.
  unfold wp. destruct (m s) as [[a s']|e|]; intros H HQ HR; [| |done].
  - by apply HQ.
  - by apply HR.
Qed.

Lemma wp_mono_post {A} (m : SE St X A) (Q Q' : A -> St -> Prop) (R : X -> Prop) s :
  wp m Q R s -> (forall a s', Q a s' -> Q' a s') -> wp m Q' R s.
Proof. intros H HQ. by eapply wp_mono. Qed.

Lemma wp_getS Q (R : X -> Prop) s : Q s s -> wp getS Q R s.
Proof. done. Qed.

Lemma wp_gets {A} (f : St -> A) Q (R : X -> Prop) s :
  Q (f s) s -> wp (gets f) Q R s.
Proof. done. Qed.

Lemma wp_modifyS (f : St -> St) Q (R : X -> Prop) s :
  Q tt (f s) -> wp (modifyS f) Q R s.
Proof. done. Qed.

Lemma wp_raise {A} (e : X) (Q : A -> St -> Prop) (R : X -> Prop) s :
  R e -> wp (raise e) Q R s.
Proof. done. Qed.

Lemma wp_liftO {A} (o : outcome X A) (Q : A -> St -> Prop) (R : X -> Prop) s :
  match o with Ret a => Q a s | Throw e => R e | OutOfFuel => False end ->
  wp (liftO o) Q R s.
Proof. unfold wp, liftO. by destruct o. Qed.

(** What a run of [m] gives, read back from [wp]. *)
Lemma wp_not_out_of_fuel {A} (m : SE St X A) Q (R : X -> Prop) s :
  wp m Q R s -> m s <> OutOfFuel.
Proof. unfold wp. by destruct (m s) as [[]| |]. Qed.

Lemma wp_returns {A} (m : SE St X A) Q (R : X -> Prop) s a s' :
  wp m Q R s -> m s = Ret (a, s') -> Q a s'.
Proof. unfold wp. by intros H Hm; rewrite Hm in H. Qed.

Lemma wp_returns_iff {A} (m : SE St X A) (a : A) s s' :
  m s = Ret (a, s') ->
  forall Q (R : X -> Prop), Q a s' -> wp m Q R s.
Proof. unfold wp. by intros ->. Qed.
End wp_rules.

(** One step of symbolic execution of an [SE] program. *)
Ltac wp_prim :=
  lazymatch goal with
  | |- wp (mbind _ _) _ _ _ => apply wp_bind
  | |- wp (mret _) _ _ _ => apply wp_ret
  | |- wp getS _ _ _ => apply wp_getS
  | |- wp (gets _) _ _ _ => apply wp_gets
  | |- wp (modifyS _) _ _ _ => apply wp_modifyS
  | |- wp (raise _) _ _ _ => apply wp_raise
  | |- wp (liftO _) _ _ _ => apply wp_liftO
  end; cbv beta.

(** Case on the test of a conditional program. *)
Ltac wp_case H :=
  lazymatch goal with
  | |- wp (if ?b then _ else _) _ _ _ => destruct b eqn:H
  | |- wp (match ?x with _ => _ end) _ _ _ => destruct x eqn:H
  end.

(** Use a proved specification of the program at the head. *)
Tactic Notation "wp_use" uconstr(H) :=
  eapply wp_mono_post; [eapply H|].

(** ** Booleans and integers *)

(** Turn the boolean tests of the source into arithmetic. *)
Ltac bool_to_prop :=
  repeat match goal with
  | H : _ && _ = true |- _ => apply andb_true_iff in H as [? ?]
  | H : _ || _ = false |- _ => apply orb_false_iff in H as [? ?]
  | H : negb _ = true |- _ => apply negb_true_iff in H
  | H : negb _ = false |- _ => apply negb_false_iff in H
  | H : (_ =? _) = true |- _ => apply Z.eqb_eq in H
  | H : (_ =? _) = false |- _ => apply Z.eqb_neq in H
  | H : (_ <? _) = true |- _ => apply Z.ltb_lt in H
  | H : (_ <? _) = false |- _ => apply Z.ltb_ge in H
  | H : (_ <=? _) = true |- _ => apply Z.leb_le in H
  | H : (_ <=? _) = false |- _ => apply Z.leb_gt in H
  end.

Lemma jseqb_eq s1 s2 : jseqb s1 s2 = true <-> s1 = s2.
Proof. apply bool_decide_eq_true. Qed.

Lemma jseqb_refl s : jseqb s s = true.
Proof. by apply jseqb_eq. Qed.

Lemma jseqb_neq s1 s2 : jseqb s1 s2 = false <-> s1 <> s2.
Proof. apply bool_decide_eq_false. Qed.

(** ** Strings *)

Lemma strlen_app {A} (s t : list A) : strlen (s ++ t) = strlen s + strlen t.
Proof. unfold strlen. rewrite length_app. lia. Qed.

Lemma strlen_cons {A} x (s : list A) : strlen (x :: s) = 1 + strlen s.
Proof. unfold strlen. rewrite length_cons. lia. Qed.

Lemma strlen_nil {A} : strlen (@nil A) = 0.
Proof. done. Qed.

Lemma strlen_nonneg {A} (s : list A) : 0 <= strlen s.
Proof. unfold strlen. lia. Qed.

Lemma charCodeAt_app_r (s t : jsstr) i :
  strlen s <= i -> charCodeAt (s ++ t) i = charCodeAt t (i - strlen s).
Proof.
  unfold charCodeAt, strlen. intros H.
  rewrite !decide_False by lia.
  rewrite lookup_app_r by lia. do 2 f_equal. lia.
Qed.

Lemma charCodeAt_app_l (s t : jsstr) i :
  i < strlen s -> charCodeAt (s ++ t) i = charCodeAt s i.
Proof.
  unfold charCodeAt, strlen. intros H. case_decide; [done|].
  rewrite lookup_app_l by lia. done.
Qed.

Lemma charCodeAt_cons_0 c (s : jsstr) : charCodeAt (c :: s) 0 = c.
Proof. done. Qed.

Lemma charCodeAt_mid (s t : jsstr) c i :
  i = strlen s -> charCodeAt (s ++ c :: t) i = c.
Proof.
  intros ->. rewrite charCodeAt_app_r by lia.
  by rewrite Z.sub_diag, charCodeAt_cons_0.
Qed.

Lemma charCodeAt_ge (s : jsstr) i : strlen s <= i -> charCodeAt s i = -1.
Proof.
  unfold charCodeAt, strlen. intros. case_decide; [done|].
  by rewrite lookup_ge_None_2 by lia.
Qed.

Lemma slice_app_mid {A} (s m t : list A) a b :
  a = strlen s -> b = strlen s + strlen m -> slice (s ++ m ++ t) a b = m.
Proof.
  unfold slice, strlen. intros -> ->.
  rewrite drop_app_length' by lia.
  by rewrite take_app_length' by lia.
Qed.

Lemma slice_empty {A} (s : list A) a b : b <= a -> slice s a b = [].
Proof. intros. unfold slice. by replace (Z.to_nat b - Z.to_nat a)%nat with 0%nat by lia. Qed.

Create HintDb js discriminated.
#[export] Hint Rewrite @strlen_app @strlen_cons @strlen_nil : js.
#[export] Hint Resolve strlen_nonneg jseqb_refl : js.
