(* ===== verification/JsInt32.v ===== *)
(** * 32-bit integers

    Bytes, and what the bitwise operators of the language compute when they are
    used to cut a number into fields and to put it together again. *)

From S2P Require Import JsPrelude.

Definition is_byte (b : Z) : Prop := 0 <= b < 256.

(** Linear facts about quotients and remainders by constants. *)
Ltac div_mod := Z.to_euclidean_division_equations; lia.

Lemma toInt32_mod z : toInt32 z mod 2 ^ 32 = z mod 2 ^ 32.
Proof. unfold toInt32. div_mod. Qed.

Lemma toInt32_small z : 0 <= z < 2 ^ 31 -> toInt32 z = z.
Proof. unfold toInt32. div_mod. Qed.

(** Bits [k .. k+w) do not depend on those above the 32nd, nor on the sign. *)
Lemma field_mod x k w : 0 <= k -> 0 <= w -> k + w <= 32 ->
  ((x mod 2 ^ 32) / 2 ^ k) mod 2 ^ w = (x / 2 ^ k) mod 2 ^ w.
Proof.
  intros Hk Hw Hkw. apply Z.bits_inj'. intros n Hn.
  rewrite <- !Z.land_ones, <- !Z.shiftr_div_pow2 by lia. rewrite !Z.land_spec.
  rewrite !Z.shiftr_spec, Z.land_spec by done.
  destruct (decide (n < w)).
  - rewrite (Z.ones_spec_low 32) by lia. by rewrite andb_true_r.
  - rewrite (Z.ones_spec_high w) by lia. by rewrite !andb_false_r.
Qed.

Lemma shift_mask z k w : 0 <= k -> 0 <= w -> k + w <= 32 ->
  Z.shiftr (toInt32 z) k mod 2 ^ w = (z / 2 ^ k) mod 2 ^ w.
Proof.
  intros Hk Hw Hkw. rewrite Z.shiftr_div_pow2 by done.
  by rewrite <- field_mod, toInt32_mod, field_mod.
Qed.

Lemma and32_sar z k w : 0 <= k < 32 -> 0 <= w <= 8 -> k + w <= 32 ->
  and32 (sar32 z k) (2 ^ w - 1) = (z / 2 ^ k) mod 2 ^ w.
Proof.
  intros Hk Hw Hkw. unfold and32, sar32. rewrite (Z.mod_small k) by lia.
  assert (2 ^ w <= 2 ^ 8) by (apply Z.pow_le_mono_r; lia).
  assert (0 < 2 ^ w) by (apply Z.pow_pos_nonneg; lia).
  rewrite (toInt32_small (2 ^ w - 1)) by lia.
  replace (2 ^ w - 1) with (Z.ones w) by (rewrite Z.ones_equiv; lia).
  rewrite Z.land_ones by lia.
  replace (toInt32 (Z.shiftr (toInt32 z) k)) with (Z.shiftr (toInt32 z) k);
    [by apply shift_mask; lia|].
  rewrite Z.shiftr_div_pow2 by lia.
  assert (Hr : - 2 ^ 31 <= toInt32 z < 2 ^ 31) by (unfold toInt32; div_mod).
  assert (0 < 2 ^ k) by (apply Z.pow_pos_nonneg; lia).
  assert (- 2 ^ 31 <= toInt32 z / 2 ^ k < 2 ^ 31).
  { split; [apply Z.div_le_lower_bound; nia|apply Z.div_lt_upper_bound; nia]. }
  unfold toInt32 at 2. rewrite Z.mod_small by lia. lia.
Qed.

Lemma shl32_mod z k m : 0 <= k < 32 -> 0 <= m <= 32 ->
  shl32 z k mod 2 ^ m = (z * 2 ^ k) mod 2 ^ m.
Proof.
  intros Hk Hm. unfold shl32. rewrite (Z.mod_small k), Z.shiftl_mul_pow2 by lia.
  assert (Hdiv : (2 ^ m | 2 ^ 32)).
  { exists (2 ^ (32 - m)). rewrite <- Z.pow_add_r by lia. f_equal. lia. }
  assert (Hmod : forall x, toInt32 x mod 2 ^ m = x mod 2 ^ m).
  { intros x. by rewrite <- (Z.mod_mod_divide _ _ _ Hdiv), toInt32_mod, Z.mod_mod_divide. }
  rewrite Hmod, Zmult_mod, Hmod, <- Zmult_mod. done.
Qed.

(** ** Masks, and sums of disjoint fields *)

Lemma toInt32_range z : - 2 ^ 31 <= toInt32 z < 2 ^ 31.
Proof. unfold toInt32. div_mod. Qed.

Lemma toInt32_id z : - 2 ^ 31 <= z < 2 ^ 31 -> toInt32 z = z.
Proof. unfold toInt32. div_mod. Qed.

Lemma toInt32_mod_pow z w : 0 <= w <= 32 -> toInt32 z mod 2 ^ w = z mod 2 ^ w.
Proof.
  intros Hw. assert (Hdiv : (2 ^ w | 2 ^ 32)).
  { exists (2 ^ (32 - w)). rewrite <- Z.pow_add_r by lia. f_equal. lia. }
  by rewrite <- (Z.mod_mod_divide _ _ _ Hdiv), toInt32_mod, Z.mod_mod_divide.
Qed.

Lemma and32_ones z w : 0 <= w <= 31 -> and32 z (2 ^ w - 1) = z mod 2 ^ w.
Proof.
  intros Hw. unfold and32. assert (0 < 2 ^ w) by (apply Z.pow_pos_nonneg; lia).
  assert (2 ^ w <= 2 ^ 31) by (apply Z.pow_le_mono_r; lia).
  rewrite (toInt32_small (2 ^ w - 1)) by lia.
  replace (2 ^ w - 1) with (Z.ones w) by (rewrite Z.ones_equiv; lia).
  rewrite Z.land_ones by lia. apply toInt32_mod_pow. lia.
Qed.

Lemma and32_255 z : and32 z 255 = z mod 256.
Proof. apply (and32_ones z 8). lia. Qed.

Lemma and32_63 z : and32 z 63 = z mod 64.
Proof. apply (and32_ones z 6). lia. Qed.

(** A field above [k] bits and one of at most [k] bits. *)
Lemma land_disjoint a b k : 0 <= k -> a mod 2 ^ k = 0 -> 0 <= b < 2 ^ k -> Z.land a b = 0.
Proof.
  intros Hk Ha Hb. apply Z.bits_inj'. intros n Hn.
  rewrite Z.land_spec, Z.bits_0. destruct (decide (n < k)) as [Hlt|Hge].
  - assert (Hbit : Z.testbit a n = false); [|by rewrite Hbit].
    rewrite <- (Z.mod_pow2_bits_low a k n), Ha by lia. apply Z.bits_0.
  - assert (Hbit : Z.testbit b n = false); [|by rewrite Hbit, andb_false_r].
    destruct (decide (b = 0)) as [->|]; [apply Z.bits_0|].
    apply Z.bits_above_log2; [lia|]. apply Z.log2_lt_pow2; [lia|].
    eapply Z.lt_le_trans; [apply Hb|]. apply Z.pow_le_mono_r; lia.
Qed.

Lemma lor_disjoint a b k : 0 <= k -> a mod 2 ^ k = 0 -> 0 <= b < 2 ^ k -> Z.lor a b = a + b.
Proof.
  intros Hk Ha Hb. pose proof (Z.add_lor_land a b) as Hsum.
  rewrite (land_disjoint a b k) in Hsum; lia.
Qed.

(** The test of the top bit of a field. *)
Lemma top_bit v k : 0 <= k < 31 -> 0 <= v < 2 ^ (k + 1) ->
  (and32 v (2 ^ k) =? 0) = (v <? 2 ^ k).
Proof.
  intros Hk Hv. assert (0 < 2 ^ k) by (apply Z.pow_pos_nonneg; lia).
  assert (2 ^ (k + 1) = 2 * 2 ^ k) by (rewrite Z.pow_add_r by lia; lia).
  assert (2 ^ (k + 1) <= 2 ^ 31) by (apply Z.pow_le_mono_r; lia).
  assert (Hself : 2 ^ k mod 2 ^ k = 0) by (apply Z.mod_same; lia).
  unfold and32. rewrite !toInt32_small by lia. destruct (Z.ltb_spec v (2 ^ k)).
  - by rewrite Z.land_comm, (land_disjoint (2 ^ k) v k) by lia.
  - replace v with (Z.lor (2 ^ k) (v - 2 ^ k)) by (rewrite (lor_disjoint _ _ k); lia).
    rewrite Z.land_lor_distr_l, Z.land_diag, (Z.land_comm (v - 2 ^ k)).
    rewrite (land_disjoint (2 ^ k) (v - 2 ^ k) k) by lia. rewrite Z.lor_0_r.
    apply Z.eqb_neq. lia.
Qed.

Lemma or32_disjoint a b k :
  0 <= k -> - 2 ^ 31 <= a < 2 ^ 31 -> 0 <= b < 2 ^ 31 -> a mod 2 ^ k = 0 -> b < 2 ^ k ->
  or32 a b = a + b.
Proof. intros. unfold or32. rewrite !toInt32_id by lia. apply (lor_disjoint _ _ k); lia. Qed.

Lemma or32_comm a b : or32 a b = or32 b a.
Proof. apply Z.lor_comm. Qed.

Lemma shl32_small z k : 0 <= k < 32 -> 0 <= z -> z * 2 ^ k < 2 ^ 31 -> shl32 z k = z * 2 ^ k.
Proof.
  intros Hk Hz Hlt. assert (1 <= 2 ^ k) by (apply (Z.pow_le_mono_r 2 0); lia). unfold shl32.
  rewrite (Z.mod_small k), (toInt32_small z), Z.shiftl_mul_pow2, toInt32_small; [done|nia..].
Qed.

Lemma sar32_small z k : 0 <= k < 32 -> 0 <= z < 2 ^ 31 -> sar32 z k = z / 2 ^ k.
Proof.
  intros Hk Hz. unfold sar32. by rewrite (Z.mod_small k), toInt32_small, Z.shiftr_div_pow2 by lia.
Qed.

Lemma join_field a b k x : 0 <= k <= 24 -> a = x * 2 ^ k -> - 2 ^ 31 <= a < 2 ^ 31 -> 0 <= b < 2 ^ k ->
  or32 a b = a + b /\ or32 b a = a + b.
Proof.
  intros Hk Ha Hr Hb. assert (2 ^ k <= 2 ^ 24) by (apply Z.pow_le_mono_r; lia).
  assert (Hor : or32 a b = a + b).
  { apply (or32_disjoint _ _ k); try lia. rewrite Ha. apply Z_mod_mult. }
  split; [done|]. by rewrite or32_comm.
Qed.
