(* ===== verification/JsNumber.v ===== *)
(** * JavaScript numbers

    The language's Number type is IEEE 754 binary64, represented by the
    Standard Library's [spec_float].  This file models what the sources use of
    it: the exact integer and rational conversions ([parseInt], [parseFloat]),
    multiplication and addition, [Number.prototype.toString], and the integer
    tests.  All of it computes. *)

From S2P Require Import JsPrelude.
From Stdlib Require Import Floats.SpecFloat.

Abbreviation num := spec_float.

Definition prec := 53.
Definition emax := 1024.

(** ** Conversion from integers and ratios, rounding to nearest even *)

Definition num_of_Z (z : Z) : num := binary_normalize prec emax z 0 false.

(** The double nearest to [n / d] ([0 <= n], [0 < d]): the quotient is scaled to
    at least 64 significant bits and the remainder kept as a sticky bit, which
    is enough for one correct rounding to 53 bits or fewer. *)
Definition num_of_ratio (n d : Z) : num :=
  if n =? 0 then S754_zero false
  else
    let k := Z.max 0 (66 + Z.log2 d - Z.log2 n) in
    let q := Z.shiftl n k / d in
    let r := Z.shiftl n k mod d in
    binary_normalize prec emax (2 * q + (if r =? 0 then 0 else 1)) (- k - 1) false.

Definition num_mul : num -> num -> num := SFmul prec emax.
Definition num_add : num -> num -> num := SFadd prec emax.
Definition num_opp : num -> num := SFopp.

(** [===] on numbers: [NaN] is unequal to itself and the zeros are equal. *)
Definition num_eqb (a b : num) : bool :=
  match SFcompare a b with Some Eq => true | _ => false end.

Definition is_nan (a : num) : bool :=
  match a with S754_nan => true | _ => false end.

(** The mathematical integer a number denotes, when it denotes one. *)
Definition num_to_Z (a : num) : option Z :=
  match a with
  | S754_zero _ => Some 0
  | S754_finite s m e =>
      let sgn := if s then -1 else 1 in
      if 0 <=? e then Some (sgn * Z.shiftl (Zpos m) e)
      else if Z.land (Zpos m) (Z.ones (- e)) =? 0
           then Some (sgn * Z.shiftr (Zpos m) (- e)) else None
  | _ => None
  end.

(** [x % 1 === 0]. *)
Definition is_integral (a : num) : bool :=
  match num_to_Z a with Some _ => true | None => false end.

(** ** Digits *)

Definition digit_unit (d : Z) : Z := if d <? 10 then 48 + d else 87 + d.

Fixpoint digits_fuel (fuel : nat) (radix n : Z) (acc : jsstr) : jsstr :=
  match fuel with
  | O => acc
  | S f =>
      let acc' := digit_unit (n mod radix) :: acc in
      if n <? radix then acc' else digits_fuel f radix (n / radix) acc'
  end.

(** The digits of [n >= 0] in a radix of at least 2: one bit per step is an
    upper bound on the number of digits. *)
Definition digits (radix n : Z) : jsstr :=
  digits_fuel (S (Z.to_nat (Z.log2 n))) radix n [].

(** [Number.prototype.toString(radix)] on a mathematical integer. *)
Definition int_toString (radix n : Z) : jsstr :=
  if n <? 0 then 45 :: digits radix (- n) else digits radix n.

(** Value of a digit unit, [-1] when it is none. *)
Definition digit_value (c : Z) : Z :=
  if (48 <=? c) && (c <=? 57) then c - 48
  else if (97 <=? c) && (c <=? 122) then c - 87
  else if (65 <=? c) && (c <=? 90) then c - 55
  else -1.

Definition is_digit (radix c : Z) : bool :=
  (0 <=? digit_value c) && (digit_value c <? radix).

(** The longest prefix of digits, its value continuing [acc], its length and
    what follows. *)
Fixpoint read_digits (radix acc len : Z) (s : jsstr) : Z * Z * jsstr :=
  match s with
  | c :: s' => if is_digit radix c
               then read_digits radix (acc * radix + digit_value c) (len + 1) s'
               else (acc, len, s)
  | [] => (acc, len, s)
  end.

(** ** [parseInt] and [parseFloat] *)

(** WhiteSpace and LineTerminator of the language. *)
Definition is_js_space (c : Z) : bool :=
  existsb (Z.eqb c) [9; 10; 11; 12; 13; 32; 160; 5760; 8232; 8233; 8239; 8287; 12288; 65279]
  || ((8192 <=? c) && (c <=? 8202)).

Fixpoint trim_start (s : jsstr) : jsstr :=
  match s with
  | c :: s' => if is_js_space c then trim_start s' else s
  | [] => []
  end.

Definition read_sign (s : jsstr) : bool * jsstr :=
  match s with
  | 45 :: s' => (true, s')
  | 43 :: s' => (false, s')
  | _ => (false, s)
  end.

Definition with_sign (neg : bool) (x : num) : num := if neg then num_opp x else x.

Definition parseInt (s : jsstr) (radix : Z) : num :=
  let '(neg, s1) := read_sign (trim_start s) in
  let s2 := match s1 with
            | 48 :: x :: s' =>
                if (radix =? 16) && ((x =? 120) || (x =? 88)) then s' else s1
            | _ => s1
            end in
  let '(v, len, _) := read_digits radix 0 0 s2 in
  if len =? 0 then S754_nan else with_sign neg (num_of_Z v).

(** [v * 10^e] as a double. *)
Definition num_of_scaled (v e : Z) : num :=
  if 0 <=? e then num_of_ratio (v * 10 ^ e) 1 else num_of_ratio v (10 ^ (- e)).

Definition read_exponent (s : jsstr) : Z :=
  match s with
  | c :: s' =>
      if (c =? 101) || (c =? 69) then
        let '(neg, s1) := read_sign s' in
        let '(v, len, _) := read_digits 10 0 0 s1 in
        if len =? 0 then 0 else if neg then - v else v
      else 0
  | [] => 0
  end.

Definition parseFloat (s : jsstr) : num :=
  let '(neg, s1) := read_sign (trim_start s) in
  if bool_decide (take 8 s1 = js "Infinity") then with_sign neg (S754_infinity false)
  else
    let '(v1, len1, s2) := read_digits 10 0 0 s1 in
    let '(v2, len2, s3) :=
      match s2 with
      | 46 :: s' => read_digits 10 v1 0 s'
      | _ => (v1, 0, s2)
      end in
    if (len1 =? 0) && (len2 =? 0) then S754_nan
    else with_sign neg (num_of_scaled v2 (read_exponent s3 - len2)).

(** ** [Number.prototype.toString()]

    The shortest decimal [s * 10^(n-k)] with [k] digits that rounds back to the
    number, the closest one when there are several. *)

(** Position of the decimal point: [10^(n-1) <= a/b < 10^n]. *)
Fixpoint point_pos (fuel : nat) (a b n : Z) : Z :=
  match fuel with
  | O => n
  | S f => if a <? b then (if b <=? a * 10 then n else point_pos f (a * 10) b (n - 1))
           else point_pos f a (b * 10) (n + 1)
  end.

Definition decimal_candidate (v : num) (a b k n : Z) : option Z :=
  let '(p, q) := if 0 <=? n - k then (a, b * 10 ^ (n - k)) else (a * 10 ^ (k - n), b) in
  let lo := p / q in
  let back s := num_eqb (num_of_scaled s (n - k)) v in
  let d := 2 * (p - lo * q) in
  let first := if (d <? q) || ((d =? q) && Z.even lo) then lo else lo + 1 in
  let second := if first =? lo then lo + 1 else lo in
  if back first then Some first else if back second then Some second else None.

Fixpoint shortest (fuel : nat) (v : num) (a b k n : Z) : Z * Z * Z :=
  match decimal_candidate v a b k n, fuel with
  | Some s, _ => if s =? 10 ^ k then (1, 1, n + 1) else (s, k, n)
  | None, S f => shortest f v a b (k + 1) n
  | None, O => (a / b, k, n)
  end.

Definition zeros (n : Z) : jsstr := replicate (Z.to_nat n) 48.

Definition format_decimal (ds : jsstr) (k n : Z) : jsstr :=
  if (k <=? n) && (n <=? 21) then ds ++ zeros (n - k)
  else if (0 <? n) && (n <=? 21) then take (Z.to_nat n) ds ++ [46] ++ drop (Z.to_nat n) ds
  else if (-6 <? n) && (n <=? 0) then js "0." ++ zeros (- n) ++ ds
  else
    let e := n - 1 in
    let es := 101 :: (if e <? 0 then 45 else 43) :: digits 10 (Z.abs e) in
    match ds with
    | [d] => d :: es
    | d :: ds' => d :: 46 :: ds' ++ es
    | [] => es
    end.

Definition num_toString (v : num) : jsstr :=
  match v with
  | S754_nan => js "NaN"
  | S754_zero _ => js "0"
  | S754_infinity s => (if s then [45] else []) ++ js "Infinity"
  | S754_finite s m e =>
      let '(a, b) := if 0 <=? e then (Z.shiftl (Zpos m) e, 1)
                     else (Zpos m, Z.shiftl 1 (- e)) in
      let n := point_pos 400 a b 0 in
      let '(ds, k, n') := shortest 17 (S754_finite false m e) a b 1 n in
      (if s then [45] else []) ++ format_decimal (digits 10 ds) k n'
  end.
