(* ===== verification/JsDigits.v ===== *)
(** * Digits of integers

    [Number.prototype.toString(radix)] and the readers of digits invert each
    other on integers. *)

From S2P Require Import JsPrelude JsNumber.

(** The value of a list of digits, most significant first. *)
Definition digits_val (radix acc : Z) (ds : list Z) : Z :=
  fold_left (fun a d => a * radix + d) ds acc.

Lemma digits_val_app radix acc ds1 ds2 :
  digits_val radix acc (ds1 ++ ds2) = digits_val radix (digits_val radix acc ds1) ds2.
Proof. apply fold_left_app. Qed.

Lemma digits_val_acc radix acc ds :
  digits_val radix acc ds = acc * radix ^ strlen ds + digits_val radix 0 ds.
Proof.
  revert acc. induction ds as [|d ds IH]; intros acc.
  - change (digits_val radix acc []) with acc. change (digits_val radix 0 []) with 0.
    rewrite strlen_nil. lia.
  - change (digits_val radix acc (d :: ds)) with (digits_val radix (acc * radix + d) ds).
    change (digits_val radix 0 (d :: ds)) with (digits_val radix (0 * radix + d) ds).
    rewrite IH, (IH (0 * radix + d)), strlen_cons, Z.pow_add_r by (pose proof (strlen_nonneg ds); lia).
    lia.
Qed.

(** What [digits_fuel] writes when the fuel is enough. *)
Record digits_of (radix n : Z) (ds : list Z) : Prop := {
  do_range : Forall (fun d => 0 <= d < radix) ds;
  do_value : digits_val radix 0 ds = n;
  do_nonempty : ds <> [];
  do_length : forall k, 1 <= k -> n < radix ^ k -> strlen ds <= k;
  do_head : n <> 0 -> exists d ds', ds = d :: ds' /\ d <> 0
}.

Lemma digits_fuel_spec fuel radix n acc :
  2 <= radix -> 0 <= n < radix ^ Z.of_nat (S fuel) ->
  exists ds, digits_fuel (S fuel) radix n acc = (digit_unit <$> ds) ++ acc /\ digits_of radix n ds.
Proof.
  intros Hr. revert n acc. induction fuel as [|fuel IH]; intros n acc Hn; cbn [digits_fuel].
  - change (Z.of_nat 1) with 1 in Hn. rewrite Z.pow_1_r in Hn.
    exists [n]. destruct (Z.ltb_spec n radix); [|lia]. rewrite Z.mod_small by lia. split; [done|].
    split; [by repeat constructor; lia|unfold digits_val; simpl; lia|done| |].
    + intros k Hk _. unfold strlen. simpl. lia.
    + intros Hn0. by exists n, [].
  - destruct (Z.ltb_spec n radix) as [Hlt|Hge].
    + exists [n]. rewrite Z.mod_small by lia. split; [done|].
      split; [by repeat constructor; lia|unfold digits_val; simpl; lia|done| |].
      * intros k Hk _. unfold strlen. simpl. lia.
      * intros Hn0. by exists n, [].
    + assert (Hdiv : 0 <= n / radix < radix ^ Z.of_nat (S fuel)).
      { split; [apply Z.div_pos; lia|]. apply Z.div_lt_upper_bound; [lia|].
        rewrite <- Z.pow_succ_r by lia. replace (Z.succ (Z.of_nat (S fuel))) with (Z.of_nat (S (S fuel))) by lia.
        lia. }
      destruct (IH (n / radix) (digit_unit (n mod radix) :: acc) Hdiv) as (ds & Heq & [Hrg Hv Hne Hl Hh]).
      exists (ds ++ [n mod radix]). split.
      { cbn [digits_fuel] in Heq. rewrite Heq, fmap_app, <- app_assoc. done. }
      split.
      * apply Forall_app. split; [done|]. repeat constructor; apply Z.mod_pos_bound; lia.
      * rewrite digits_val_app, Hv. unfold digits_val. simpl. pose proof (Z.div_mod n radix). lia.
      * by destruct ds.
      * intros k Hk Hnk. rewrite strlen_app. unfold strlen at 2. simpl.
        assert (k <> 1) by (intros ->; rewrite Z.pow_1_r in Hnk; lia).
        assert (n / radix < radix ^ (k - 1)).
        { apply Z.div_lt_upper_bound; [lia|]. rewrite <- Z.pow_succ_r by lia.
          by replace (Z.succ (k - 1)) with k by lia. }
        specialize (Hl (k - 1) ltac:(lia) ltac:(done)). lia.
      * intros _. destruct Hh as (d & ds' & -> & Hd).
        { assert (1 <= n / radix) by (apply Z.div_le_lower_bound; lia). lia. }
        exists d, (ds' ++ [n mod radix]). done.
Qed.

Lemma digits_spec radix n :
  2 <= radix -> 0 <= n -> exists ds, digits radix n = digit_unit <$> ds /\ digits_of radix n ds.
Proof.
  intros Hr Hn. unfold digits.
  destruct (digits_fuel_spec (Z.to_nat (Z.log2 n)) radix n [] Hr) as (ds & Heq & Hds).
  - split; [done|]. rewrite Nat2Z.inj_succ, Z2Nat.id by apply Z.log2_nonneg.
    destruct (decide (n = 0)) as [->|]; [simpl; lia|].
    pose proof (Z.log2_spec n ltac:(lia)) as [_ Hlt].
    eapply Z.lt_le_trans; [exact Hlt|]. apply Z.pow_le_mono_l. lia.
  - exists ds. by rewrite app_nil_r in Heq.
Qed.

(** ** Reading digits back *)

Lemma digit_value_unit d : 0 <= d < 36 -> digit_value (digit_unit d) = d.
Proof.
  intros Hd. unfold digit_value, digit_unit. destruct (Z.ltb_spec d 10).
  - destruct (Z.leb_spec 48 (48 + d)), (Z.leb_spec (48 + d) 57); simpl; lia.
  - destruct (Z.leb_spec 48 (87 + d)), (Z.leb_spec (87 + d) 57); simpl; try lia.
    destruct (Z.leb_spec 97 (87 + d)), (Z.leb_spec (87 + d) 122); simpl; lia.
Qed.

Lemma read_digits_units radix acc len ds rest :
  radix <= 36 -> Forall (fun d => 0 <= d < radix) ds ->
  match rest with c :: _ => is_digit radix c = false | [] => True end ->
  read_digits radix acc len ((digit_unit <$> ds) ++ rest)
  = (digits_val radix acc ds, len + strlen ds, rest).
Proof.
  intros Hr Hds Hrest. revert acc len. induction Hds as [|d ds Hd _ IH]; intros acc len; simpl.
  - rewrite Z.add_0_r. destruct rest as [|c rest]; simpl; [done|]. by rewrite Hrest.
  - unfold is_digit. rewrite digit_value_unit by lia.
    destruct (Z.leb_spec 0 d), (Z.ltb_spec d radix); simpl; try lia.
    by rewrite IH, strlen_cons, Z.add_assoc.
Qed.

(** ** How a number begins

    The text of a number is no text of a boolean or of [null]. *)

Lemma digits_fuel_units fuel radix n acc : 2 <= radix <= 10 -> Forall (fun c => 48 <= c <= 57) acc ->
  Forall (fun c => 48 <= c <= 57) (digits_fuel fuel radix n acc).
Proof.
  intros Hr. revert n acc. induction fuel as [|fuel IH]; intros n acc Ha; [done|]. cbn [digits_fuel].
  assert (Hu : Forall (fun c => 48 <= c <= 57) (digit_unit (n mod radix) :: acc)).
  { constructor; [|done]. pose proof (Z.mod_pos_bound n radix ltac:(lia)). unfold digit_unit.
    destruct (Z.ltb_spec (n mod radix) 10); lia. }
  destruct (n <? radix); [done|by apply IH].
Qed.

Lemma digits_fuel_grows fuel radix n acc : acc <> [] -> digits_fuel fuel radix n acc <> [].
Proof.
  revert n acc. induction fuel as [|fuel IH]; intros n acc Ha; [done|]. cbn [digits_fuel].
  destruct (n <? radix); [done|by apply IH].
Qed.

Lemma digits_head n : exists d ds, digits 10 n = d :: ds /\ 48 <= d <= 57.
Proof.
  pose proof (digits_fuel_units (S (Z.to_nat (Z.log2 n))) 10 n [] ltac:(lia) ltac:(constructor)) as Hu.
  assert (Hne : digits 10 n <> []).
  { unfold digits. cbn [digits_fuel]. destruct (n <? 10); [done|by apply digits_fuel_grows]. }
  unfold digits in *. destruct (digits_fuel _ _ _ _) as [|d ds]; [done|].
  apply Forall_cons in Hu as [Hd _]. by exists d, ds.
Qed.

Lemma format_decimal_head d ds k n : 48 <= d <= 57 ->
  exists d' t, format_decimal (d :: ds) k n = d' :: t /\ 48 <= d' <= 57.
Proof.
  intros Hd. unfold format_decimal. destruct ((k <=? n) && (n <=? 21)); [by eexists _, _|].
  destruct ((0 <? n) && (n <=? 21)) eqn:E.
  { replace (Z.to_nat n) with (S (Z.to_nat (n - 1))) by lia. by eexists _, _. }
  destruct ((-6 <? n) && (n <=? 0)); [by exists 48, (46 :: zeros (- n) ++ d :: ds); split; [|lia]|].
  destruct ds; by eexists _, _.
Qed.

Definition begins_number (c : Z) : Prop := c = 45 \/ c = 73 \/ c = 78 \/ 48 <= c <= 57.

Lemma num_toString_head v : exists c t, num_toString v = c :: t /\ begins_number c.
Proof.
  unfold begins_number. destruct v as [s|s| |s m e]; cbn [num_toString].
  - exists 48, []. split; [done|lia].
  - destruct s; [exists 45, (js "Infinity")|exists 73, (js "nfinity")]; (split; [done|lia]).
  - exists 78, (js "aN"). split; [done|lia].
  - destruct (if 0 <=? e then _ else _) as [a b]. destruct (shortest _ _ _ _ _ _) as [[ds k] n].
    destruct (digits_head ds) as (d & t & -> & Hd). destruct (format_decimal_head d t k n Hd) as (d' & t' & -> & Hd').
    destruct s; eexists _, _; (split; [reflexivity|lia]).
Qed.
