(* ===== verification/JsValue.v ===== *)
(** * JavaScript values, objects and the heap

    Values as the sources build them, a store of mutable objects (arrays, plain
    objects and the built-in objects a YAML document can produce), property
    enumeration order, prototype links and [String(v)]. *)

From S2P Require Import JsPrelude JsNumber.
From Stdlib Require Import Floats.SpecFloat.

Inductive value : Type :=
| VUndefined
| VNull
| VBool (b : bool)
| VNumber (n : num)
| VString (s : jsstr)
| VRef (l : nat).

#[global] Instance num_eq_dec : EqDecision num.
Proof. solve_decision. Defined.
#[global] Instance value_eq_dec : EqDecision value.
Proof. solve_decision. Defined.

(** The prototype of a plain object: [Object.prototype], nothing, or another
    object of the heap. *)
Inductive protolink : Type :=
| ProtoObject
| ProtoNull
| ProtoRef (l : nat).

(** Own properties of a plain object, in the order of creation. *)
Record object : Type := Obj {
  props : list (jsstr * value);
  proto : protolink
}.

Definition empty_object : object := Obj [] ProtoObject.

Inductive hobj : Type :=
| OObject (o : object)
| OArray (elems : list value)
| ODate (time : Z)
| OBuffer (bytes : list Z)
| ORegExp (source flags : jsstr)
| OFunction (params : list jsstr) (body : jsstr).

Abbreviation heap := (list hobj).

Definition alloc (h : heap) (o : hobj) : nat * heap := (length h, h ++ [o]).

Definition hget (h : heap) (l : nat) : option hobj := h !! l.
Definition hset (h : heap) (l : nat) (o : hobj) : heap := <[l := o]> h.

(** The errors the language itself raises; a component adds its own. *)
Inductive native_error : Type :=
| TypeError (msg : jsstr)
| SyntaxError (msg : jsstr)
| PlainError (msg : jsstr)
| URIError (msg : jsstr).

(** ** Own properties *)

Fixpoint assoc_get {A} (ps : list (jsstr * A)) (k : jsstr) : option A :=
  match ps with
  | [] => None
  | (k', v) :: ps' => if jseqb k' k then Some v else assoc_get ps' k
  end.

(** Assignment keeps the position of an existing property and appends a new one. *)
Fixpoint assoc_set {A} (ps : list (jsstr * A)) (k : jsstr) (v : A) : list (jsstr * A) :=
  match ps with
  | [] => [(k, v)]
  | (k', v') :: ps' => if jseqb k' k then (k', v) :: ps' else (k', v') :: assoc_set ps' k v
  end.

Definition assoc_del {A} (ps : list (jsstr * A)) (k : jsstr) : list (jsstr * A) :=
  List.filter (fun p => negb (jseqb (fst p) k)) ps.

Definition assoc_has {A} (ps : list (jsstr * A)) (k : jsstr) : bool :=
  match assoc_get ps k with Some _ => true | None => false end.

(** [Object.prototype.hasOwnProperty.call(o, k)] on a plain object. *)
Definition hasOwn (o : object) (k : jsstr) : bool := assoc_has (props o) k.

(** ** Property order: array indices ascending, then creation order *)

Definition array_index (k : jsstr) : option Z :=
  let '(v, len, rest) := read_digits 10 0 0 k in
  if (0 <? len) && bool_decide (rest = []) && (v <? 2 ^ 32 - 1) && jseqb (digits 10 v) k
  then Some v else None.

Fixpoint insert_key (i : Z) (k : jsstr) (l : list (Z * jsstr)) : list (Z * jsstr) :=
  match l with
  | [] => [(i, k)]
  | (j, k') :: l' => if i <? j then (i, k) :: l else (j, k') :: insert_key i k l'
  end.

Definition index_keys (ks : list jsstr) : list jsstr :=
  snd <$> fold_right (fun k acc => match array_index k with
                                   | Some i => insert_key i k acc
                                   | None => acc end) [] ks.

Definition name_keys (ks : list jsstr) : list jsstr :=
  List.filter (fun k => match array_index k with Some _ => false | None => true end) ks.

(** The key order of [Object.keys] for properties created in the order [ks]. *)
Definition order_keys (ks : list jsstr) : list jsstr := index_keys ks ++ name_keys ks.

Definition indices (n : nat) : list jsstr := (fun i => digits 10 (Z.of_nat i)) <$> seq 0 n.

(** [Object.keys(o)] on the objects of the heap. *)
Definition object_keys (o : hobj) : list jsstr :=
  match o with
  | OObject ob => order_keys (fst <$> props ob)
  | OArray es => indices (length es)
  | OBuffer bs => indices (length bs)
  | ODate _ | ORegExp _ _ | OFunction _ _ => []
  end.

(** [o[k]] for an own enumerable [k]. *)
Definition object_get (o : hobj) (k : jsstr) : value :=
  match o with
  | OObject ob => default VUndefined (assoc_get (props ob) k)
  | OArray es => match array_index k with
                 | Some i => default VUndefined (es !! Z.to_nat i)
                 | None => VUndefined end
  | OBuffer bs => match array_index k with
                  | Some i => match bs !! Z.to_nat i with
                              | Some b => VNumber (num_of_Z b)
                              | None => VUndefined end
                  | None => VUndefined end
  | _ => VUndefined
  end.

(** ** Prototype chains *)

(** Where a property lookup ends: in a property of a plain object, at
    [Object.prototype], at a null prototype, or at a built-in object whose own
    prototype is not modelled further. *)
Inductive lookup_end : Type :=
| Found (v : value)
| EndObject
| EndNull
| EndHost.

Fixpoint chain_lookup (fuel : nat) (h : heap) (o : object) (k : jsstr) : lookup_end :=
  match assoc_get (props o) k with
  | Some v => Found v
  | None =>
      match proto o, fuel with
      | ProtoObject, _ => EndObject
      | ProtoNull, _ => EndNull
      | ProtoRef l, S f => match h !! l with
                           | Some (OObject o') => chain_lookup f h o' k
                           | _ => EndHost end
      | ProtoRef _, O => EndHost
      end
  end.

Fixpoint chain_reaches (fuel : nat) (h : heap) (target l : nat) : bool :=
  if Nat.eqb l target then true
  else match fuel, h !! l with
       | S f, Some (OObject o) => match proto o with
                                  | ProtoRef l' => chain_reaches f h target l'
                                  | _ => false end
       | _, _ => false
       end.

Definition proto_key : jsstr := js "__proto__".

(** [o[k] = v] on a plain object, [self] its location in the heap when it has
    one.  A key [__proto__] that is not an own property reaches the setter
    inherited from [Object.prototype]: an object or [null] replaces the
    prototype, any other value is dropped, a cycle is a TypeError. *)
Definition object_assign (h : heap) (self : option nat) (o : object) (k : jsstr)
    (v : value) : outcome native_error object :=
  let setter := match chain_lookup (length h) h o k with
                | EndObject | EndHost => jseqb k proto_key
                | _ => false end in
  if setter then
    match v with
    | VRef l =>
        match self with
        | Some s => if chain_reaches (length h) h s l
                    then Throw (TypeError (js "Cyclic __proto__ value"))
                    else Ret (Obj (props o) (ProtoRef l))
        | None => Ret (Obj (props o) (ProtoRef l))
        end
    | VNull => Ret (Obj (props o) ProtoNull)
    | _ => Ret o
    end
  else Ret (Obj (assoc_set (props o) k v) (proto o)).

(** ** The embedding

    What the sources take from outside: the conversion to a string of an object
    that the embedding defines (dates in local time, buffers, regular
    expressions, functions, objects that inherit from those or carry a callable
    [toString]), the truth value a function of the document returns when the
    sources call it, whether the [buffer] module is there, which patterns the
    [RegExp] constructor accepts, and the optional global [esprima].  Of an
    esprima program only the fields the sources read are kept. *)

Record expression : Type := mkExpression {
  ex_type : jsstr;
  ex_params : list jsstr;
  ex_body_type : jsstr;
  ex_body_range : Z * Z
}.

Record program : Type := mkProgram {
  pr_type : jsstr;
  pr_body : list (jsstr * expression)
}.

Record Host : Type := mkHost {
  host_string : heap -> nat -> native_error + jsstr;
  host_call : heap -> nat -> value -> native_error + bool;
  has_Buffer : bool;
  regexp_valid : jsstr -> jsstr -> bool;
  esprima : option (jsstr -> option program)
}.

(** A page without Node's [Buffer] and without esprima, in which every pattern is
    a valid regular expression; used to instantiate theorems. *)
Definition bare_host : Host :=
  mkHost (fun _ _ => inr (js "[object]")) (fun _ _ _ => inr true) false (fun _ _ => true) None.

(** ** [String(v)] *)

Definition callable (h : heap) (v : value) : bool :=
  match v with
  | VRef l => match h !! l with Some (OFunction _ _) => true | _ => false end
  | _ => false
  end.

Definition of_host (r : native_error + jsstr) : outcome native_error jsstr :=
  match r with inl e => Throw e | inr s => Ret s end.

Definition cannot_convert : native_error :=
  TypeError (js "Cannot convert object to primitive value").

(** ToPrimitive with hint string of a plain object. *)
Definition object_toString (hs : Host) (h : heap) (l : nat) (o : object)
    : outcome native_error jsstr :=
  match chain_lookup (length h) h o (js "toString") with
  | EndObject => Ret (js "[object Object]")
  | EndHost => of_host (host_string hs h l)
  | Found f =>
      if callable h f then of_host (host_string hs h l)
      else match chain_lookup (length h) h o (js "valueOf") with
           | Found g => if callable h g then of_host (host_string hs h l) else Throw cannot_convert
           | EndHost => of_host (host_string hs h l)
           | EndObject | EndNull => Throw cannot_convert
           end
  | EndNull =>
      match chain_lookup (length h) h o (js "valueOf") with
      | Found g => if callable h g then of_host (host_string hs h l) else Throw cannot_convert
      | EndHost => of_host (host_string hs h l)
      | EndObject | EndNull => Throw cannot_convert
      end
  end.

(** [String(v)]; [seen] holds the arrays being joined, whose cyclic occurrences
    print as the empty string. *)
Fixpoint toString_fuel (fuel : nat) (hs : Host) (h : heap) (seen : list nat) (v : value)
    : outcome native_error jsstr :=
  match v with
  | VUndefined => Ret (js "undefined")
  | VNull => Ret (js "null")
  | VBool b => Ret (js (if b then "true" else "false"))
  | VNumber n => Ret (num_toString n)
  | VString s => Ret s
  | VRef l =>
      match h !! l with
      | Some (OArray es) =>
          if existsb (Nat.eqb l) seen then Ret []
          else match fuel with
               | O => OutOfFuel
               | S f =>
                   ss ← (fix go (es : list value) : outcome native_error (list jsstr) :=
                           match es with
                           | [] => Ret []
                           | e :: es' =>
                               s ← match e with
                                   | VUndefined | VNull => Ret []
                                   | _ => toString_fuel f hs h (l :: seen) e
                                   end;
                               ss ← go es'; Ret (s :: ss)
                           end) es;
                   Ret (join [44] ss)
               end
      | Some (OObject o) => object_toString hs h l o
      | _ => of_host (host_string hs h l)
      end
  end.

Definition value_toString (hs : Host) (h : heap) (v : value) : outcome native_error jsstr :=
  toString_fuel (length h) hs h [] v.

(** ** Facts *)

Lemma assoc_get_set {A} (ps : list (jsstr * A)) k k' v :
  assoc_get (assoc_set ps k v) k' = if jseqb k k' then Some v else assoc_get ps k'.
Proof.
  induction ps as [|[k0 v0] ps IH]; simpl; [done|].
  destruct (jseqb k0 k) eqn:E; simpl.
  - apply jseqb_eq in E as ->. by destruct (jseqb k k').
  - rewrite IH. destruct (jseqb k0 k') eqn:E', (jseqb k k') eqn:E''; try done.
    apply jseqb_eq in E', E''. subst. by rewrite jseqb_refl in E.
Qed.

Lemma assoc_get_del {A} (ps : list (jsstr * A)) k k' :
  assoc_get (assoc_del ps k) k' = if jseqb k k' then None else assoc_get ps k'.
Proof.
  induction ps as [|[k0 v0] ps IH]; simpl; [by destruct (jseqb k k')|].
  destruct (jseqb k0 k) eqn:E; simpl; rewrite IH.
  - apply jseqb_eq in E as ->. by destruct (jseqb k k').
  - destruct (jseqb k0 k') eqn:E', (jseqb k k') eqn:E''; try done.
    apply jseqb_eq in E', E''. subst. by rewrite jseqb_refl in E.
Qed.

(** A conversion never exhausts its fuel: each array that is entered is a new
    location of the heap. *)
Lemma toString_fuel_total hs h fuel : forall seen v,
  NoDup seen -> Forall (fun l => l < length h)%nat seen ->
  (length h <= fuel + length seen)%nat ->
  toString_fuel fuel hs h seen v <> OutOfFuel.
Proof.
  assert (Hhost : forall l, of_host (host_string hs h l) <> OutOfFuel).
  { intros l. unfold of_host. by destruct (host_string hs h l). }
  induction fuel as [|fuel IH]; intros seen v Hnd Hall Hlen; destruct v; simpl; try done.
  all: destruct (h !! l) as [o|] eqn:Hl; [|apply Hhost].
  all: destruct o; try apply Hhost.
  all: try by (unfold object_toString; repeat case_match; try done; apply Hhost).
  all: destruct (existsb (Nat.eqb l) seen) eqn:Hseen; [done|].
  all: assert (Hfresh : l ∉ seen)
    by (intros Hin; rewrite <- not_true_iff_false in Hseen; apply Hseen, existsb_exists;
        exists l; split; [by apply list_elem_of_In|apply Nat.eqb_refl]).
  all: apply lookup_lt_Some in Hl as Hlt.
  - exfalso. assert (Hnd' : NoDup (l :: seen)) by by constructor.
    assert (Hsub : (length (l :: seen) <= length (seq 0 (length h)))%nat).
    { apply submseteq_length, NoDup_submseteq; [done|].
      intros x [->|Hx]%elem_of_cons; apply elem_of_seq; [lia|].
      rewrite Forall_forall in Hall. specialize (Hall x Hx). lia. }
    rewrite length_seq in Hsub. simpl in *. lia.
  - assert (Hgo : forall e, toString_fuel fuel hs h (l :: seen) e <> OutOfFuel).
    { intros e. apply IH; [by constructor|by constructor|simpl; lia]. }
    clear Hl. induction elems as [|e es IHes]; [done|].
    simpl in *. specialize (Hgo e).
    assert (Hhead : (match e with
                     | VUndefined | VNull => Ret []
                     | _ => toString_fuel fuel hs h (l :: seen) e
                     end : outcome native_error jsstr) <> OutOfFuel) by by destruct e.
    destruct (match e with VUndefined | VNull => _ | _ => _ end) eqn:He; simpl; try done.
    revert IHes. unfold mbind, outcome_bind.
    match goal with |- context [match ?g es with _ => _ end] => by destruct (g es) end.
Qed.

Lemma value_toString_total hs h v : value_toString hs h v <> OutOfFuel.
Proof. apply toString_fuel_total; [constructor|constructor|simpl; lia]. Qed.

Lemma value_toString_string hs h s : value_toString hs h (VString s) = Ret s.
Proof. unfold value_toString. by destruct (length h). Qed.

Lemma assoc_get_Some_key {A} (ps : list (jsstr * A)) k : is_Some (assoc_get ps k) <-> k ∈ ps.*1.
Proof.
  induction ps as [|[k' v] ps IH]; simpl.
  - rewrite elem_of_nil, <- not_eq_None_Some. naive_solver.
  - rewrite elem_of_cons, <- IH. destruct (jseqb k' k) eqn:Hk.
    + apply jseqb_eq in Hk. naive_solver.
    + apply jseqb_neq in Hk. naive_solver.
Qed.

Lemma assoc_has_spec {A} (ps : list (jsstr * A)) k : assoc_has ps k = true <-> is_Some (assoc_get ps k).
Proof.
  unfold assoc_has. rewrite <- not_eq_None_Some. by destruct (assoc_get ps k).
Qed.

Lemma insert_key_elem i k l k' : k' ∈ (insert_key i k l).*2 <-> k' = k \/ k' ∈ l.*2.
Proof.
  induction l as [|[j u] l IH]; simpl; [by rewrite list_elem_of_singleton, elem_of_nil; naive_solver|].
  destruct (i <? j); simpl; rewrite !elem_of_cons; [done|]. rewrite IH. naive_solver.
Qed.

Lemma order_keys_elem ks k : k ∈ order_keys ks <-> k ∈ ks.
Proof.
  unfold order_keys, index_keys, name_keys. rewrite elem_of_app.
  induction ks as [|a ks IH]; simpl; [rewrite !elem_of_nil; tauto|].
  destruct (array_index a); simpl.
  - rewrite insert_key_elem, elem_of_cons, <- IH. tauto.
  - rewrite !elem_of_cons, <- IH. tauto.
Qed.

Lemma assoc_get_key {A} (ps : list (jsstr * A)) k : assoc_get ps k = None <-> k ∉ ps.*1.
Proof.
  induction ps as [|[k' v] ps IH]; simpl; [split; [intros _; apply not_elem_of_nil|done]|].
  rewrite not_elem_of_cons. destruct (jseqb k' k) eqn:E.
  - apply jseqb_eq in E as ->. naive_solver.
  - apply jseqb_neq in E. naive_solver.
Qed.

Lemma assoc_set_NoDup {A} (ps : list (jsstr * A)) k v : NoDup ps.*1 -> NoDup (assoc_set ps k v).*1.
Proof.
  induction ps as [|[k' v'] ps IH]; simpl; [intros _; apply NoDup_singleton|].
  rewrite NoDup_cons. intros [Hn Hd]. destruct (jseqb k' k) eqn:E; simpl; apply NoDup_cons; [done|].
  split; [|auto]. rewrite <- assoc_get_key, assoc_get_set in *.
  destruct (jseqb k k') eqn:E'; [|done]. apply jseqb_eq in E' as ->. by rewrite jseqb_refl in E.
Qed.

Lemma assoc_set_length {A} (ps : list (jsstr * A)) k v :
  Z.of_nat (length (assoc_set ps k v))
  = Z.of_nat (length ps) + match assoc_get ps k with Some _ => 0 | None => 1 end.
Proof. induction ps as [|[k' v'] ps IH]; simpl; [done|]. destruct (jseqb k' k); simpl; lia. Qed.

Lemma assoc_del_absent {A} (ps : list (jsstr * A)) k : k ∉ ps.*1 -> assoc_del ps k = ps.
Proof.
  unfold assoc_del. induction ps as [|[k' v'] ps IH]; simpl; [done|].
  rewrite not_elem_of_cons. intros [Hk Hn]. rewrite (proj2 (jseqb_neq k' k)) by done. simpl.
  by rewrite IH.
Qed.

Lemma assoc_del_NoDup {A} (ps : list (jsstr * A)) k : NoDup ps.*1 -> NoDup (assoc_del ps k).*1.
Proof.
  unfold assoc_del. induction ps as [|[k' v'] ps IH]; simpl; [done|].
  rewrite NoDup_cons. intros [Hn Hd]. destruct (jseqb k' k) eqn:E; simpl; [auto|].
  apply NoDup_cons. split; [|auto]. rewrite <- assoc_get_key in *.
  change (assoc_get (assoc_del ps k) k' = None). rewrite assoc_get_del. by destruct (jseqb k k').
Qed.

Lemma assoc_del_length {A} (ps : list (jsstr * A)) k : NoDup ps.*1 ->
  Z.of_nat (length (assoc_del ps k))
  = Z.of_nat (length ps) - match assoc_get ps k with Some _ => 1 | None => 0 end.
Proof.
  induction ps as [|[k' v'] ps IH]; [done|]. simpl. rewrite NoDup_cons. intros [Hn Hd].
  unfold assoc_del. simpl. fold (assoc_del ps k). destruct (jseqb k' k) eqn:E; simpl.
  - apply jseqb_eq in E as ->. rewrite assoc_del_absent by done. lia.
  - rewrite Nat2Z.inj_succ, IH by done. lia.
Qed.
