(* ===== verification/JsUnicode.v ===== *)
(** * Unicode in JavaScript strings

    Surrogates, code points and their encoding in UTF-8, and the functions
    [encodeURIComponent] and [decodeURIComponent] of the language. *)

From S2P Require Import JsPrelude JsNumber JsValue.

Definition is_unit16 (c : Z) : Prop := 0 <= c < 65536.
Definition is_lead (c : Z) : bool := (55295 <? c) && (c <? 56320).
Definition is_trail (c : Z) : bool := (56319 <? c) && (c <? 57344).

(** A code point that is not a surrogate. *)
Definition is_scalar (p : Z) : Prop := 0 <= p < 55296 \/ 57343 < p < 1114112.

(** The UTF-8 encoding of a code point. *)
Definition encoded (p : Z) : list Z :=
  if p <? 128 then [p]
  else if p <? 2048 then [192 + p / 64; 128 + p mod 64]
  else if p <? 65536 then [224 + p / 4096; 128 + (p / 64) mod 64; 128 + p mod 64]
  else [240 + p / 262144; 128 + (p / 4096) mod 64; 128 + (p / 64) mod 64; 128 + p mod 64].

(** The code point of a surrogate pair. *)
Definition pair_point (l t : Z) : Z := (l - 55296) * 1024 + (t - 56320) + 65536.

(** No surrogate without its partner. *)
Fixpoint well_formed (s : jsstr) : bool :=
  match s with
  | [] => true
  | c :: rest =>
      if is_lead c then
        match rest with
        | n :: rest' => is_trail n && well_formed rest'
        | [] => false
        end
      else negb (is_trail c) && well_formed rest
  end.

(** Induction over a string by single units and by pairs. *)
Lemma units_ind (P : jsstr -> Prop) :
  P [] -> (forall c, P [c]) -> (forall c n s, P s -> P (n :: s) -> P (c :: n :: s)) -> forall s, P s.
Proof.
  intros H0 H1 H2 s. cut (P s /\ forall c, P (c :: s)); [tauto|].
  induction s as [|n s [IH1 IH2]]; [done|]. split; [apply IH2|]. intros c. apply H2; [done|apply IH2].
Qed.

Lemma pair_point_range l t : is_lead l = true -> is_trail t = true ->
  65536 <= pair_point l t < 1114112.
Proof.
  unfold is_lead, is_trail, pair_point. rewrite !andb_true_iff, !Z.ltb_lt. lia.
Qed.

(** ** Percent encoding *)

Definition unreserved (c : Z) : bool :=
  ((65 <=? c) && (c <=? 90)) || ((97 <=? c) && (c <=? 122)) || ((48 <=? c) && (c <=? 57))
  || existsb (Z.eqb c) (js "-_.!~*'()").

Definition hex_upper (d : Z) : Z := if d <? 10 then 48 + d else 55 + d.

Definition percent (b : Z) : jsstr := [37; hex_upper (b / 16); hex_upper (b mod 16)].

Definition malformed : native_error := URIError (js "URI malformed").

Fixpoint encodeURIComponent (s : jsstr) : outcome native_error jsstr :=
  match s with
  | [] => Ret []
  | c :: rest =>
      if unreserved c then r ← encodeURIComponent rest; Ret (c :: r)
      else if is_trail c then Throw malformed
      else if is_lead c then
        match rest with
        | n :: rest' =>
            if is_trail n then
              r ← encodeURIComponent rest';
              Ret (concat (percent <$> encoded (pair_point c n)) ++ r)
            else Throw malformed
        | [] => Throw malformed
        end
      else r ← encodeURIComponent rest; Ret (concat (percent <$> encoded c) ++ r)
  end.

Definition hex_digit (c : Z) : option Z :=
  if (48 <=? c) && (c <=? 57) then Some (c - 48)
  else if (65 <=? c) && (c <=? 70) then Some (c - 55)
  else if (97 <=? c) && (c <=? 102) then Some (c - 87)
  else None.

(** [%XX] at the front of a string. *)
Definition read_octet (s : jsstr) : option (Z * jsstr) :=
  match s with
  | 37 :: a :: b :: rest =>
      match hex_digit a, hex_digit b with
      | Some x, Some y => Some (x * 16 + y, rest)
      | _, _ => None
      end
  | _ => None
  end.

Fixpoint read_octets (n : nat) (s : jsstr) : option (list Z * jsstr) :=
  match n with
  | O => Some ([], s)
  | S n' =>
      '(b, rest) ← read_octet s; '(bs, rest') ← read_octets n' rest; Some (b :: bs, rest')
  end.

(** How many bytes follow the first one, and the bits the first one has. *)
Definition sequence_of (b : Z) : option (nat * Z) :=
  if b <? 128 then Some (0%nat, b)
  else if (192 <=? b) && (b <? 224) then Some (1%nat, b mod 32)
  else if (224 <=? b) && (b <? 240) then Some (2%nat, b mod 16)
  else if (240 <=? b) && (b <? 248) then Some (3%nat, b mod 8)
  else None.

Definition scalar_point (p : Z) : bool :=
  ((0 <=? p) && (p <? 55296)) || ((57343 <? p) && (p <? 1114112)).

(** The units of a code point. *)
Definition utf16 (p : Z) : jsstr :=
  if p <? 65536 then [p] else [55296 + (p - 65536) / 1024; 56320 + (p - 65536) mod 1024].

(** The code point whose encoding is at the front of a string of octets. *)
Definition read_point (s : jsstr) : option (Z * jsstr) :=
  '(b, rest) ← read_octet s;
  '(n, bits) ← sequence_of b;
  '(bs, rest') ← read_octets n rest;
  let p := foldl (fun p b => p * 64 + b mod 64) bits bs in
  if scalar_point p && bool_decide (encoded p = b :: bs) then Some (p, rest') else None.

Fixpoint decode_uri (fuel : nat) (s : jsstr) : outcome native_error jsstr :=
  match s with
  | [] => Ret []
  | c :: rest =>
      match fuel with
      | O => OutOfFuel
      | S fuel' =>
          if c =? 37 then
            match read_point s with
            | Some (p, rest') => r ← decode_uri fuel' rest'; Ret (utf16 p ++ r)
            | None => Throw malformed
            end
          else r ← decode_uri fuel' rest; Ret (c :: r)
      end
  end.

Definition decodeURIComponent (s : jsstr) : outcome native_error jsstr := decode_uri (length s) s.

(** ** Decoding inverts encoding *)

Lemma read_octet_percent b t : 0 <= b < 256 -> read_octet (percent b ++ t) = Some (b, t).
Proof.
  intros Hb. unfold percent. simpl.
  assert (Hd : forall d, 0 <= d < 16 -> hex_digit (hex_upper d) = Some d).
  { intros d Hd. unfold hex_digit, hex_upper.
    destruct (Z.ltb_spec d 10); repeat case_match; rewrite ?andb_true_iff, ?andb_false_iff in *;
      f_equal; lia. }
  rewrite !Hd by (Z.to_euclidean_division_equations; lia). do 2 f_equal.
  Z.to_euclidean_division_equations; lia.
Qed.

Lemma read_octets_percent bs t : Forall (fun b => 0 <= b < 256) bs ->
  read_octets (length bs) (concat (percent <$> bs) ++ t) = Some (bs, t).
Proof.
  induction 1 as [|b bs Hb _ IH]; [done|]. cbn [length fmap list_fmap concat read_octets].
  rewrite <- (assoc_L (++)), read_octet_percent by done. simpl. by rewrite IH.
Qed.

Lemma scalar_point_spec p : is_scalar p -> scalar_point p = true.
Proof. unfold is_scalar, scalar_point. rewrite orb_true_iff, !andb_true_iff. lia. Qed.

(** The bits of an encoding, put together. *)
Lemma encoded_first p : is_scalar p -> exists b bs n bits,
  encoded p = b :: bs /\ Forall (fun b => 0 <= b < 256) (b :: bs) /\ sequence_of b = Some (n, bits)
  /\ length bs = n /\ foldl (fun p b => p * 64 + b mod 64) bits bs = p.
Proof.
  intros Hp. unfold encoded, is_scalar in *.
  destruct (Z.ltb_spec p 128); [|destruct (Z.ltb_spec p 2048); [|destruct (Z.ltb_spec p 65536)]];
    eexists _, _, _, _; (split; [done|]);
    (split; [repeat (apply Forall_cons; split; [Z.to_euclidean_division_equations; lia|]); apply Forall_nil_2|]);
    unfold sequence_of.
  - rewrite (proj2 (Z.ltb_lt _ _)) by done. by split_and!.
  - rewrite (proj2 (Z.ltb_ge _ 128)) by (Z.to_euclidean_division_equations; lia).
    rewrite (proj2 (Z.leb_le 192 _)), (proj2 (Z.ltb_lt _ 224)) by (Z.to_euclidean_division_equations; lia).
    split_and!; [done|done|]. simpl. Z.to_euclidean_division_equations; lia.
  - rewrite (proj2 (Z.ltb_ge _ 128)), (proj2 (Z.ltb_ge _ 224)), andb_false_r by (Z.to_euclidean_division_equations; lia).
    rewrite (proj2 (Z.leb_le 224 _)), (proj2 (Z.ltb_lt _ 240)) by (Z.to_euclidean_division_equations; lia).
    split_and!; [done|done|]. simpl. Z.to_euclidean_division_equations; lia.
  - rewrite (proj2 (Z.ltb_ge _ 128)), (proj2 (Z.ltb_ge _ 224)), (proj2 (Z.ltb_ge _ 240)), !andb_false_r
      by (Z.to_euclidean_division_equations; lia).
    rewrite (proj2 (Z.leb_le 240 _)), (proj2 (Z.ltb_lt _ 248)) by (Z.to_euclidean_division_equations; lia).
    split_and!; [done|done|]. simpl. Z.to_euclidean_division_equations; lia.
Qed.

Lemma read_point_encoded p t : is_scalar p ->
  read_point (concat (percent <$> encoded p) ++ t) = Some (p, t).
Proof.
  intros Hp. destruct (encoded_first p Hp) as (b & bs & n & bits & E & Hb & Hs & Hn & Hf).
  rewrite E. unfold read_point. cbn [fmap list_fmap concat]. rewrite <- (assoc_L (++)).
  apply Forall_cons in Hb as [Hb Hbs]. rewrite read_octet_percent by done. simpl.
  rewrite Hs. simpl. rewrite <- Hn, read_octets_percent by done. simpl.
  by rewrite Hf, scalar_point_spec, bool_decide_eq_true_2.
Qed.

Lemma is_trail_false c : is_unit16 c -> is_lead c = false -> is_trail c = false -> is_scalar c.
Proof.
  unfold is_unit16, is_lead, is_trail, is_scalar. rewrite !andb_false_iff, !Z.ltb_ge. lia.
Qed.

Lemma utf16_single c : is_unit16 c -> utf16 c = [c].
Proof. unfold is_unit16, utf16. intros ?. by rewrite (proj2 (Z.ltb_lt _ _)) by lia. Qed.

Lemma utf16_pair l t : is_lead l = true -> is_trail t = true -> utf16 (pair_point l t) = [l; t].
Proof.
  intros Hl Ht. pose proof (pair_point_range l t Hl Ht). unfold utf16.
  rewrite (proj2 (Z.ltb_ge _ _)) by lia. unfold is_lead, is_trail, pair_point in *.
  rewrite andb_true_iff, !Z.ltb_lt in Hl, Ht.
  f_equal; [|f_equal]; Z.to_euclidean_division_equations; lia.
Qed.

(** What the text of an encoded string is made of. *)
Definition uri_unit (c : Z) : bool := unreserved c || (c =? 37).

Lemma hex_upper_unreserved d : 0 <= d < 16 -> unreserved (hex_upper d) = true.
Proof.
  intros Hd. unfold unreserved, hex_upper. rewrite !orb_true_iff, !andb_true_iff.
  destruct (Z.ltb_spec d 10); lia.
Qed.

Lemma percent_units b : 0 <= b < 256 -> Forall (fun c => uri_unit c = true) (percent b).
Proof.
  intros Hb. unfold percent, uri_unit. repeat apply Forall_cons_2; [done| | |apply Forall_nil_2];
    rewrite hex_upper_unreserved; try done; Z.to_euclidean_division_equations; lia.
Qed.

Lemma encoded_units p : is_scalar p -> Forall (fun c => uri_unit c = true) (concat (percent <$> encoded p)).
Proof.
  intros Hp. destruct (encoded_first p Hp) as (b & bs & n & bits & E & Hb & _). rewrite E. clear E.
  induction Hb as [|x l Hx _ IH]; cbn [fmap list_fmap concat]; [apply Forall_nil_2|].
  by apply Forall_app; split; [apply percent_units|].
Qed.

Lemma decode_uri_encoded fuel p t : is_scalar p ->
  decode_uri (S fuel) (concat (percent <$> encoded p) ++ t)
  = (r ← decode_uri fuel t; Ret (utf16 p ++ r)).
Proof.
  intros Hp. pose proof (read_point_encoded p t Hp) as Hr.
  destruct (encoded_first p Hp) as (b & bs & n & bits & E & _). rewrite E in Hr |- *.
  cbn [fmap list_fmap concat] in *. unfold percent in Hr at 1 |- * at 1. simpl app in Hr |- *.
  cbn [decode_uri]. change (37 =? 37) with true. cbv iota. by rewrite Hr.
Qed.

Lemma length_percents bs : bs <> [] -> (0 < length (concat (percent <$> bs)))%nat.
Proof. destruct bs; [done|simpl; lia]. Qed.

(** [t] is an encoding of [s]. *)
Definition decodes (t s : jsstr) : Prop :=
  Forall (fun c => uri_unit c = true) t /\ (t = [] -> s = [])
  /\ forall fuel, (length t <= fuel)%nat -> decode_uri fuel t = Ret s.

Lemma decodes_nil : decodes [] [].
Proof. split_and!; [apply Forall_nil_2|done|by intros []]. Qed.

Lemma decodes_unreserved c t s : unreserved c = true -> decodes t s -> decodes (c :: t) (c :: s).
Proof.
  intros Hc (Hu & _ & Hd). split_and!; [|done|].
  - apply Forall_cons; split; [|done]. unfold uri_unit. by rewrite Hc.
  - intros [|fuel] Hf; simpl in *; [lia|]. destruct (Z.eqb_spec c 37) as [->|]; [done|].
    by rewrite Hd by lia.
Qed.

Lemma decodes_encoded p t s : is_scalar p -> decodes t s ->
  decodes (concat (percent <$> encoded p) ++ t) (utf16 p ++ s).
Proof.
  intros Hp (Hu & _ & Hd). assert (Hne : encoded p <> []).
  { destruct (encoded_first p Hp) as (? & ? & ? & ? & -> & _). done. }
  pose proof (length_percents _ Hne) as Hlen. split_and!.
  - apply Forall_app; split; [by apply encoded_units|done].
  - intros E%app_eq_nil. destruct E as [E _]. rewrite E in Hlen. simpl in Hlen. lia.
  - intros fuel Hf. rewrite length_app in Hf. destruct fuel as [|fuel]; [lia|].
    rewrite decode_uri_encoded by done. by rewrite Hd by lia.
Qed.

(** One unit that is not part of a pair. *)
Lemma encode_single c rest t : is_unit16 c -> is_lead c = false -> is_trail c = false ->
  encodeURIComponent rest = Ret t -> decodes t rest ->
  exists t', encodeURIComponent (c :: rest) = Ret t' /\ decodes t' (c :: rest).
Proof.
  intros Hc Hl Ht E Hd. cbn [encodeURIComponent]. rewrite Hl, Ht, E.
  destruct (unreserved c) eqn:Eu; simpl; eexists; (split; [done|]).
  - by apply decodes_unreserved.
  - change (c :: rest) with ([c] ++ rest). rewrite <- (utf16_single c) by done.
    apply decodes_encoded; [by apply is_trail_false|done].
Qed.

Lemma encode_pair l n rest t : is_lead l = true -> is_trail n = true ->
  encodeURIComponent rest = Ret t -> decodes t rest ->
  exists t', encodeURIComponent (l :: n :: rest) = Ret t' /\ decodes t' (l :: n :: rest).
Proof.
  intros Hl Hn E Hd. pose proof (pair_point_range l n Hl Hn) as Hp.
  pose proof Hl as [H1 H2]%andb_true_iff. apply Z.ltb_lt in H1, H2.
  assert (Eu : unreserved l = false).
  { unfold unreserved. simpl. repeat rewrite orb_false_iff. rewrite !andb_false_iff, !Z.leb_gt, !Z.eqb_neq. lia. }
  assert (Et : is_trail l = false).
  { unfold is_trail. rewrite andb_false_iff, !Z.ltb_ge. lia. }
  cbn [encodeURIComponent]. rewrite Eu, Et, Hl, Hn, E. eexists. split; [done|].
  change (l :: n :: rest) with ([l; n] ++ rest). rewrite <- (utf16_pair l n) by done.
  apply decodes_encoded; [unfold is_scalar; lia|done].
Qed.

(** A string without a lone surrogate is encoded, and decoding the text gives it
    back. *)
Lemma encode_decode s : Forall is_unit16 s -> well_formed s = true ->
  exists t, encodeURIComponent s = Ret t /\ decodes t s.
Proof.
  induction s as [|c|c n s IH2 IH1] using units_ind; intros Hs Hw.
  - exists []. split; [done|apply decodes_nil].
  - apply Forall_cons in Hs as [Hc _]. simpl in Hw. destruct (is_lead c) eqn:El; [done|].
    rewrite andb_true_r, negb_true_iff in Hw. apply encode_single with (t := []); try done. apply decodes_nil.
  - apply Forall_cons in Hs as [Hc Hs]. pose proof Hs as [Hn Hs']%Forall_cons.
    change (well_formed (c :: n :: s)) with
      (if is_lead c then is_trail n && well_formed s else negb (is_trail c) && well_formed (n :: s)) in Hw.
    destruct (is_lead c) eqn:El; apply andb_true_iff in Hw as [Ht Hw].
    + destruct (IH2 Hs' Hw) as (t & E & Hd). by apply encode_pair with t.
    + rewrite negb_true_iff in Ht. destruct (IH1 Hs Hw) as (t & E & Hd). by apply encode_single with t.
Qed.

Lemma decodes_decode t s : decodes t s -> decodeURIComponent t = Ret s.
Proof. intros (_ & _ & H). by apply H. Qed.
