(* ===== verification/JsImmutable.v ===== *)
(** * The interface of the persistent maps

    The page keeps its state in maps of the package Immutable.js, which is not
    part of the sources.  What the modelled code uses of them are the operations
    and the documented laws below; the components are defined and proved against
    this interface, and association lists are one implementation of it. *)

From S2P Require Import JsPrelude JsNumber JsValue.

Class ImMap (A M : Type) : Type := {
  im_empty : M;
  im_get : M -> jsstr -> option A;
  im_set : M -> jsstr -> A -> M;
  im_delete : M -> jsstr -> M
}.

(** [get], [set] and [delete] as documented; the map that is given is left
    unchanged, as every value of the model. *)
Class ImMapLaws (A M : Type) `{ImMap A M} : Prop := {
  im_get_empty k : im_get (im_empty : M) k = None;
  im_get_set (m : M) k k' v : im_get (im_set m k v) k' = if jseqb k k' then Some v else im_get m k';
  im_get_delete (m : M) k k' : im_get (im_delete m k) k' = if jseqb k k' then None else im_get m k'
}.

#[global] Instance assoc_ImMap A : ImMap A (list (jsstr * A)) := {
  im_empty := [];
  im_get := assoc_get;
  im_set := assoc_set;
  im_delete := assoc_del
}.

#[global] Instance assoc_ImMapLaws A : ImMapLaws A (list (jsstr * A)).
Proof. split; [done|apply assoc_get_set|apply assoc_get_del]. Qed.

(** Two maps with the same entries. *)
Definition im_equiv {A M} `{ImMap A M} (m1 m2 : M) : Prop := forall k, im_get m1 k = im_get m2 k.

#[global] Instance im_equiv_equivalence {A M} `{ImMap A M} : Equivalence (im_equiv (A := A) (M := M)).
Proof.
  split; [done|intros m1 m2 E k; by rewrite E|intros m1 m2 m3 E1 E2 k; by rewrite E1].
Qed.

#[global] Instance im_set_proper {A M} `{ImMapLaws A M} k v :
  Proper (im_equiv ==> im_equiv (A := A) (M := M)) (fun m => im_set m k v).
Proof. intros m1 m2 E k'. rewrite !im_get_set. by rewrite E. Qed.

#[global] Instance im_delete_proper {A M} `{ImMapLaws A M} k :
  Proper (im_equiv ==> im_equiv (A := A) (M := M)) (fun m => im_delete m k).
Proof. intros m1 m2 E k'. rewrite !im_get_delete. by rewrite E. Qed.
