(* ===== verification/JsRegExp.v ===== *)
(** * Anchored regular expressions

    The sources test whole strings against patterns of the form [/^...$/].  A
    pattern is a [regex] over code units, matched with derivatives;
    [rmatch_spec] relates the matcher to the language of the pattern. *)

From S2P Require Import JsPrelude.

Inductive regex : Type :=
| RNone
| REps
| RUnit (p : Z -> bool)
| RSeq (r1 r2 : regex)
| RAlt (r1 r2 : regex)
| RStar (r : regex).

(** [r?], [r+], [r{2}], a class of units and a literal. *)
Definition ROpt (r : regex) : regex := RAlt r REps.
Definition RPlus (r : regex) : regex := RSeq r (RStar r).
Definition RClass (p : Z -> bool) : regex := RUnit p.
Definition RChr (c : Z) : regex := RUnit (Z.eqb c).
Fixpoint RLit (s : jsstr) : regex :=
  match s with [] => REps | c :: s' => RSeq (RChr c) (RLit s') end.
Fixpoint RSeqs (rs : list regex) : regex :=
  match rs with [] => REps | [r] => r | r :: rs' => RSeq r (RSeqs rs') end.
Fixpoint RAlts (rs : list regex) : regex :=
  match rs with [] => RNone | [r] => r | r :: rs' => RAlt r (RAlts rs') end.

(** Classes that occur in the patterns. *)
Definition in_range (lo hi c : Z) : bool := (lo <=? c) && (c <=? hi).
Definition one_of (cs : jsstr) (c : Z) : bool := existsb (Z.eqb c) cs.

(** The language of a pattern. *)
Inductive matches : regex -> jsstr -> Prop :=
| m_eps : matches REps []
| m_unit p c : p c = true -> matches (RUnit p) [c]
| m_seq r1 r2 s1 s2 : matches r1 s1 -> matches r2 s2 -> matches (RSeq r1 r2) (s1 ++ s2)
| m_alt_l r1 r2 s : matches r1 s -> matches (RAlt r1 r2) s
| m_alt_r r1 r2 s : matches r2 s -> matches (RAlt r1 r2) s
| m_star_nil r : matches (RStar r) []
| m_star_cons r c s1 s2 :
    matches r (c :: s1) -> matches (RStar r) s2 -> matches (RStar r) (c :: s1 ++ s2).

Fixpoint nullable (r : regex) : bool :=
  match r with
  | RNone | RUnit _ => false
  | REps | RStar _ => true
  | RSeq r1 r2 => nullable r1 && nullable r2
  | RAlt r1 r2 => nullable r1 || nullable r2
  end.

(** Smart constructors keep derivatives small. *)
Definition seq_ (r1 r2 : regex) : regex :=
  match r1 with RNone => RNone | REps => r2 | _ => RSeq r1 r2 end.
Definition alt_ (r1 r2 : regex) : regex :=
  match r1, r2 with RNone, _ => r2 | _, RNone => r1 | _, _ => RAlt r1 r2 end.

Fixpoint deriv (c : Z) (r : regex) : regex :=
  match r with
  | RNone | REps => RNone
  | RUnit p => if p c then REps else RNone
  | RSeq r1 r2 =>
      if nullable r1 then alt_ (seq_ (deriv c r1) r2) (deriv c r2)
      else seq_ (deriv c r1) r2
  | RAlt r1 r2 => alt_ (deriv c r1) (deriv c r2)
  | RStar r1 => seq_ (deriv c r1) (RStar r1)
  end.

(** [/^r$/.test(s)]. *)
Fixpoint rmatch (r : regex) (s : jsstr) : bool :=
  match s with
  | [] => nullable r
  | c :: s' => rmatch (deriv c r) s'
  end.

(** ** Correctness *)

Create HintDb regex discriminated.
#[export] Hint Constructors matches : regex.

Lemma nullable_spec r : nullable r = true <-> matches r [].
Proof.
  induction r as [| | |r1 IH1 r2 IH2|r1 IH1 r2 IH2|r IH]; simpl;
    (split; [intros H|intros H; inversion H; subst]); try done; eauto with regex.
  - apply andb_true_iff in H as [H1 H2]. change [] with ([] ++ [] : jsstr).
    apply m_seq; tauto.
  - match goal with H : _ ++ _ = [] |- _ => apply app_eq_nil in H as [-> ->] end.
    apply andb_true_iff; tauto.
  - apply orb_true_iff in H as [H|H]; [apply m_alt_l|apply m_alt_r]; tauto.
  - apply orb_true_iff; tauto.
  - apply orb_true_iff; tauto.
Qed.

Lemma matches_seq_ r1 r2 s : matches (seq_ r1 r2) s <-> matches (RSeq r1 r2) s.
Proof.
  destruct r1; simpl; try done; split; intros H.
  - inversion H.
  - inversion H; subst. match goal with H : matches RNone _ |- _ => inversion H end.
  - change s with ([] ++ s). eauto with regex.
  - inversion H; subst. match goal with H : matches REps _ |- _ => by inversion H end.
Qed.

Lemma matches_alt_ r1 r2 s : matches (alt_ r1 r2) s <-> matches (RAlt r1 r2) s.
Proof.
  assert (Hnone : forall r, matches RNone s -> matches r s) by (intros r H; inversion H).
  unfold alt_. destruct r1, r2; split; intros H; try (inversion H; subst); eauto with regex.
Qed.

Lemma deriv_spec r : forall c s, matches (deriv c r) s <-> matches r (c :: s).
Proof.
  induction r as [| |p|r1 IH1 r2 IH2|r1 IH1 r2 IH2|r IH]; simpl; intros c s.
  - split; intros H; inversion H.
  - split; intros H; inversion H.
  - destruct (p c) eqn:E; split; intros H; inversion H; subst; eauto with regex; congruence.
  - assert (Hseq : matches (RSeq (deriv c r1) r2) s <->
                   exists s1 s2, s = s1 ++ s2 /\ matches r1 (c :: s1) /\ matches r2 s2).
    { split.
      - intros H. inversion H; subst. do 2 eexists. split; [done|]. by rewrite <- IH1.
      - intros (s1 & s2 & -> & H1 & H2). apply m_seq; [by apply IH1|done]. }
    assert (Hcons : matches (RSeq r1 r2) (c :: s) <->
                    (exists s1 s2, s = s1 ++ s2 /\ matches r1 (c :: s1) /\ matches r2 s2)
                    \/ (matches r1 [] /\ matches r2 (c :: s))).
    { split.
      - intros H. inversion H as [| |? ? s1 s2 H1 H2 E1 E2| | | |]; subst.
        destruct s1 as [|c' s1]; simplify_eq/=; [by right|left]. by exists s1, s2.
      - intros [(s1 & s2 & -> & H1 & H2)|[H1 H2]].
        + change (c :: s1 ++ s2) with ((c :: s1) ++ s2). by apply m_seq.
        + change (c :: s) with ([] ++ c :: s). by apply m_seq. }
    rewrite Hcons. destruct (nullable r1) eqn:E.
    + rewrite matches_alt_. apply nullable_spec in E. split.
      * intros H. inversion H; subst; [left; by rewrite <- Hseq, <- matches_seq_|right].
        by rewrite <- IH2.
      * intros [H|[_ H]]; [apply m_alt_l|apply m_alt_r].
        -- by rewrite matches_seq_, Hseq.
        -- by apply IH2.
    + rewrite matches_seq_, Hseq. split; [by left|]. intros [H|[H _]]; [done|].
      apply nullable_spec in H. congruence.
  - rewrite matches_alt_. split; intros H; inversion H; subst;
      (apply m_alt_l + apply m_alt_r); first [by apply IH1|by apply IH2].
  - rewrite matches_seq_. split.
    + intros H. inversion H; subst. apply m_star_cons; [by apply IH|done].
    + intros H. inversion H; subst. apply m_seq; [by apply IH|done].
Qed.

(** The matcher decides the language of the pattern. *)
Lemma rmatch_spec s : forall r, rmatch r s = true <-> matches r s.
Proof.
  induction s as [|c s IH]; intros r; simpl; [apply nullable_spec|].
  by rewrite IH, deriv_spec.
Qed.

Lemma rmatch_false r s : rmatch r s = false <-> ~ matches r s.
Proof. rewrite <- rmatch_spec. by destruct (rmatch r s). Qed.

(** Repetitions of a class. *)
Lemma star_class p s : matches (RStar (RClass p)) s <-> Forall (fun c => p c = true) s.
Proof.
  split.
  - remember (RStar (RClass p)) as r eqn:E. intros H. revert E.
    induction H as [| | | | | |r c s1 s2 H1 _ H2 IH]; try done.
    intros [= ->]. inversion H1; subst. by constructor; [|apply IH].
  - induction 1 as [|c s Hc _ IH]; [apply m_star_nil|]. change (c :: s) with (c :: [] ++ s).
    by apply m_star_cons; [apply m_unit|].
Qed.

Lemma plus_class p s : matches (RPlus (RClass p)) s <-> s <> [] /\ Forall (fun c => p c = true) s.
Proof.
  unfold RPlus. split.
  - intros H. inversion H as [| |? ? s1 s2 H1 H2| | | |]; subst. inversion H1; subst.
    apply star_class in H2. by split; [|constructor].
  - intros [Hne H]. destruct H as [|c s Hc Hs]; [done|]. change (c :: s) with ([c] ++ s).
    by apply m_seq; [apply m_unit|apply star_class].
Qed.
