(* ===== verification/YamlCommon.v ===== *)
(** * js-yaml: common helpers, marks and exceptions

    The helper module, [Mark] (the place of an error with its snippet) and
    [YAMLException] of the YAML library inside swagger-ui.js. *)

From S2P Require Import JsPrelude JsNumber JsValue.

(** ** common *)

(** [typeof subject === "undefined" || subject === null]. *)
Definition isNothing (v : value) : bool :=
  match v with VUndefined | VNull => true | _ => false end.

(** [typeof subject === "object" && subject !== null]. *)
Definition isObject (h : heap) (v : value) : bool :=
  match v with
  | VRef l => match h !! l with Some (OFunction _ _) => false | Some _ => true | None => false end
  | _ => false
  end.

(** [toArray]: the elements of an array, none of [undefined] and [null], the
    value itself otherwise. *)
Definition toArray (h : heap) (v : value) : list value :=
  match v with
  | VUndefined | VNull => []
  | VRef l => match h !! l with Some (OArray es) => es | _ => [v] end
  | _ => [v]
  end.

Fixpoint repeat_loop (n : nat) (s result : jsstr) : jsstr :=
  match n with O => result | S n' => repeat_loop n' s (result ++ s) end.

(** [repeat(string, count)]; no iteration for a negative count. *)
Definition repeat (s : jsstr) (count : Z) : jsstr := repeat_loop (Z.to_nat count) s [].

(** [extend(target, source)] on objects given by their own properties: the
    source's properties overwrite the target's. *)
Definition extend {A} (target source : list (jsstr * A)) : list (jsstr * A) :=
  fold_left (fun t k => match assoc_get source k with
                        | Some v => assoc_set t k v
                        | None => t end)
            (order_keys (fst <$> source)) target.

(** [number === 0 && Number.NEGATIVE_INFINITY === 1 / number]. *)
Definition isNegativeZero (n : num) : bool :=
  match n with SpecFloat.S754_zero true => true | _ => false end.

(** ** Mark *)

Record Mark : Type := mkMark {
  name : option jsstr;
  buffer : jsstr;
  mposition : Z;
  mline : Z;
  column : Z
}.

(** The test that the unit at [i] does not end a line of the buffer; the empty
    string that [charAt] gives out of range is found by [indexOf] at index 0. *)
Definition not_line_end (b : jsstr) (i : Z) : bool :=
  match char_at b i with
  | Some c => negb (existsb (Z.eqb c) [0; 13; 10; 133; 8232; 8233])
  | None => false
  end.

(** The loop that moves [start] back; [maxLength / 2 - 1] is compared doubled. *)
Fixpoint snippet_start (fuel : nat) (m : Mark) (maxLength start : Z) : jsstr * Z :=
  match fuel with
  | O => ([], start)
  | S f =>
      if (0 <? start) && not_line_end (buffer m) (start - 1) then
        if maxLength - 2 <? 2 * (mposition m - (start - 1))
        then (js " ... ", start - 1 + 5)
        else snippet_start f m maxLength (start - 1)
      else ([], start)
  end.

Fixpoint snippet_end (fuel : nat) (m : Mark) (maxLength end_ : Z) : jsstr * Z :=
  match fuel with
  | O => ([], end_)
  | S f =>
      if (end_ <? strlen (buffer m)) && not_line_end (buffer m) end_ then
        if maxLength - 2 <? 2 * (end_ + 1 - mposition m)
        then (js " ... ", end_ + 1 - 5)
        else snippet_end f m maxLength (end_ + 1)
      else ([], end_)
  end.

(** [getSnippet(indent, maxLength)]; [None] is the source's [null]. *)
Definition getSnippet (m : Mark) (indent maxLength : Z) : option jsstr :=
  match buffer m with
  | [] => None
  | _ =>
      let indent := if indent =? 0 then 4 else indent in
      let maxLength := if maxLength =? 0 then 75 else maxLength in
      let '(head, start) :=
        snippet_start (Z.to_nat (mposition m)) m maxLength (mposition m) in
      let '(tail, end_) :=
        snippet_end (length (buffer m)) m maxLength (mposition m) in
      let snippet := slice (buffer m) start end_ in
      Some (repeat [32] indent ++ head ++ snippet ++ tail ++ [10]
            ++ repeat [32] (indent + mposition m - start + strlen head) ++ [94])
  end.

(** [Mark.prototype.toString(compact)]. *)
Definition mark_toString (m : Mark) (compact : bool) : jsstr :=
  let where_ := match name m with
                | Some (c :: n) => js "in " ++ [34] ++ (c :: n) ++ [34] ++ js " "
                | _ => []
                end
                ++ js "at line " ++ int_toString 10 (mline m + 1)
                ++ js ", column " ++ int_toString 10 (column m + 1) in
  if compact then where_
  else match getSnippet m 0 0 with
       | Some (c :: s) => where_ ++ js ":" ++ [10] ++ (c :: s)
       | _ => where_
       end.

(** ** YAMLException *)

Record YAMLException : Type := mkYAMLException {
  reason : jsstr;
  mark : option Mark
}.

Definition reason_text (e : YAMLException) : jsstr :=
  match reason e with [] => js "(unknown reason)" | r => r end.

(** The [message] the constructor computes. *)
Definition exception_message (e : YAMLException) : jsstr :=
  reason_text e
  ++ match mark e with Some m => js " " ++ mark_toString m false | None => [] end.

(** [YAMLException.prototype.toString(compact)]. *)
Definition exception_toString (e : YAMLException) (compact : bool) : jsstr :=
  js "YAMLException: " ++ reason_text e
  ++ (if compact then [] else
        match mark e with Some m => js " " ++ mark_toString m false | None => [] end).

(** What the library throws: its own exceptions and the language's. *)
Inductive jserror : Type :=
| EYaml (e : YAMLException)
| ENative (e : native_error).

Definition lift_native {A} (o : outcome native_error A) : outcome jserror A :=
  match o with
  | Ret a => Ret a
  | Throw e => Throw (ENative e)
  | OutOfFuel => OutOfFuel
  end.

(** ** Facts *)

Lemma repeat_loop_app n s r : repeat_loop n s r = r ++ concat (List.repeat s n).
Proof.
  revert r. induction n as [|n IH]; intros r; simpl; [by rewrite app_nil_r|].
  by rewrite IH, app_assoc.
Qed.

Lemma repeat_spec s count : repeat s count = concat (List.repeat s (Z.to_nat count)).
Proof. unfold repeat. by rewrite repeat_loop_app. Qed.

Lemma repeat_unit c count : repeat [c] count = replicate (Z.to_nat count) c.
Proof.
  rewrite repeat_spec. induction (Z.to_nat count) as [|n IH]; [done|].
  simpl. by rewrite IH.
Qed.
