(* ===== verification/YamlTypes.v ===== *)
(** * js-yaml: the YAML types

    One definition per resolver, constructor, predicate and representer of the
    type modules of swagger-ui.js (null, bool, int, float, timestamp, merge,
    binary, omap, pairs, set, js/undefined, js/regexp, js/function), the record
    [yaml_type] that the [Type] constructor fills, and the type values.

    A resolver is called with any value the loader has built so far, not only
    with strings, so each is a function of a [value] and the heap; calling a
    string method on another value is a TypeError. *)

From S2P Require Import JsPrelude JsNumber JsValue JsRegExp YamlCommon.
From Stdlib Require Import Floats.SpecFloat.

Inductive node_kind : Type := KScalar | KSequence | KMapping.
#[global] Instance node_kind_eq_dec : EqDecision node_kind.
Proof. solve_decision. Defined.

Definition resolver := heap -> value -> outcome native_error bool.
Definition constructor := heap -> value -> outcome native_error (value * heap).
Definition predicate_t := heap -> value -> bool.
Definition representer := heap -> value -> jsstr -> outcome native_error jsstr.

(** [represent] is absent, a function of the object and the style, or a table of
    functions by style. *)
Inductive represent_t : Type :=
| NoRepresent
| RepFunction (f : representer)
| RepStyles (fs : list (jsstr * representer)).

Record yaml_type : Type := mkType {
  tag : jsstr;
  kind : node_kind;
  resolve : resolver;
  construct : constructor;
  instanceOf : option predicate_t;
  predicate : option predicate_t;
  represent : represent_t;
  defaultStyle : option jsstr;
  styleAliases : list (jsstr * jsstr)
}.

(** The defaults of the [Type] constructor. *)
Definition default_resolve : resolver := fun _ _ => Ret true.
Definition default_construct : constructor := fun h v => Ret (v, h).

(** [compileStyleAliases]: the aliases of each style, later ones winning. *)
Definition compileStyleAliases (map : list (jsstr * list jsstr)) : list (jsstr * jsstr) :=
  fold_left (fun acc '(style, aliases) =>
               fold_left (fun acc alias => assoc_set acc alias style) aliases acc)
            map [].

(** [data.length], [data.replace] and the like on [undefined] and [null], and
    calling a string method on a value that has none. *)
Definition no_property {A} : outcome native_error A :=
  Throw (TypeError (js "Cannot read property of undefined")).
Definition not_a_function {A} : outcome native_error A :=
  Throw (TypeError (js "is not a function")).

Definition is_kind_construct (d : hobj) : constructor :=
  fun h v => match v with
             | VNull => let '(l, h') := alloc h d in Ret (VRef l, h')
             | _ => Ret (v, h) end.

(** ** str, seq, map *)

Definition constructYamlStr : constructor :=
  fun h v => match v with VNull => Ret (VString [], h) | _ => Ret (v, h) end.
Definition constructYamlSeq : constructor := is_kind_construct (OArray []).
Definition constructYamlMap : constructor := is_kind_construct (OObject empty_object).

(** ** null *)

Definition null_words : list jsstr := [js "null"; js "Null"; js "NULL"].

Definition resolveYamlNull : resolver := fun h data =>
  match data with
  | VNull => Ret true
  | VUndefined => no_property
  | VString s =>
      let max := strlen s in
      Ret ((max =? 1) && jseqb s (js "~") || (max =? 4) && existsb (jseqb s) null_words)
  | _ => Ret false
  end.

Definition constructYamlNull : constructor := fun h _ => Ret (VNull, h).
Definition isNull : predicate_t := fun _ v => match v with VNull => true | _ => false end.

(** ** bool *)

Definition true_words : list jsstr := [js "true"; js "True"; js "TRUE"].
Definition false_words : list jsstr := [js "false"; js "False"; js "FALSE"].

Definition resolveYamlBoolean : resolver := fun h data =>
  match data with
  | VNull => Ret false
  | VUndefined => no_property
  | VString s =>
      let max := strlen s in
      Ret ((max =? 4) && existsb (jseqb s) true_words
           || (max =? 5) && existsb (jseqb s) false_words)
  | _ => Ret false
  end.

Definition constructYamlBoolean : constructor := fun h data =>
  Ret (VBool (match data with VString s => existsb (jseqb s) true_words | _ => false end), h).

Definition isBoolean : predicate_t :=
  fun _ v => match v with VBool _ => true | _ => false end.

(** ** int *)

Definition isHexCode (c : Z) : bool :=
  (48 <=? c) && (c <=? 57) || (65 <=? c) && (c <=? 70) || (97 <=? c) && (c <=? 102).
Definition isOctCode (c : Z) : bool := (48 <=? c) && (c <=? 55).
Definition isDecCode (c : Z) : bool := (48 <=? c) && (c <=? 57).
Definition isBinCode (c : Z) : bool := (c =? 48) || (c =? 49).

(** The loop shared by the binary, hexadecimal and octal branches: [last] is
    the source's [ch] when the loop ends. *)
Fixpoint digits_loop (ok : Z -> bool) (hasDigits : bool) (last : Z) (s : jsstr) : bool :=
  match s with
  | [] => hasDigits && negb (last =? 95)
  | ch :: s' =>
      if ch =? 95 then digits_loop ok hasDigits ch s'
      else if negb (ok ch) then false
      else digits_loop ok true ch s'
  end.

(** [/^(:[0-5]?[0-9])+$/]. *)
Definition SEXAGESIMAL : regex :=
  RPlus (RSeqs [RChr 58; ROpt (RClass (in_range 48 53)); RClass (in_range 48 57)]).

(** The decimal branch; the loop leaves at a colon with the rest of the string
    from there. *)
Fixpoint decimal_loop (hasDigits : bool) (last : Z) (s : jsstr) : bool :=
  match s with
  | [] => hasDigits && negb (last =? 95)
  | ch :: s' =>
      if ch =? 95 then decimal_loop hasDigits ch s'
      else if ch =? 58 then hasDigits && rmatch SEXAGESIMAL s
      else if negb (isDecCode ch) then false
      else decimal_loop true ch s'
  end.

Definition resolve_integer_text (data : jsstr) : bool :=
  match data with
  | [] => false
  | c0 :: r0 =>
      let s := if (c0 =? 45) || (c0 =? 43) then r0 else data in
      match s with
      | 48 :: [] => true
      | 48 :: 98 :: r => digits_loop isBinCode false 98 r
      | 48 :: 120 :: r => digits_loop isHexCode false 120 r
      | 48 :: r => digits_loop isOctCode false 48 r
      | 95 :: _ => false
      | _ => decimal_loop false 0 s
      end
  end.

Definition resolveYamlInteger : resolver := fun h data =>
  match data with
  | VNull => Ret false
  | VUndefined => no_property
  | VString s => Ret (resolve_integer_text s)
  | _ => Ret false
  end.

Definition num_sign (neg : bool) : num := num_of_Z (if neg then -1 else 1).

(** The base-60 accumulation over the parts, last part first. *)
Definition sexagesimal (parts : list num) : num :=
  fst (fold_left (fun '(value, base) d =>
                    (num_add value (num_mul d base), num_mul base (num_of_Z 60)))
                 (rev parts) (num_of_Z 0, num_of_Z 1)).

Definition construct_integer_text (data : jsstr) : num :=
  let value := remove_chars [95] data in
  let '(neg, value) := read_sign value in
  if jseqb value (js "0") then num_of_Z 0
  else match value with
       | 48 :: 98 :: r => num_mul (num_sign neg) (parseInt r 2)
       | 48 :: 120 :: _ => num_mul (num_sign neg) (parseInt value 16)
       | 48 :: _ => num_mul (num_sign neg) (parseInt value 8)
       | _ =>
           if negb (indexOf value 58 =? -1) then
             num_mul (num_sign neg)
               (sexagesimal ((fun v => parseInt v 10) <$> split_char 58 value))
           else num_mul (num_sign neg) (parseInt value 10)
       end.

Definition constructYamlInteger : constructor := fun h data =>
  match data with
  | VString s => Ret (VNumber (construct_integer_text s), h)
  | VNull | VUndefined => no_property
  | _ => not_a_function
  end.

Definition isInteger : predicate_t := fun _ v =>
  match v with VNumber n => is_integral n && negb (isNegativeZero n) | _ => false end.

(** [obj.toString(radix)] for the integral numbers the predicate admits. *)
Definition num_toRadix (radix : Z) (n : num) : jsstr :=
  match num_to_Z n with
  | Some z => int_toString radix z
  | None => num_toString n
  end.

Definition num_nonneg (n : num) : bool :=
  match n with
  | S754_zero _ | S754_finite false _ _ | S754_infinity false => true
  | _ => false
  end.

Definition on_number (f : num -> jsstr) : representer := fun _ v _ =>
  match v with VNumber n => Ret (f n) | _ => not_a_function end.

Definition represent_binary (n : num) : jsstr :=
  if num_nonneg n then js "0b" ++ num_toRadix 2 n
  else js "-0b" ++ slice_from (num_toRadix 2 n) 1.
Definition represent_octal (n : num) : jsstr :=
  if num_nonneg n then js "0" ++ num_toRadix 8 n
  else js "-0" ++ slice_from (num_toRadix 8 n) 1.
Definition represent_decimal (n : num) : jsstr := num_toString n.
Definition represent_hexadecimal (n : num) : jsstr :=
  if num_nonneg n then js "0x" ++ toUpperCase (num_toRadix 16 n)
  else js "-0x" ++ slice_from (toUpperCase (num_toRadix 16 n)) 1.

(** ** float *)

Definition DIGIT : regex := RClass (in_range 48 57).
Definition DIGIT_ : regex := RClass (fun c => in_range 48 57 c || (c =? 95)).
Definition SIGN_OPT : regex := ROpt (RClass (one_of [45; 43])).
(** [(?:[eE][-+]?[0-9]+)?]. *)
Definition EXPONENT_OPT : regex :=
  ROpt (RSeqs [RClass (one_of [101; 69]); SIGN_OPT; RPlus DIGIT]).

(** The five alternatives of [YAML_FLOAT_PATTERN], in order. *)
Definition FLOAT_DECIMAL : regex :=
  RSeqs [SIGN_OPT;
         RAlt (RChr 48) (RSeq (RClass (in_range 49 57)) (RStar DIGIT_));
         ROpt (RSeq (RChr 46) (RStar DIGIT_));
         EXPONENT_OPT].
Definition FLOAT_FRACTION : regex := RSeqs [RChr 46; RPlus DIGIT_; EXPONENT_OPT].
Definition FLOAT_SEXAGESIMAL : regex :=
  RSeqs [SIGN_OPT; DIGIT; RStar DIGIT_;
         RPlus (RSeqs [RChr 58; ROpt (RClass (in_range 48 53)); DIGIT]);
         RChr 46; RStar DIGIT_].
Definition FLOAT_INF : regex :=
  RSeqs [SIGN_OPT; RChr 46; RAlts [RLit (js "inf"); RLit (js "Inf"); RLit (js "INF")]].
Definition FLOAT_NAN : regex :=
  RSeqs [RChr 46; RAlts [RLit (js "nan"); RLit (js "NaN"); RLit (js "NAN")]].
Definition YAML_FLOAT_PATTERN : regex :=
  RAlts [FLOAT_DECIMAL; FLOAT_FRACTION; FLOAT_SEXAGESIMAL; FLOAT_INF; FLOAT_NAN].

Definition resolve_float_text (s : jsstr) : bool :=
  rmatch YAML_FLOAT_PATTERN s
  && negb (match last s with Some c => c =? 95 | None => false end).

(** [YAML_FLOAT_PATTERN.test] converts its argument to a string; indexing a
    value that is no string gives [undefined], which is not an underscore. *)
Definition resolveYamlFloat (hs : Host) : resolver := fun h data =>
  match data with
  | VNull => Ret false
  | VString s => Ret (resolve_float_text s)
  | _ => s ← value_toString hs h data; Ret (rmatch YAML_FLOAT_PATTERN s)
  end.

Definition construct_float_text (data : jsstr) : num :=
  let value := toLowerCase (remove_chars [95] data) in
  let neg := match value with 45 :: _ => true | _ => false end in
  let value := match value with c :: r => if (c =? 43) || (c =? 45) then r else value
                              | [] => value end in
  if jseqb value (js ".inf") then S754_infinity neg
  else if jseqb value (js ".nan") then S754_nan
  else if 0 <=? indexOf value 58 then
    num_mul (num_sign neg) (sexagesimal (parseFloat <$> split_char 58 value))
  else num_mul (num_sign neg) (parseFloat value).

Definition constructYamlFloat : constructor := fun h data =>
  match data with
  | VString s => Ret (VNumber (construct_float_text s), h)
  | VNull | VUndefined => no_property
  | _ => not_a_function
  end.

(** [/^[-+]?[0-9]+e/] tests a prefix. *)
Definition SCIENTIFIC_WITHOUT_DOT : regex :=
  RSeqs [SIGN_OPT; RPlus DIGIT; RChr 101; RStar (RClass (fun _ => true))].

(** [res.replace("e", ".e")]: the first occurrence. *)
Fixpoint dot_before_e (s : jsstr) : jsstr :=
  match s with
  | [] => []
  | c :: s' => if c =? 101 then 46 :: c :: s' else c :: dot_before_e s'
  end.

Definition by_style (style lower upper camel other : jsstr) : jsstr :=
  if jseqb style (js "lowercase") then lower
  else if jseqb style (js "uppercase") then upper
  else if jseqb style (js "camelcase") then camel
  else other.

(** An unknown style falls out of each [switch] to the code after it. *)
Definition represent_float (n : num) (style : jsstr) : jsstr :=
  let res := num_toString n in
  let plain := if rmatch SCIENTIFIC_WITHOUT_DOT res then dot_before_e res else res in
  match n with
  | S754_nan => by_style style (js ".nan") (js ".NAN") (js ".NaN") plain
  | S754_infinity false => by_style style (js ".inf") (js ".INF") (js ".Inf") plain
  | S754_infinity true => by_style style (js "-.inf") (js "-.INF") (js "-.Inf") plain
  | _ => if isNegativeZero n then js "-0.0" else plain
  end.

Definition representYamlFloat : representer := fun _ v style =>
  match v with VNumber n => Ret (represent_float n style) | _ => not_a_function end.

Definition isFloat : predicate_t := fun _ v =>
  match v with VNumber n => negb (is_integral n) || isNegativeZero n | _ => false end.

(** ** timestamp *)

Fixpoint RTimes (n : nat) (r : regex) : regex :=
  match n with O => REps | S n' => RSeq r (RTimes n' r) end.

Definition YAML_DATE_REGEXP : regex :=
  RSeqs [RTimes 4 DIGIT; RChr 45; RTimes 2 DIGIT; RChr 45; RTimes 2 DIGIT].
Definition ONE_OR_TWO : regex := RSeq DIGIT (ROpt DIGIT).
Definition BLANK : regex := RClass (one_of [32; 9]).
Definition YAML_TIMESTAMP_REGEXP : regex :=
  RSeqs [RTimes 4 DIGIT; RChr 45; ONE_OR_TWO; RChr 45; ONE_OR_TWO;
         RAlt (RClass (one_of [84; 116])) (RPlus BLANK);
         ONE_OR_TWO; RChr 58; RTimes 2 DIGIT; RChr 58; RTimes 2 DIGIT;
         ROpt (RSeq (RChr 46) (RStar DIGIT));
         ROpt (RSeq (RStar BLANK)
                 (RAlt (RChr 90)
                    (RSeqs [RClass (one_of [45; 43]); ONE_OR_TWO;
                            ROpt (RSeq (RChr 58) (RTimes 2 DIGIT))])))].

(** What the groups of the two patterns capture.  The time groups are absent
    for a date. *)
Record ts_zone : Type := mkZone { z_minus : bool; z_hour : jsstr; z_minute : option jsstr }.
Record ts_time : Type := mkTime {
  t_hour : jsstr; t_minute : jsstr; t_second : jsstr;
  t_fraction : option jsstr; t_zone : option ts_zone
}.
Record ts_match : Type := mkMatch {
  g_year : jsstr; g_month : jsstr; g_day : jsstr; g_time : option ts_time
}.

(** Greedy scanning of the groups: after each group the patterns require a unit
    that the group cannot contain, so the first greedy match is the only one. *)
Fixpoint take_while (p : Z -> bool) (s : jsstr) : jsstr * jsstr :=
  match s with
  | c :: s' => if p c then let '(a, b) := take_while p s' in (c :: a, b) else ([], s)
  | [] => ([], [])
  end.
Definition exact_digits (n : nat) (s : jsstr) : option (jsstr * jsstr) :=
  if (n <=? length (fst (take_while isDecCode (take n s))))%nat
  then Some (take n s, drop n s) else None.
Definition one_or_two (s : jsstr) : option (jsstr * jsstr) :=
  match exact_digits 2 s with Some r => Some r | None => exact_digits 1 s end.
Definition expect (c : Z) (s : jsstr) : option jsstr :=
  match s with x :: s' => if x =? c then Some s' else None | [] => None end.

Definition exec_date (s : jsstr) : option ts_match :=
  '(y, s) ← exact_digits 4 s; s ← expect 45 s;
  '(mo, s) ← exact_digits 2 s; s ← expect 45 s;
  '(d, s) ← exact_digits 2 s;
  if bool_decide (s = []) then Some (mkMatch y mo d None) else None.

(** [(?:[Tt]|[ \t]+)]. *)
Definition exec_separator (s : jsstr) : option jsstr :=
  match s with
  | c :: s' => if (c =? 84) || (c =? 116) then Some s'
               else if (c =? 32) || (c =? 9) then Some (snd (take_while (one_of [32; 9]) s'))
               else None
  | [] => None
  end.

Definition exec_fraction (s : jsstr) : option jsstr * jsstr :=
  match s with
  | 46 :: s' => let '(f, r) := take_while isDecCode s' in (Some f, r)
  | _ => (None, s)
  end.

(** The optional zone and the end of the string: the outer option tells a match,
    the inner one whether the numeric offset is there. *)
Definition exec_zone (s : jsstr) : option (option ts_zone) :=
  match s with
  | [] => Some None
  | _ =>
      match snd (take_while (one_of [32; 9]) s) with
      | [90] => Some None
      | c :: r =>
          if (c =? 45) || (c =? 43) then
            '(hh, r) ← one_or_two r;
            match r with
            | [] => Some (Some (mkZone (c =? 45) hh None))
            | _ => r ← expect 58 r; '(mm, r) ← exact_digits 2 r;
                   if bool_decide (r = []) then Some (Some (mkZone (c =? 45) hh (Some mm)))
                   else None
            end
          else None
      | [] => None
      end
  end.

Definition exec_timestamp (s : jsstr) : option ts_match :=
  '(y, s) ← exact_digits 4 s; s ← expect 45 s;
  '(mo, s) ← one_or_two s; s ← expect 45 s;
  '(d, s) ← one_or_two s; s ← exec_separator s;
  '(hh, s) ← one_or_two s; s ← expect 58 s;
  '(mi, s) ← exact_digits 2 s; s ← expect 58 s;
  '(se, s) ← exact_digits 2 s;
  let '(f, s) := exec_fraction s in
  z ← exec_zone s;
  Some (mkMatch y mo d (Some (mkTime hh mi se f z))).

Definition exec_any (s : jsstr) : option ts_match :=
  match exec_date s with Some m => Some m | None => exec_timestamp s end.

(** [exec] converts its argument to a string. *)
Definition resolveYamlTimestamp (hs : Host) : resolver := fun h data =>
  match data with
  | VNull => Ret false
  | _ => s ← value_toString hs h data;
         Ret (match exec_any s with Some _ => true | None => false end)
  end.

(** [+match[i]] of a group of digits. *)
Definition group_int (s : jsstr) : Z := let '(v, _, _) := read_digits 10 0 0 s in v.

(** Days from 1970-01-01 to the first day of a month, in the proleptic Gregorian
    calendar ([MakeDay] of the language; months overflow into years). *)
Definition days_of_year (y : Z) : Z :=
  365 * (y - 1970) + (y - 1969) / 4 - (y - 1901) / 100 + (y - 1601) / 400.
Definition is_leap (y : Z) : bool :=
  (y mod 4 =? 0) && negb (y mod 100 =? 0) || (y mod 400 =? 0).
Definition month_offset (leap : bool) (m : Z) : Z :=
  let l := if leap then 1 else 0 in
  nth (Z.to_nat m) [0; 31; 59 + l; 90 + l; 120 + l; 151 + l; 181 + l; 212 + l;
                    243 + l; 273 + l; 304 + l; 334 + l] 0.
Definition make_day (y m d : Z) : Z :=
  let ym := y + m / 12 in
  days_of_year ym + month_offset (is_leap ym) (m mod 12) + d - 1.

(** [Date.UTC]: a year from 0 to 99 means 1900 to 1999. *)
Definition date_UTC (y m d hh mi se ms : Z) : Z :=
  let y := if (0 <=? y) && (y <=? 99) then 1900 + y else y in
  ((make_day y m d * 24 + hh) * 60 + mi) * 60000 + se * 1000 + ms.

(** [match[7].slice(0, 3)] padded with zeros, as a number. *)
Definition fraction_ms (f : option jsstr) : Z :=
  match f with
  | Some (c :: s) => let g := take 3 (c :: s) in
                     group_int (g ++ zeros (3 - strlen g))
  | _ => 0
  end.

Definition zone_delta (z : option ts_zone) : Z :=
  match z with
  | None => 0
  | Some z =>
      let delta := (group_int (z_hour z) * 60
                    + match z_minute z with Some m => group_int m | None => 0 end) * 60000 in
      if z_minus z then - delta else delta
  end.

Definition construct_timestamp (m : ts_match) : Z :=
  let year := group_int (g_year m) in
  let month := group_int (g_month m) - 1 in
  let day := group_int (g_day m) in
  match g_time m with
  | None => date_UTC year month day 0 0 0 0
  | Some t =>
      date_UTC year month day (group_int (t_hour t)) (group_int (t_minute t))
               (group_int (t_second t)) (fraction_ms (t_fraction t))
      - zone_delta (t_zone t)
  end.

Definition constructYamlTimestamp (hs : Host) : constructor := fun h data =>
  s ← value_toString hs h data;
  match exec_any s with
  | Some m => let '(l, h') := alloc h (ODate (construct_timestamp m)) in Ret (VRef l, h')
  | None => Throw (PlainError (js "Date resolve error"))
  end.

Definition isDate : predicate_t := fun h v =>
  match v with
  | VRef l => match h !! l with Some (ODate _) => true | _ => false end
  | _ => false
  end.

(** [toISOString]: the civil date of a time value. *)
Definition civil_of_days (z : Z) : Z * Z * Z :=
  let z := z + 719468 in
  let era := z / 146097 in
  let doe := z mod 146097 in
  let yoe := (doe - doe / 1460 + doe / 36524 - doe / 146096) / 365 in
  let doy := doe - (365 * yoe + yoe / 4 - yoe / 100) in
  let mp := (5 * doy + 2) / 153 in
  let d := doy - (153 * mp + 2) / 5 + 1 in
  let m := if mp <? 10 then mp + 3 else mp - 9 in
  (yoe + era * 400 + (if m <=? 2 then 1 else 0), m, d).

Definition pad (n z : Z) : jsstr :=
  let ds := digits 10 z in zeros (n - strlen ds) ++ ds.

Definition iso_year (y : Z) : jsstr :=
  if (0 <=? y) && (y <=? 9999) then pad 4 y
  else (if y <? 0 then 45 else 43) :: pad 6 (Z.abs y).

Definition toISOString (t : Z) : jsstr :=
  let '(y, m, d) := civil_of_days (t / 86400000) in
  let r := t mod 86400000 in
  iso_year y ++ js "-" ++ pad 2 m ++ js "-" ++ pad 2 d ++ js "T"
  ++ pad 2 (r / 3600000) ++ js ":" ++ pad 2 (r / 60000 mod 60) ++ js ":"
  ++ pad 2 (r / 1000 mod 60) ++ js "." ++ pad 3 (r mod 1000) ++ js "Z".

Definition representYamlTimestamp : representer := fun h v _ =>
  match v with
  | VRef l => match h !! l with
              | Some (ODate t) => Ret (toISOString t)
              | _ => not_a_function end
  | VNull | VUndefined => no_property
  | _ => not_a_function
  end.

(** ** merge *)

Definition resolveYamlMerge : resolver := fun _ data =>
  Ret (match data with VNull => true | VString s => jseqb s (js "<<") | _ => false end).

(** ** binary *)

Definition BASE64_MAP : jsstr :=
  js "ABCDEFGHIJKLMNOPQRSTUVWXYZabcdefghijklmnopqrstuvwxyz0123456789+/=" ++ [10; 13].

Fixpoint binary_bitlen (bitlen : Z) (s : jsstr) : option Z :=
  match s with
  | [] => Some bitlen
  | c :: s' =>
      let code := indexOf BASE64_MAP c in
      if 64 <? code then binary_bitlen bitlen s'
      else if code <? 0 then None
      else binary_bitlen (bitlen + 6) s'
  end.

Definition resolve_binary_text (s : jsstr) : bool :=
  match binary_bitlen 0 s with Some n => n mod 8 =? 0 | None => false end.

(** A value without a [length] skips the loop. *)
Definition resolveYamlBinary : resolver := fun _ data =>
  match data with
  | VNull => Ret false
  | VUndefined => no_property
  | VString s => Ret (resolve_binary_text s)
  | _ => Ret true
  end.

Definition byte_at (bits k : Z) : Z := and32 (sar32 bits k) 255.

(** The decoding loop: [bits] is kept as the 32-bit accumulator of the source. *)
Fixpoint decode_loop (idx bits : Z) (input : jsstr) (result : list Z) : Z * list Z :=
  match input with
  | [] => (bits, result)
  | c :: input' =>
      let result := if (idx mod 4 =? 0) && negb (idx =? 0)
                    then result ++ [byte_at bits 16; byte_at bits 8; byte_at bits 0]
                    else result in
      decode_loop (idx + 1) (or32 (shl32 bits 6) (indexOf BASE64_MAP c)) input' result
  end.

Definition decode_base64 (data : jsstr) : list Z :=
  let input := remove_chars [13; 10; 61] data in
  let '(bits, result) := decode_loop 0 0 input [] in
  let tailbits := strlen input mod 4 * 6 in
  if tailbits =? 0 then result ++ [byte_at bits 16; byte_at bits 8; byte_at bits 0]
  else if tailbits =? 18 then result ++ [byte_at bits 10; byte_at bits 2]
  else if tailbits =? 12 then result ++ [byte_at bits 4]
  else result.

Definition constructYamlBinary (hs : Host) : constructor := fun h data =>
  match data with
  | VString s =>
      let bytes := decode_base64 s in
      let '(l, h') := alloc h (if has_Buffer hs then OBuffer bytes
                               else OArray ((fun b => VNumber (num_of_Z b)) <$> bytes)) in
      Ret (VRef l, h')
  | VNull | VUndefined => no_property
  | _ => not_a_function
  end.

Definition sextet (bits k : Z) : Z := charCodeAt BASE64_MAP (and32 (sar32 bits k) 63).
Definition sextet_shl (bits k : Z) : Z := charCodeAt BASE64_MAP (and32 (shl32 bits k) 63).

Fixpoint encode_loop (idx bits : Z) (bytes : list Z) (result : jsstr) : Z * jsstr :=
  match bytes with
  | [] => (bits, result)
  | b :: bytes' =>
      let result := if (idx mod 3 =? 0) && negb (idx =? 0)
                    then result ++ [sextet bits 18; sextet bits 12; sextet bits 6; sextet bits 0]
                    else result in
      encode_loop (idx + 1) (shl32 bits 8 + b) bytes' result
  end.

Definition encode_base64 (bytes : list Z) : jsstr :=
  let '(bits, result) := encode_loop 0 0 bytes [] in
  let tail := strlen bytes mod 3 in
  if tail =? 0
  then result ++ [sextet bits 18; sextet bits 12; sextet bits 6; sextet bits 0]
  else if tail =? 2
  then result ++ [sextet bits 10; sextet bits 4; sextet_shl bits 2; 61]
  else result ++ [sextet bits 2; sextet_shl bits 4; 61; 61].

Definition representYamlBinary : representer := fun h v _ =>
  match v with
  | VRef l => match h !! l with
              | Some (OBuffer bytes) => Ret (encode_base64 bytes)
              | _ => not_a_function end
  | VNull | VUndefined => no_property
  | _ => not_a_function
  end.

Definition isBinary (hs : Host) : predicate_t := fun h v =>
  has_Buffer hs &&
  match v with
  | VRef l => match h !! l with Some (OBuffer _) => true | _ => false end
  | _ => false
  end.

(** ** omap, pairs, set *)

(** [_toString.call(v) === "[object Object]"]. *)
Definition plain_object (h : heap) (v : value) : option object :=
  match v with
  | VRef l => match h !! l with Some (OObject o) => Some o | _ => None end
  | _ => None
  end.

(** The elements a loop to [data.length] visits; a value without a length has
    none. *)
Definition elements_of (h : heap) (v : value) : outcome native_error (list value) :=
  match v with
  | VUndefined | VNull => no_property
  | VString s => Ret ((fun c => VString [c]) <$> s)
  | VRef l => match h !! l with
              | Some (OArray es) => Ret es
              | Some (OBuffer bs) => Ret ((fun b => VNumber (num_of_Z b)) <$> bs)
              | _ => Ret [] end
  | _ => Ret []
  end.

(** The keys [for (key in o)] visits: own keys, then those of the prototypes. *)
Fixpoint for_in_keys (fuel : nat) (h : heap) (o : hobj) : list jsstr :=
  object_keys o ++
  match o, fuel with
  | OObject ob, S f =>
      match proto ob with
      | ProtoRef l => match h !! l with
                      | Some o' => List.filter (fun k => negb (existsb (jseqb k) (object_keys o)))
                                               (for_in_keys f h o')
                      | None => [] end
      | _ => []
      end
  | _, _ => []
  end.

Fixpoint omap_loop (h : heap) (objectKeys : list jsstr) (pairs : list value) : bool :=
  match pairs with
  | [] => true
  | pr :: rest =>
      match plain_object h pr with
      | None => false
      | Some o =>
          match object_keys (OObject o), last (for_in_keys (length h) h (OObject o)) with
          | [_], Some pairKey =>
              if existsb (jseqb pairKey) objectKeys then false
              else omap_loop h (objectKeys ++ [pairKey]) rest
          | _, _ => false
          end
      end
  end.

Definition resolveYamlOmap : resolver := fun h data =>
  match data with
  | VNull => Ret true
  | _ => es ← elements_of h data; Ret (omap_loop h [] es)
  end.
Definition constructYamlOmap : constructor := is_kind_construct (OArray []).

Fixpoint pairs_loop (h : heap) (pairs : list value) : bool :=
  match pairs with
  | [] => true
  | pr :: rest =>
      match plain_object h pr with
      | None => false
      | Some o => (length (object_keys (OObject o)) =? 1)%nat && pairs_loop h rest
      end
  end.

Definition resolveYamlPairs : resolver := fun h data =>
  match data with
  | VNull => Ret true
  | _ => es ← elements_of h data; Ret (pairs_loop h es)
  end.

(** The pair [[keys[0], pair[keys[0]]]] of an element. *)
Definition pair_of (h : heap) (pr : value) : outcome native_error (list value) :=
  match pr with
  | VUndefined | VNull => no_property
  | VRef l =>
      match h !! l with
      | Some o => match object_keys o with
                  | k :: _ => Ret [VString k; object_get o k]
                  | [] => Ret [VUndefined; VUndefined] end
      | None => Ret [VUndefined; VUndefined]
      end
  | VString (c :: _) => Ret [VString (js "0"); VString [c]]
  | _ => Ret [VUndefined; VUndefined]
  end.

Fixpoint construct_pairs_loop (h : heap) (pairs result : list value)
    : outcome native_error (list value * heap) :=
  match pairs with
  | [] => Ret (result, h)
  | pr :: rest =>
      kv ← pair_of h pr;
      let '(l, h') := alloc h (OArray kv) in
      construct_pairs_loop h' rest (result ++ [VRef l])
  end.

Definition constructYamlPairs : constructor := fun h data =>
  match data with
  | VNull => let '(l, h') := alloc h (OArray []) in Ret (VRef l, h')
  | _ => es ← elements_of h data;
         '(result, h') ← construct_pairs_loop h es [];
         let '(l, h'') := alloc h' (OArray result) in Ret (VRef l, h'')
  end.

Definition all_null (o : hobj) : bool :=
  forallb (fun k => match object_get o k with VNull => true | _ => false end) (object_keys o).

Definition resolveYamlSet : resolver := fun h data =>
  Ret (match data with
       | VRef l => match h !! l with Some o => all_null o | None => true end
       | VString (_ :: _) => false
       | _ => true
       end).
Definition constructYamlSet : constructor := is_kind_construct (OObject empty_object).

(** ** js/undefined *)

Definition resolveJavascriptUndefined : resolver := fun _ _ => Ret true.
Definition constructJavascriptUndefined : constructor := fun h _ => Ret (VUndefined, h).
Definition representJavascriptUndefined : representer := fun _ _ _ => Ret [].
Definition isUndefined : predicate_t :=
  fun _ v => match v with VUndefined => true | _ => false end.

(** ** js/regexp *)

(** The pattern of a final slash with flags: the letters after the last slash,
    when only flag letters follow it. *)
Fixpoint regexp_tail (s : jsstr) : option jsstr :=
  match s with
  | [] => None
  | c :: s' =>
      if (c =? 47) && forallb (one_of [103; 105; 109]) s' then Some s' else regexp_tail s'
  end.

Definition modifiers_of (s : jsstr) : jsstr := default [] (regexp_tail s).

Definition resolve_regexp_text (s : jsstr) : bool :=
  match s with
  | 47 :: _ =>
      let modifiers := modifiers_of s in
      negb (3 <? strlen modifiers)
      && match char_at s (strlen s - strlen modifiers - 1) with
         | Some c => c =? 47
         | None => false end
  | _ => true
  end.

Definition resolveJavascriptRegExp : resolver := fun _ data =>
  match data with
  | VNull => Ret false
  | VUndefined => no_property
  | VString [] => Ret false
  | VString s => Ret (resolve_regexp_text s)
  | _ => Ret true
  end.

(** Source and flags given to the [RegExp] constructor. *)
Definition regexp_parts (s : jsstr) : jsstr * jsstr :=
  match s with
  | 47 :: _ => let modifiers := modifiers_of s in
               (slice s 1 (strlen s - strlen modifiers - 1), modifiers)
  | _ => (s, [])
  end.

Definition constructJavascriptRegExp (hs : Host) : constructor := fun h data =>
  s ← value_toString hs h data;
  let '(source, flags) := match data with VString s => regexp_parts s | _ => (s, []) end in
  if regexp_valid hs source flags then
    let '(l, h') := alloc h (ORegExp source flags) in Ret (VRef l, h')
  else Throw (SyntaxError (js "Invalid regular expression")).

Definition has_flag (flags : jsstr) (c : Z) : jsstr :=
  if existsb (Z.eqb c) flags then [c] else [].

Definition representJavascriptRegExp : representer := fun h v _ =>
  match v with
  | VRef l => match h !! l with
              | Some (ORegExp source flags) =>
                  Ret (js "/" ++ source ++ js "/" ++ has_flag flags 103
                       ++ has_flag flags 109 ++ has_flag flags 105)
              | _ => not_a_function end
  | _ => not_a_function
  end.

Definition isRegExp : predicate_t := fun h v =>
  match v with
  | VRef l => match h !! l with Some (ORegExp _ _) => true | _ => false end
  | _ => false
  end.

(** ** js/function *)

Definition function_source (data : jsstr) : jsstr := js "(" ++ data ++ js ")".

(** The single function expression of a parsed program. *)
Definition function_expression (p : program) : option expression :=
  if jseqb (pr_type p) (js "Program") then
    match pr_body p with
    | [(t, e)] =>
        if jseqb t (js "ExpressionStatement")
           && (jseqb (ex_type e) (js "ArrowFunctionExpression")
               || jseqb (ex_type e) (js "FunctionExpression"))
        then Some e else None
    | _ => None
    end
  else None.

(** A missing [esprima] and a parse error are both caught. *)
Definition resolveJavascriptFunction (hs : Host) : resolver := fun h data =>
  match data with
  | VNull => Ret false
  | _ =>
      match value_toString hs h data, esprima hs with
      | Ret s, Some parse =>
          Ret (match parse (function_source s) with
               | Some p => match function_expression p with Some _ => true | None => false end
               | None => false end)
      | OutOfFuel, _ => OutOfFuel
      | _, _ => Ret false
      end
  end.

Definition constructJavascriptFunction (hs : Host) : constructor := fun h data =>
  s ← value_toString hs h data;
  let source := function_source s in
  match esprima hs with
  | None => no_property
  | Some parse =>
      match parse source with
      | None => Throw (PlainError (js "esprima"))
      | Some p =>
          match function_expression p with
          | None => Throw (PlainError (js "Failed to resolve function"))
          | Some e =>
              let '(a, b) := ex_body_range e in
              let body := if jseqb (ex_body_type e) (js "BlockStatement")
                          then slice source (a + 1) (b - 1)
                          else js "return " ++ slice source a b in
              let '(l, h') := alloc h (OFunction (ex_params e) body) in
              Ret (VRef l, h')
          end
      end
  end.

Definition representJavascriptFunction (hs : Host) : representer := fun h v _ =>
  value_toString hs h v.

Definition isFunction : predicate_t := callable.

(** ** The type values *)

Definition yaml_tag (s : string) : jsstr := js "tag:yaml.org,2002:" ++ js s.

Definition plain_type (t : jsstr) (k : node_kind) (r : resolver) (c : constructor) : yaml_type :=
  mkType t k r c None None NoRepresent None [].

Definition str_type : yaml_type :=
  plain_type (yaml_tag "str") KScalar default_resolve constructYamlStr.
Definition seq_type : yaml_type :=
  plain_type (yaml_tag "seq") KSequence default_resolve constructYamlSeq.
Definition map_type : yaml_type :=
  plain_type (yaml_tag "map") KMapping default_resolve constructYamlMap.

Definition constant_text (s : string) : representer := fun _ _ _ => Ret (js s).

Definition null_type : yaml_type :=
  mkType (yaml_tag "null") KScalar resolveYamlNull constructYamlNull None (Some isNull)
    (RepStyles [(js "canonical", constant_text "~"); (js "lowercase", constant_text "null");
                (js "uppercase", constant_text "NULL"); (js "camelcase", constant_text "Null")])
    (Some (js "lowercase")) [].

Definition bool_text (t f : string) : representer := fun _ v _ =>
  Ret (js (match v with
           | VBool true | VRef _ => t
           | VString (_ :: _) => t
           | VNumber n => if num_eqb n (num_of_Z 0) || is_nan n then f else t
           | _ => f end)).

Definition bool_type : yaml_type :=
  mkType (yaml_tag "bool") KScalar resolveYamlBoolean constructYamlBoolean None (Some isBoolean)
    (RepStyles [(js "lowercase", bool_text "true" "false");
                (js "uppercase", bool_text "TRUE" "FALSE");
                (js "camelcase", bool_text "True" "False")])
    (Some (js "lowercase")) [].

Definition int_type : yaml_type :=
  mkType (yaml_tag "int") KScalar resolveYamlInteger constructYamlInteger None (Some isInteger)
    (RepStyles [(js "binary", on_number represent_binary);
                (js "octal", on_number represent_octal);
                (js "decimal", on_number represent_decimal);
                (js "hexadecimal", on_number represent_hexadecimal)])
    (Some (js "decimal"))
    (compileStyleAliases [(js "binary", [js "2"; js "bin"]); (js "octal", [js "8"; js "oct"]);
                          (js "decimal", [js "10"; js "dec"]);
                          (js "hexadecimal", [js "16"; js "hex"])]).

Definition merge_type : yaml_type :=
  plain_type (yaml_tag "merge") KScalar resolveYamlMerge default_construct.
Definition omap_type : yaml_type :=
  plain_type (yaml_tag "omap") KSequence resolveYamlOmap constructYamlOmap.
Definition pairs_type : yaml_type :=
  plain_type (yaml_tag "pairs") KSequence resolveYamlPairs constructYamlPairs.
Definition set_type : yaml_type :=
  plain_type (yaml_tag "set") KMapping resolveYamlSet constructYamlSet.

Definition undefined_type : yaml_type :=
  mkType (yaml_tag "js/undefined") KScalar resolveJavascriptUndefined
    constructJavascriptUndefined None (Some isUndefined)
    (RepFunction representJavascriptUndefined) None [].

Section embedded_types.
Variable hs : Host.

Definition float_type : yaml_type :=
  mkType (yaml_tag "float") KScalar (resolveYamlFloat hs) constructYamlFloat None
    (Some isFloat) (RepFunction representYamlFloat) (Some (js "lowercase")) [].
Definition timestamp_type : yaml_type :=
  mkType (yaml_tag "timestamp") KScalar (resolveYamlTimestamp hs) (constructYamlTimestamp hs)
    (Some isDate) None (RepFunction representYamlTimestamp) None [].
Definition binary_type : yaml_type :=
  mkType (yaml_tag "binary") KScalar resolveYamlBinary (constructYamlBinary hs) None
    (Some (isBinary hs)) (RepFunction representYamlBinary) None [].
Definition regexp_type : yaml_type :=
  mkType (yaml_tag "js/regexp") KScalar resolveJavascriptRegExp
    (constructJavascriptRegExp hs) None (Some isRegExp)
    (RepFunction representJavascriptRegExp) None [].
Definition function_type : yaml_type :=
  mkType (yaml_tag "js/function") KScalar (resolveJavascriptFunction hs)
    (constructJavascriptFunction hs) None (Some isFunction)
    (RepFunction (representJavascriptFunction hs)) None [].
End embedded_types.
