(* ===== verification/YamlBinary.v ===== *)
(** * js-yaml: binary data survives a dump and a load

    [representYamlBinary] writes base64 through a 32-bit accumulator that is
    never cleared, and [constructYamlBinary] reads it back through another one.
    Both are compared with a plain definition of the encoding by groups of
    three bytes, from which the round trip follows. *)

From S2P Require Import JsPrelude JsInt32 JsNumber JsValue JsRegExp YamlCommon YamlTypes.

(** ** The encoding by groups *)

(** Sextets of a list of bytes, without padding. *)
Fixpoint sextets_of (bs : list Z) : list Z :=
  match bs with
  | a :: b :: c :: r =>
      a / 4 :: (a mod 4) * 16 + b / 16 :: (b mod 16) * 4 + c / 64 :: c mod 64 :: sextets_of r
  | [a; b] => [a / 4; (a mod 4) * 16 + b / 16; (b mod 16) * 4]
  | [a] => [a / 4; (a mod 4) * 16]
  | [] => []
  end.

Fixpoint padding_of (bs : list Z) : jsstr :=
  match bs with
  | _ :: _ :: _ :: r => padding_of r
  | [_; _] => [61]
  | [_] => [61; 61]
  | [] => []
  end.

(** Bytes of a list of sextets. *)
Fixpoint bytes_of (vs : list Z) : list Z :=
  match vs with
  | a :: b :: c :: d :: r =>
      a * 4 + b / 16 :: (b mod 16) * 16 + c / 4 :: (c mod 4) * 64 + d :: bytes_of r
  | [a; b; c] => [a * 4 + b / 16; (b mod 16) * 16 + c / 4]
  | [a; b] => [a * 4 + b / 16]
  | _ => []
  end.

Definition base64_char (v : Z) : Z := charCodeAt BASE64_MAP v.

(** Induction by groups of three and of four. *)
Lemma list_ind3 {A} (P : list A -> Prop) :
  P [] -> (forall a, P [a]) -> (forall a b, P [a; b]) ->
  (forall a b c r, P r -> P (a :: b :: c :: r)) -> forall l, P l.
Proof.
  intros H0 H1 H2 H3. fix IH 1.
  intros [|a [|b [|c r]]]; [exact H0|apply H1|apply H2|apply H3, IH].
Qed.

Lemma list_ind4 {A} (P : list A -> Prop) :
  P [] -> (forall a, P [a]) -> (forall a b, P [a; b]) -> (forall a b c, P [a; b; c]) ->
  (forall a b c d r, P r -> P (a :: b :: c :: d :: r)) -> forall l, P l.
Proof.
  intros H0 H1 H2 H3 H4. fix IH 1.
  intros [|a [|b [|c [|d r]]]]; [exact H0|apply H1|apply H2|apply H3|apply H4, IH].
Qed.

(** Equal lists of encoded sextets, element by element. *)
Ltac each_char :=
  repeat (apply (f_equal2 (@cons Z)); [first [reflexivity | f_equal; div_mod]|]); try done.

Lemma bytes_of_sextets bs : Forall is_byte bs -> bytes_of (sextets_of bs) = bs.
Proof.
  induction bs as [|a|a b|a b c r IH] using list_ind3; intros H; [done|..];
    rewrite !Forall_cons in H; unfold is_byte in H; simpl.
  - f_equal. div_mod.
  - f_equal; [div_mod|]. f_equal. div_mod.
  - rewrite IH by naive_solver. do 2 (f_equal; [div_mod|]). f_equal. div_mod.
Qed.

Lemma sextets_range bs : Forall is_byte bs -> Forall (fun v => 0 <= v < 64) (sextets_of bs).
Proof.
  induction bs as [|a|a b|a b c r IH] using list_ind3; intros H; [constructor|..];
    rewrite !Forall_cons in H; unfold is_byte in H; simpl.
  - do 2 (constructor; [div_mod|]). constructor.
  - do 3 (constructor; [div_mod|]). constructor.
  - do 4 (constructor; [div_mod|]). apply IH. naive_solver.
Qed.

(** ** Fields of the accumulators *)

(** The three field widths the two functions use. *)
Lemma byte_at_spec z k : 0 <= k <= 24 -> byte_at z k = (z / 2 ^ k) mod 256.
Proof. intros. apply (and32_sar z k 8); lia. Qed.

Lemma sextet_spec z k : 0 <= k <= 26 -> sextet z k = base64_char ((z / 2 ^ k) mod 64).
Proof. intros. unfold sextet, base64_char. f_equal. apply (and32_sar z k 6); lia. Qed.

Lemma sextet_shl_spec z k : 0 <= k <= 4 -> sextet_shl z k = base64_char ((z * 2 ^ k) mod 64).
Proof.
  intros. unfold sextet_shl, base64_char, and32. f_equal.
  rewrite (toInt32_small 63) by done. change 63 with (Z.ones 6). rewrite Z.land_ones by lia.
  change 64 with (2 ^ 6). rewrite <- (shl32_mod z k 6) by lia.
  rewrite <- (Z.mod_mod_divide _ (2 ^ 32) (2 ^ 6)), toInt32_mod, Z.mod_mod_divide; [done|..];
    by exists (2 ^ 26).
Qed.

(** ** The encoder *)

Definition quad (z : Z) : jsstr := [sextet z 18; sextet z 12; sextet z 6; sextet z 0].

(** What the next group writes out first. *)
Definition pending_quad (idx z : Z) : jsstr := if idx =? 0 then [] else quad z.

Definition finish_encode (tail : Z) (p : Z * jsstr) : jsstr :=
  let '(bits, result) := p in
  if tail =? 0 then result ++ quad bits
  else if tail =? 2 then result ++ [sextet bits 10; sextet bits 4; sextet_shl bits 2; 61]
  else result ++ [sextet bits 2; sextet_shl bits 4; 61; 61].

Lemma encode_base64_finish bs :
  encode_base64 bs = finish_encode (strlen bs mod 3) (encode_loop 0 0 bs []).
Proof. unfold encode_base64, finish_encode. by destruct (encode_loop 0 0 bs []). Qed.

Definition encoded (bs : list Z) : jsstr := (base64_char <$> sextets_of bs) ++ padding_of bs.

Lemma quad_spec z a b c :
  is_byte a -> is_byte b -> is_byte c -> z mod 2 ^ 24 = a * 65536 + b * 256 + c ->
  quad z = base64_char <$> [a / 4; (a mod 4) * 16 + b / 16; (b mod 16) * 4 + c / 64; c mod 64].
Proof.
  unfold is_byte, quad. intros. rewrite !sextet_spec by lia. simpl.
  each_char.
Qed.

(** The accumulator after one more byte. *)
Lemma shl8_add z b m : 0 <= m <= 32 -> (shl32 z 8 + b) mod 2 ^ m = (z * 256 + b) mod 2 ^ m.
Proof.
  intros. rewrite Zplus_mod, (shl32_mod z 8 m) by lia. by rewrite <- Zplus_mod.
Qed.

Lemma encode_loop_first idx z b bs res : idx mod 3 = 0 ->
  encode_loop idx z (b :: bs) res
  = encode_loop (idx + 1) (shl32 z 8 + b) bs (res ++ pending_quad idx z).
Proof.
  intros Hm. simpl. rewrite Hm. unfold pending_quad. simpl.
  by destruct (idx =? 0); simpl; rewrite ?app_nil_r.
Qed.

Lemma encode_loop_next idx z b bs res : idx mod 3 <> 0 ->
  encode_loop idx z (b :: bs) res = encode_loop (idx + 1) (shl32 z 8 + b) bs res.
Proof. intros Hm%Z.eqb_neq. simpl. by rewrite Hm. Qed.

Lemma encode_loop_groups bs idx z res :
  Forall is_byte bs -> 0 <= idx -> idx mod 3 = 0 -> (idx <> 0 \/ bs <> []) ->
  finish_encode ((idx + strlen bs) mod 3) (encode_loop idx z bs res)
  = res ++ pending_quad idx z ++ encoded bs.
Proof.
  revert idx z res.
  induction bs as [|a|a b|a b c r IH] using list_ind3; intros idx z res H Hi Hm Hne;
    rewrite ?Forall_cons in H; rewrite ?encode_loop_first by done;
    rewrite ?encode_loop_next by div_mod; autorewrite with js.
  - simpl. unfold pending_quad. rewrite Z.add_0_r, Hm. simpl.
    destruct (Z.eqb_spec idx 0); [naive_solver|]. by rewrite app_nil_r.
  - replace ((idx + (1 + 0)) mod 3) with 1 by div_mod. simpl. rewrite <- app_assoc. do 2 f_equal.
    rewrite sextet_spec, sextet_shl_spec by lia.
    pose proof (shl8_add z a 8 ltac:(lia)). unfold is_byte in H. unfold encoded. simpl.
    each_char.
  - replace ((idx + (1 + (1 + 0))) mod 3) with 2 by div_mod. simpl. rewrite <- app_assoc. do 2 f_equal.
    rewrite !sextet_spec, sextet_shl_spec by lia.
    pose proof (shl8_add (shl32 z 8 + a) b 16 ltac:(lia)).
    pose proof (shl8_add z a 8 ltac:(lia)). unfold is_byte in H. unfold encoded. simpl.
    each_char.
  - replace (idx + (1 + (1 + (1 + strlen r)))) with (idx + 1 + 1 + 1 + strlen r) by lia.
    rewrite IH; [|naive_solver|lia|div_mod|lia]. unfold pending_quad at 2.
    destruct (Z.eqb_spec (idx + 1 + 1 + 1) 0); [lia|].
    rewrite (quad_spec _ a b c); [|naive_solver..|].
    + unfold encoded. by rewrite <- !app_assoc.
    + rewrite (shl8_add _ _ 24) by lia.
      pose proof (shl8_add (shl32 z 8 + a) b 16 ltac:(lia)).
      pose proof (shl8_add z a 8 ltac:(lia)). unfold is_byte in H. div_mod.
Qed.

Lemma encode_base64_spec bs : Forall is_byte bs -> bs <> [] -> encode_base64 bs = encoded bs.
Proof.
  intros H Hne. rewrite encode_base64_finish.
  apply (encode_loop_groups bs 0 0 []); [done|lia|done|by right].
Qed.

(** ** The decoder *)

Lemma base64_table v : 0 <= v < 64 ->
  indexOf BASE64_MAP (base64_char v) = v
  /\ existsb (Z.eqb (base64_char v)) [13; 10; 61] = false.
Proof.
  intros Hv.
  assert (Hall : forallb (fun v => (indexOf BASE64_MAP (base64_char v) =? v)
            && negb (existsb (Z.eqb (base64_char v)) [13; 10; 61])) (seqZ 0 64) = true)
    by (vm_compute; reflexivity).
  rewrite forallb_forall in Hall. specialize (Hall v).
  rewrite <- list_elem_of_In, elem_of_seqZ in Hall. specialize (Hall ltac:(lia)).
  bool_to_prop. done.
Qed.

Lemma lor_low a v : a mod 64 = 0 -> 0 <= v < 64 -> Z.lor a v = a + v.
Proof.
  intros Ha Hv. symmetry. apply Z.add_nocarry_lor. apply Z.bits_inj'. intros n Hn.
  rewrite Z.land_spec, Z.bits_0. destruct (decide (n < 6)).
  - replace a with (Z.shiftl (a / 64) 6); [by rewrite Z.shiftl_spec_low|].
    rewrite Z.shiftl_mul_pow2 by lia. change (2 ^ 6) with 64. div_mod.
  - rewrite (Z.bits_above_log2 v); [by rewrite andb_false_r|lia|].
    destruct (decide (v = 0)) as [->|]; [simpl; lia|]. apply Z.log2_lt_pow2; [lia|].
    assert (2 ^ 6 <= 2 ^ n) by (apply Z.pow_le_mono_r; lia). lia.
Qed.

(** The accumulator after one more sextet. *)
Lemma or32_shl6 z v m : 0 <= v < 64 -> 6 <= m <= 31 ->
  or32 (shl32 z 6) v mod 2 ^ m = (z * 64 + v) mod 2 ^ m.
Proof.
  intros Hv Hm. unfold or32.
  assert (Hid : toInt32 (shl32 z 6) = shl32 z 6).
  { unfold shl32. set (x := Z.shiftl _ _). unfold toInt32. div_mod. }
  rewrite Hid, (toInt32_small v) by lia.
  assert (H6 : shl32 z 6 mod 64 = 0).
  { change 64 with (2 ^ 6). rewrite (shl32_mod z 6 6) by lia. apply Z.mod_mul. lia. }
  rewrite lor_low by done. rewrite Zplus_mod, (shl32_mod z 6 m) by lia. by rewrite <- Zplus_mod.
Qed.

Definition triple (z : Z) : list Z := [byte_at z 16; byte_at z 8; byte_at z 0].
Definition pending_triple (idx z : Z) : list Z := if idx =? 0 then [] else triple z.

Definition finish_decode (tail : Z) (p : Z * list Z) : list Z :=
  let '(bits, result) := p in
  if tail * 6 =? 0 then result ++ triple bits
  else if tail * 6 =? 18 then result ++ [byte_at bits 10; byte_at bits 2]
  else if tail * 6 =? 12 then result ++ [byte_at bits 4]
  else result.

Lemma decode_loop_first idx z v vs res : idx mod 4 = 0 -> 0 <= v < 64 ->
  decode_loop idx z (base64_char v :: vs) res
  = decode_loop (idx + 1) (or32 (shl32 z 6) v) vs (res ++ pending_triple idx z).
Proof.
  intros Hm Hv. simpl. rewrite Hm. destruct (base64_table v Hv) as [-> _].
  unfold pending_triple. simpl. by destruct (idx =? 0); simpl; rewrite ?app_nil_r.
Qed.

Lemma decode_loop_next idx z v vs res : idx mod 4 <> 0 -> 0 <= v < 64 ->
  decode_loop idx z (base64_char v :: vs) res
  = decode_loop (idx + 1) (or32 (shl32 z 6) v) vs res.
Proof.
  intros Hm%Z.eqb_neq Hv. simpl. rewrite Hm. by destruct (base64_table v Hv) as [-> _].
Qed.

Lemma decode_loop_groups vs idx z res :
  Forall (fun v => 0 <= v < 64) vs -> 0 <= idx -> idx mod 4 = 0 -> (idx <> 0 \/ vs <> []) ->
  finish_decode ((idx + strlen vs) mod 4) (decode_loop idx z (base64_char <$> vs) res)
  = res ++ pending_triple idx z ++ bytes_of vs.
Proof.
  revert idx z res.
  induction vs as [|a|a b|a b c|a b c d r IH] using list_ind4; intros idx z res H Hi Hm Hne;
    rewrite ?Forall_cons in H; cbn [fmap list_fmap];
    rewrite ?decode_loop_first by naive_solver;
    rewrite ?decode_loop_next by (solve [div_mod | naive_solver]); autorewrite with js;
    pose proof (fun z v m => or32_shl6 z v m) as Hor.
  - simpl. unfold pending_triple. rewrite Z.add_0_r, Hm. simpl.
    destruct (Z.eqb_spec idx 0); [naive_solver|]. by rewrite app_nil_r.
  - replace ((idx + (1 + 0)) mod 4) with 1 by div_mod. simpl. by rewrite app_nil_r.
  - replace ((idx + (1 + (1 + 0))) mod 4) with 2 by div_mod. simpl. rewrite <- app_assoc.
    do 2 f_equal. rewrite byte_at_spec by lia.
    pose proof (Hor (or32 (shl32 z 6) a) b 12 ltac:(naive_solver) ltac:(lia)).
    pose proof (Hor z a 6 ltac:(naive_solver) ltac:(lia)). f_equal. div_mod.
  - replace ((idx + (1 + (1 + (1 + 0)))) mod 4) with 3 by div_mod. simpl. rewrite <- app_assoc.
    do 2 f_equal. rewrite !byte_at_spec by lia.
    pose proof (Hor (or32 (shl32 (or32 (shl32 z 6) a) 6) b) c 18 ltac:(naive_solver) ltac:(lia)).
    pose proof (Hor (or32 (shl32 z 6) a) b 12 ltac:(naive_solver) ltac:(lia)).
    pose proof (Hor z a 6 ltac:(naive_solver) ltac:(lia)). f_equal; [div_mod|]. f_equal. div_mod.
  - replace (idx + (1 + (1 + (1 + (1 + strlen r))))) with (idx + 1 + 1 + 1 + 1 + strlen r) by lia.
    rewrite IH; [|naive_solver|lia|div_mod|lia]. unfold pending_triple at 2.
    destruct (Z.eqb_spec (idx + 1 + 1 + 1 + 1) 0); [lia|].
    rewrite <- app_assoc. do 2 f_equal. unfold triple. rewrite !byte_at_spec by lia.
    pose proof (Hor (or32 (shl32 (or32 (shl32 (or32 (shl32 z 6) a) 6) b) 6) c) d 24
                  ltac:(naive_solver) ltac:(lia)).
    pose proof (Hor (or32 (shl32 (or32 (shl32 z 6) a) 6) b) c 18 ltac:(naive_solver) ltac:(lia)).
    pose proof (Hor (or32 (shl32 z 6) a) b 12 ltac:(naive_solver) ltac:(lia)).
    pose proof (Hor z a 6 ltac:(naive_solver) ltac:(lia)). simpl.
    do 3 (apply (f_equal2 (@cons Z)); [div_mod|]). done.
Qed.

Lemma decode_base64_chars vs pad :
  Forall (fun v => 0 <= v < 64) vs -> vs <> [] -> Forall (eq 61) pad ->
  decode_base64 ((base64_char <$> vs) ++ pad) = bytes_of vs.
Proof.
  intros Hvs Hne Hpad.
  assert (Hrm : remove_chars [13; 10; 61] ((base64_char <$> vs) ++ pad) = base64_char <$> vs).
  { unfold remove_chars. rewrite List.filter_app.
    replace (List.filter _ pad) with (@nil Z).
    - rewrite app_nil_r. clear Hne. induction Hvs as [|v vs Hv _ IH]; [done|].
      destruct (base64_table v Hv) as [_ Hc]. cbn [fmap list_fmap List.filter].
      rewrite Hc. cbn [negb]. f_equal. exact IH.
    - induction Hpad as [|x pad <- _ IH]; [done|]. simpl. done. }
  unfold decode_base64. rewrite Hrm.
  pose proof (decode_loop_groups vs 0 0 [] Hvs ltac:(lia) eq_refl (or_intror Hne)) as Hd.
  unfold finish_decode, triple in Hd. unfold strlen in *. rewrite length_fmap.
  destruct (decode_loop _ _ _ _) as [bits res]. exact Hd.
Qed.

Lemma padding_chars bs : Forall (eq 61) (padding_of bs).
Proof. induction bs as [| | |] using list_ind3; simpl; repeat constructor; done. Qed.

Lemma base64_roundtrip bs :
  Forall is_byte bs -> bs <> [] -> decode_base64 (encode_base64 bs) = bs.
Proof.
  intros H Hne. rewrite encode_base64_spec by done. unfold encoded.
  rewrite decode_base64_chars; [by apply bytes_of_sextets|by apply sextets_range| |
                                apply padding_chars].
  destruct bs as [|a [|b [|c r]]]; done.
Qed.

(** ** What the resolver accepts *)

Lemma binary_bitlen_app n s t :
  binary_bitlen n (s ++ t) = binary_bitlen n s ≫= fun m => binary_bitlen m t.
Proof.
  revert n. induction s as [|c s IH]; intros n; simpl; [done|].
  by repeat case_match; rewrite ?IH.
Qed.

Lemma binary_bitlen_chars n vs :
  Forall (fun v => 0 <= v < 64) vs ->
  binary_bitlen n (base64_char <$> vs) = Some (n + 6 * strlen vs).
Proof.
  intros H. revert n. induction H as [|v vs Hv _ IH]; intros n; simpl.
  - f_equal. unfold strlen. simpl. lia.
  - destruct (base64_table v Hv) as [-> _].
    destruct (Z.ltb_spec 64 v); [lia|]. destruct (Z.ltb_spec v 0); [lia|].
    rewrite IH, strlen_cons. f_equal. lia.
Qed.

Lemma encoded_length bs :
  exists k, 0 <= k /\ strlen (sextets_of bs) + strlen (padding_of bs) = 4 * k.
Proof.
  induction bs as [|a|a b|a b c r IH] using list_ind3; simpl;
    [exists 0|exists 1|exists 1|destruct IH as (k & Hk & IH); exists (k + 1)];
    unfold strlen in *; cbn [length] in *; lia.
Qed.

Lemma resolve_binary_encoded bs :
  Forall is_byte bs -> bs <> [] -> resolve_binary_text (encode_base64 bs) = true.
Proof.
  intros H Hne. rewrite encode_base64_spec by done. unfold resolve_binary_text, encoded.
  rewrite binary_bitlen_app, binary_bitlen_chars by by apply sextets_range. simpl.
  assert (Hpad : forall n, binary_bitlen n (padding_of bs) = Some (n + 6 * strlen (padding_of bs))).
  { clear H Hne. intros n. pose proof (padding_chars bs) as Hp. revert n.
    induction Hp as [|x pad <- _ IH]; intros n; [by rewrite Z.add_0_r|].
    change (binary_bitlen n (61 :: pad)) with (binary_bitlen (n + 6) pad).
    rewrite IH, strlen_cons. f_equal. lia. }
  rewrite Hpad. destruct (encoded_length bs) as (k & _ & Hk). apply Z.eqb_eq. div_mod.
Qed.

(** ** Theorems *)

(** Binary data round trips: a non-empty Buffer is represented by a string
    that the [!!binary] resolver accepts and from which the constructor builds
    a Buffer with the same bytes, although both directions go through 32-bit
    accumulators that overflow. *)
Lemma binary_roundtrip hs h l bs style :
  has_Buffer hs = true -> h !! l = Some (OBuffer bs) -> Forall is_byte bs -> bs <> [] ->
  exists text,
    representYamlBinary h (VRef l) style = Ret text
    /\ resolveYamlBinary h (VString text) = Ret true
    /\ constructYamlBinary hs h (VString text) = Ret (VRef (length h), h ++ [OBuffer bs]).
Proof.
  intros Hb Hl Hbs Hne. exists (encode_base64 bs). simpl. rewrite Hl, Hb. split_and!; [done| |].
  - by rewrite resolve_binary_encoded.
  - by rewrite base64_roundtrip.
Qed.

Definition node_host : Host :=
  mkHost (fun _ _ => inr (js "[object]")) (fun _ _ _ => inr true) true (fun _ _ => true) None.


(** The empty Buffer does not round trip: it is represented by four
    characters that the constructor reads as three zero bytes. *)
Lemma binary_empty_becomes_zeros hs h l style :
  has_Buffer hs = true -> h !! l = Some (OBuffer []) ->
  representYamlBinary h (VRef l) style = Ret (js "AAAA")
  /\ constructYamlBinary hs h (VString (js "AAAA"))
     = Ret (VRef (length h), h ++ [OBuffer [0; 0; 0]]).
Proof. intros Hb Hl. simpl. by rewrite Hl, Hb. Qed.

(** C37: binary data round trips: a non-empty Buffer is represented by a string that the
    [!!binary] resolver accepts and from which the constructor builds a Buffer
    with the same bytes, although both directions go through 32-bit accumulators
    that overflow.  The empty Buffer does not: it is represented by four characters
    that the constructor reads as three zero bytes. *)
Theorem binary_data hs h l bs style :
  has_Buffer hs = true -> h !! l = Some (OBuffer bs) -> Forall is_byte bs ->
  (bs <> [] -> exists text,
    representYamlBinary h (VRef l) style = Ret text
    /\ resolveYamlBinary h (VString text) = Ret true
    /\ constructYamlBinary hs h (VString text) = Ret (VRef (length h), h ++ [OBuffer bs]))
  /\ (bs = [] ->
    representYamlBinary h (VRef l) style = Ret (js "AAAA")
    /\ constructYamlBinary hs h (VString (js "AAAA")) = Ret (VRef (length h), h ++ [OBuffer [0; 0; 0]])).
Proof.
  intros Hb Hl Hbs. split; [by intros Hne; apply binary_roundtrip|].
  intros ->. by apply binary_empty_becomes_zeros.
Qed.

Lemma binary_data_witness :
  (exists text,
    representYamlBinary [OBuffer [255; 0; 128; 7]] (VRef 0) [] = Ret text
    /\ resolveYamlBinary [OBuffer [255; 0; 128; 7]] (VString text) = Ret true
    /\ constructYamlBinary node_host [OBuffer [255; 0; 128; 7]] (VString text)
       = Ret (VRef 1, [OBuffer [255; 0; 128; 7]; OBuffer [255; 0; 128; 7]]))
  /\ representYamlBinary [OBuffer []] (VRef 0) [] = Ret (js "AAAA").
Proof.
  split.
  - apply (binary_data node_host [OBuffer [255; 0; 128; 7]] 0 [255; 0; 128; 7] []);
      [reflexivity|reflexivity| |discriminate].
    repeat constructor; lia.
  - apply (binary_data node_host [OBuffer []] 0 [] []); [reflexivity|reflexivity|constructor|reflexivity].
Defined.
