(* ===== verification/YamlSchema.v ===== *)
(** * js-yaml: schemas

    A schema includes other schemas and adds implicit and explicit types;
    compiling it flattens the includes, a later type replacing an earlier one of
    the same tag and kind, and indexes the types by kind and tag. *)

From S2P Require Import JsPrelude JsNumber JsValue JsRegExp YamlCommon YamlTypes.

Inductive schema : Type :=
| mkSchema (include : list schema) (implicit explicit : list yaml_type).

Definition implicit (s : schema) : list yaml_type :=
  match s with mkSchema _ i _ => i end.
Definition explicit (s : schema) : list yaml_type :=
  match s with mkSchema _ _ e => e end.
Definition include (s : schema) : list schema :=
  match s with mkSchema i _ _ => i end.

Definition same_type (a b : yaml_type) : bool :=
  jseqb (tag a) (tag b) && bool_decide (kind a = kind b).

(** Indices of the types of [result] that [current] replaces. *)
Fixpoint replaced_from (i : nat) (result : list yaml_type) (current : yaml_type) : list nat :=
  match result with
  | [] => []
  | prev :: rest =>
      (if same_type prev current then [i] else []) ++ replaced_from (S i) rest current
  end.

(** The inner loop: every type of the schema is compared with all of [result]
    and then pushed. *)
Fixpoint compile_own (types : list yaml_type) (result : list yaml_type) (exclude : list nat)
    : list yaml_type * list nat :=
  match types with
  | [] => (result, exclude)
  | t :: ts => compile_own ts (result ++ [t]) (exclude ++ replaced_from 0 result t)
  end.

(** [result.filter] by index. *)
Fixpoint drop_indices (i : nat) (exclude : list nat) (result : list yaml_type) : list yaml_type :=
  match result with
  | [] => []
  | t :: rest =>
      (if existsb (Nat.eqb i) exclude then [] else [t]) ++ drop_indices (S i) exclude rest
  end.

Fixpoint compileList (own : schema -> list yaml_type) (s : schema) (result : list yaml_type)
    : list yaml_type :=
  let result := fold_left (fun r inc => compileList own inc r) (include s) result in
  let '(result, exclude) := compile_own (own s) result [] in
  drop_indices 0 exclude result.

(** The index [compileMap] builds: one table per kind and the fallback. *)
Record type_map : Type := mkTypeMap {
  tm_scalar : list (jsstr * yaml_type);
  tm_sequence : list (jsstr * yaml_type);
  tm_mapping : list (jsstr * yaml_type);
  tm_fallback : list (jsstr * yaml_type)
}.

Definition collectType (m : type_map) (t : yaml_type) : type_map :=
  let fb := assoc_set (tm_fallback m) (tag t) t in
  match kind t with
  | KScalar => mkTypeMap (assoc_set (tm_scalar m) (tag t) t) (tm_sequence m) (tm_mapping m) fb
  | KSequence => mkTypeMap (tm_scalar m) (assoc_set (tm_sequence m) (tag t) t) (tm_mapping m) fb
  | KMapping => mkTypeMap (tm_scalar m) (tm_sequence m) (assoc_set (tm_mapping m) (tag t) t) fb
  end.

Definition compileMap (lists : list (list yaml_type)) : type_map :=
  fold_left (fun m l => fold_left collectType l m) lists (mkTypeMap [] [] [] []).

(** [typeMap[kind || "fallback"]]. *)
Definition kind_table (m : type_map) (k : option node_kind) : list (jsstr * yaml_type) :=
  match k with
  | Some KScalar => tm_scalar m
  | Some KSequence => tm_sequence m
  | Some KMapping => tm_mapping m
  | None => tm_fallback m
  end.

(** The fields the [Schema] constructor computes. *)
Definition compiledImplicit (s : schema) : list yaml_type := compileList implicit s [].
Definition compiledExplicit (s : schema) : list yaml_type := compileList explicit s [].
Definition compiledTypeMap (s : schema) : type_map :=
  compileMap [compiledImplicit s; compiledExplicit s].

(** ** The predefined schemas *)

Section schemas.
Variable hs : Host.

Definition FAILSAFE_SCHEMA : schema := mkSchema [] [] [str_type; seq_type; map_type].
Definition JSON_SCHEMA : schema :=
  mkSchema [FAILSAFE_SCHEMA] [null_type; bool_type; int_type; float_type hs] [].
Definition CORE_SCHEMA : schema := mkSchema [JSON_SCHEMA] [] [].
Definition DEFAULT_SAFE_SCHEMA : schema :=
  mkSchema [CORE_SCHEMA] [timestamp_type hs; merge_type]
           [binary_type hs; omap_type; pairs_type; set_type].
Definition DEFAULT_FULL_SCHEMA : schema :=
  mkSchema [DEFAULT_SAFE_SCHEMA] [] [undefined_type; regexp_type hs; function_type hs].
End schemas.

(** [Schema.create]: the types alone extend the default schema; any other number
    of arguments is refused.  The arguments are already arrays of schemas and of
    types, which is what the two [every] tests ask for. *)
Inductive create_args : Type :=
| CreateTypes (types : list yaml_type)
| CreateBoth (schemas : list schema) (types : list yaml_type)
| CreateOther.

Definition createSchema (hs : Host) (a : create_args) : outcome jserror schema :=
  match a with
  | CreateTypes types => Ret (mkSchema [DEFAULT_FULL_SCHEMA hs] [] types)
  | CreateBoth schemas types => Ret (mkSchema schemas [] types)
  | CreateOther =>
      Throw (EYaml (mkYAMLException (js "Wrong number of arguments for Schema.create function")
                                    None))
  end.
