(* ===== verification/YamlSchemaTheory.v ===== *)
(** * js-yaml: what compiling a schema computes

    [compileList] keeps, for every tag and kind, the last type in the order of
    inclusion; [compileMap] indexes exactly those types. *)

From S2P Require Import JsPrelude JsNumber JsValue JsRegExp YamlCommon YamlTypes YamlSchema.

(** ** The reference: all types in order of inclusion, the last one of a kind kept *)

Fixpoint all_types (own : schema -> list yaml_type) (s : schema) : list yaml_type :=
  match s with
  | mkSchema inc _ _ => concat (map (all_types own) inc) ++ own s
  end.

Fixpoint last_of_each (ts : list yaml_type) : list yaml_type :=
  match ts with
  | [] => []
  | t :: rest =>
      if existsb (same_type t) rest then last_of_each rest else t :: last_of_each rest
  end.

Lemma schema_nested_ind (Q : schema -> Prop) :
  (forall inc i e, Forall Q inc -> Q (mkSchema inc i e)) -> forall s, Q s.
Proof.
  intros Hstep. fix IH 1. intros [inc i e]. apply Hstep.
  induction inc as [|s inc IHinc]; constructor; [apply IH|apply IHinc].
Qed.

Lemma same_type_spec a b : same_type a b = true <-> tag a = tag b /\ kind a = kind b.
Proof.
  unfold same_type. by rewrite andb_true_iff, jseqb_eq, bool_decide_eq_true.
Qed.

Lemma same_type_refl a : same_type a a = true.
Proof. by apply same_type_spec. Qed.

Lemma same_type_sym a b : same_type a b = same_type b a.
Proof. apply eq_true_iff_eq. rewrite !same_type_spec. intuition congruence. Qed.

(** ** Selecting the last occurrences *)

Lemma existsb_last_of_each t ts : existsb (same_type t) (last_of_each ts) = existsb (same_type t) ts.
Proof.
  induction ts as [|a ts IH]; simpl; [done|]. destruct (existsb (same_type a) ts) eqn:Ha; simpl.
  - rewrite IH. destruct (same_type t a) eqn:Hta; [|done]. simpl.
    apply existsb_exists in Ha as (b & Hb & Hab). apply existsb_exists. exists b. split; [done|].
    apply same_type_spec in Hta as [], Hab as []. apply same_type_spec. split; congruence.
  - by rewrite IH.
Qed.

Lemma last_of_each_app x y :
  last_of_each (x ++ y)
  = List.filter (fun t => negb (existsb (same_type t) y)) (last_of_each x) ++ last_of_each y.
Proof.
  induction x as [|a x IH]; simpl; [done|]. rewrite existsb_app.
  destruct (existsb (same_type a) x) eqn:Hx; simpl; [done|].
  destruct (existsb (same_type a) y) eqn:Hy; simpl; by rewrite IH.
Qed.

Lemma last_of_each_idem x : last_of_each (last_of_each x) = last_of_each x.
Proof.
  induction x as [|a x IH]; simpl; [done|].
  destruct (existsb (same_type a) x) eqn:Ha; [done|]. simpl.
  by rewrite existsb_last_of_each, Ha, IH.
Qed.

Lemma last_of_each_absorb x y : last_of_each (last_of_each x ++ y) = last_of_each (x ++ y).
Proof. by rewrite !last_of_each_app, last_of_each_idem. Qed.

(** ** The loop of [compileList] *)

Lemma existsb_replaced i k l t : (i < k)%nat -> existsb (Nat.eqb i) (replaced_from k l t) = false.
Proof.
  revert k. induction l as [|p l IH]; intros k Hi; simpl; [done|].
  rewrite existsb_app, IH by lia. destruct (same_type p t); simpl; [|done].
  by rewrite (proj2 (Nat.eqb_neq i k)) by lia.
Qed.

Lemma replaced_from_spec j k l t :
  existsb (Nat.eqb (k + j)) (replaced_from k l t)
  = match l !! j with Some p => same_type p t | None => false end.
Proof.
  revert k j. induction l as [|p l IH]; intros k j; simpl; [done|].
  rewrite existsb_app. destruct j as [|j].
  - rewrite existsb_replaced, orb_false_r by lia. rewrite Nat.add_0_r.
    change ((p :: l) !! 0%nat) with (Some p). destruct (same_type p t); simpl; [|done].
    by rewrite Nat.eqb_refl.
  - replace (k + S j)%nat with (S k + j)%nat by lia. rewrite IH.
    destruct (same_type p t); cbn [existsb]; [|done].
    by rewrite (proj2 (Nat.eqb_neq (S k + j) k)) by lia.
Qed.

(** Which indices end up excluded: those of a type that a later pushed type
    replaces. *)
Lemma compile_own_spec ts r ex :
  let F := r ++ ts in
  fst (compile_own ts r ex) = F
  /\ forall i t, F !! i = Some t ->
       existsb (Nat.eqb i) (snd (compile_own ts r ex))
       = existsb (Nat.eqb i) ex || existsb (same_type t) (drop (S i `max` length r) F).
Proof.
  revert r ex. induction ts as [|t ts IH]; intros r ex; simpl.
  - split; [by rewrite app_nil_r|]. intros i t Hi. rewrite app_nil_r in *.
    rewrite drop_ge by (apply lookup_lt_Some in Hi; lia). simpl. by rewrite orb_false_r.
  - destruct (IH (r ++ [t]) (ex ++ replaced_from 0 r t)) as [Hfst Hex].
    rewrite <- app_assoc in *. simpl in *. split; [done|]. intros i u Hi.
    rewrite (Hex i u Hi), existsb_app, <- orb_assoc, (replaced_from_spec i 0). f_equal.
    rewrite length_app. simpl. destruct (decide (i < length r)%nat).
    + rewrite lookup_app_l in Hi by done. rewrite Hi.
      replace (S i `max` (length r + 1))%nat with (length r + 1)%nat by lia.
      replace (S i `max` length r)%nat with (length r) by lia.
      rewrite drop_app_length, drop_app_ge by lia.
      replace (length r + 1 - length r)%nat with 1%nat by lia. done.
    + rewrite (lookup_ge_None_2 r i) by lia. simpl. f_equal. f_equal. lia.
Qed.

Lemma drop_indices_app k ex l1 l2 :
  drop_indices k ex (l1 ++ l2) = drop_indices k ex l1 ++ drop_indices (k + length l1) ex l2.
Proof.
  revert k. induction l1 as [|a l1 IH]; intros k; simpl; [by rewrite Nat.add_0_r|].
  rewrite IH, <- app_assoc. do 3 f_equal. lia.
Qed.

Lemma drop_indices_filter k ex l f :
  (forall i t, l !! i = Some t -> existsb (Nat.eqb (k + i)) ex = f t) ->
  drop_indices k ex l = List.filter (fun t => negb (f t)) l.
Proof.
  revert k. induction l as [|a l IH]; intros k H; simpl; [done|].
  rewrite <- (H 0%nat a eq_refl), Nat.add_0_r, (IH (S k)).
  - by destruct (existsb _ ex).
  - intros i t Hi. rewrite <- (H (S i) t Hi). do 2 f_equal. lia.
Qed.

Lemma drop_indices_last k ex l :
  (forall i t, l !! i = Some t ->
     existsb (Nat.eqb (k + i)) ex = existsb (same_type t) (drop (S i) l)) ->
  drop_indices k ex l = last_of_each l.
Proof.
  revert k. induction l as [|a l IH]; intros k H; simpl; [done|].
  pose proof (H 0%nat a eq_refl) as H0. rewrite Nat.add_0_r in H0. simpl in H0. rewrite drop_0 in H0.
  rewrite H0, (IH (S k)); [by destruct (existsb _ l)|].
  intros i t Hi. replace (S k + i)%nat with (k + S i)%nat by lia. exact (H (S i) t Hi).
Qed.

Lemma compile_own_last ts r :
  last_of_each r = r ->
  (let '(res, ex) := compile_own ts r [] in drop_indices 0 ex res) = last_of_each (r ++ ts).
Proof.
  intros Hr. destruct (compile_own_spec ts r []) as [Hfst Hex].
  destruct (compile_own ts r []) as [res ex]. simpl in *. subst res.
  rewrite drop_indices_app, last_of_each_app, Hr. simpl. f_equal.
  - apply drop_indices_filter. intros i t Hi. simpl.
    pose proof (lookup_lt_Some _ _ _ Hi). rewrite (Hex i t) by (by rewrite lookup_app_l).
    replace (S i `max` length r)%nat with (length r) by lia. by rewrite drop_app_length.
  - apply drop_indices_last. intros j t Hj.
    rewrite (Hex (length r + j)%nat t) by (rewrite lookup_app_r by lia; rewrite <- Hj; f_equal; lia).
    rewrite drop_app_ge by lia. do 2 f_equal. lia.
Qed.

Lemma compileList_last own s r :
  (own = implicit \/ own = explicit) -> last_of_each r = r ->
  compileList own s r = last_of_each (r ++ all_types own s).
Proof.
  intros Hown. revert r. induction s as [inc i e IH] using schema_nested_ind. intros r Hr.
  assert (Hfold : forall r, last_of_each r = r ->
    fold_left (fun r inc => compileList own inc r) inc r
    = last_of_each (r ++ concat (map (all_types own) inc))).
  { clear r Hr. induction IH as [|s inc Hs _ IHinc]; intros r Hr; simpl; [by rewrite app_nil_r|].
    rewrite Hs, IHinc by (done || apply last_of_each_idem).
    by rewrite last_of_each_absorb, <- app_assoc. }
  cbn [compileList include]. rewrite (Hfold r Hr), compile_own_last by apply last_of_each_idem.
  rewrite last_of_each_absorb. simpl. by rewrite <- app_assoc.
Qed.

(** ** The index *)

Definition table_for (k : option node_kind) (t : yaml_type) : bool :=
  match k with Some k => bool_decide (kind t = k) | None => true end.

(** The last type of [ts] with the given tag that belongs to the table. *)
Fixpoint last_with (k : option node_kind) (tg : jsstr) (ts : list yaml_type) : option yaml_type :=
  match ts with
  | [] => None
  | t :: rest =>
      match last_with k tg rest with
      | Some u => Some u
      | None => if table_for k t && jseqb (tag t) tg then Some t else None
      end
  end.

Lemma collectType_lookup m t k tg :
  assoc_get (kind_table (collectType m t) k) tg
  = if table_for k t && jseqb (tag t) tg then Some t else assoc_get (kind_table m k) tg.
Proof.
  unfold collectType, table_for.
  destruct (kind t), k as [[]|]; simpl; rewrite ?assoc_get_set; done.
Qed.

Lemma collect_fold_lookup ts m k tg :
  assoc_get (kind_table (fold_left collectType ts m) k) tg
  = match last_with k tg ts with Some t => Some t | None => assoc_get (kind_table m k) tg end.
Proof.
  revert m. induction ts as [|t ts IH]; intros m; simpl; [done|]. rewrite IH, collectType_lookup.
  by repeat case_match.
Qed.

Lemma compileMap_concat ls m :
  fold_left (fun m l => fold_left collectType l m) ls m = fold_left collectType (concat ls) m.
Proof.
  revert m. induction ls as [|l ls IH]; intros m; simpl; [done|].
  by rewrite IH, fold_left_app.
Qed.

Lemma last_with_match k tg ts t :
  t ∈ ts -> table_for k t && jseqb (tag t) tg = true -> last_with k tg ts <> None.
Proof.
  intros Hin Ht. induction Hin as [t ts|t u ts _ IH]; simpl.
  - rewrite Ht. by destruct (last_with k tg ts).
  - destruct (last_with k tg ts); [done|]. by destruct (IH Ht).
Qed.

Lemma last_with_last_of_each k tg ts : last_with k tg (last_of_each ts) = last_with k tg ts.
Proof.
  induction ts as [|t ts IH]; simpl; [done|].
  destruct (existsb (same_type t) ts) eqn:Ht; simpl; rewrite IH; [|done].
  destruct (last_with k tg ts) eqn:Hl; [done|].
  destruct (table_for k t && jseqb (tag t) tg) eqn:Hm; [exfalso|done].
  apply existsb_exists in Ht as (u & Hu%list_elem_of_In & [Htag Hkind]%same_type_spec).
  apply (last_with_match k tg ts u); [done| |done].
  unfold table_for in *. by rewrite <- Htag, <- Hkind.
Qed.

Lemma last_with_app k tg x y :
  last_with k tg (x ++ y)
  = match last_with k tg y with Some t => Some t | None => last_with k tg x end.
Proof.
  induction x as [|t x IH]; simpl; [by destruct (last_with k tg y)|].
  rewrite IH. by repeat case_match.
Qed.

Lemma last_with_Some k tg ts t :
  last_with k tg ts = Some t -> tag t = tg /\ table_for k t = true.
Proof.
  induction ts as [|u ts IH]; simpl; [done|]. destruct (last_with k tg ts); [done|].
  case_match eqn:Hm; [|done]. intros [= <-]. bool_to_prop. by split; [apply jseqb_eq|].
Qed.

Lemma compiled_types_last own s :
  (own = implicit \/ own = explicit) -> compileList own s [] = last_of_each (all_types own s).
Proof. intros. by apply (compileList_last own s []). Qed.

Lemma compiledTypeMap_last s k tg :
  assoc_get (kind_table (compiledTypeMap s) k) tg
  = last_with k tg (all_types implicit s ++ all_types explicit s).
Proof.
  unfold compiledTypeMap, compileMap. rewrite compileMap_concat, collect_fold_lookup. simpl.
  rewrite app_nil_r, !last_with_app. unfold compiledImplicit, compiledExplicit.
  rewrite !compiled_types_last by auto. rewrite !last_with_last_of_each.
  destruct (last_with k tg (all_types explicit s)); [done|].
  destruct (last_with k tg (all_types implicit s)); [done|]. by destruct k as [[]|].
Qed.

Definition type_id (t : yaml_type) : jsstr * node_kind := (tag t, kind t).

Lemma last_of_each_NoDup ts : NoDup (type_id <$> last_of_each ts).
Proof.
  induction ts as [|t ts IH]; simpl; [constructor|].
  destruct (existsb (same_type t) ts) eqn:Ht; [done|]. constructor; [|done].
  intros (u & Hid & Hu)%list_elem_of_fmap. rewrite <- existsb_last_of_each in Ht.
  apply not_true_iff_false in Ht. apply Ht, existsb_exists. exists u.
  split; [by apply list_elem_of_In|]. apply same_type_spec. by injection Hid.
Qed.

(** ** Theorems *)

(** Compiling a schema, with its marking of array indices to drop, computes
    the flattened list of its types in inclusion order in which exactly the last
    type of every tag and kind is kept; in particular a schema overrides what it
    includes, and no two compiled types share tag and kind. *)
Lemma compile_keeps_last s :
  compiledImplicit s = last_of_each (all_types implicit s)
  /\ compiledExplicit s = last_of_each (all_types explicit s)
  /\ NoDup (type_id <$> compiledImplicit s) /\ NoDup (type_id <$> compiledExplicit s).
Proof.
  unfold compiledImplicit, compiledExplicit. rewrite !compiled_types_last by auto.
  split_and!; auto using last_of_each_NoDup.
Qed.

(** Looking a tag up in the compiled type map, under a node kind or in the
    fallback table, finds the last type of that tag (and kind) among the
    implicit and then the explicit types; what is found under a kind has that
    kind, so that the loader's check for an unacceptable kind can only fail for
    nodes without a kind. *)
Lemma type_map_lookup s k tg :
  assoc_get (kind_table (compiledTypeMap s) k) tg
    = last_with k tg (all_types implicit s ++ all_types explicit s)
  /\ match assoc_get (kind_table (compiledTypeMap s) k) tg with
     | Some t => tag t = tg /\ table_for k t = true
     | None => True
     end.
Proof.
  rewrite compiledTypeMap_last. split; [done|].
  destruct (last_with _ _ _) eqn:Hl; [|done]. by apply last_with_Some in Hl.
Qed.

(** Compiling a schema, with its marking of array indices to drop, computes the
    flattened list of its types in inclusion order in which exactly the last
    type of every tag and kind is kept, so that a schema overrides what it includes.
    Looking a tag up in the compiled map, under a node kind or in the fallback
    table, finds the last type of that tag and kind among the implicit and then
    the explicit types, and what is found under a kind has that kind. *)
Lemma compiled_types s :
  compiledImplicit s = last_of_each (all_types implicit s)
  /\ compiledExplicit s = last_of_each (all_types explicit s)
  /\ NoDup (type_id <$> compiledImplicit s) /\ NoDup (type_id <$> compiledExplicit s)
  /\ forall k tg, assoc_get (kind_table (compiledTypeMap s) k) tg
       = last_with k tg (all_types implicit s ++ all_types explicit s)
     /\ match assoc_get (kind_table (compiledTypeMap s) k) tg with
        | Some t => tag t = tg /\ table_for k t = true
        | None => True
        end.
Proof.
  destruct (compile_keeps_last s) as (H1 & H2 & H3 & H4). split_and!; [done..|].
  intros k tg. apply type_map_lookup.
Qed.
