(* ===== verification/YamlLoader.v ===== *)
(** * js-yaml: the loader

    The scanner and composer of swagger-ui.js: one definition per function of
    the loader, over the mutable [State] of the source.  Fields of the source's
    [State] that are never assigned after construction are in [Env].

    Loops carry fuel.  A loop that scans characters takes [fuel0], one step for
    each position of the input; [composeNode] and [loadDocuments] take theirs as
    an argument, which [load] computes from the length of the input.  File
    YamlLoaderTotal shows that none of it is ever exhausted. *)

From S2P Require Import JsPrelude JsNumber JsValue JsRegExp YamlCommon YamlTypes YamlSchema.

Inductive context : Type := CONTEXT_FLOW_IN | CONTEXT_FLOW_OUT | CONTEXT_BLOCK_IN | CONTEXT_BLOCK_OUT.
Inductive chomping : Type := CHOMPING_CLIP | CHOMPING_STRIP | CHOMPING_KEEP.
#[global] Instance context_eq_dec : EqDecision context.
Proof. solve_decision. Defined.
#[global] Instance chomping_eq_dec : EqDecision chomping.
Proof. solve_decision. Defined.

(** ** Character classes *)

Definition is_EOL (c : Z) : bool := (c =? 10) || (c =? 13).
Definition is_WHITE_SPACE (c : Z) : bool := (c =? 9) || (c =? 32).
Definition is_WS_OR_EOL (c : Z) : bool := (c =? 9) || (c =? 32) || (c =? 10) || (c =? 13).
Definition is_FLOW_INDICATOR (c : Z) : bool :=
  (c =? 44) || (c =? 91) || (c =? 93) || (c =? 123) || (c =? 125).

Definition fromHexCode (c : Z) : Z :=
  if (48 <=? c) && (c <=? 57) then c - 48
  else let lc := or32 c 32 in
       if (97 <=? lc) && (lc <=? 102) then lc - 97 + 10 else -1.

Definition escapedHexLen (c : Z) : Z :=
  if c =? 120 then 2 else if c =? 117 then 4 else if c =? 85 then 8 else 0.

Definition fromDecimalCode (c : Z) : Z :=
  if (48 <=? c) && (c <=? 57) then c - 48 else -1.

(** The unit an escape letter stands for; [None] is the source's empty string. *)
Definition simpleEscapeSequence (c : Z) : option Z :=
  if c =? 48 then Some 0 else if c =? 97 then Some 7 else if c =? 98 then Some 8
  else if c =? 116 then Some 9 else if c =? 9 then Some 9 else if c =? 110 then Some 10
  else if c =? 118 then Some 11 else if c =? 102 then Some 12 else if c =? 114 then Some 13
  else if c =? 101 then Some 27 else if c =? 32 then Some 32 else if c =? 34 then Some 34
  else if c =? 47 then Some 47 else if c =? 92 then Some 92 else if c =? 78 then Some 133
  else if c =? 95 then Some 160 else if c =? 76 then Some 8232 else if c =? 80 then Some 8233
  else None.

Definition charFromCodepoint (c : Z) : jsstr :=
  if c <=? 65535 then fromCharCode c
  else fromCharCode (sar32 (c - 65536) 10 + 55296) ++ fromCharCode (and32 (c - 65536) 1023 + 56320).

(** ** Patterns *)

(** [PATTERN_NON_PRINTABLE]: a control unit, a high surrogate that no low one
    follows, or a low one that no high one precedes. *)
Definition control_unit (c : Z) : bool :=
  in_range 0 8 c || (c =? 11) || (c =? 12) || in_range 14 31 c || in_range 127 132 c
  || in_range 134 159 c || (c =? 65534) || (c =? 65535).
Definition is_high (c : Z) : bool := in_range 55296 56319 c.
Definition is_low (c : Z) : bool := in_range 56320 57343 c.

Fixpoint non_printable_from (prev_high : bool) (s : jsstr) : bool :=
  match s with
  | [] => false
  | c :: s' =>
      control_unit c
      || is_high c && negb (match s' with c' :: _ => is_low c' | [] => false end)
      || is_low c && negb prev_high
      || non_printable_from (is_high c) s'
  end.
Definition PATTERN_NON_PRINTABLE_test (s : jsstr) : bool := non_printable_from false s.

Definition PATTERN_NON_ASCII_LINE_BREAKS_test (s : jsstr) : bool :=
  existsb (one_of [133; 8232; 8233]) s.
Definition PATTERN_FLOW_INDICATORS_test (s : jsstr) : bool :=
  existsb (one_of [44; 91; 93; 123; 125]) s.

Definition is_letter (c : Z) : bool := in_range 65 90 c || in_range 97 122 c.

Definition PATTERN_TAG_HANDLE : regex :=
  RAlts [RChr 33; RLit [33; 33];
         RSeqs [RChr 33; RPlus (RClass (fun c => is_letter c || (c =? 45))); RChr 33]].

Definition uri_unit (c : Z) : bool :=
  in_range 48 57 c || is_letter c
  || one_of [45; 35; 59; 47; 63; 58; 64; 38; 61; 43; 36; 44; 95; 46; 33; 126; 42; 39; 40; 41;
             91; 93] c.
Definition PATTERN_TAG_URI : regex :=
  RSeq (RAlt (RChr 33) (RClass (fun c => negb (one_of [44; 91; 93; 123; 125] c))))
       (RStar (RAlt (RSeqs [RChr 37; RClass isHexCode; RClass isHexCode]) (RClass uri_unit))).

(** ** State *)

Record Env : Type := mkEnv {
  input : jsstr;
  slength : Z;
  filename : option jsstr;
  onWarning : bool;
  legacy : bool;
  json : bool;
  listener : bool;
  implicitTypes : list yaml_type;
  typeMap : type_map;
  embedding : Host
}.

(** What the listener is told, with the position at the call. *)
Inductive event : Type := EvOpen (pos : Z) | EvClose (pos : Z).

Record State : Type := mkState {
  position : Z;
  line : Z;
  lineStart : Z;
  lineIndent : Z;
  documents : list value;
  version : option jsstr;
  checkLineBreaks : bool;
  tagMap : list (jsstr * jsstr);
  anchorMap : object;
  skind : option node_kind;
  stag : option jsstr;
  anchor : option jsstr;
  result : value;
  sheap : heap;
  warnings : list YAMLException;
  events : list event
}.

Definition set_position (x : Z) (s : State) : State :=
  mkState x (line s) (lineStart s) (lineIndent s) (documents s) (version s)
    (checkLineBreaks s) (tagMap s) (anchorMap s) (skind s) (stag s) (anchor s)
    (result s) (sheap s) (warnings s) (events s).
Definition set_line (x : Z) (s : State) : State :=
  mkState (position s) x (lineStart s) (lineIndent s) (documents s) (version s)
    (checkLineBreaks s) (tagMap s) (anchorMap s) (skind s) (stag s) (anchor s)
    (result s) (sheap s) (warnings s) (events s).
Definition set_lineStart (x : Z) (s : State) : State :=
  mkState (position s) (line s) x (lineIndent s) (documents s) (version s)
    (checkLineBreaks s) (tagMap s) (anchorMap s) (skind s) (stag s) (anchor s)
    (result s) (sheap s) (warnings s) (events s).
Definition set_lineIndent (x : Z) (s : State) : State :=
  mkState (position s) (line s) (lineStart s) x (documents s) (version s)
    (checkLineBreaks s) (tagMap s) (anchorMap s) (skind s) (stag s) (anchor s)
    (result s) (sheap s) (warnings s) (events s).
Definition set_documents (x : list value) (s : State) : State :=
  mkState (position s) (line s) (lineStart s) (lineIndent s) x (version s)
    (checkLineBreaks s) (tagMap s) (anchorMap s) (skind s) (stag s) (anchor s)
    (result s) (sheap s) (warnings s) (events s).
Definition set_version (x : option jsstr) (s : State) : State :=
  mkState (position s) (line s) (lineStart s) (lineIndent s) (documents s) x
    (checkLineBreaks s) (tagMap s) (anchorMap s) (skind s) (stag s) (anchor s)
    (result s) (sheap s) (warnings s) (events s).
Definition set_checkLineBreaks (x : bool) (s : State) : State :=
  mkState (position s) (line s) (lineStart s) (lineIndent s) (documents s) (version s) x
    (tagMap s) (anchorMap s) (skind s) (stag s) (anchor s) (result s) (sheap s)
    (warnings s) (events s).
Definition set_tagMap (x : list (jsstr * jsstr)) (s : State) : State :=
  mkState (position s) (line s) (lineStart s) (lineIndent s) (documents s) (version s)
    (checkLineBreaks s) x (anchorMap s) (skind s) (stag s) (anchor s) (result s)
    (sheap s) (warnings s) (events s).
Definition set_anchorMap (x : object) (s : State) : State :=
  mkState (position s) (line s) (lineStart s) (lineIndent s) (documents s) (version s)
    (checkLineBreaks s) (tagMap s) x (skind s) (stag s) (anchor s) (result s)
    (sheap s) (warnings s) (events s).
Definition set_skind (x : option node_kind) (s : State) : State :=
  mkState (position s) (line s) (lineStart s) (lineIndent s) (documents s) (version s)
    (checkLineBreaks s) (tagMap s) (anchorMap s) x (stag s) (anchor s) (result s)
    (sheap s) (warnings s) (events s).
Definition set_stag (x : option jsstr) (s : State) : State :=
  mkState (position s) (line s) (lineStart s) (lineIndent s) (documents s) (version s)
    (checkLineBreaks s) (tagMap s) (anchorMap s) (skind s) x (anchor s) (result s)
    (sheap s) (warnings s) (events s).
Definition set_anchor (x : option jsstr) (s : State) : State :=
  mkState (position s) (line s) (lineStart s) (lineIndent s) (documents s) (version s)
    (checkLineBreaks s) (tagMap s) (anchorMap s) (skind s) (stag s) x (result s)
    (sheap s) (warnings s) (events s).
Definition set_result (x : value) (s : State) : State :=
  mkState (position s) (line s) (lineStart s) (lineIndent s) (documents s) (version s)
    (checkLineBreaks s) (tagMap s) (anchorMap s) (skind s) (stag s) (anchor s) x
    (sheap s) (warnings s) (events s).
Definition set_sheap (x : heap) (s : State) : State :=
  mkState (position s) (line s) (lineStart s) (lineIndent s) (documents s) (version s)
    (checkLineBreaks s) (tagMap s) (anchorMap s) (skind s) (stag s) (anchor s)
    (result s) x (warnings s) (events s).
Definition set_warnings (x : list YAMLException) (s : State) : State :=
  mkState (position s) (line s) (lineStart s) (lineIndent s) (documents s) (version s)
    (checkLineBreaks s) (tagMap s) (anchorMap s) (skind s) (stag s) (anchor s)
    (result s) (sheap s) x (events s).
Definition set_events (x : list event) (s : State) : State :=
  mkState (position s) (line s) (lineStart s) (lineIndent s) (documents s) (version s)
    (checkLineBreaks s) (tagMap s) (anchorMap s) (skind s) (stag s) (anchor s)
    (result s) (sheap s) (warnings s) x.

Abbreviation M := (SE State jserror).

Definition generateError (E : Env) (s : State) (message : jsstr) : YAMLException :=
  mkYAMLException message
    (Some (mkMark (filename E) (input E) (position s) (line s) (position s - lineStart s))).

Section loader.
Variable E : Env.

Definition throwError {A} (message : jsstr) : M A :=
  fun s => Throw (EYaml (generateError E s message)).

(** A call of [onWarning] is recorded. *)
Definition throwWarning (message : jsstr) : M unit :=
  modifyS (fun s => if onWarning E
                    then set_warnings (warnings s ++ [generateError E s message]) s else s).

(** [state.input.charCodeAt(state.position + k)]. *)
Definition peek_at (k : Z) : M Z := gets (fun s => charCodeAt (input E) (position s + k)).
Definition peek : M Z := peek_at 0.
Definition move (k : Z) : M unit := modifyS (fun s => set_position (position s + k) s).
(** [state.input.charCodeAt(++state.position)]. *)
Definition advance : M Z := _ ← move 1; peek.

Definition fuel0 : nat := S (length (input E)).

(** [while (p(ch)) ch = state.input.charCodeAt(++state.position)]. *)
Fixpoint skip_loop (n : nat) (p : Z -> bool) (ch : Z) : M Z :=
  match n with
  | O => diverge
  | S n' => if p ch then ch' ← advance; skip_loop n' p ch' else mret ch
  end.
Definition skip_while (p : Z -> bool) (ch : Z) : M Z := skip_loop fuel0 p ch.
(** The same with the test at the end. *)
Definition do_skip_while (p : Z -> bool) : M Z := ch ← advance; skip_while p ch.

Definition lift {A} (o : outcome native_error A) : M A := liftO (lift_native o).

(** [state.result += s], where the caller has made the result a string. *)
Definition append_result (t : jsstr) : M unit :=
  r ← gets result;
  match r with
  | VString r => modifyS (set_result (VString (r ++ t)))
  | _ => lift not_a_function
  end.

(** ** Directives *)

(** [/^([0-9]+)\.([0-9]+)$/.exec]. *)
Definition exec_version (s : jsstr) : option (Z * Z) :=
  match take_while isDecCode s with
  | (c :: a, 46 :: r) =>
      match take_while isDecCode r with
      | (d :: b, []) => Some (group_int (c :: a), group_int (d :: b))
      | _ => None
      end
  | _ => None
  end.

Definition handleYamlDirective (args : list jsstr) : M unit :=
  v ← gets version;
  _ ← (if bool_decide (v = None) then mret tt
       else throwError (js "duplication of %YAML directive"));
  match args with
  | [arg] =>
      match exec_version arg with
      | None => throwError (js "ill-formed argument of the YAML directive")
      | Some (major, minor) =>
          if negb (major =? 1)
          then throwError (js "unacceptable YAML version of the document")
          else
            _ ← modifyS (set_version (Some arg));
            _ ← modifyS (set_checkLineBreaks (minor <? 2));
            if negb (minor =? 1) && negb (minor =? 2)
            then throwWarning (js "unsupported YAML version of the document")
            else mret tt
      end
  | _ => throwError (js "YAML directive accepts exactly one argument")
  end.

Definition handleTagDirective (args : list jsstr) : M unit :=
  match args with
  | [handle; prefix] =>
      if negb (rmatch PATTERN_TAG_HANDLE handle)
      then throwError (js "ill-formed tag handle (first argument) of the TAG directive")
      else
        tm ← gets tagMap;
        if assoc_has tm handle
        then throwError (js "there is a previously declared suffix for " ++ [34] ++ handle
                         ++ [34] ++ js " tag handle")
        else if negb (rmatch PATTERN_TAG_URI prefix)
        then throwError (js "ill-formed tag prefix (second argument) of the TAG directive")
        else modifyS (set_tagMap (assoc_set tm handle prefix))
  | _ => throwError (js "TAG directive accepts exactly two arguments")
  end.

(** ** Segments and mappings *)

Definition json_unit (c : Z) : bool := (c =? 9) || (32 <=? c) && (c <=? 1114111).

Definition captureSegment (start end_ : Z) (checkJson : bool) : M unit :=
  if start <? end_ then
    let r := slice (input E) start end_ in
    _ ← (if checkJson then
           if forallb json_unit r then mret tt
           else throwError (js "expected valid JSON character")
         else if PATTERN_NON_PRINTABLE_test r
         then throwError (js "the stream contains non-printable characters")
         else mret tt);
    append_result r
  else mret tt.

(** [o[k] = v] on the plain object at a location. *)
Definition heap_assign (l : nat) (k : jsstr) (v : value) : M unit :=
  h ← gets sheap;
  match h !! l with
  | Some (OObject o) =>
      o' ← lift (object_assign h (Some l) o k v);
      modifyS (fun s => set_sheap (hset (sheap s) l (OObject o')) s)
  | _ => lift not_a_function
  end.

Definition heap_hasOwn (h : heap) (l : nat) (k : jsstr) : bool :=
  match h !! l with Some (OObject o) => hasOwn o k | _ => false end.

(** [arr.push(v)]. *)
Definition heap_push (l : nat) (v : value) : M unit :=
  modifyS (fun s => match sheap s !! l with
                    | Some (OArray es) => set_sheap (hset (sheap s) l (OArray (es ++ [v]))) s
                    | _ => s end).

Definition allocS (o : hobj) : M nat :=
  h ← gets sheap;
  let '(l, h') := alloc h o in
  _ ← modifyS (set_sheap h'); mret l.

(** An assignment to a plain object that is not in the heap. *)
Definition local_assign (o : object) (k : jsstr) (v : value) : M object :=
  h ← gets sheap; lift (object_assign h None o k v).

(** The loop of [mergeMappings] over the keys of the source. *)
Fixpoint merge_keys (destination : nat) (source : nat) (keys : list jsstr) (ok : object)
    : M object :=
  match keys with
  | [] => mret ok
  | key :: rest =>
      h ← gets sheap;
      if heap_hasOwn h destination key then merge_keys destination source rest ok
      else
        _ ← heap_assign destination key
              (match h !! source with Some o => object_get o key | None => VUndefined end);
        ok' ← local_assign ok key (VBool true);
        merge_keys destination source rest ok'
  end.

Definition mergeMappings (destination : nat) (source : value) (ok : object) : M object :=
  h ← gets sheap;
  match source with
  | VRef l =>
      if isObject h source then
        merge_keys destination l
          (match h !! l with Some o => object_keys o | None => [] end) ok
      else throwError (js "cannot merge mappings; the provided source object is unacceptable")
  | _ => throwError (js "cannot merge mappings; the provided source object is unacceptable")
  end.

Fixpoint merge_all (destination : nat) (sources : list value) (ok : object) : M object :=
  match sources with
  | [] => mret ok
  | v :: rest => ok' ← mergeMappings destination v ok; merge_all destination rest ok'
  end.

Definition merge_tag : jsstr := yaml_tag "merge".

(** [start] gives [startLine] and [startPos] when the caller passes them; a zero
    is falsy and leaves the field as it is. *)
Definition storeMappingPair (result_ : option nat) (ok : object) (keyTag : option jsstr)
    (keyNode valueNode : value) (start : option (Z * Z)) : M (nat * object) :=
  h ← gets sheap;
  key ← lift (value_toString (embedding E) h keyNode);
  l ← match result_ with Some l => mret l | None => allocS (OObject empty_object) end;
  if bool_decide (keyTag = Some merge_tag) then
    h ← gets sheap;
    let sources := match valueNode with
                   | VRef a => match h !! a with Some (OArray es) => es | _ => [valueNode] end
                   | _ => [valueNode] end in
    ok' ← merge_all l sources ok;
    mret (l, ok')
  else
    h ← gets sheap;
    _ ← (if negb (json E) && negb (hasOwn ok key) && heap_hasOwn h l key then
           _ ← match start with
               | Some (sl, sp) =>
                   _ ← (if sl =? 0 then mret tt else modifyS (set_line sl));
                   if sp =? 0 then mret tt else modifyS (set_position sp)
               | None => mret tt
               end;
           throwError (js "duplicated mapping key")
         else mret tt);
    _ ← heap_assign l key valueNode;
    mret (l, Obj (assoc_del (props ok) key) (proto ok)).

(** ** Lines and separation *)

Definition readLineBreak : M unit :=
  ch ← peek;
  _ ← (if ch =? 10 then move 1
       else if ch =? 13 then
         ch' ← advance;
         if ch' =? 10 then move 1 else mret tt
       else throwError (js "a line break is expected"));
  _ ← modifyS (fun s => set_line (line s + 1) s);
  modifyS (fun s => set_lineStart (position s) s).

(** [while (ch === 32) { state.lineIndent++; ch = ...++ }] *)
Fixpoint indent_loop (n : nat) (ch : Z) : M Z :=
  match n with
  | O => diverge
  | S n' =>
      if ch =? 32 then
        _ ← modifyS (fun s => set_lineIndent (lineIndent s + 1) s);
        ch' ← advance; indent_loop n' ch'
      else mret ch
  end.

Definition in_comment (c : Z) : bool := negb (c =? 10) && negb (c =? 13) && negb (c =? 0).

Fixpoint separation_loop (n : nat) (allowComments : bool) (lineBreaks ch : Z) : M Z :=
  match n with
  | O => diverge
  | S n' =>
      if ch =? 0 then mret lineBreaks
      else
        ch ← skip_while is_WHITE_SPACE ch;
        ch ← (if allowComments && (ch =? 35) then do_skip_while in_comment else mret ch);
        if is_EOL ch then
          _ ← readLineBreak;
          ch ← peek;
          _ ← modifyS (set_lineIndent 0);
          ch ← indent_loop fuel0 ch;
          separation_loop n' allowComments (lineBreaks + 1) ch
        else mret lineBreaks
  end.

Definition skipSeparationSpace (allowComments : bool) (checkIndent : Z) : M Z :=
  ch ← peek;
  lineBreaks ← separation_loop fuel0 allowComments 0 ch;
  li ← gets lineIndent;
  _ ← (if negb (checkIndent =? -1) && negb (lineBreaks =? 0) && (li <? checkIndent)
       then throwWarning (js "deficient indentation") else mret tt);
  mret lineBreaks.

Definition testDocumentSeparator : M bool :=
  ch ← peek; c1 ← peek_at 1; c2 ← peek_at 2; c3 ← peek_at 3;
  mret (((ch =? 45) || (ch =? 46)) && (ch =? c1) && (ch =? c2)
        && ((c3 =? 0) || is_WS_OR_EOL c3)).

(** [state.position === state.lineStart && testDocumentSeparator(state)]. *)
Definition at_document_separator : M bool :=
  s ← getS;
  if position s =? lineStart s then testDocumentSeparator else mret false.

Definition writeFoldedLines (count : Z) : M unit :=
  if count =? 1 then append_result [32]
  else if 1 <? count then append_result (repeat [10] (count - 1))
  else mret tt.

(** ** Scalars *)

Definition plain_first_forbidden (ch : Z) : bool :=
  is_WS_OR_EOL ch || is_FLOW_INDICATOR ch || (ch =? 35) || (ch =? 38) || (ch =? 42)
  || (ch =? 33) || (ch =? 124) || (ch =? 62) || (ch =? 39) || (ch =? 34) || (ch =? 37)
  || (ch =? 64) || (ch =? 96).

Definition ends_plain (withinFlowCollection : bool) (following : Z) : bool :=
  is_WS_OR_EOL following || withinFlowCollection && is_FLOW_INDICATOR following.

(** How an iteration of the plain-scalar loop goes on after its tests. *)
Inductive plain_step : Type :=
| PBreak
| PContinue (l : Z)
| PConsume.

(** The chain of tests at the head of the loop. *)
Definition plain_test (nodeIndent : Z) (within : bool) (captureEnd ch : Z) : M plain_step :=
  if ch =? 58 then
    following ← peek_at 1;
    mret (if ends_plain within following then PBreak else PConsume)
  else if ch =? 35 then
    preceding ← peek_at (-1);
    mret (if is_WS_OR_EOL preceding then PBreak else PConsume)
  else
    s ← getS;
    sep ← at_document_separator;
    if sep || within && is_FLOW_INDICATOR ch then mret PBreak
    else if is_EOL ch then
      _ ← skipSeparationSpace false (-1);
      li ← gets lineIndent;
      if nodeIndent <=? li then mret (PContinue (line s))
      else
        _ ← modifyS (fun s' => set_lineIndent (lineIndent s) (set_lineStart (lineStart s)
                                (set_line (line s) (set_position captureEnd s'))));
        mret PBreak
    else mret PConsume.

(** The loop; [_line] is the line saved at the last line break.  It returns the
    pending segment. *)
Fixpoint plain_loop (n : nat) (nodeIndent : Z) (within : bool)
    (captureStart captureEnd : Z) (hasPendingContent : bool) (_line ch : Z) : M (Z * Z) :=
  match n with
  | O => diverge
  | S n' =>
      if ch =? 0 then mret (captureStart, captureEnd)
      else
        step ← plain_test nodeIndent within captureEnd ch;
        match step with
        | PBreak => mret (captureStart, captureEnd)
        | PContinue l =>
            ch ← peek;
            plain_loop n' nodeIndent within captureStart captureEnd true l ch
        | PConsume =>
            '(captureStart, captureEnd) ←
              (if hasPendingContent then
                 _ ← captureSegment captureStart captureEnd false;
                 l ← gets line;
                 _ ← writeFoldedLines (l - _line);
                 p ← gets position; mret (p, p)
               else mret (captureStart, captureEnd));
            p ← gets position;
            let captureEnd := if is_WHITE_SPACE ch then captureEnd else p + 1 in
            ch ← advance;
            plain_loop n' nodeIndent within captureStart captureEnd false _line ch
        end
  end.

Definition readPlainScalar (nodeIndent : Z) (withinFlowCollection : bool) : M bool :=
  _kind ← gets skind;
  _result ← gets result;
  ch ← peek;
  if plain_first_forbidden ch then mret false
  else
    following ← peek_at 1;
    if ((ch =? 63) || (ch =? 45)) && ends_plain withinFlowCollection following
    then mret false
    else
      _ ← modifyS (set_skind (Some KScalar));
      _ ← modifyS (set_result (VString []));
      p ← gets position;
      '(captureStart, captureEnd) ←
        plain_loop fuel0 nodeIndent withinFlowCollection p p false 0 ch;
      _ ← captureSegment captureStart captureEnd false;
      r ← gets result;
      if bool_decide (r = VString []) then
        _ ← modifyS (set_skind _kind);
        _ ← modifyS (set_result _result);
        mret false
      else mret true.

Fixpoint single_loop (n : nat) (nodeIndent captureStart captureEnd : Z) : M bool :=
  match n with
  | O => diverge
  | S n' =>
      s ← getS;
      ch ← peek;
      if ch =? 0 then
        throwError (js "unexpected end of the stream within a single quoted scalar")
      else if ch =? 39 then
        _ ← captureSegment captureStart (position s) true;
        ch ← advance;
        if ch =? 39 then
          p ← gets position;
          _ ← move 1;
          single_loop n' nodeIndent p (p + 1)
        else mret true
      else if is_EOL ch then
        _ ← captureSegment captureStart captureEnd true;
        breaks ← skipSeparationSpace false nodeIndent;
        _ ← writeFoldedLines breaks;
        p ← gets position;
        single_loop n' nodeIndent p p
      else
        sep ← at_document_separator;
        if (sep : bool) then
          throwError (js "unexpected end of the document within a single quoted scalar")
        else
          _ ← move 1;
          p ← gets position;
          single_loop n' nodeIndent captureStart p
  end.

Definition readSingleQuotedScalar (nodeIndent : Z) : M bool :=
  ch ← peek;
  if negb (ch =? 39) then mret false
  else
    _ ← modifyS (set_skind (Some KScalar));
    _ ← modifyS (set_result (VString []));
    _ ← move 1;
    p ← gets position;
    single_loop fuel0 nodeIndent p p.

(** The hexadecimal digits of an escape: [hexLength] more of them. *)
Fixpoint hex_loop (hexLength : nat) (hexResult : Z) : M Z :=
  match hexLength with
  | O => mret hexResult
  | S k =>
      ch ← advance;
      let tmp := fromHexCode ch in
      if 0 <=? tmp then hex_loop k (shl32 hexResult 4 + tmp)
      else throwError (js "expected hexadecimal character")
  end.

(** What follows a backslash, [ch] being the unit after it. *)
Definition read_escape (nodeIndent ch : Z) : M unit :=
  if is_EOL ch then _ ← skipSeparationSpace false nodeIndent; mret tt
  else
    match (if ch <? 256 then simpleEscapeSequence ch else None) with
    | Some c => _ ← append_result [c]; move 1
    | None =>
        if 0 <? escapedHexLen ch then
          hexResult ← hex_loop (Z.to_nat (escapedHexLen ch)) 0;
          _ ← append_result (charFromCodepoint hexResult);
          move 1
        else throwError (js "unknown escape sequence")
    end.

Fixpoint double_loop (n : nat) (nodeIndent captureStart captureEnd : Z) : M bool :=
  match n with
  | O => diverge
  | S n' =>
      s ← getS;
      ch ← peek;
      if ch =? 0 then
        throwError (js "unexpected end of the stream within a double quoted scalar")
      else if ch =? 34 then
        _ ← captureSegment captureStart (position s) true;
        _ ← move 1;
        mret true
      else if ch =? 92 then
        _ ← captureSegment captureStart (position s) true;
        ch ← advance;
        _ ← read_escape nodeIndent ch;
        p ← gets position;
        double_loop n' nodeIndent p p
      else if is_EOL ch then
        _ ← captureSegment captureStart captureEnd true;
        breaks ← skipSeparationSpace false nodeIndent;
        _ ← writeFoldedLines breaks;
        p ← gets position;
        double_loop n' nodeIndent p p
      else
        sep ← at_document_separator;
        if (sep : bool) then
          throwError (js "unexpected end of the document within a double quoted scalar")
        else
          _ ← move 1;
          p ← gets position;
          double_loop n' nodeIndent captureStart p
  end.

Definition readDoubleQuotedScalar (nodeIndent : Z) : M bool :=
  ch ← peek;
  if negb (ch =? 34) then mret false
  else
    _ ← modifyS (set_skind (Some KScalar));
    _ ← modifyS (set_result (VString []));
    _ ← move 1;
    p ← gets position;
    double_loop fuel0 nodeIndent p p.

(** The header of a block scalar: chomping and indentation indicators. *)
Fixpoint block_header (n : nat) (nodeIndent : Z) (chomp : chomping) (detectedIndent : bool)
    (textIndent ch : Z) : M (chomping * bool * Z * Z) :=
  match n with
  | O => diverge
  | S n' =>
      if ch =? 0 then mret (chomp, detectedIndent, textIndent, ch)
      else
        ch ← advance;
        if (ch =? 43) || (ch =? 45) then
          if bool_decide (chomp = CHOMPING_CLIP) then
            block_header n' nodeIndent (if ch =? 43 then CHOMPING_KEEP else CHOMPING_STRIP)
              detectedIndent textIndent ch
          else throwError (js "repeat of a chomping mode identifier")
        else
          let tmp := fromDecimalCode ch in
          if 0 <=? tmp then
            if tmp =? 0 then
              throwError (js "bad explicit indentation width of a block scalar; it cannot be less than one")
            else if negb detectedIndent then
              block_header n' nodeIndent chomp true (nodeIndent + tmp - 1) ch
            else throwError (js "repeat of an indentation width identifier")
          else mret (chomp, detectedIndent, textIndent, ch)
  end.

(** [while ((!detectedIndent || state.lineIndent < textIndent) && ch === 32)]. *)
Fixpoint block_indent_loop (n : nat) (detectedIndent : bool) (textIndent ch : Z) : M Z :=
  match n with
  | O => diverge
  | S n' =>
      li ← gets lineIndent;
      if (negb detectedIndent || (li <? textIndent)) && (ch =? 32) then
        _ ← modifyS (fun s => set_lineIndent (lineIndent s + 1) s);
        ch' ← advance; block_indent_loop n' detectedIndent textIndent ch'
      else mret ch
  end.

(** The line breaks written before a line of content; the result is the new
    [atMoreIndented]. *)
Definition block_join (folding atMoreIndented didReadContent : bool) (emptyLines ch : Z)
    : M bool :=
  let lines := repeat [10] (if didReadContent then 1 + emptyLines else emptyLines) in
  if folding then
    if is_WHITE_SPACE ch then _ ← append_result lines; mret true
    else if atMoreIndented then _ ← append_result (repeat [10] (emptyLines + 1)); mret false
    else if emptyLines =? 0 then
      _ ← (if didReadContent then append_result [32] else mret tt); mret false
    else _ ← append_result (repeat [10] emptyLines); mret false
  else _ ← append_result lines; mret atMoreIndented.

Fixpoint block_loop (n : nat) (folding : bool) (chomp : chomping)
    (didReadContent detectedIndent atMoreIndented : bool) (textIndent emptyLines ch : Z)
    : M unit :=
  match n with
  | O => diverge
  | S n' =>
      if ch =? 0 then mret tt
      else
        _ ← readLineBreak;
        _ ← modifyS (set_lineIndent 0);
        ch ← peek;
        ch ← block_indent_loop fuel0 detectedIndent textIndent ch;
        li ← gets lineIndent;
        let textIndent := if negb detectedIndent && (textIndent <? li) then li else textIndent in
        if is_EOL ch then
          block_loop n' folding chomp didReadContent detectedIndent atMoreIndented textIndent
            (emptyLines + 1) ch
        else if li <? textIndent then
          match chomp with
          | CHOMPING_KEEP =>
              append_result (repeat [10] (if didReadContent then 1 + emptyLines else emptyLines))
          | CHOMPING_CLIP => if didReadContent then append_result [10] else mret tt
          | CHOMPING_STRIP => mret tt
          end
        else
          atMore ← block_join folding atMoreIndented didReadContent emptyLines ch;
          captureStart ← gets position;
          ch ← skip_while in_comment ch;
          p ← gets position;
          _ ← captureSegment captureStart p false;
          block_loop n' folding chomp true true atMore textIndent 0 ch
  end.

Definition readBlockScalar (nodeIndent : Z) : M bool :=
  ch ← peek;
  if negb ((ch =? 124) || (ch =? 62)) then mret false
  else
    let folding := ch =? 62 in
    _ ← modifyS (set_skind (Some KScalar));
    _ ← modifyS (set_result (VString []));
    '(chomp, detectedIndent, textIndent, ch) ←
      block_header fuel0 nodeIndent CHOMPING_CLIP false nodeIndent ch;
    ch ← (if is_WHITE_SPACE ch then
            ch ← do_skip_while is_WHITE_SPACE;
            if ch =? 35 then do_skip_while in_comment else mret ch
          else mret ch);
    _ ← block_loop fuel0 folding chomp false detectedIndent false textIndent 0 ch;
    mret true.

(** ** Collections

    [compose] stands for [composeNode], tied below. *)

Section collections.
Variable compose : Z -> context -> bool -> bool -> M bool.

(** [if (state.anchor !== null) state.anchorMap[state.anchor] = v]. *)
Definition record_anchor (v : value) : M unit :=
  a ← gets anchor;
  match a with
  | None => mret tt
  | Some name =>
      am ← gets anchorMap;
      am' ← local_assign am name v;
      modifyS (set_anchorMap am')
  end.

(** The end of a collection: the node's properties are restored. *)
Definition finish_collection (t a : option jsstr) (k : node_kind) (v : value) : M bool :=
  _ ← modifyS (fun s => set_result v (set_skind (Some k) (set_anchor a (set_stag t s))));
  mret true.

Definition flow_explicit (nodeIndent ch : Z) : M bool :=
  if ch =? 63 then
    following ← peek_at 1;
    if is_WS_OR_EOL following then
      _ ← move 1;
      _ ← skipSeparationSpace true nodeIndent;
      mret true
    else mret false
  else mret false.

Fixpoint flow_loop (n : nat) (nodeIndent terminator : Z) (isMapping : bool) (l : nat)
    (_tag _anchor : option jsstr) (readNext : bool) (ok : object) (ch : Z) : M bool :=
  match n with
  | O => diverge
  | S n' =>
      if ch =? 0 then
        throwError (js "unexpected end of the stream within a flow collection")
      else
        _ ← skipSeparationSpace true nodeIndent;
        ch ← peek;
        if ch =? terminator then
          _ ← move 1;
          finish_collection _tag _anchor (if isMapping then KMapping else KSequence) (VRef l)
        else if negb readNext then
          throwError (js "missed comma between flow collection entries")
        else
          isExplicitPair ← flow_explicit nodeIndent ch;
          _line ← gets line;
          _ ← compose nodeIndent CONTEXT_FLOW_IN false true;
          keyTag ← gets stag;
          keyNode ← gets result;
          _ ← skipSeparationSpace true nodeIndent;
          ch ← peek;
          l' ← gets line;
          '(isPair, valueNode) ←
            (if (isExplicitPair || (l' =? _line)) && (ch =? 58) then
               _ ← move 1;
               _ ← skipSeparationSpace true nodeIndent;
               _ ← compose nodeIndent CONTEXT_FLOW_IN false true;
               v ← gets result; mret (true, v)
             else mret (isExplicitPair, VNull));
          ok ← (if isMapping then
                  '(_, ok) ← storeMappingPair (Some l) ok keyTag keyNode valueNode None;
                  mret ok
                else if (isPair : bool) then
                  '(pr, ok) ← storeMappingPair None ok keyTag keyNode valueNode None;
                  _ ← heap_push l (VRef pr); mret ok
                else _ ← heap_push l keyNode; mret ok);
          _ ← skipSeparationSpace true nodeIndent;
          ch ← peek;
          if ch =? 44 then
            ch ← advance;
            flow_loop n' nodeIndent terminator isMapping l _tag _anchor true ok ch
          else flow_loop n' nodeIndent terminator isMapping l _tag _anchor false ok ch
  end.

(** Two iterations of the loop are enough for each position. *)
Definition readFlowCollection (nodeIndent : Z) : M bool :=
  _tag ← gets stag;
  _anchor ← gets anchor;
  ch ← peek;
  if negb ((ch =? 91) || (ch =? 123)) then mret false
  else
    let isMapping := ch =? 123 in
    let terminator := if isMapping then 125 else 93 in
    l ← allocS (if isMapping then OObject empty_object else OArray []);
    _ ← record_anchor (VRef l);
    ch ← advance;
    flow_loop (2 * fuel0) nodeIndent terminator isMapping l _tag _anchor true empty_object ch.

Fixpoint sequence_loop (n : nat) (nodeIndent : Z) (l : nat) (detected : bool) (ch : Z)
    : M bool :=
  match n with
  | O => diverge
  | S n' =>
      if ch =? 0 then mret detected
      else if negb (ch =? 45) then mret detected
      else
        following ← peek_at 1;
        if negb (is_WS_OR_EOL following) then mret detected
        else
          _ ← move 1;
          breaks ← skipSeparationSpace true (-1);
          li ← gets lineIndent;
          if negb (breaks =? 0) && (li <=? nodeIndent) then
            _ ← heap_push l VNull;
            ch ← peek;
            sequence_loop n' nodeIndent l true ch
          else
            _line ← gets line;
            _ ← compose nodeIndent CONTEXT_BLOCK_IN false true;
            r ← gets result;
            _ ← heap_push l r;
            _ ← skipSeparationSpace true (-1);
            ch ← peek;
            l' ← gets line;
            li ← gets lineIndent;
            if ((l' =? _line) || (nodeIndent <? li)) && negb (ch =? 0) then
              throwError (js "bad indentation of a sequence entry")
            else if li <? nodeIndent then mret true
            else sequence_loop n' nodeIndent l true ch
  end.

Definition readBlockSequence (nodeIndent : Z) : M bool :=
  _tag ← gets stag;
  _anchor ← gets anchor;
  l ← allocS (OArray []);
  _ ← record_anchor (VRef l);
  ch ← peek;
  detected ← sequence_loop fuel0 nodeIndent l false ch;
  if (detected : bool) then finish_collection _tag _anchor KSequence (VRef l)
  else mret false.

(** The local variables of [readBlockMapping] that live across iterations. *)
Record bm_vars : Type := mkVars {
  bm_ok : object;
  bm_keyTag : option jsstr;
  bm_keyNode : value;
  bm_valueNode : value;
  bm_atExplicitKey : bool;
  bm_detected : bool
}.

(** What the first half of an iteration decides: go on with [allowCompact],
    leave the loop, or return [true] from the function. *)
Inductive bm_step : Type :=
| BMGo (v : bm_vars) (allowCompact : bool) (ch : Z)
| BMBreak (v : bm_vars)
| BMReturn.

(** A pending explicit key is stored with a null value. *)
Definition flush_explicit (l : nat) (v : bm_vars) : M bm_vars :=
  if bm_atExplicitKey v then
    '(_, ok) ← storeMappingPair (Some l) (bm_ok v) (bm_keyTag v) (bm_keyNode v) VNull None;
    mret (mkVars ok None VNull VNull (bm_atExplicitKey v) (bm_detected v))
  else mret v.

(** The key of an entry that starts with [?] or [:]. *)
Definition mapping_indicator (l : nat) (v : bm_vars) (ch following : Z) : M bm_step :=
  v ← (if ch =? 63 then
         v ← flush_explicit l v;
         mret (mkVars (bm_ok v) (bm_keyTag v) (bm_keyNode v) (bm_valueNode v) true true)
       else if bm_atExplicitKey v then
         mret (mkVars (bm_ok v) (bm_keyTag v) (bm_keyNode v) (bm_valueNode v) false
                      (bm_detected v))
       else throwError (js "incomplete explicit mapping pair; a key node is missed; or followed by a non-tabulated empty line"));
  _ ← move 1;
  mret (BMGo v true following).

(** The key of an implicit entry. *)
Definition mapping_key (l : nat) (_tag _anchor : option jsstr) (flowIndent _line : Z)
    (v : bm_vars) : M bm_step :=
  found ← compose flowIndent CONTEXT_FLOW_OUT false true;
  if (found : bool) then
    l' ← gets line;
    if l' =? _line then
      ch ← peek;
      ch ← skip_while is_WHITE_SPACE ch;
      if ch =? 58 then
        ch ← advance;
        if negb (is_WS_OR_EOL ch) then
          throwError (js "a whitespace character is expected after the key-value separator within a block mapping")
        else
          s ← getS;
          v ← flush_explicit l v;
          mret (BMGo (mkVars (bm_ok v) (stag s) (result s) (bm_valueNode v) false true) false ch)
      else if bm_detected v then
        throwError (js "can not read an implicit mapping pair; a colon is missed")
      else
        _ ← modifyS (fun s => set_anchor _anchor (set_stag _tag s));
        mret BMReturn
    else if bm_detected v then
      throwError (js "can not read a block mapping entry; a multiline key may not be an implicit key")
    else
      _ ← modifyS (fun s => set_anchor _anchor (set_stag _tag s));
      mret BMReturn
  else mret (BMBreak v).

(** The value of an entry and what follows it. *)
Definition mapping_value (l : nat) (nodeIndent _line _pos : Z) (allowCompact : bool)
    (v : bm_vars) : M bm_vars :=
  found ← compose nodeIndent CONTEXT_BLOCK_OUT true allowCompact;
  r ← gets result;
  let v := if (found : bool) then
             if bm_atExplicitKey v
             then mkVars (bm_ok v) (bm_keyTag v) r (bm_valueNode v) true (bm_detected v)
             else mkVars (bm_ok v) (bm_keyTag v) (bm_keyNode v) r false (bm_detected v)
           else v in
  if bm_atExplicitKey v then mret v
  else
    '(_, ok) ← storeMappingPair (Some l) (bm_ok v) (bm_keyTag v) (bm_keyNode v)
                                (bm_valueNode v) (Some (_line, _pos));
    mret (mkVars ok None VNull VNull false (bm_detected v)).

Fixpoint mapping_loop (n : nat) (nodeIndent flowIndent : Z) (l : nat)
    (_tag _anchor : option jsstr) (v : bm_vars) (ch : Z) : M (option bm_vars) :=
  match n with
  | O => diverge
  | S n' =>
      if ch =? 0 then mret (Some v)
      else
        following ← peek_at 1;
        _line ← gets line;
        _pos ← gets position;
        step ← (if ((ch =? 63) || (ch =? 58)) && is_WS_OR_EOL following
                then mapping_indicator l v ch following
                else mapping_key l _tag _anchor flowIndent _line v);
        match step with
        | BMReturn => mret None
        | BMBreak v => mret (Some v)
        | BMGo v allowCompact ch =>
            l' ← gets line;
            li ← gets lineIndent;
            '(v, ch) ←
              (if (l' =? _line) || (nodeIndent <? li) then
                 v ← mapping_value l nodeIndent _line _pos allowCompact v;
                 _ ← skipSeparationSpace true (-1);
                 ch ← peek; mret (v, ch)
               else mret (v, ch));
            li ← gets lineIndent;
            if (nodeIndent <? li) && negb (ch =? 0) then
              throwError (js "bad indentation of a mapping entry")
            else if li <? nodeIndent then mret (Some v)
            else mapping_loop n' nodeIndent flowIndent l _tag _anchor v ch
        end
  end.

Definition readBlockMapping (nodeIndent flowIndent : Z) : M bool :=
  _tag ← gets stag;
  _anchor ← gets anchor;
  l ← allocS (OObject empty_object);
  _ ← record_anchor (VRef l);
  ch ← peek;
  out ← mapping_loop fuel0 nodeIndent flowIndent l _tag _anchor
          (mkVars empty_object None VNull VNull false false) ch;
  match out with
  | None => mret true
  | Some v =>
      v ← flush_explicit l v;
      if bm_detected v then finish_collection _tag _anchor KMapping (VRef l)
      else mret false
  end.
End collections.

(** ** Node properties *)

(** The suffix of a tag up to white space; named handles end at a second
    exclamation mark.  [start] is the source's [_position]. *)
Fixpoint tag_loop (n : nat) (isNamed : bool) (tagHandle : jsstr) (start ch : Z)
    : M (jsstr * Z) :=
  match n with
  | O => diverge
  | S n' =>
      if (ch =? 0) || is_WS_OR_EOL ch then mret (tagHandle, start)
      else
        '(isNamed, tagHandle, start) ←
          (if ch =? 33 then
             if negb isNamed then
               p ← gets position;
               let tagHandle := slice (input E) (start - 1) (p + 1) in
               if negb (rmatch PATTERN_TAG_HANDLE tagHandle)
               then throwError (js "named tag handle cannot contain such characters")
               else mret (true, tagHandle, p + 1)
             else throwError (js "tag suffix cannot contain exclamation marks")
           else mret (isNamed, tagHandle, start));
        ch ← advance;
        tag_loop n' isNamed tagHandle start ch
  end.

Definition check_uri (tagName : jsstr) : M unit :=
  match tagName with
  | [] => mret tt
  | _ => if rmatch PATTERN_TAG_URI tagName then mret tt
         else throwError (js "tag name cannot contain such characters: " ++ tagName)
  end.

Definition read_verbatim_tag : M unit :=
  start ← gets position;
  _ ← do_skip_while (fun c => negb (c =? 0) && negb (c =? 62));
  p ← gets position;
  if p <? slength E then
    let tagName := slice (input E) start p in
    _ ← move 1;
    _ ← check_uri tagName;
    modifyS (set_stag (Some tagName))
  else throwError (js "unexpected end of the stream within a verbatim tag").

Definition read_shorthand_tag (isNamed : bool) (tagHandle : jsstr) (ch : Z) : M unit :=
  start ← gets position;
  '(tagHandle, start) ← tag_loop fuel0 isNamed tagHandle start ch;
  p ← gets position;
  let tagName := slice (input E) start p in
  if PATTERN_FLOW_INDICATORS_test tagName
  then throwError (js "tag suffix cannot contain flow indicator characters")
  else
    _ ← check_uri tagName;
    tm ← gets tagMap;
    match assoc_get tm tagHandle with
    | Some prefix => modifyS (set_stag (Some (prefix ++ tagName)))
    | None =>
        if jseqb tagHandle (js "!") then modifyS (set_stag (Some (js "!" ++ tagName)))
        else if jseqb tagHandle (js "!!")
        then modifyS (set_stag (Some (js "tag:yaml.org,2002:" ++ tagName)))
        else throwError (js "undeclared tag handle " ++ [34] ++ tagHandle ++ [34])
    end.

Definition readTagProperty : M bool :=
  ch ← peek;
  if negb (ch =? 33) then mret false
  else
    t ← gets stag;
    _ ← (if bool_decide (t = None) then mret tt
         else throwError (js "duplication of a tag property"));
    ch ← advance;
    _ ← (if ch =? 60 then _ ← move 1; read_verbatim_tag
         else if ch =? 33 then ch ← advance; read_shorthand_tag true (js "!!") ch
         else read_shorthand_tag false (js "!") ch);
    mret true.

Definition in_name (c : Z) : bool :=
  negb (c =? 0) && negb (is_WS_OR_EOL c) && negb (is_FLOW_INDICATOR c).

(** The name after [&] or [*]; an empty one is refused with [message]. *)
Definition read_name (message : jsstr) : M jsstr :=
  ch ← advance;
  start ← gets position;
  _ ← skip_while in_name ch;
  p ← gets position;
  if p =? start then throwError message else mret (slice (input E) start p).

Definition readAnchorProperty : M bool :=
  ch ← peek;
  if negb (ch =? 38) then mret false
  else
    a ← gets anchor;
    _ ← (if bool_decide (a = None) then mret tt
         else throwError (js "duplication of an anchor property"));
    name ← read_name (js "name of an anchor node must contain at least one character");
    _ ← modifyS (set_anchor (Some name));
    mret true.

(** [state.anchorMap.hasOwnProperty(alias)]: the method is looked up on the map
    itself, where an anchor may have been stored under that name. *)
Definition anchor_known (h : heap) (am : object) (alias : jsstr) : outcome native_error bool :=
  match chain_lookup (length h) h am (js "hasOwnProperty") with
  | EndObject | EndHost => Ret (hasOwn am alias)
  | EndNull => not_a_function
  | Found (VRef f) =>
      if callable h (VRef f) then
        match host_call (embedding E) h f (VString alias) with
        | inl e => Throw e
        | inr b => Ret b
        end
      else not_a_function
  | Found _ => not_a_function
  end.

Definition readAlias : M bool :=
  ch ← peek;
  if negb (ch =? 42) then mret false
  else
    alias ← read_name (js "name of an alias node must contain at least one character");
    s ← getS;
    known ← lift (anchor_known (sheap s) (anchorMap s) alias);
    if negb known then
      throwError (js "unidentified alias " ++ [34] ++ alias ++ [34])
    else
      _ ← modifyS (set_result (default VUndefined (assoc_get (props (anchorMap s)) alias)));
      _ ← skipSeparationSpace true (-1);
      mret true.

(** ** Nodes *)

Definition indent_status (li parentIndent : Z) : Z :=
  if parentIndent <? li then 1 else if li =? parentIndent then 0 else -1.

(** The loop over tag and anchor: [(indentStatus, atNewLine, allowBlockCollections)]. *)
Fixpoint property_loop (n : nat) (parentIndent : Z) (allowBlockStyles : bool)
    (st : Z * bool * bool) : M (Z * bool * bool) :=
  match n with
  | O => diverge
  | S n' =>
      t ← readTagProperty;
      a ← (if (t : bool) then mret true else readAnchorProperty);
      if (a : bool) then
        breaks ← skipSeparationSpace true (-1);
        li ← gets lineIndent;
        let '(indentStatus, atNewLine, _) := st in
        property_loop n' parentIndent allowBlockStyles
          (if negb (breaks =? 0) then (indent_status li parentIndent, true, allowBlockStyles)
           else (indentStatus, atNewLine, false))
      else mret st
  end.

(** The implicit types are tried in order on a plain scalar. *)
Fixpoint resolve_implicit (types : list yaml_type) : M unit :=
  match types with
  | [] => mret tt
  | t :: ts =>
      s ← getS;
      ok ← lift (resolve t (sheap s) (result s));
      if (ok : bool) then
        '(v, h) ← lift (construct t (sheap s) (result s));
        _ ← modifyS (fun s => set_stag (Some (tag t)) (set_sheap h (set_result v s)));
        record_anchor v
      else resolve_implicit ts
  end.

Definition kind_name (k : option node_kind) : jsstr :=
  match k with
  | Some KScalar => js "scalar" | Some KSequence => js "sequence"
  | Some KMapping => js "mapping" | None => js "null"
  end.

Definition resolve_explicit (t : jsstr) : M unit :=
  s ← getS;
  match assoc_get (kind_table (typeMap E) (skind s)) t with
  | None => throwError (js "unknown tag !<" ++ t ++ js ">")
  | Some ty =>
      if negb (bool_decide (result s = VNull)) && negb (bool_decide (Some (kind ty) = skind s))
      then throwError (js "unacceptable node kind for !<" ++ t ++ js "> tag; it should be "
                       ++ [34] ++ kind_name (Some (kind ty)) ++ [34] ++ js ", not " ++ [34]
                       ++ kind_name (skind s) ++ [34])
      else
        ok ← lift (resolve ty (sheap s) (result s));
        if negb ok then
          throwError (js "cannot resolve a node with !<" ++ t ++ js "> explicit tag")
        else
          '(v, h) ← lift (construct ty (sheap s) (result s));
          _ ← modifyS (fun s => set_sheap h (set_result v s));
          record_anchor v
  end.

Definition resolve_node : M unit :=
  t ← gets stag;
  match t with
  | None => mret tt
  | Some t =>
      if jseqb t (js "!") then mret tt
      else if jseqb t (js "?") then resolve_implicit (implicitTypes E)
      else resolve_explicit t
  end.

Definition notify (ev : Z -> event) : M unit :=
  modifyS (fun s => if listener E then set_events (events s ++ [ev (position s)]) s else s).

(** [m1 || m2] on calls that report success. *)
Definition or_else (m1 m2 : M bool) : M bool :=
  b ← m1; if (b : bool) then mret true else m2.

Section compose.
Variable compose : Z -> context -> bool -> bool -> M bool.

Definition read_scalar (nodeContext : context) (flowIndent : Z) (allowBlockScalars : bool)
    : M bool :=
  hasContent ←
    (quoted ← or_else (if allowBlockScalars then readBlockScalar flowIndent else mret false)
                (or_else (readSingleQuotedScalar flowIndent)
                         (readDoubleQuotedScalar flowIndent));
     if (quoted : bool) then mret true
     else
       alias ← readAlias;
       if (alias : bool) then
         s ← getS;
         if bool_decide (stag s = None) && bool_decide (anchor s = None) then mret true
         else throwError (js "alias node should not have any properties")
       else
         plain ← readPlainScalar flowIndent (bool_decide (nodeContext = CONTEXT_FLOW_IN));
         if (plain : bool) then
           t ← gets stag;
           _ ← (if bool_decide (t = None) then modifyS (set_stag (Some (js "?")))
                else mret tt);
           mret true
         else mret false);
  r ← gets result;
  _ ← record_anchor r;
  mret hasContent.

Definition read_content (parentIndent : Z) (nodeContext : context) (indentStatus : Z)
    (allowBlockScalars allowBlockCollections : bool) : M bool :=
  let flowIndent :=
    match nodeContext with
    | CONTEXT_FLOW_IN | CONTEXT_FLOW_OUT => parentIndent
    | _ => parentIndent + 1
    end in
  blockIndent ← gets (fun s => position s - lineStart s);
  if indentStatus =? 1 then
    collection ←
      or_else (if allowBlockCollections then
                 or_else (readBlockSequence compose blockIndent)
                         (readBlockMapping compose blockIndent flowIndent)
               else mret false)
              (readFlowCollection compose flowIndent);
    if (collection : bool) then mret true
    else read_scalar nodeContext flowIndent allowBlockScalars
  else if indentStatus =? 0 then
    if allowBlockCollections then readBlockSequence compose blockIndent else mret false
  else mret false.

(** Where the node starts, relative to its parent: [(indentStatus, atNewLine)]. *)
Definition seek_node (parentIndent : Z) (allowToSeek : bool) : M (Z * bool) :=
  if allowToSeek then
    breaks ← skipSeparationSpace true (-1);
    li ← gets lineIndent;
    mret (if negb (breaks =? 0) then (indent_status li parentIndent, true) else (1, false))
  else mret (1, false).

Definition node_properties (parentIndent : Z) (allowBlockStyles : bool) (x : Z * bool)
    : M (Z * bool * bool) :=
  if x.1 =? 1 then property_loop fuel0 parentIndent allowBlockStyles (x, allowBlockStyles)
  else mret (x, allowBlockStyles).

Definition node_content (parentIndent : Z) (nodeContext : context)
    (allowBlockStyles allowCompact : bool) (x : Z * bool * bool) : M bool :=
  let '(indentStatus, atNewLine, allowBlockCollections) := x in
  if (indentStatus =? 1) || bool_decide (nodeContext = CONTEXT_BLOCK_OUT)
  then read_content parentIndent nodeContext indentStatus allowBlockStyles
         (allowBlockCollections && (atNewLine || allowCompact))
  else mret false.

Definition close_node (hasContent : bool) : M bool :=
  _ ← resolve_node;
  _ ← notify EvClose;
  s ← getS;
  mret (negb (bool_decide (stag s = None)) || negb (bool_decide (anchor s = None))
        || hasContent).

Definition composeNode_body (parentIndent : Z) (nodeContext : context)
    (allowToSeek allowCompact : bool) : M bool :=
  _ ← notify EvOpen;
  _ ← modifyS (fun s => set_result VNull (set_skind None (set_anchor None (set_stag None s))));
  let allowBlockStyles :=
    match nodeContext with CONTEXT_BLOCK_OUT | CONTEXT_BLOCK_IN => true | _ => false end in
  x ← seek_node parentIndent allowToSeek;
  y ← node_properties parentIndent allowBlockStyles x;
  hasContent ← node_content parentIndent nodeContext allowBlockStyles allowCompact y;
  close_node hasContent.
End compose.

Fixpoint composeNode (n : nat) (parentIndent : Z) (nodeContext : context)
    (allowToSeek allowCompact : bool) : M bool :=
  match n with
  | O => diverge
  | S n' => composeNode_body (composeNode n') parentIndent nodeContext allowToSeek allowCompact
  end.

(** ** Documents *)

(** The arguments of a directive; the loop ends at a comment, at the end of the
    line or at the end of the input. *)
Fixpoint directive_args (n : nat) (args : list jsstr) (ch : Z) : M (list jsstr * Z) :=
  match n with
  | O => diverge
  | S n' =>
      if ch =? 0 then mret (args, ch)
      else
        ch ← skip_while is_WHITE_SPACE ch;
        if ch =? 35 then
          ch ← do_skip_while in_comment;
          mret (args, ch)
        else if is_EOL ch then mret (args, ch)
        else
          start ← gets position;
          ch ← skip_while (fun c => negb (c =? 0) && negb (is_WS_OR_EOL c)) ch;
          p ← gets position;
          directive_args n' (args ++ [slice (input E) start p]) ch
  end.

Definition run_directive (directiveName : jsstr) (args : list jsstr) : M unit :=
  if jseqb directiveName (js "YAML") then handleYamlDirective args
  else if jseqb directiveName (js "TAG") then handleTagDirective args
  else throwWarning (js "unknown document directive " ++ [34] ++ directiveName ++ [34]).

Fixpoint directives_loop (n : nat) (hasDirectives : bool) : M bool :=
  match n with
  | O => diverge
  | S n' =>
      ch ← peek;
      if ch =? 0 then mret hasDirectives
      else
        _ ← skipSeparationSpace true (-1);
        ch ← peek;
        li ← gets lineIndent;
        if (0 <? li) || negb (ch =? 37) then mret hasDirectives
        else
          ch ← advance;
          start ← gets position;
          ch ← skip_while (fun c => negb (c =? 0) && negb (is_WS_OR_EOL c)) ch;
          p ← gets position;
          let directiveName := slice (input E) start p in
          if strlen directiveName <? 1 then
            throwError (js "directive name must not be less than one character in length")
          else
            '(args, ch) ← directive_args fuel0 [] ch;
            _ ← (if ch =? 0 then mret tt else readLineBreak);
            _ ← run_directive directiveName args;
            directives_loop n' true
  end.

(** The [---] marker: required after directives, optional otherwise. *)
Definition directives_end (hasDirectives : bool) : M unit :=
  li ← gets lineIndent;
  c0 ← peek; c1 ← peek_at 1; c2 ← peek_at 2;
  if (li =? 0) && (c0 =? 45) && (c1 =? 45) && (c2 =? 45) then
    _ ← move 3;
    _ ← skipSeparationSpace true (-1); mret tt
  else if hasDirectives then throwError (js "directives end mark is expected")
  else mret tt.

(** The root node of the document, pushed on [state.documents]. *)
Definition document_node (fuel : nat) (documentStart : Z) : M unit :=
  li ← gets lineIndent;
  _ ← composeNode fuel (li - 1) CONTEXT_BLOCK_OUT false true;
  _ ← skipSeparationSpace true (-1);
  s ← getS;
  _ ← (if checkLineBreaks s
          && PATTERN_NON_ASCII_LINE_BREAKS_test (slice (input E) documentStart (position s))
       then throwWarning (js "non-ASCII line breaks are interpreted as content")
       else mret tt);
  modifyS (fun s => set_documents (documents s ++ [result s]) s).

(** What may follow a document: a separator or the end of the stream. *)
Definition document_end : M unit :=
  sep ← at_document_separator;
  if (sep : bool) then
    ch ← peek;
    if ch =? 46 then
      _ ← move 3;
      _ ← skipSeparationSpace true (-1); mret tt
    else mret tt
  else
    p ← gets position;
    if p <? slength E - 1 then
      throwError (js "end of the stream or a document separator is expected")
    else mret tt.

Definition readDocument (fuel : nat) : M unit :=
  documentStart ← gets position;
  _ ← modifyS (fun s => set_anchorMap empty_object (set_tagMap []
                          (set_checkLineBreaks (legacy E) (set_version None s))));
  hasDirectives ← directives_loop fuel0 false;
  _ ← skipSeparationSpace true (-1);
  _ ← directives_end hasDirectives;
  _ ← document_node fuel documentStart;
  document_end.

(** [while (state.position < state.length - 1) readDocument(state)]. *)
Fixpoint documents_loop (n : nat) (fuel : nat) : M unit :=
  match n with
  | O => diverge
  | S n' =>
      p ← gets position;
      if p <? slength E - 1 then _ ← readDocument fuel; documents_loop n' fuel
      else mret tt
  end.

(** The leading spaces, then the documents. *)
Definition read_documents (fuel : nat) : M unit :=
  ch ← peek;
  _ ← indent_loop fuel0 ch;
  documents_loop fuel0 fuel.
End loader.

#[global] Arguments fuel0 : simpl never.

(** ** Entry points *)

Record load_options : Type := mkOptions {
  opt_filename : option jsstr;
  opt_schema : option schema;
  opt_onWarning : bool;
  opt_legacy : bool;
  opt_json : bool;
  opt_listener : bool
}.

Definition no_options : load_options := mkOptions None None false false false false.

(** A final line break is added and a byte order mark removed. *)
Definition prepare_input (text : jsstr) : jsstr :=
  match text with
  | [] => []
  | _ =>
      let last_unit := charCodeAt text (strlen text - 1) in
      let text := if negb (last_unit =? 10) && negb (last_unit =? 13) then text ++ [10] else text in
      if charCodeAt text 0 =? 65279 then slice_from text 1 else text
  end.

Definition make_env (hs : Host) (text : jsstr) (o : load_options) : Env :=
  let sch := default (DEFAULT_FULL_SCHEMA hs) (opt_schema o) in
  mkEnv (text ++ [0]) (strlen text)
        (match opt_filename o with Some (c :: f) => Some (c :: f) | _ => None end)
        (opt_onWarning o) (opt_legacy o) (opt_json o) (opt_listener o)
        (compiledImplicit sch) (compiledTypeMap sch) hs.

(** The state of a new loader; the heap holds the objects of earlier calls. *)
Definition initial_state (h : heap) : State :=
  mkState 0 0 0 0 [] None false [] empty_object None None None VUndefined h [] [].

(** The depth of nested calls of [composeNode]: two for each position and one
    more. *)
Definition compose_fuel (text : jsstr) : nat := 2 * length text + 2.

Definition loadDocuments (hs : Host) (h : heap) (text : jsstr) (o : load_options)
    : outcome jserror (list value * State) :=
  let text := prepare_input text in
  let E := make_env hs text o in
  match read_documents E (compose_fuel text) (initial_state h) with
  | Ret (_, s) => Ret (documents s, s)
  | Throw e => Throw e
  | OutOfFuel => OutOfFuel
  end.

Definition load (hs : Host) (h : heap) (text : jsstr) (o : load_options)
    : outcome jserror (value * State) :=
  '(docs, s) ← loadDocuments hs h text o;
  match docs with
  | [] => Ret (VUndefined, s)
  | [d] => Ret (d, s)
  | _ => Throw (EYaml (mkYAMLException
            (js "expected a single document in the stream, but found more") None))
  end.

(** [loadAll]: with a function the documents are handed to it in order,
    otherwise they are returned. *)
Inductive loadAll_result : Type :=
| Documents (docs : list value)
| Iterated (calls : list value).

Definition loadAll (hs : Host) (h : heap) (text : jsstr) (iterator : bool) (o : load_options)
    : outcome jserror (loadAll_result * State) :=
  '(docs, s) ← loadDocuments hs h text o;
  Ret (if iterator then Iterated docs else Documents docs, s).

(** [common.extend({schema: DEFAULT_SAFE_SCHEMA}, options)]. *)
Definition safe_options (hs : Host) (o : load_options) : load_options :=
  mkOptions (opt_filename o)
            (Some (default (DEFAULT_SAFE_SCHEMA hs) (opt_schema o)))
            (opt_onWarning o) (opt_legacy o) (opt_json o) (opt_listener o).

(** Without an output function the extended options are passed in the place of
    the iterator, and [loadAll] gets no options. *)
Definition safeLoadAll (hs : Host) (h : heap) (text : jsstr) (output : bool) (o : load_options)
    : outcome jserror (loadAll_result * State) :=
  if output then loadAll hs h text true (safe_options hs o)
  else loadAll hs h text false no_options.

Definition safeLoad (hs : Host) (h : heap) (text : jsstr) (o : load_options)
    : outcome jserror (value * State) :=
  load hs h text (safe_options hs o).
