(* ===== verification/YamlStore.v ===== *)
(** * js-yaml: what a mapping holds

    [storeMappingPair] is called once per entry of a mapping; a merge entry
    copies the keys of other mappings.  The mutable result object and the table
    of overridable keys are shown to implement a plain specification: the value
    of a key is the one written explicitly, else that of the first merged
    mapping that has it, and writing a key twice is an error. *)

From S2P Require Import JsPrelude JsNumber JsValue JsRegExp YamlCommon YamlTypes YamlSchema.
From S2P Require Import YamlLoader.

(** ** Entries of a mapping and their specification *)

Inductive entry : Type :=
| Explicit (key : jsstr) (v : value)
| Merge (source : nat).

(** The calls the loader makes for a list of entries, on the mapping at [l]. *)
Definition store_entry (E : Env) (l : nat) (ok : object) (e : entry) : M object :=
  '(_, ok') ← match e with
              | Explicit key v => storeMappingPair E (Some l) ok None (VString key) v None
              | Merge src => storeMappingPair E (Some l) ok (Some merge_tag) (VString (js "<<"))
                               (VRef src) None
              end;
  mret ok'.

Fixpoint store_entries (E : Env) (l : nat) (ok : object) (es : list entry) : M object :=
  match es with
  | [] => mret ok
  | e :: es' => ok' ← store_entry E l ok e; store_entries E l ok' es'
  end.

Definition own_value (h : heap) (src : nat) (k : jsstr) : option value :=
  match h !! src with Some (OObject o) => assoc_get (props o) k | _ => None end.

(** The value written explicitly for [k], the last one if there are several. *)
Fixpoint explicit_value (es : list entry) (k : jsstr) : option value :=
  match es with
  | [] => None
  | Explicit key v :: es' =>
      match explicit_value es' k with
      | Some w => Some w
      | None => if jseqb key k then Some v else None
      end
  | Merge _ :: es' => explicit_value es' k
  end.

(** The value of [k] in the first merged mapping that has it. *)
Fixpoint merged_value (h : heap) (es : list entry) (k : jsstr) : option value :=
  match es with
  | [] => None
  | Merge src :: es' =>
      match own_value h src k with Some v => Some v | None => merged_value h es' k end
  | Explicit _ _ :: es' => merged_value h es' k
  end.

Definition mapping_value_of (h : heap) (es : list entry) (k : jsstr) : option value :=
  match explicit_value es k with Some v => Some v | None => merged_value h es k end.

(** The keys written explicitly, in order. *)
Fixpoint explicit_keys (es : list entry) : list jsstr :=
  match es with
  | [] => []
  | Explicit key _ :: es' => key :: explicit_keys es'
  | Merge _ :: es' => explicit_keys es'
  end.

(** The entries the theorems are about: no key reaches the prototype setter, and
    what is merged is another mapping. *)
Definition plain_entry (h : heap) (l : nat) (e : entry) : Prop :=
  match e with
  | Explicit key _ => key <> proto_key
  | Merge src => src <> l /\ exists os, h !! src = Some (OObject os)
                                      /\ Forall (fun k => k <> proto_key) (props os).*1
  end.

(** ** Assignments to keys other than [__proto__] *)

Lemma object_assign_plain h self o k v :
  k <> proto_key -> object_assign h self o k v = Ret (Obj (assoc_set (props o) k v) (proto o)).
Proof.
  intros Hk%jseqb_neq. unfold object_assign. rewrite Hk. by destruct (chain_lookup _ _ _ _).
Qed.

(** The state whose heap is [h0] with the mapping [o] at [l]. *)
Definition with_mapping (h0 : heap) (l : nat) (o : object) (s : State) : State :=
  set_sheap (<[l := OObject o]> h0) s.

Lemma with_mapping_twice h0 l o o' s :
  with_mapping h0 l o' (with_mapping h0 l o s) = with_mapping h0 l o' s.
Proof. by destruct s. Qed.

Section mapping.
Context (h0 : heap) (l : nat) (Hl : (l < length h0)%nat).

Lemma mapping_lookup o : <[l := OObject o]> h0 !! l = Some (OObject o).
Proof. by apply list_lookup_insert_eq. Qed.

Lemma wp_heap_assign_plain o k v (Q : unit -> State -> Prop) R s :
  k <> proto_key ->
  Q tt (with_mapping h0 l (Obj (assoc_set (props o) k v) (proto o)) s) ->
  wp (heap_assign l k v) Q R (with_mapping h0 l o s).
Proof.
  intros Hk HQ. apply wp_bind, wp_gets. simpl. rewrite mapping_lookup.
  apply wp_bind, wp_liftO. rewrite object_assign_plain by done. simpl. apply wp_modifyS. simpl.
  unfold hset. rewrite list_insert_insert_eq. rewrite <- (with_mapping_twice _ _ o) in HQ. exact HQ.
Qed.

Lemma wp_local_assign_plain o k v (Q : object -> State -> Prop) R s :
  k <> proto_key -> Q (Obj (assoc_set (props o) k v) (proto o)) s ->
  wp (local_assign o k v) Q R s.
Proof.
  intros Hk HQ. apply wp_bind, wp_gets, wp_liftO. by rewrite object_assign_plain.
Qed.

Lemma elem_of_other {A} (x y : A) xs : x <> y -> x ∈ y :: xs <-> x ∈ xs.
Proof. intros. rewrite elem_of_cons. naive_solver. Qed.

Lemma decide_other {B} (x y : jsstr) xs (a b : B) :
  x <> y ->
  (if decide (x ∈ xs) then a else b) = (if decide (x ∈ y :: xs) then a else b).
Proof. intros Hne. apply decide_ext. symmetry. by apply elem_of_other. Qed.

(** One merged mapping. *)
Lemma wp_merge_keys_spec src os keys od ok (Q : object -> State -> Prop) R s :
  src <> l -> h0 !! src = Some (OObject os) ->
  Forall (fun k => k <> proto_key /\ is_Some (assoc_get (props os) k)) keys ->
  (forall od' ok',
     (forall k, assoc_get (props od') k
                = match assoc_get (props od) k with
                  | Some v => Some v
                  | None => if decide (k ∈ keys) then assoc_get (props os) k else None end) ->
     (forall k, hasOwn ok' k = hasOwn ok k || (bool_decide (k ∈ keys) && negb (hasOwn od k))) ->
     Q ok' (with_mapping h0 l od' s)) ->
  wp (merge_keys l src keys ok) Q R (with_mapping h0 l od s).
Proof.
  intros Hsrc Hos. revert od ok.
  induction keys as [|key keys IH]; intros od ok Hkeys HQ; simpl.
  - apply wp_ret, HQ; intros k; simpl; [by destruct (assoc_get _ _)|by rewrite orb_false_r].
  - apply Forall_cons in Hkeys as [[Hp [v Hv]] Hkeys]. apply wp_bind, wp_gets. simpl.
    unfold heap_hasOwn. rewrite mapping_lookup. unfold hasOwn in *. wp_case Hown.
    + apply IH; [done|]. intros od' ok' Hod Hok. apply HQ; intros k.
      * rewrite Hod. destruct (assoc_get (props od) k) eqn:Hg; [done|].
        destruct (decide (k = key)) as [->|].
        { unfold assoc_has in Hown. by rewrite Hg in Hown. }
        apply decide_other. congruence.
      * rewrite Hok. f_equal. destruct (decide (k = key)) as [->|].
        { rewrite Hown. simpl. by rewrite !andb_false_r. }
        f_equal. symmetry. apply bool_decide_ext, elem_of_other; congruence.
    + rewrite (list_lookup_insert_ne _ l src) by done. rewrite Hos. simpl. rewrite Hv. simpl.
      apply wp_bind, wp_heap_assign_plain; [done|].
      apply wp_bind, wp_local_assign_plain; [done|]. apply IH; [done|].
      intros od' ok' Hod Hok. simpl in *. apply HQ; intros k.
      * rewrite Hod, assoc_get_set. destruct (jseqb key k) eqn:Hk.
        { apply jseqb_eq in Hk as <-. unfold assoc_has in Hown.
          destruct (assoc_get (props od) key); [done|]. by rewrite decide_True by (by left). }
        apply jseqb_neq in Hk. destruct (assoc_get (props od) k); [done|].
        apply decide_other. congruence.
      * rewrite Hok. unfold assoc_has. rewrite !assoc_get_set. destruct (jseqb key k) eqn:Hk.
        { apply jseqb_eq in Hk as <-. unfold assoc_has in Hown.
          destruct (assoc_get (props od) key); [done|]. rewrite (bool_decide_true (key ∈ key :: keys)) by (by left).
          by rewrite orb_true_r. }
        apply jseqb_neq in Hk. do 2 f_equal. symmetry. apply bool_decide_ext, elem_of_other; congruence.
Qed.

Lemma wp_store_explicit E ok key v o (Q : object -> State -> Prop) R s :
  key <> proto_key ->
  negb (json E) && negb (hasOwn ok key) && hasOwn o key = false ->
  Q (Obj (assoc_del (props ok) key) (proto ok))
    (with_mapping h0 l (Obj (assoc_set (props o) key v) (proto o)) s) ->
  wp (store_entry E l ok (Explicit key v)) Q R (with_mapping h0 l o s).
Proof.
  intros Hk Hdup HQ. unfold store_entry, storeMappingPair, lift. apply wp_bind.
  apply wp_bind, wp_gets, wp_bind, wp_liftO. rewrite value_toString_string. simpl.
  apply wp_bind, wp_ret, wp_bind, wp_gets.
  simpl. unfold heap_hasOwn. rewrite mapping_lookup, Hdup. apply wp_bind, wp_ret, wp_bind.
  apply wp_heap_assign_plain; [done|]. by apply wp_ret, wp_ret.
Qed.

Lemma wp_store_duplicate E ok key v o (Q : object -> State -> Prop) (R : jserror -> Prop) s :
  negb (json E) && negb (hasOwn ok key) && hasOwn o key = true ->
  (forall m, R (EYaml (mkYAMLException (js "duplicated mapping key") (Some m)))) ->
  wp (store_entry E l ok (Explicit key v)) Q R (with_mapping h0 l o s).
Proof.
  intros Hdup HR. unfold store_entry, storeMappingPair, lift. apply wp_bind.
  apply wp_bind, wp_gets, wp_bind, wp_liftO. rewrite value_toString_string. simpl.
  apply wp_bind, wp_ret, wp_bind, wp_gets.
  simpl. unfold heap_hasOwn. rewrite mapping_lookup, Hdup. apply wp_bind, wp_bind, wp_ret. apply HR.
Qed.

Lemma wp_store_merge E ok src os od (Q : object -> State -> Prop) R s :
  src <> l -> h0 !! src = Some (OObject os) -> Forall (fun k => k <> proto_key) (props os).*1 ->
  (forall od' ok',
     (forall k, assoc_get (props od') k
                = match assoc_get (props od) k with
                  | Some v => Some v
                  | None => own_value h0 src k end) ->
     (forall k, hasOwn ok' k = hasOwn ok k || (hasOwn os k && negb (hasOwn od k))) ->
     Q ok' (with_mapping h0 l od' s)) ->
  wp (store_entry E l ok (Merge src)) Q R (with_mapping h0 l od s).
Proof.
  intros Hsrc Hos Hkeys HQ. unfold store_entry, storeMappingPair, lift. apply wp_bind.
  apply wp_bind, wp_gets, wp_bind, wp_liftO. rewrite value_toString_string. simpl.
  apply wp_bind, wp_ret, wp_bind, wp_gets. simpl.
  rewrite (list_lookup_insert_ne _ l src), Hos by done. simpl.
  apply wp_bind, wp_bind. unfold mergeMappings. apply wp_bind, wp_gets. simpl.
  rewrite (list_lookup_insert_ne _ l src), Hos by done.
  assert (Hmem : forall k, k ∈ order_keys (props os).*1 <-> is_Some (assoc_get (props os) k)).
  { intros k. by rewrite order_keys_elem, assoc_get_Some_key. }
  apply (wp_merge_keys_spec src os); [done|done| |].
  { apply Forall_forall. intros k Hk. split; [|by apply Hmem].
    rewrite Forall_forall in Hkeys. apply Hkeys. by apply order_keys_elem. }
  intros od' ok' Hod Hok. apply wp_ret, wp_ret, wp_ret, HQ.
  - intros k. rewrite Hod. unfold own_value. rewrite Hos. destruct (assoc_get (props od) k); [done|].
    case_decide as Hk; [done|]. rewrite Hmem in Hk. by apply eq_None_not_Some in Hk.
  - intros k. rewrite Hok. do 2 f_equal. unfold hasOwn, assoc_has. apply eq_true_iff_eq.
    rewrite bool_decide_eq_true, Hmem, <- not_eq_None_Some. by destruct (assoc_get (props os) k).
Qed.

(** What the result object and the overridable keys hold after [es]. *)
Record stored (es : list entry) (o ok : object) : Prop := {
  stored_value : forall k, assoc_get (props o) k = mapping_value_of h0 es k;
  stored_overridable : forall k,
    hasOwn ok k = match explicit_value es k with
                  | Some _ => false
                  | None => bool_decide (merged_value h0 es k <> None) end
}.

Lemma explicit_value_app es1 es2 k :
  explicit_value (es1 ++ es2) k
  = match explicit_value es2 k with Some v => Some v | None => explicit_value es1 k end.
Proof.
  induction es1 as [|[key v|src] es1 IH]; simpl; [by destruct (explicit_value es2 k)| |done].
  rewrite IH. by destruct (explicit_value es2 k).
Qed.

Lemma merged_value_app es1 es2 k :
  merged_value h0 (es1 ++ es2) k
  = match merged_value h0 es1 k with Some v => Some v | None => merged_value h0 es2 k end.
Proof.
  induction es1 as [|[key v|src] es1 IH]; simpl; [done|done|].
  rewrite IH. by destruct (own_value h0 src k).
Qed.

Lemma explicit_keys_app es1 es2 : explicit_keys (es1 ++ es2) = explicit_keys es1 ++ explicit_keys es2.
Proof. induction es1 as [|[key v|src] es1 IH]; simpl; [done|by rewrite IH|done]. Qed.

Lemma explicit_value_key es k : explicit_value es k <> None <-> k ∈ explicit_keys es.
Proof.
  induction es as [|[key v|src] es IH]; simpl; [by rewrite elem_of_nil| |done].
  rewrite elem_of_cons, <- IH. destruct (explicit_value es k); [naive_solver|].
  destruct (jseqb key k) eqn:Hk; [apply jseqb_eq in Hk|apply jseqb_neq in Hk]; naive_solver.
Qed.

(** The test for a repeated key. *)
Lemma stored_duplicate es o ok key :
  stored es o ok -> negb (hasOwn ok key) && hasOwn o key = bool_decide (key ∈ explicit_keys es).
Proof.
  intros [Hv Hok]. unfold hasOwn at 2. unfold assoc_has.
  rewrite Hok, Hv. unfold mapping_value_of. apply eq_true_iff_eq.
  rewrite bool_decide_eq_true, <- explicit_value_key.
  destruct (explicit_value es key), (merged_value h0 es key); simpl; naive_solver.
Qed.

Lemma stored_explicit es o ok key v :
  stored es o ok ->
  stored (es ++ [Explicit key v]) (Obj (assoc_set (props o) key v) (proto o))
    (Obj (assoc_del (props ok) key) (proto ok)).
Proof.
  intros [Hv Hok]. split; intros k; unfold mapping_value_of; rewrite explicit_value_app; simpl.
  - rewrite assoc_get_set. destruct (jseqb key k); [done|]. rewrite Hv. unfold mapping_value_of.
    rewrite merged_value_app. simpl. destruct (explicit_value es k); [done|].
    by destruct (merged_value h0 es k).
  - specialize (Hok k). unfold hasOwn, assoc_has in *. simpl. rewrite assoc_get_del.
    destruct (jseqb key k); [done|]. rewrite Hok, merged_value_app. simpl.
    destruct (explicit_value es k); [done|]. by destruct (merged_value h0 es k).
Qed.

Lemma stored_merge es o ok src os o' ok' :
  h0 !! src = Some (OObject os) -> stored es o ok ->
  (forall k, assoc_get (props o') k
             = match assoc_get (props o) k with Some v => Some v | None => own_value h0 src k end) ->
  (forall k, hasOwn ok' k = hasOwn ok k || (hasOwn os k && negb (hasOwn o k))) ->
  stored (es ++ [Merge src]) o' ok'.
Proof.
  intros Hos [Hv Hok] Hv' Hok'. split; intros k; unfold mapping_value_of;
    rewrite explicit_value_app, merged_value_app; simpl.
  - rewrite Hv', Hv. unfold mapping_value_of. destruct (explicit_value es k); [done|].
    destruct (merged_value h0 es k); [done|]. by destruct (own_value h0 src k).
  - rewrite Hok', Hok. unfold hasOwn, assoc_has, own_value. rewrite Hv, Hos.
    unfold mapping_value_of. destruct (explicit_value es k); [by rewrite andb_false_r|].
    destruct (merged_value h0 es k); [done|].
    by destruct (assoc_get (props os) k).
Qed.

Lemma wp_store_entries E es done o ok s :
  stored done o ok -> Forall (plain_entry h0 l) es ->
  (json E = true \/ NoDup (explicit_keys done)) ->
  wp (store_entries E l ok es)
    (fun _ s' => (json E = true \/ NoDup (explicit_keys (done ++ es)))
                 /\ exists o' ok', stored (done ++ es) o' ok' /\ s' = with_mapping h0 l o' s)
    (fun e => json E = false /\ ~ NoDup (explicit_keys (done ++ es))
              /\ exists m, e = EYaml (mkYAMLException (js "duplicated mapping key") (Some m)))
    (with_mapping h0 l o s).
Proof.
  revert done o ok. induction es as [|e es IH]; intros done o ok Hst Hes Hnd; simpl.
  - apply wp_ret. rewrite app_nil_r. eauto.
  - apply Forall_cons in Hes as [He Hes]. apply wp_bind.
    replace (done ++ e :: es) with ((done ++ [e]) ++ es) by by rewrite <- app_assoc.
    destruct e as [key v|src]; simpl in He.
    + pose proof (stored_duplicate _ _ _ key Hst) as Hdup.
      destruct (negb (json E) && bool_decide (key ∈ explicit_keys done)) eqn:Htest.
      * apply wp_store_duplicate; [by rewrite <- andb_assoc, Hdup|]. intros m.
        apply andb_true_iff in Htest as [Hj Hin%bool_decide_eq_true].
        split_and!; [by destruct (json E)| |by eexists].
        rewrite !explicit_keys_app. simpl. rewrite !NoDup_app. intros ([_ [Hno _]] & _).
        apply (Hno key Hin). by left.
      * apply wp_store_explicit; [done|by rewrite <- andb_assoc, Hdup|].
        apply IH; [by apply stored_explicit|done|].
        destruct (json E) eqn:Hj; [by left|]. right. destruct Hnd as [|Hnd]; [done|].
        apply bool_decide_eq_false in Htest. rewrite explicit_keys_app. simpl. apply NoDup_app.
        split_and!; [done| |apply NoDup_singleton].
        intros k Hk ->%list_elem_of_singleton. done.
    + destruct He as (Hne & os & Hos & Hkeys). apply (wp_store_merge E ok src os); [done..|].
      intros od' ok' Hod Hok. apply IH; [by eapply stored_merge|done|].
      rewrite explicit_keys_app. simpl. by rewrite app_nil_r.
Qed.
End mapping.

(** ** Theorems *)

Lemma with_mapping_id h0 l o s :
  sheap s = h0 -> h0 !! l = Some (OObject o) -> with_mapping h0 l o s = s.
Proof.
  intros <- Hl. unfold with_mapping. rewrite list_insert_id by done. by destruct s.
Qed.

Lemma stored_nil h0 : stored h0 [] empty_object empty_object.
Proof. by split. Qed.

(** C20: storing the entries of a mapping one after the other implements the
    specification of a YAML mapping with merge keys: every key ends up with the
    value written explicitly for it, wherever the merge entries stand, and
    otherwise with the value of the first merged mapping that has it; nothing
    else in the state changes. *)
Theorem mapping_stores_entries E h l es s :
  sheap s = h -> h !! l = Some (OObject empty_object) -> Forall (plain_entry h l) es ->
  (json E = true \/ NoDup (explicit_keys es)) ->
  exists ok o,
    store_entries E l empty_object es s = Ret (ok, set_sheap (<[l := OObject o]> h) s)
    /\ forall k, assoc_get (props o) k = mapping_value_of h es k.
Proof.
  intros Hs Hl Hes Hnd. pose proof (lookup_lt_Some _ _ _ Hl) as Hlt.
  pose proof (wp_store_entries h l Hlt E es [] empty_object empty_object s (stored_nil h) Hes
                (or_intror (NoDup_nil_2))) as Hwp.
  rewrite (with_mapping_id h l empty_object s Hs Hl) in Hwp. unfold wp in Hwp.
  destruct (store_entries E l empty_object es s) as [[ok s']|e|]; [|exfalso|done].
  - destruct Hwp as (_ & o & ok' & [Hv _] & ->). by exists ok, o.
  - destruct Hwp as (Hj & Hno & _). simpl in Hno. destruct Hnd; [congruence|done].
Qed.

Definition demo_env (text : jsstr) : Env := make_env bare_host (prepare_input text) no_options.

(** [{<<: {a: 1, b: 2}, b: 3}]: the explicit [b] wins over the merged one. *)
Lemma mapping_stores_entries_witness :
  let v z := VNumber (num_of_Z z) in
  let h := [OObject empty_object; OObject (Obj [(js "a", v 1); (js "b", v 2)] ProtoObject)] in
  exists ok o,
    store_entries (demo_env []) 0 empty_object [Merge 1; Explicit (js "b") (v 3)]
      (initial_state h)
    = Ret (ok, set_sheap (<[0%nat := OObject o]> h) (initial_state h))
    /\ forall k, assoc_get (props o) k
                 = mapping_value_of h [Merge 1; Explicit (js "b") (v 3)] k.
Proof.
  intros v h. apply (mapping_stores_entries (demo_env []) h 0); [reflexivity|reflexivity| |].
  - constructor; [|constructor; [discriminate|constructor]]. split; [discriminate|].
    eexists. split; [reflexivity|]. repeat constructor; discriminate.
  - right. repeat constructor. apply not_elem_of_nil.
Defined.

(** Without the [json] option, storing fails exactly for a key that is written
    explicitly twice, no matter what was merged in between. *)
Lemma duplicates_decide E h l es s :
  sheap s = h -> h !! l = Some (OObject empty_object) -> Forall (plain_entry h l) es ->
  json E = false ->
  match store_entries E l empty_object es s with
  | Ret _ => NoDup (explicit_keys es)
  | Throw e => ~ NoDup (explicit_keys es)
               /\ exists m, e = EYaml (mkYAMLException (js "duplicated mapping key") (Some m))
  | OutOfFuel => False
  end.
Proof.
  intros Hs Hl Hes Hj. pose proof (lookup_lt_Some _ _ _ Hl) as Hlt.
  pose proof (wp_store_entries h l Hlt E es [] empty_object empty_object s (stored_nil h) Hes
                (or_intror (NoDup_nil_2))) as Hwp.
  rewrite (with_mapping_id h l empty_object s Hs Hl) in Hwp. unfold wp in Hwp.
  destruct (store_entries E l empty_object es s) as [[ok s']|e|]; [|by destruct Hwp|done].
  by destruct Hwp as ([Hj'|Hnd'] & _); [congruence|].
Qed.

(** The state after an object was given the prototype [p]. *)
Definition with_proto (l : nat) (o : object) (p : protolink) (s : State) : State :=
  set_sheap (<[l := OObject (Obj (props o) p)]> (sheap s)) s.

(** The key [__proto__] is not stored: a collection given as its value becomes the
    prototype of the result, whose own properties stay as they were. *)
Lemma proto_key_stored E l v o ok s :
  sheap s !! l = Some (OObject o) -> proto o = ProtoObject -> hasOwn o proto_key = false ->
  let ok' := Obj (assoc_del (props ok) proto_key) (proto ok) in
  store_entry E l ok (Explicit proto_key v) s
  = match v with
    | VRef m => if chain_reaches (length (sheap s)) (sheap s) l m
                then Throw (ENative (TypeError (js "Cyclic __proto__ value")))
                else Ret (ok', with_proto l o (ProtoRef m) s)
    | VNull => Ret (ok', with_proto l o ProtoNull s)
    | _ => Ret (ok', s)
    end.
Proof.
  intros Hl Hp Hown ok'.
  assert (Hget : assoc_get (props o) proto_key = None).
  { unfold hasOwn, assoc_has in Hown. by destruct (assoc_get _ _). }
  assert (Hsame : set_sheap (<[l := OObject o]> (sheap s)) s = s)
    by (rewrite list_insert_id by done; by destruct s).
  unfold store_entry, storeMappingPair, lift, heap_assign, lift, mbind, SE_bind, gets, liftO.
  rewrite value_toString_string. simpl. unfold heap_hasOwn. rewrite Hl, Hown, andb_false_r.
  unfold mret, SE_ret. simpl. rewrite Hl. unfold object_assign.
  replace (chain_lookup _ _ _ _) with EndObject
    by (destruct (length (sheap s)); simpl; by rewrite Hget, Hp).
  rewrite jseqb_refl. destruct v as [| | | | |m]; simpl; unfold hset; rewrite ?Hsame; try done.
  by destruct (chain_reaches _ _ _ _).
Qed.

(** C35: without the [json] option, a mapping is stored exactly when no key is written
    explicitly twice: an explicit key may override a merged one, wherever the merge
    stands, and a second explicit one is refused with "duplicated mapping key".
    The key [__proto__] is not stored in a mapping that has its first prototype: a
    collection given as its value becomes the prototype of the mapping, [null] leaves
    the mapping without a prototype, a scalar is dropped, and a collection that inherits
    from the mapping itself makes the loader throw a [TypeError]; the own properties
    stay as they were. *)
Theorem mapping_guards_keys E l s :
  (forall h es, sheap s = h -> h !! l = Some (OObject empty_object) -> Forall (plain_entry h l) es ->
     json E = false ->
     (NoDup (explicit_keys es) <-> exists r, store_entries E l empty_object es s = Ret r)
     /\ (~ NoDup (explicit_keys es) <-> exists m, store_entries E l empty_object es s
               = Throw (EYaml (mkYAMLException (js "duplicated mapping key") (Some m)))))
  /\ (forall v o ok, sheap s !! l = Some (OObject o) -> proto o = ProtoObject -> hasOwn o proto_key = false ->
     let ok' := Obj (assoc_del (props ok) proto_key) (proto ok) in
     store_entry E l ok (Explicit proto_key v) s
     = match v with
       | VRef m => if chain_reaches (length (sheap s)) (sheap s) l m
                   then Throw (ENative (TypeError (js "Cyclic __proto__ value")))
                   else Ret (ok', with_proto l o (ProtoRef m) s)
       | VNull => Ret (ok', with_proto l o ProtoNull s)
       | _ => Ret (ok', s)
       end).
Proof.
  split; [|intros; by apply proto_key_stored]. intros h es Hs Hl Hes Hj.
  pose proof (duplicates_decide E h l es s Hs Hl Hes Hj) as Hd.
  destruct (store_entries E l empty_object es s) as [r|e|]; [| |done].
  - split; split; try done; [by exists r|by intros [m Hm]].
  - destruct Hd as [Hno [m ->]]. split; split; try done; [by intros [r Hr]|by exists m].
Qed.

Lemma mapping_guards_keys_witness :
  let h := [OObject empty_object; OObject (Obj [(js "admin", VBool true)] ProtoObject)] in
  (exists m,
    store_entries (demo_env []) 0 empty_object
      [Explicit (js "a") VNull; Merge 1; Explicit (js "a") (VBool true)] (initial_state h)
    = Throw (EYaml (mkYAMLException (js "duplicated mapping key") (Some m))))
  /\ store_entry (demo_env []) 0 empty_object (Explicit proto_key (VRef 1)) (initial_state h)
     = Ret (empty_object,
         set_sheap [OObject (Obj [] (ProtoRef 1));
                    OObject (Obj [(js "admin", VBool true)] ProtoObject)] (initial_state h)).
Proof.
  intros h. destruct (mapping_guards_keys (demo_env []) 0 (initial_state h)) as [H1 H2]. split.
  - apply (H1 h); [reflexivity|reflexivity| |reflexivity|].
    + constructor; [discriminate|constructor; [|constructor; [discriminate|constructor]]].
      split; [discriminate|]. eexists. split; [reflexivity|]. repeat constructor; discriminate.
    + intros [Hno _]%NoDup_cons. apply Hno. by left.
  - apply (H2 (VRef 1) empty_object); reflexivity.
Defined.
