(* ===== verification/YamlLoaderTotal.v ===== *)
(** * js-yaml: the loader is total and keeps its invariant

    Every function of the loader, run from a well-formed state, either returns
    or throws (no loop exhausts its fuel), never moves the cursor backwards,
    never moves it past the terminating zero, throws exceptions whose mark
    lies inside the input, and allocates only the kinds of objects its schema's
    constructors do. *)

From S2P Require Import JsPrelude JsNumber JsValue JsRegExp YamlCommon YamlTypes YamlSchema.
From S2P Require Import YamlLoader.

Ltac st := cbn [position line lineStart lineIndent documents version checkLineBreaks tagMap
  anchorMap skind stag anchor result sheap warnings events set_position set_line set_lineStart
  set_lineIndent set_documents set_version set_checkLineBreaks set_tagMap set_anchorMap set_skind
  set_stag set_anchor set_result set_sheap set_warnings set_events] in *.

(** ** What the environment provides

    [OK] tells which objects may be in the heap; the loader itself allocates
    plain objects and arrays. *)

Class Admits (OK : hobj -> Prop) : Prop := {
  admits_object : forall o, OK (OObject o);
  admits_array : forall es, OK (OArray es)
}.

(** A type whose resolver and constructor always return or throw, and whose
    constructor adds only objects that are [OK]. *)
Record good_type (OK : hobj -> Prop) (t : yaml_type) : Prop := {
  resolve_total : forall h v, resolve t h v <> OutOfFuel;
  construct_total : forall h v, construct t h v <> OutOfFuel;
  construct_heap : forall h v v' h', construct t h v = Ret (v', h') -> Forall OK h -> Forall OK h'
}.

Definition good_table (OK : hobj -> Prop) (ts : list (jsstr * yaml_type)) : Prop :=
  Forall (fun p => good_type OK (snd p)) ts.

(** The input ends with a line break and a zero, as [loadDocuments] makes it. *)
Record wf_env (OK : hobj -> Prop) (E : Env) : Prop := {
  wf_input : exists body, input E = body ++ [0] /\ slength E = strlen body
    /\ (body = [] \/ exists b c, body = b ++ [c] /\ is_EOL c = true);
  wf_implicit : Forall (good_type OK) (implicitTypes E);
  wf_typeMap : forall k, good_table OK (kind_table (typeMap E) k)
}.

Section total.
Context (OK : hobj -> Prop) `{!Admits OK}.
Variable E : Env.
Hypothesis HE : wf_env OK E.

Abbreviation L := (slength E).
Abbreviation at_ := (charCodeAt (input E)).
Definition cur (s : State) : Z := at_ (position s).

(** ** The terminated input *)

Lemma at_end : at_ L = 0.
Proof.
  destruct (wf_input OK E HE) as (b & -> & -> & _). by apply charCodeAt_mid.
Qed.

Lemma length_input : Z.of_nat (length (input E)) = L + 1.
Proof.
  destruct (wf_input OK E HE) as (b & -> & -> & _).
  rewrite length_app. unfold strlen. simpl. lia.
Qed.

Lemma L_nonneg : 0 <= L.
Proof. destruct (wf_input OK E HE) as (b & _ & -> & _). unfold strlen. lia. Qed.

Lemma fuel0_eq : Z.of_nat (fuel0 E) = L + 2.
Proof. unfold fuel0. pose proof length_input. lia. Qed.

(** A position with a unit other than zero is before the end. *)
Lemma before_end p : p <= L -> at_ p <> 0 -> p < L.
Proof. intros Hp Hc. destruct (decide (p = L)) as [->|]; [|lia]. by rewrite at_end in Hc. Qed.

(** The unit before the terminator is a line break. *)
Lemma last_is_EOL : 0 < L -> is_EOL (at_ (L - 1)) = true.
Proof.
  destruct (wf_input OK E HE) as (b & -> & -> & [->|(b' & c & -> & Hc)]).
  - unfold strlen. simpl. lia.
  - intros _. rewrite <- app_assoc. simpl.
    by rewrite charCodeAt_mid by (autorewrite with js; lia).
Qed.

(** ** Well-formed cursors *)

Record Inv (s : State) : Prop := {
  inv_start : 0 <= lineStart s;
  inv_pos : lineStart s <= position s;
  inv_end : position s <= L;
  inv_indent : 0 <= lineIndent s;
  inv_column : lineIndent s <= position s - lineStart s;
  inv_heap : Forall OK (sheap s)
}.

(** The exceptions a run may throw: marks lie inside the input. *)
Definition err_ok (e : jserror) : Prop :=
  match e with
  | EYaml x => match mark x with
               | Some m => 0 <= mposition m <= L /\ buffer m = input E
               | None => True end
  | ENative _ => True
  end.

(** The cursor did not go back, and is untouched if it did not advance. *)
Definition adv (s s' : State) : Prop :=
  position s <= position s' /\
  (position s' = position s -> lineStart s' = lineStart s /\ lineIndent s' = lineIndent s).

Lemma adv_refl s : adv s s.
Proof. split; [lia|done]. Qed.

Lemma adv_trans s1 s2 s3 : adv s1 s2 -> adv s2 s3 -> adv s1 s3.
Proof.
  intros [H1 H1'] [H2 H2']. split; [lia|]. intros Heq.
  destruct H1' as [<- <-]; [lia|]. apply H2'. lia.
Qed.

Lemma adv_strict s s' : position s < position s' -> adv s s'.
Proof. split; [lia|lia]. Qed.

(** States with the same cursor, the second with no other kinds of objects. *)
Definition same_cursor (s s' : State) : Prop :=
  position s' = position s /\ lineStart s' = lineStart s
  /\ lineIndent s' = lineIndent s /\ line s' = line s
  /\ (Forall OK (sheap s) -> Forall OK (sheap s')).

Lemma same_cursor_refl s : same_cursor s s.
Proof. done. Qed.

Lemma same_cursor_trans s1 s2 s3 :
  same_cursor s1 s2 -> same_cursor s2 s3 -> same_cursor s1 s3.
Proof. unfold same_cursor. intuition congruence. Qed.

Lemma Inv_same s s' : same_cursor s s' -> Inv s -> Inv s'.
Proof. intros (? & ? & ? & ? & ?) []. split; first [lia|auto]. Qed.

Lemma adv_same s s' : same_cursor s s' -> adv s s'.
Proof. intros (? & ? & ? & ?). split; [lia|done]. Qed.

Lemma cur_same s s' : same_cursor s s' -> cur s' = cur s.
Proof. unfold cur. by intros (-> & _). Qed.

Lemma Inv_move s p : Inv s -> position s <= p <= L -> Inv (set_position p s).
Proof. intros []. split; st; first [lia|done]. Qed.

(** ** Primitive steps *)

Lemma wp_peek_at k Q R s : Q (at_ (position s + k)) s -> wp (peek_at E k) Q R s.
Proof. done. Qed.

Lemma wp_peek Q R s : Q (cur s) s -> wp (peek E) Q R s.
Proof. unfold peek, cur. intros. apply wp_peek_at. by rewrite Z.add_0_r. Qed.

Lemma wp_advance Q R s :
  Q (at_ (position s + 1)) (set_position (position s + 1) s) -> wp (advance E) Q R s.
Proof. intros. apply wp_bind, wp_modifyS, wp_peek. done. Qed.

Lemma wp_throw {A} msg (Q : A -> State -> Prop) s :
  0 <= position s <= L -> wp (throwError E msg) Q err_ok s.
Proof. intros. unfold wp, throwError. simpl. done. Qed.

Lemma wp_throw_Inv {A} msg (Q : A -> State -> Prop) s :
  Inv s -> wp (throwError E msg) Q err_ok s.
Proof. intros []. apply wp_throw. lia. Qed.

Lemma wp_lift {A} (o : outcome native_error A) (Q : A -> State -> Prop) s :
  o <> OutOfFuel -> (forall a, o = Ret a -> Q a s) -> wp (lift o) Q err_ok s.
Proof.
  intros Ho HQ. unfold lift. apply wp_liftO. destruct o; simpl; [by apply HQ|done|done].
Qed.

Lemma wp_throwWarning msg (Q : unit -> State -> Prop) R s :
  (forall s', same_cursor s s' -> Q tt s') -> wp (throwWarning E msg) Q R s.
Proof.
  intros HQ. apply wp_modifyS, HQ. by destruct (onWarning E); repeat split.
Qed.

Lemma wp_append_result t (Q : unit -> State -> Prop) s :
  (forall s', same_cursor s s' -> Q tt s') -> wp (append_result t) Q err_ok s.
Proof.
  intros HQ. apply wp_bind, wp_gets. destruct (result s); try by apply wp_lift.
  apply wp_modifyS, HQ. by repeat split.
Qed.

(** ** Scanning loops *)

Lemma wp_skip_loop n p ch Q R s :
  Inv s -> ch = cur s -> p 0 = false -> L - position s < Z.of_nat n ->
  (forall q, position s <= q <= L -> p (at_ q) = false ->
     (forall i, position s <= i < q -> p (at_ i) = true) ->
     Q (at_ q) (set_position q s)) ->
  wp (skip_loop E n p ch) Q R s.
Proof.
  revert ch s. induction n as [|n IH]; intros ch s HI -> Hp Hn HQ.
  { destruct HI. lia. }
  simpl. destruct (p (cur s)) eqn:Hc.
  - assert (cur s <> 0) by congruence.
    assert (position s < L) by (destruct HI; by apply before_end).
    apply wp_bind, wp_advance. apply IH; st; [apply Inv_move; [done|lia]|done|done|lia|].
    intros q Hq Hpq Hall. replace (set_position q (set_position (position s + 1) s))
      with (set_position q s) by (by destruct s). apply HQ; [lia|done|].
    intros i Hi. destruct (decide (i = position s)) as [->|]; [done|]. apply Hall. lia.
  - apply wp_ret. specialize (HQ (position s)).
    replace (set_position (position s) s) with s in HQ by (by destruct s).
    apply HQ; [destruct HI; lia|done|lia].
Qed.

Lemma wp_skip_while p ch Q R s :
  Inv s -> ch = cur s -> p 0 = false ->
  (forall q, position s <= q <= L -> p (at_ q) = false ->
     (forall i, position s <= i < q -> p (at_ i) = true) ->
     Q (at_ q) (set_position q s)) ->
  wp (skip_while E p ch) Q R s.
Proof.
  intros HI Hch Hp HQ. apply wp_skip_loop; [done|done|done| |done].
  rewrite fuel0_eq. destruct HI. lia.
Qed.

Lemma wp_do_skip_while p Q R s :
  Inv s -> position s < L -> p 0 = false ->
  (forall q, position s < q <= L -> p (at_ q) = false ->
     Q (at_ q) (set_position q s)) ->
  wp (do_skip_while E p) Q R s.
Proof.
  intros HI Hlt Hp HQ. apply wp_bind, wp_advance.
  apply wp_skip_while; [apply Inv_move; [done|lia]|done|done|]. st.
  intros q Hq Hpq _. replace (set_position q (set_position (position s + 1) s))
    with (set_position q s) by (by destruct s). apply HQ; [lia|done].
Qed.

(** The state after [k] spaces of indentation. *)
Definition indented (k : Z) (s : State) : State :=
  set_lineIndent (lineIndent s + k) (set_position (position s + k) s).

Lemma indented_0 s : indented 0 s = s.
Proof. unfold indented. rewrite !Z.add_0_r. by destruct s. Qed.

Lemma indented_add j k s : indented k (indented j s) = indented (j + k) s.
Proof. unfold indented. destruct s. st. by rewrite !Z.add_assoc. Qed.

Lemma wp_indent_loop n ch Q R s :
  0 <= position s <= L -> ch = cur s -> L - position s < Z.of_nat n ->
  (forall k, 0 <= k -> position s + k <= L -> at_ (position s + k) <> 32 ->
     Q (at_ (position s + k)) (indented k s)) ->
  wp (indent_loop E n ch) Q R s.
Proof.
  revert ch s. induction n as [|n IH]; intros ch s HI -> Hn HQ; [lia|].
  simpl. destruct (cur s =? 32) eqn:Hc; bool_to_prop.
  - assert (position s < L) by (apply before_end; [lia|unfold cur in *; lia]).
    apply wp_bind, wp_modifyS, wp_bind, wp_advance. st.
    change (set_position _ (set_lineIndent _ s)) with (indented 1 s).
    apply IH; [unfold indented; st; lia|done|unfold indented; st; lia|].
    intros k. specialize (HQ (1 + k)). rewrite <- indented_add in HQ.
    unfold indented at 1 2 3 4. st. rewrite <- !Z.add_assoc. intros. apply HQ; [lia|lia|done].
  - apply wp_ret. specialize (HQ 0). rewrite Z.add_0_r, indented_0 in HQ.
    apply HQ; [lia|lia|done].
Qed.

(** The state after a line break that ends before [p]. *)
Definition broken (p : Z) (s : State) : State :=
  set_lineStart p (set_line (line s + 1) (set_position p s)).

Lemma wp_readLineBreak Q s :
  0 <= position s <= L ->
  (forall p, position s < p <= L -> is_EOL (cur s) = true -> Q tt (broken p s)) ->
  wp (readLineBreak E) Q err_ok s.
Proof.
  intros Hp HQ. apply wp_bind, wp_peek, wp_bind.
  assert (Hmove : forall k, (k = 1 \/ k = 2) -> position s + k <= L -> is_EOL (cur s) = true ->
    wp (_ ← modifyS (fun s => set_line (line s + 1) s);
        modifyS (fun s => set_lineStart (position s) s)) Q err_ok
       (set_position (position s + k) s)).
  { intros k Hk Hle Heol. apply wp_bind, wp_modifyS, wp_modifyS.
    apply (HQ (position s + k)); [lia|done]. }
  unfold is_EOL in *. destruct (cur s =? 10) eqn:H10; [|destruct (cur s =? 13) eqn:H13].
  - bool_to_prop. apply wp_modifyS, Hmove; [by left| |done].
    assert (position s < L) by (apply before_end; [lia|unfold cur in *; lia]). lia.
  - bool_to_prop.
    assert (position s < L) by (apply before_end; [lia|unfold cur in *; lia]).
    apply wp_bind, wp_advance. st. wp_case Hc; bool_to_prop.
    + assert (position s + 1 < L) by (apply before_end; [lia|lia]).
      apply wp_modifyS. st. replace (position s + 1 + 1) with (position s + 2) by lia.
      apply (Hmove 2); [by right|lia|done].
    + apply wp_ret, Hmove; [by left|lia|done].
  - by apply wp_throw.
Qed.

(** What [skipSeparationSpace] guarantees. *)
Record sep_post (s s' : State) : Prop := {
  sp_inv : Inv s';
  sp_adv : adv s s';
  sp_stop : is_EOL (cur s') = false;
  sp_strict : is_EOL (cur s) = true -> position s < position s'
}.

Lemma in_comment_0 : in_comment 0 = false.
Proof. done. Qed.

Lemma wp_separation_loop n ac lb ch Q s :
  Inv s -> ch = cur s -> L - position s < Z.of_nat n ->
  (forall k s', sep_post s s' -> Q k s') ->
  wp (separation_loop E n ac lb ch) Q err_ok s.
Proof.
  revert lb ch s. induction n as [|n IH]; intros lb ch s HI -> Hn HQ.
  { destruct HI. lia. }
  simpl. destruct (cur s =? 0) eqn:H0; bool_to_prop.
  { apply wp_ret, HQ. split; [done|apply adv_refl| |].
    all: unfold is_EOL; by rewrite H0. }
  apply wp_bind, wp_skip_while; [done|done|done|]. intros q Hq Hws Hall.
  (* after the comment the cursor is at [q'] *)
  apply wp_bind.
  assert (Htail : forall q', q <= q' <= L ->
    (is_EOL (at_ (position s)) = true -> q' = position s) ->
    wp (if is_EOL (at_ q') then
          _ ← readLineBreak E; ch ← peek E; _ ← modifyS (set_lineIndent 0);
          ch ← indent_loop E (fuel0 E) ch; separation_loop E n ac (lb + 1) ch
        else mret lb) Q err_ok (set_position q' s)).
  { intros q' Hq' Hstay. wp_case Heol.
    - apply wp_bind, wp_readLineBreak; st; [destruct HI; lia|]. intros p Hp _.
      apply wp_bind, wp_peek, wp_bind, wp_modifyS, wp_bind.
      apply wp_indent_loop; unfold broken; st; [destruct HI; lia|done|rewrite fuel0_eq; destruct HI; lia|].
      intros k Hk Hk' _. apply IH; unfold indented, cur; st; [|done|lia|].
      + destruct HI. split; st; first [lia|done].
      + intros j s' [HI' Hadv Hst Hstr]. apply HQ. unfold adv in *. st.
        split; [done|apply adv_strict; lia|done|lia].
    - apply wp_ret, HQ. split; st; [by apply Inv_move; [|lia]| |done|].
      + split; st; [lia|done].
      + intros He. specialize (Hstay He). unfold cur in *. st. subst q'. congruence. }
  assert (Hws_EOL : is_EOL (at_ (position s)) = true -> q = position s).
  { intros He. destruct (decide (q = position s)); [done|].
    specialize (Hall (position s)). unfold is_EOL, is_WHITE_SPACE in *. lia. }
  destruct (ac && (at_ q =? 35)) eqn:Hcom; bool_to_prop.
  - apply wp_do_skip_while; st; [by apply Inv_move; [|lia]|by apply before_end; [lia|lia]|done|].
    intros q' Hq' _. apply (Htail q'); [lia|]. intros He.
    specialize (Hws_EOL He). subst q. unfold is_EOL in He. lia.
  - apply wp_ret. by apply Htail; [lia|].
Qed.

Lemma wp_skipSeparationSpace ac ci Q s :
  Inv s -> (forall k s', sep_post s s' -> Q k s') ->
  wp (skipSeparationSpace E ac ci) Q err_ok s.
Proof.
  intros HI HQ. apply wp_bind, wp_peek, wp_bind, wp_separation_loop; [done|done| |].
  { rewrite fuel0_eq. destruct HI. lia. }
  intros k s' [HI' Hadv Hst Hstr]. apply wp_bind, wp_gets, wp_bind.
  assert (Hsame : forall s'', same_cursor s' s'' -> Q k s'').
  { intros s'' Hs. apply HQ. split.
    - by apply (Inv_same s').
    - eapply adv_trans; [done|by apply adv_same].
    - by rewrite (cur_same _ _ Hs).
    - destruct Hs as (-> & _). done. }
  wp_case Hw; [apply wp_throwWarning; intros|apply wp_ret]; apply wp_ret, Hsame; done.
Qed.

Lemma wp_testDocumentSeparator Q R s :
  (forall b, (b = true -> (cur s = 45 \/ cur s = 46) /\ at_ (position s + 1) = cur s
                          /\ at_ (position s + 2) = cur s) -> Q b s) ->
  wp (testDocumentSeparator E) Q R s.
Proof.
  intros HQ. apply wp_bind, wp_peek. do 3 apply wp_bind, wp_peek_at.
  apply wp_ret, HQ. intros Hb. bool_to_prop.
  split; [|lia]. match goal with H : _ || _ = true |- _ => apply orb_true_iff in H end. lia.
Qed.

Lemma wp_at_document_separator Q R s :
  (forall b, (b = true -> position s = lineStart s /\ (cur s = 45 \/ cur s = 46)
                          /\ at_ (position s + 1) = cur s /\ at_ (position s + 2) = cur s) ->
             Q b s) ->
  wp (at_document_separator E) Q R s.
Proof.
  intros HQ. apply wp_bind, wp_getS. wp_case Hp; bool_to_prop.
  - apply wp_testDocumentSeparator. intros b Hb. apply HQ. tauto.
  - by apply wp_ret, HQ.
Qed.

Lemma wp_captureSegment a b j (Q : unit -> State -> Prop) s :
  Inv s -> (forall s', same_cursor s s' -> Q tt s') ->
  wp (captureSegment E a b j) Q err_ok s.
Proof.
  intros HI HQ. unfold captureSegment. wp_case Hab; [|by apply wp_ret, HQ].
  apply wp_bind. wp_case Hj; wp_case Ht; try (apply wp_throw_Inv; done).
  all: apply wp_ret, wp_append_result; done.
Qed.

Lemma wp_writeFoldedLines k (Q : unit -> State -> Prop) s :
  (forall s', same_cursor s s' -> Q tt s') -> wp (writeFoldedLines k) Q err_ok s.
Proof.
  intros HQ. unfold writeFoldedLines.
  wp_case H1; [by apply wp_append_result|]. wp_case H2; [by apply wp_append_result|].
  by apply wp_ret, HQ.
Qed.

(** ** Plain scalars *)

(** What the tests at the head of the loop decide. *)
Definition plain_test_post (captureEnd ch : Z) (s : State) (step : plain_step) (s' : State)
    : Prop :=
  match step with
  | PBreak => same_cursor s s'
              \/ is_EOL ch = true /\ position s' = captureEnd
                 /\ lineStart s' = lineStart s /\ lineIndent s' = lineIndent s
                 /\ Forall OK (sheap s')
  | PContinue _ => is_EOL ch = true /\ sep_post s s'
  | PConsume => is_EOL ch = false /\ same_cursor s s'
  end.

Lemma wp_plain_test ni within ce ch Q s :
  Inv s -> (forall step s', plain_test_post ce ch s step s' -> Q step s') ->
  wp (plain_test E ni within ce ch) Q err_ok s.
Proof.
  intros HI HQ. unfold plain_test. wp_case H58; [|wp_case H35]; bool_to_prop.
  - apply wp_bind, wp_peek_at, wp_ret, HQ. subst ch.
    destruct (ends_plain _ _); [by left|by split].
  - apply wp_bind, wp_peek_at, wp_ret, HQ. subst ch.
    destruct (is_WS_OR_EOL _); [by left|by split].
  - apply wp_bind, wp_getS, wp_bind, wp_at_document_separator. intros sep _.
    wp_case Hsep; [by apply wp_ret, HQ; left|]. wp_case Heol.
    + apply wp_bind, wp_skipSeparationSpace; [done|]. intros k s' Hs'.
      apply wp_bind, wp_gets. wp_case Hni; [by apply wp_ret, HQ; split|].
      apply wp_bind, wp_modifyS, wp_ret, HQ. right. destruct Hs' as [[] _ _ _]. by st.
    + by apply wp_ret, HQ; split.
Qed.

(** The invariant of the loop started at [s0]. *)
Record plain_inv (s0 s : State) (ce : Z) (pending : bool) : Prop := {
  pi_inv : Inv s;
  pi_end : position s0 <= ce <= position s;
  pi_indent : pending = false -> lineStart s + lineIndent s <= ce;
  pi_pending : pending = true -> is_EOL (cur s) = false;
  pi_first : ce = position s0 ->
    same_cursor s0 s /\ is_EOL (cur s) = false /\ is_WHITE_SPACE (cur s) = false
}.

Lemma plain_inv_adv s0 s ce pending : plain_inv s0 s ce pending -> adv s0 s.
Proof.
  intros []. destruct (decide (ce = position s0)) as [Heq|].
  - apply adv_same. by apply pi_first0.
  - apply adv_strict. lia.
Qed.

Lemma plain_inv_consume s0 s s1 cs ce pending :
  plain_inv s0 s ce pending -> cur s <> 0 -> is_EOL (cur s) = false -> same_cursor s s1 ->
  plain_inv s0 (set_position (position s1 + 1) s1)
    (if is_WHITE_SPACE (cur s) then (if pending then cs else ce) else position s1 + 1) false
  \/ cs <> position s1.
Proof.
  intros [[] ? Hind ? Hfirst] H0 Heol (Hp & Hls & Hli & Hl & Hh).
  destruct (decide (cs = position s1)) as [->|]; [left|by right].
  assert (position s < L) by (by apply before_end).
  assert (ce = position s0 -> is_WHITE_SPACE (cur s) = false) by (intros; by apply Hfirst).
  split; st.
  - split; st; first [lia|auto].
  - destruct (is_WHITE_SPACE (cur s)), pending; lia.
  - intros _. destruct (is_WHITE_SPACE (cur s)), pending; [lia| |lia|lia].
    specialize (Hind eq_refl). lia.
  - done.
  - intros Hce. exfalso. destruct (is_WHITE_SPACE (cur s)), pending; lia.
Qed.

Lemma wp_plain_loop n ni within cs ce pending ln ch Q s0 s :
  plain_inv s0 s ce pending -> ch = cur s -> L - position s < Z.of_nat n ->
  (forall seg s', Inv s' -> adv s0 s' -> Q seg s') ->
  wp (plain_loop E n ni within cs ce pending ln ch) Q err_ok s.
Proof.
  revert cs ce pending ln ch s. induction n as [|n IH]; intros cs ce pending ln ch s HP -> Hn HQ.
  { destruct HP as [[]]. lia. }
  pose proof (plain_inv_adv _ _ _ _ HP) as Hadv. pose proof (pi_inv _ _ _ _ HP) as HI.
  simpl. wp_case H0; bool_to_prop; [by apply wp_ret, HQ|].
  apply wp_bind, wp_plain_test; [done|]. intros [|l|] s1; simpl.
  - intros [Hs|(Heol & Hp & Hls & Hli & Hh)]; apply wp_ret, HQ.
    + by eapply Inv_same. + eapply adv_trans; [done|by apply adv_same].
    + destruct HP as [[] ? Hind Hpend ?]. assert (pending = false) as ->.
      { destruct pending; [|done]. rewrite Hpend in Heol; done. }
      specialize (Hind eq_refl). split; first [lia|done].
    + destruct HP as [? ? ? ? Hfirst]. apply adv_strict.
      assert (ce <> position s0) by (intros Hce; destruct (Hfirst Hce); intuition congruence). lia.
  - intros [Heol [HI1 Hadv1 Hst1 Hstr1]]. apply wp_bind, wp_peek.
    specialize (Hstr1 Heol). apply IH; [|done|lia|done].
    destruct HP as [? ? ? ? Hfirst]. split; [done|lia|done|done|].
    intros Hce. destruct (Hfirst Hce); intuition congruence.
  - intros [Heol Hs]. apply wp_bind.
    assert (Hgo : forall s2 cs' ce', same_cursor s s2 ->
      (if pending then cs' = position s2 /\ ce' = position s2 else ce' = ce) ->
      wp (p ← gets position;
          ch ← advance E;
          plain_loop E n ni within cs' (if is_WHITE_SPACE (cur s) then ce' else p + 1) false ln ch)
         Q err_ok s2).
    { intros s2 cs' ce' Hs2 Hce. apply wp_bind, wp_gets, wp_bind, wp_advance.
      assert (position s < L) by (destruct HI; by apply before_end).
      apply IH; [|done|destruct Hs2 as (-> & _); st; lia|done].
      destruct (plain_inv_consume s0 s s2 (position s2) ce pending HP H0 Heol Hs2) as [Hpi|]; [|done].
      destruct pending; [destruct Hce as [_ ->]|rewrite Hce]; done. }
    destruct pending.
    + apply wp_bind, wp_captureSegment; [by eapply Inv_same|]. intros s2 Hs2.
      apply wp_bind, wp_gets, wp_bind, wp_writeFoldedLines. intros s3 Hs3.
      apply wp_bind, wp_gets, wp_ret. apply Hgo; [|done].
      eauto using same_cursor_trans.
    + apply wp_ret. by apply Hgo.
Qed.

Lemma wp_readPlainScalar ni within Q s :
  Inv s -> (forall b s', Inv s' -> adv s s' -> Q b s') ->
  wp (readPlainScalar E ni within) Q err_ok s.
Proof.
  intros HI HQ. do 2 apply wp_bind, wp_gets. apply wp_bind, wp_peek.
  wp_case Hf; [by apply wp_ret, HQ; [|apply adv_refl]|].
  apply wp_bind, wp_peek_at. wp_case Hf2; [by apply wp_ret, HQ; [|apply adv_refl]|].
  do 2 apply wp_bind, wp_modifyS. apply wp_bind, wp_gets, wp_bind.
  apply (wp_plain_loop _ _ _ _ _ _ _ _ _ s).
  { split; st; [by eapply Inv_same; [|done]|destruct HI; lia|intros _; destruct HI; lia|done|].
    intros _. unfold plain_first_forbidden, is_WS_OR_EOL, cur, is_EOL, is_WHITE_SPACE in *.
    split; [by repeat split|]. st. unfold cur in *. lia. }
  { done. }
  { rewrite fuel0_eq. destruct HI. st. lia. }
  intros [cs' ce'] s1 HI1 Hadv1. apply wp_bind, wp_captureSegment; [done|]. intros s2 Hs2.
  assert (HI2 : Inv s2) by by eapply Inv_same.
  assert (Hadv2 : adv s s2) by (eapply adv_trans; [done|by apply adv_same]).
  apply wp_bind, wp_gets. wp_case Hr.
  - do 2 apply wp_bind, wp_modifyS. by apply wp_ret, HQ; [eapply Inv_same; [|exact HI2]|].
  - by apply wp_ret, HQ.
Qed.

(** ** Quoted scalars *)

Lemma set_position_twice p q s : set_position q (set_position p s) = set_position q s.
Proof. by destruct s. Qed.

Lemma Inv_step s : Inv s -> cur s <> 0 -> Inv (set_position (position s + 1) s).
Proof.
  intros HI H0. assert (position s < L) by (destruct HI; by apply before_end).
  apply Inv_move; [done|lia].
Qed.

Lemma cur_neq s c : (cur s =? c) = true -> c <> 0 -> cur s <> 0.
Proof. intros. bool_to_prop. lia. Qed.

Lemma wp_single_loop n ni cs ce Q s :
  Inv s -> L - position s < Z.of_nat n ->
  (forall b s', Inv s' -> position s < position s' -> Q b s') ->
  wp (single_loop E n ni cs ce) Q err_ok s.
Proof.
  revert cs ce s. induction n as [|n IH]; intros cs ce s HI Hn HQ.
  { destruct HI. lia. }
  simpl. apply wp_bind, wp_getS, wp_bind, wp_peek.
  wp_case H0; [by apply wp_throw_Inv|]. bool_to_prop.
  assert (Hlt : position s < L) by (destruct HI; by apply before_end).
  wp_case H39; [|wp_case Heol].
  - apply wp_bind, wp_captureSegment; [done|]. intros s1 Hs1.
    assert (HI1 : Inv s1) by by eapply Inv_same. destruct Hs1 as (Hp1 & _).
    apply wp_bind, wp_advance. rewrite Hp1. wp_case H39'; bool_to_prop.
    + assert (position s + 1 < L) by (apply before_end; lia).
      apply wp_bind, wp_gets, wp_bind, wp_modifyS. st. apply IH; st.
      * rewrite set_position_twice. apply Inv_move; [done|lia].
      * lia.
      * intros b s' HI' ?. apply HQ; [done|lia].
    + apply wp_ret, HQ; st; [|lia]. apply Inv_move; [done|lia].
  - apply wp_bind, wp_captureSegment; [done|]. intros s1 Hs1.
    assert (HI1 : Inv s1) by by eapply Inv_same.
    rewrite <- (cur_same _ _ Hs1) in Heol. destruct Hs1 as (Hp1 & _).
    apply wp_bind, wp_skipSeparationSpace; [done|]. intros k s2 [HI2 _ _ Hstr].
    specialize (Hstr Heol). apply wp_bind, wp_writeFoldedLines. intros s3 Hs3.
    assert (HI3 : Inv s3) by by eapply Inv_same. destruct Hs3 as (Hp3 & _).
    apply wp_bind, wp_gets. apply IH; [done|lia|]. intros b s' HI' ?. apply HQ; [done|lia].
  - apply wp_bind, wp_at_document_separator. intros sep _.
    wp_case Hsep; [by apply wp_throw_Inv|].
    apply wp_bind, wp_modifyS, wp_bind, wp_gets. apply IH; st; [by apply Inv_step|lia|].
    intros b s' HI' ?. apply HQ; [done|lia].
Qed.

Lemma wp_readSingleQuotedScalar ni Q s :
  Inv s -> (forall b s', Inv s' -> adv s s' -> Q b s') ->
  wp (readSingleQuotedScalar E ni) Q err_ok s.
Proof.
  intros HI HQ. apply wp_bind, wp_peek.
  wp_case H39; [by apply wp_ret, HQ; [|apply adv_refl]|]. bool_to_prop.
  assert (Hlt : position s < L) by (destruct HI; apply before_end; unfold cur in *; lia).
  do 3 apply wp_bind, wp_modifyS. apply wp_bind, wp_gets. st.
  apply wp_single_loop; st.
  - destruct HI. split; st; first [lia|done].
  - rewrite fuel0_eq. destruct HI. lia.
  - intros b s' HI' ?. apply HQ; [done|]. apply adv_strict. lia.
Qed.

Lemma wp_hex_loop k r Q s :
  Inv s -> cur s <> 0 ->
  (forall r' q, position s <= q -> q < L -> Q r' (set_position q s)) ->
  wp (hex_loop E k r) Q err_ok s.
Proof.
  revert r s. induction k as [|k IH]; intros r s HI H0 HQ; simpl.
  - apply wp_ret. specialize (HQ r (position s)).
    replace (set_position (position s) s) with s in HQ by by destruct s.
    apply HQ; [lia|]. destruct HI. by apply before_end.
  - apply wp_bind, wp_advance. wp_case Hhex; [|by apply wp_throw_Inv, Inv_step].
    apply IH; [by apply Inv_step| |].
    + unfold cur. st. intros Hz. rewrite Hz in Hhex. done.
    + st. intros r' q ? ?.
      rewrite set_position_twice. apply HQ; lia.
Qed.

Lemma wp_read_escape ni Q s :
  Inv s -> (forall s', Inv s' -> position s < position s' -> Q tt s') ->
  wp (read_escape E ni (cur s)) Q err_ok s.
Proof.
  intros HI HQ. unfold read_escape. wp_case Heol.
  - apply wp_bind, wp_skipSeparationSpace; [done|]. intros k s' [HI' _ _ Hstr].
    apply wp_ret, HQ; auto.
  - wp_case Hesc.
    + apply wp_bind, wp_append_result. intros s1 Hs1. apply wp_modifyS.
      assert (HI1 : Inv s1) by by eapply Inv_same.
      assert (H0 : cur s1 <> 0).
      { rewrite (cur_same _ _ Hs1). intros Hz. rewrite Hz in Hesc. done. }
      destruct Hs1 as (Hp1 & _). apply HQ; [by apply Inv_step|st; lia].
    + wp_case Hlen; [|by apply wp_throw_Inv].
      assert (H0 : cur s <> 0) by (intros Hz; rewrite Hz in Hlen; done).
      apply wp_bind, wp_hex_loop; [done|done|]. intros r q Hq Hq'.
      apply wp_bind, wp_append_result. intros s1 (Hp & Hls & Hli & _ & Hh). apply wp_modifyS.
      st. apply HQ; st; [|lia]. destruct HI. split; st; first [lia|auto].
Qed.

Lemma wp_double_loop n ni cs ce Q s :
  Inv s -> L - position s < Z.of_nat n ->
  (forall b s', Inv s' -> position s < position s' -> Q b s') ->
  wp (double_loop E n ni cs ce) Q err_ok s.
Proof.
  revert cs ce s. induction n as [|n IH]; intros cs ce s HI Hn HQ.
  { destruct HI. lia. }
  simpl. apply wp_bind, wp_getS, wp_bind, wp_peek.
  wp_case H0; [by apply wp_throw_Inv|]. bool_to_prop.
  assert (Hlt : position s < L) by (destruct HI; by apply before_end).
  wp_case H34; [|wp_case H92; [|wp_case Heol]].
  - apply wp_bind, wp_captureSegment; [done|]. intros s1 Hs1.
    assert (HI1 : Inv s1) by by eapply Inv_same. destruct Hs1 as (Hp1 & _).
    apply wp_bind, wp_modifyS, wp_ret, HQ; st; [|lia]. apply Inv_move; [done|lia].
  - apply wp_bind, wp_captureSegment; [done|]. intros s1 Hs1.
    assert (HI1 : Inv s1) by by eapply Inv_same. destruct Hs1 as (Hp1 & _).
    apply wp_bind, wp_advance, wp_bind.
    apply (wp_read_escape ni _ (set_position (position s1 + 1) s1)).
    + apply Inv_move; [done|lia].
    + st. intros s2 HI2 Hp2. apply wp_bind, wp_gets. apply IH; [done|lia|].
      intros b s' HI' ?. apply HQ; [done|lia].
  - apply wp_bind, wp_captureSegment; [done|]. intros s1 Hs1.
    assert (HI1 : Inv s1) by by eapply Inv_same.
    rewrite <- (cur_same _ _ Hs1) in Heol. destruct Hs1 as (Hp1 & _).
    apply wp_bind, wp_skipSeparationSpace; [done|]. intros k s2 [HI2 _ _ Hstr].
    specialize (Hstr Heol). apply wp_bind, wp_writeFoldedLines. intros s3 Hs3.
    assert (HI3 : Inv s3) by by eapply Inv_same. destruct Hs3 as (Hp3 & _).
    apply wp_bind, wp_gets. apply IH; [done|lia|]. intros b s' HI' ?. apply HQ; [done|lia].
  - apply wp_bind, wp_at_document_separator. intros sep _.
    wp_case Hsep; [by apply wp_throw_Inv|].
    apply wp_bind, wp_modifyS, wp_bind, wp_gets. apply IH; st; [by apply Inv_step|lia|].
    intros b s' HI' ?. apply HQ; [done|lia].
Qed.

Lemma wp_readDoubleQuotedScalar ni Q s :
  Inv s -> (forall b s', Inv s' -> adv s s' -> Q b s') ->
  wp (readDoubleQuotedScalar E ni) Q err_ok s.
Proof.
  intros HI HQ. apply wp_bind, wp_peek.
  wp_case H34; [by apply wp_ret, HQ; [|apply adv_refl]|]. bool_to_prop.
  assert (Hlt : position s < L) by (destruct HI; apply before_end; unfold cur in *; lia).
  do 3 apply wp_bind, wp_modifyS. apply wp_bind, wp_gets. st.
  apply wp_double_loop; st.
  - destruct HI. split; st; first [lia|done].
  - rewrite fuel0_eq. destruct HI. lia.
  - intros b s' HI' ?. apply HQ; [done|]. apply adv_strict. lia.
Qed.

(** ** Block scalars *)

Lemma wp_block_header n ni c d ti ch Q s :
  Inv s -> ch = cur s -> L - position s < Z.of_nat n ->
  (forall c' d' ti' s', Inv s' -> position s <= position s' ->
     (ch <> 0 -> position s < position s') -> Q (c', d', ti', cur s') s') ->
  wp (block_header E n ni c d ti ch) Q err_ok s.
Proof.
  revert c d ti ch s. induction n as [|n IH]; intros c d ti ch s HI -> Hn HQ.
  { destruct HI. lia. }
  cbn [block_loop block_header]. wp_case H0; bool_to_prop; [by apply wp_ret, HQ; [|lia|]|].
  assert (Hlt : position s < L) by (destruct HI; by apply before_end).
  assert (HI1 : Inv (set_position (position s + 1) s)) by by apply Inv_step.
  assert (Hrec : forall c' d' ti', wp (block_header E n ni c' d' ti' (at_ (position s + 1))) Q err_ok
            (set_position (position s + 1) s)).
  { intros. apply IH; st; [done|done|lia|]. intros. apply HQ; [done|lia|lia]. }
  apply wp_bind, wp_advance. wp_case Hpm.
  - wp_case Hc; [apply Hrec|by apply wp_throw_Inv].
  - wp_case Hdec; [|by apply wp_ret, (HQ _ _ _ (set_position (position s + 1) s)); st; [|lia|lia]].
    wp_case Hz; [by apply wp_throw_Inv|]. wp_case Hd; [apply Hrec|by apply wp_throw_Inv].
Qed.

Lemma wp_block_indent_loop n d ti ch Q s :
  0 <= position s <= L -> ch = cur s -> L - position s < Z.of_nat n ->
  (forall k, 0 <= k -> position s + k <= L ->
     Q (at_ (position s + k)) (indented k s)) ->
  wp (block_indent_loop E n d ti ch) Q err_ok s.
Proof.
  revert ch s. induction n as [|n IH]; intros ch s HI -> Hn HQ; [lia|].
  simpl. apply wp_bind, wp_gets. wp_case Hc.
  - apply andb_true_iff in Hc as [_ Hc]. bool_to_prop.
    assert (position s < L) by (apply before_end; [lia|unfold cur in *; lia]).
    apply wp_bind, wp_modifyS, wp_bind, wp_advance. st.
    change (set_position _ (set_lineIndent _ s)) with (indented 1 s).
    apply IH; [unfold indented; st; lia|done|unfold indented; st; lia|].
    intros k. specialize (HQ (1 + k)). rewrite <- indented_add in HQ.
    unfold indented at 1 2 3. st. rewrite <- !Z.add_assoc. intros. apply HQ; lia.
  - apply wp_ret. specialize (HQ 0). rewrite Z.add_0_r, indented_0 in HQ. apply HQ; lia.
Qed.

Lemma wp_block_join f a d el ch (Q : bool -> State -> Prop) s :
  (forall b s', same_cursor s s' -> Q b s') -> wp (block_join f a d el ch) Q err_ok s.
Proof.
  intros HQ. unfold block_join.
  assert (Happ : forall t b, wp (_ ← append_result t; mret b) Q err_ok s).
  { intros t b. apply wp_bind, wp_append_result. intros. by apply wp_ret, HQ. }
  wp_case Hf; [|apply Happ]. wp_case Hw; [apply Happ|]. wp_case Ha; [apply Happ|].
  wp_case He; [|apply Happ]. destruct d; [apply Happ|]. by apply wp_bind, wp_ret, wp_ret, HQ.
Qed.

Lemma wp_block_loop n f c d di a ti el ch Q s :
  Inv s -> ch = cur s -> L - position s < Z.of_nat n ->
  (forall s', Inv s' -> position s <= position s' ->
     (ch <> 0 -> position s < position s') -> Q tt s') ->
  wp (block_loop E n f c d di a ti el ch) Q err_ok s.
Proof.
  revert d di a ti el ch s. induction n as [|n IH]; intros d di a ti el ch s HI -> Hn HQ.
  { destruct HI. lia. }
  cbn [block_loop block_header]. wp_case H0; bool_to_prop; [by apply wp_ret, HQ; [|lia|]|].
  apply wp_bind, wp_readLineBreak; [destruct HI; lia|]. intros p Hp _.
  apply wp_bind, wp_modifyS, wp_bind, wp_peek, wp_bind. unfold broken. st.
  apply wp_block_indent_loop; st; [destruct HI; lia|done|rewrite fuel0_eq; destruct HI; lia|].
  intros k Hk Hk'. unfold indented. st. apply wp_bind, wp_gets. st.
  set (s1 := set_lineIndent _ _). assert (HI1 : Inv s1) by (destruct HI; split; unfold s1; st; first [lia|done]).
  assert (Hp1 : position s < position s1) by (unfold s1; st; lia).
  assert (Hrec : forall d' di' a' ti' el' s2, Inv s2 -> position s1 <= position s2 ->
    wp (block_loop E n f c d' di' a' ti' el' (cur s2)) Q err_ok s2).
  { intros. apply IH; [done|done|lia|]. intros. apply HQ; [done|lia|lia]. }
  assert (Hend : forall s2, same_cursor s1 s2 -> Q tt s2).
  { intros s2 Hs2. apply HQ; [by eapply Inv_same|destruct Hs2 as (-> & _); lia..]. }
  change (at_ (p + k)) with (cur s1).
  wp_case Heol; [by apply Hrec; [|lia]|]. wp_case Hli.
  - destruct c; [wp_case Hd; [by apply wp_append_result|by apply wp_ret, Hend]
                |by apply wp_ret, Hend|by apply wp_append_result].
  - apply wp_bind, wp_block_join. intros b s2 Hs2.
    assert (HI2 : Inv s2) by by eapply Inv_same. apply wp_bind, wp_gets, wp_bind.
    apply wp_skip_while; [done|by rewrite (cur_same _ _ Hs2)|done|]. intros q Hq _ _.
    apply wp_bind, wp_gets, wp_bind, wp_captureSegment; [by apply Inv_move; [|lia]|].
    intros s3 Hs3. replace (at_ q) with (cur s3) by by rewrite (cur_same _ _ Hs3).
    apply Hrec; [by eapply Inv_same, Inv_move; [done|done|lia]|].
    destruct Hs3 as (-> & _). destruct Hs2 as (Hp2 & _). st. lia.
Qed.

Lemma wp_readBlockScalar ni Q s :
  Inv s -> (forall b s', Inv s' -> adv s s' -> Q b s') ->
  wp (readBlockScalar E ni) Q err_ok s.
Proof.
  intros HI HQ. apply wp_bind, wp_peek.
  wp_case Hb; [by apply wp_ret, HQ; [|apply adv_refl]|]. bool_to_prop.
  assert (H0 : cur s <> 0) by lia.
  do 2 apply wp_bind, wp_modifyS. apply wp_bind.
  apply wp_block_header; [by eapply Inv_same; [|exact HI]|done|rewrite fuel0_eq; destruct HI; st; lia|].
  intros c d ti s1 HI1 _ Hp1. st. specialize (Hp1 H0). apply wp_bind.
  assert (Hbody : forall s2, Inv s2 -> position s1 <= position s2 ->
    wp (_ ← block_loop E (fuel0 E) (cur s =? 62) c false d false ti 0 (cur s2); mret true)
       Q err_ok s2).
  { intros s2 HI2 Hp2. apply wp_bind, wp_block_loop; [done|done|rewrite fuel0_eq; destruct HI2; lia|].
    intros s3 HI3 Hp3 _. apply wp_ret, HQ; [done|]. apply adv_strict. lia. }
  wp_case Hws; [|by apply wp_ret, Hbody; [|lia]].
  assert (position s1 < L) by (destruct HI1; apply before_end; [done|unfold is_WHITE_SPACE, cur in *; lia]).
  apply wp_bind, wp_do_skip_while; [done|done|done|]. intros q Hq _. wp_case H35; bool_to_prop.
  - apply wp_do_skip_while; st; [by apply Inv_move; [|lia]|by apply before_end; lia|done|].
    intros q' Hq' _. rewrite set_position_twice.
    apply (Hbody (set_position q' s1)); [by apply Inv_move; [|lia]|st; lia].
  - apply wp_ret. apply (Hbody (set_position q s1)); [by apply Inv_move; [|lia]|st; lia].
Qed.

(** ** Heap operations and mappings *)

Lemma object_assign_total h self o k v : object_assign h self o k v <> OutOfFuel.
Proof. unfold object_assign. repeat case_match; done. Qed.

Lemma wp_local_assign o k v (Q : object -> State -> Prop) s :
  (forall o', Q o' s) -> wp (local_assign o k v) Q err_ok s.
Proof.
  intros HQ. apply wp_bind, wp_gets, wp_lift; [apply object_assign_total|]. intros; apply HQ.
Qed.

Lemma wp_heap_assign l k v (Q : unit -> State -> Prop) s :
  (forall s', same_cursor s s' -> Q tt s') -> wp (heap_assign l k v) Q err_ok s.
Proof.
  intros HQ. apply wp_bind, wp_gets. wp_case Hl; [|by apply wp_lift].
  destruct h; try (by apply wp_lift).
  apply wp_bind, wp_lift; [apply object_assign_total|]. intros o' _.
  apply wp_modifyS, HQ. repeat split. intros. by apply Forall_insert; [|apply admits_object].
Qed.

Lemma wp_allocS o (Q : nat -> State -> Prop) R s :
  OK o -> (forall l s', same_cursor s s' -> Q l s') -> wp (allocS o) Q R s.
Proof.
  intros Ho HQ. apply wp_bind, wp_gets. simpl. apply wp_bind, wp_modifyS, wp_ret, HQ.
  repeat split. intros. st. apply Forall_app. by repeat constructor.
Qed.

Lemma wp_heap_push l v (Q : unit -> State -> Prop) R s :
  (forall s', same_cursor s s' -> Q tt s') -> wp (heap_push l v) Q R s.
Proof.
  intros HQ. apply wp_modifyS, HQ. repeat case_match; repeat split; try done.
  intros. by apply Forall_insert; [|apply admits_array].
Qed.

Lemma wp_merge_keys dst src keys ok (Q : object -> State -> Prop) s :
  (forall o s', same_cursor s s' -> Q o s') -> wp (merge_keys dst src keys ok) Q err_ok s.
Proof.
  revert ok s. induction keys as [|k keys IH]; intros ok s HQ; simpl.
  - by apply wp_ret, HQ.
  - apply wp_bind, wp_gets. wp_case Hown; [by apply IH|].
    apply wp_bind, wp_heap_assign. intros s1 Hs1. apply wp_bind, wp_local_assign. intros ok'.
    apply IH. eauto using same_cursor_trans.
Qed.

Lemma wp_mergeMappings dst src ok (Q : object -> State -> Prop) s :
  Inv s -> (forall o s', same_cursor s s' -> Q o s') ->
  wp (mergeMappings E dst src ok) Q err_ok s.
Proof.
  intros HI HQ. apply wp_bind, wp_gets. destruct src; try by apply wp_throw_Inv.
  wp_case Ho; [by apply wp_merge_keys|by apply wp_throw_Inv].
Qed.

Lemma wp_merge_all dst srcs ok (Q : object -> State -> Prop) s :
  Inv s -> (forall o s', same_cursor s s' -> Q o s') ->
  wp (merge_all E dst srcs ok) Q err_ok s.
Proof.
  revert ok s. induction srcs as [|v srcs IH]; intros ok s HI HQ; simpl.
  - by apply wp_ret, HQ.
  - apply wp_bind, wp_mergeMappings; [done|]. intros o s1 Hs1.
    apply IH; [by eapply Inv_same|]. eauto using same_cursor_trans.
Qed.

Lemma wp_storeMappingPair r ok kt kn vn start (Q : nat * object -> State -> Prop) s :
  Inv s -> match start with Some (_, sp) => 0 <= sp <= L | None => True end ->
  (forall x s', same_cursor s s' -> Q x s') ->
  wp (storeMappingPair E r ok kt kn vn start) Q err_ok s.
Proof.
  intros HI Hstart HQ. apply wp_bind, wp_gets, wp_bind, wp_lift; [apply value_toString_total|].
  intros key _. apply wp_bind.
  assert (Hrest : forall l s1, same_cursor s s1 ->
    wp (if bool_decide (kt = Some merge_tag) then
          h ← gets sheap;
          ok' ← merge_all E l (match vn with
                               | VRef a => match h !! a with Some (OArray es) => es | _ => [vn] end
                               | _ => [vn] end) ok;
          mret (l, ok')
        else
          h ← gets sheap;
          _ ← (if negb (json E) && negb (hasOwn ok key) && heap_hasOwn h l key then
                 _ ← match start with
                     | Some (sl, sp) =>
                         _ ← (if sl =? 0 then mret tt else modifyS (set_line sl));
                         if sp =? 0 then mret tt else modifyS (set_position sp)
                     | None => mret tt
                     end;
                 throwError E (js "duplicated mapping key")
               else mret tt);
          _ ← heap_assign l key vn;
          mret (l, Obj (assoc_del (props ok) key) (proto ok))) Q err_ok s1).
  { intros l s1 Hs1. assert (HI1 : Inv s1) by by eapply Inv_same. wp_case Hm.
    - apply wp_bind, wp_gets, wp_bind, wp_merge_all; [done|]. intros o s2 Hs2.
      apply wp_ret, HQ. eauto using same_cursor_trans.
    - apply wp_bind, wp_gets, wp_bind.
      assert (Hstore : wp (_ ← heap_assign l key vn;
                           mret (l, Obj (assoc_del (props ok) key) (proto ok))) Q err_ok s1).
      { apply wp_bind, wp_heap_assign. intros s2 Hs2. apply wp_ret, HQ.
        eauto using same_cursor_trans. }
      wp_case Hdup; [|by apply wp_ret]. clear Hstore.
      apply wp_bind. destruct start as [[sl sp]|]; [|by apply wp_ret, wp_throw_Inv].
      apply wp_bind. destruct HI1.
      wp_case Hsl; [apply wp_ret|apply wp_modifyS];
        (wp_case Hsp; [apply wp_ret|apply wp_modifyS]); apply wp_throw; st; lia. }
  destruct r as [l|]; [by apply wp_ret, Hrest|]. apply wp_allocS; [apply admits_object|auto].
Qed.

Lemma wp_record_anchor v (Q : unit -> State -> Prop) s :
  (forall s', same_cursor s s' -> Q tt s') -> wp (record_anchor v) Q err_ok s.
Proof.
  intros HQ. apply wp_bind, wp_gets. wp_case Ha; [|by apply wp_ret, HQ].
  apply wp_bind, wp_gets, wp_bind, wp_local_assign. intros o.
  apply wp_modifyS, HQ. by repeat split.
Qed.

(** ** Node properties *)

Lemma wp_tag_loop n named handle start ch (Q : jsstr * Z -> State -> Prop) s :
  Inv s -> ch = cur s -> L - position s < Z.of_nat n ->
  (forall x s', Inv s' -> position s <= position s' -> Q x s') ->
  wp (tag_loop E n named handle start ch) Q err_ok s.
Proof.
  revert named handle start ch s.
  induction n as [|n IH]; intros named handle start ch s HI -> Hn HQ.
  { destruct HI. lia. }
  cbn [tag_loop]. wp_case Hend; [by apply wp_ret, HQ; [|lia]|].
  apply orb_false_iff in Hend as [H0 _]. bool_to_prop.
  assert (Hlt : position s < L) by (destruct HI; by apply before_end).
  assert (Hrec : forall x, wp (let '(isNamed, tagHandle, start) := x in
                               ch ← advance E; tag_loop E n isNamed tagHandle start ch) Q err_ok s).
  { intros [[named' handle'] start']. apply wp_bind, wp_advance.
    apply IH; st; [by apply Inv_step|done|lia|]. intros. apply HQ; [done|lia]. }
  apply wp_bind. wp_case H33; [|by apply wp_ret, (Hrec (_, _, _))].
  wp_case Hnamed; [|by apply wp_throw_Inv]. apply wp_bind, wp_gets.
  wp_case Hm; [by apply wp_throw_Inv|by apply wp_ret, (Hrec (_, _, _))].
Qed.

Lemma wp_check_uri t (Q : unit -> State -> Prop) s :
  Inv s -> Q tt s -> wp (check_uri E t) Q err_ok s.
Proof.
  intros HI HQ. unfold check_uri. destruct t; [by apply wp_ret|].
  wp_case Hm; [by apply wp_ret|by apply wp_throw_Inv].
Qed.

Lemma wp_read_verbatim_tag (Q : unit -> State -> Prop) s :
  Inv s -> position s < L ->
  (forall s', Inv s' -> position s < position s' -> Q tt s') ->
  wp (read_verbatim_tag E) Q err_ok s.
Proof.
  intros HI Hlt HQ. apply wp_bind, wp_gets, wp_bind, wp_do_skip_while; [done|done|done|].
  intros q Hq _. apply wp_bind, wp_gets. st. wp_case Hend; bool_to_prop.
  - apply wp_bind, wp_modifyS. st. apply wp_bind.
    rewrite set_position_twice. apply wp_check_uri; [by apply Inv_move; [|lia]|].
    apply wp_modifyS, HQ; st; [|lia]. eapply Inv_same, (Inv_move s (q + 1)); [|done|lia].
    by repeat split.
  - apply wp_throw. destruct HI. st. lia.
Qed.

Lemma wp_read_shorthand_tag named handle (Q : unit -> State -> Prop) s :
  Inv s -> (forall s', Inv s' -> position s <= position s' -> Q tt s') ->
  wp (read_shorthand_tag E named handle (cur s)) Q err_ok s.
Proof.
  intros HI HQ. apply wp_bind, wp_gets, wp_bind.
  apply wp_tag_loop; [done|done|rewrite fuel0_eq; destruct HI; lia|].
  intros [handle' start] s1 HI1 Hp1. apply wp_bind, wp_gets.
  cbv zeta. wp_case Hfl; [by apply wp_throw_Inv|].
  assert (Hset : forall t, wp (modifyS (set_stag (Some t))) Q err_ok s1).
  { intros t. apply wp_modifyS, HQ; [|done]. eapply Inv_same; [|exact HI1]. by repeat split. }
  apply wp_bind, wp_check_uri; [done|]. apply wp_bind, wp_gets.
  wp_case Htm; [apply Hset|]. wp_case H1; [apply Hset|]. wp_case H2; [apply Hset|].
  by apply wp_throw_Inv.
Qed.

Lemma wp_readTagProperty Q s :
  Inv s -> Q false s -> (forall s', Inv s' -> position s < position s' -> Q true s') ->
  wp (readTagProperty E) Q err_ok s.
Proof.
  intros HI HQf HQt. apply wp_bind, wp_peek. wp_case H33; [by apply wp_ret|]. bool_to_prop.
  assert (Hlt : position s < L) by (destruct HI; apply before_end; unfold cur in *; lia).
  apply wp_bind, wp_gets, wp_bind. wp_case Ht; [apply wp_ret|by apply wp_throw_Inv].
  apply wp_bind, wp_advance, wp_bind.
  set (s1 := set_position (position s + 1) s).
  assert (HI1 : Inv s1) by (apply Inv_move; [done|lia]).
  change (at_ (position s + 1)) with (cur s1).
  wp_case H60; [|wp_case H33']; bool_to_prop.
  - apply wp_bind, wp_modifyS.
    assert (position s1 < L) by (destruct HI1; apply before_end; unfold cur in *; lia).
    assert (position s1 + 1 <> L).
    { intros Heq. pose proof last_is_EOL as Hlast.
      replace (L - 1) with (position s1) in Hlast by lia. fold (cur s1) in Hlast.
      rewrite H60 in Hlast. destruct HI. assert (0 < L) by lia. by specialize (Hlast ltac:(lia)). }
    apply wp_read_verbatim_tag; [by apply Inv_move; [|lia]|st; lia|].
    intros s2 HI2 Hp2. apply wp_ret, HQt; [done|]. unfold s1 in *. st. lia.
  - assert (HI2 : Inv (set_position (position s1 + 1) s1)) by (apply Inv_step; [done|lia]).
    apply wp_bind, wp_advance.
    apply (wp_read_shorthand_tag _ _ _ (set_position (position s1 + 1) s1)); [done|].
    intros s2 HI3 Hp2. apply wp_ret, HQt; [done|]. unfold s1 in *. st. lia.
  - apply wp_read_shorthand_tag; [done|].
    intros s2 HI2 Hp2. apply wp_ret, HQt; [done|]. unfold s1 in *. st. lia.
Qed.

Lemma wp_read_name msg (Q : jsstr -> State -> Prop) s :
  Inv s -> cur s <> 0 ->
  (forall x s', Inv s' -> position s < position s' -> Q x s') ->
  wp (read_name E msg) Q err_ok s.
Proof.
  intros HI H0 HQ. assert (Hlt : position s < L) by (destruct HI; by apply before_end).
  apply wp_bind, wp_advance, wp_bind, wp_gets, wp_bind.
  apply wp_skip_while; [by apply Inv_step|done|done|]. st. intros q Hq _ _.
  apply wp_bind, wp_gets. st. rewrite set_position_twice.
  assert (HI1 : Inv (set_position q s)) by (apply Inv_move; [done|lia]).
  wp_case He; [by apply wp_throw_Inv|]. apply wp_ret, HQ; [done|st; lia].
Qed.

Lemma wp_readAnchorProperty Q s :
  Inv s -> Q false s -> (forall s', Inv s' -> position s < position s' -> Q true s') ->
  wp (readAnchorProperty E) Q err_ok s.
Proof.
  intros HI HQf HQt. apply wp_bind, wp_peek. wp_case H38; [by apply wp_ret|]. bool_to_prop.
  apply wp_bind, wp_gets, wp_bind. wp_case Ha; [apply wp_ret|by apply wp_throw_Inv].
  apply wp_bind, wp_read_name; [done|lia|]. intros x s1 HI1 Hp1.
  apply wp_bind, wp_modifyS, wp_ret, HQt; [|done]. eapply Inv_same; [|exact HI1].
  by repeat split.
Qed.

Lemma anchor_known_total h am alias : anchor_known E h am alias <> OutOfFuel.
Proof. unfold anchor_known. repeat case_match; done. Qed.

Lemma wp_readAlias Q s :
  Inv s -> (forall b s', Inv s' -> adv s s' -> Q b s') -> wp (readAlias E) Q err_ok s.
Proof.
  intros HI HQ. apply wp_bind, wp_peek.
  wp_case H42; [by apply wp_ret, HQ; [|apply adv_refl]|]. bool_to_prop.
  apply wp_bind, wp_read_name; [done|lia|]. intros x s1 HI1 Hp1.
  apply wp_bind, wp_getS, wp_bind, wp_lift; [apply anchor_known_total|]. intros known _.
  wp_case Hk; [by apply wp_throw_Inv|]. apply wp_bind, wp_modifyS, wp_bind.
  apply wp_skipSeparationSpace; [by eapply Inv_same; [|exact HI1]|].
  intros k s2 [HI2 Hadv2 _ _]. apply wp_ret, HQ; [done|].
  destruct Hadv2. st. apply adv_strict. lia.
Qed.

(** The loop keeps the collections flag below the styles flag. *)
Lemma wp_property_loop n pi abs x Q s :
  Inv s -> L - position s < Z.of_nat n -> (snd x = true -> abs = true) ->
  (forall x' s', Inv s' -> adv s s' -> (snd x' = true -> abs = true) -> Q x' s') ->
  wp (property_loop E n pi abs x) Q err_ok s.
Proof.
  revert x s. induction n as [|n IH]; intros x s HI Hn Hx HQ.
  { destruct HI. lia. }
  cbn [property_loop].
  assert (Hstep : forall s1, Inv s1 -> position s < position s1 ->
    wp (breaks ← skipSeparationSpace E true (-1);
        li ← gets lineIndent;
        let '(indentStatus, atNewLine, _) := x in
        property_loop E n pi abs
          (if negb (breaks =? 0) then (indent_status li pi, true, abs)
           else (indentStatus, atNewLine, false))) Q err_ok s1).
  { intros s1 HI1 Hp1. apply wp_bind, wp_skipSeparationSpace; [done|].
    intros k s2 [HI2 [Hadv2 _] _ _]. apply wp_bind, wp_gets. destruct x as [[ist anl] abc].
    apply IH; [done|lia|by destruct (negb (k =? 0))|]. intros x' s3 HI3 [Hp3 _] Hx'.
    apply HQ; [done| |done]. apply adv_strict. lia. }
  apply wp_bind, wp_readTagProperty; [done| |].
  - apply wp_bind, wp_readAnchorProperty; [done|by apply wp_ret, HQ; [|apply adv_refl|]|].
    intros s1 HI1 Hp1. by apply Hstep.
  - intros s1 HI1 Hp1. by apply wp_bind, wp_ret, Hstep.
Qed.

(** ** Resolution *)

Lemma assoc_get_Forall {A} (P : A -> Prop) (ps : list (jsstr * A)) k v :
  Forall (fun p => P (snd p)) ps -> assoc_get ps k = Some v -> P v.
Proof.
  induction 1 as [|[k' v'] ps Hp _ IH]; simpl; [done|].
  destruct (jseqb k' k); [by intros [= <-]|done].
Qed.

Lemma wp_resolve_implicit ts (Q : unit -> State -> Prop) s :
  Forall (good_type OK) ts -> Inv s -> (forall s', same_cursor s s' -> Q tt s') ->
  wp (resolve_implicit ts) Q err_ok s.
Proof.
  intros Hts. revert s. induction Hts as [|t ts Ht _ IH]; intros s HI HQ; simpl.
  - by apply wp_ret, HQ.
  - apply wp_bind, wp_getS, wp_bind, wp_lift; [apply Ht|]. intros ok _.
    wp_case Hok; [|by apply IH]. apply wp_bind, wp_lift; [apply Ht|]. intros [v h] Hcon.
    apply wp_bind, wp_modifyS, wp_record_anchor. intros s' Hs'. apply HQ.
    eapply same_cursor_trans; [|exact Hs']. repeat split. intros. by eapply construct_heap.
Qed.

Lemma wp_resolve_node (Q : unit -> State -> Prop) s :
  Inv s -> (forall s', same_cursor s s' -> Q tt s') -> wp (resolve_node E) Q err_ok s.
Proof.
  intros HI HQ. apply wp_bind, wp_gets. wp_case Ht; [|by apply wp_ret, HQ].
  wp_case H1; [by apply wp_ret, HQ|].
  wp_case H2; [apply wp_resolve_implicit; [apply HE|done|done]|].
  apply wp_bind, wp_getS. wp_case Hty; [|by apply wp_throw_Inv].
  assert (Htot : good_type OK y) by (eapply assoc_get_Forall; [apply (wf_typeMap OK E HE)|done]).
  wp_case Hk; [by apply wp_throw_Inv|]. apply wp_bind, wp_lift; [apply Htot|]. intros ok _.
  wp_case Hok; [by apply wp_throw_Inv|]. apply wp_bind, wp_lift; [apply Htot|]. intros [v h] Hcon.
  apply wp_bind, wp_modifyS, wp_record_anchor. intros s' Hs'. apply HQ.
  eapply same_cursor_trans; [|exact Hs']. repeat split. intros. by eapply construct_heap.
Qed.

(** ** Collections

    [compose] is assumed to meet its specification on every suffix whose weight
    is below [N]; a block context weighs one more than a flow context, since
    [readBlockMapping] composes its key in a flow context at its own position. *)

Definition weight (ctx : context) : Z :=
  match ctx with CONTEXT_BLOCK_IN | CONTEXT_BLOCK_OUT => 1 | _ => 0 end.

Definition compose_spec (compose : Z -> context -> bool -> bool -> M bool) (N : Z) : Prop :=
  forall pi ctx seek compact Q s,
    Inv s -> 2 * (L - position s) + weight ctx < N ->
    (forall b s', Inv s' -> adv s s' -> Q b s') ->
    wp (compose pi ctx seek compact) Q err_ok s.

Section with_compose.
Variable compose : Z -> context -> bool -> bool -> M bool.
Variable N : Z.
Hypothesis Hc : compose_spec compose N.

Lemma wp_finish_collection t a k v Q s :
  Inv s -> (forall b s', same_cursor s s' -> Q b s') ->
  wp (finish_collection t a k v) Q err_ok s.
Proof. intros HI HQ. apply wp_bind, wp_modifyS, wp_ret, HQ. by repeat split. Qed.

Lemma wp_flow_explicit ni Q s :
  Inv s -> (forall b s', Inv s' -> position s <= position s' -> Q b s') ->
  wp (flow_explicit E ni (cur s)) Q err_ok s.
Proof.
  intros HI HQ. unfold flow_explicit. wp_case H63; [|apply wp_ret, HQ; [done|lia]].
  apply wp_bind, wp_peek_at. wp_case Hws; [|apply wp_ret, HQ; [done|lia]]. bool_to_prop.
  assert (position s < L) by (destruct HI; apply before_end; unfold cur in *; lia).
  apply wp_bind, wp_modifyS, wp_bind, wp_skipSeparationSpace; [apply Inv_step; [done|lia]|].
  intros k s1 [HI1 [Hp1 _] _ _]. st. apply wp_ret, HQ; [done|lia].
Qed.

(** The store of one entry of a flow collection. *)
Lemma wp_flow_store (isMapping isPair : bool) l ok kt kn vn (Q : object -> State -> Prop) s :
  Inv s -> (forall o s', same_cursor s s' -> Q o s') ->
  wp (if isMapping then
        '(_, ok) ← storeMappingPair E (Some l) ok kt kn vn None; mret ok
      else if isPair then
        '(pr, ok) ← storeMappingPair E None ok kt kn vn None;
        _ ← heap_push l (VRef pr); mret ok
      else _ ← heap_push l kn; mret ok) Q err_ok s.
Proof.
  intros HI HQ. destruct isMapping; [|destruct isPair].
  - apply wp_bind, wp_storeMappingPair; [done|done|]. intros [? o] s' Hs'. by apply wp_ret, HQ.
  - apply wp_bind, wp_storeMappingPair; [done|done|]. intros [? o] s1 Hs1.
    apply wp_bind, wp_heap_push. intros s2 Hs2. apply wp_ret, HQ.
    eauto using same_cursor_trans.
  - apply wp_bind, wp_heap_push. intros s' Hs'. by apply wp_ret, HQ.
Qed.

(** The optional value of an entry of a flow collection. *)
Lemma wp_flow_value ni (b isExplicit : bool) (Q : bool * value -> State -> Prop) s :
  Inv s -> 2 * (L - position s) < N -> (b = true -> cur s = 58) ->
  (forall x s', Inv s' -> position s <= position s' -> Q x s') ->
  wp (if b then
        _ ← move 1;
        _ ← skipSeparationSpace E true ni;
        _ ← compose ni CONTEXT_FLOW_IN false true;
        v ← gets result; mret (true, v)
      else mret (isExplicit, VNull)) Q err_ok s.
Proof.
  intros HI HN Hb HQ. destruct b; [|apply wp_ret, HQ; [done|lia]].
  specialize (Hb eq_refl).
  assert (position s < L) by (destruct HI; apply before_end; unfold cur in *; lia).
  apply wp_bind, wp_modifyS, wp_bind, wp_skipSeparationSpace; [apply Inv_step; [done|lia]|].
  intros k s1 [HI1 [Hp1 _] _ _]. st. apply wp_bind, Hc; [done|simpl; lia|].
  intros b s2 HI2 [Hp2 _]. apply wp_bind, wp_gets, wp_ret, HQ; [done|lia].
Qed.

Lemma wp_flow_loop n ni term isM l t a (readNext : bool) ok ch Q s :
  (term = 125 \/ term = 93) -> Inv s -> 2 * (L - position s) < N ->
  2 * (L - position s) + (if readNext then 1 else 0) < Z.of_nat n ->
  (forall b s', Inv s' -> position s <= position s' -> Q b s') ->
  wp (flow_loop E compose n ni term isM l t a readNext ok ch) Q err_ok s.
Proof.
  intros Hterm. revert readNext ok ch s.
  induction n as [|n IH]; intros readNext ok ch s HI HN Hn HQ.
  { destruct HI, readNext; lia. }
  cbn [flow_loop]. wp_case H0; [by apply wp_throw_Inv|].
  apply wp_bind, wp_skipSeparationSpace; [done|]. intros k s1 [HI1 [Hp1 _] _ _].
  apply wp_bind, wp_peek. wp_case Ht; bool_to_prop.
  { assert (position s1 < L) by (destruct HI1; apply before_end; unfold cur in *; lia).
    assert (HI2 : Inv (set_position (position s1 + 1) s1)) by (apply Inv_step; [done|lia]).
    apply wp_bind, wp_modifyS, wp_finish_collection; [done|].
    intros b s2 Hs2. apply HQ; [by eapply Inv_same|]. destruct Hs2. st. lia. }
  wp_case Hrn; [by apply wp_throw_Inv|]. bool_to_prop. subst readNext.
  apply wp_bind, wp_flow_explicit; [done|]. intros ex s2 HI2 Hp2.
  apply wp_bind, wp_gets, wp_bind, Hc; [done|simpl; lia|]. intros b s3 HI3 [Hp3 _].
  apply wp_bind, wp_gets, wp_bind, wp_gets, wp_bind, wp_skipSeparationSpace; [done|].
  intros k' s4 [HI4 [Hp4 _] _ _]. apply wp_bind, wp_peek, wp_bind, wp_gets, wp_bind.
  apply wp_flow_value; [done|lia| |].
  { intros Hb. apply andb_true_iff in Hb as [_ Hb]. by bool_to_prop. }
  intros [isPair vn] s5 HI5 Hp5. apply wp_bind, wp_flow_store; [done|].
  intros ok' s6 Hs6. assert (HI6 : Inv s6) by by eapply Inv_same.
  destruct Hs6 as [Hp6 _]. apply wp_bind, wp_skipSeparationSpace; [done|].
  intros k'' s7 [HI7 [Hp7 _] _ _]. apply wp_bind, wp_peek. wp_case H44; bool_to_prop.
  - assert (position s7 < L) by (destruct HI7; apply before_end; unfold cur in *; lia).
    apply wp_bind, wp_advance, IH; st; [apply Inv_step; [done|lia]|lia|lia|].
    intros. apply HQ; [done|lia].
  - apply IH; [done|lia|lia|]. intros. apply HQ; [done|lia].
Qed.

Lemma wp_readFlowCollection ni Q s :
  Inv s -> 2 * (L - position s) <= N -> (forall b s', Inv s' -> adv s s' -> Q b s') ->
  wp (readFlowCollection E compose ni) Q err_ok s.
Proof.
  intros HI HN HQ. apply wp_bind, wp_gets, wp_bind, wp_gets, wp_bind, wp_peek.
  wp_case Hopen; [apply wp_ret, HQ; [done|apply adv_refl]|].
  assert (Hlt : position s < L).
  { destruct HI. apply before_end; [lia|]. fold (cur s). intros H0. by rewrite H0 in Hopen. }
  cbv zeta. apply wp_bind, wp_allocS.
  { destruct (cur s =? 123); [apply admits_object|apply admits_array]. }
  intros l s1 Hs1.
  apply wp_bind, wp_record_anchor. intros s2 Hs2.
  assert (Hs : same_cursor s s2) by eauto using same_cursor_trans.
  assert (HI2 : Inv s2) by by eapply Inv_same. destruct Hs as [Hp _].
  apply wp_bind, wp_advance, wp_flow_loop; st.
  - destruct (cur s =? 123); auto.
  - apply Inv_move; [done|lia].
  - lia.
  - rewrite Nat2Z.inj_mul, fuel0_eq. destruct HI2. lia.
  - intros. apply HQ; [done|]. apply adv_strict. lia.
Qed.

Lemma wp_sequence_loop n ni l d Q s :
  Inv s -> 2 * (L - position s) <= N -> L - position s < Z.of_nat n ->
  (forall b s', Inv s' -> adv s s' -> Q b s') ->
  wp (sequence_loop E compose n ni l d (cur s)) Q err_ok s.
Proof.
  revert d s. induction n as [|n IH]; intros d s HI HN Hn HQ.
  { destruct HI. lia. }
  assert (Hstop : forall b, wp (mret b) Q err_ok s).
  { intros b. apply wp_ret, HQ; [done|apply adv_refl]. }
  cbn [sequence_loop]. wp_case H0; [apply Hstop|]. wp_case H45; [apply Hstop|].
  apply wp_bind, wp_peek_at. wp_case Hws; [apply Hstop|]. bool_to_prop. clear Hstop.
  assert (position s < L) by (destruct HI; by apply before_end).
  apply wp_bind, wp_modifyS, wp_bind, wp_skipSeparationSpace; [apply Inv_step; [done|lia]|].
  intros k s1 [HI1 [Hp1 _] _ _]. st. apply wp_bind, wp_gets. wp_case Hempty.
  - apply wp_bind, wp_heap_push. intros s2 Hs2. apply wp_bind, wp_peek.
    assert (HI2 : Inv s2) by by eapply Inv_same. destruct Hs2 as [Hp2 _].
    apply IH; [done|lia|lia|]. intros b s3 HI3 [Hp3 _]. apply HQ; [done|].
    apply adv_strict. lia.
  - apply wp_bind, wp_gets, wp_bind, Hc; [done|simpl; lia|]. intros b s2 HI2 [Hp2 _].
    apply wp_bind, wp_gets, wp_bind, wp_heap_push. intros s3 Hs3.
    assert (HI3 : Inv s3) by by eapply Inv_same. destruct Hs3 as [Hp3 _].
    apply wp_bind, wp_skipSeparationSpace; [done|]. intros k' s4 [HI4 [Hp4 _] _ _].
    apply wp_bind, wp_peek, wp_bind, wp_gets, wp_bind, wp_gets.
    wp_case Hbad; [by apply wp_throw_Inv|].
    wp_case Hli; [apply wp_ret, HQ; [done|apply adv_strict; lia]|].
    apply IH; [done|lia|lia|]. intros b' s5 HI5 [Hp5 _]. apply HQ; [done|].
    apply adv_strict. lia.
Qed.

Lemma wp_readBlockSequence ni Q s :
  Inv s -> 2 * (L - position s) <= N -> (forall b s', Inv s' -> adv s s' -> Q b s') ->
  wp (readBlockSequence E compose ni) Q err_ok s.
Proof.
  intros HI HN HQ. apply wp_bind, wp_gets, wp_bind, wp_gets, wp_bind, wp_allocS; [apply admits_array|].
  intros l s1 Hs1. apply wp_bind, wp_record_anchor. intros s2 Hs2.
  assert (Hs : same_cursor s s2) by eauto using same_cursor_trans.
  assert (HI2 : Inv s2) by by eapply Inv_same. pose proof Hs as [Hp _].
  apply wp_bind, wp_peek, wp_bind, wp_sequence_loop; [done|lia| |].
  { rewrite fuel0_eq. destruct HI2. lia. }
  intros b s3 HI3 Hadv3.
  assert (adv s s3) by (eapply adv_trans; [by apply adv_same|done]).
  wp_case Hb; [|by apply wp_ret, HQ].
  apply wp_finish_collection; [done|]. intros b' s4 Hs4.
  apply HQ; [by eapply Inv_same|]. eapply adv_trans; [done|by apply adv_same].
Qed.

Lemma wp_flush_explicit l v (Q : bm_vars -> State -> Prop) s :
  Inv s -> (forall v' s', same_cursor s s' -> Q v' s') ->
  wp (flush_explicit E l v) Q err_ok s.
Proof.
  intros HI HQ. unfold flush_explicit. wp_case Hex; [|by apply wp_ret, HQ].
  apply wp_bind, wp_storeMappingPair; [done|done|]. intros [? o] s' Hs'. by apply wp_ret, HQ.
Qed.

(** What the first half of an iteration leaves behind. *)
Definition step_post (s : State) (x : bm_step) (s' : State) : Prop :=
  Inv s' /\ adv s s' /\
  match x with
  | BMGo _ _ ch => ch = cur s' /\ position s < position s'
  | _ => True
  end.

Lemma wp_mapping_indicator l v (Q : bm_step -> State -> Prop) s :
  Inv s -> cur s <> 0 -> (forall x s', step_post s x s' -> Q x s') ->
  wp (mapping_indicator E l v (cur s) (at_ (position s + 1))) Q err_ok s.
Proof.
  intros HI H0 HQ.
  assert (Hgo : forall v' s', same_cursor s s' ->
    wp (_ ← move 1; mret (BMGo v' true (at_ (position s + 1)))) Q err_ok s').
  { intros v' s' Hs'. assert (HI' : Inv s') by by eapply Inv_same.
    apply wp_bind, wp_modifyS, wp_ret, HQ.
    assert (Hpos : position s' = position s) by apply Hs'. split_and!; st; [|split; st; lia| |lia].
    - apply Inv_step; [done|]. by rewrite (cur_same s).
    - unfold cur. st. by rewrite Hpos. }
  apply wp_bind. wp_case H63.
  - apply wp_bind, wp_flush_explicit; [done|]. intros v' s' Hs'. by apply wp_ret, Hgo.
  - wp_case Hex; [by apply wp_ret, Hgo|by apply wp_throw_Inv].
Qed.

Lemma wp_mapping_key l t a fi ln v (Q : bm_step -> State -> Prop) s :
  Inv s -> 2 * (L - position s) < N -> (forall x s', step_post s x s' -> Q x s') ->
  wp (mapping_key E compose l t a fi ln v) Q err_ok s.
Proof.
  intros HI HN HQ. apply wp_bind, Hc; [done|simpl; lia|]. intros found s1 HI1 Hadv1.
  wp_case Hf; [|by apply wp_ret, HQ].
  assert (Hret : forall s2, Inv s2 -> adv s s2 ->
    wp (if bm_detected v then throwError E (js "can not read an implicit mapping pair; a colon is missed")
        else _ ← modifyS (fun s => set_anchor a (set_stag t s)); mret BMReturn) Q err_ok s2).
  { intros s2 HI2 Hadv2. wp_case Hd; [by apply wp_throw_Inv|].
    apply wp_bind, wp_modifyS, wp_ret, HQ. split_and!; [|done|done].
    eapply Inv_same; [|exact HI2]. by repeat split. }
  apply wp_bind, wp_gets. wp_case Hl.
  - apply wp_bind, wp_peek, wp_bind, wp_skip_while; [done|done|done|]. intros q Hq _ _.
    assert (HI2 : Inv (set_position q s1)) by by apply Inv_move.
    assert (Hadv2 : adv s1 (set_position q s1)) by (split; st; [lia|done]).
    wp_case H58; [|apply Hret; [done|by eapply adv_trans]]. bool_to_prop.
    assert (q < L) by (apply before_end; [lia|lia]).
    apply wp_bind, wp_advance. st. rewrite set_position_twice.
    assert (HI3 : Inv (set_position (q + 1) s1)) by (apply Inv_move; [done|lia]).
    wp_case Hws; [by apply wp_throw_Inv|].
    apply wp_bind, wp_getS, wp_bind, wp_flush_explicit; [done|]. intros v' s2 Hs2.
    assert (position s2 = q + 1) as Hp2 by apply Hs2. destruct Hadv1 as [Hp1 _].
    apply wp_ret, HQ. split_and!.
    + by eapply Inv_same.
    + apply adv_strict. lia.
    + by rewrite (cur_same _ _ Hs2).
    + lia.
  - wp_case Hd; [by apply wp_throw_Inv|]. by apply Hret.
Qed.

Lemma wp_mapping_value l ni ln ps compact v (Q : bm_vars -> State -> Prop) s :
  Inv s -> 2 * (L - position s) + 1 < N -> 0 <= ps <= L ->
  (forall v' s', Inv s' -> adv s s' -> Q v' s') ->
  wp (mapping_value E compose l ni ln ps compact v) Q err_ok s.
Proof.
  intros HI HN Hps HQ. apply wp_bind, Hc; [done|simpl; lia|]. intros found s1 HI1 Hadv1.
  apply wp_bind, wp_gets. cbv zeta.
  set (v1 := if (found : bool) then _ else _). wp_case Hex; [by apply wp_ret, HQ|].
  apply wp_bind, wp_storeMappingPair; [done|done|]. intros [? o] s2 Hs2.
  apply wp_ret, HQ; [by eapply Inv_same|]. eapply adv_trans; [done|by apply adv_same].
Qed.

Lemma wp_mapping_loop n ni fi l t a v (Q : option bm_vars -> State -> Prop) s :
  Inv s -> 2 * (L - position s) < N -> L - position s < Z.of_nat n ->
  (forall x s', Inv s' -> adv s s' -> Q x s') ->
  wp (mapping_loop E compose n ni fi l t a v (cur s)) Q err_ok s.
Proof.
  revert v s. induction n as [|n IH]; intros v s HI HN Hn HQ.
  { destruct HI. lia. }
  cbn [mapping_loop]. wp_case H0; [apply wp_ret, HQ; [done|apply adv_refl]|]. bool_to_prop.
  apply wp_bind, wp_peek_at, wp_bind, wp_gets, wp_bind, wp_gets, wp_bind.
  assert (Hps : 0 <= position s <= L) by (destruct HI; lia).
  assert (Hnext : forall v' ch s', Inv s' -> position s < position s' -> ch = cur s' ->
    wp (li ← gets lineIndent;
        if (ni <? li) && negb (ch =? 0) then
          throwError E (js "bad indentation of a mapping entry")
        else if li <? ni then mret (Some v')
        else mapping_loop E compose n ni fi l t a v' ch) Q err_ok s').
  { intros v' ch s' HI' Hp' ->. apply wp_bind, wp_gets. wp_case Hb; [by apply wp_throw_Inv|].
    wp_case Hli; [apply wp_ret, HQ; [done|by apply adv_strict]|].
    apply IH; [done|lia|lia|]. intros x s2 HI2 [Hp2 _]. apply HQ; [done|].
    apply adv_strict. lia. }
  assert (Hstep : forall x s', step_post s x s' ->
    wp (match x with
        | BMReturn => mret None
        | BMBreak v => mret (Some v)
        | BMGo v allowCompact ch =>
            l' ← gets line;
            li ← gets lineIndent;
            '(v, ch) ←
              (if (l' =? line s) || (ni <? li) then
                 v ← mapping_value E compose l ni (line s) (position s) allowCompact v;
                 _ ← skipSeparationSpace E true (-1);
                 ch ← peek E; mret (v, ch)
               else mret (v, ch));
            li ← gets lineIndent;
            if (ni <? li) && negb (ch =? 0) then
              throwError E (js "bad indentation of a mapping entry")
            else if li <? ni then mret (Some v)
            else mapping_loop E compose n ni fi l t a v ch
        end) Q err_ok s').
  { intros x s' (HI' & Hadv' & Hx). destruct x as [v' c ch|v'|]; [|by apply wp_ret, HQ..].
    destruct Hx as [-> Hp']. apply wp_bind, wp_gets, wp_bind, wp_gets, wp_bind.
    wp_case Hb; [|by apply wp_ret, Hnext].
    apply wp_bind, wp_mapping_value; [done|lia|done|]. intros v2 s2 HI2 [Hp2 _].
    apply wp_bind, wp_skipSeparationSpace; [done|]. intros k s3 [HI3 [Hp3 _] _ _].
    apply wp_bind, wp_peek, wp_ret, Hnext; [done|lia|done]. }
  wp_case Hind; [by apply wp_mapping_indicator|by apply wp_mapping_key].
Qed.

Lemma wp_readBlockMapping ni fi Q s :
  Inv s -> 2 * (L - position s) < N -> (forall b s', Inv s' -> adv s s' -> Q b s') ->
  wp (readBlockMapping E compose ni fi) Q err_ok s.
Proof.
  intros HI HN HQ. apply wp_bind, wp_gets, wp_bind, wp_gets, wp_bind, wp_allocS; [apply admits_object|].
  intros l s1 Hs1. apply wp_bind, wp_record_anchor. intros s2 Hs2.
  assert (Hs : same_cursor s s2) by eauto using same_cursor_trans.
  assert (HI2 : Inv s2) by by eapply Inv_same. pose proof Hs as [Hp _].
  apply wp_bind, wp_peek, wp_bind, wp_mapping_loop; [done|lia| |].
  { rewrite fuel0_eq. destruct HI2. lia. }
  intros x s3 HI3 Hadv3.
  assert (adv s s3) by (eapply adv_trans; [by apply adv_same|done]).
  destruct x as [v|]; [|by apply wp_ret, HQ].
  apply wp_bind, wp_flush_explicit; [done|]. intros v' s4 Hs4.
  assert (HI4 : Inv s4) by by eapply Inv_same.
  assert (Hadv4 : adv s s4) by (eapply adv_trans; [done|by apply adv_same]).
  wp_case Hd; [|by apply wp_ret, HQ].
  apply wp_finish_collection; [done|]. intros b' s5 Hs5.
  apply HQ; [by eapply Inv_same|]. eapply adv_trans; [done|by apply adv_same].
Qed.

(** ** Nodes *)

Definition reads (m : M bool) : Prop :=
  forall Q s, Inv s -> 2 * (L - position s) <= N ->
    (forall b s', Inv s' -> adv s s' -> Q b s') -> wp m Q err_ok s.

Lemma reads_or m1 m2 : reads m1 -> reads m2 -> reads (or_else m1 m2).
Proof.
  intros H1 H2 Q s HI HN HQ. apply wp_bind, H1; [done|done|]. intros b s1 HI1 Hadv1.
  wp_case Hb; [by apply wp_ret, HQ|]. pose proof Hadv1 as [Hp1 _].
  apply H2; [done|lia|]. intros b' s2 HI2 Hadv2. apply HQ; [done|by eapply adv_trans].
Qed.

Lemma reads_false : reads (mret false).
Proof. intros Q s HI HN HQ. apply wp_ret, HQ; [done|apply adv_refl]. Qed.

Lemma wp_read_scalar ctx fi abs Q s :
  Inv s -> 2 * (L - position s) <= N -> (forall b s', Inv s' -> adv s s' -> Q b s') ->
  wp (read_scalar E ctx fi abs) Q err_ok s.
Proof.
  intros HI HN HQ. apply wp_bind.
  assert (Hrec : forall b s1, Inv s1 -> adv s s1 ->
    wp (r ← gets result; _ ← record_anchor r; mret b) Q err_ok s1).
  { intros b s1 HI1 Hadv1. apply wp_bind, wp_gets, wp_bind, wp_record_anchor. intros s2 Hs2.
    apply wp_ret, HQ; [by eapply Inv_same|]. eapply adv_trans; [done|by apply adv_same]. }
  apply wp_bind. apply reads_or; [|apply reads_or|done|done|].
  { destruct abs; [|apply reads_false]. intros Q' s' ???. by apply wp_readBlockScalar. }
  { intros Q' s' ???. by apply wp_readSingleQuotedScalar. }
  { intros Q' s' ???. by apply wp_readDoubleQuotedScalar. }
  intros quoted s1 HI1 Hadv1. wp_case Hq; [by apply wp_ret, Hrec|].
  apply wp_bind, wp_readAlias; [done|]. intros al s2 HI2 Hadv2.
  assert (Hadv : adv s s2) by by eapply adv_trans. wp_case Hal.
  { apply wp_bind, wp_getS. wp_case Hprop; [by apply wp_ret, Hrec|by apply wp_throw_Inv]. }
  apply wp_bind, wp_readPlainScalar; [done|]. intros pl s3 HI3 Hadv3.
  assert (Hadv' : adv s s3) by by eapply adv_trans.
  wp_case Hpl; [|by apply wp_ret, Hrec]. apply wp_bind, wp_gets, wp_bind.
  wp_case Ht; [apply wp_modifyS|apply wp_ret]; apply wp_ret, Hrec; try done.
  eapply Inv_same; [|exact HI3]. by repeat split.
Qed.

Lemma wp_read_content pi ctx ist abs (abc : bool) Q s :
  Inv s -> 2 * (L - position s) + (if abc then 1 else 0) <= N ->
  (forall b s', Inv s' -> adv s s' -> Q b s') ->
  wp (read_content E compose pi ctx ist abs abc) Q err_ok s.
Proof.
  intros HI HN HQ. unfold read_content. cbv zeta. apply wp_bind, wp_gets.
  set (fi := match ctx with CONTEXT_FLOW_IN | CONTEXT_FLOW_OUT => _ | _ => _ end).
  wp_case H1.
  - apply wp_bind. unfold or_else at 1. apply wp_bind.
    assert (Hafter : forall b s1, Inv s1 -> adv s s1 ->
      wp (if b : bool then mret true else readFlowCollection E compose fi)
        (fun b => wp (if b : bool then mret true else read_scalar E ctx fi abs) Q err_ok)
        err_ok s1).
    { intros b s1 HI1 Hadv1. pose proof Hadv1 as [Hp1 _].
      wp_case Hb; [by apply wp_ret, wp_ret, HQ|].
      apply wp_readFlowCollection; [done|destruct abc; lia|]. intros b' s2 HI2 Hadv2.
      assert (adv s s2) by by eapply adv_trans. pose proof Hadv2 as [Hp2 _].
      wp_case Hb'; [by apply wp_ret, HQ|]. apply wp_read_scalar; [done|destruct abc; lia|].
      intros b3 s3 HI3 Hadv3. apply HQ; [done|by eapply adv_trans]. }
    destruct abc; [|by apply wp_ret, (Hafter false); [|apply adv_refl]].
    apply wp_bind, wp_readBlockSequence; [done|lia|]. intros b s1 HI1 Hadv1.
    wp_case Hb; [by apply wp_ret, (Hafter true)|]. pose proof Hadv1 as [Hp1 _].
    apply wp_readBlockMapping; [done|lia|]. intros b' s2 HI2 Hadv2.
    apply Hafter; [done|by eapply adv_trans].
  - wp_case H0; [|by apply wp_ret, HQ; [|apply adv_refl]].
    wp_case Habc; [|by apply wp_ret, HQ; [|apply adv_refl]].
    apply wp_readBlockSequence; [done|lia|done].
Qed.

Lemma wp_notify ev (Q : unit -> State -> Prop) R s :
  (forall s', same_cursor s s' -> Q tt s') -> wp (notify E ev) Q R s.
Proof. intros HQ. apply wp_modifyS, HQ. by destruct (listener E); repeat split. Qed.

Lemma wp_close_node b Q s :
  Inv s -> (forall b s', Inv s' -> adv s s' -> Q b s') -> wp (close_node E b) Q err_ok s.
Proof.
  intros HI HQ. apply wp_bind, wp_resolve_node; [done|]. intros s1 Hs1.
  apply wp_bind, wp_notify. intros s2 Hs2. apply wp_bind, wp_getS, wp_ret.
  assert (same_cursor s s2) by eauto using same_cursor_trans.
  apply HQ; [by eapply Inv_same|by apply adv_same].
Qed.

Lemma wp_seek_node pi seek (Q : Z * bool -> State -> Prop) s :
  Inv s -> (forall x s', Inv s' -> adv s s' -> Q x s') -> wp (seek_node E pi seek) Q err_ok s.
Proof.
  intros HI HQ. unfold seek_node. wp_case Hseek; [|by apply wp_ret, HQ; [|apply adv_refl]].
  apply wp_bind, wp_skipSeparationSpace; [done|]. intros k s1 [HI1 Hadv1 _ _].
  by apply wp_bind, wp_gets, wp_ret, HQ.
Qed.

Lemma wp_node_properties pi abs x (Q : Z * bool * bool -> State -> Prop) s :
  Inv s -> (forall y s', Inv s' -> adv s s' -> (snd y = true -> abs = true) -> Q y s') ->
  wp (node_properties E pi abs x) Q err_ok s.
Proof.
  intros HI HQ. unfold node_properties.
  wp_case H1; [|by apply wp_ret, HQ; [|apply adv_refl|]].
  apply wp_property_loop; [done|rewrite fuel0_eq; destruct HI; lia|done|done].
Qed.

Lemma wp_node_content pi ctx (abs : bool) compact y Q s :
  Inv s -> 2 * (L - position s) + (if abs then 1 else 0) <= N ->
  (snd y = true -> abs = true) -> (forall b s', Inv s' -> adv s s' -> Q b s') ->
  wp (node_content E compose pi ctx abs compact y) Q err_ok s.
Proof.
  intros HI HN Hy HQ. destruct y as [[ist atNew] abc]. simpl in *.
  wp_case H1; [|by apply wp_ret, HQ; [|apply adv_refl]].
  apply wp_read_content; [done| |done].
  destruct abc; [rewrite Hy in HN by done|destruct abs]; destruct (atNew || compact); simpl; lia.
Qed.

Lemma compose_body_spec : compose_spec (composeNode_body E compose) (N + 1).
Proof.
  intros pi ctx seek compact Q s HI HN HQ.
  apply wp_bind, wp_notify. intros s1 Hs1. apply wp_bind, wp_modifyS. cbv zeta.
  set (abs := match ctx with CONTEXT_BLOCK_OUT | CONTEXT_BLOCK_IN => true | _ => false end).
  assert (Hw : weight ctx = if abs then 1 else 0) by by destruct ctx. clearbody abs.
  apply wp_bind, wp_seek_node; [eapply Inv_same; [|exact HI];
    eapply same_cursor_trans; [exact Hs1|by repeat split]|].
  intros x s2 HI2 Hadv2. apply wp_bind, wp_node_properties; [done|]. intros y s3 HI3 Hadv3 Hy.
  assert (Hadv : adv s s3).
  { eapply adv_trans, adv_trans; [by apply adv_same| |exact Hadv3]. exact Hadv2. }
  pose proof Hadv as [Hp _].
  apply wp_bind, wp_node_content; [done|lia|done|]. intros b s4 HI4 Hadv4.
  apply wp_close_node; [done|]. intros b' s5 HI5 Hadv5.
  apply HQ; [done|]. eauto using adv_trans.
Qed.
End with_compose.

Lemma composeNode_spec n : compose_spec (composeNode E n) (Z.of_nat n).
Proof.
  induction n as [|n IH].
  - intros pi ctx seek compact Q s [] HN. destruct ctx; simpl in *; lia.
  - replace (Z.of_nat (S n)) with (Z.of_nat n + 1) by lia. by apply compose_body_spec.
Qed.

(** ** Documents *)

(** Only the position moves inside a directive. *)
Lemma wp_directive_args n args (Q : list jsstr * Z -> State -> Prop) s :
  Inv s -> L - position s < Z.of_nat n ->
  (forall args' q, position s <= q <= L -> Q (args', at_ q) (set_position q s)) ->
  wp (directive_args E n args (cur s)) Q err_ok s.
Proof.
  revert args s. induction n as [|n IH]; intros args s HI Hn HQ.
  { destruct HI. lia. }
  cbn [directive_args]. wp_case H0.
  { apply wp_ret. specialize (HQ args (position s)).
    replace (set_position (position s) s) with s in HQ by by destruct s.
    apply HQ. destruct HI; lia. }
  apply wp_bind, wp_skip_while; [done|done|done|]. intros q Hq Hws _.
  assert (HI1 : Inv (set_position q s)) by by apply Inv_move.
  wp_case H35; [|wp_case Heol]; bool_to_prop.
  - apply wp_bind, wp_do_skip_while; [done|by apply before_end; st; lia|done|]. st.
    intros q' Hq' _. rewrite set_position_twice. apply wp_ret, HQ. lia.
  - by apply wp_ret, HQ.
  - apply wp_bind, wp_gets, wp_bind, wp_skip_while; [done|done|done|]. st.
    intros q' Hq' Hstop _. apply wp_bind, wp_gets. st. rewrite set_position_twice.
    assert (position s < q').
    { destruct (decide (q' = position s)) as [->|]; [|lia].
      replace q with (position s) in * by lia. fold (cur s) in *.
      unfold is_WS_OR_EOL, is_WHITE_SPACE, is_EOL in *. lia. }
    assert (HI2 : Inv (set_position q' s)) by (apply Inv_move; [done|lia]).
    apply (IH _ (set_position q' s)); st; [done|lia|].
    intros args' q2 Hq2. rewrite set_position_twice. apply HQ. lia.
Qed.

Lemma wp_run_directive name args (Q : unit -> State -> Prop) s :
  Inv s -> (forall s', same_cursor s s' -> Q tt s') ->
  wp (run_directive E name args) Q err_ok s.
Proof.
  intros HI HQ. unfold run_directive, handleYamlDirective, handleTagDirective.
  wp_case Hy; [|wp_case Ht; [|by apply wp_throwWarning]].
  - apply wp_bind, wp_gets, wp_bind. wp_case Hv; [apply wp_ret|by apply wp_throw_Inv].
    destruct args as [|arg [|]]; [by apply wp_throw_Inv| |by apply wp_throw_Inv].
    wp_case Hx; [|by apply wp_throw_Inv]. destruct p as [major minor].
    wp_case Hmaj; [by apply wp_throw_Inv|]. apply wp_bind, wp_modifyS, wp_bind, wp_modifyS.
    wp_case Hmin; [apply wp_throwWarning|apply wp_ret, HQ; by repeat split].
    intros s' Hs'. apply HQ. by eapply same_cursor_trans; [|exact Hs'].
  - destruct args as [|handle [|prefix [|]]]; try by apply wp_throw_Inv.
    wp_case Hh; [by apply wp_throw_Inv|]. apply wp_bind, wp_gets.
    wp_case Hhas; [by apply wp_throw_Inv|]. wp_case Hp; [by apply wp_throw_Inv|].
    apply wp_modifyS, HQ. by repeat split.
Qed.

Lemma wp_directives_loop n d Q s :
  Inv s -> L - position s < Z.of_nat n -> (forall b s', Inv s' -> adv s s' -> Q b s') ->
  wp (directives_loop E n d) Q err_ok s.
Proof.
  revert d s. induction n as [|n IH]; intros d s HI Hn HQ.
  { destruct HI. lia. }
  cbn [directives_loop]. apply wp_bind, wp_peek.
  wp_case H0; [apply wp_ret, HQ; [done|apply adv_refl]|].
  apply wp_bind, wp_skipSeparationSpace; [done|]. intros k s1 [HI1 Hadv1 _ _].
  apply wp_bind, wp_peek, wp_bind, wp_gets. wp_case Hd; [by apply wp_ret, HQ|].
  apply orb_false_iff in Hd as [Hli H37]. bool_to_prop. pose proof Hadv1 as [Hp1 _].
  assert (Hlt : position s1 < L) by (destruct HI1; apply before_end; unfold cur in *; lia).
  apply wp_bind, wp_advance, wp_bind, wp_gets, wp_bind.
  apply wp_skip_while; [apply Inv_step; [done|lia]|done|done|]. st. intros q Hq _ _.
  apply wp_bind, wp_gets. st. rewrite set_position_twice.
  assert (HI2 : Inv (set_position q s1)) by (apply Inv_move; [done|lia]). cbv zeta.
  wp_case Hlen; [by apply wp_throw_Inv|]. apply wp_bind.
  apply (wp_directive_args _ _ _ (set_position q s1)); st; [done|rewrite fuel0_eq; destruct HI1; lia|].
  intros args q2 Hq2. rewrite set_position_twice. apply wp_bind.
  assert (Hrest : forall s2, Inv s2 -> position s < position s2 ->
    wp (_ ← run_directive E (slice (input E) (position s1 + 1) q) args;
        directives_loop E n true) Q err_ok s2).
  { intros s2 HI3 Hp2. apply wp_bind, wp_run_directive; [done|]. intros s3 Hs3.
    assert (Hp3 : position s3 = position s2) by apply Hs3.
    apply IH; [by eapply Inv_same|lia|]. intros b s4 HI4 [Hp4 _].
    apply HQ; [done|]. apply adv_strict. lia. }
  wp_case Hz; [apply wp_ret, Hrest; [apply Inv_move; [done|lia]|st; lia]|].
  apply wp_readLineBreak; st; [destruct HI1; lia|]. intros p Hp _.
  apply Hrest; unfold broken; st; [|lia]. destruct HI1. split; st; first [lia|done].
Qed.

(** Whether the next three units are the [---] marker of an unindented line. *)
Definition at_marker (s : State) : bool :=
  (lineIndent s =? 0) && (cur s =? 45) && (at_ (position s + 1) =? 45)
  && (at_ (position s + 2) =? 45).

(** The marker is consumed when it is there. *)
Lemma wp_directives_end d (Q : unit -> State -> Prop) s :
  Inv s ->
  (forall s', Inv s' -> adv s s' -> position s < position s' \/ at_marker s' = false -> Q tt s') ->
  wp (directives_end E d) Q err_ok s.
Proof.
  intros HI HQ. apply wp_bind, wp_gets, wp_bind, wp_peek.
  apply wp_bind, wp_peek_at, wp_bind, wp_peek_at. wp_case Hm.
  - bool_to_prop. unfold cur in *.
    assert (position s < L) by (destruct HI; apply before_end; lia).
    assert (position s + 1 < L) by (apply before_end; lia).
    assert (position s + 2 < L) by (apply before_end; lia).
    apply wp_bind, wp_modifyS, wp_bind, wp_skipSeparationSpace; [apply Inv_move; [done|lia]|].
    intros k s1 [HI1 [Hp1 _] _ _]. st. apply wp_ret, HQ; [done|apply adv_strict; lia|lia].
  - wp_case Hd; [by apply wp_throw_Inv|]. apply wp_ret, HQ; [done|apply adv_refl|by right].
Qed.

Lemma wp_document_node fuel start (Q : unit -> State -> Prop) s :
  Inv s -> 2 * L + 1 < Z.of_nat fuel -> (forall s', Inv s' -> adv s s' -> Q tt s') ->
  wp (document_node E fuel start) Q err_ok s.
Proof.
  intros HI HN HQ. apply wp_bind, wp_gets, wp_bind.
  apply composeNode_spec; [done|destruct HI; simpl; lia|]. intros b s1 HI1 Hadv1.
  apply wp_bind, wp_skipSeparationSpace; [done|]. intros k s2 [HI2 Hadv2 _ _].
  assert (Hadv : adv s s2) by by eapply adv_trans.
  assert (Hpush : forall s3, same_cursor s2 s3 ->
    wp (modifyS (fun s => set_documents (documents s ++ [result s]) s)) Q err_ok s3).
  { intros s3 Hs3. apply wp_modifyS, HQ.
    - eapply Inv_same, HI2. eapply same_cursor_trans; [exact Hs3|by repeat split].
    - eapply adv_trans; [exact Hadv|]. apply adv_same.
      eapply same_cursor_trans; [exact Hs3|by repeat split]. }
  apply wp_bind, wp_getS, wp_bind.
  wp_case Hw; [by apply wp_throwWarning|by apply wp_ret, Hpush].
Qed.

(** At a [---] that starts a line the next document begins; elsewhere the
    stream has ended. *)
Lemma wp_document_end (Q : unit -> State -> Prop) s :
  Inv s ->
  (forall s', Inv s' ->
     position s < position s' \/ L - 1 <= position s' \/ (s' = s /\ at_marker s = true) ->
     Q tt s') ->
  wp (document_end E) Q err_ok s.
Proof.
  intros HI HQ. apply wp_bind, wp_at_document_separator. intros sep Hsep. wp_case Hs.
  - destruct (Hsep eq_refl) as (Hls & Hc0 & Hc1 & Hc2). unfold cur in *.
    apply wp_bind, wp_peek. wp_case H46; bool_to_prop; unfold cur in *.
    + assert (position s < L) by (destruct HI; apply before_end; lia).
      assert (position s + 1 < L) by (apply before_end; lia).
      assert (position s + 2 < L) by (apply before_end; lia).
      apply wp_bind, wp_modifyS, wp_bind, wp_skipSeparationSpace; [apply Inv_move; [done|lia]|].
      intros k s1 [HI1 [Hp1 _] _ _]. st. apply wp_ret, HQ; [done|lia].
    + apply wp_ret, HQ; [done|]. right; right. split; [done|]. unfold at_marker, cur.
      destruct HI. rewrite !andb_true_iff, !Z.eqb_eq. lia.
  - apply wp_bind, wp_gets. wp_case Hp; [by apply wp_throw_Inv|]. bool_to_prop.
    apply wp_ret, HQ; [done|lia].
Qed.

(** A document consumes input, unless only the final line break is left. *)
Lemma wp_readDocument fuel (Q : unit -> State -> Prop) s :
  Inv s -> 2 * L + 1 < Z.of_nat fuel ->
  (forall s', Inv s' -> position s < position s' \/ L - 1 <= position s' -> Q tt s') ->
  wp (readDocument E fuel) Q err_ok s.
Proof.
  intros HI HN HQ. apply wp_bind, wp_gets, wp_bind, wp_modifyS. set (s0 := set_anchorMap _ _).
  assert (HI0 : Inv s0) by (eapply Inv_same; [|exact HI]; by repeat split).
  assert (Hp0 : position s0 = position s) by done. clearbody s0.
  apply wp_bind, wp_directives_loop; [done|rewrite fuel0_eq; destruct HI; lia|].
  intros d s1 HI1 [Hp1 _]. apply wp_bind, wp_skipSeparationSpace; [done|].
  intros k s2 [HI2 [Hp2 _] _ _]. apply wp_bind, wp_directives_end; [done|].
  intros s3 HI3 [Hp3 _] Hmark. apply wp_bind, wp_document_node; [done|done|].
  intros s4 HI4 [Hp4 Hstay]. apply wp_document_end; [done|]. intros s5 HI5 Hend.
  apply HQ; [done|]. destruct Hend as [?|[?|[-> Hm]]]; [lia|lia|].
  destruct Hmark as [?|Hmark]; [lia|]. left.
  destruct (decide (position s4 = position s3)) as [Heq|]; [|lia].
  destruct (Hstay Heq) as [_ Hli]. unfold at_marker, cur in *. congruence.
Qed.

Lemma wp_documents_loop n fuel (Q : unit -> State -> Prop) s :
  Inv s -> 2 * L + 1 < Z.of_nat fuel -> L - position s < Z.of_nat n ->
  (forall s', Inv s' -> Q tt s') -> wp (documents_loop E n fuel) Q err_ok s.
Proof.
  revert s. induction n as [|n IH]; intros s HI HN Hn HQ.
  { destruct HI. lia. }
  cbn [documents_loop]. apply wp_bind, wp_gets. wp_case Hp; [|by apply wp_ret, HQ]. bool_to_prop.
  apply wp_bind, wp_readDocument; [done|done|]. intros s1 HI1 Hadv.
  apply IH; [done|done| |done]. destruct Hadv; [lia|]. destruct HI. lia.
Qed.

Lemma wp_read_documents fuel s (Q : unit -> State -> Prop) :
  Forall OK (sheap s) -> position s = 0 -> lineStart s = 0 -> lineIndent s = 0 -> 2 * L + 1 < Z.of_nat fuel ->
  (forall s', Inv s' -> Q tt s') -> wp (read_documents E fuel) Q err_ok s.
Proof.
  intros Hh Hp Hls Hli HN HQ. pose proof L_nonneg as HL. apply wp_bind, wp_peek, wp_bind.
  apply wp_indent_loop; [lia|done|rewrite fuel0_eq; lia|]. intros k Hk Hk' _.
  apply wp_documents_loop; [|done| |done].
  - unfold indented. split; st; first [lia|done].
  - rewrite fuel0_eq. unfold indented. st. lia.
Qed.
End total.
