(* ===== verification/YamlTotality.v ===== *)
(** * js-yaml: every call of the loader ends

    The types of the predefined schemas are total, compiling a schema keeps
    that, and so every entry point of the loader either returns documents or
    throws an exception whose mark lies inside the text. *)

From S2P Require Import JsPrelude JsNumber JsValue JsRegExp YamlCommon YamlTypes YamlSchema.
From S2P Require Import YamlLoader YamlLoaderTotal.

(** ** Total outcomes *)

Lemma outcome_bind_total {X A B} (o : outcome X A) (k : A -> outcome X B) :
  o <> OutOfFuel -> (forall a, k a <> OutOfFuel) -> (o ≫= k) <> OutOfFuel.
Proof. destruct o; simpl; auto; done. Qed.

Ltac total_step :=
  first [ done
        | match goal with H : value_toString _ _ _ = OutOfFuel |- _ =>
            by destruct (value_toString_total _ _ _ H) end
        | apply value_toString_total
        | apply outcome_bind_total; [|intros]
        | progress simpl
        | case_match ].

Ltac total_tac := repeat total_step.

Lemma elements_of_total h v : elements_of h v <> OutOfFuel.
Proof. unfold elements_of. total_tac. Qed.

Lemma pair_of_total h v : pair_of h v <> OutOfFuel.
Proof. unfold pair_of. total_tac. Qed.

Lemma construct_pairs_loop_total h es acc : construct_pairs_loop h es acc <> OutOfFuel.
Proof.
  revert h acc. induction es as [|e es IH]; intros h acc; simpl; [done|].
  apply outcome_bind_total; [apply pair_of_total|]. intros. apply IH.
Qed.

Lemma Forall_alloc {A} (P : A -> Prop) h o : Forall P h -> P o -> Forall P (h ++ [o]).
Proof. intros. apply Forall_app. by repeat constructor. Qed.

(** ** The predefined types *)

(** Objects that only carry data. *)
Definition data_object (o : hobj) : Prop :=
  match o with ORegExp _ _ | OFunction _ _ => False | _ => True end.

Definition any_object (o : hobj) : Prop := True.

#[export] Instance data_admits : Admits data_object.
Proof. by split. Qed.
#[export] Instance any_admits : Admits any_object.
Proof. by split. Qed.

(** A constructor that allocates at most one object. *)
Ltac heap_tac :=
  intros h v v' h' Hcon Hh; unfold constructYamlNull, constructYamlBoolean in *; simpl in Hcon;
  repeat (first [progress simplify_eq/= | case_match]; try done).

Section good_types.
Context (OK : hobj -> Prop) `{!Admits OK} (hs : Host).

Lemma is_kind_construct_heap d h v v' h' :
  OK d -> is_kind_construct d h v = Ret (v', h') -> Forall OK h -> Forall OK h'.
Proof.
  intros Hd Hcon Hh. unfold is_kind_construct in Hcon. case_match; simplify_eq/=; try done.
  by apply Forall_alloc.
Qed.

Lemma failsafe_types_good : Forall (good_type OK) [str_type; seq_type; map_type].
Proof.
  repeat constructor; simpl; unfold constructYamlStr, constructYamlSeq, constructYamlMap.
  all: first [by (unfold is_kind_construct; intros h v; total_tac) | by heap_tac
             | intros h v v' h'; by apply is_kind_construct_heap; apply admits_array
             | intros h v v' h'; by apply is_kind_construct_heap; apply admits_object].
Qed.

Lemma json_types_good : Forall (good_type OK) [null_type; bool_type; int_type; float_type hs].
Proof.
  repeat constructor; simpl; unfold resolveYamlNull, resolveYamlBoolean, resolveYamlInteger,
    constructYamlInteger, resolveYamlFloat, constructYamlFloat.
  all: first [by (intros h v; total_tac) | by heap_tac].
Qed.

Lemma construct_pairs_loop_heap h es acc r h' :
  construct_pairs_loop h es acc = Ret (r, h') -> Forall OK h -> Forall OK h'.
Proof.
  revert h acc. induction es as [|e es IH]; intros h acc; simpl; [by intros [= <- <-]|].
  destruct (pair_of h e); simpl; [|done|done]. intros Hc Hh. eapply IH; [done|].
  apply Forall_alloc; [done|apply admits_array].
Qed.

Lemma safe_implicit_good :
  (forall t, OK (ODate t)) -> Forall (good_type OK) [timestamp_type hs; merge_type].
Proof.
  intros Hdate. repeat constructor; simpl; unfold resolveYamlTimestamp, resolveYamlMerge.
  all: first [by (unfold constructYamlTimestamp; intros h v; total_tac) | idtac].
  - intros h v v' h'. unfold constructYamlTimestamp.
    destruct (value_toString hs h v); simpl; [|done|done]. case_match; [|done].
    intros [= <- <-] Hh. by apply Forall_alloc.
  - by intros h v v' h' [= <- <-].
Qed.

Lemma safe_explicit_good :
  (forall bs, OK (OBuffer bs)) ->
  Forall (good_type OK) [binary_type hs; omap_type; pairs_type; set_type].
Proof.
  intros Hbuf.
  repeat constructor; simpl; unfold resolveYamlBinary, resolveYamlOmap, resolveYamlPairs,
    resolveYamlSet, constructYamlOmap, constructYamlSet.
  all: first [by (unfold constructYamlBinary, constructYamlPairs, is_kind_construct; intros h v;
                  repeat first [apply elements_of_total | apply construct_pairs_loop_total
                               | total_step])
             | intros h v v' h'; by apply is_kind_construct_heap; apply admits_array
             | intros h v v' h'; by apply is_kind_construct_heap; apply admits_object
             | idtac].
  - intros h v v' h' Hcon Hh. unfold constructYamlBinary in Hcon.
    destruct v; simplify_eq/=. apply Forall_alloc; [done|].
    case_match; [apply Hbuf|apply admits_array].
  - intros h v v' h' Hcon Hh. unfold constructYamlPairs in Hcon.
    assert (Hloop : (es ← elements_of h v; '(result, h') ← construct_pairs_loop h es [];
        Ret (VRef (length h'), h' ++ [OArray result])) = Ret (v', h') -> Forall OK h').
    { clear Hcon. destruct (elements_of h v) as [es| |]; simpl; [|done|done].
      destruct (construct_pairs_loop h es []) as [[r h2]| |] eqn:Hl; simpl; [|done|done].
      intros [= <- <-]. apply Forall_alloc; [|apply admits_array].
      by eapply construct_pairs_loop_heap. }
    destruct v; try by apply Hloop. simplify_eq/=. apply Forall_alloc; [done|apply admits_array].
Qed.

Lemma full_types_good :
  (forall o, OK o) -> Forall (good_type OK) [undefined_type; regexp_type hs; function_type hs].
Proof.
  intros Hall. repeat constructor; simpl; unfold resolveJavascriptRegExp,
    constructJavascriptRegExp, resolveJavascriptFunction, constructJavascriptFunction.
  all: first [by (intros h v; total_tac) | intros; by apply Forall_true].
Qed.
End good_types.

(** ** Schemas *)

(** A property of every type a schema holds or includes. *)
Fixpoint schema_all (P : yaml_type -> Prop) (s : schema) : Prop :=
  match s with
  | mkSchema inc i e =>
      Forall P i /\ Forall P e /\ foldr (fun s acc => schema_all P s /\ acc) True inc
  end.

Lemma schema_induction (Q : schema -> Prop) :
  (forall inc i e, Forall Q inc -> Q (mkSchema inc i e)) -> forall s, Q s.
Proof.
  intros Hstep. fix IH 1. intros [inc i e]. apply Hstep.
  induction inc as [|s inc IHinc]; constructor; [apply IH|apply IHinc].
Qed.

Section every_type.
Variable P : yaml_type -> Prop.

Lemma drop_indices_Forall i ex ts : Forall P ts -> Forall P (drop_indices i ex ts).
Proof.
  intros H. revert i. induction H as [|t ts Ht _ IH]; intros i; simpl; [done|].
  apply Forall_app. split; [case_match; auto|apply IH].
Qed.

Lemma compile_own_fst ts r ex : fst (compile_own ts r ex) = r ++ ts.
Proof.
  revert r ex. induction ts as [|t ts IH]; intros r ex; simpl; [by rewrite app_nil_r|].
  by rewrite IH, <- app_assoc.
Qed.

Lemma compileList_Forall own s r :
  (own = implicit \/ own = explicit) -> schema_all P s -> Forall P r ->
  Forall P (compileList own s r).
Proof.
  intros Hown. revert r. induction s as [inc i e IH] using schema_induction.
  intros r (Hi & He & Hinc) Hr. simpl.
  assert (Hr' : Forall P (fold_left (fun r inc => compileList own inc r) inc r)).
  { clear Hi He. revert r Hr. induction IH as [|s inc Hs _ IHinc]; intros r Hr; simpl; [done|].
    destruct Hinc as [Hs' Hinc]. apply IHinc; [done|]. by apply Hs. }
  destruct (compile_own _ _ _) as [r2 ex] eqn:Hc. apply drop_indices_Forall.
  replace r2 with (fst (compile_own (own (mkSchema inc i e))
    (fold_left (fun r inc => compileList own inc r) inc r) [])) by by rewrite Hc.
  rewrite compile_own_fst. apply Forall_app. split; [done|]. by destruct Hown as [-> | ->].
Qed.

Definition table_all (ts : list (jsstr * yaml_type)) : Prop := Forall (fun p => P (snd p)) ts.

Lemma assoc_set_Forall ts k t : table_all ts -> P t -> table_all (assoc_set ts k t).
Proof.
  intros H Ht. induction H as [|[k' t'] ts Hp Hts IH]; simpl; [by constructor|].
  case_match; by constructor.
Qed.

Definition map_all (m : type_map) : Prop := forall k, table_all (kind_table m k).

Lemma collectType_all m t : map_all m -> P t -> map_all (collectType m t).
Proof.
  intros Hm Ht k. unfold collectType.
  destruct (kind t), k as [[]|]; simpl; try apply assoc_set_Forall; try done;
    first [apply (Hm (Some KScalar)) | apply (Hm (Some KSequence))
          | apply (Hm (Some KMapping)) | apply (Hm None)].
Qed.

Lemma compileMap_all ls : Forall (Forall P) ls -> map_all (compileMap ls).
Proof.
  intros Hls. unfold compileMap.
  assert (Hm : map_all (mkTypeMap [] [] [] [])) by (intros [[]|]; constructor).
  revert Hm. generalize (mkTypeMap [] [] [] []).
  induction Hls as [|ts ls Hts _ IH]; intros m Hm; simpl; [done|]. apply IH.
  revert m Hm. induction Hts as [|t ts Ht _ IHts]; intros m Hm; simpl; [done|].
  apply IHts. by apply collectType_all.
Qed.

Lemma compiledTypeMap_all s : schema_all P s -> map_all (compiledTypeMap s).
Proof.
  intros Hs. apply compileMap_all.
  repeat constructor; apply compileList_Forall; auto; constructor.
Qed.
End every_type.

Lemma safe_schema_good OK `{!Admits OK} hs :
  (forall t, OK (ODate t)) -> (forall bs, OK (OBuffer bs)) ->
  schema_all (good_type OK) (DEFAULT_SAFE_SCHEMA hs).
Proof.
  intros Hd Hb. simpl. split_and!; try done.
  all: first [by apply failsafe_types_good | by apply json_types_good
             | by apply safe_implicit_good | by apply safe_explicit_good | constructor].
Qed.

Lemma full_schema_good hs : schema_all (good_type any_object) (DEFAULT_FULL_SCHEMA hs).
Proof.
  split; [constructor|]. split; [by apply full_types_good|].
  split; [by apply safe_schema_good|done].
Qed.

(** ** The entry points *)

(** The text [loadDocuments] scans is empty or ends with a line break. *)
Lemma prepare_input_end text :
  prepare_input text = [] \/ exists b c, prepare_input text = b ++ [c] /\ is_EOL c = true.
Proof.
  unfold prepare_input. destruct text as [|x text']; [by left|].
  set (text := x :: text').
  assert (Hended : exists b c, (if negb (charCodeAt text (strlen text - 1) =? 10)
      && negb (charCodeAt text (strlen text - 1) =? 13) then text ++ [10] else text) = b ++ [c]
      /\ is_EOL c = true).
  { case_match eqn:Hl; [by eexists _, _|].
    destruct (exists_last (l := text)) as (b & c & Ht); [done|]. exists b, c. split; [done|].
    rewrite Ht in Hl. rewrite charCodeAt_mid in Hl by (autorewrite with js; lia).
    unfold is_EOL. apply andb_false_iff in Hl. destruct Hl; bool_to_prop; lia. }
  destruct Hended as (b & c & -> & Hc). case_match; [|right; by eexists _, _].
  destruct b as [|y b]; [left; done|right].
  exists b, c. split; [|done]. unfold slice_from, slice. simpl.
  by rewrite drop_0.
Qed.

(** The schema the options select, with types that are good. *)
Definition options_schema (hs : Host) (o : load_options) : schema :=
  default (DEFAULT_FULL_SCHEMA hs) (opt_schema o).

Lemma make_env_wf OK hs text o :
  schema_all (good_type OK) (options_schema hs o) -> wf_env OK (make_env hs (prepare_input text) o).
Proof.
  intros Ho. split; simpl.
  - eexists. split; [done|]. split; [done|]. apply prepare_input_end.
  - by apply compileList_Forall; [left| |constructor].
  - by apply compiledTypeMap_all.
Qed.

(** The exceptions of a run on [text]: a mark points into the scanned text. *)
Definition mark_inside (text : jsstr) (e : jserror) : Prop :=
  match e with
  | EYaml x => match mark x with
               | Some m => 0 <= mposition m <= strlen (prepare_input text)
                           /\ buffer m = prepare_input text ++ [0]
               | None => True end
  | ENative _ => True
  end.

(** The result of a run: a value, or an exception of the given kind. *)
Definition ends {A} (P : A -> Prop) (R : jserror -> Prop) (o : outcome jserror A) : Prop :=
  match o with Ret a => P a | Throw e => R e | OutOfFuel => False end.

Section runs.
Context (OK : hobj -> Prop) `{!Admits OK} (hs : Host) (h : heap) (text : jsstr).
Hypothesis Hheap : Forall OK h.

Lemma loadDocuments_ends o :
  schema_all (good_type OK) (options_schema hs o) ->
  ends (fun '(docs, s) => Forall OK (sheap s)) (mark_inside text) (loadDocuments hs h text o).
Proof.
  intros Ho. set (E := make_env hs (prepare_input text) o).
  assert (Hwp : wp (read_documents E (compose_fuel (prepare_input text)))
    (fun _ s => Forall OK (sheap s)) (err_ok E) (initial_state h)).
  { apply (wp_read_documents OK); [by apply make_env_wf|done|done|done|done| |].
    - unfold compose_fuel. simpl. unfold strlen. lia.
    - by intros s' []. }
  unfold loadDocuments. fold E. unfold wp in Hwp.
  by destruct (read_documents _ _ _) as [[[] s]|e|].
Qed.

Lemma load_ends o :
  schema_all (good_type OK) (options_schema hs o) ->
  ends (fun '(v, s) => Forall OK (sheap s)) (mark_inside text) (load hs h text o).
Proof.
  intros Ho. pose proof (loadDocuments_ends o Ho) as Hends. unfold load.
  destruct (loadDocuments hs h text o) as [[docs s]|e|]; simpl in *; [|done|done].
  by destruct docs as [|d [|]].
Qed.

Lemma loadAll_ends it o :
  schema_all (good_type OK) (options_schema hs o) ->
  ends (fun '(r, s) => Forall OK (sheap s)) (mark_inside text) (loadAll hs h text it o).
Proof.
  intros Ho. pose proof (loadDocuments_ends o Ho) as Hends. unfold loadAll.
  by destruct (loadDocuments hs h text o) as [[docs s]|e|].
Qed.
End runs.

(** Options with a schema of total types, or with none. *)
Definition options_total (o : load_options) : Prop :=
  match opt_schema o with Some s => schema_all (good_type any_object) s | None => True end.

Lemma options_total_full hs o :
  options_total o -> schema_all (good_type any_object) (options_schema hs o).
Proof.
  unfold options_total, options_schema. destruct (opt_schema o); [done|]. intros _.
  apply full_schema_good.
Qed.

Lemma options_total_safe hs o :
  options_total o -> schema_all (good_type any_object) (options_schema hs (safe_options hs o)).
Proof.
  unfold options_total, options_schema. simpl. destruct (opt_schema o); [done|]. intros _. simpl.
  by apply safe_schema_good.
Qed.

Lemma any_heap h : Forall any_object h.
Proof. by apply Forall_true. Qed.

(** What a caller sees of a call that ends. *)
Definition returns_or_throws {A} (o : outcome jserror A) : Prop :=
  (exists a, o = Ret a) \/ (exists e, o = Throw e).

Lemma ends_returns_or_throws {A} (P : A -> Prop) R o : ends P R o -> returns_or_throws o.
Proof. destruct o; simpl; [left|right|done]; by eexists. Qed.

(** ** Theorems *)

(** C1: for every text, heap and set of options (with types that return or
    throw, as all predefined ones do), [load], [safeLoad], [loadAll] and
    [safeLoadAll] end: they return a result or throw.  No loop of the scanner
    and no recursion of [composeNode] runs forever, whatever the input. *)
Theorem loader_terminates hs h text it o :
  options_total o ->
  returns_or_throws (load hs h text o) /\ returns_or_throws (safeLoad hs h text o)
  /\ returns_or_throws (loadAll hs h text it o)
  /\ returns_or_throws (safeLoadAll hs h text it o).
Proof.
  intros Ho. pose proof (any_heap h) as Hh. unfold safeLoad, safeLoadAll. split_and!.
  - by eapply ends_returns_or_throws, load_ends, options_total_full.
  - by eapply ends_returns_or_throws, load_ends, options_total_safe.
  - by eapply ends_returns_or_throws, loadAll_ends, options_total_full.
  - destruct it; eapply ends_returns_or_throws, (loadAll_ends any_object);
      first [done | by apply options_total_safe | by apply full_schema_good].
Qed.

Lemma loader_terminates_witness :
  options_total no_options
  /\ returns_or_throws (load bare_host [] (js "a: [1, {b: '}") no_options)
  /\ returns_or_throws (safeLoad bare_host [] (js "a: [1, {b: '}") no_options)
  /\ returns_or_throws (loadAll bare_host [] (js "a: [1, {b: '}") true no_options)
  /\ returns_or_throws (safeLoadAll bare_host [] (js "a: [1, {b: '}") true no_options).
Proof. split; [exact I|]. apply loader_terminates. exact I. Defined.

(** C2: the mark of every exception the loader throws points into the text it
    scanned (or at its terminating zero), so that quoting the text around an
    error never leaves it. *)
Theorem loader_errors_inside hs h text o x m :
  options_total o -> load hs h text o = Throw (EYaml x) -> mark x = Some m ->
  0 <= mposition m <= strlen (prepare_input text) /\ buffer m = prepare_input text ++ [0].
Proof.
  intros Ho Hload Hm.
  pose proof (load_ends any_object hs h text (any_heap h) o (options_total_full hs o Ho)) as Hends.
  rewrite Hload in Hends. simpl in Hends. by rewrite Hm in Hends.
Qed.

Lemma loader_errors_inside_witness :
  exists x m, load bare_host [] (js "[a") no_options = Throw (EYaml x) /\ mark x = Some m
    /\ 0 <= mposition m <= strlen (prepare_input (js "[a"))
    /\ buffer m = prepare_input (js "[a") ++ [0].
Proof.
  eexists _, _. split; [vm_compute; reflexivity|]. split; [reflexivity|].
  eapply (loader_errors_inside bare_host [] (js "[a") no_options);
    [exact I|vm_compute; reflexivity|reflexivity].
Defined.

(** [safeLoad] without a schema option creates only data: whatever the text
    says, no function and no regular expression is ever constructed, neither in
    the returned value nor anywhere else in the heap. *)
Lemma safeLoad_creates_only_data hs h text o v s :
  opt_schema o = None -> Forall data_object h ->
  safeLoad hs h text o = Ret (v, s) -> Forall data_object (sheap s).
Proof.
  intros Ho Hh Hload. unfold safeLoad in Hload.
  assert (Hgood : schema_all (good_type data_object) (options_schema hs (safe_options hs o))).
  { unfold options_schema. simpl. rewrite Ho. simpl. by apply safe_schema_good. }
  pose proof (load_ends data_object hs h text Hh _ Hgood) as Hends. by rewrite Hload in Hends.
Qed.


(** [safeLoadAll] called without an output function is not safe: it hands
    the safe schema over in the place of the iterator, the full schema is used,
    and a text can construct a regular expression. *)
Lemma safeLoadAll_constructs_regexps :
  exists text docs s,
    safeLoadAll bare_host [] text false no_options = Ret (Documents docs, s)
    /\ ~ Forall data_object (sheap s).
Proof.
  exists (js "!!js/regexp /a/"). eexists _, _. split; [vm_compute; reflexivity|].
  cbn [sheap]. rewrite !Forall_cons. simpl. naive_solver.
Qed.

(** C11: [safeLoad] without a schema option creates only data: whatever the text says,
    no function and no regular expression is ever constructed, neither in the
    returned value nor anywhere else in the heap.  [safeLoadAll] called without an
    output function is not safe: it hands the safe schema over in the place of the
    iterator, the full schema is used, and a text can construct a regular expression. *)
Theorem safe_loading hs h o : opt_schema o = None -> Forall data_object h ->
  (forall text v s, safeLoad hs h text o = Ret (v, s) -> Forall data_object (sheap s))
  /\ exists text docs s,
       safeLoadAll bare_host [] text false no_options = Ret (Documents docs, s)
       /\ ~ Forall data_object (sheap s).
Proof.
  intros Ho Hh. split; [|apply safeLoadAll_constructs_regexps].
  intros text v s. by apply safeLoad_creates_only_data.
Qed.

Lemma safe_loading_witness :
  exists v s, safeLoad bare_host [] (js "- !!binary AAAA") no_options = Ret (v, s)
    /\ Forall data_object (sheap s).
Proof.
  eexists _, _. split; [vm_compute; reflexivity|].
  eapply (proj1 (safe_loading bare_host [] no_options eq_refl (Forall_nil_2 _)) (js "- !!binary AAAA")).
  vm_compute. reflexivity.
Defined.
