(* ===== verification/YamlDumper.v ===== *)
(** * js-yaml: the dumper

    The module that turns a value into YAML text: scalar styles, escapes, block
    and flow collections, aliases for objects met more than once, and the entry
    points [dump] and [safeDump].  The options, the tables of the schema and the
    list of duplicated objects do not change while a value is written; the
    mutable fields of the source's [State] are the record [DState]. *)

From S2P Require Import JsPrelude JsNumber JsValue JsRegExp YamlCommon YamlTypes YamlSchema.

(** ** Characters *)

Definition ESCAPE_SEQUENCES : list (Z * jsstr) :=
  [(0, [92; 48]); (7, [92; 97]); (8, [92; 98]); (9, [92; 116]); (10, [92; 110]);
   (11, [92; 118]); (12, [92; 102]); (13, [92; 114]); (27, [92; 101]); (34, [92; 34]);
   (92, [92; 92]); (133, [92; 78]); (160, [92; 95]); (8232, [92; 76]); (8233, [92; 80])].

Fixpoint escape_of (table : list (Z * jsstr)) (c : Z) : option jsstr :=
  match table with
  | [] => None
  | (k, e) :: rest => if k =? c then Some e else escape_of rest c
  end.

Definition DEPRECATED_BOOLEANS_SYNTAX : list jsstr :=
  [js "y"; js "Y"; js "yes"; js "Yes"; js "YES"; js "on"; js "On"; js "ON";
   js "n"; js "N"; js "no"; js "No"; js "NO"; js "off"; js "Off"; js "OFF"].

Definition isWhitespace (c : Z) : bool := (c =? 32) || (c =? 9).

Definition isPrintable (c : Z) : bool :=
  (32 <=? c) && (c <=? 126)
  || (161 <=? c) && (c <=? 55295) && negb (c =? 8232) && negb (c =? 8233)
  || (57344 <=? c) && (c <=? 65533) && negb (c =? 65279)
  || (65536 <=? c) && (c <=? 1114111).

Definition isPlainSafe (c : Z) : bool :=
  isPrintable c && negb (existsb (Z.eqb c) [65279; 44; 91; 93; 123; 125; 58; 35]).

Definition isPlainSafeFirst (c : Z) : bool :=
  isPrintable c && negb (c =? 65279) && negb (isWhitespace c)
  && negb (existsb (Z.eqb c)
             [45; 63; 58; 44; 91; 93; 123; 125; 35; 38; 42; 33; 124; 62; 39; 34; 37; 64; 96]).

(** [/^\n* /]. *)
Fixpoint needIndentIndicator (s : jsstr) : bool :=
  match s with
  | c :: s' => if c =? 10 then needIndentIndicator s' else c =? 32
  | [] => false
  end.

Definition encodeHex (character : Z) : outcome jserror jsstr :=
  let string := toUpperCase (int_toString 16 character) in
  let write handle len := Ret (92 :: handle :: repeat (js "0") (len - strlen string) ++ string) in
  if character <=? 255 then write 120 2
  else if character <=? 65535 then write 117 4
  else if character <=? 4294967295 then write 85 8
  else Throw (EYaml (mkYAMLException
         (js "code point within a string may not be greater than 0xFFFFFFFF") None)).

(** ** The text of scalars *)

Definition is_high_surrogate (c : Z) : bool := (55296 <=? c) && (c <=? 56319).
Definition is_low_surrogate (c : Z) : bool := (56320 <=? c) && (c <=? 57343).

(** What one unit that is not part of a surrogate pair becomes. *)
Definition escape_unit (c : Z) : outcome jserror jsstr :=
  match escape_of ESCAPE_SEQUENCES c with
  | Some e => Ret e
  | None => if isPrintable c then Ret [c] else encodeHex c
  end.

Fixpoint escapeString (s : jsstr) : outcome jserror jsstr :=
  match s with
  | [] => Ret []
  | c :: s' =>
      match s' with
      | n :: s'' =>
          if is_high_surrogate c && is_low_surrogate n then
            e ← encodeHex ((c - 55296) * 1024 + n - 56320 + 65536);
            r ← escapeString s''; Ret (e ++ r)
          else e ← escape_unit c; r ← escapeString s'; Ret (e ++ r)
      | [] => escape_unit c
      end
  end.

(** [string.slice(position, next + 1)] up to the next line break, and the rest. *)
Fixpoint split_line (s : jsstr) : jsstr * jsstr :=
  match s with
  | [] => ([], [])
  | c :: s' => if c =? 10 then ([c], s') else let '(l, r) := split_line s' in (c :: l, r)
  end.

Fixpoint indent_lines (n : nat) (ind string : jsstr) : jsstr :=
  match n, string with
  | S n', _ :: _ =>
      let '(line, rest) := split_line string in
      (if jseqb line [10] then [] else ind) ++ line ++ indent_lines n' ind rest
  | _, _ => []
  end.

(** Every line but the empty ones gets the indentation; a line per iteration. *)
Definition indentString (string : jsstr) (spaces : Z) : jsstr :=
  indent_lines (length string) (repeat (js " ") spaces) string.

(** [string[string.length - k]] is a line feed. *)
Definition ends_at (k : Z) (string : jsstr) : bool :=
  match char_at string (strlen string - k) with Some c => c =? 10 | None => false end.

Definition blockHeader (string : jsstr) (indentPerLevel : Z) : jsstr :=
  let indentIndicator :=
    if needIndentIndicator string then int_toString 10 indentPerLevel else [] in
  let clip := ends_at 1 string in
  let keep := clip && (ends_at 2 string || jseqb string [10]) in
  indentIndicator ++ (if keep then js "+" else if clip then [] else js "-") ++ [10].

Definition dropEndingNewline (string : jsstr) : jsstr :=
  if ends_at 1 string then slice string 0 (strlen string - 1) else string.

(** Positions of a space followed by another unit, the matches of [/ [^ ]/g]. *)
Fixpoint break_points (i : Z) (line : jsstr) : list Z :=
  match line with
  | a :: ((b :: _) as rest) =>
      (if (a =? 32) && negb (b =? 32) then [i] else []) ++ break_points (i + 1) rest
  | _ => []
  end.

Fixpoint fold_loop (line : jsstr) (width : Z) (points : list Z) (start curr : Z)
    (result : jsstr) : Z * Z * jsstr :=
  match points with
  | [] => (start, curr, result)
  | next :: rest =>
      if width <? next - start then
        let end_ := if start <? curr then curr else next in
        fold_loop line width rest (end_ + 1) next (result ++ [10] ++ slice line start end_)
      else fold_loop line width rest start next result
  end.

Definition foldLine (line : jsstr) (width : Z) : jsstr :=
  match line with
  | [] => line
  | 32 :: _ => line
  | _ =>
      let '(start, curr, result) := fold_loop line width (break_points 0 line) 0 0 [] in
      let result := result ++ [10] in
      slice_from
        (if (width <? strlen line - start) && (start <? curr)
         then result ++ slice line start curr ++ [10] ++ slice_from line (curr + 1)
         else result ++ slice_from line start) 1
  end.

Fixpoint span_lf (s : jsstr) : jsstr * jsstr :=
  match s with
  | c :: s' => if c =? 10 then let '(p, r) := span_lf s' in (c :: p, r) else ([], s)
  | [] => ([], [])
  end.

Fixpoint span_not_lf (s : jsstr) : jsstr * jsstr :=
  match s with
  | c :: s' => if c =? 10 then ([], s) else let '(p, r) := span_not_lf s' in (c :: p, r)
  | [] => ([], [])
  end.

Definition starts_with (c : Z) (s : jsstr) : bool :=
  match s with x :: _ => x =? c | [] => false end.

(** The matches of [lineRe] from the first line break on: a run of line breaks and
    the line after it. *)
Fixpoint fold_lines (n : nat) (width : Z) (prevMoreIndented : bool) (s : jsstr) : jsstr :=
  match n, s with
  | S n', _ :: _ =>
      let '(prefix, s1) := span_lf s in
      let '(line, s2) := span_not_lf s1 in
      let moreIndented := starts_with 32 line in
      prefix
      ++ (if negb prevMoreIndented && negb moreIndented && negb (jseqb line []) then [10] else [])
      ++ foldLine line width
      ++ fold_lines n' width moreIndented s2
  | _, _ => []
  end.

Definition foldString (string : jsstr) (width : Z) : jsstr :=
  let '(first, rest) := span_not_lf string in
  foldLine first width
  ++ fold_lines (length string) width (starts_with 10 string || starts_with 32 string) rest.

(** ** Styles *)

Inductive scalar_style : Type :=
| STYLE_PLAIN
| STYLE_SINGLE
| STYLE_LITERAL
| STYLE_FOLDED
| STYLE_DOUBLE.

(** The loop of the single-line case: [None] is the early return of
    [STYLE_DOUBLE]. *)
Fixpoint scan_single (s : jsstr) (plain : bool) : option bool :=
  match s with
  | [] => Some plain
  | c :: s' => if negb (isPrintable c) then None else scan_single s' (plain && isPlainSafe c)
  end.

(** A line from [previousLineBreak + 1] to [i] that folding would shorten. *)
Definition foldable (string : jsstr) (lineWidth i previousLineBreak : Z) : bool :=
  (lineWidth <? i - previousLineBreak - 1)
  && match char_at string (previousLineBreak + 1) with Some c => negb (c =? 32) | None => true end.

Record scan_state : Type := mkScan {
  sc_hasLineBreak : bool;
  sc_hasFoldableLine : bool;
  sc_previousLineBreak : Z;
  sc_plain : bool
}.

Fixpoint scan_multi (string : jsstr) (lineWidth i : Z) (s : jsstr) (st : scan_state)
    : option scan_state :=
  match s with
  | [] => Some st
  | c :: s' =>
      let plain := sc_plain st && isPlainSafe c in
      if c =? 10 then
        scan_multi string lineWidth (i + 1) s'
          (if negb (lineWidth =? -1)
           then mkScan true
                  (sc_hasFoldableLine st || foldable string lineWidth i (sc_previousLineBreak st))
                  i plain
           else mkScan true (sc_hasFoldableLine st) (sc_previousLineBreak st) plain)
      else if negb (isPrintable c) then None
      else scan_multi string lineWidth (i + 1) s'
             (mkScan (sc_hasLineBreak st) (sc_hasFoldableLine st) (sc_previousLineBreak st) plain)
  end.

Definition chooseScalarStyle (string : jsstr) (singleLineOnly : bool)
    (indentPerLevel lineWidth : Z) (testAmbiguousType : jsstr -> outcome jserror bool)
    : outcome jserror scalar_style :=
  let plain := isPlainSafeFirst (charCodeAt string 0)
               && negb (isWhitespace (charCodeAt string (strlen string - 1))) in
  let scanned :=
    if singleLineOnly then
      match scan_single string plain with
      | Some plain => Some (false, false, plain)
      | None => None
      end
    else
      match scan_multi string lineWidth 0 string (mkScan false false (-1) plain) with
      | Some st =>
          Some (sc_hasLineBreak st,
                sc_hasFoldableLine st
                || negb (lineWidth =? -1)
                   && foldable string lineWidth (strlen string) (sc_previousLineBreak st),
                sc_plain st)
      | None => None
      end in
  match scanned with
  | None => Ret STYLE_DOUBLE
  | Some (hasLineBreak, hasFoldableLine, plain) =>
      if negb hasLineBreak && negb hasFoldableLine then
        ambiguous ← (if plain then testAmbiguousType string else Ret true);
        Ret (if plain && negb ambiguous then STYLE_PLAIN else STYLE_SINGLE)
      else if (9 <? indentPerLevel) && needIndentIndicator string then Ret STYLE_DOUBLE
      else Ret (if hasFoldableLine then STYLE_FOLDED else STYLE_LITERAL)
  end.

(** ** State and options *)

Inductive sort_option : Type :=
| SortNone
| SortTrue
| SortWith (sort : list jsstr -> list jsstr)
| SortInvalid.

(** The options as given; the numbers are integers, and the styles are strings in
    the order of [Object.keys].  [SortWith] stands for what the engine's sort
    makes of the caller's comparison function. *)
Record dump_options : Type := mkDumpOptions {
  do_schema : option schema;
  do_indent : Z;
  do_skipInvalid : bool;
  do_flowLevel : option Z;
  do_styles : list (jsstr * jsstr);
  do_sortKeys : sort_option;
  do_lineWidth : Z;
  do_noRefs : bool;
  do_noCompatMode : bool;
  do_condenseFlow : bool
}.

(** No option given: absent numbers are falsy like zero. *)
Definition no_dump_options : dump_options :=
  mkDumpOptions None 0 false None [] SortNone 0 false false false.

(** What does not change while a value is written. *)
Record DEnv : Type := mkDEnv {
  d_host : Host;
  d_heap : heap;
  d_indent : Z;
  d_skipInvalid : bool;
  d_flowLevel : Z;
  d_styleMap : list (jsstr * jsstr);
  d_sortKeys : sort_option;
  d_lineWidth : Z;
  d_noCompatMode : bool;
  d_condenseFlow : bool;
  d_implicitTypes : list yaml_type;
  d_explicitTypes : list yaml_type;
  d_duplicates : list nat
}.

Record DState : Type := mkDState {
  d_tag : option jsstr;
  d_dump : value;
  d_used : list bool
}.

Definition set_tag (t : option jsstr) (s : DState) : DState := mkDState t (d_dump s) (d_used s).
Definition set_dump (v : value) (s : DState) : DState := mkDState (d_tag s) v (d_used s).
Definition set_used (u : list bool) (s : DState) : DState := mkDState (d_tag s) (d_dump s) u.

Abbreviation D := (SE DState jserror).

Definition dump_error {A} (message : jsstr) : outcome jserror A :=
  Throw (EYaml (mkYAMLException message None)).

(** Names a lookup in an empty object finds on [Object.prototype]. *)
Definition prototype_names : list jsstr :=
  [js "constructor"; js "toString"; js "toLocaleString"; js "valueOf"; js "hasOwnProperty";
   js "isPrototypeOf"; js "propertyIsEnumerable"; js "__proto__"; js "__defineGetter__";
   js "__defineSetter__"; js "__lookupGetter__"; js "__lookupSetter__"].

Definition full_tag (tg : jsstr) : jsstr :=
  if jseqb (slice tg 0 2) (js "!!") then js "tag:yaml.org,2002:" ++ slice_from tg 2 else tg.

(** The styles by full tag, aliases resolved.  A name found on
    [Object.prototype] is no type and has no aliases to look into. *)
Fixpoint compileStyleMap (fallback : list (jsstr * yaml_type)) (m : list (jsstr * jsstr))
    (result : list (jsstr * jsstr)) : outcome jserror (list (jsstr * jsstr)) :=
  match m with
  | [] => Ret result
  | (tg, style) :: rest =>
      let tg := full_tag tg in
      match assoc_get fallback tg with
      | Some type =>
          compileStyleMap fallback rest
            (assoc_set result tg (default style (assoc_get (styleAliases type) style)))
      | None =>
          if existsb (jseqb tg) prototype_names then lift_native no_property
          else compileStyleMap fallback rest (assoc_set result tg style)
      end
  end.

Definition generateNextLine (E : DEnv) (level : Z) : jsstr :=
  10 :: repeat (js " ") (d_indent E * level).

Fixpoint testImplicitResolving (h : heap) (types : list yaml_type) (str : jsstr)
    : outcome jserror bool :=
  match types with
  | [] => Ret false
  | t :: ts =>
      ok ← lift_native (resolve t h (VString str));
      if (ok : bool) then Ret true else testImplicitResolving h ts str
  end.

Definition quote_single (string : jsstr) : jsstr :=
  [39] ++ concat ((fun c => if c =? 39 then [39; 39] else [c]) <$> string) ++ [39].

(** The string [writeScalar] assigns to [state.dump]. *)
Definition scalar_text (E : DEnv) (string : jsstr) (level : Z) (iskey : bool)
    : outcome jserror jsstr :=
  if strlen string =? 0 then Ret (js "''")
  else if negb (d_noCompatMode E) && existsb (jseqb string) DEPRECATED_BOOLEANS_SYNTAX
  then Ret ([39] ++ string ++ [39])
  else
    let indent := d_indent E * Z.max 1 level in
    let lineWidth := if d_lineWidth E =? -1 then -1
                     else Z.max (Z.min (d_lineWidth E) 40) (d_lineWidth E - indent) in
    let singleLineOnly := iskey || (-1 <? d_flowLevel E) && (d_flowLevel E <=? level) in
    style ← chooseScalarStyle string singleLineOnly (d_indent E) lineWidth
              (testImplicitResolving (d_heap E) (d_implicitTypes E));
    match style with
    | STYLE_PLAIN => Ret string
    | STYLE_SINGLE => Ret (quote_single string)
    | STYLE_LITERAL =>
        Ret ([124] ++ blockHeader string (d_indent E)
             ++ dropEndingNewline (indentString string indent))
    | STYLE_FOLDED =>
        Ret ([62] ++ blockHeader string (d_indent E)
             ++ dropEndingNewline (indentString (foldString string lineWidth) indent))
    | STYLE_DOUBLE => e ← escapeString string; Ret ([34] ++ e ++ [34])
    end.

(** ** Nodes *)

(** Code-unit order, the order of [Array.prototype.sort] without a function. *)
Fixpoint unit_leb (a b : jsstr) : bool :=
  match a, b with
  | [], _ => true
  | _ :: _, [] => false
  | x :: a', y :: b' => (x <? y) || (x =? y) && unit_leb a' b'
  end.

Fixpoint insert_sorted (k : jsstr) (ks : list jsstr) : list jsstr :=
  match ks with
  | [] => [k]
  | k' :: ks' => if unit_leb k k' then k :: ks else k' :: insert_sorted k ks'
  end.

Definition sort_units (ks : list jsstr) : list jsstr := foldr insert_sorted [] ks.

(** [Object.prototype.toString.call(v)]. *)
Definition class_of (h : heap) (v : value) : jsstr :=
  match v with
  | VUndefined => js "[object Undefined]"
  | VNull => js "[object Null]"
  | VBool _ => js "[object Boolean]"
  | VNumber _ => js "[object Number]"
  | VString _ => js "[object String]"
  | VRef l =>
      match h !! l with
      | Some (OArray _) => js "[object Array]"
      | Some (ODate _) => js "[object Date]"
      | Some (OBuffer _) => js "[object Uint8Array]"
      | Some (ORegExp _ _) => js "[object RegExp]"
      | Some (OFunction _ _) => js "[object Function]"
      | Some (OObject _) | None => js "[object Object]"
      end
  end.

Definition object_at (h : heap) (v : value) : hobj :=
  match v with
  | VRef l => default (OObject empty_object) (h !! l)
  | _ => OObject empty_object
  end.

(** Position of an object in a list of references, [indexOf] on them. *)
Fixpoint index_of (l : nat) (ls : list nat) : option nat :=
  match ls with
  | [] => None
  | x :: ls' => if Nat.eqb x l then Some 0%nat else S <$> index_of l ls'
  end.

(** [state.dump] once a node has been written: a string. *)
Definition dump_text (s : DState) : jsstr :=
  match d_dump s with VString t => t | _ => [] end.

Section write.
Variable E : DEnv.

Definition liftD {A} (o : outcome jserror A) : D A := liftO o.

Definition type_applies (t : yaml_type) (v : value) : bool :=
  match instanceOf t, predicate t with
  | None, None => false
  | i, p => match i with Some f => f (d_heap E) v | None => true end
            && match p with Some f => f (d_heap E) v | None => true end
  end.

(** The style asked for: an empty one is falsy. *)
Definition style_for (t : yaml_type) : option jsstr :=
  match assoc_get (d_styleMap E) (tag t) with
  | Some (c :: s) => Some (c :: s)
  | _ => defaultStyle t
  end.

Definition style_text (style : option jsstr) : jsstr := default (js "null") style.

Definition represent_as (t : yaml_type) (v : value) : D unit :=
  match represent t with
  | NoRepresent => mret tt
  | RepFunction f =>
      r ← liftD (lift_native (f (d_heap E) v (style_text (style_for t))));
      modifyS (set_dump (VString r))
  | RepStyles fs =>
      match assoc_get fs (style_text (style_for t)) with
      | Some f =>
          r ← liftD (lift_native (f (d_heap E) v (style_text (style_for t))));
          modifyS (set_dump (VString r))
      | None =>
          liftD (dump_error (js "!<" ++ tag t ++ js "> tag resolver accepts not " ++ [34]
                             ++ style_text (style_for t) ++ [34] ++ js " style"))
      end
  end.

Fixpoint detect_in (types : list yaml_type) (explicit_ : bool) (v : value) : D bool :=
  match types with
  | [] => mret false
  | t :: ts =>
      if type_applies t v then
        _ ← modifyS (set_tag (Some (if explicit_ then tag t else js "?")));
        _ ← represent_as t v;
        mret true
      else detect_in ts explicit_ v
  end.

Definition detectType (v : value) (explicit_ : bool) : D bool :=
  detect_in (if explicit_ then d_explicitTypes E else d_implicitTypes E) explicit_ v.

Definition writeScalar (string : jsstr) (level : Z) (iskey : bool) : D unit :=
  t ← liftD (scalar_text E string level iskey);
  modifyS (set_dump (VString t)).

(** [writeNode], tied below. *)
Variable write : Z -> value -> bool -> bool -> bool -> D bool.

Fixpoint flow_sequence_loop (level : Z) (first : bool) (elems : list value) (result : jsstr)
    : D jsstr :=
  match elems with
  | [] => mret result
  | v :: rest =>
      ok ← write level v false false false;
      s ← getS;
      flow_sequence_loop level false rest
        (if (ok : bool)
         then result ++ (if first then [] else [44] ++ (if d_condenseFlow E then [] else [32]))
              ++ dump_text s
         else result)
  end.

Definition writeFlowSequence (level : Z) (elems : list value) : D unit :=
  _tag ← gets d_tag;
  r ← flow_sequence_loop level true elems [];
  modifyS (fun s => set_dump (VString ([91] ++ r ++ [93])) (set_tag _tag s)).

(** A dash or a colon is followed by a space unless the text starts a new line. *)
Definition after_indicator (t : jsstr) : jsstr := if starts_with 10 t then [] else [32].

Fixpoint block_sequence_loop (level : Z) (compact first : bool) (elems : list value)
    (result : jsstr) : D jsstr :=
  match elems with
  | [] => mret result
  | v :: rest =>
      ok ← write (level + 1) v true true false;
      s ← getS;
      block_sequence_loop level compact false rest
        (if (ok : bool)
         then result ++ (if negb compact || negb first then generateNextLine E level else [])
              ++ [45] ++ after_indicator (dump_text s) ++ dump_text s
         else result)
  end.

Definition writeBlockSequence (level : Z) (elems : list value) (compact : bool) : D unit :=
  _tag ← gets d_tag;
  r ← block_sequence_loop level compact true elems [];
  modifyS (fun s => set_dump (VString (match r with [] => js "[]" | _ => r end))
                             (set_tag _tag s)).

Definition condense (s : jsstr) : jsstr := if d_condenseFlow E then s else [].

Fixpoint flow_mapping_loop (level : Z) (first : bool) (o : hobj) (keys : list jsstr)
    (result : jsstr) : D jsstr :=
  match keys with
  | [] => mret result
  | key :: rest =>
      ok ← write level (VString key) false false false;
      if negb ok then flow_mapping_loop level false o rest result
      else
        s ← getS;
        let pairBuffer :=
          condense [34] ++ (if first then [] else js ", ")
          ++ (if 1024 <? strlen (dump_text s) then js "? " else [])
          ++ dump_text s ++ condense [34] ++ [58] ++ (if d_condenseFlow E then [] else [32]) in
        ok ← write level (object_get o key) false false false;
        s ← getS;
        flow_mapping_loop level false o rest
          (if (ok : bool) then result ++ pairBuffer ++ dump_text s else result)
  end.

Definition writeFlowMapping (level : Z) (o : hobj) : D unit :=
  _tag ← gets d_tag;
  r ← flow_mapping_loop level true o (object_keys o) [];
  modifyS (fun s => set_dump (VString ([123] ++ r ++ [125])) (set_tag _tag s)).

(** [tag !== null && tag !== "?"]. *)
Definition has_tag (t : option jsstr) : bool :=
  match t with Some t => negb (jseqb t (js "?")) | None => false end.

Fixpoint block_mapping_loop (level : Z) (compact first : bool) (o : hobj) (keys : list jsstr)
    (result : jsstr) : D jsstr :=
  match keys with
  | [] => mret result
  | key :: rest =>
      let pairBuffer := if negb compact || negb first then generateNextLine E level else [] in
      ok ← write (level + 1) (VString key) true true true;
      if negb ok then block_mapping_loop level compact false o rest result
      else
        s ← getS;
        let explicitPair := has_tag (d_tag s) || (1024 <? strlen (dump_text s)) in
        let pairBuffer :=
          pairBuffer
          ++ (if explicitPair then [63] ++ after_indicator (dump_text s) else [])
          ++ dump_text s
          ++ (if explicitPair then generateNextLine E level else []) in
        ok ← write (level + 1) (object_get o key) true explicitPair false;
        s ← getS;
        block_mapping_loop level compact false o rest
          (if (ok : bool)
           then result ++ pairBuffer ++ [58] ++ after_indicator (dump_text s) ++ dump_text s
           else result)
  end.

Definition writeBlockMapping (level : Z) (o : hobj) (compact : bool) : D unit :=
  _tag ← gets d_tag;
  keys ← match d_sortKeys E with
         | SortNone => mret (object_keys o)
         | SortTrue => mret (sort_units (object_keys o))
         | SortWith sort => mret (sort (object_keys o))
         | SortInvalid => liftD (dump_error (js "sortKeys must be a boolean or a function"))
         end;
  r ← block_mapping_loop level compact true o keys [];
  modifyS (fun s => set_dump (VString (match r with [] => js "{}" | _ => r end))
                             (set_tag _tag s)).

Definition ref_name (i : nat) : jsstr := js "ref_" ++ int_toString 10 (Z.of_nat i).

(** The collection or scalar itself; [false] when an invalid value is skipped. *)
Definition write_content (level : Z) (block compact iskey : bool) (duplicate : option nat)
    : D bool :=
  s ← getS;
  let h := d_heap E in
  let type := class_of h (d_dump s) in
  let o := object_at h (d_dump s) in
  let anchored (sep : jsstr) : D bool :=
    _ ← match duplicate with
        | Some i => modifyS (fun s => set_dump (VString (js "&" ++ ref_name i ++ sep
                                                          ++ dump_text s)) s)
        | None => mret tt
        end; mret true in
  if jseqb type (js "[object Object]") then
    if block && negb (length (object_keys o) =? 0)%nat
    then _ ← writeBlockMapping level o compact; anchored []
    else _ ← writeFlowMapping level o; anchored [32]
  else if jseqb type (js "[object Array]") then
    let elems := match o with OArray es => es | _ => [] end in
    if block && negb (length elems =? 0)%nat
    then _ ← writeBlockSequence level elems compact; anchored []
    else _ ← writeFlowSequence level elems; anchored [32]
  else if jseqb type (js "[object String]") then
    _ ← (if bool_decide (d_tag s = Some (js "?")) then mret tt
         else writeScalar (dump_text s) level iskey);
    mret true
  else if d_skipInvalid E then mret false
  else liftD (dump_error (js "unacceptable kind of an object to dump " ++ type)).

Definition writeNode_body (level : Z) (object : value) (block compact iskey : bool) : D bool :=
  _ ← modifyS (fun s => set_dump object (set_tag None s));
  found ← detectType object false;
  _ ← (if (found : bool) then mret true else detectType object true);
  s ← getS;
  let type := class_of (d_heap E) (d_dump s) in
  let block := block && ((d_flowLevel E <? 0) || (level <? d_flowLevel E)) in
  let objectOrArray := jseqb type (js "[object Object]") || jseqb type (js "[object Array]") in
  let duplicate := if objectOrArray
                   then match object with VRef l => index_of l (d_duplicates E) | _ => None end
                   else None in
  let compact := compact && negb (has_tag (d_tag s)
                                  || match duplicate with Some _ => true | None => false end
                                  || negb (d_indent E =? 2) && (0 <? level)) in
  let used := match duplicate with Some i => default false (d_used s !! i) | None => false end in
  if used then
    _ ← modifyS (set_dump (VString (js "*" ++ ref_name (default 0%nat duplicate))));
    mret true
  else
    _ ← match duplicate with
        | Some i => modifyS (fun s => set_used (<[i := true]> (d_used s)) s)
        | None => mret tt
        end;
    ok ← write_content level block compact iskey duplicate;
    if negb ok then mret false
    else
      s ← getS;
      _ ← match d_tag s with
          | Some t => if has_tag (Some t)
                      then modifyS (set_dump (VString (js "!<" ++ t ++ js "> " ++ dump_text s)))
                      else mret tt
          | None => mret tt
          end;
      mret true.
End write.

Fixpoint writeNode (E : DEnv) (n : nat) (level : Z) (object : value)
    (block compact iskey : bool) : D bool :=
  match n with
  | O => diverge
  | S n' => writeNode_body E (writeNode E n') level object block compact iskey
  end.

(** ** Duplicated references *)

(** The values an object refers to, in the order [inspectNode] visits them. *)
Definition children (h : heap) (l : nat) : list value :=
  match h !! l with
  | Some (OArray es) => es
  | Some o => object_get o <$> object_keys o
  | None => []
  end.

(** [objects] and [duplicatesIndexes], which holds positions in [objects].  The
    fuel bounds the depth; an object is entered once. *)
Fixpoint inspectNode (h : heap) (n : nat) (v : value) (acc : list nat * list nat)
    : list nat * list nat :=
  let '(objects, dups) := acc in
  match v with
  | VRef l =>
      match h !! l with
      | Some (OFunction _ _) | None => acc
      | Some _ =>
          match index_of l objects with
          | Some i => (objects, if existsb (Nat.eqb i) dups then dups else dups ++ [i])
          | None =>
              match n with
              | O => acc
              | S n' => foldl (fun acc v => inspectNode h n' v acc) (objects ++ [l], dups)
                              (children h l)
              end
          end
      end
  | _ => acc
  end.

Definition getDuplicateReferences (h : heap) (v : value) : list nat :=
  let '(objects, dups) := inspectNode h (S (length h)) v ([], []) in
  (fun i => default 0%nat (objects !! i)) <$> dups.

(** ** Entry points *)

Definition make_denv (hs : Host) (h : heap) (v : value) (o : dump_options)
    : outcome jserror DEnv :=
  let sch := default (DEFAULT_FULL_SCHEMA hs) (do_schema o) in
  styles ← compileStyleMap (tm_fallback (compiledTypeMap sch)) (do_styles o) [];
  Ret (mkDEnv hs h
         (Z.max 1 (if do_indent o =? 0 then 2 else do_indent o))
         (do_skipInvalid o) (default (-1) (do_flowLevel o)) styles (do_sortKeys o)
         (if do_lineWidth o =? 0 then 80 else do_lineWidth o)
         (do_noCompatMode o) (do_condenseFlow o)
         (compiledImplicit sch) (compiledExplicit sch)
         (if do_noRefs o then [] else getDuplicateReferences h v)).

Definition initial_dstate (E : DEnv) (v : value) : DState :=
  mkDState None v (replicate (length (d_duplicates E)) false).

(** A node below each object of the heap, and the root. *)
Definition dump_fuel (h : heap) : nat := S (S (length h)).

Definition dump (hs : Host) (h : heap) (v : value) (o : dump_options) : outcome jserror jsstr :=
  E ← make_denv hs h v o;
  match writeNode E (dump_fuel h) 0 v true true false (initial_dstate E v) with
  | Ret (true, s) => Ret (dump_text s ++ [10])
  | Ret (false, _) => Ret []
  | Throw e => Throw e
  | OutOfFuel => OutOfFuel
  end.

Definition safe_dump_options (hs : Host) (o : dump_options) : dump_options :=
  mkDumpOptions (Some (default (DEFAULT_SAFE_SCHEMA hs) (do_schema o)))
    (do_indent o) (do_skipInvalid o) (do_flowLevel o) (do_styles o) (do_sortKeys o)
    (do_lineWidth o) (do_noRefs o) (do_noCompatMode o) (do_condenseFlow o).

Definition safeDump (hs : Host) (h : heap) (v : value) (o : dump_options)
    : outcome jserror jsstr :=
  dump hs h v (safe_dump_options hs o).
