(* ===== verification/YamlDuplicates.v ===== *)
(** * js-yaml: the objects a document refers to more than once

    Before a value is written, [inspectNode] walks over everything it refers to
    and collects the objects it meets a second time; these get an anchor.  The
    walk is compared with the graph of references: it visits exactly the objects
    that can be reached, each once, and collects exactly those to which at least
    two references lead. *)

From S2P Require Import JsPrelude JsValue YamlDumper.
From stdpp Require Import relations sorting.

(** An object [inspectNode] enters: what [typeof] calls an object. *)
Definition inspectable (h : heap) (l : nat) : bool :=
  match h !! l with Some (OFunction _ _) | None => false | Some _ => true end.

Definition ref_of (h : heap) (v : value) : list nat :=
  match v with VRef l => if inspectable h l then [l] else [] | _ => [] end.

(** The objects a list of values refers to, one entry for each reference. *)
Definition refs (h : heap) (vs : list value) : list nat := concat (ref_of h <$> vs).

Definition out_refs (h : heap) (l : nat) : list nat := refs h (children h l).

Definition edge (h : heap) (l l' : nat) : Prop := l' ∈ out_refs h l.

Definition reachable (h : heap) (v : value) (l : nat) : Prop :=
  exists r, r ∈ ref_of h v /\ rtc (edge h) r l.

(** All references the walk over [v] follows, when it enters [objects]. *)
Definition references (h : heap) (vs : list value) (objects : list nat) : list nat :=
  refs h vs ++ concat (out_refs h <$> objects).

Definition times (l : nat) (ls : list nat) : nat := count_occ Nat.eq_dec ls l.

(** What holds between two visits, [T] being the references followed so far. *)
Record walked (h : heap) (objects dups T : list nat) : Prop := {
  walked_once : NoDup objects;
  walked_dups : NoDup dups;
  walked_all : forall l, l ∈ objects <-> l ∈ T;
  walked_twice : forall i l, objects !! i = Some l -> (i ∈ dups <-> (2 <= times l T)%nat);
  walked_bound : Forall (fun i => (i < length objects)%nat) dups;
  walked_heap : Forall (fun l => inspectable h l = true) objects
}.

(** What a walk over the values [vs] adds to [objects]. *)
Definition walks (h : heap) (vs : list value) (objects T : list nat)
    (result : list nat * list nat) : Prop :=
  exists new T', result.1 = objects ++ new
    /\ T' ≡ₚ references h vs new
    /\ walked h result.1 result.2 (T ++ T')
    /\ Forall (fun l => exists r, r ∈ refs h vs /\ rtc (edge h) r l) new.

(** ** Counting *)

Lemma times_app l ls ls' : times l (ls ++ ls') = (times l ls + times l ls')%nat.
Proof. apply count_occ_app. Qed.

Lemma times_perm l ls ls' : ls ≡ₚ ls' -> times l ls = times l ls'.
Proof. intros H. by apply (Permutation_count_occ Nat.eq_dec). Qed.

Lemma times_elem l ls : l ∈ ls <-> (1 <= times l ls)%nat.
Proof.
  rewrite list_elem_of_In, (count_occ_In Nat.eq_dec). unfold times. lia.
Qed.

Lemma times_single l x : times l [x] = if decide (x = l) then 1%nat else 0%nat.
Proof. unfold times; simpl. by destruct (Nat.eq_dec x l), (decide (x = l)). Qed.

(** ** Positions *)

Lemma index_of_Some l ls i : index_of l ls = Some i -> ls !! i = Some l.
Proof.
  revert i. induction ls as [|x ls IH]; simpl; [done|]. intros i.
  destruct (Nat.eqb_spec x l) as [->|]; [by intros [= <-]|].
  destruct (index_of l ls) as [j|]; [|done]. intros [= <-]. by apply IH.
Qed.

Lemma index_of_None l ls : index_of l ls = None <-> l ∉ ls.
Proof.
  induction ls as [|x ls IH]; simpl; [by split; [intros _; apply not_elem_of_nil|]|].
  rewrite not_elem_of_cons. destruct (Nat.eqb_spec x l) as [->|].
  - split; [done|]. by intros [? _].
  - destruct (index_of l ls); simpl; naive_solver.
Qed.

Lemma inspectable_bound h l : inspectable h l = true -> (l < length h)%nat.
Proof.
  unfold inspectable. destruct (h !! l) eqn:E; [|done]. by apply lookup_lt_Some in E.
Qed.

Lemma walked_length h objects dups T :
  walked h objects dups T -> (length objects <= length h)%nat.
Proof.
  intros H. rewrite <- (length_seq (length h) 0). apply submseteq_length.
  apply NoDup_submseteq; [apply H|]. intros l Hl. apply elem_of_seq.
  pose proof (proj1 (Forall_forall _ _) (walked_heap _ _ _ _ H) l Hl) as Hi.
  apply inspectable_bound in Hi. lia.
Qed.

(** ** The walk *)

(** An object met again becomes a duplicate. *)
Lemma walked_again h objects dups T i l :
  walked h objects dups T -> index_of l objects = Some i ->
  walked h objects (if existsb (Nat.eqb i) dups then dups else dups ++ [i]) (T ++ [l]).
Proof.
  intros [Ho Hd Ha Ht Hb Hh] Hi%index_of_Some.
  assert (Hl : l ∈ T) by (apply Ha; by eapply list_elem_of_lookup_2).
  assert (Hin : existsb (Nat.eqb i) dups = true <-> i ∈ dups).
  { rewrite existsb_exists. setoid_rewrite list_elem_of_In. setoid_rewrite Nat.eqb_eq.
    naive_solver. }
  assert (Helem : forall j, j ∈ (if existsb (Nat.eqb i) dups then dups else dups ++ [i])
                            <-> j ∈ dups \/ j = i).
  { intros j. destruct (existsb (Nat.eqb i) dups) eqn:E;
      [|rewrite elem_of_app, list_elem_of_singleton]; naive_solver. }
  split; [done| | | | |done].
  - destruct (existsb (Nat.eqb i) dups) eqn:E; [done|].
    apply NoDup_app. split_and!; [done| |apply NoDup_singleton].
    intros j Hj Hj'%list_elem_of_singleton. subst j. apply Hin in Hj. congruence.
  - intros j. rewrite elem_of_app, list_elem_of_singleton, Ha. naive_solver.
  - intros j l' Hj. rewrite Helem, times_app, times_single, (Ht j l' Hj).
    destruct (decide (l = l')) as [<-|Hne].
    + assert (j = i) by exact (NoDup_lookup objects j i l Ho Hj Hi). apply times_elem in Hl. naive_solver lia.
    + assert (j <> i) by congruence. naive_solver lia.
  - apply Forall_forall. intros j [Hj| ->]%Helem.
    + by apply (proj1 (Forall_forall _ _) Hb).
    + by apply lookup_lt_Some in Hi.
Qed.

(** A new object is entered. *)
Lemma walked_enter h objects dups T l :
  walked h objects dups T -> inspectable h l = true -> l ∉ objects ->
  walked h (objects ++ [l]) dups (T ++ [l]).
Proof.
  intros [Ho Hd Ha Ht Hb Hh] Hl Hnew.
  assert (HT : times l T = 0%nat).
  { destruct (times l T) eqn:E; [done|]. destruct Hnew. apply Ha, times_elem. lia. }
  split; [|done| | | |].
  - apply NoDup_app. split_and!; [done| |apply NoDup_singleton].
    intros j Hj Hj'%list_elem_of_singleton. by subst j.
  - intros j. rewrite !elem_of_app, Ha. done.
  - intros i l' [Hi|[Hi [_ <-]%list_lookup_singleton_Some]]%lookup_app_Some.
    + rewrite (Ht i l' Hi), times_app, times_single, decide_False; [|].
      * by rewrite Nat.add_0_r.
      * intros <-. destruct Hnew. by eapply list_elem_of_lookup_2.
    + rewrite times_app, times_single, decide_True, HT by done. split; [|lia].
      intros Hd'. pose proof (proj1 (Forall_forall _ _) Hb _ Hd'). simpl in *. lia.
  - eapply Forall_impl; [exact Hb|]. cbv beta. intros i ?. rewrite length_app. simpl. lia.
  - apply Forall_app; auto.
Qed.

Lemma refs_cons h v vs : refs h (v :: vs) = ref_of h v ++ refs h vs.
Proof. done. Qed.

Lemma refs_single h v : refs h [v] = ref_of h v.
Proof. apply app_nil_r. Qed.

(** One walk after another. *)
Lemma walks_cons h v vs objects T r r' :
  walks h [v] objects T r ->
  (forall T1, walked h r.1 r.2 T1 -> walks h vs r.1 T1 r') ->
  walks h (v :: vs) objects T r'.
Proof.
  intros (new & T1 & Hr & HT1 & Hw & Hreach) Hrest.
  destruct (Hrest _ Hw) as (new' & T2 & Hr' & HT2 & Hw' & Hreach').
  exists (new ++ new'), (T1 ++ T2). split_and!.
  - by rewrite Hr', Hr, app_assoc.
  - rewrite HT1, HT2. unfold references. rewrite refs_single, refs_cons, fmap_app, concat_app.
    rewrite <- !app_assoc. apply Permutation_app_head. rewrite !app_assoc.
    apply Permutation_app_tail, Permutation_app_comm.
  - by rewrite app_assoc.
  - apply Forall_app. split; (eapply Forall_impl; [eassumption|]); intros l (x & Hx & Hl);
      exists x; (split; [|done]); rewrite refs_cons; apply elem_of_app; [|by right].
    left. by rewrite refs_single in Hx.
Qed.

Lemma walks_none h v objects dups T :
  ref_of h v = [] -> walked h objects dups T -> walks h [v] objects T (objects, dups).
Proof.
  intros Hv Hw. exists [], []. rewrite !app_nil_r. split_and!; [done| |done|constructor].
  unfold references. by rewrite refs_single, Hv.
Qed.

(** [inspectNode] on a reference it follows. *)
Lemma inspectNode_ref h n l objects dups :
  inspectable h l = true ->
  inspectNode h (S n) (VRef l) (objects, dups)
  = match index_of l objects with
    | Some i => (objects, if existsb (Nat.eqb i) dups then dups else dups ++ [i])
    | None => foldl (fun acc v => inspectNode h n v acc) (objects ++ [l], dups) (children h l)
    end.
Proof. unfold inspectable. cbn [inspectNode]. by destruct (h !! l) as [[]|]. Qed.

Lemma inspectNode_other h n l objects dups :
  inspectable h l = false -> inspectNode h (S n) (VRef l) (objects, dups) = (objects, dups).
Proof. unfold inspectable. cbn [inspectNode]. by destruct (h !! l) as [[]|]. Qed.

Lemma inspect_all_walks h n vs objects dups T :
  (forall v objects dups T, walked h objects dups T -> (length h < n + length objects)%nat ->
     walks h [v] objects T (inspectNode h n v (objects, dups))) ->
  walked h objects dups T -> (length h < n + length objects)%nat ->
  walks h vs objects T (foldl (fun acc v => inspectNode h n v acc) (objects, dups) vs).
Proof.
  intros Hone. revert objects dups T.
  induction vs as [|v vs IH]; intros objects dups T Hw Hn; cbn [foldl].
  - exists [], []. rewrite !app_nil_r. split_and!; [done|done|done|constructor].
  - pose proof (Hone v _ _ _ Hw Hn) as Hv.
    eapply walks_cons; [exact Hv|]. intros T1 Hw1.
    destruct Hv as (new & _ & Hr & _ & _). destruct (inspectNode h n v (objects, dups)).
    apply IH; [done|]. simpl in Hr. subst. rewrite length_app. lia.
Qed.

(** With enough fuel for the objects that are not entered yet, the walk is
    complete. *)
Lemma inspectNode_walks h n v objects dups T :
  walked h objects dups T -> (length h < n + length objects)%nat ->
  walks h [v] objects T (inspectNode h n v (objects, dups)).
Proof.
  revert v objects dups T. induction n as [|n IH]; intros v objects dups T Hw Hn.
  { pose proof (walked_length _ _ _ _ Hw). lia. }
  destruct v as [| | | | |l]; try by apply walks_none.
  destruct (inspectable h l) eqn:Hl; last first.
  { rewrite inspectNode_other by done. apply walks_none; [|done]. simpl. by rewrite Hl. }
  assert (Href : refs h [VRef l] = [l]) by (rewrite refs_single; simpl; by rewrite Hl).
  rewrite inspectNode_ref by done. destruct (index_of l objects) as [i|] eqn:Hi.
  { exists [], [l]. rewrite app_nil_r. split_and!; [done| |by apply walked_again|constructor].
    unfold references. by rewrite Href. }
  apply index_of_None in Hi.
  destruct (inspect_all_walks h n (children h l) _ _ _ IH (walked_enter _ _ _ _ _ Hw Hl Hi))
    as (new & T' & Hr & HT' & Hw' & Hreach); [rewrite length_app; simpl; lia|].
  exists (l :: new), (l :: T'). split_and!.
  - by rewrite Hr, <- app_assoc.
  - unfold references. rewrite Href, fmap_cons. simpl. by rewrite HT'.
  - by rewrite <- app_assoc in Hw'.
  - rewrite Href. constructor.
    + exists l. split; [by apply list_elem_of_singleton|apply rtc_refl].
    + eapply Forall_impl; [exact Hreach|]. intros x (r & Hr' & Hx). exists l.
      split; [by apply list_elem_of_singleton|]. by eapply rtc_l.
Qed.

Lemma walked_nil h : walked h [] [] [].
Proof. split; try constructor; intros; set_solver. Qed.

(** ** The whole walk *)

Lemma whole_walk h v :
  exists objects dups T,
    inspectNode h (S (length h)) v ([], []) = (objects, dups)
    /\ walked h objects dups T /\ T ≡ₚ references h [v] objects
    /\ forall l, l ∈ objects <-> reachable h v l.
Proof.
  destruct (inspectNode_walks h (S (length h)) v [] [] [] (walked_nil h))
    as (new & T & Hr & HT & Hw & Hreach); [simpl; lia|].
  destruct (inspectNode h (S (length h)) v ([], [])) as [objects dups].
  simpl in Hr, Hw. subst objects. exists new, dups, T. split_and!; [done..|].
  intros l. split.
  - intros Hl. destruct (proj1 (Forall_forall _ _) Hreach l Hl) as (r & Hr & Hrtc).
    exists r. by rewrite refs_single in Hr.
  - assert (Hin : forall x, x ∈ references h [v] new -> x ∈ new).
    { intros x Hx. apply (walked_all _ _ _ _ Hw). by rewrite HT. }
    intros (r & Hr & Hrtc). assert (Hr' : r ∈ new).
    { apply Hin. unfold references. rewrite refs_single. set_solver. }
    clear Hr. induction Hrtc as [|x y z Hxy _ IH]; [done|]. apply IH, Hin.
    apply elem_of_app. right. apply list_elem_of_In, in_concat.
    exists (out_refs h x). split; apply list_elem_of_In; [|done].
    apply list_elem_of_fmap. eauto.
Qed.

Lemma duplicates_walked h v objects dups T :
  inspectNode h (S (length h)) v ([], []) = (objects, dups) -> walked h objects dups T ->
  NoDup (getDuplicateReferences h v)
  /\ forall l, l ∈ getDuplicateReferences h v <-> (2 <= times l T)%nat.
Proof.
  intros Hi Hw. unfold getDuplicateReferences. rewrite Hi.
  assert (Hget : forall i, i ∈ dups ->
    exists l, objects !! i = Some l /\ default 0%nat (objects !! i) = l).
  { intros i Hd. pose proof (proj1 (Forall_forall _ _) (walked_bound _ _ _ _ Hw) i Hd) as Hb.
    apply lookup_lt_is_Some in Hb as [l Hl]. exists l. by rewrite Hl. }
  split.
  - apply NoDup_fmap_2_strong; [|apply Hw]. intros i j Hdi Hdj.
    destruct (Hget i Hdi) as (l & Hl & ->), (Hget j Hdj) as (l' & Hl' & ->). intros ->.
    by eapply NoDup_lookup; [apply Hw|..].
  - intros l. rewrite list_elem_of_fmap. split.
    + intros (i & -> & Hd). destruct (Hget i Hd) as (x & Hx & ->).
      by apply (walked_twice _ _ _ _ Hw i x Hx).
    + intros Ht. assert (Hl : l ∈ objects).
      { apply (walked_all _ _ _ _ Hw), times_elem. lia. }
      apply list_elem_of_lookup_1 in Hl as [i Hl]. exists i. rewrite Hl. split; [done|].
      by apply (walked_twice _ _ _ _ Hw i l Hl).
Qed.

(** C23: the objects that get an anchor are exactly those that can be reached from
    the dumped value by at least two references, where the references are those
    of the reachable objects (each counted once for every element or property
    that holds it) and the one that leads to the value itself; no object is
    listed twice. *)
Theorem duplicates_referenced_twice h v :
  exists objects, NoDup objects /\ (forall l, l ∈ objects <-> reachable h v l)
    /\ NoDup (getDuplicateReferences h v)
    /\ forall l, l ∈ getDuplicateReferences h v
                 <-> (2 <= times l (references h [v] objects))%nat.
Proof.
  destruct (whole_walk h v) as (objects & dups & T & Hi & Hw & HT & Hreach).
  destruct (duplicates_walked h v objects dups T Hi Hw) as [Hnd Hd].
  exists objects. split_and!; [apply Hw|done|done|].
  intros l. by rewrite Hd, (times_perm l T _ HT).
Qed.
