(* ===== verification/YamlDumpTotal.v ===== *)
(** * js-yaml: every call of the dumper ends

    A value may refer to itself.  The dumper follows references without keeping
    track of where it is; it comes to an end because an object that can be
    reached in two ways has an anchor and is entered once, and an object that can
    be reached in only one way cannot be on the path that leads to it. *)

From S2P Require Import JsPrelude JsNumber JsValue YamlCommon YamlTypes YamlSchema.
From S2P Require Import YamlLoaderTotal YamlTotality YamlDumper YamlDuplicates.
From stdpp Require Import relations.

(** ** Types the dumper can use *)

(** The representers of a type return or throw, and so does its resolver. *)
Definition represents_total (t : yaml_type) : Prop :=
  match represent t with
  | NoRepresent => True
  | RepFunction f => forall h v style, f h v style <> OutOfFuel
  | RepStyles fs => Forall (fun p => forall h v style, p.2 h v style <> OutOfFuel) fs
  end.

Record printable_type (t : yaml_type) : Prop := {
  print_resolve : forall h v, resolve t h v <> OutOfFuel;
  print_represent : represents_total t
}.

(** An engine's sort returns the elements it was given. *)
Definition sorts (o : sort_option) : Prop :=
  match o with SortWith f => forall ks, f ks ≡ₚ ks | _ => True end.

(** ** Paths of references *)

Section paths.
Variable h : heap.
Variable root : value.

(** [l] is what the last object of the path [P] (or the caller) refers to. *)
Definition enters (l : nat) (P : list nat) : Prop :=
  match P with [] => l ∈ ref_of h root | p :: _ => edge h p l end.

Fixpoint path (P : list nat) : Prop :=
  match P with [] => True | l :: P' => enters l P' /\ path P' end.

Lemma path_reachable P l : path P -> l ∈ P -> reachable h root l.
Proof.
  revert l. induction P as [|x P IH]; intros l; [by intros _ ?%elem_of_nil|].
  intros [Hx HP] [-> |Hl]%elem_of_cons; [|by apply IH].
  destruct P as [|p P]; [by exists x|]. simpl in Hx.
  destruct (IH p) as (r & Hr & Hrtc); [done|by left|]. exists r. split; [done|]. by eapply rtc_r.
Qed.

Lemma path_inspectable P l : path P -> l ∈ P -> inspectable h l = true.
Proof.
  assert (Href : forall v, l ∈ ref_of h v -> inspectable h l = true).
  { intros [] Hl; simpl in Hl; try by apply elem_of_nil in Hl.
    destruct (inspectable h l0) eqn:E; [|by apply elem_of_nil in Hl].
    by apply list_elem_of_singleton in Hl as ->. }
  induction P as [|x P IH]; [by intros _ ?%elem_of_nil|].
  intros [Hx HP] [-> |Hl]%elem_of_cons; [|by apply IH].
  destruct P as [|p P]; [by eapply Href|]. simpl in Hx.
  apply list_elem_of_In, in_concat in Hx as (ls & Hls & Hl).
  apply list_elem_of_In, list_elem_of_fmap in Hls as (v & -> & _).
  apply list_elem_of_In in Hl. by eapply Href.
Qed.

Lemma path_app P P' : path (P ++ P') -> path P'.
Proof. induction P as [|x P IH]; [done|]. intros [_ H]. by apply IH. Qed.

Lemma times_concat l p objects :
  p ∈ objects -> edge h p l -> (1 <= times l (concat (out_refs h <$> objects)))%nat.
Proof.
  intros Hp He. apply times_elem, list_elem_of_In, in_concat. exists (out_refs h p).
  split; apply list_elem_of_In; [|done]. apply list_elem_of_fmap. eauto.
Qed.

(** An object without an anchor has one parent, and the root none. *)
Lemma single_reference l :
  l ∉ getDuplicateReferences h root ->
  (l ∈ ref_of h root -> forall p, reachable h root p -> ~ edge h p l)
  /\ forall p p', reachable h root p -> reachable h root p' -> edge h p l -> edge h p' l -> p = p'.
Proof.
  intros Hl. destruct (whole_walk h root) as (objects & dups & T & Hi & Hw & HT & Hreach).
  destruct (duplicates_walked h root objects dups T Hi Hw) as [_ Hd].
  rewrite Hd, (times_perm l T _ HT) in Hl. unfold references in Hl.
  rewrite refs_single, times_app in Hl. split.
  - intros Hroot p Hp He. apply times_elem in Hroot.
    pose proof (times_concat l p objects (proj2 (Hreach p) Hp) He). lia.
  - intros p p' Hp Hp' He He'. destruct (decide (p = p')) as [|Hne]; [done|]. exfalso.
    apply Hreach in Hp, Hp'. apply elem_of_Permutation in Hp as [rest Hrest].
    assert (Hp'' : p' ∈ rest).
    { rewrite Hrest in Hp'. by apply elem_of_cons in Hp' as [?|?]. }
    pose proof (times_concat l p' rest Hp'' He') as H1.
    pose proof (proj1 (times_elem l (out_refs h p)) He) as H2.
    assert (Hconcat : concat (out_refs h <$> objects) ≡ₚ out_refs h p ++ concat (out_refs h <$> rest)).
    { by rewrite Hrest. }
    rewrite (times_perm l _ _ Hconcat), times_app in Hl. lia.
Qed.

(** So it is not met again on a path without repetitions. *)
Lemma not_on_path l P :
  path P -> NoDup P -> enters l P -> l ∉ getDuplicateReferences h root -> l ∉ P.
Proof.
  intros HP HN Hl HD Hin. destruct (single_reference l HD) as [Hroot Hone].
  apply list_elem_of_split in Hin as (P1 & P2 & ->).
  pose proof (path_app _ _ HP) as [Hl2 HP2].
  destruct (P1 ++ l :: P2) as [|p P'] eqn:HPeq; [by destruct P1|]. simpl in Hl.
  assert (Hp : reachable h root p) by (eapply path_reachable; [exact HP|by left]).
  destruct P2 as [|q P2]; [by eapply Hroot|]. simpl in Hl2.
  assert (Hq : reachable h root q) by (eapply path_reachable; [exact HP2|by left]).
  assert (p = q) as -> by by eapply Hone.
  apply NoDup_cons in HN as [HN _]. destruct HN. destruct P1 as [|x P1]; simplify_eq/=.
  - by left.
  - apply elem_of_app. right. by right; left.
Qed.

Lemma path_length P : path P -> NoDup P -> (length P <= length h)%nat.
Proof.
  intros HP HN. rewrite <- (length_seq (length h) 0). apply submseteq_length.
  apply NoDup_submseteq; [done|]. intros l Hl. apply elem_of_seq.
  pose proof (inspectable_bound _ _ (path_inspectable P l HP Hl)). lia.
Qed.
End paths.

(** ** Scalars *)

Lemma lift_native_total {A} (o : outcome native_error A) :
  o <> OutOfFuel -> lift_native o <> OutOfFuel.
Proof. by destruct o. Qed.

Lemma testImplicitResolving_total h types str :
  Forall printable_type types -> testImplicitResolving h types str <> OutOfFuel.
Proof.
  induction 1 as [|t ts Ht _ IH]; simpl; [done|].
  apply outcome_bind_total; [apply lift_native_total, Ht|]. intros []; [done|apply IH].
Qed.

Lemma chooseScalarStyle_total string single indent lineWidth test :
  (forall s, test s <> OutOfFuel) ->
  chooseScalarStyle string single indent lineWidth test <> OutOfFuel.
Proof. intros Ht. unfold chooseScalarStyle. total_tac; by apply Ht. Qed.

Lemma escape_unit_total c : escape_unit c <> OutOfFuel.
Proof. unfold escape_unit, encodeHex. total_tac. Qed.

Lemma encodeHex_total c : encodeHex c <> OutOfFuel.
Proof. unfold encodeHex. total_tac. Qed.

Lemma escapeString_total s : escapeString s <> OutOfFuel.
Proof.
  enough (H : escapeString s <> OutOfFuel /\ escapeString (drop 1 s) <> OutOfFuel) by apply H.
  induction s as [|c s [IH IH']]; [done|]. split; [|done]. cbn [escapeString].
  destruct s as [|n s]; [apply escape_unit_total|]. case_match.
  - apply outcome_bind_total; [apply encodeHex_total|]. intros e.
    by apply outcome_bind_total.
  - apply outcome_bind_total; [apply escape_unit_total|]. intros e.
    by apply outcome_bind_total.
Qed.

Lemma scalar_text_total E string level iskey :
  Forall printable_type (d_implicitTypes E) -> scalar_text E string level iskey <> OutOfFuel.
Proof.
  intros Ht. unfold scalar_text. do 2 (case_match; [done|]).
  apply outcome_bind_total.
  - apply chooseScalarStyle_total. intros s. by apply testImplicitResolving_total.
  - intros []; try done. apply outcome_bind_total; [apply escapeString_total|done].
Qed.

(** ** Nodes *)

Section writing.
Variable E : DEnv.
Variable root : value.
Let h := d_heap E.
Let anchors := d_duplicates E.
Hypothesis Hanchors : anchors = getDuplicateReferences h root.
Hypothesis Himplicit : Forall printable_type (d_implicitTypes E).
Hypothesis Hexplicit : Forall printable_type (d_explicitTypes E).
Hypothesis Hsorts : sorts (d_sortKeys E).

(** An anchor that was written stays written. *)
Definition used_le (s s' : DState) : Prop :=
  length (d_used s') = length (d_used s)
  /\ forall i : nat, d_used s !! i = Some true -> d_used s' !! i = Some true.

(** The anchors of the objects on the path are written. *)
Definition ready (P : list nat) (s : DState) : Prop :=
  length (d_used s) = length anchors
  /\ forall l i, l ∈ P -> index_of l anchors = Some i -> d_used s !! i = Some true.

(** What [v] refers to is entered from the end of the path. *)
Definition placed (P : list nat) (v : value) : Prop :=
  forall l, l ∈ ref_of h v -> enters h root l P.

Definition ends_used {A} (m : D A) (s : DState) : Prop :=
  wp m (fun _ s' => used_le s s') (fun _ => True) s.

(** A writer that ends on everything the end of the path refers to. *)
Definition writer (P : list nat) (write : Z -> value -> bool -> bool -> bool -> D bool) : Prop :=
  forall level v block compact iskey s,
    placed P v -> ready P s -> ends_used (write level v block compact iskey) s.

Lemma used_le_refl s : used_le s s.
Proof. by split. Qed.

Lemma used_le_trans s s' s'' : used_le s s' -> used_le s' s'' -> used_le s s''.
Proof. intros [H1 H2] [H3 H4]. split; [congruence|auto]. Qed.

Lemma used_le_same s s' : d_used s' = d_used s -> used_le s s'.
Proof. intros H. unfold used_le. by rewrite H. Qed.

Lemma ready_le P s s' : ready P s -> used_le s s' -> ready P s'.
Proof. intros [H1 H2] [H3 H4]. split; [congruence|eauto]. Qed.

Lemma placed_string P t : placed P (VString t).
Proof. by intros l ?%elem_of_nil. Qed.

Lemma ends_mono {A} (m : D A) (Q : A -> DState -> Prop) s s0 :
  used_le s0 s -> ends_used m s ->
  (forall a s', used_le s0 s' -> Q a s') -> wp m Q (fun _ => True) s.
Proof.
  intros H0 Hm HQ. eapply wp_mono_post; [exact Hm|]. intros a s' Hs. apply HQ.
  by eapply used_le_trans.
Qed.

Lemma wp_liftD {A} (o : outcome jserror A) (Q : A -> DState -> Prop) s :
  o <> OutOfFuel -> (forall a, Q a s) -> wp (liftD o) Q (fun _ => True) s.
Proof. intros Ho HQ. apply wp_liftO. destruct o; [apply HQ|done|done]. Qed.

(** What [detectType] leaves in the state: the value or a text for it. *)
Definition detected (v : value) (s s' : DState) : Prop :=
  d_used s' = d_used s /\ (d_dump s' = d_dump s \/ exists t, d_dump s' = VString t).

Lemma represent_as_ends t v s :
  printable_type t ->
  wp (represent_as E t v) (fun _ s' => detected v s s') (fun _ => True) s.
Proof.
  intros [_ Hr]. unfold represents_total in Hr. unfold represent_as.
  destruct (represent t) as [|f|fs].
  - apply wp_ret. by split; [|left].
  - wp_prim. apply wp_liftD; [apply lift_native_total, Hr|]. intros a. wp_prim.
    split; [done|]. right. by exists a.
  - destruct (assoc_get fs _) as [f|] eqn:Hget; [|by apply wp_liftO].
    wp_prim. apply wp_liftD; [|intros a; wp_prim; split; [done|]; right; by exists a].
    apply lift_native_total.
    apply (assoc_get_Forall (fun f : representer => forall h v style, f h v style <> OutOfFuel)
             fs _ f Hr Hget).
Qed.

Lemma detect_in_ends types explicit_ v s :
  Forall printable_type types ->
  wp (detect_in E types explicit_ v) (fun _ s' => detected v s s') (fun _ => True) s.
Proof.
  induction 1 as [|t ts Ht _ IH]; simpl.
  - apply wp_ret. by split; [|left].
  - destruct (type_applies E t v); [|apply IH].
    wp_prim. wp_prim. wp_prim. eapply wp_mono_post; [by apply represent_as_ends|].
    intros a s' Hd. wp_prim. exact Hd.
Qed.

Lemma detectType_ends explicit_ v s :
  wp (detectType E v explicit_) (fun _ s' => detected v s s') (fun _ => True) s.
Proof. apply detect_in_ends. by destruct explicit_. Qed.

(** ** Collections *)

Section collections.
Variable P : list nat.
Variable write : Z -> value -> bool -> bool -> bool -> D bool.
Hypothesis Hwrite : writer P write.

Lemma flow_sequence_ends level elems first r s :
  Forall (placed P) elems -> ready P s ->
  ends_used (flow_sequence_loop E write level first elems r) s.
Proof.
  unfold ends_used. intros He. revert first r s. induction He as [|v vs Hv _ IH]; intros first r s Hs; simpl.
  - apply wp_ret, used_le_refl.
  - wp_prim. eapply wp_mono_post; [by apply Hwrite|]. intros ok s1 H1. wp_prim. wp_prim.
    eapply ends_mono; [exact H1|apply IH; by eapply ready_le|done].
Qed.

Lemma block_sequence_ends level compact elems first r s :
  Forall (placed P) elems -> ready P s ->
  ends_used (block_sequence_loop E write level compact first elems r) s.
Proof.
  unfold ends_used. intros He. revert first r s. induction He as [|v vs Hv _ IH]; intros first r s Hs; simpl.
  - apply wp_ret, used_le_refl.
  - wp_prim. eapply wp_mono_post; [by apply Hwrite|]. intros ok s1 H1. wp_prim. wp_prim.
    eapply ends_mono; [exact H1|apply IH; by eapply ready_le|done].
Qed.

Lemma flow_mapping_ends level o keys first r s :
  Forall (fun k => placed P (object_get o k)) keys -> ready P s ->
  ends_used (flow_mapping_loop E write level first o keys r) s.
Proof.
  unfold ends_used. intros He. revert first r s. induction He as [|k ks Hk _ IH]; intros first r s Hs; simpl.
  - apply wp_ret, used_le_refl.
  - wp_prim. eapply wp_mono_post; [apply Hwrite; [apply placed_string|exact Hs]|].
    intros ok s1 H1. assert (Hs1 : ready P s1) by by eapply ready_le. destruct (negb ok).
    { eapply ends_mono; [exact H1|by apply IH|done]. }
    wp_prim. wp_prim. wp_prim. eapply wp_mono_post; [by apply Hwrite|]. intros ok' s2 H2.
    wp_prim. wp_prim. pose proof (used_le_trans _ _ _ H1 H2) as Hs2.
    eapply ends_mono; [exact Hs2|apply IH, (ready_le _ _ _ Hs Hs2)|done].
Qed.

Lemma block_mapping_ends level compact o keys first r s :
  Forall (fun k => placed P (object_get o k)) keys -> ready P s ->
  ends_used (block_mapping_loop E write level compact first o keys r) s.
Proof.
  unfold ends_used. intros He. revert first r s. induction He as [|k ks Hk _ IH]; intros first r s Hs; simpl.
  - apply wp_ret, used_le_refl.
  - wp_prim. eapply wp_mono_post; [apply Hwrite; [apply placed_string|exact Hs]|].
    intros ok s1 H1. assert (Hs1 : ready P s1) by by eapply ready_le. destruct (negb ok).
    { eapply ends_mono; [exact H1|by apply IH|done]. }
    wp_prim. wp_prim. wp_prim. eapply wp_mono_post; [by apply Hwrite|]. intros ok' s2 H2.
    wp_prim. wp_prim. pose proof (used_le_trans _ _ _ H1 H2) as Hs2.
    eapply ends_mono; [exact Hs2|apply IH, (ready_le _ _ _ Hs Hs2)|done].
Qed.
End collections.

Definition is_collection (v : value) : bool :=
  jseqb (class_of h v) (js "[object Object]") || jseqb (class_of h v) (js "[object Array]").

Lemma class_object v :
  jseqb (class_of h v) (js "[object Object]") = true ->
  exists l, v = VRef l /\ (h !! l = None \/ exists o, h !! l = Some (OObject o)).
Proof.
  destruct v as [| | | | |l]; simpl; [by intros ?%jseqb_eq..|]. intros Hc. exists l.
  split; [done|]. destruct (h !! l) as [[]|]; eauto; by apply jseqb_eq in Hc.
Qed.

Lemma class_array v :
  jseqb (class_of h v) (js "[object Array]") = true ->
  exists l es, v = VRef l /\ h !! l = Some (OArray es).
Proof.
  destruct v as [| | | | |l]; simpl; [by intros ?%jseqb_eq..|]. intros Hc. exists l.
  destruct (h !! l) as [[]|]; eauto; by apply jseqb_eq in Hc.
Qed.

Lemma placed_child P l v : v ∈ children h l -> placed (l :: P) v.
Proof.
  intros Hv x Hx. apply list_elem_of_In, in_concat. exists (ref_of h v).
  split; apply list_elem_of_In; [|done]. apply list_elem_of_fmap. eauto.
Qed.

Lemma sort_units_permutes ks : sort_units ks ≡ₚ ks.
Proof.
  assert (Hins : forall k l, insert_sorted k l ≡ₚ k :: l).
  { intros k l. induction l as [|k' ks' IH]; simpl; [done|]. case_match; [reflexivity|].
    rewrite IH. apply Permutation_swap. }
  unfold sort_units. induction ks as [|k ks IH]; simpl; [done|]. by rewrite Hins, IH.
Qed.

Section content.
Variable P : list nat.
Variable write : Z -> value -> bool -> bool -> bool -> D bool.

(** Writing the object at [l], with the path that ends there. *)
Lemma write_mapping_ends l o level block compact s :
  h !! l = Some (OObject o) -> writer (l :: P) write -> ready (l :: P) s ->
  ends_used (if (block : bool) then writeBlockMapping E write level (OObject o) compact
             else writeFlowMapping E write level (OObject o)) s.
Proof.
  intros Hl Hw Hs.
  assert (Hk : forall ks, ks ≡ₚ object_keys (OObject o) ->
    Forall (fun k => placed (l :: P) (object_get (OObject o) k)) ks).
  { intros ks Hks. apply Forall_forall. intros k Hin. apply placed_child. unfold children.
    rewrite Hl. apply list_elem_of_fmap. exists k. by rewrite <- Hks. }
  assert (Hend : forall keys r s', keys ≡ₚ object_keys (OObject o) -> used_le s s' ->
    wp (block_mapping_loop E write level compact true (OObject o) keys r)
       (fun _ s'' => used_le s s'') (fun _ => True) s').
  { intros keys r s' Hkeys Hs'. eapply ends_mono; [exact Hs'| |done].
    eapply block_mapping_ends; [exact Hw|by apply Hk|by eapply ready_le]. }
  unfold ends_used. destruct block.
  - unfold writeBlockMapping. wp_prim. wp_prim. wp_prim.
    destruct (d_sortKeys E) as [| |f|] eqn:Hsort; [| | |by apply wp_liftO]; wp_prim; wp_prim;
      (eapply wp_mono_post; [apply Hend; [|apply used_le_refl]|]).
    all: try (intros r s' Hs'; wp_prim; exact Hs').
    + done.
    + apply sort_units_permutes.
    + apply Hsorts.
  - unfold writeFlowMapping. wp_prim. wp_prim. wp_prim.
    eapply wp_mono_post; [eapply flow_mapping_ends; [exact Hw|by apply Hk|exact Hs]|].
    intros r s' Hs'. wp_prim. exact Hs'.
Qed.

Lemma write_sequence_ends l es level block compact s :
  h !! l = Some (OArray es) -> writer (l :: P) write -> ready (l :: P) s ->
  ends_used (if (block : bool) then writeBlockSequence E write level es compact
             else writeFlowSequence E write level es) s.
Proof.
  intros Hl Hw Hs. assert (Hes : Forall (placed (l :: P)) es).
  { apply Forall_forall. intros v Hv. apply placed_child. unfold children. by rewrite Hl. }
  unfold ends_used. destruct block; [unfold writeBlockSequence|unfold writeFlowSequence];
    wp_prim; wp_prim; wp_prim.
  - eapply wp_mono_post; [by eapply block_sequence_ends|]. intros r s' Hs'. wp_prim. exact Hs'.
  - eapply wp_mono_post; [by eapply flow_sequence_ends|]. intros r s' Hs'. wp_prim. exact Hs'.
Qed.

Lemma write_content_ends level block compact iskey duplicate s :
  (forall l, d_dump s = VRef l -> is_collection (VRef l) = true -> inspectable h l = true ->
     writer (l :: P) write /\ ready (l :: P) s) ->
  ends_used (write_content E write level block compact iskey duplicate) s.
Proof.
  intros Hdump.
  assert (Hanchored : forall sep s', used_le s s' ->
    wp (_ ← match duplicate with
            | Some i => modifyS (fun s => set_dump (VString (js "&" ++ ref_name i ++ sep
                                                              ++ dump_text s)) s)
            | None => mret tt
            end; mret true : D bool) (fun _ s'' => used_le s s'') (fun _ => True) s').
  { intros sep s' Hs'. wp_prim. destruct duplicate; wp_prim; wp_prim; exact Hs'. }
  unfold ends_used, write_content. wp_prim. wp_prim. cbv zeta. fold h.
  destruct (jseqb (class_of h (d_dump s)) (js "[object Object]")) eqn:Ho.
  { destruct (class_object _ Ho) as (l & Hv & Hl). rewrite Hv in *. simpl object_at.
    destruct Hl as [Hl|[o Hl]]; rewrite Hl; simpl default.
    - rewrite andb_false_r. wp_prim. unfold writeFlowMapping. repeat wp_prim. by apply Hanchored.
    - destruct (Hdump l) as [Hw Hs]; [done|by apply orb_true_iff; left| |].
      { unfold inspectable. by rewrite Hl. }
      pose proof (fun b => write_mapping_ends l o level b compact s Hl Hw Hs) as Hm.
      destruct (block && _); wp_prim;
        (eapply wp_mono_post; [apply (Hm true) || apply (Hm false)|]);
        intros [] s' Hs'; by apply Hanchored. }
  destruct (jseqb (class_of h (d_dump s)) (js "[object Array]")) eqn:Ha.
  { destruct (class_array _ Ha) as (l & es & Hv & Hl). rewrite Hv in *. simpl object_at.
    rewrite Hl. simpl default. cbv iota.
    destruct (Hdump l) as [Hw Hs]; [done|by apply orb_true_iff; right| |].
    { unfold inspectable. by rewrite Hl. }
    pose proof (fun b => write_sequence_ends l es level b compact s Hl Hw Hs) as Hm.
    destruct (block && _); wp_prim;
      (eapply wp_mono_post; [apply (Hm true) || apply (Hm false)|]);
      intros [] s' Hs'; by apply Hanchored. }
  destruct (jseqb (class_of h (d_dump s)) (js "[object String]")).
  { wp_prim. destruct (bool_decide _); [by wp_prim; wp_prim; apply used_le_refl|].
    unfold writeScalar. wp_prim. apply wp_liftD; [by apply scalar_text_total|]. intros a.
    repeat wp_prim. by apply used_le_same. }
  destruct (d_skipInvalid E); [wp_prim; apply used_le_refl|by apply wp_liftO].
Qed.
End content.

(** Entering the object at [l] marks its anchor; an anchored object that is
    entered was not on the path. *)
Lemma enter_anchored P l i s :
  ready P s -> index_of l anchors = Some i -> default false (d_used s !! i) = false ->
  l ∉ P /\ used_le s (set_used (<[i := true]> (d_used s)) s)
  /\ ready (l :: P) (set_used (<[i := true]> (d_used s)) s).
Proof.
  intros [Hlen Hs] Hi Hu. split_and!.
  - intros Hl. rewrite (Hs l i Hl Hi) in Hu. done.
  - split; simpl; [by rewrite length_insert|]. intros j Hj.
    destruct (decide (i = j)) as [<-|]; [|by rewrite list_lookup_insert_ne].
    apply list_lookup_insert_eq. by apply lookup_lt_Some in Hj.
  - split; simpl; [by rewrite length_insert|]. intros x j Hx Hj.
    assert (Hi' : (i < length (d_used s))%nat).
    { rewrite Hlen. apply index_of_Some in Hi. by apply lookup_lt_Some in Hi. }
    destruct (decide (i = j)) as [<-|Hne]; [by apply list_lookup_insert_eq|].
    rewrite list_lookup_insert_ne by done. apply elem_of_cons in Hx as [-> |Hx]; [|eauto].
    congruence.
Qed.

Lemma ready_plain P l s : ready P s -> index_of l anchors = None -> ready (l :: P) s.
Proof.
  intros [Hlen Hs] Hl. split; [done|]. intros x i [-> |Hx]%elem_of_cons Hi; [congruence|eauto].
Qed.

Lemma ref_inspectable l : inspectable h l = true -> l ∈ ref_of h (VRef l).
Proof. intros Hl. simpl. rewrite Hl. by left. Qed.

(** The object at [l] is entered from the end of the path. *)
Lemma path_enter P l :
  path h root P -> NoDup P -> placed P (VRef l) -> inspectable h l = true -> l ∉ P ->
  path h root (l :: P) /\ NoDup (l :: P).
Proof.
  intros HP HN Hv Hl Hin. split; [|by apply NoDup_cons]. split; [|done].
  by apply Hv, ref_inspectable.
Qed.

(** What is left of a node once its type is known. *)
Lemma finish_node_ends s s0 write level block compact iskey duplicate :
  used_le s0 s ->
  ends_used (write_content E write level block compact iskey duplicate) s ->
  wp (ok ← write_content E write level block compact iskey duplicate;
      if negb ok then mret false
      else
        s ← getS;
        _ ← match d_tag s with
            | Some t => if has_tag (Some t)
                        then modifyS (set_dump (VString (js "!<" ++ t ++ js "> " ++ dump_text s)))
                        else mret tt
            | None => mret tt
            end;
        mret true) (fun _ s' => used_le s0 s') (fun _ => True) s.
Proof.
  intros H0 Hc. wp_prim. eapply ends_mono; [exact H0|exact Hc|]. intros ok s' Hs'.
  destruct (negb ok); [by wp_prim|]. wp_prim. wp_prim. wp_prim.
  destruct (d_tag s') as [tg|]; [destruct (has_tag _)|]; wp_prim; wp_prim; exact Hs'.
Qed.

(** The value that is written: the node itself or its text. *)
Definition settled (v : value) (s s' : DState) : Prop :=
  d_used s' = d_used s /\ (d_dump s' = v \/ exists t, d_dump s' = VString t).

Lemma settled_collection v s s' :
  settled v s s' -> is_collection (d_dump s') = true -> d_dump s' = v /\ exists l, v = VRef l.
Proof.
  intros [_ [Hd|[tx Hd]]] Hc; rewrite Hd in Hc; [|done]. split; [done|].
  apply orb_true_iff in Hc as [(l & -> & _)%class_object|(l & es & -> & _)%class_array]; eauto.
Qed.

(** The node at the end of the path. *)
Lemma writeNode_body_ends P write :
  path h root P -> NoDup P ->
  (forall l, path h root (l :: P) -> NoDup (l :: P) -> writer (l :: P) write) ->
  writer P (writeNode_body E write).
Proof.
  intros HP HN Hw level v block compact iskey s Hv Hs. unfold ends_used, writeNode_body.
  wp_prim. wp_prim. wp_prim. eapply wp_mono_post; [apply detectType_ends|].
  intros found s1 [Hu1 Hd1]. simpl in Hu1, Hd1. wp_prim.
  apply (wp_mono_post _ (fun _ s2 => settled v s s2)).
  { destruct found; [by wp_prim|]. eapply wp_mono_post; [apply detectType_ends|].
    intros b s2 [Hu2 Hd2]. split; [congruence|]. destruct Hd2 as [->|]; auto. }
  intros _ s2 Hset. pose proof (used_le_same s s2 (proj1 Hset)) as Hle.
  pose proof (ready_le P s s2 Hs Hle) as Hs2. wp_prim. wp_prim. cbv zeta. fold h anchors.
  fold (is_collection (d_dump s2)). destruct (is_collection (d_dump s2)) eqn:Hc; last first.
  { cbn iota. wp_prim. wp_prim. apply finish_node_ends; [exact Hle|].
    apply (write_content_ends P). intros l Hl Hcl. rewrite Hl in Hc. congruence. }
  destruct (settled_collection v s s2 Hset Hc) as [Hdump [l ->]].
  destruct (index_of l anchors) as [i|] eqn:Hi.
  - destruct (default false (d_used s2 !! i)) eqn:Hu.
    { wp_prim. wp_prim. wp_prim. exact Hle. }
    destruct (enter_anchored P l i s2 Hs2 Hi Hu) as (Hin & Hle' & Hs').
    wp_prim. wp_prim. apply finish_node_ends; [by eapply used_le_trans|].
    apply (write_content_ends P). simpl. rewrite Hdump. intros x [= <-] _ Hl. split; [|exact Hs'].
    by apply Hw; apply path_enter.
  - cbn iota. wp_prim. wp_prim. apply finish_node_ends; [exact Hle|].
    apply (write_content_ends P). rewrite Hdump. intros x [= <-] _ Hl.
    split; [|by apply ready_plain].
    assert (Hin : l ∉ P); [|by apply Hw; apply path_enter].
    apply not_on_path with (h := h) (root := root); [done..| |].
    + by apply Hv, ref_inspectable.
    + rewrite <- Hanchors. by apply index_of_None.
Qed.

(** With fuel for the objects that are not on the path, every node is written. *)
Lemma writeNode_ends n P :
  path h root P -> NoDup P -> (length h + 1 < n + length P)%nat -> writer P (writeNode E n).
Proof.
  revert P. induction n as [|n IH]; intros P HP HN Hn.
  { pose proof (path_length h root P HP HN). lia. }
  intros level v block compact iskey s Hv Hs. cbn [writeNode].
  apply (writeNode_body_ends P (writeNode E n)); try done.
  intros l HP' HN'. apply IH; [done..|]. simpl. lia.
Qed.
End writing.

(** ** The predefined types *)

Lemma full_schema_represents hs : schema_all represents_total (DEFAULT_FULL_SCHEMA hs).
Proof.
  simpl. split_and!; try done; repeat apply Forall_cons_2; try apply Forall_nil_2.
  all: unfold represents_total; simpl; try done.
  all: repeat apply Forall_cons_2; try apply Forall_nil_2; intros h v style; simpl.
  all: unfold on_number, representYamlFloat, representYamlTimestamp, representYamlBinary,
         representJavascriptRegExp, representJavascriptFunction; total_tac.
Qed.

Lemma schema_all_and P Q s :
  schema_all P s -> schema_all Q s -> schema_all (fun t => P t /\ Q t) s.
Proof.
  induction s as [inc i e IH] using schema_induction. intros (Hi & He & Hinc) (Hi' & He' & Hinc').
  simpl. split_and!; [by apply Forall_and..|].
  induction IH as [|s inc Hs _ IHinc]; simpl in *; [done|].
  destruct Hinc as [Hs1 Hinc], Hinc' as [Hs2 Hinc']. auto.
Qed.

Lemma schema_all_impl (P Q : yaml_type -> Prop) s :
  (forall t, P t -> Q t) -> schema_all P s -> schema_all Q s.
Proof.
  intros HPQ. induction s as [inc i e IH] using schema_induction. intros (Hi & He & Hinc).
  simpl. split_and!; [by eapply Forall_impl..|].
  induction IH as [|s inc Hs _ IHinc]; simpl in *; [done|]. destruct Hinc as [Hs1 Hinc]. auto.
Qed.

Lemma full_schema_printable hs : schema_all printable_type (DEFAULT_FULL_SCHEMA hs).
Proof.
  eapply schema_all_impl;
    [|exact (schema_all_and _ _ _ (full_schema_good hs) (full_schema_represents hs))].
  intros t [Hg Hr]. split; [apply Hg|done].
Qed.

Lemma safe_schema_printable hs : schema_all printable_type (DEFAULT_SAFE_SCHEMA hs).
Proof. apply (full_schema_printable hs). Qed.

(** ** The entry points *)

Lemma compileStyleMap_total fallback m r : compileStyleMap fallback m r <> OutOfFuel.
Proof.
  revert r. induction m as [|[tg style] m IH]; intros r; simpl; [done|].
  repeat case_match; first [apply IH | done].
Qed.

(** Options with a schema of types that return or throw, or with none. *)
Definition dump_options_total (o : dump_options) : Prop :=
  match do_schema o with Some s => schema_all printable_type s | None => True end
  /\ sorts (do_sortKeys o).

#[local] Arguments writeNode : simpl never.

Lemma dump_ends hs h v o :
  schema_all printable_type (default (DEFAULT_FULL_SCHEMA hs) (do_schema o)) ->
  sorts (do_sortKeys o) -> do_noRefs o = false -> returns_or_throws (dump hs h v o).
Proof.
  intros Hsch Hsort Hrefs. unfold dump, make_denv. rewrite Hrefs.
  destruct (compileStyleMap _ _ _) as [styles|e|] eqn:Hst; simpl.
  2: right; by eexists. 2: by destruct (compileStyleMap_total _ _ _ Hst).
  match goal with |- context [writeNode ?E' ?n 0 v true true false ?s'] =>
    assert (Hends : ends_used (writeNode E' n 0 v true true false) s') end.
  { apply (writeNode_ends _ v) with (P := []); simpl; try done.
    - by apply compileList_Forall; auto.
    - by apply compileList_Forall; auto.
    - constructor.
    - unfold dump_fuel. simpl. lia.
    - intros l Hl. exact Hl.
    - split; simpl; [by rewrite length_replicate|]. by intros l i ?%elem_of_nil. }
  unfold ends_used, wp in Hends. destruct (writeNode _ _ _ _ _ _ _ _) as [[[] s']|e|]; [| | |done].
  - left. by eexists.
  - left. by eexists.
  - right. by eexists.
Qed.

(** C9: for every value, also one that refers to itself, and all options whose
    types return or throw and whose sort function permutes, [dump] and [safeDump]
    return a text or throw, unless the caller switched the anchors off. *)
Theorem dumper_terminates hs h v o :
  dump_options_total o -> do_noRefs o = false ->
  returns_or_throws (dump hs h v o) /\ returns_or_throws (safeDump hs h v o).
Proof.
  intros [Ho Hs] Hr. split; apply dump_ends; simpl; try done; destruct (do_schema o); try done.
  - apply full_schema_printable.
  - apply safe_schema_printable.
Qed.

(** A list that holds itself twice. *)
Lemma dumper_terminates_witness :
  dump_options_total no_dump_options /\ do_noRefs no_dump_options = false
  /\ returns_or_throws (dump bare_host [OArray [VRef 0; VRef 0]] (VRef 0) no_dump_options)
  /\ returns_or_throws (safeDump bare_host [OArray [VRef 0; VRef 0]] (VRef 0) no_dump_options).
Proof. split; [by split|]. split; [done|]. by apply dumper_terminates. Defined.
