(* ===== verification/YamlQuoted.v ===== *)
(** * js-yaml: quoted scalars read back what was written

    A string written in double quotes with [escapeString], or in single quotes
    with its quotes doubled, is read back unit for unit by the corresponding
    scanner, wherever it stands in the input. *)

From S2P Require Import JsPrelude JsInt32 JsNumber JsDigits JsValue JsRegExp YamlCommon YamlTypes.
From S2P Require Import YamlSchema YamlLoader YamlDumper.

(** A JavaScript string holds 16-bit code units. *)
Definition is_unit (c : Z) : Prop := 0 <= c < 65536.

(** ** Exact runs of the scanner's helpers *)

Lemma set_result_id s r : result s = VString r -> set_result (VString (r ++ [])) s = s.
Proof. intros Hr. rewrite app_nil_r, <- Hr. by destruct s. Qed.

Section runs.
Context (E : Env) (R : jserror -> Prop).

Lemma wp_append_exact t r (Q : unit -> State -> Prop) s :
  result s = VString r -> Q tt (set_result (VString (r ++ t)) s) -> wp (append_result t) Q R s.
Proof. intros Hr HQ. apply wp_bind, wp_gets. rewrite Hr. by apply wp_modifyS. Qed.

(** A captured segment is appended when it passes the check of its style. *)
Lemma wp_capture_exact pre seg post cs ce (checkJson : bool) r (Q : unit -> State -> Prop) s :
  input E = pre ++ seg ++ post -> cs = strlen pre -> ce = strlen pre + strlen seg ->
  result s = VString r ->
  (if checkJson then forallb json_unit seg = true else PATTERN_NON_PRINTABLE_test seg = false) ->
  Q tt (set_result (VString (r ++ seg)) s) ->
  wp (captureSegment E cs ce checkJson) Q R s.
Proof.
  intros Hin -> -> Hr Hok HQ. unfold captureSegment. rewrite Hin.
  destruct (Z.ltb_spec (strlen pre) (strlen pre + strlen seg)) as [Hlt|Hle].
  - rewrite slice_app_mid by done. cbv zeta. apply wp_bind.
    destruct checkJson; rewrite Hok; apply wp_ret; by apply (wp_append_exact _ r).
  - destruct seg as [|c seg]; [|rewrite strlen_cons in Hle; pose proof (strlen_nonneg seg); lia].
    apply wp_ret. by rewrite set_result_id in HQ.
Qed.

Lemma wp_no_separator (Q : bool -> State -> Prop) s :
  lineStart s < position s -> Q false s -> wp (at_document_separator E) Q R s.
Proof.
  intros Hlt HQ. apply wp_bind, wp_getS. destruct (Z.eqb_spec (position s) (lineStart s)); [lia|].
  by apply wp_ret.
Qed.

Lemma wp_peek_exact pre c post (Q : Z -> State -> Prop) s :
  input E = pre ++ c :: post -> position s = strlen pre -> Q c s -> wp (peek E) Q R s.
Proof.
  intros Hin Hp HQ. change (Q (charCodeAt (input E) (position s + 0)) s).
  by rewrite Z.add_0_r, Hin, charCodeAt_mid.
Qed.

Lemma wp_advance_exact pre c d post (Q : Z -> State -> Prop) s :
  input E = pre ++ c :: d :: post -> position s = strlen pre ->
  Q d (set_position (position s + 1) s) -> wp (advance E) Q R s.
Proof.
  intros Hin Hp HQ. apply wp_bind, wp_modifyS.
  apply (wp_peek_exact (pre ++ [c]) d post); [by rewrite Hin, <- app_assoc| |done].
  simpl. rewrite strlen_app. unfold strlen at 2. simpl. lia.
Qed.
End runs.

Ltac len := rewrite ?strlen_app, ?strlen_cons, ?strlen_nil in *; try lia.

(** Conclude with a state whose position is written differently. *)
Ltac match_position H :=
  match goal with |- _ (set_position ?a _) =>
    match type of H with _ (set_position ?b _) =>
      replace a with b by (unfold fmap in *; lia) end end;
  exact H.

(** ** The items of a double-quoted scalar *)

Inductive item : Type :=
| Lit (c : Z)
| Simple (c x : Z)
| Hex (handle : Z) (ds : jsstr).

Definition hex_val (acc : Z) (ds : jsstr) : Z :=
  fold_left (fun r d => shl32 r 4 + fromHexCode d) ds acc.

Definition item_text (i : item) : jsstr :=
  match i with
  | Lit c => [c]
  | Simple c _ => [92; c]
  | Hex handle ds => 92 :: handle :: ds
  end.

Definition item_units (i : item) : jsstr :=
  match i with
  | Lit c => [c]
  | Simple _ x => [x]
  | Hex _ ds => charFromCodepoint (hex_val 0 ds)
  end.

Definition item_ok (i : item) : Prop :=
  match i with
  | Lit c => json_unit c = true /\ c <> 0 /\ c <> 34 /\ c <> 92 /\ is_EOL c = false
  | Simple c x => c < 256 /\ is_EOL c = false /\ simpleEscapeSequence c = Some x
  | Hex handle ds =>
      is_EOL handle = false /\ simpleEscapeSequence handle = None
      /\ 0 < escapedHexLen handle /\ escapedHexLen handle = strlen ds
      /\ Forall (fun d => 0 <= fromHexCode d) ds
  end.

Section double.
Context (E : Env) (R : jserror -> Prop).

Lemma wp_hex_exact pre c ds post acc (Q : Z -> State -> Prop) s :
  input E = pre ++ c :: ds ++ post -> position s = strlen pre ->
  Forall (fun d => 0 <= fromHexCode d) ds ->
  Q (hex_val acc ds) (set_position (position s + strlen ds) s) ->
  wp (hex_loop E (length ds) acc) Q R s.
Proof.
  revert pre c acc s. induction ds as [|d ds IH]; intros pre c acc s Hin Hp Hds HQ; simpl.
  - apply wp_ret. rewrite strlen_nil, Z.add_0_r in HQ.
    by replace (set_position (position s) s) with s in HQ by by destruct s.
  - apply Forall_cons in Hds as [Hd Hds].
    apply wp_bind, (wp_advance_exact E R pre c d (ds ++ post)); [done|done|].
    destruct (Z.leb_spec 0 (fromHexCode d)); [|lia].
    apply (IH (pre ++ [c]) d); [by rewrite Hin, <- app_assoc|simpl; len|done|].
    simpl. rewrite strlen_cons in HQ.
    replace (set_position _ (set_position _ s)) with (set_position (position s + (1 + strlen ds)) s)
      by (destruct s; simpl; by rewrite Z.add_assoc). exact HQ.
Qed.

Lemma wp_read_escape_exact ni pre i e es post r (Q : unit -> State -> Prop) s :
  item_ok i -> item_text i = 92 :: e :: es ->
  input E = pre ++ e :: es ++ post -> position s = strlen pre -> result s = VString r ->
  Q tt (set_position (position s + strlen (e :: es)) (set_result (VString (r ++ item_units i)) s)) ->
  wp (read_escape E ni e) Q R s.
Proof.
  intros Hok Htext Hin Hp Hr HQ. unfold read_escape.
  destruct i as [c|c x|handle ds]; simpl in *; simplify_eq/=.
  - destruct Hok as (Hlt & Heol & Hsimple). rewrite Heol.
    destruct (Z.ltb_spec e 256); [|lia]. rewrite Hsimple.
    apply wp_bind, (wp_append_exact R _ r); [done|]. apply wp_modifyS. exact HQ.
  - destruct Hok as (Heol & Hnone & Hpos & Hlen & Hds). rewrite Heol.
    replace (if e <? 256 then simpleEscapeSequence e else None) with (@None Z)
      by (by destruct (e <? 256)).
    destruct (Z.ltb_spec 0 (escapedHexLen e)); [|lia]. rewrite Hlen. unfold strlen at 1.
    rewrite Nat2Z.id. apply wp_bind, (wp_hex_exact pre e es post); [done|done|done|].
    apply wp_bind, (wp_append_exact R _ r); [done|]. apply wp_modifyS. simpl.
    rewrite strlen_cons in HQ. destruct s; simpl in *. by rewrite <- Z.add_assoc, (Z.add_comm _ 1).
Qed.

(** One iteration at an escape; [pend] is the literal text since the last one. *)
Lemma wp_double_escape n ni i e es pre pend rest ce r (Q : bool -> State -> Prop) s :
  item_ok i -> item_text i = 92 :: e :: es ->
  input E = pre ++ pend ++ item_text i ++ rest ->
  position s = strlen pre + strlen pend -> result s = VString r -> forallb json_unit pend = true ->
  (let p := strlen (pre ++ pend ++ item_text i) in
   wp (double_loop E n ni p p) Q R
     (set_position p (set_result (VString ((r ++ pend) ++ item_units i)) s))) ->
  wp (double_loop E (S n) ni (strlen pre) ce) Q R s.
Proof.
  intros Hok Htext Hin Hp Hr Hpend Hk. rewrite Htext in *. simpl in Hk.
  cbn [double_loop]. apply wp_bind, wp_getS, wp_bind.
  apply (wp_peek_exact E R (pre ++ pend) 92 (e :: es ++ rest));
    [by rewrite Hin, <- app_assoc|len|]. simpl.
  apply wp_bind, (wp_capture_exact E R pre pend (92 :: e :: es ++ rest) _ _ _ r);
    [done|done|done|done|done|].
  apply wp_bind, (wp_advance_exact E R (pre ++ pend) 92 e (es ++ rest));
    [by rewrite Hin, <- app_assoc|simpl; len|].
  apply wp_bind, (wp_read_escape_exact ni (pre ++ pend ++ [92]) i e es rest (r ++ pend));
    [done|done|by rewrite Hin, <- !app_assoc|simpl; len|done|].
  apply wp_bind, wp_gets. simpl.
  replace (position s + 1 + strlen (e :: es)) with (strlen (pre ++ pend ++ 92 :: e :: es)) by len.
  by destruct s.
Qed.

Lemma wp_double_literal n ni c pre pend rest ce (Q : bool -> State -> Prop) s :
  item_ok (Lit c) -> input E = pre ++ pend ++ c :: rest ->
  position s = strlen pre + strlen pend -> lineStart s < position s ->
  (let p := position s + 1 in wp (double_loop E n ni (strlen pre) p) Q R (set_position p s)) ->
  wp (double_loop E (S n) ni (strlen pre) ce) Q R s.
Proof.
  intros (Hj & H0 & H34 & H92 & Heol) Hin Hp Hls Hk.
  cbn [double_loop]. apply wp_bind, wp_getS, wp_bind.
  apply (wp_peek_exact E R (pre ++ pend) c rest); [by rewrite Hin, <- app_assoc|len|].
  rewrite (proj2 (Z.eqb_neq c 0) H0), (proj2 (Z.eqb_neq c 34) H34), (proj2 (Z.eqb_neq c 92) H92), Heol.
  apply wp_bind, wp_no_separator; [done|]. by apply wp_bind, wp_modifyS, wp_bind, wp_gets.
Qed.

Lemma wp_double_items n ni items pre pend post ce r (Q : bool -> State -> Prop) s :
  Forall item_ok items -> (length items < n)%nat ->
  input E = pre ++ pend ++ concat (item_text <$> items) ++ 34 :: post ->
  position s = strlen pre + strlen pend -> lineStart s < position s ->
  result s = VString r -> forallb json_unit pend = true ->
  Q true (set_position (position s + strlen (concat (item_text <$> items)) + 1)
            (set_result (VString (r ++ pend ++ concat (item_units <$> items))) s)) ->
  wp (double_loop E n ni (strlen pre) ce) Q R s.
Proof.
  revert n pre pend ce r s. induction items as [|i items IH];
    intros n pre pend ce r s Hok Hn Hin Hp Hls Hr Hpend HQ; (destruct n as [|n]; [simpl in Hn; lia|]).
  - cbn [double_loop]. apply wp_bind, wp_getS, wp_bind.
    apply (wp_peek_exact E R (pre ++ pend) 34 post); [by rewrite Hin, <- app_assoc|len|]. simpl.
    apply wp_bind, (wp_capture_exact E R pre pend (34 :: post) _ _ _ r); [done|done|done|done|done|].
    apply wp_bind, wp_modifyS, wp_ret. simpl in *. rewrite app_nil_r, Z.add_0_r in HQ. exact HQ.
  - apply Forall_cons in Hok as [Hi Hok]. simpl in Hn, Hin, HQ. rewrite <- app_assoc in Hin.
    assert (Hesc : forall e es, item_text i = 92 :: e :: es ->
      wp (double_loop E (S n) ni (strlen pre) ce) Q R s).
    { intros e es Htext. pose proof (strlen_nonneg (item_text i)).
      eapply wp_double_escape; [done|done|done|done|done|done|]. simpl.
      apply (IH n (pre ++ pend ++ item_text i) [] _ ((r ++ pend) ++ item_units i));
        [done|lia|by rewrite Hin, <- !app_assoc|simpl; len|simpl; len|done|done|].
      rewrite <- !app_assoc in *. rewrite !strlen_app in *. simpl in *.
      destruct s; simpl in *. rewrite Hp in HQ.
      match_position HQ. }
    destruct i as [c|c x|handle ds]; [|by eapply Hesc; reflexivity..]. clear Hesc. simpl in *.
    apply (wp_double_literal n ni c pre pend (concat (item_text <$> items) ++ 34 :: post));
      [done|done|done|done|].
    apply (IH n pre (pend ++ [c]) _ r); [done|lia|by rewrite Hin, <- app_assoc|simpl; len
      |simpl; lia|done| |].
    + rewrite forallb_app, Hpend. simpl. destruct Hi as [-> _]. done.
    + rewrite strlen_cons in HQ. rewrite <- app_assoc. destruct s; simpl in *.
      match_position HQ.
Qed.
End double.

(** ** What [escapeString] writes *)

Definition hex_digit (d : Z) : Z := upper_unit (digit_unit d).

Lemma fromHexCode_digit d : 0 <= d < 16 -> fromHexCode (hex_digit d) = d.
Proof.
  intros Hd. assert (Hall : forallb (fun d => fromHexCode (hex_digit d) =? d)
    [0;1;2;3;4;5;6;7;8;9;10;11;12;13;14;15] = true) by reflexivity.
  rewrite forallb_forall in Hall. apply Z.eqb_eq, Hall. simpl. lia.
Qed.

Lemma digits_val_ge acc ds :
  0 <= acc -> Forall (fun d => 0 <= d < 16) ds -> acc <= digits_val 16 acc ds.
Proof.
  intros Hacc Hds. revert acc Hacc. induction Hds as [|d ds Hd _ IH]; intros acc Hacc.
  - unfold digits_val. simpl. lia.
  - change (acc <= digits_val 16 (acc * 16 + d) ds). specialize (IH (acc * 16 + d)). lia.
Qed.

(** The shifts of the scanner do not overflow below 2^31. *)
Lemma hex_val_digits acc ds :
  0 <= acc -> Forall (fun d => 0 <= d < 16) ds -> digits_val 16 acc ds < 2 ^ 31 ->
  hex_val acc (hex_digit <$> ds) = digits_val 16 acc ds.
Proof.
  intros Hacc Hds. revert acc Hacc. induction Hds as [|d ds Hd Hds IH]; intros acc Hacc Hlt; [done|].
  change (digits_val 16 acc (d :: ds)) with (digits_val 16 (acc * 16 + d) ds) in *.
  change (hex_val acc (hex_digit <$> d :: ds))
    with (hex_val (shl32 acc 4 + fromHexCode (hex_digit d)) (hex_digit <$> ds)).
  pose proof (digits_val_ge (acc * 16 + d) ds ltac:(lia) Hds).
  rewrite fromHexCode_digit by done. unfold shl32. change (4 mod 32) with 4.
  rewrite (toInt32_small acc), Z.shiftl_mul_pow2 by lia. change (2 ^ 4) with 16.
  rewrite toInt32_small by lia. apply IH; lia.
Qed.

Lemma repeat_zeros k : repeat (js "0") k = hex_digit <$> replicate (Z.to_nat k) 0.
Proof.
  unfold repeat. assert (Hacc : forall n (r : jsstr), repeat_loop n (js "0") r = r ++ (hex_digit <$> replicate n 0)).
  { induction n as [|n IH]; intros r; simpl; [by rewrite app_nil_r|]. by rewrite IH, <- app_assoc. }
  apply Hacc.
Qed.

Lemma digits_val_zeros k ds : digits_val 16 0 (replicate k 0 ++ ds) = digits_val 16 0 ds.
Proof. induction k as [|k IH]; [done|exact IH]. Qed.

(** The digits of [c] padded with zeros to the length an escape asks for. *)
Lemma padded_item c ds handle len :
  0 <= c <= 1114111 -> digits_of 16 c ds -> escapedHexLen handle = len -> 1 <= len ->
  c < 16 ^ len -> is_EOL handle = false -> simpleEscapeSequence handle = None ->
  exists i,
    item_text i = 92 :: handle :: repeat (js "0") (len - strlen (hex_digit <$> ds)) ++ (hex_digit <$> ds)
    /\ item_ok i /\ item_units i = charFromCodepoint c.
Proof.
  intros Hc [Hrg Hv _ Hlen _] Hhex H1 Hlt Heol Hsimple. specialize (Hlen len H1 Hlt).
  set (pad := replicate (Z.to_nat (len - strlen ds)) 0 ++ ds).
  exists (Hex handle (hex_digit <$> pad)). rewrite repeat_zeros.
  assert (Hpl : strlen (hex_digit <$> pad) = len).
  { unfold pad, strlen in *. rewrite length_fmap, length_app, length_replicate. lia. }
  assert (Hr : Forall (fun d => 0 <= d < 16) pad).
  { apply Forall_app. split; [|done]. apply Forall_replicate. lia. }
  split; [|split].
  - unfold pad. cbn [item_text]. rewrite fmap_app. unfold strlen. by rewrite length_fmap.
  - cbn [item_ok]. rewrite Hpl, Hhex. repeat split; [done|done|lia|].
    apply Forall_fmap. eapply Forall_impl; [exact Hr|]. intros d Hd. cbv beta in Hd.
    change (0 <= fromHexCode (hex_digit d)). rewrite fromHexCode_digit; lia.
  - cbn [item_units]. unfold pad in *. rewrite hex_val_digits; rewrite ?digits_val_zeros, ?Hv; done || lia.
Qed.

Lemma encodeHex_item c : 0 <= c <= 1114111 ->
  exists i, encodeHex c = Ret (item_text i) /\ item_ok i /\ item_units i = charFromCodepoint c.
Proof.
  intros Hc. unfold encodeHex, int_toString. destruct (Z.ltb_spec c 0); [lia|].
  destruct (digits_spec 16 c ltac:(lia) ltac:(lia)) as (ds & -> & Hds).
  replace (toUpperCase (digit_unit <$> ds)) with (hex_digit <$> ds)
    by (unfold toUpperCase; by rewrite <- list_fmap_compose).
  destruct (Z.leb_spec c 255); [|destruct (Z.leb_spec c 65535); [|destruct (Z.leb_spec c 4294967295)]].
  - destruct (padded_item c ds 120 2) as (i & <- & ?); eauto; lia.
  - destruct (padded_item c ds 117 4) as (i & <- & ?); eauto; lia.
  - destruct (padded_item c ds 85 8) as (i & <- & ?); eauto; lia.
  - lia.
Qed.

(** A unit on its own, and a surrogate pair. *)
Lemma charFromCodepoint_unit c : is_unit c -> charFromCodepoint c = [c].
Proof.
  intros Hc. unfold is_unit in Hc. unfold charFromCodepoint, fromCharCode.
  destruct (Z.leb_spec c 65535); [|lia]. by rewrite Z.mod_small.
Qed.

Lemma charFromCodepoint_pair c n :
  is_high_surrogate c = true -> is_low_surrogate n = true ->
  charFromCodepoint ((c - 55296) * 1024 + n - 56320 + 65536) = [c; n].
Proof.
  unfold is_high_surrogate, is_low_surrogate. rewrite !andb_true_iff, !Z.leb_le. intros Hc Hn.
  unfold charFromCodepoint, fromCharCode.
  destruct (Z.leb_spec ((c - 55296) * 1024 + n - 56320 + 65536) 65535); [lia|].
  replace ((c - 55296) * 1024 + n - 56320 + 65536 - 65536)
    with ((c - 55296) * 1024 + (n - 56320)) by lia.
  unfold sar32, and32. rewrite !toInt32_small by lia. change (10 mod 32) with 10.
  rewrite Z.shiftr_div_pow2 by lia. change 1023 with (Z.ones 10). rewrite Z.land_ones by lia.
  change (2 ^ 10) with 1024. simpl. f_equal; [div_mod|]. f_equal. div_mod.
Qed.

Lemma escape_of_in table c e : escape_of table c = Some e -> In (c, e) table.
Proof.
  induction table as [|[k e'] table IH]; simpl; [done|].
  destruct (Z.eqb_spec k c) as [->|]; [intros [= ->]; by left|]. intros H. right. by apply IH.
Qed.

Lemma escape_of_none table c : escape_of table c = None -> ~ In c (fst <$> table).
Proof.
  induction table as [|[k e] table IH]; simpl; [tauto|].
  destruct (Z.eqb_spec k c) as [->|]; [done|]. intros H [|]; [done|]. by apply IH.
Qed.

Lemma escape_unit_item c : is_unit c ->
  exists i, escape_unit c = Ret (item_text i) /\ item_ok i /\ item_units i = [c].
Proof.
  intros Hc. unfold is_unit in Hc. unfold escape_unit.
  destruct (escape_of ESCAPE_SEQUENCES c) as [e|] eqn:He.
  - apply escape_of_in in He. assert (Hs : exists l, e = item_text (Simple l c) /\ item_ok (Simple l c)).
    { simpl in He. repeat (destruct He as [[= <- <-]|He]; [eexists; split; [reflexivity|done]|]). done. }
    destruct Hs as (l & -> & Hok). by exists (Simple l c).
  - apply escape_of_none in He. simpl in He. destruct (isPrintable c) eqn:Hp.
    + exists (Lit c). split; [done|]. split; [|done]. unfold isPrintable in Hp.
      cbn [item_ok]. unfold json_unit, is_EOL.
      rewrite orb_true_iff, andb_true_iff, orb_false_iff, !Z.leb_le, !Z.eqb_eq, !Z.eqb_neq.
      assert (32 <= c <= 126 \/ 161 <= c) by (clear He; bool_to_prop; lia). lia.
    + destruct (encodeHex_item c) as (i & Hi & Hok & Hu); [lia|].
      exists i. by rewrite Hu, charFromCodepoint_unit.
Qed.

Lemma escapeString_cons2 c n s :
  escapeString (c :: n :: s) =
  if is_high_surrogate c && is_low_surrogate n then
    e ← encodeHex ((c - 55296) * 1024 + n - 56320 + 65536); r ← escapeString s; Ret (e ++ r)
  else e ← escape_unit c; r ← escapeString (n :: s); Ret (e ++ r).
Proof. reflexivity. Qed.

Lemma escapeString_items s : Forall is_unit s ->
  exists items, escapeString s = Ret (concat (item_text <$> items))
    /\ Forall item_ok items /\ concat (item_units <$> items) = s.
Proof.
  induction s as [s IH] using (induction_ltof1 _ (@length Z)); unfold ltof in IH. intros Hs.
  destruct s as [|c [|n s]]; [by exists []|..]; apply Forall_cons in Hs as [Hc Hs].
  - destruct (escape_unit_item c Hc) as (i & Hi & Hok & Hu). exists [i]. simpl.
    by rewrite Hi, Hu, app_nil_r, Forall_singleton.
  - rewrite escapeString_cons2. destruct (is_high_surrogate c && is_low_surrogate n) eqn:Hpair.
    + apply andb_true_iff in Hpair as [Hh Hl]. pose proof (charFromCodepoint_pair c n Hh Hl) as Hcp.
      unfold is_high_surrogate, is_low_surrogate in *. rewrite andb_true_iff, !Z.leb_le in *.
      destruct (encodeHex_item ((c - 55296) * 1024 + n - 56320 + 65536)) as (i & Hi & Hok & Hu); [lia|].
      apply Forall_cons in Hs as [_ Hs].
      destruct (IH s ltac:(simpl; lia) Hs) as (items & Ht & Hoks & Hus).
      exists (i :: items). rewrite Hi, Ht, !fmap_cons. cbn [concat]. rewrite Hu, Hcp, Hus. auto.
    + destruct (escape_unit_item c Hc) as (i & Hi & Hok & Hu).
      destruct (IH (n :: s) ltac:(simpl; lia) Hs) as (items & Ht & Hoks & Hus).
      exists (i :: items). rewrite Hi, Ht, !fmap_cons. cbn [concat]. rewrite Hu, Hus. auto.
Qed.

Lemma items_text_length items : (length items <= length (concat (item_text <$> items)))%nat.
Proof.
  induction items as [|i items IH]; simpl; [lia|]. rewrite length_app.
  destruct i; simpl in *; unfold fmap in *; lia.
Qed.

(** ** Double-quoted scalars *)

Lemma wp_double_quoted E R ni pre s text post (Q : bool -> State -> Prop) st :
  Forall is_unit s -> escapeString s = Ret text ->
  input E = pre ++ 34 :: text ++ 34 :: post ->
  position st = strlen pre -> lineStart st <= position st ->
  Q true (set_position (position st + strlen text + 2)
            (set_result (VString s) (set_skind (Some KScalar) st))) ->
  wp (readDoubleQuotedScalar E ni) Q R st.
Proof.
  intros Hs Htext Hin Hp Hls HQ.
  destruct (escapeString_items s Hs) as (items & Ht & Hok & Hu). rewrite Htext in Ht. injection Ht as ->.
  apply wp_bind, (wp_peek_exact E R pre 34 (concat (item_text <$> items) ++ 34 :: post)); [done|done|].
  change (negb (34 =? 34)) with false. cbv iota.
  apply wp_bind, wp_modifyS, wp_bind, wp_modifyS, wp_bind, wp_modifyS, wp_bind, wp_gets.
  cbn [position set_position set_result set_skind].
  replace (position st + 1) with (strlen (pre ++ [34])) by len.
  pose proof (items_text_length items).
  eapply (wp_double_items E R _ ni items (pre ++ [34]) [] post _ []);
    [done| |by rewrite Hin, <- app_assoc|simpl; len|simpl; len|done|done|].
  - unfold fuel0. rewrite Hin, length_app. simpl. rewrite length_app. simpl. lia.
  - rewrite Hu. simpl. destruct st; simpl in *. rewrite strlen_app.
    change (strlen [34]) with 1. match_position HQ.
Qed.

(** ** Single-quoted scalars *)

Definition doubled (c : Z) : jsstr := if c =? 39 then [39; 39] else [c].

Definition single_unit (c : Z) : bool := json_unit c && negb (c =? 0) && negb (is_EOL c).

Section single.
Context (E : Env) (R : jserror -> Prop).

Lemma wp_single_units n ni s pre pend d post ce r (Q : bool -> State -> Prop) st :
  forallb single_unit s = true -> (length s < n)%nat -> d <> 39 ->
  input E = pre ++ pend ++ concat (doubled <$> s) ++ 39 :: d :: post ->
  position st = strlen pre + strlen pend -> lineStart st < position st ->
  result st = VString r -> forallb json_unit pend = true ->
  Q true (set_position (position st + strlen (concat (doubled <$> s)) + 1)
            (set_result (VString (r ++ pend ++ s)) st)) ->
  wp (single_loop E n ni (strlen pre) ce) Q R st.
Proof.
  revert n pre pend ce r st. induction s as [|c s IH];
    intros n pre pend ce r st Hs Hn Hd Hin Hp Hls Hr Hpend HQ; (destruct n as [|n]; [simpl in Hn; lia|]);
    cbn [single_loop]; apply wp_bind, wp_getS, wp_bind.
  - apply (wp_peek_exact E R (pre ++ pend) 39 (d :: post)); [by rewrite Hin, <- app_assoc|len|]. simpl.
    apply wp_bind, (wp_capture_exact E R pre pend (39 :: d :: post) _ _ _ r); [done|done|done|done|done|].
    apply wp_bind, (wp_advance_exact E R (pre ++ pend) 39 d post);
      [by rewrite Hin, <- app_assoc|simpl; len|].
    rewrite (proj2 (Z.eqb_neq d 39) Hd). apply wp_ret. simpl in *.
    rewrite app_nil_r, Z.add_0_r in HQ. exact HQ.
  - cbn [forallb] in Hs. apply andb_true_iff in Hs as [Hc Hs].
    rewrite !fmap_cons in *. cbn [concat length] in *. rewrite <- app_assoc in Hin.
    set (body := concat (doubled <$> s)) in *. unfold doubled in Hin, HQ.
    destruct (Z.eqb_spec c 39) as [->|Hneq].
    + apply (wp_peek_exact E R (pre ++ pend) 39 (39 :: body ++ 39 :: d :: post));
        [by rewrite Hin, <- app_assoc|len|]. simpl.
      apply wp_bind, (wp_capture_exact E R pre pend (39 :: 39 :: body ++ 39 :: d :: post) _ _ _ r);
        [done|done|done|done|done|].
      apply wp_bind, (wp_advance_exact E R (pre ++ pend) 39 39 (body ++ 39 :: d :: post));
        [by rewrite Hin, <- app_assoc|simpl; len|]. simpl.
      apply wp_bind, wp_gets, wp_bind, wp_modifyS. simpl.
      replace (position st + 1) with (strlen (pre ++ pend ++ [39])) by len.
      apply (IH n (pre ++ pend ++ [39]) [39] _ (r ++ pend));
        [done|lia|done|by rewrite Hin, <- !app_assoc|simpl; len|simpl; len|done|done|].
      fold body. destruct st; simpl in *. rewrite !strlen_cons in HQ.
      rewrite <- app_assoc. simpl. rewrite !strlen_app. change (strlen [39]) with 1. match_position HQ.
    + assert (Hcs := Hc). unfold single_unit in Hcs. rewrite !andb_true_iff, !negb_true_iff in Hcs.
      destruct Hcs as [[Hj H0] Heol].
      apply (wp_peek_exact E R (pre ++ pend) c (body ++ 39 :: d :: post));
        [by rewrite Hin, <- app_assoc|len|].
      rewrite H0, (proj2 (Z.eqb_neq c 39) Hneq), Heol.
      apply wp_bind, wp_no_separator; [done|]. apply wp_bind, wp_modifyS, wp_bind, wp_gets.
      apply (IH n pre (pend ++ [c]) _ r);
        [done|lia|done|by rewrite Hin, <- app_assoc|simpl; len|simpl; lia|done| |].
      * rewrite forallb_app, Hpend. simpl. by rewrite Hj.
      * fold body. destruct st; simpl in *. rewrite strlen_cons in HQ. rewrite <- app_assoc.
        match_position HQ.
Qed.
End single.

Lemma doubled_length s : (length s <= length (concat (doubled <$> s)))%nat.
Proof.
  induction s as [|c s IH]; [done|]. rewrite fmap_cons. cbn [concat length]. rewrite length_app.
  unfold doubled at 1. destruct (c =? 39); simpl; lia.
Qed.

Lemma wp_single_quoted E R ni pre s d post (Q : bool -> State -> Prop) st :
  forallb single_unit s = true -> d <> 39 ->
  input E = pre ++ quote_single s ++ d :: post ->
  position st = strlen pre -> lineStart st <= position st ->
  Q true (set_position (position st + strlen (quote_single s))
            (set_result (VString s) (set_skind (Some KScalar) st))) ->
  wp (readSingleQuotedScalar E ni) Q R st.
Proof.
  intros Hs Hd Hin Hp Hls HQ. pose proof (doubled_length s) as Hlen.
  change (quote_single s) with ([39] ++ concat (doubled <$> s) ++ [39]) in *.
  rewrite <- !app_assoc in Hin. cbn [app] in Hin.
  apply wp_bind, (wp_peek_exact E R pre 39 (concat (doubled <$> s) ++ 39 :: d :: post)); [done|done|].
  change (negb (39 =? 39)) with false. cbv iota.
  apply wp_bind, wp_modifyS, wp_bind, wp_modifyS, wp_bind, wp_modifyS, wp_bind, wp_gets.
  cbn [position set_position set_result set_skind].
  replace (position st + 1) with (strlen (pre ++ [39])) by len.
  eapply (wp_single_units E R _ ni s (pre ++ [39]) [] d post _ []);
    [done| |done|by rewrite Hin, <- app_assoc|simpl; len|simpl; len|done|done|].
  - unfold fuel0. rewrite Hin, length_app. simpl. rewrite length_app. simpl. lia.
  - destruct st; simpl in *. rewrite !strlen_app in *. change (strlen [39]) with 1 in *.
    rewrite strlen_cons, strlen_app in HQ. change (strlen [39]) with 1 in *. match_position HQ.
Qed.
