(* ===== verification/YamlRoundTrip.v ===== *)
(** * js-yaml: a string survives a dump and a load

    [safeDump] writes a string on one line as a plain, a single-quoted or a
    double-quoted scalar; [safeLoad] reads the text back as a root node.  The
    loader first looks for a block sequence and a block mapping, and finds the
    scalar as a key that no colon follows. *)

From S2P Require Import JsPrelude JsInt32 JsNumber JsDigits JsValue JsRegExp YamlCommon YamlTypes.
From S2P Require Import YamlSchema YamlLoader YamlDumper YamlQuoted.

(** A text that starts with the marker of the end of a document. *)
Definition is_document_end (s : jsstr) : bool :=
  jseqb (slice s 0 3) (js "...") && ((strlen s =? 3) || isWhitespace (charCodeAt s 3)).

(** Units that start neither an indicator nor a comment nor white space. *)
Definition scalar_start (c : Z) : bool :=
  negb (existsb (Z.eqb c) [0; 9; 10; 13; 32; 33; 35; 37; 38; 42; 45; 58; 62; 63; 91; 123; 124]).

(** ** The root of the input *)

Section root.
Context (E : Env) (T : jsstr).
Context (Hin : input E = T ++ [10; 0]) (Hlen : slength E = strlen T + 1).

Abbreviation R := (fun _ : jserror => False).

Lemma wp_skip_none p ch (Q : Z -> State -> Prop) s :
  p ch = false -> Q ch s -> wp (skip_while E p ch) Q R s.
Proof. intros Hp HQ. unfold skip_while, fuel0. cbn [skip_loop]. rewrite Hp. by apply wp_ret. Qed.

(** Nothing is skipped before a unit that is not white space. *)
Lemma wp_separation_none c allow (Q : Z -> State -> Prop) s :
  charCodeAt (input E) (position s) = c -> is_WHITE_SPACE c = false -> is_EOL c = false ->
  c <> 35 -> Q 0 s -> wp (skipSeparationSpace E allow (-1)) Q R s.
Proof.
  intros Hc Hw He Hne HQ. apply wp_bind, wp_gets. rewrite Z.add_0_r, Hc. apply wp_bind.
  assert (Hend : wp (gets lineIndent ≫= fun li =>
     (if negb (-1 =? -1) && negb (0 =? 0) && (li <? -1)
      then throwWarning E (js "deficient indentation") else mret tt) ≫= fun _ => mret 0) Q R s).
  { apply wp_bind, wp_gets. simpl. apply wp_bind, wp_ret, wp_ret. done. }
  unfold fuel0. cbn [separation_loop]. destruct (c =? 0); [by apply wp_ret|].
  apply wp_bind, wp_skip_none; [done|]. rewrite (proj2 (Z.eqb_neq c 35) Hne), andb_false_r.
  apply wp_bind, wp_ret. rewrite He. by apply wp_ret.
Qed.

(** The state after the final line break. *)
Definition after_break (s : State) : State :=
  set_lineIndent 0 (set_lineStart (strlen T + 1)
    (set_line (line s + 1) (set_position (strlen T + 1) s))).

Lemma input_at_break : charCodeAt (input E) (strlen T) = 10.
Proof. rewrite Hin. by apply charCodeAt_mid. Qed.

Lemma input_at_end : charCodeAt (input E) (strlen T + 1) = 0.
Proof.
  rewrite Hin. change (T ++ [10; 0]) with (T ++ [10] ++ [0]). rewrite app_assoc.
  apply charCodeAt_mid. by rewrite strlen_app.
Qed.

Lemma wp_separation_break allow (Q : Z -> State -> Prop) s :
  position s = strlen T -> Q 1 (after_break s) -> wp (skipSeparationSpace E allow (-1)) Q R s.
Proof.
  intros Hp HQ. apply wp_bind, wp_gets. rewrite Z.add_0_r, Hp, input_at_break. apply wp_bind.
  assert (Hend : wp (gets lineIndent ≫= fun li =>
     (if negb (-1 =? -1) && negb (1 =? 0) && (li <? -1)
      then throwWarning E (js "deficient indentation") else mret tt) ≫= fun _ => mret 1) Q R
     (after_break s)).
  { apply wp_bind, wp_gets. simpl. apply wp_bind, wp_ret, wp_ret. done. }
  unfold fuel0 at 1. destruct (length (input E)) as [|n] eqn:Hn.
  { rewrite Hin, length_app in Hn. simpl in Hn. lia. }
  cbn [separation_loop]. change (10 =? 0) with false. cbv iota.
  apply wp_bind, wp_skip_none; [done|]. change (10 =? 35) with false. rewrite andb_false_r.
  apply wp_bind, wp_ret. change (is_EOL 10) with true. cbv iota.
  apply wp_bind, wp_bind, wp_gets. rewrite Z.add_0_r, Hp, input_at_break. simpl.
  apply wp_bind, wp_modifyS, wp_bind, wp_modifyS, wp_modifyS, wp_bind, wp_gets. simpl.
  rewrite Z.add_0_r, Hp, input_at_end. apply wp_bind, wp_modifyS, wp_bind.
  unfold fuel0. cbn [indent_loop]. simpl. apply wp_ret, wp_ret. exact Hend.
Qed.

(** ** The root node *)

(** A scalar has been read: up to the end of the text, or over the line break. *)
Record scalar_read (v : value) (s s' : State) : Prop := {
  sr_result : result s' = v;
  sr_anchor : anchor s' = None;
  sr_documents : documents s' = documents s;
  sr_indent : lineIndent s' = 0;
  sr_place : position s' = strlen T /\ line s' = line s
             \/ position s' = strlen T + 1 /\ line s' = line s + 1 /\ lineStart s' = strlen T + 1
}.

(** Before the root node. *)
Record at_start (s : State) : Prop := {
  as_position : position s = 0;
  as_lineStart : lineStart s = 0;
  as_indent : lineIndent s = 0
}.

Context (c : Z) (T' : jsstr) (HT : T = c :: T') (Hc : scalar_start c = true).

Lemma start_neq k :
  existsb (Z.eqb k) [0; 9; 10; 13; 32; 33; 35; 37; 38; 42; 45; 58; 62; 63; 91; 123; 124] = true ->
  (c =? k) = false.
Proof.
  clear - Hc. intros Hk. apply Z.eqb_neq. intros ->. unfold scalar_start in Hc. rewrite Hk in Hc. done.
Qed.

Lemma input_at_start : charCodeAt (input E) 0 = c.
Proof. rewrite Hin, HT. done. Qed.

Lemma wp_peek_start (Q : Z -> State -> Prop) s :
  position s = 0 -> Q c s -> wp (peek E) Q R s.
Proof. intros Hp HQ. apply wp_gets. by rewrite Hp, Z.add_0_r, input_at_start. Qed.

Lemma wp_no_properties n pi allow st (Q : Z * bool * bool -> State -> Prop) s :
  position s = 0 -> Q st s -> wp (property_loop E (S n) pi allow st) Q R s.
Proof.
  intros Hp HQ. cbn [property_loop]. apply wp_bind, wp_bind, wp_peek_start; [done|].
  rewrite (start_neq 33) by done. apply wp_ret, wp_bind, wp_bind, wp_peek_start; [done|].
  rewrite (start_neq 38) by done. by apply wp_ret, wp_ret.
Qed.

Lemma wp_no_flow compose fi (Q : bool -> State -> Prop) s :
  position s = 0 -> Q false s -> wp (readFlowCollection E compose fi) Q R s.
Proof.
  intros Hp HQ. apply wp_bind, wp_gets, wp_bind, wp_gets, wp_bind, wp_peek_start; [done|].
  rewrite (start_neq 91), (start_neq 123) by done. by apply wp_ret.
Qed.

Lemma wp_no_anchor v (Q : unit -> State -> Prop) s :
  anchor s = None -> Q tt s -> wp (record_anchor v) Q R s.
Proof. intros Ha HQ. apply wp_bind, wp_gets. rewrite Ha. by apply wp_ret. Qed.

Lemma wp_no_sequence compose bi (Q : bool -> State -> Prop) s :
  position s = 0 -> anchor s = None ->
  Q false (set_sheap (sheap s ++ [OArray []]) s) -> wp (readBlockSequence E compose bi) Q R s.
Proof.
  intros Hp Ha HQ. apply wp_bind, wp_gets, wp_bind, wp_gets, wp_bind, wp_bind, wp_gets.
  apply wp_bind, wp_modifyS, wp_ret. apply wp_bind, wp_no_anchor; [done|].
  apply wp_bind, wp_peek_start; [done|]. apply wp_bind. unfold fuel0. cbn [sequence_loop].
  rewrite (start_neq 0), (start_neq 45) by done. by apply wp_ret, wp_ret.
Qed.

Lemma wp_notify_frame ev (Q : unit -> State -> Prop) s :
  (forall es, Q tt (set_events es s)) -> wp (notify E ev) Q R s.
Proof.
  intros HQ. apply wp_modifyS. destruct (listener E); [apply HQ|].
  specialize (HQ (events s)). by destruct s.
Qed.

(** What the scanner of the scalar promises. *)
Context (v : value).
Context (Hread : forall s, at_start s -> stag s = None -> anchor s = None ->
  wp (read_scalar E CONTEXT_FLOW_OUT 0 false)
     (fun b s' => b = true /\ scalar_read v s s' /\ wp (resolve_node E) (fun _ s'' => s'' = s') R s') R s).

Lemma wp_close b (Q : bool -> State -> Prop) s :
  anchor s = None -> b = true -> wp (resolve_node E) (fun _ s' => s' = s) R s ->
  (forall es, Q true (set_events es s)) -> wp (close_node E b) Q R s.
Proof.
  intros Ha -> Hres HQ. apply wp_bind. eapply wp_mono_post; [exact Hres|]. intros _ ? ->.
  apply wp_bind, wp_notify_frame. intros es. apply wp_bind, wp_getS, wp_ret. rewrite orb_true_r. apply HQ.
Qed.

Lemma wp_key_node n s : at_start s ->
  wp (composeNode E (S n) 0 CONTEXT_FLOW_OUT false true)
     (fun b s' => b = true /\ scalar_read v s s') R s.
Proof.
  intros [Hp Hls Hli]. cbn [composeNode]. apply wp_bind, wp_notify_frame. intros es.
  apply wp_bind, wp_modifyS, wp_bind, wp_ret, wp_bind. unfold node_properties.
  change ((1, false).1 =? 1) with true. cbv iota. apply wp_no_properties; [done|].
  apply wp_bind. unfold node_content. simpl. unfold read_content.
  apply wp_bind, wp_gets. simpl. apply wp_bind, wp_bind, wp_ret, wp_no_flow; [done|].
  eapply wp_mono_post; [apply Hread; done|]. intros b s' (-> & Hsr & Hres).
  apply wp_close; [apply Hsr|done|done|]. intros es'. split; [done|].
  destruct Hsr; by split.
Qed.

Lemma wp_key_is_root n l bi s : at_start s ->
  wp (mapping_loop E (composeNode E (S n)) (fuel0 E) bi 0 l None None
        (mkVars empty_object None VNull VNull false false) c)
     (fun r s' => r = None /\ scalar_read v s s' /\ stag s' = None) R s.
Proof.
  intros Hs. assert (Hs' := Hs). destruct Hs' as [Hp Hls Hli].
  unfold fuel0. cbn [mapping_loop]. rewrite (start_neq 0) by done.
  apply wp_bind, wp_gets, wp_bind, wp_gets, wp_bind, wp_gets, wp_bind.
  rewrite (start_neq 63), (start_neq 58) by done. cbn [orb andb].
  apply wp_bind. eapply wp_mono_post; [by apply wp_key_node|]. intros b s' (-> & Hsr).
  apply wp_bind, wp_gets. destruct (line s' =? line s) eqn:Hl.
  - destruct (sr_place _ _ _ Hsr) as [[Hp' _]|(_ & Hl' & _)]; [|rewrite Hl' in Hl; lia].
    apply wp_bind, wp_gets. rewrite Z.add_0_r, Hp', input_at_break.
    apply wp_bind, wp_skip_none; [done|]. simpl. apply wp_bind, wp_modifyS, wp_ret, wp_ret.
    destruct Hsr. by repeat split.
  - simpl. apply wp_bind, wp_modifyS, wp_ret, wp_ret. destruct Hsr. by repeat split.
Qed.

Lemma wp_root_node n s : at_start s ->
  wp (composeNode E (S (S n)) (-1) CONTEXT_BLOCK_OUT false true)
     (fun b s' => b = true /\ scalar_read v s s') R s.
Proof.
  intros [Hp Hls Hli].
  change (composeNode E (S (S n))) with (composeNode_body E (composeNode E (S n))).
  remember (composeNode E (S n)) as key eqn:Hkey. apply wp_bind, wp_notify_frame. intros es.
  apply wp_bind, wp_modifyS, wp_bind, wp_ret, wp_bind. unfold node_properties.
  change ((1, false).1 =? 1) with true. cbv iota. apply wp_no_properties; [done|].
  apply wp_bind. unfold node_content. simpl. unfold read_content.
  apply wp_bind, wp_gets. simpl. apply wp_bind, wp_bind, wp_bind, wp_no_sequence; [done|done|].
  apply wp_bind, wp_gets, wp_bind, wp_gets, wp_bind, wp_bind, wp_gets, wp_bind, wp_modifyS, wp_ret.
  apply wp_bind, wp_no_anchor; [done|]. apply wp_bind, wp_peek_start; [done|]. apply wp_bind.
  rewrite Hkey. eapply wp_mono_post; [apply wp_key_is_root; by split|].
  intros r s' (-> & Hsr & Htag). apply wp_ret, wp_ret, wp_ret.
  apply wp_close; [apply Hsr|done| |].
  - apply wp_bind, wp_gets. rewrite Htag. by apply wp_ret.
  - intros es'. split; [done|]. destruct Hsr. by split.
Qed.

(** ** The document *)

Record at_end (ds : list value) (s : State) : Prop := {
  ae_position : position s = strlen T + 1;
  ae_documents : documents s = ds
}.

Lemma wp_after_root s0 (Q : Z -> State -> Prop) s :
  scalar_read v s0 s ->
  (forall n s', at_end (documents s0) s' -> result s' = v -> Q n s') ->
  wp (skipSeparationSpace E true (-1)) Q R s.
Proof.
  intros [Hr Ha Hd Hi [[Hp Hl]|(Hp & Hl & Hls)]] HQ.
  - apply wp_separation_break; [done|]. by apply HQ.
  - apply (wp_separation_none 0); [by rewrite Hp, input_at_end|done|done|done|]. by apply HQ.
Qed.

Lemma wp_root_document_node n d s : at_start s ->
  wp (document_node E (S (S n)) d) (fun _ s' => at_end (documents s ++ [v]) s') R s.
Proof.
  intros Hs. unfold document_node. apply wp_bind, wp_gets. rewrite (as_indent s Hs).
  apply wp_bind. eapply wp_mono_post; [by apply wp_root_node|]. intros b s1 (_ & Hsr).
  apply wp_bind. eapply wp_after_root; [exact Hsr|]. intros k s2 [Hp Hd] Hres.
  apply wp_bind, wp_getS, wp_bind.
  destruct (checkLineBreaks s2 && _); [apply wp_modifyS|apply wp_ret]; apply wp_modifyS.
  - destruct (onWarning E); split; simpl; congruence.
  - split; simpl; congruence.
Qed.

Lemma wp_root_document_end ds s : at_end ds s ->
  wp (document_end E) (fun _ s' => at_end ds s') R s.
Proof.
  intros Hs. assert (Hs' := Hs). destruct Hs' as [Hp Hd]. unfold document_end. apply wp_bind.
  assert (Hend : wp (gets position ≫= fun p => if p <? slength E - 1 then
      throwError E (js "end of the stream or a document separator is expected") else mret tt)
      (fun _ s' => at_end ds s') R s).
  { apply wp_bind, wp_gets. rewrite Hp, Hlen. destruct (Z.ltb_spec (strlen T + 1) (strlen T + 1 - 1)); [lia|].
    by apply wp_ret. }
  apply wp_bind, wp_getS. destruct (position s =? lineStart s); [|by apply wp_ret].
  apply wp_bind, wp_gets. rewrite Z.add_0_r, Hp, input_at_end.
  apply wp_bind, wp_gets, wp_bind, wp_gets, wp_bind, wp_gets, wp_ret. exact Hend.
Qed.

Lemma wp_read_document n s : at_start s ->
  wp (readDocument E (S (S n))) (fun _ s' => at_end (documents s ++ [v]) s') R s.
Proof.
  intros [Hp Hls Hli]. unfold readDocument. apply wp_bind, wp_gets, wp_bind, wp_modifyS, wp_bind.
  assert (Hsep : forall (Q : Z -> State -> Prop) s', position s' = 0 -> Q 0 s' ->
    wp (skipSeparationSpace E true (-1)) Q R s').
  { intros Q s' Hp' HQ. apply (wp_separation_none c); [by rewrite Hp', input_at_start| | | |done].
    - unfold is_WHITE_SPACE. by rewrite (start_neq 9), (start_neq 32).
    - unfold is_EOL. by rewrite (start_neq 10), (start_neq 13).
    - apply Z.eqb_neq. by apply start_neq. }
  unfold fuel0. cbn [directives_loop]. apply wp_bind, wp_peek_start; [done|].
  rewrite (start_neq 0) by done. apply wp_bind, Hsep; [done|]. apply wp_bind, wp_peek_start; [done|].
  apply wp_bind, wp_gets. rewrite (start_neq 37), orb_true_r by done. apply wp_ret.
  apply wp_bind, Hsep; [done|]. apply wp_bind, wp_bind, wp_gets, wp_bind, wp_peek_start; [done|].
  apply wp_bind, wp_gets, wp_bind, wp_gets. rewrite (start_neq 45), andb_false_r by done.
  apply wp_ret, wp_bind. eapply wp_mono_post; [apply wp_root_document_node; by split|].
  intros ? s1 Hs1. eapply wp_mono_post; [apply wp_root_document_end; exact Hs1|]. done.
Qed.

Lemma wp_read_root n s : at_start s ->
  wp (read_documents E (S (S n))) (fun _ s' => documents s' = documents s ++ [v]) R s.
Proof.
  intros Hs. unfold read_documents. apply wp_bind, wp_peek_start; [apply Hs|]. apply wp_bind.
  unfold fuel0 at 1. cbn [indent_loop]. rewrite (start_neq 32) by done. apply wp_ret.
  unfold fuel0. destruct (length (input E)) as [|k] eqn:Hk; [rewrite Hin, length_app in Hk; simpl in Hk; lia|].
  remember (S k) as k1 eqn:Hk1. cbn [documents_loop]. apply wp_bind, wp_gets.
  rewrite (as_position s Hs), Hlen. pose proof (strlen_nonneg T').
  destruct (Z.ltb_spec 0 (strlen T + 1 - 1)) as [_|]; [|rewrite HT, strlen_cons in *; lia].
  apply wp_bind. eapply wp_mono_post; [by apply wp_read_document|]. intros _ s1 [Hp1 Hd1]. subst k1.
  cbn [documents_loop]. apply wp_bind, wp_gets. rewrite Hp1, Hlen.
  destruct (Z.ltb_spec (strlen T + 1) (strlen T + 1 - 1)); [lia|]. by apply wp_ret.
Qed.
End root.

(** ** The three styles on one line *)

Section styles.
Context (E : Env).
Abbreviation R := (fun _ : jserror => False).

(** The promise of a scanner, as [wp_read_root] asks for it. *)
Definition reads (T : jsstr) (v : value) : Prop :=
  forall s, at_start s -> stag s = None -> anchor s = None ->
  wp (read_scalar E CONTEXT_FLOW_OUT 0 false)
     (fun b s' => b = true /\ scalar_read T v s s'
                  /\ wp (resolve_node E) (fun _ s'' => s'' = s') R s') R s.

Lemma wp_untagged s : stag s = None -> wp (resolve_node E) (fun _ s' => s' = s) R s.
Proof. intros Ht. apply wp_bind, wp_gets. rewrite Ht. by apply wp_ret. Qed.

Lemma reads_single s :
  forallb single_unit s = true -> input E = quote_single s ++ [10; 0] ->
  reads (quote_single s) (VString s).
Proof.
  intros Hs Hin st [Hp Hls Hli] Ht Ha. unfold read_scalar.
  apply wp_bind, wp_bind, wp_bind, wp_ret, wp_bind.
  apply (wp_single_quoted E _ 0 [] s 10 [0]); [done|done|done|done|lia|].
  apply wp_ret, wp_ret, wp_bind, wp_gets, wp_bind, wp_no_anchor; [done|]. apply wp_ret.
  split; [done|]. split; [|by apply wp_untagged].
  split; simpl; [done|done|done|done|]. rewrite Hp. auto.
Qed.

Lemma reads_double s text :
  Forall is_unit s -> escapeString s = Ret text -> input E = [34] ++ text ++ [34; 10; 0] ->
  reads ([34] ++ text ++ [34]) (VString s).
Proof.
  intros Hs Htext Hin st [Hp Hls Hli] Ht Ha. unfold read_scalar.
  apply wp_bind, wp_bind, wp_bind, wp_ret, wp_bind.
  assert (Hpk : forall (Q : Z -> State -> Prop), Q 34 st -> wp (peek E) Q R st).
  { intros Q HQ. apply wp_gets. by rewrite Hp, Z.add_0_r, Hin. }
  apply wp_bind, Hpk. change (negb (34 =? 39)) with true. cbv iota. apply wp_ret.
  apply (wp_double_quoted E _ 0 [] s text [10; 0]); [done|done|done|done|lia|].
  apply wp_ret, wp_bind, wp_gets, wp_bind, wp_no_anchor; [done|]. apply wp_ret.
  split; [done|]. split; [|by apply wp_untagged].
  split; simpl; [done|done|done|done|]. left. rewrite strlen_cons, strlen_app, Hp.
  change (strlen [34]) with 1. lia.
Qed.

(** A plain scalar is scanned unit by unit up to the line break. *)
Definition plain_unit (c : Z) : bool := negb (existsb (Z.eqb c) [0; 10; 13; 35; 58]).

Lemma wp_plain_consume c (Q : plain_step -> State -> Prop) ce s :
  plain_unit c = true ->
  wp (at_document_separator E) (fun b s' => b = false /\ s' = s) R s ->
  Q PConsume s -> wp (plain_test E 0 false ce c) Q R s.
Proof.
  intros Hc Hsep HQ. unfold plain_unit in Hc. rewrite negb_true_iff in Hc. simpl in Hc.
  rewrite !orb_false_iff in Hc. destruct Hc as (H0 & H10 & H13 & H35 & H58 & _).
  unfold plain_test. rewrite H58, H35. apply wp_bind, wp_getS, wp_bind.
  eapply wp_mono_post; [exact Hsep|]. intros ? ? [-> ->]. simpl. unfold is_EOL.
  rewrite H10, H13. by apply wp_ret.
Qed.

Lemma wp_plain_break T ce (Q : plain_step -> State -> Prop) s :
  input E = T ++ [10; 0] -> position s = strlen T -> lineStart s < position s ->
  Q (PContinue (line s)) (after_break T s) -> wp (plain_test E 0 false ce 10) Q R s.
Proof.
  intros Hin Hp Hls HQ. apply wp_bind, wp_getS, wp_bind, wp_no_separator; [done|]. simpl.
  apply wp_bind, (wp_separation_break E T); [done|done|]. by apply wp_bind, wp_gets.
Qed.

Lemma wp_plain_units n rest pre ce (Q : Z * Z -> State -> Prop) s :
  input E = (pre ++ rest) ++ [10; 0] -> position s = strlen pre ->
  forallb plain_unit rest = true -> (S (length rest) < n)%nat ->
  lineStart s = 0 ->
  (pre = [] -> rest <> []
               /\ wp (at_document_separator E) (fun b s' => b = false /\ s' = s) R s) ->
  (rest = [] -> ce = strlen pre) ->
  (forall c, last rest = Some c -> is_WHITE_SPACE c = false) ->
  Q (0, strlen (pre ++ rest)) (after_break (pre ++ rest) s) ->
  wp (plain_loop E n 0 false 0 ce false 0 (charCodeAt (input E) (position s))) Q R s.
Proof.
  revert n pre ce s. induction rest as [|c rest IH];
    intros n pre ce s Hin Hp Hrest Hn Hls Hfirst Hce Hlast HQ;
    (destruct n as [|n]; [lia|]).
  - rewrite app_nil_r in *. specialize (Hce eq_refl). subst ce.
    assert (Hpre : pre <> []) by (intros ->; by destruct Hfirst).
    assert (0 < strlen pre) by (destruct pre; [done|rewrite strlen_cons; pose proof (strlen_nonneg pre); lia]).
    rewrite Hp, (input_at_break E pre Hin). cbn [plain_loop]. change (10 =? 0) with false. cbv iota.
    apply wp_bind, (wp_plain_break pre); [done|done|lia|].
    apply wp_bind, wp_gets. rewrite Z.add_0_r. cbn [position after_break set_lineIndent set_lineStart set_line set_position].
    rewrite (input_at_end E pre Hin). destruct n as [|n]; [simpl in Hn; lia|].
    cbn [plain_loop]. by apply wp_ret.
  - cbn [forallb] in Hrest. apply andb_true_iff in Hrest as [Hc Hrest].
    assert (Hch : charCodeAt (input E) (position s) = c).
    { rewrite Hin, <- app_assoc. by apply charCodeAt_mid. }
    rewrite Hch. cbn [plain_loop].
    assert (Hc0 : (c =? 0) = false).
    { unfold plain_unit in Hc. apply negb_true_iff in Hc. simpl in Hc. by apply orb_false_iff in Hc as [? _]. }
    rewrite Hc0. apply wp_bind, wp_plain_consume; [done| |].
    { destruct pre as [|x pre]; [by apply Hfirst|]. apply wp_no_separator; [|done].
      rewrite Hls, Hp, strlen_cons. pose proof (strlen_nonneg pre). lia. }
    apply wp_bind, wp_ret, wp_bind, wp_gets, wp_bind, wp_bind, wp_modifyS, wp_gets. simpl. rewrite Z.add_0_r.
    apply (IH n (pre ++ [c]) _ (set_position (position s + 1) s));
      [by rewrite Hin, <- !app_assoc|simpl; len|done|simpl in Hn; lia|done|by destruct pre| |
       |rewrite <- app_assoc; exact HQ].
    + intros ->. rewrite (Hlast c eq_refl). len.
    + intros d Hd. apply Hlast. destruct rest; [done|exact Hd].
Qed.

Lemma dots_test a b d : a <> 45 ->
  ((a =? 45) || (a =? 46)) && (a =? b) && (a =? d) = false
  \/ ((a =? 45) || (a =? 46)) && (a =? b) && (a =? d) = true /\ jseqb [a; b; d] (js "...") = true.
Proof.
  intros Ha. destruct (Z.eqb_spec a 45), (Z.eqb_spec a 46), (Z.eqb_spec a b), (Z.eqb_spec a d);
    subst; simpl; auto; done.
Qed.

(** The marker test at the start of the text. *)
Lemma wp_no_marker T (Q : bool -> State -> Prop) s :
  input E = T ++ [10; 0] -> at_start s -> forallb plain_unit T = true ->
  charCodeAt T 0 <> 45 -> is_document_end T = false ->
  Q false s -> wp (at_document_separator E) Q R s.
Proof.
  intros Hin [Hp Hls Hli] HT H45 Hend HQ. apply wp_bind, wp_getS. rewrite Hp, Hls. simpl.
  apply wp_bind, wp_gets, wp_bind, wp_gets, wp_bind, wp_gets, wp_bind, wp_gets, wp_ret.
  rewrite Hp, Hin. match goal with |- Q ?b s => replace b with false; [done|] end. symmetry.
  unfold is_document_end in Hend.
  destruct T as [|a [|b [|d [|e T]]]]; [done|..];
    cbn [app] in *; unfold charCodeAt in *; simpl in *.
  - destruct (Z.eqb_spec a 45), (Z.eqb_spec a 46); simpl; try done; lia.
  - destruct (Z.eqb_spec a 45), (Z.eqb_spec a 46); simpl; try done; lia.
  - destruct (dots_test a b d H45) as [->|[-> Hj]]; [done|].
    change (slice [a; b; d] 0 3) with [a; b; d] in Hend. by rewrite Hj in Hend.
  - destruct (dots_test a b d H45) as [->|[-> Hj]]; [done|].
    change (slice (a :: b :: d :: e :: T) 0 3) with [a; b; d] in Hend.
    rewrite Hj in Hend. apply orb_false_iff in Hend as [_ Hw].
    rewrite !andb_true_iff in HT. destruct HT as (_ & _ & _ & He & _).
    unfold plain_unit in He. apply negb_true_iff in He. simpl in He.
    rewrite !orb_false_iff in He. destruct He as (H0 & H10 & H13 & _).
    unfold isWhitespace in Hw. apply orb_false_iff in Hw as [H32 H9].
    unfold is_WS_OR_EOL. by rewrite H0, H9, H32, H10, H13.
Qed.

Lemma printable_not_control c :
  isPrintable c = true -> control_unit c = false /\ (is_unit c -> is_high c = false /\ is_low c = false).
Proof.
  unfold isPrintable, control_unit, is_high, is_low, in_range, is_unit. intros H.
  assert (32 <= c <= 126 \/ 161 <= c <= 55295 \/ 57344 <= c <= 65533 \/ 65536 <= c)
    by (rewrite !orb_true_iff, !andb_true_iff, !Z.leb_le in H; lia).
  split; [|intros; split]; repeat (apply orb_false_iff; split); try apply andb_false_iff;
    rewrite ?Z.leb_gt, ?Z.eqb_neq; lia.
Qed.

Lemma printable_test s : Forall is_unit s -> forallb isPrintable s = true ->
  PATTERN_NON_PRINTABLE_test s = false.
Proof.
  intros Hu Hs. unfold PATTERN_NON_PRINTABLE_test.
  cut (forall b, non_printable_from b s = false); [auto|].
  induction s as [|c s IH]; [done|]. intros b. apply Forall_cons in Hu as [Hc Hu]. cbn [forallb] in Hs.
  apply andb_true_iff in Hs as [Hp Hs]. cbn [non_printable_from].
  destruct (printable_not_control c Hp) as [-> Hsur]. destruct (Hsur Hc) as [-> ->]. simpl. by apply IH.
Qed.

(** No implicit type claims the string. *)
Definition unresolved (types : list yaml_type) (s : jsstr) : Prop :=
  Forall (fun t => forall h, resolve t h (VString s) = Ret false) types.

Lemma wp_unresolved types r s :
  unresolved types r -> result s = VString r ->
  wp (resolve_implicit types) (fun _ s' => s' = s) R s.
Proof.
  intros Hun Hr. induction Hun as [|t types Ht _ IH]; [by apply wp_ret|].
  cbn [resolve_implicit]. apply wp_bind, wp_getS, wp_bind, wp_liftO. by rewrite Hr, Ht.
Qed.

Record plain_text (s : jsstr) : Prop := {
  pt_units : Forall is_unit s;
  pt_first : isPlainSafeFirst (charCodeAt s 0) = true;
  pt_safe : forallb isPlainSafe s = true;
  pt_last : isWhitespace (charCodeAt s (strlen s - 1)) = false
}.

Lemma plain_text_units s : forallb isPlainSafe s = true -> forallb plain_unit s = true.
Proof.
  rewrite !forallb_forall. intros H c Hc. specialize (H c Hc).
  unfold isPlainSafe, isPrintable in H. unfold plain_unit. simpl in *.
  rewrite !andb_true_iff, !negb_true_iff, !orb_false_iff, !Z.eqb_neq in *.
  rewrite !orb_true_iff, !andb_true_iff, !Z.leb_le in H. lia.
Qed.

Lemma plain_text_last s c :
  isWhitespace (charCodeAt s (strlen s - 1)) = false -> last s = Some c -> is_WHITE_SPACE c = false.
Proof.
  intros Hw Hl. apply last_Some in Hl as [s' ->]. rewrite strlen_app in Hw.
  rewrite charCodeAt_mid in Hw by (change (strlen [c]) with 1; lia).
  unfold isWhitespace in Hw. unfold is_WHITE_SPACE. by rewrite orb_comm.
Qed.

Lemma plain_first_ok c : isPlainSafeFirst c = true ->
  scalar_start c = true /\ plain_first_forbidden c = false /\ c <> 39 /\ c <> 34 /\ c <> 42.
Proof.
  unfold isPlainSafeFirst, isPrintable, isWhitespace, scalar_start, plain_first_forbidden,
    is_WS_OR_EOL, is_FLOW_INDICATOR. intros H. simpl in *.
  rewrite !andb_true_iff, !negb_true_iff, !orb_false_iff, !Z.eqb_neq in *.
  rewrite !orb_true_iff, !andb_true_iff, !Z.leb_le in H. lia.
Qed.

Lemma wp_plain_scalar s (Q : bool -> State -> Prop) st :
  plain_text s -> is_document_end s = false -> input E = s ++ [10; 0] ->
  at_start st -> anchor st = None ->
  (forall s', scalar_read s (VString s) st s' -> stag s' = stag st -> Q true s') ->
  wp (readPlainScalar E 0 false) Q R st.
Proof.
  intros [Hu Hf Hs Hl] Hend Hin Hst Ha HQ. assert (Hst' := Hst). destruct Hst' as [Hp Hls Hli].
  assert (Hne : s <> []) by (intros ->; done).
  assert (Hch : charCodeAt (input E) 0 = charCodeAt s 0) by (rewrite Hin; by destruct s).
  destruct (plain_first_ok _ Hf) as (Hstart & Hforb & _).
  unfold scalar_start in Hstart. rewrite negb_true_iff in Hstart. simpl in Hstart.
  rewrite !orb_false_iff in Hstart.
  apply wp_bind, wp_gets, wp_bind, wp_gets, wp_bind, wp_gets. rewrite Hp, Z.add_0_r, Hch, Hforb.
  apply wp_bind, wp_gets.
  replace ((charCodeAt s 0 =? 63) || (charCodeAt s 0 =? 45)) with false
    by (symmetry; apply orb_false_iff; tauto).
  apply wp_bind, wp_modifyS, wp_bind, wp_modifyS, wp_bind, wp_gets, wp_bind.
  cbn [position set_result set_skind]. rewrite Hp, <- Hch.
  set (st1 := set_result (VString []) (set_skind (Some KScalar) st)).
  replace (charCodeAt (input E) 0) with (charCodeAt (input E) (position st1)) by (simpl; by rewrite Hp).
  apply (wp_plain_units _ s []); [done|done|by apply plain_text_units| |done| |done| |].
  - unfold fuel0. rewrite Hin, length_app. simpl. lia.
  - intros _. split; [done|]. apply (wp_no_marker s); [done|by split|by apply plain_text_units| |done|done].
    apply Z.eqb_neq. tauto.
  - intros d Hd. by eapply plain_text_last.
  - apply wp_bind, (wp_capture_exact E _ [] s [10; 0] _ _ _ []);
      [done|done|by rewrite strlen_nil|done| |].
    { apply printable_test; [done|]. rewrite forallb_forall in *. intros x Hx.
      specialize (Hs x Hx). unfold isPlainSafe in Hs. by apply andb_true_iff in Hs as [? _]. }
    apply wp_bind, wp_gets. rewrite bool_decide_false by (simpl; intros [= ?]; done).
    apply wp_ret, HQ; [|done]. split; [done|done|done|done|]. right. done.
Qed.

Lemma reads_plain s :
  plain_text s -> is_document_end s = false -> unresolved (implicitTypes E) s ->
  input E = s ++ [10; 0] -> reads s (VString s).
Proof.
  intros Hpt Hend Hun Hin st Hst Ht Ha. assert (Hf := pt_first s Hpt).
  destruct (plain_first_ok _ Hf) as (_ & _ & H39 & H34 & H42).
  assert (Hpk : forall (Q : Z -> State -> Prop), Q (charCodeAt s 0) st -> wp (peek E) Q R st).
  { intros Q HQ. apply wp_gets. rewrite (as_position st Hst), Hin. by destruct s. }
  unfold read_scalar. apply wp_bind, wp_bind, wp_bind, wp_ret, wp_bind.
  apply wp_bind, Hpk. rewrite (proj2 (Z.eqb_neq _ 39) H39). apply wp_ret.
  apply wp_bind, Hpk. rewrite (proj2 (Z.eqb_neq _ 34) H34). apply wp_ret.
  apply wp_bind, wp_bind, Hpk. rewrite (proj2 (Z.eqb_neq _ 42) H42). apply wp_ret.
  apply wp_bind, (wp_plain_scalar s); [done|done|done|done|done|]. intros s' Hsr Htag.
  apply wp_bind, wp_gets. rewrite Htag, Ht. apply wp_bind. simpl. apply wp_modifyS, wp_ret.
  destruct Hsr. apply wp_bind, wp_gets, wp_bind, wp_no_anchor; [done|]. apply wp_ret.
  split; [done|]. split; [by split|]. apply wp_bind, wp_gets. simpl. by apply (wp_unresolved _ s).
Qed.
End styles.

(** ** What the dumper writes *)

(** The three forms of a scalar on one line. *)
Inductive line_form (types : list yaml_type) (s : jsstr) : jsstr -> Prop :=
| FormPlain : plain_text s -> unresolved types s -> line_form types s s
| FormSingle : forallb single_unit s = true -> line_form types s (quote_single s)
| FormDouble text : escapeString s = Ret text -> line_form types s ([34] ++ text ++ [34]).

(** A block scalar is announced by its first unit. *)
Definition block_text (t : jsstr) : bool := starts_with 124 t || starts_with 62 t.

Definition has_line_break (s : jsstr) : bool := existsb (Z.eqb 10) s.

Lemma scan_single_spec s : forall plain p, scan_single s plain = Some p ->
  forallb isPrintable s = true /\ p = plain && forallb isPlainSafe s.
Proof.
  induction s as [|c s IH]; intros plain p; cbn [scan_single forallb].
  - intros [= ->]. by rewrite andb_true_r.
  - destruct (isPrintable c); simpl; [|done]. intros H. apply IH in H as [-> ->]. by rewrite andb_assoc.
Qed.

Lemma scan_multi_spec str w s : forall i st st', scan_multi str w i s st = Some st' ->
  forallb (fun c => isPrintable c || (c =? 10)) s = true
  /\ sc_plain st' = sc_plain st && forallb isPlainSafe s
  /\ sc_hasLineBreak st' = sc_hasLineBreak st || has_line_break s
  /\ (has_line_break s = false -> sc_hasFoldableLine st' = sc_hasFoldableLine st
                                  /\ sc_previousLineBreak st' = sc_previousLineBreak st).
Proof.
  induction s as [|c s IH]; intros i st st'; cbn [scan_multi forallb has_line_break existsb].
  - intros [= ->]. by rewrite andb_true_r, orb_false_r.
  - rewrite (Z.eqb_sym 10 c). destruct (Z.eqb_spec c 10) as [->|Hc].
    + intros H. apply IH in H as (-> & -> & -> & _). destruct (w =? -1); simpl;
        rewrite <- andb_assoc, orb_true_r; done.
    + destruct (isPrintable c); simpl; [|done]. intros H. apply IH in H as (-> & -> & -> & H).
      simpl in *. rewrite <- andb_assoc. done.
Qed.

Lemma printable_single s : forallb isPrintable s = true -> forallb single_unit s = true.
Proof.
  rewrite !forallb_forall. intros H c Hc. specialize (H c Hc). unfold isPrintable in H.
  unfold single_unit, json_unit, is_EOL.
  rewrite !orb_true_iff, !andb_true_iff, !Z.leb_le in H.
  rewrite !andb_true_iff, !negb_true_iff, !orb_true_iff, !andb_true_iff, !orb_false_iff,
    !Z.leb_le, !Z.eqb_neq. lia.
Qed.

Definition style_fits (types : list yaml_type) (s : jsstr) (width : Z) (style : scalar_style) : Prop :=
  match style with
  | STYLE_PLAIN => plain_text s /\ unresolved types s
  | STYLE_SINGLE => forallb isPrintable s = true
  | STYLE_DOUBLE => True
  | STYLE_LITERAL | STYLE_FOLDED => has_line_break s = true \/ width < strlen s
  end.

Lemma no_break_printable s :
  has_line_break s = false -> forallb (fun c => isPrintable c || (c =? 10)) s = true ->
  forallb isPrintable s = true.
Proof.
  intros Hb. rewrite !forallb_forall. intros H c Hc. specialize (H c Hc).
  apply orb_true_iff in H as [|H]; [done|]. apply Z.eqb_eq in H as ->.
  assert (has_line_break s = true) by (apply existsb_exists; by exists 10). congruence.
Qed.

(** The choice when nothing asks for a block style. *)
Lemma flow_style_fits types s width plain b :
  Forall is_unit s -> (b = false -> unresolved types s) -> forallb isPrintable s = true ->
  plain = isPlainSafeFirst (charCodeAt s 0) && negb (isWhitespace (charCodeAt s (strlen s - 1)))
          && forallb isPlainSafe s ->
  exists style,
    (ambiguous ← (if plain then Ret b else Ret true);
     Ret (if plain && negb ambiguous then STYLE_PLAIN else STYLE_SINGLE)) = @Ret jserror _ style
    /\ style_fits types s width style.
Proof.
  intros Hu Hb Hp ->. destruct (_ && _ && _) eqn:Hplain.
  - rewrite !andb_true_iff, negb_true_iff in Hplain. destruct Hplain as [[Hf Hl] Hs].
    destruct b; [by exists STYLE_SINGLE|]. exists STYLE_PLAIN. split; [done|]. split; [by split|auto].
  - by exists STYLE_SINGLE.
Qed.

Lemma chooseScalarStyle_fits types s single indent width test b :
  Forall is_unit s -> test s = Ret b -> (b = false -> unresolved types s) ->
  exists style, chooseScalarStyle s single indent width test = Ret style
                /\ style_fits types s width style.
Proof.
  intros Hu Htest Hb. unfold chooseScalarStyle. rewrite Htest.
  set (plain0 := isPlainSafeFirst _ && _). destruct single.
  - destruct (scan_single s plain0) as [plain|] eqn:Hscan; [|by exists STYLE_DOUBLE].
    apply scan_single_spec in Hscan as [Hp Hplain]. by apply flow_style_fits.
  - destruct (scan_multi s width 0 s _) as [st|] eqn:Hscan; [|by exists STYLE_DOUBLE].
    apply scan_multi_spec in Hscan as (Hp & Hplain & Hbreak & Hfold). simpl in *. rewrite Hbreak.
    destruct (has_line_break s) eqn:Hlb; simpl.
    + destruct ((9 <? indent) && needIndentIndicator s); [by exists STYLE_DOUBLE|].
      eexists. split; [done|]. destruct (_ || _); by left.
    + destruct (Hfold eq_refl) as [-> ->]. simpl.
      destruct (negb (width =? -1) && foldable s width (strlen s) (-1)) eqn:Hf; simpl.
      * destruct ((9 <? indent) && needIndentIndicator s); [by exists STYLE_DOUBLE|].
        exists STYLE_FOLDED. split; [done|]. right. unfold foldable in Hf.
        rewrite !andb_true_iff, Z.ltb_lt in Hf. lia.
      * apply flow_style_fits; [done|done|by apply no_break_printable|done].
Qed.

(** ** The implicit types of the safe schema *)

Definition safe_implicit (hs : Host) : list yaml_type := compiledImplicit (DEFAULT_SAFE_SCHEMA hs).

(** The answer of each of them depends on the string alone. *)
Lemma safe_implicit_answers hs s :
  Forall (fun t => exists b, forall h, resolve t h (VString s) = Ret b) (safe_implicit hs).
Proof.
  change (safe_implicit hs)
    with [null_type; bool_type; int_type; float_type hs; timestamp_type hs; merge_type].
  repeat (apply Forall_cons; split); [eexists; intros h; reflexivity|eexists; intros h; reflexivity|eexists; intros h; reflexivity
    |eexists; intros h; reflexivity| | |constructor].
  - exists (match exec_any s with Some _ => true | None => false end). intros h.
    change (resolve (timestamp_type hs) h (VString s)) with (resolveYamlTimestamp hs h (VString s)).
    unfold resolveYamlTimestamp. by rewrite value_toString_string.
  - eexists; intros h; reflexivity.
Qed.

Lemma testImplicit_safe hs h s :
  exists b, testImplicitResolving h (safe_implicit hs) s = Ret b
            /\ (b = false -> unresolved (safe_implicit hs) s).
Proof.
  pose proof (safe_implicit_answers hs s) as Hall. unfold unresolved.
  induction Hall as [|t ts [b Ht] _ (b' & Htest & Hun)]; [by exists false|].
  cbn [testImplicitResolving]. rewrite Ht. destruct b; simpl; [by exists true|].
  exists b'. rewrite Htest. split; [done|]. intros Hb. constructor; auto.
Qed.

Lemma quote_single_plain s : forallb (fun c => negb (c =? 39)) s = true ->
  quote_single s = [39] ++ s ++ [39].
Proof.
  intros Hs. unfold quote_single. f_equal. f_equal.
  induction s as [|c s IH]; [done|]. cbn [forallb] in Hs. apply andb_true_iff in Hs as [Hc Hs].
  rewrite fmap_cons. cbn [concat]. apply negb_true_iff in Hc. rewrite Hc, IH by done. done.
Qed.

Lemma deprecated_form s : existsb (jseqb s) DEPRECATED_BOOLEANS_SYNTAX = true ->
  [39] ++ s ++ [39] = quote_single s /\ forallb single_unit s = true.
Proof.
  intros H. apply existsb_exists in H as (w & Hw & Heq). apply jseqb_eq in Heq as ->.
  assert (Hall : forallb (fun w => forallb (fun c => negb (c =? 39)) w && forallb single_unit w)
                   DEPRECATED_BOOLEANS_SYNTAX = true) by reflexivity.
  rewrite forallb_forall in Hall. specialize (Hall w Hw). apply andb_true_iff in Hall as [H1 H2].
  by rewrite quote_single_plain.
Qed.

Lemma scalar_text_form hs E s level iskey :
  Forall is_unit s -> d_implicitTypes E = safe_implicit hs ->
  exists T, scalar_text E s level iskey = Ret T
    /\ (line_form (safe_implicit hs) s T
        \/ block_text T = true /\ (has_line_break s = true \/ Z.min (d_lineWidth E) 40 < strlen s)).
Proof.
  intros Hu Hty. unfold scalar_text. destruct (Z.eqb_spec (strlen s) 0) as [H0|H0].
  { assert (s = []) as -> by (destruct s; [done|rewrite strlen_cons in H0; pose proof (strlen_nonneg s); lia]).
    exists (js "''"). split; [done|]. left. by apply (FormSingle _ []). }
  destruct (negb (d_noCompatMode E) && existsb (jseqb s) DEPRECATED_BOOLEANS_SYNTAX) eqn:Hdep.
  { apply andb_true_iff in Hdep as [_ Hdep]. destruct (deprecated_form s Hdep) as [-> Hs].
    eexists. split; [done|]. left. by apply FormSingle. }
  rewrite Hty. destruct (testImplicit_safe hs (d_heap E) s) as (b & Htest & Hb).
  set (width := if d_lineWidth E =? -1 then -1 else _).
  assert (Hwidth : width < strlen s -> Z.min (d_lineWidth E) 40 < strlen s).
  { unfold width. destruct (Z.eqb_spec (d_lineWidth E) (-1)); lia. }
  match goal with |- context [chooseScalarStyle s ?single ?ind width ?test] =>
    destruct (chooseScalarStyle_fits (safe_implicit hs) s single ind width test b Hu Htest Hb)
      as (style & -> & Hfit) end. simpl.
  destruct style; simpl in Hfit; try (eexists; split; [reflexivity|]).
  - left. destruct Hfit. by apply FormPlain.
  - left. apply FormSingle. by apply printable_single.
  - right. split; [done|]. tauto.
  - right. split; [done|]. tauto.
  - destruct (escapeString_items s Hu) as (items & Ht & _). rewrite Ht. eexists. split; [reflexivity|].
    left. by apply FormDouble.
Qed.

(** No type of the safe schema represents a string. *)
Lemma wp_detect_none E types x v (Q : bool -> DState -> Prop) R st :
  Forall (fun t => type_applies E t v = false) types -> Q false st ->
  wp (detect_in E types x v) Q R st.
Proof.
  intros Hall HQ. induction Hall as [|t ts Ht _ IH]; [by apply wp_ret|].
  cbn [detect_in]. by rewrite Ht.
Qed.

Lemma safe_types_string hs E s :
  Forall (fun t => type_applies E t (VString s) = false) (safe_implicit hs)
  /\ Forall (fun t => type_applies E t (VString s) = false) (compiledExplicit (DEFAULT_SAFE_SCHEMA hs)).
Proof.
  change (safe_implicit hs)
    with [null_type; bool_type; int_type; float_type hs; timestamp_type hs; merge_type].
  change (compiledExplicit (DEFAULT_SAFE_SCHEMA hs))
    with [str_type; seq_type; map_type; binary_type hs; omap_type; pairs_type; set_type].
  assert (Hb : type_applies E (binary_type hs) (VString s) = false).
  { unfold type_applies. simpl. unfold isBinary. by rewrite andb_false_r. }
  split; repeat (apply Forall_cons; split; [first [reflexivity|exact Hb]|]); by apply Forall_nil.
Qed.

Lemma wp_write_string hs E n level s block compact iskey T R st :
  d_implicitTypes E = safe_implicit hs -> d_explicitTypes E = compiledExplicit (DEFAULT_SAFE_SCHEMA hs) ->
  scalar_text E s level iskey = Ret T ->
  wp (writeNode E (S n) level (VString s) block compact iskey)
     (fun b st' => b = true /\ d_dump st' = VString T) R st.
Proof.
  intros Hi He HT. destruct (safe_types_string hs E s) as [Hni Hne].
  cbn [writeNode]. unfold writeNode_body, detectType.
  apply wp_bind, wp_modifyS, wp_bind. rewrite Hi. apply wp_detect_none; [done|].
  apply wp_bind. rewrite He. apply wp_detect_none; [done|]. apply wp_bind, wp_getS. simpl.
  apply wp_bind, wp_ret, wp_bind. unfold write_content. apply wp_bind, wp_getS. simpl.
  apply wp_bind, wp_bind. unfold dump_text. simpl. rewrite HT.
  apply wp_liftO, wp_modifyS, wp_ret. simpl. apply wp_bind, wp_getS. simpl. by apply wp_bind, wp_ret, wp_ret.
Qed.

Lemma safeDump_string hs h s o :
  Forall is_unit s -> do_schema o = None -> do_styles o = [] ->
  exists T, safeDump hs h (VString s) o = Ret (T ++ [10])
    /\ (line_form (safe_implicit hs) s T
        \/ block_text T = true
           /\ (has_line_break s = true
               \/ Z.min (if do_lineWidth o =? 0 then 80 else do_lineWidth o) 40 < strlen s)).
Proof.
  intros Hu Hsch Hst. unfold safeDump, dump.
  destruct (make_denv hs h (VString s) (safe_dump_options hs o)) as [E| |] eqn:HE;
    unfold make_denv, safe_dump_options in HE; simpl in HE; rewrite Hst, Hsch in HE; simpl in HE; try done.
  destruct (scalar_text_form hs E s 0 false Hu) as (T & HT & Hform); [by injection HE as <-|].
  exists T. split; [|by injection HE as <-].
  pose proof (wp_write_string hs E (S (length h)) 0 s true true false T (fun _ => False)
                (initial_dstate E (VString s))) as Hw.
  assert (Hi : d_implicitTypes E = safe_implicit hs) by by injection HE as <-.
  assert (He : d_explicitTypes E = compiledExplicit (DEFAULT_SAFE_SCHEMA hs)) by by injection HE as <-.
  specialize (Hw Hi He HT). unfold wp in Hw.
  change (match writeNode E (S (S (length h))) 0 (VString s) true true false
            (initial_dstate E (VString s)) with
          | Ret (true, st) => Ret (dump_text st ++ [10])
          | Ret (false, _) => Ret [] | Throw e => Throw e | OutOfFuel => OutOfFuel
          end = Ret (T ++ [10])).
  destruct (writeNode E _ _ _ _ _ _ _) as [[b st]| |]; [|done|done].
  destruct Hw as [-> Hd]. unfold dump_text. by rewrite Hd.
Qed.

(** ** Loading the text *)

Lemma load_root hs h T v o :
  scalar_start (charCodeAt T 0) = true -> T <> [] -> charCodeAt T 0 <> 65279 ->
  reads (make_env hs (T ++ [10]) o) T v ->
  exists st, load hs h (T ++ [10]) o = Ret (v, st).
Proof.
  intros Hc HT Hbom Hreads. destruct T as [|c T'] eqn:HeqT; [done|]. rewrite <- HeqT in *.
  assert (Hprep : prepare_input (T ++ [10]) = T ++ [10]).
  { rewrite HeqT in *. unfold prepare_input. cbn [app].
    replace (charCodeAt (c :: T' ++ [10]) (strlen (c :: T' ++ [10]) - 1)) with 10.
    - simpl. change (charCodeAt (c :: T' ++ [10]) 0) with (charCodeAt (c :: T') 0).
      by rewrite (proj2 (Z.eqb_neq _ _) Hbom).
    - symmetry. change (c :: T' ++ [10]) with ((c :: T') ++ [10]). rewrite strlen_app.
      apply charCodeAt_mid. change (strlen [10]) with 1. lia. }
  unfold load, loadDocuments. rewrite Hprep.
  set (E := make_env hs (T ++ [10]) o) in *.
  assert (Hw := wp_read_root E T). specialize (Hw (eq_sym (app_assoc T [10] [0]))).
  specialize (Hw (strlen_app T [10]) c T' HeqT).
  rewrite HeqT in Hc at 1. specialize (Hw Hc v Hreads (2 * length (T ++ [10%Z]))%nat (initial_state h)).
  specialize (Hw ltac:(by split)). unfold wp in Hw.
  replace (compose_fuel (T ++ [10])) with (S (S (2 * length (T ++ [10])))) by (unfold compose_fuel; lia).
  destruct (read_documents E _ _) as [[u st]| |]; [|done|done]. exists st. simpl. by rewrite Hw.
Qed.

Lemma safeLoad_line hs h s T o :
  Forall is_unit s -> is_document_end s = false -> opt_schema o = None ->
  line_form (safe_implicit hs) s T ->
  exists st, safeLoad hs h (T ++ [10]) o = Ret (VString s, st).
Proof.
  intros Hu Hend Hsch Hform. unfold safeLoad.
  destruct Hform as [Hpt Hun|Hs|text Htext].
  - pose proof (pt_first s Hpt) as Hf. destruct (plain_first_ok _ Hf) as (Hstart & _).
    apply load_root; [done|by intros ->| |].
    + intros Hbom. rewrite Hbom in Hf. done.
    + apply reads_plain; [done|done| |unfold make_env; cbn [input]; by rewrite <- app_assoc].
      unfold make_env, safe_options. simpl. by rewrite Hsch.
  - apply load_root; [done|done|done|]. apply reads_single; [done|].
    unfold make_env. cbn [input]. by rewrite <- app_assoc.
  - apply load_root; [done|done|done|]. apply reads_double; [done|done|].
    unfold make_env. cbn [input]. by rewrite <- !app_assoc.
Qed.

(** For every string of 16-bit units and any options that keep the default
    schema and styles, [safeDump] returns a text.  That text is a block scalar,
    which needs a line break in the string or more units than a line may have,
    or [safeLoad] reads it back as the string itself.  The one exception is a
    string that reads as the marker of the end of a document. *)
Lemma string_roundtrip hs h h' s o lo :
  Forall is_unit s -> is_document_end s = false ->
  do_schema o = None -> do_styles o = [] -> opt_schema lo = None ->
  exists text, safeDump hs h (VString s) o = Ret text
    /\ (block_text text = true
        /\ (has_line_break s = true
            \/ Z.min (if do_lineWidth o =? 0 then 80 else do_lineWidth o) 40 < strlen s)
        \/ exists st, safeLoad hs h' text lo = Ret (VString s, st)).
Proof.
  intros Hu Hend Hsch Hst Hlo.
  destruct (safeDump_string hs h s o Hu Hsch Hst) as (T & HT & Hform).
  exists (T ++ [10]). split; [done|]. destruct Hform as [Hline|[Hb Hw]].
  - right. by eapply safeLoad_line.
  - left. split; [|done]. unfold block_text in *. destruct T; [done|exact Hb].
Qed.


(** The exception is real: [safeDump] writes the string of three dots as a
    plain scalar, and [safeLoad] reads that text as an empty document. *)
Lemma document_marker_lost :
  safeDump bare_host [] (VString (js "...")) no_dump_options = Ret (js "..." ++ [10])
  /\ match safeLoad bare_host [] (js "..." ++ [10]) no_options with
     | Ret (v, _) => v = VNull
     | _ => False
     end.
Proof. split; vm_compute; reflexivity. Qed.

(** C3: for every string of 16-bit units and any options that keep the default schema
    and styles, [safeDump] returns a text.  That text is a block scalar, which
    needs a line break in the string or more units than a line may have, or
    [safeLoad] reads it back as the string itself.  The one exception is a string that
    reads as the marker of the end of a document, and it is real: the string of
    three dots is written as a plain scalar, which is read as an empty document. *)
Theorem strings_roundtrip hs h h' s o lo :
  Forall is_unit s -> is_document_end s = false ->
  do_schema o = None -> do_styles o = [] -> opt_schema lo = None ->
  (exists text, safeDump hs h (VString s) o = Ret text
    /\ (block_text text = true
        /\ (has_line_break s = true
            \/ Z.min (if do_lineWidth o =? 0 then 80 else do_lineWidth o) 40 < strlen s)
        \/ exists st, safeLoad hs h' text lo = Ret (VString s, st)))
  /\ safeDump bare_host [] (VString (js "...")) no_dump_options = Ret (js "..." ++ [10])
  /\ match safeLoad bare_host [] (js "..." ++ [10]) no_options with
     | Ret (v, _) => v = VNull
     | _ => False
     end.
Proof.
  intros H1 H2 H3 H4 H5.
  exact (conj (string_roundtrip hs h h' s o lo H1 H2 H3 H4 H5) document_marker_lost).
Qed.

Lemma strings_roundtrip_witness :
  exists text, safeDump bare_host [] (VString (js "it's: 12")) no_dump_options = Ret text
    /\ (block_text text = true
        /\ (has_line_break (js "it's: 12") = true
            \/ Z.min (if do_lineWidth no_dump_options =? 0 then 80 else do_lineWidth no_dump_options) 40
               < strlen (js "it's: 12"))
        \/ exists st, safeLoad bare_host [] text no_options = Ret (VString (js "it's: 12"), st)).
Proof.
  assert (Hu : Forall is_unit (js "it's: 12")) by (repeat constructor; done).
  assert (He : is_document_end (js "it's: 12") = false) by (vm_compute; reflexivity).
  exact (proj1 (strings_roundtrip bare_host [] [] (js "it's: 12") no_dump_options no_options
                  Hu He eq_refl eq_refl eq_refl)).
Defined.
