(* ===== verification/CoreMicrotask.v ===== *)
(** * core-js: the queue of microtasks

    Promises put their work into a queue, a linked list of objects
    [{fn, next}] with the variables [head] and [last], which a flush empties.  A
    flush is requested from the browser ([notify]) when the list was empty.  The
    list is shown to be a first-in first-out queue that is never left alone: as
    long as it holds a task a flush is requested or running, also when a task
    throws. *)

From S2P Require Import JsPrelude.

(** An object of the list; functions are numbers. *)
Record cell : Type := mkCell {
  fn : nat;
  next : option nat
}.

Record queue : Type := mkQueue {
  objects : list cell;
  head : option nat;
  last : option nat;
  requested : nat;
  flushing : bool;
  added : list nat;
  done_ : list nat
}.

Definition empty_queue : queue := mkQueue [] None None 0 false [] [].

(** [notify]. *)
Definition request (q : queue) : queue :=
  mkQueue (objects q) (head q) (last q) (S (requested q)) (flushing q) (added q) (done_ q).

Definition link (l : nat) (t : nat) (os : list cell) : list cell :=
  alter (fun c => mkCell (fn c) (Some t)) l os.

(** The function the module returns: a task is put at the end. *)
Definition enqueue (f : nat) (q : queue) : queue :=
  let task := length (objects q) in
  let os := objects q ++ [mkCell f None] in
  let os := match last q with Some l => link l task os | None => os end in
  let q := mkQueue os (head q) (last q) (requested q) (flushing q) (added q ++ [f]) (done_ q) in
  let q := match head q with
           | None => request (mkQueue (objects q) (Some task) (last q) (requested q) (flushing q)
                                      (added q) (done_ q))
           | Some _ => q
           end in
  mkQueue (objects q) (head q) (Some task) (requested q) (flushing q) (added q) (done_ q).

Definition enqueue_all (fs : list nat) (q : queue) : queue := foldl (fun q f => enqueue f q) q fs.

Section flush.
(** What a function does: the tasks it adds, and whether it throws. *)
Variable body : nat -> list nat * bool.

Definition begin_flush (q : queue) : queue :=
  mkQueue (objects q) (head q) (last q) (pred (requested q)) true (added q) (done_ q).

(** The end of the loop of [flush]. *)
Definition end_flush (q : queue) : queue :=
  mkQueue (objects q) (head q) None (requested q) false (added q) (done_ q).

(** One turn of the loop: the head is taken off the list before it runs; an
    exception ends the flush. *)
Definition flush_turn (t : nat) (q : queue) : queue :=
  match objects q !! t with
  | None => q
  | Some c =>
      let q := mkQueue (objects q) (next c) (last q) (requested q) true (added q)
                       (done_ q ++ [fn c]) in
      let q := enqueue_all (body (fn c)).1 q in
      if (body (fn c)).2 then
        match head q with
        | Some _ => let q := request q in
                    mkQueue (objects q) (head q) (last q) (requested q) false (added q) (done_ q)
        | None => mkQueue (objects q) (head q) None (requested q) false (added q) (done_ q)
        end
      else q
  end.

Inductive turn : queue -> queue -> Prop :=
| turn_enqueue f q : flushing q = false -> turn q (enqueue f q)
| turn_begin q : flushing q = false -> (0 < requested q)%nat -> turn q (begin_flush q)
| turn_run t q : flushing q = true -> head q = Some t -> turn q (flush_turn t q)
| turn_end q : flushing q = true -> head q = None -> turn q (end_flush q).

Inductive queue_reached : queue -> Prop :=
| queue_start : queue_reached empty_queue
| queue_turn q q' : queue_reached q -> turn q q' -> queue_reached q'.

(** ** The list in the store *)

(** The tasks from [h] on are those of the objects at [ts], and [l] is the last. *)
Fixpoint lseg (os : list cell) (h : option nat) (ts : list nat) : Prop :=
  match ts with
  | [] => h = None
  | t :: ts' => h = Some t /\ exists c, os !! t = Some c /\ lseg os (next c) ts'
  end.

Definition tasks_of (os : list cell) (ts : list nat) : list nat :=
  (fun t => match os !! t with Some c => fn c | None => 0%nat end) <$> ts.

(** The variables describe the objects at [ts]. *)
Record shape (q : queue) (ts : list nat) : Prop := {
  shape_list : lseg (objects q) (head q) ts;
  shape_last : forall t, List.last ts 0%nat = t -> ts <> [] -> last q = Some t;
  shape_nodup : NoDup ts;
  shape_bound : Forall (fun t => (t < length (objects q))%nat) ts;
  shape_stale : forall l, last q = Some l -> (l < length (objects q))%nat;
  shape_order : added q = done_ q ++ tasks_of (objects q) ts;
  shape_live : ts <> [] -> flushing q = true \/ (0 < requested q)%nat
}.

Lemma lseg_app_object os c h ts :
  Forall (fun t => (t < length os)%nat) ts -> lseg os h ts -> lseg (os ++ [c]) h ts.
Proof.
  revert h. induction ts as [|t ts IH]; intros h Hb; [done|].
  apply Forall_cons in Hb as [Ht Hb]. intros [-> (x & Hx & Hs)]. split; [done|].
  exists x. rewrite lookup_app_l by done. auto.
Qed.

Lemma lseg_link_other os l n h ts :
  l ∉ ts -> lseg os h ts -> lseg (link l n os) h ts.
Proof.
  revert h. induction ts as [|t ts IH]; intros h Hl; [done|].
  apply not_elem_of_cons in Hl as [Ht Hl]. intros [-> (x & Hx & Hs)]. split; [done|].
  exists x. unfold link. rewrite list_lookup_alter_ne by done. auto.
Qed.

(** Linking a new object behind the last one. *)
Lemma lseg_snoc os h ts l n c :
  lseg os h (ts ++ [l]) -> NoDup (ts ++ [l]) -> n ∉ ts ++ [l] -> os !! n = Some c -> next c = None ->
  lseg (link l n os) h (ts ++ [l; n]).
Proof.
  revert h. induction ts as [|t ts IH]; intros h; simpl.
  - intros [-> (x & Hx & Hn)] _ Hne Hc Hnone. split; [done|].
    apply not_elem_of_cons in Hne as [Hne _].
    exists (mkCell (fn x) (Some n)). unfold link. rewrite list_lookup_alter_eq, Hx. split; [done|].
    split; [done|]. exists c. rewrite list_lookup_alter_ne by done. by split.
  - intros [-> (x & Hx & Hs)] [Ht HN]%NoDup_cons [Hnt Hn]%not_elem_of_cons Hc Hnone.
    split; [done|]. exists x. unfold link.
    rewrite list_lookup_alter_ne; [split; [done|by apply IH]|].
    intros ->. destruct Ht. apply elem_of_app. right. by left.
Qed.

Lemma tasks_of_link os l n ts : tasks_of (link l n os) ts = tasks_of os ts.
Proof.
  unfold tasks_of. apply list_fmap_ext. intros i t _. unfold link.
  destruct (decide (l = t)) as [->|]; [|by rewrite list_lookup_alter_ne].
  rewrite list_lookup_alter_eq. by destruct (os !! t).
Qed.

Lemma tasks_of_app os c ts :
  Forall (fun t => (t < length os)%nat) ts -> tasks_of (os ++ [c]) ts = tasks_of os ts.
Proof.
  intros Hb. unfold tasks_of. apply list_fmap_ext. intros i t Ht.
  rewrite lookup_app_l; [done|]. by eapply (proj1 (Forall_lookup _ _) Hb).
Qed.

Lemma last_snoc ts (l : nat) : List.last (ts ++ [l]) 0%nat = l.
Proof. induction ts as [|t ts IH]; [done|]. simpl. rewrite IH. by destruct (ts ++ [l]) eqn:E; [destruct ts|]. Qed.

Lemma lseg_head os h ts : lseg os h ts -> h = None <-> ts = [].
Proof. destruct ts; simpl; [by intros ->|]. intros [-> _]. by split. Qed.

(** The fields of the queue after [enqueue]. *)
Lemma enqueue_fields f q :
  head (enqueue f q) = match head q with Some h => Some h | None => Some (length (objects q)) end
  /\ last (enqueue f q) = Some (length (objects q))
  /\ objects (enqueue f q)
     = (match last q with
        | Some l => link l (length (objects q)) (objects q ++ [mkCell f None])
        | None => objects q ++ [mkCell f None]
        end)
  /\ added (enqueue f q) = added q ++ [f] /\ done_ (enqueue f q) = done_ q
  /\ flushing (enqueue f q) = flushing q
  /\ requested (enqueue f q) = match head q with Some _ => requested q | None => S (requested q) end.
Proof. unfold enqueue. simpl. by destruct (head q). Qed.

Lemma enqueue_shape f q ts : shape q ts -> shape (enqueue f q) (ts ++ [length (objects q)]).
Proof.
  intros [Hl Hlast HN Hb Hst Ho Hlive]. set (n := length (objects q)).
  destruct (enqueue_fields f q) as (Eh & El & Eo & Ea & Ed & Ef & Er). fold n in Eh, El, Eo.
  assert (Hn : n ∉ ts).
  { intros Hin. pose proof (proj1 (Forall_forall _ _) Hb n Hin) as H. simpl in H. lia. }
  assert (Hnew : (objects q ++ [mkCell f None]) !! n = Some (mkCell f None)).
  { rewrite lookup_app_r by (unfold n; lia). unfold n. by rewrite Nat.sub_diag. }
  assert (Hlen : length (objects (enqueue f q)) = S n).
  { rewrite Eo. destruct (last q); unfold link; rewrite ?length_alter, length_app; simpl; lia. }
  assert (Hlseg : lseg (objects (enqueue f q)) (head (enqueue f q)) (ts ++ [n])).
  { rewrite Eo, Eh. destruct ts as [|l ts0 _] using rev_ind.
    - simpl in Hl. rewrite Hl. split; [done|]. exists (mkCell f None). split; [|done].
      destruct (last q) as [l|] eqn:E; [|done]. specialize (Hst l eq_refl). unfold link.
      rewrite list_lookup_alter_ne by (unfold n; lia). done.
    - rewrite (Hlast l); [|apply last_snoc|by destruct ts0].
      rewrite <- app_assoc. simpl. apply (lseg_app_object _ (mkCell f None)) in Hl; [|done].
      destruct (head q) as [h|] eqn:E.
      + by apply (lseg_snoc _ _ _ _ _ (mkCell f None)).
      + apply lseg_head in Hl. destruct Hl as [Hl _]. specialize (Hl eq_refl). by destruct ts0. }
  split; rewrite ?El, ?Ea, ?Ed, ?Ef, ?Er, ?Hlen; try done.
  - intros t <- _. by rewrite last_snoc.
  - apply NoDup_app. split_and!; [done| |apply NoDup_singleton].
    intros t Ht Ht'%list_elem_of_singleton. by subst t.
  - apply Forall_app. split; [|constructor; [lia|done]].
    eapply Forall_impl; [exact Hb|]. unfold n. simpl. lia.
  - intros l [= <-]. lia.
  - assert (Hts : tasks_of (objects (enqueue f q)) (ts ++ [n]) = tasks_of (objects q) ts ++ [f]).
    { rewrite Eo. transitivity (tasks_of (objects q ++ [mkCell f None]) (ts ++ [n]));
        [destruct (last q); [apply tasks_of_link|done]|].
      unfold tasks_of at 1. rewrite fmap_app. fold (tasks_of (objects q ++ [mkCell f None]) ts).
      rewrite tasks_of_app by done. simpl. by rewrite Hnew. }
    by rewrite Hts, Ho, app_assoc.
  - intros _. destruct (flushing q) eqn:E; [by left|]. right.
    destruct (head q) eqn:Eh0; [|lia]. destruct Hlive as [?|?]; [|done|done].
    intros ->. by simpl in Hl.
Qed.

Lemma enqueue_all_shape fs q ts :
  shape q ts -> exists ts', shape (enqueue_all fs q) ts'
    /\ flushing (enqueue_all fs q) = flushing q.
Proof.
  revert q ts. induction fs as [|f fs IH]; intros q ts H; simpl; [by exists ts|].
  destruct (IH _ _ (enqueue_shape f q ts H)) as (ts' & Hs & Hf). exists ts'. split; [done|].
  unfold enqueue_all in *. simpl. rewrite Hf. apply enqueue_fields.
Qed.

(** Taking the head off. *)
Lemma dequeue_shape q t ts c :
  shape q (t :: ts) -> objects q !! t = Some c ->
  shape (mkQueue (objects q) (next c) (last q) (requested q) true (added q) (done_ q ++ [fn c])) ts.
Proof.
  intros [Hl Hlast HN Hb Hst Ho Hlive] Hc. simpl in Hl. destruct Hl as (Hh & x & Hx & Hs).
  assert (x = c) as -> by congruence. apply NoDup_cons in HN as [_ HN].
  apply Forall_cons in Hb as [_ Hb]. split; simpl; try done.
  - intros t' <- Hne. apply Hlast; [|done]. by destruct ts.
  - rewrite Ho. simpl. rewrite Hc, <- app_assoc. done.
  - intros _. by left.
Qed.

Lemma turn_shape q q' ts : shape q ts -> turn q q' -> exists ts', shape q' ts'.
Proof.
  intros H Ht. revert H. destruct Ht as [f q0 Hf|q0 Hf Hr|t q0 Hf Hh|q0 Hf Hh]; intros H.
  - exists (ts ++ [length (objects q0)]). by apply enqueue_shape.
  - exists ts. destruct H as [H1 H2 H3 H4 H5 H6 H7]. split; simpl; try done. by intros; left.
  - unfold flush_turn. pose proof (shape_list _ _ H) as Hl. rewrite Hh in Hl.
    destruct ts as [|t' ts]; [done|]. destruct Hl as [[= <-] (c & Hc & Hs)]. rewrite Hc.
    destruct (enqueue_all_shape (body (fn c)).1 _ _ (dequeue_shape q0 t ts c H Hc))
      as (ts' & Hs' & Hfl).
    set (q1 := enqueue_all _ _) in *. destruct (body (fn c)).2; [|by exists ts'].
    destruct Hs' as [H1 H2 H3 H4 H5 H6 H7]. destruct (head q1) as [h|] eqn:Eh.
    + exists ts'. split; simpl; rewrite ?Eh; try done. intros _. right. lia.
    + exists ts'. apply lseg_head in H1. destruct H1 as [H1 _]. specialize (H1 eq_refl). subst ts'.
      split; simpl; rewrite ?Eh; try done.
  - exists ts. destruct H as [H1 H2 H3 H4 H5 H6 H7]. rewrite Hh in H1.
    apply lseg_head in H1. destruct H1 as [H1 _]. specialize (H1 eq_refl). subst ts.
    split; simpl; rewrite ?Hh; try done.
Qed.

Lemma queue_reached_shape q : queue_reached q -> exists ts, shape q ts.
Proof.
  induction 1 as [|q q' _ [ts Hs] Ht]; [|by eapply turn_shape].
  exists []. split; try done; constructor.
Qed.
End flush.

(** C27: the list of the source is a first-in first-out queue: in every reachable
    state the tasks that were run, followed by those the list holds from [head]
    on, are the tasks that were added, in that order; and while the list holds a
    task, a flush is running or requested. *)
Theorem microtasks_fifo body q :
  queue_reached body q ->
  exists ts, lseg (objects q) (head q) ts /\ added q = done_ q ++ tasks_of (objects q) ts
    /\ (ts <> [] -> flushing q = true \/ (0 < requested q)%nat).
Proof.
  intros Hr. destruct (queue_reached_shape body q Hr) as [ts Hs]. exists ts.
  split_and!; apply Hs.
Qed.

(** The task 7 adds the task 9 and throws; the task 8 waits. *)
Lemma microtasks_fifo_witness :
  exists ts, let body := fun f => if (f =? 7)%nat then ([9%nat], true) else ([], false) in
  let q := flush_turn body 0 (begin_flush (enqueue 8 (enqueue 7 empty_queue))) in
  lseg (objects q) (head q) ts /\ added q = done_ q ++ tasks_of (objects q) ts
  /\ (ts <> [] -> flushing q = true \/ (0 < requested q)%nat).
Proof.
  apply (microtasks_fifo (fun f => if (f =? 7)%nat then ([9%nat], true) else ([], false))).
  eapply queue_turn; [|apply turn_run; reflexivity].
  eapply queue_turn; [|apply turn_begin; [reflexivity|vm_compute; lia]].
  eapply queue_turn; [|apply turn_enqueue; reflexivity].
  eapply queue_turn; [|apply turn_enqueue; reflexivity]. apply queue_start.
Defined.
