(* ===== verification/CorePromise.v ===== *)
(** * core-js: promises

    The page runs its requests on the promises of core-js where the browser has
    none.  A promise is the record of the fields the source keeps in [_c] (the
    reactions), [_a], [_s] (pending, fulfilled, rejected), [_d] (already
    resolved), [_v], [_h] (rejection handled) and [_n] (a notification is on its
    way).  [notify] queues a microtask that runs the reactions; [$resolve] adopts
    the state of a thenable through another microtask and a wrapper object.

    What users write (executors, handlers, thenables) is a [code], a tree of
    calls to this module; a handler is a function from a value to a code.  One
    [step] of the machine is a reaction, a microtask or a task.  Domains are those
    of Node and are left out. *)

From S2P Require Import JsPrelude.

(** What promises are settled with.  An object of the user with a method [then]
    is a number; the code of the method is a parameter. *)
Inductive pvalue : Type :=
| Undefined
| Number (z : Z)
| AnError (message : jsstr)
| APromise (p : nat)
| AThenable (t : nat)
| AnArray (vs : list pvalue).

(** The object a resolving function is bound to: a promise or a wrapper. *)
Inductive target : Type :=
| Own (p : nat)
| Wrapper (w : nat).

(** A variable captured by a closure. *)
Inductive cell : Type :=
| CValues (vs : list pvalue)
| CCount (n : Z)
| CFlag (b : bool).

Inductive code : Type :=
| Return (v : pvalue)
| Throws (v : pvalue)
| NewPromise (executor : nat -> code) (k : nat -> code)
| CallResolve (t : target) (v : pvalue) (k : code)
| CallReject (t : target) (v : pvalue) (k : code)
| CallThen (p : nat) (onFulfilled onRejected : option (pvalue -> code)) (k : nat -> code)
| NewCell (c : cell) (k : nat -> code)
| ReadCell (c : nat) (k : cell -> code)
| WriteCell (c : nat) (v : cell) (k : code).

(** [ok] is [true] or a function, [fail] is [false] or a function; the resolving
    functions of a reaction are those of its promise. *)
Record reaction : Type := mkReaction {
  r_promise : nat;
  r_ok : option (pvalue -> code);
  r_fail : option (pvalue -> code)
}.

Record promise : Type := mkPromise {
  p_c : list reaction;
  p_a : option (list reaction);
  p_s : Z;
  p_d : bool;
  p_v : pvalue;
  p_h : Z;
  p_n : bool
}.

(** [Internal]. *)
Definition Internal : promise := mkPromise [] None 0 false Undefined 0 false.

Inductive job : Type :=
| JNotify (p : nat) (isReject : bool)
| JThenable (p : nat) (v : pvalue).

Inductive task : Type :=
| TUnhandled (p : nat)
| THandled (p : nat).

(** What happened: a reaction was registered, a reaction was run in a state with
    a value, an unhandled rejection was reported. *)
Inductive happening : Type :=
| Registered (p : nat) (r : nat)
| Ran (p : nat) (r : nat) (s : Z) (v : pvalue)
| Reported (p : nat) (v : pvalue).

Record page : Type := mkPage {
  promises : list promise;
  wrappers : list (nat * bool);
  microtasks : list job;
  tasks : list task;
  cells : list cell;
  trace : list happening
}.

Definition empty_page : page := mkPage [] [] [] [] [] [].

Definition set_promises (ps : list promise) (g : page) : page :=
  mkPage ps (wrappers g) (microtasks g) (tasks g) (cells g) (trace g).
Definition set_wrappers (ws : list (nat * bool)) (g : page) : page :=
  mkPage (promises g) ws (microtasks g) (tasks g) (cells g) (trace g).
Definition set_microtasks (js : list job) (g : page) : page :=
  mkPage (promises g) (wrappers g) js (tasks g) (cells g) (trace g).
Definition set_tasks (ts : list task) (g : page) : page :=
  mkPage (promises g) (wrappers g) (microtasks g) ts (cells g) (trace g).
Definition set_cells (cs : list cell) (g : page) : page :=
  mkPage (promises g) (wrappers g) (microtasks g) (tasks g) cs (trace g).
Definition note (h : happening) (g : page) : page :=
  mkPage (promises g) (wrappers g) (microtasks g) (tasks g) (cells g) (trace g ++ [h]).

Definition microtask (j : job) (g : page) : page := set_microtasks (microtasks g ++ [j]) g.
Definition add_task (t : task) (g : page) : page := set_tasks (tasks g ++ [t]) g.

(** The promise object at [p], and a change of it. *)
Definition promise_at (g : page) (p : nat) : promise := default Internal (promises g !! p).
Definition on_promise (f : promise -> promise) (p : nat) (g : page) : page :=
  set_promises (alter f p (promises g)) g.

Definition with_c (c : list reaction) (x : promise) : promise :=
  mkPromise c (p_a x) (p_s x) (p_d x) (p_v x) (p_h x) (p_n x).
Definition with_a (a : option (list reaction)) (x : promise) : promise :=
  mkPromise (p_c x) a (p_s x) (p_d x) (p_v x) (p_h x) (p_n x).
Definition with_settled (s : Z) (v : pvalue) (x : promise) : promise :=
  mkPromise (p_c x) (p_a x) s (p_d x) v (p_h x) (p_n x).
Definition with_d (d : bool) (x : promise) : promise :=
  mkPromise (p_c x) (p_a x) (p_s x) d (p_v x) (p_h x) (p_n x).
Definition with_h (h : Z) (x : promise) : promise :=
  mkPromise (p_c x) (p_a x) (p_s x) (p_d x) (p_v x) h (p_n x).
Definition with_n (n : bool) (x : promise) : promise :=
  mkPromise (p_c x) (p_a x) (p_s x) (p_d x) (p_v x) (p_h x) n.

(** ** Resolving *)

Definition isThenable (v : pvalue) : bool :=
  match v with APromise _ | AThenable _ => true | _ => false end.

(** [v === promise]. *)
Definition is_promise (v : pvalue) (p : nat) : bool :=
  match v with APromise q => (q =? p)%nat | _ => false end.

Definition notify (p : nat) (isReject : bool) (g : page) : page :=
  if p_n (promise_at g p) then g
  else microtask (JNotify p isReject) (on_promise (with_n true) p g).

(** [_d] of a promise or of a wrapper, and [promise._w || promise].  Nobody has
    the resolving functions of an object that does not exist. *)
Definition is_done (t : target) (g : page) : bool :=
  match t with
  | Own p => match promises g !! p with Some x => p_d x | None => true end
  | Wrapper w => match wrappers g !! w with Some (_, d) => d | None => true end
  end.

Definition mark_done (t : target) (g : page) : page :=
  match t with
  | Own p => on_promise (with_d true) p g
  | Wrapper w => set_wrappers (alter (fun x => (x.1, true)) w (wrappers g)) g
  end.

Definition owner (t : target) (g : page) : nat :=
  match t with
  | Own p => p
  | Wrapper w => match wrappers g !! w with Some (p, _) => p | None => 0 end
  end.

(** The rest of [$reject], once [promise] is the promise itself. *)
Definition reject_promise (p : nat) (v : pvalue) (g : page) : page :=
  let g := on_promise (with_settled 2 v) p g in
  let g := match p_a (promise_at g p) with
           | None => on_promise (fun x => with_a (Some (p_c x)) x) p g
           | Some _ => g
           end in
  notify p true g.

Definition _reject (t : target) (v : pvalue) (g : page) : page :=
  if is_done t g then g else reject_promise (owner t g) v (mark_done t g).

(** A promise resolved with itself is rejected, through a wrapper made on the
    spot, which is not done. *)
Definition _resolve (t : target) (v : pvalue) (g : page) : page :=
  if is_done t g then g
  else
    let p := owner t g in
    let g := mark_done t g in
    if is_promise v p then reject_promise p (AnError (js "Promise can't be resolved itself")) g
    else if isThenable v then microtask (JThenable p v) g
    else notify p false (on_promise (with_settled 1 v) p g).

(** [new OwnPromiseCapability]. *)
Definition newPromiseCapability (g : page) : nat * page :=
  (length (promises g), set_promises (promises g ++ [Internal]) g).

(** [then]. *)
Definition then_ (p : nat) (onFulfilled onRejected : option (pvalue -> code)) (g : page)
    : nat * page :=
  let '(r, g) := newPromiseCapability g in
  let reaction := mkReaction r onFulfilled onRejected in
  let g := on_promise (fun x => with_c (p_c x ++ [reaction]) x) p g in
  let g := on_promise (fun x => match p_a x with
                                | Some a => with_a (Some (a ++ [reaction])) x
                                | None => x
                                end) p g in
  let g := note (Registered p r) g in
  (r, if p_s (promise_at g p) =? 0 then g else notify p false g).

(** ** User code *)

Inductive completion : Type :=
| Normal (v : pvalue)
| Abrupt (v : pvalue).

(** Calling [then] of something that is not a promise. *)
Definition no_promise : completion := Abrupt (AnError (js "then is not a function")).

Fixpoint exec (c : code) (g : page) : completion * page :=
  match c with
  | Return v => (Normal v, g)
  | Throws v => (Abrupt v, g)
  | NewPromise executor k =>
      let '(p, g) := newPromiseCapability g in
      let '(r, g) := exec (executor p) g in
      exec (k p) (match r with Abrupt e => _reject (Own p) e g | Normal _ => g end)
  | CallResolve t v k => exec k (_resolve t v g)
  | CallReject t v k => exec k (_reject t v g)
  | CallThen p onFulfilled onRejected k =>
      if (p <? length (promises g))%nat
      then let '(r, g) := then_ p onFulfilled onRejected g in exec (k r) g
      else (no_promise, g)
  | NewCell v k => exec (k (length (cells g))) (set_cells (cells g ++ [v]) g)
  | ReadCell i k => exec (k (default (CFlag false) (cells g !! i))) g
  | WriteCell i v k => exec k (set_cells (<[i := v]> (cells g)) g)
  end.

(** The resolving functions as handlers. *)
Definition resolving (t : target) (v : pvalue) : code := CallResolve t v (Return Undefined).
Definition rejecting (t : target) (v : pvalue) : code := CallReject t v (Return Undefined).

Section loop.
(** The methods [then] of the user's thenables, and the page's handlers of
    rejections. *)
Variable foreign : nat -> target -> target -> code.
Variable onunhandledrejection : option (nat -> pvalue -> code).
Variable onrejectionhandled : option (nat -> pvalue -> code).

(** [then.call(v, resolve, reject)] with the resolving functions of [t]. *)
Definition call_then (v : pvalue) (t : target) (g : page) : completion * page :=
  match v with
  | APromise q =>
      if (q <? length (promises g))%nat
      then let '(r, g) := then_ q (Some (resolving t)) (Some (rejecting t)) g in
           (Normal (APromise r), g)
      else (no_promise, g)
  | AThenable f => exec (foreign f t t) g
  | _ => (Normal Undefined, g)
  end.

(** ** The microtasks *)

(** What [run] does with the result of a handler. *)
Definition settle_with (r : reaction) (result : pvalue) (g : page) : page :=
  if is_promise result (r_promise r)
  then _reject (Own (r_promise r)) (AnError (js "Promise-chain cycle")) g
  else if isThenable result then
    match call_then result (Own (r_promise r)) g with
    | (Abrupt e, g) => _reject (Own (r_promise r)) e g
    | (Normal _, g) => g
    end
  else _resolve (Own (r_promise r)) result g.

Definition run_handler (r : reaction) (handler : pvalue -> code) (value : pvalue) (g : page)
    : page :=
  match exec (handler value) g with
  | (Normal result, g) => settle_with r result g
  | (Abrupt e, g) => _reject (Own (r_promise r)) e g
  end.

(** [run(reaction)] of a notification of [p].  The source reads [_v] and [_s] once
    for all reactions; a settled promise keeps them. *)
Definition run_reaction (p : nat) (r : reaction) (g : page) : page :=
  let value := p_v (promise_at g p) in
  let ok := p_s (promise_at g p) =? 1 in
  let g := note (Ran p (r_promise r) (p_s (promise_at g p)) value) g in
  if ok then
    match r_ok r with
    | None => settle_with r value g
    | Some handler => run_handler r handler value g
    end
  else
    match r_fail r with
    | None => _reject (Own (r_promise r)) value g
    | Some handler =>
        let g := if p_h (promise_at g p) =? 2 then add_task (THandled p) g else g in
        run_handler r handler value (on_promise (with_h 1) p g)
    end.

(** The end of a notification. *)
Definition end_notification (p : nat) (isReject : bool) (g : page) : page :=
  let g := on_promise (fun x => with_n false (with_c [] x)) p g in
  if isReject && (p_h (promise_at g p) =? 0) then add_task (TUnhandled p) g else g.

Definition run_thenable (p : nat) (v : pvalue) (g : page) : page :=
  let w := Wrapper (length (wrappers g)) in
  match call_then v w (set_wrappers (wrappers g ++ [(p, false)]) g) with
  | (Abrupt e, g) => _reject w e g
  | (Normal _, g) => g
  end.

(** ** The tasks *)

Definition isUnhandled (p : nat) (g : page) : bool :=
  negb (p_h (promise_at g p) =? 1)
  && (length (default (p_c (promise_at g p)) (p_a (promise_at g p))) =? 0)%nat.

(** A page without the handler logs the rejection.  What the handler throws is
    thrown again by the task and ends it. *)
Definition run_task (t : task) (g : page) : page :=
  match t with
  | TUnhandled p =>
      let value := p_v (promise_at g p) in
      let g :=
        if isUnhandled p g then
          let g := note (Reported p value) g in
          let g := match onunhandledrejection with
                   | Some handler => (exec (handler p value) g).2
                   | None => g
                   end in
          on_promise (with_h (if isUnhandled p g then 2 else 1)) p g
        else g in
      on_promise (with_a None) p g
  | THandled p =>
      match onrejectionhandled with
      | Some handler => (exec (handler p (p_v (promise_at g p))) g).2
      | None => g
      end
  end.

(** ** The machine *)

(** The page, and the notification that is running: the promise, the next
    reaction and the flag [isReject]. *)
Definition machine : Type := page * option (nat * nat * bool).

Definition step (m : machine) : option machine :=
  match m with
  | (g, Some (p, i, isReject)) =>
      match p_c (promise_at g p) !! i with
      | Some r => Some (run_reaction p r g, Some (p, S i, isReject))
      | None => Some (end_notification p isReject g, None)
      end
  | (g, None) =>
      match microtasks g with
      | JNotify p isReject :: js => Some (set_microtasks js g, Some (p, 0%nat, isReject))
      | JThenable p v :: js => Some (run_thenable p v (set_microtasks js g), None)
      | [] =>
          match tasks g with
          | t :: ts => Some (run_task t (set_tasks ts g), None)
          | [] => None
          end
      end
  end.

(** The machine runs, and between two turns a script of the page may run. *)
Inductive evolves : machine -> machine -> Prop :=
| evolves_step m m' : step m = Some m' -> evolves m m'
| evolves_script g c : evolves (g, None) ((exec c g).2, None).

Inductive reached : machine -> Prop :=
| reached_start : reached (empty_page, None)
| reached_next m m' : reached m -> evolves m m' -> reached m'.
End loop.

(** ** The static methods *)

(** [promiseResolve] with the constructor itself. *)
Definition promiseResolve (x : pvalue) (k : nat -> code) : code :=
  match x with
  | APromise p => k p
  | _ => NewPromise (fun p => CallResolve (Own p) x (Return Undefined)) k
  end.

Definition Promise_reject (r : pvalue) (k : nat -> code) : code :=
  NewPromise (fun p => CallReject (Own p) r (Return Undefined)) k.

(** [--remaining || resolve(values)]. *)
Definition count_down (remaining values : nat) (t : target) (k : code) : code :=
  ReadCell remaining (fun n =>
    let n' := match n with CCount n => n - 1 | _ => 0 end in
    WriteCell remaining (CCount n')
      (if n' =? 0 then
         ReadCell values (fun vs =>
           CallResolve t (AnArray (match vs with CValues vs => vs | _ => [] end)) k)
       else k)).

(** The loop of [all] over the elements of an array. *)
Fixpoint all_loop (iterable : list pvalue) (index : nat) (remaining values : nat) (t : target)
    (k : code) : code :=
  match iterable with
  | [] => k
  | promise :: rest =>
      NewCell (CFlag false) (fun alreadyCalled =>
      ReadCell values (fun vs =>
      WriteCell values (CValues ((match vs with CValues vs => vs | _ => [] end) ++ [Undefined]))
      (ReadCell remaining (fun n =>
      WriteCell remaining (CCount (match n with CCount n => n + 1 | _ => 0 end))
      (promiseResolve promise (fun p =>
       CallThen p
         (Some (fun value =>
            ReadCell alreadyCalled (fun called =>
              match called with
              | CFlag true => Return Undefined
              | _ =>
                  WriteCell alreadyCalled (CFlag true)
                  (ReadCell values (fun vs =>
                   WriteCell values
                     (CValues (<[index := value]> (match vs with CValues vs => vs | _ => [] end)))
                     (count_down remaining values t (Return Undefined))))
              end)))
         (Some (rejecting t))
         (fun _ => all_loop rest (S index) remaining values t k)))))))
  end.

Definition Promise_all (iterable : list pvalue) (k : nat -> code) : code :=
  NewPromise (fun p =>
    NewCell (CValues []) (fun values =>
    NewCell (CCount 1) (fun remaining =>
    all_loop iterable 0 remaining values (Own p)
      (count_down remaining values (Own p) (Return Undefined))))) k.

Fixpoint race_loop (iterable : list pvalue) (t : target) (k : code) : code :=
  match iterable with
  | [] => k
  | promise :: rest =>
      promiseResolve promise (fun p =>
        CallThen p (Some (resolving t)) (Some (rejecting t)) (fun _ => race_loop rest t k))
  end.

Definition Promise_race (iterable : list pvalue) (k : nat -> code) : code :=
  NewPromise (fun p => race_loop iterable (Own p) (Return Undefined)) k.

(** [code] after a code that returns. *)
Fixpoint code_bind (c : code) (f : pvalue -> code) : code :=
  match c with
  | Return v => f v
  | Throws v => Throws v
  | NewPromise executor k => NewPromise executor (fun p => code_bind (k p) f)
  | CallResolve t v k => CallResolve t v (code_bind k f)
  | CallReject t v k => CallReject t v (code_bind k f)
  | CallThen p ok fail k => CallThen p ok fail (fun r => code_bind (k r) f)
  | NewCell v k => NewCell v (fun c => code_bind (k c) f)
  | ReadCell i k => ReadCell i (fun v => code_bind (k v) f)
  | WriteCell i v k => WriteCell i v (code_bind k f)
  end.

(** [finally] with a function. *)
Definition Promise_finally (p : nat) (onFinally : code) (k : nat -> code) : code :=
  let after (c : code) : code :=
    code_bind onFinally (fun x => promiseResolve x (fun q =>
      CallThen q (Some (fun _ => c)) None (fun r => Return (APromise r)))) in
  CallThen p (Some (fun x => after (Return x))) (Some (fun e => after (Throws e))) k.

(** [Promise.try]. *)
Definition Promise_try (callbackfn : code) (k : nat -> code) : code :=
  NewPromise (fun p => code_bind callbackfn (fun v => CallResolve (Own p) v (Return Undefined))) k.
