(* ===== verification/CorePromiseTheory.v ===== *)
(** * core-js: promises settle once and forget nobody

    Every promise has exactly one means of being settled: its own resolving
    functions, a microtask that will adopt a thenable, the resolving functions
    handed to that thenable, or none because it is settled.  And a settled
    promise with reactions always has a notification on its way.  Both are
    invariants of every reachable state, whatever the user's code does; that a
    promise settles once, and that reactions run once and in order, follows. *)

From stdpp Require Import relations.
From S2P Require Import JsPrelude CorePromise.

(** ** Counting *)

Definition count {A} (f : A -> bool) (l : list A) : nat := length (List.filter f l).

Definition adopts (p : nat) (j : job) : bool :=
  match j with JThenable q _ => (q =? p)%nat | _ => false end.
Definition notifies (p : nat) (j : job) : bool :=
  match j with JNotify q _ => (q =? p)%nat | _ => false end.
Definition open_for (p : nat) (w : nat * bool) : bool := (w.1 =? p)%nat && negb w.2.

Definition is_running (run : option (nat * nat * bool)) (p : nat) : bool :=
  match run with Some (q, _, _) => (q =? p)%nat | None => false end.
(** How many reactions of [p] the running notification has passed. *)
Definition passed (run : option (nat * nat * bool)) (p : nat) : nat :=
  match run with Some (q, i, _) => if (q =? p)%nat then i else 0%nat | None => 0%nat end.

(** The reactions of [p] in the order they were registered and run. *)
Definition registered_of (p : nat) (h : happening) : list nat :=
  match h with Registered q r => if (q =? p)%nat then [r] else [] | _ => [] end.
Definition ran_of (p : nat) (h : happening) : list nat :=
  match h with Ran q r _ _ => if (q =? p)%nat then [r] else [] | _ => [] end.
Definition registered (p : nat) (g : page) : list nat := concat (registered_of p <$> trace g).
Definition ran (p : nat) (g : page) : list nat := concat (ran_of p <$> trace g).

(** The means of settling a promise. *)
Definition tokens (g : page) (p : nat) (x : promise) : nat :=
  ((if p_d x then 0 else 1) + count (adopts p) (microtasks g) + count (open_for p) (wrappers g)
   + (if (p_s x =? 0)%Z then 0 else 1))%nat.

(** ** The invariant *)

(** For the promise [p], which is [x]; [k] is the number of its tokens. *)
Record pinv (k : nat) (run : option (nat * nat * bool)) (g : page) (p : nat) (x : promise)
    : Prop := {
  pinv_token : tokens g p x = k;
  pinv_notify : (count (notifies p) (microtasks g) + (if is_running run p then 1 else 0)
                 = if p_n x then 1 else 0)%nat;
  pinv_pending : p_s x = 0 -> p_n x = false;
  pinv_kept : p_s x <> 0 -> p_c x <> [] -> p_n x = true;
  pinv_order : registered p g = ran p g ++ (r_promise <$> drop (passed run p) (p_c x));
  pinv_passed : (passed run p <= length (p_c x))%nat;
  pinv_values : forall r s v, Ran p r s v ∈ trace g -> s <> 0 /\ p_s x = s /\ p_v x = v
}.

(** A promise that does not exist yet is a fresh one. *)
Definition ginv (k : nat -> nat) (run : option (nat * nat * bool)) (g : page) : Prop :=
  forall p, pinv (k p) run g p (promise_at g p).

Definition one (p : nat) : nat := 1%nat.
(** The token of [q] is in hand. *)
Definition all_but (q : nat) (p : nat) : nat := if (q =? p)%nat then 0%nat else 1%nat.

(** Settled promises stay as they are. *)
Definition keeps (g g' : page) : Prop :=
  forall p, p_s (promise_at g p) <> 0 ->
    p_s (promise_at g' p) = p_s (promise_at g p) /\ p_v (promise_at g' p) = p_v (promise_at g p).

(** ** Lookup and counting lemmas *)

Lemma count_app {A} (f : A -> bool) l l' : count f (l ++ l') = (count f l + count f l')%nat.
Proof. unfold count. by rewrite List.filter_app, length_app. Qed.

Lemma count_cons {A} (f : A -> bool) x l :
  count f (x :: l) = ((if f x then 1 else 0) + count f l)%nat.
Proof. unfold count. simpl. by destruct (f x). Qed.

Lemma promise_at_on f p g q :
  (p < length (promises g))%nat ->
  promise_at (on_promise f p g) q = if (p =? q)%nat then f (promise_at g p) else promise_at g q.
Proof.
  intros Hp. unfold promise_at, on_promise. simpl. destruct (Nat.eqb_spec p q) as [<-|Hne].
  - rewrite list_lookup_alter_eq. apply lookup_lt_is_Some in Hp as [x Hx]. by rewrite Hx.
  - by rewrite list_lookup_alter_ne.
Qed.

Lemma promise_at_fresh g q :
  promise_at (newPromiseCapability g).2 q = promise_at g q.
Proof.
  unfold promise_at, newPromiseCapability. simpl.
  destruct (Nat.lt_ge_cases q (length (promises g))) as [Hq|Hq].
  - by rewrite lookup_app_l.
  - rewrite lookup_app_r by done. rewrite (lookup_ge_None_2 (promises g)) by done.
    by destruct (q - length (promises g))%nat as [|[]].
Qed.

Lemma length_on_promise f p g : length (promises (on_promise f p g)) = length (promises g).
Proof. unfold on_promise. simpl. apply length_alter. Qed.

Lemma registered_note h g p : registered p (note h g) = registered p g ++ registered_of p h.
Proof. unfold registered. simpl. by rewrite fmap_app, concat_app; simpl; rewrite app_nil_r. Qed.

Lemma ran_note h g p : ran p (note h g) = ran p g ++ ran_of p h.
Proof. unfold ran. simpl. by rewrite fmap_app, concat_app; simpl; rewrite app_nil_r. Qed.

Lemma keeps_refl g : keeps g g.
Proof. by intros p Hp. Qed.

Lemma keeps_trans g1 g2 g3 : keeps g1 g2 -> keeps g2 g3 -> keeps g1 g3.
Proof.
  intros H1 H2 p Hp. destruct (H1 p Hp) as [Hs Hv].
  destruct (H2 p) as [Hs' Hv']; [by rewrite Hs|]. split; congruence.
Qed.

(** ** Changes that do not matter *)

Lemma pinv_same k run g g' p x :
  microtasks g' = microtasks g -> wrappers g' = wrappers g -> trace g' = trace g ->
  pinv k run g p x -> pinv k run g' p x.
Proof.
  intros Hm Hw Ht [H1 H2 H3 H4 H5 H6 H7].
  split; unfold tokens, registered, ran in *; rewrite ?Hm, ?Hw, ?Ht; done.
Qed.

Lemma fresh_ginv k run g :
  ginv k run g -> ginv k run (newPromiseCapability g).2 /\ keeps g (newPromiseCapability g).2.
Proof.
  intros H. split.
  - intros p. rewrite promise_at_fresh. apply (pinv_same _ _ g); [done..|apply H].
  - intros p Hp. by rewrite promise_at_fresh.
Qed.

(** A change of a promise that leaves the fields of the invariant alone. *)
Definition harmless (f : promise -> promise) : Prop :=
  forall x, p_c (f x) = p_c x /\ p_s (f x) = p_s x /\ p_d (f x) = p_d x /\ p_v (f x) = p_v x
            /\ p_n (f x) = p_n x.

Lemma promise_at_out f p g :
  (length (promises g) <= p)%nat -> forall q, promise_at (on_promise f p g) q = promise_at g q.
Proof.
  intros Hp q. unfold promise_at, on_promise. simpl.
  destruct (decide (p = q)) as [<-|Hne]; [|by rewrite list_lookup_alter_ne].
  rewrite list_lookup_alter_eq. by rewrite (lookup_ge_None_2 (promises g)).
Qed.

Lemma harmless_ginv f p k run g :
  harmless f -> ginv k run g -> ginv k run (on_promise f p g) /\ keeps g (on_promise f p g).
Proof.
  intros Hf H. destruct (Nat.lt_ge_cases p (length (promises g))) as [Hp|Hp].
  - split; intros q; rewrite promise_at_on by done; destruct (Nat.eqb_spec p q) as [<-|Hne].
    + destruct (Hf (promise_at g p)) as (Hc & Hs & Hd & Hv & Hn).
      destruct (H p) as [H1 H2 H3 H4 H5 H6 H7].
      split; unfold tokens in *; rewrite ?Hc, ?Hs, ?Hd, ?Hv, ?Hn; done.
    + apply (pinv_same _ _ g); [done..|apply H].
    + destruct (Hf (promise_at g p)) as (Hc & Hs & Hd & Hv & Hn). by rewrite Hs, Hv.
    + done.
  - split; intros q; rewrite promise_at_out by done; [|done]. apply (pinv_same _ _ g); [done..|apply H].
Qed.

Lemma harmless_h n : harmless (with_h n).
Proof. by intros x. Qed.
Lemma harmless_a a : harmless (with_a a).
Proof. by intros x. Qed.

(** ** Taking a token *)

Lemma count_alter_open (ws : list (nat * bool)) w p q :
  ws !! w = Some (p, false) ->
  (count (open_for q) (alter (fun x => (x.1, true)) w ws) + (if (p =? q)%nat then 1 else 0)
   = count (open_for q) ws)%nat.
Proof.
  revert w. induction ws as [|x ws IH]; intros w; [done|]. destruct w as [|w]; simpl.
  - intros [= ->]. rewrite !count_cons. unfold open_for. simpl.
    destruct (p =? q)%nat; simpl; lia.
  - intros Hw. specialize (IH w Hw). unfold alter in IH. rewrite !count_cons. lia.
Qed.

Lemma count_alter_adopts (ws : list (nat * bool)) w q x :
  ws !! w = Some x -> open_for q x = true -> (1 <= count (open_for q) ws)%nat.
Proof.
  revert w. induction ws as [|y ws IH]; intros w; [done|]. destruct w as [|w]; simpl.
  - intros [= ->] Hq. rewrite count_cons, Hq. lia.
  - intros Hw Hq. rewrite count_cons. specialize (IH w Hw Hq). lia.
Qed.

(** The resolving functions of a promise that can still be called hold its
    token. *)
Lemma mark_done_ginv t run g :
  is_done t g = false -> ginv one run g ->
  ginv (all_but (owner t g)) run (mark_done t g)
  /\ (owner t g < length (promises (mark_done t g)))%nat
  /\ keeps g (mark_done t g).
Proof.
  intros Hd H. destruct t as [p|w]; simpl in *.
  - destruct (promises g !! p) as [x|] eqn:Hx; [|done].
    assert (Hp : (p < length (promises g))%nat) by by apply lookup_lt_Some in Hx.
    assert (Hat : promise_at g p = x) by (unfold promise_at; by rewrite Hx).
    split_and!; [|by rewrite length_alter|].
    + intros q. rewrite promise_at_on by done. unfold all_but.
      destruct (Nat.eqb_spec p q) as [<-|Hne]; [|apply (pinv_same _ _ g); [done..|apply H]].
      destruct (H p) as [H1 H2 H3 H4 H5 H6 H7]. rewrite Hat in *. unfold one, tokens in H1.
      rewrite Hd in H1. split; try done. unfold tokens. simpl. lia.
    + intros q. rewrite promise_at_on by done. by destruct (Nat.eqb_spec p q) as [<-|].
  - destruct (wrappers g !! w) as [[p d]|] eqn:Hw; [|done]. subst d.
    assert (Hp : (p < length (promises g))%nat).
    { destruct (Nat.lt_ge_cases p (length (promises g))) as [|Hge]; [done|].
      pose proof (pinv_token _ _ _ _ _ (H p)) as Ht. unfold promise_at in Ht.
      rewrite (lookup_ge_None_2 (promises g)) in Ht by done. unfold tokens, one in Ht. simpl in Ht.
      pose proof (count_alter_adopts _ w p _ Hw) as Hc. unfold open_for in Hc at 1. simpl in Hc.
      rewrite Nat.eqb_refl in Hc. specialize (Hc eq_refl). lia. }
    split_and!; [|done|].
    + intros q. change (promise_at _ q) with (promise_at g q).
      destruct (H q) as [H1 H2 H3 H4 H5 H6 H7]. split; try done.
      unfold tokens, one, all_but in *. simpl.
      pose proof (count_alter_open (wrappers g) w p q Hw).
      destruct (p =? q)%nat; lia.
    + by intros q.
Qed.

(** ** Settling *)

(** The page in which the promise [p] was settled. *)
Record settles (p : nat) (g g1 : page) : Prop := {
  settles_bound : (p < length (promises g1))%nat;
  settles_microtasks : microtasks g1 = microtasks g;
  settles_wrappers : wrappers g1 = wrappers g;
  settles_trace : trace g1 = trace g;
  settles_others : forall q, p <> q -> promise_at g1 q = promise_at g q;
  settles_fields : p_c (promise_at g1 p) = p_c (promise_at g p)
    /\ p_d (promise_at g1 p) = p_d (promise_at g p) /\ p_n (promise_at g1 p) = p_n (promise_at g p)
    /\ p_s (promise_at g1 p) <> 0
}.

Lemma promise_at_notify p isReject g q :
  (p < length (promises g))%nat -> p_n (promise_at g p) = false ->
  promise_at (notify p isReject g) q
  = if (p =? q)%nat then with_n true (promise_at g p) else promise_at g q.
Proof. intros Hp Hn. unfold notify. rewrite Hn. by apply (promise_at_on (with_n true) p g q). Qed.

Lemma settled_ginv p isReject run g g1 :
  ginv (all_but p) run g -> settles p g g1 ->
  ginv one run (notify p isReject g1) /\ keeps g (notify p isReject g1).
Proof.
  intros H [Hp Hm Hw Ht Ho (Hc & Hd & Hn & Hs)].
  pose proof (H p) as [T1 T2 T3 T4 T5 T6 T7]. unfold all_but in T1. rewrite Nat.eqb_refl in T1.
  assert (Hs0 : p_s (promise_at g p) = 0).
  { unfold tokens in T1. destruct (Z.eqb_spec (p_s (promise_at g p)) 0); [done|lia]. }
  rewrite (T3 Hs0) in T2, Hn.
  assert (Hq : forall q, promise_at (notify p isReject g1) q
    = if (p =? q)%nat then with_n true (promise_at g1 p) else promise_at g q).
  { intros q. rewrite promise_at_notify by done. destruct (Nat.eqb_spec p q); auto. }
  assert (Hmicro : microtasks (notify p isReject g1) = microtasks g ++ [JNotify p isReject]).
  { unfold notify. rewrite Hn. simpl. by rewrite Hm. }
  assert (Hwrap : wrappers (notify p isReject g1) = wrappers g) by (unfold notify; by rewrite Hn).
  assert (Htrace : trace (notify p isReject g1) = trace g) by (unfold notify; by rewrite Hn).
  split.
  - intros q. rewrite Hq. destruct (Nat.eqb_spec p q) as [<-|Hne].
    + split; unfold tokens, one, registered, ran in *; simpl; rewrite ?Hmicro, ?Hwrap, ?Htrace, ?Hc, ?Hd;
        rewrite ?count_app, ?count_cons; simpl; rewrite ?Nat.eqb_refl; try done.
      * destruct (Z.eqb_spec (p_s (promise_at g1 p)) 0); [done|].
        rewrite Hs0 in T1. simpl in T1. unfold count in *. simpl. lia.
      * unfold count in *. simpl. lia.
      * intros r s v Hr. destruct (T7 r s v Hr) as (? & ? & _). congruence.
    + destruct (H q) as [H1 H2 H3 H4 H5 H6 H7]. unfold all_but in H1.
      rewrite (proj2 (Nat.eqb_neq p q) Hne) in H1.
      split; unfold tokens, one, registered, ran in *; rewrite ?Hmicro, ?Hwrap, ?Htrace;
        rewrite ?count_app, ?count_cons; simpl; rewrite ?(proj2 (Nat.eqb_neq p q) Hne); try done;
        unfold count in *; simpl; lia.
  - intros q Hq0. rewrite Hq. destruct (Nat.eqb_spec p q) as [<-|Hne]; [congruence|done].
Qed.

Lemma settle_settles p s v g :
  (p < length (promises g))%nat -> s <> 0 -> settles p g (on_promise (with_settled s v) p g).
Proof.
  intros Hp Hs. split; try done.
  - by rewrite length_on_promise.
  - intros q Hq. rewrite promise_at_on by done. by rewrite (proj2 (Nat.eqb_neq p q) Hq).
  - rewrite promise_at_on by done. by rewrite Nat.eqb_refl.
Qed.

Lemma settles_harmless p g g1 f :
  settles p g g1 -> harmless f -> settles p g (on_promise f p g1).
Proof.
  intros [H1 H2 H3 H4 H5 (H6 & H7 & H8 & H9)] Hf. split; try done.
  - by rewrite length_on_promise.
  - intros q Hq. rewrite promise_at_on by done. rewrite (proj2 (Nat.eqb_neq p q) Hq). auto.
  - rewrite promise_at_on by done. rewrite Nat.eqb_refl.
    destruct (Hf (promise_at g1 p)) as (-> & -> & -> & _ & ->). done.
Qed.

Lemma reject_promise_ginv p v run g :
  ginv (all_but p) run g -> (p < length (promises g))%nat ->
  ginv one run (reject_promise p v g) /\ keeps g (reject_promise p v g).
Proof.
  intros H Hp. unfold reject_promise. apply settled_ginv; [done|].
  assert (Hset : settles p g (on_promise (with_settled 2 v) p g)) by by apply settle_settles.
  case_match; [done|]. apply settles_harmless; [done|]. by intros x.
Qed.

Lemma reject_ginv t v run g :
  ginv one run g -> ginv one run (_reject t v g) /\ keeps g (_reject t v g).
Proof.
  intros H. unfold _reject. destruct (is_done t g) eqn:Hd; [split; [done|apply keeps_refl]|].
  destruct (mark_done_ginv t run g Hd H) as (H1 & Hp & Hk).
  destruct (reject_promise_ginv _ v _ _ H1 Hp) as [H2 Hk2]. split; [done|].
  by eapply keeps_trans.
Qed.

(** The token of [p] goes to a microtask. *)
Lemma adopt_ginv p v run g :
  ginv (all_but p) run g -> ginv one run (microtask (JThenable p v) g).
Proof.
  intros H q. change (promise_at _ q) with (promise_at g q).
  destruct (H q) as [H1 H2 H3 H4 H5 H6 H7]. unfold all_but, tokens in H1.
  split; unfold tokens, one; simpl; rewrite ?count_app, ?count_cons; simpl; try done;
    unfold count in *; simpl; destruct (p =? q)%nat; lia.
Qed.

Lemma resolve_ginv t v run g :
  ginv one run g -> ginv one run (_resolve t v g) /\ keeps g (_resolve t v g).
Proof.
  intros H. unfold _resolve. destruct (is_done t g) eqn:Hd; [split; [done|apply keeps_refl]|].
  destruct (mark_done_ginv t run g Hd H) as (H1 & Hp & Hk). cbv zeta.
  destruct (is_promise v (owner t g)).
  { destruct (reject_promise_ginv _ (AnError (js "Promise can't be resolved itself")) _ _ H1 Hp)
      as [H2 Hk2]. split; [done|]. by eapply keeps_trans. }
  destruct (isThenable v); [split; [by apply adopt_ginv|exact Hk]|].
  destruct (settled_ginv (owner t g) false run _ _ H1 (settle_settles _ 1 v _ Hp ltac:(done)))
    as [H2 Hk2]. split; [done|]. by eapply keeps_trans.
Qed.

(** ** Registering a reaction *)

(** The promise with one more reaction. *)
Definition with_reaction (r : reaction) (x : promise) : promise :=
  let x := with_c (p_c x ++ [r]) x in
  match p_a x with Some a => with_a (Some (a ++ [r])) x | None => x end.

Lemma with_reaction_fields r x :
  p_c (with_reaction r x) = p_c x ++ [r] /\ p_s (with_reaction r x) = p_s x
  /\ p_d (with_reaction r x) = p_d x /\ p_v (with_reaction r x) = p_v x
  /\ p_n (with_reaction r x) = p_n x.
Proof. unfold with_reaction. simpl. by destruct (p_a x). Qed.

(** What [then] does before it notifies. *)
Lemma then_page p ok fail g :
  (p < length (promises g))%nat ->
  exists g1, then_ p ok fail g
    = (length (promises g), if p_s (promise_at g1 p) =? 0 then g1 else notify p false g1)
    /\ (p < length (promises g1))%nat /\ microtasks g1 = microtasks g /\ wrappers g1 = wrappers g
    /\ trace g1 = trace g ++ [Registered p (length (promises g))]
    /\ forall q, promise_at g1 q
         = if (p =? q)%nat then with_reaction (mkReaction (length (promises g)) ok fail) (promise_at g p)
           else promise_at g q.
Proof.
  intros Hp. unfold then_. cbn [newPromiseCapability]. eexists. split; [reflexivity|].
  set (g0 := set_promises (promises g ++ [Internal]) g).
  assert (Hat : forall q, promise_at g0 q = promise_at g q) by apply promise_at_fresh.
  assert (Hp0 : (p < length (promises g0))%nat) by (unfold g0; simpl; rewrite length_app; lia).
  split_and!; try done.
  - simpl. rewrite !length_alter. exact Hp0.
  - intros q. unfold promise_at at 1. cbn [promises note].
    fold (promise_at (on_promise (fun x => match p_a x with
      | Some a => with_a (Some (a ++ [mkReaction (length (promises g)) ok fail])) x
      | None => x end) p (on_promise (fun x => with_c (p_c x ++ [mkReaction (length (promises g)) ok fail]) x) p g0)) q).
    rewrite promise_at_on by by rewrite length_on_promise.
    destruct (Nat.eqb_spec p q) as [<-|Hne].
    + rewrite promise_at_on by done. rewrite Nat.eqb_refl, Hat. reflexivity.
    + rewrite promise_at_on by done. rewrite (proj2 (Nat.eqb_neq p q) Hne). apply Hat.
Qed.

(** The invariant up to the notification that may be due for [p]. *)
Lemma registered_pinv p r run g g1 :
  ginv one run g -> microtasks g1 = microtasks g -> wrappers g1 = wrappers g ->
  trace g1 = trace g ++ [Registered p (r_promise r)] ->
  (forall q, promise_at g1 q = if (p =? q)%nat then with_reaction r (promise_at g p)
                               else promise_at g q) ->
  p_s (promise_at g p) = 0 \/ p_n (promise_at g p) = true -> ginv one run g1.
Proof.
  intros H Hm Hw Ht Hat Hq q. rewrite Hat.
  assert (Hreg : registered q g1 = registered q g ++ registered_of q (Registered p (r_promise r))
    /\ ran q g1 = ran q g /\ forall x s v, Ran q x s v ∈ trace g1 -> Ran q x s v ∈ trace g).
  { unfold registered, ran. rewrite Ht, !fmap_app, !concat_app. simpl. rewrite !app_nil_r.
    split_and!; try done. intros x s v [?|Hx]%elem_of_app; [done|].
    by apply list_elem_of_singleton in Hx. }
  destruct Hreg as (Hreg & Hran & Hin). destruct (H q) as [H1 H2 H3 H4 H5 H6 H7].
  simpl in Hreg. destruct (decide (p = q)) as [Heq|Hne];
    [subst q; rewrite Nat.eqb_refl in *|rewrite (proj2 (Nat.eqb_neq p q) Hne) in *].
  - destruct (with_reaction_fields r (promise_at g p)) as (Fc & Fs & Fd & Fv & Fn).
    split; unfold tokens in *; rewrite ?Hm, ?Hw, ?Fc, ?Fs, ?Fd, ?Fv, ?Fn; try done.
    + intros Hs _. by destruct Hq.
    + rewrite Hreg, Hran, H5, drop_app_le, fmap_app, app_assoc by done. done.
    + rewrite length_app. lia.
    + intros x s v Hx. by eapply H7, Hin.
  - split; unfold tokens in *; rewrite ?Hm, ?Hw, ?Hreg, ?Hran, ?app_nil_r; try done.
    intros x s v Hx. by eapply H7, Hin.
Qed.

(** A notification for a promise that is settled. *)
Lemma notify_ginv p isReject run g :
  (p < length (promises g))%nat -> p_s (promise_at g p) <> 0 -> p_n (promise_at g p) = false ->
  ginv one run g -> ginv one run (notify p isReject g) /\ keeps g (notify p isReject g).
Proof.
  intros Hp Hs Hn H. split; intros q; rewrite promise_at_notify by done;
    [|by destruct (Nat.eqb_spec p q) as [<-|Hne]].
  destruct (Nat.eqb_spec p q) as [<-|Hne].
  - destruct (H p) as [H1 H2 H3 H4 H5 H6 H7]. rewrite Hn in H2. unfold notify. rewrite Hn.
    split; unfold tokens in *; simpl; rewrite ?count_app, ?count_cons; simpl;
      rewrite ?Nat.eqb_refl; try done; unfold count in *; simpl; lia.
  - destruct (H q) as [H1 H2 H3 H4 H5 H6 H7]. unfold notify. rewrite Hn.
    split; unfold tokens in *; simpl; rewrite ?count_app, ?count_cons; simpl;
      rewrite ?(proj2 (Nat.eqb_neq p q) Hne); try done; unfold count in *; simpl; lia.
Qed.

Lemma then_ginv p ok fail run g :
  ginv one run g -> (p < length (promises g))%nat ->
  ginv one run (then_ p ok fail g).2 /\ keeps g (then_ p ok fail g).2.
Proof.
  intros H Hp. destruct (then_page p ok fail g Hp) as (g1 & -> & Hp1 & Hm & Hw & Ht & Hat).
  set (r := mkReaction _ ok fail) in *. cbn [snd].
  pose proof (Hat p) as Hatp. rewrite Nat.eqb_refl in Hatp.
  destruct (with_reaction_fields r (promise_at g p)) as (Fc & Fs & Fd & Fv & Fn).
  assert (Hk : keeps g g1).
  { intros q Hq. rewrite Hat. destruct (Nat.eqb_spec p q) as [<-|]; [|done]. by rewrite Fs, Fv. }
  rewrite Hatp, Fs. destruct (Z.eqb_spec (p_s (promise_at g p)) 0) as [Hs|Hs].
  { split; [|done]. apply (registered_pinv p r run g); auto. }
  destruct (p_n (promise_at g p)) eqn:Hn.
  { assert (notify p false g1 = g1) as -> by (unfold notify; by rewrite Hatp, Fn).
    split; [|done]. apply (registered_pinv p r run g); auto. }
  destruct (notify_ginv p false run g Hp Hs Hn H) as [H' _].
  assert (Hn1 : p_n (promise_at g1 p) = false) by by rewrite Hatp, Fn.
  split.
  - apply (registered_pinv p r run (notify p false g)); try done.
    + unfold notify. rewrite Hn, Hn1. simpl. by rewrite Hm.
    + unfold notify. rewrite Hn, Hn1. simpl. by rewrite Hw.
    + unfold notify. rewrite Hn, Hn1. simpl. by rewrite Ht.
    + intros q. rewrite !promise_at_notify by done. rewrite Nat.eqb_refl, Hat, Nat.eqb_refl.
      rewrite Hat. destruct (p =? q)%nat; [|done]. unfold with_reaction. simpl.
      by destruct (p_a (promise_at g p)).
    + right. rewrite promise_at_notify by done. by rewrite Nat.eqb_refl.
  - intros q Hq. rewrite promise_at_notify by done. destruct (Nat.eqb_spec p q) as [<-|Hne].
    + simpl. rewrite Hatp, Fs, Fv. done.
    + by apply Hk.
Qed.

(** ** User code *)

(** The invariant is kept and settled promises stay as they are. *)
Definition good (run : option (nat * nat * bool)) (g g' : page) : Prop :=
  ginv one run g' /\ keeps g g'.

Lemma good_trans run g1 g2 g3 :
  good run g1 g2 -> (ginv one run g2 -> good run g2 g3) -> good run g1 g3.
Proof. intros [H Hk] H2. destruct (H2 H) as [H3 Hk3]. split; [done|by eapply keeps_trans]. Qed.

Lemma good_refl run g : ginv one run g -> good run g g.
Proof. intros H. split; [done|apply keeps_refl]. Qed.

(** Pages that differ only in tasks and cells. *)
Lemma good_same run g g' :
  ginv one run g -> promises g' = promises g -> microtasks g' = microtasks g ->
  wrappers g' = wrappers g -> trace g' = trace g -> good run g g'.
Proof.
  intros H Hp Hm Hw Ht. assert (Hat : forall q, promise_at g' q = promise_at g q).
  { intros q. unfold promise_at. by rewrite Hp. }
  split; intros q; rewrite Hat; [|done]. by apply (pinv_same _ _ g).
Qed.

Lemma exec_good run c g : ginv one run g -> good run g (exec c g).2.
Proof.
  revert g. induction c as [v|v|ex IHe k IHk|t v k IH|t v k IH|p ok fail k IH|v k IH|i k IH|i v k IH];
    intros g H; cbn [exec]; try by apply good_refl.
  - destruct (newPromiseCapability g) as [p g1] eqn:Hnew.
    assert (H1 : good run g g1).
    { pose proof (fresh_ginv one run g H) as Hf. by rewrite Hnew in Hf. }
    destruct (exec (ex p) g1) as [r g2] eqn:Hex.
    eapply good_trans; [exact H1|]. intros Hg1.
    assert (H2 : good run g1 g2) by (pose proof (IHe p g1 Hg1) as He; by rewrite Hex in He).
    eapply good_trans; [exact H2|]. intros Hg2. destruct r as [v|e]; [by apply IHk|].
    eapply good_trans; [exact (reject_ginv (Own p) e run g2 Hg2)|]. intros Hg3. by apply IHk.
  - eapply good_trans; [exact (resolve_ginv t v run g H)|]. apply IH.
  - eapply good_trans; [exact (reject_ginv t v run g H)|]. apply IH.
  - destruct (Nat.ltb_spec p (length (promises g))) as [Hp|]; [|by apply good_refl].
    pose proof (then_ginv p ok fail run g H Hp) as Ht.
    destruct (then_ p ok fail g) as [r g1]. eapply good_trans; [exact Ht|]. apply IH.
  - eapply good_trans; [by eapply (good_same run g (set_cells (cells g ++ [v]) g))|]. apply IH.
  - by apply IH.
  - eapply good_trans; [by eapply (good_same run g (set_cells (<[i:=v]> (cells g)) g))|]. apply IH.
Qed.

Lemma harmless_good run f p g :
  harmless f -> ginv one run g -> good run g (on_promise f p g).
Proof. intros Hf H. by apply harmless_ginv. Qed.

Lemma add_task_good run t g : ginv one run g -> good run g (add_task t g).
Proof. intros H. by apply good_same. Qed.

Section loop.
Variable foreign : nat -> target -> target -> code.
Variable onunhandledrejection : option (nat -> pvalue -> code).
Variable onrejectionhandled : option (nat -> pvalue -> code).

Lemma call_then_good run v t g : ginv one run g -> good run g (call_then foreign v t g).2.
Proof.
  intros H. destruct v as [|z|m|p|f|vs]; cbn [call_then]; try by apply good_refl.
  - destruct (Nat.ltb_spec p (length (promises g))) as [Hp|]; [|by apply good_refl].
    pose proof (then_ginv p (Some (resolving t)) (Some (rejecting t)) run g H Hp) as Ht.
    by destruct (then_ p _ _ g) as [r g1].
  - by apply exec_good.
Qed.

(** A call of user code that may throw, after which the promise of the reaction
    or the wrapper is rejected. *)
Lemma caught_good run (r : completion * page) t g :
  good run g r.2 ->
  good run g (match r with (Abrupt e, g) => _reject t e g | (Normal _, g) => g end).
Proof.
  intros H. destruct r as [[v|e] g']; [done|]. eapply good_trans; [exact H|]. apply reject_ginv.
Qed.

(** ** Running a reaction *)

Lemma note_ran_ginv p i isReject r g :
  ginv one (Some (p, i, isReject)) g -> p_c (promise_at g p) !! i = Some r ->
  good (Some (p, S i, isReject)) g
    (note (Ran p (r_promise r) (p_s (promise_at g p)) (p_v (promise_at g p))) g).
Proof.
  intros H Hr. split; [|by intros q]. intros q. change (promise_at (note _ g) q) with (promise_at g q).
  set (h := Ran p (r_promise r) _ _). destruct (H q) as [H1 H2 H3 H4 H5 H6 H7].
  assert (Hin : forall x s v, Ran q x s v ∈ trace (note h g) ->
    Ran q x s v ∈ trace g \/ Ran q x s v = h).
  { intros x s v [?|Hx]%elem_of_app; [by left|]. right. by apply list_elem_of_singleton in Hx. }
  split; try done; rewrite ?registered_note, ?ran_note; simpl in *.
  - destruct (decide (p = q)) as [Heq|Hne].
    + subst q. rewrite Nat.eqb_refl in *. rewrite app_nil_r, H5, <- app_assoc.
      rewrite (drop_S _ r i Hr). done.
    + rewrite (proj2 (Nat.eqb_neq p q) Hne) in *. by rewrite !app_nil_r.
  - destruct (p =? q)%nat eqn:Heq; [|done]. apply Nat.eqb_eq in Heq. subst q.
    apply lookup_lt_Some in Hr. lia.
  - intros x s v [Hx|Hx]%Hin; [by eapply H7|]. injection Hx as -> -> -> ->.
    split; [|done]. intros Hs. rewrite Nat.eqb_refl, (H3 Hs) in H2. lia.
Qed.

Lemma settle_with_good run r v g : ginv one run g -> good run g (settle_with foreign r v g).
Proof.
  intros H. unfold settle_with. case_match; [by apply reject_ginv|].
  case_match; [|by apply resolve_ginv]. by apply caught_good, call_then_good.
Qed.

Lemma run_handler_good run r hd v g :
  ginv one run g -> good run g (run_handler foreign r hd v g).
Proof.
  intros H. unfold run_handler. pose proof (exec_good run (hd v) g H) as He.
  destruct (exec _ g) as [[x|e] g']; (eapply good_trans; [exact He|]);
    [apply settle_with_good|apply reject_ginv].
Qed.

Lemma run_reaction_good p i isReject r g :
  ginv one (Some (p, i, isReject)) g -> p_c (promise_at g p) !! i = Some r ->
  good (Some (p, S i, isReject)) g (run_reaction foreign p r g).
Proof.
  intros H Hr. pose proof (note_ran_ginv _ _ _ _ _ H Hr) as Hnote. unfold run_reaction.
  set (g1 := note _ g) in *. cbv zeta. set (run := Some (p, S i, isReject)) in *.
  apply (good_trans run g g1); [exact Hnote|]. intros Hg1. case_match; [case_match; [by apply run_handler_good|by apply settle_with_good]|].
  case_match; [|by apply reject_ginv].
  apply (good_trans _ _ (if p_h (promise_at g1 p) =? 2 then add_task (THandled p) g1 else g1)).
  { case_match; [by apply add_task_good|by apply good_refl]. }
  intros H2. eapply good_trans; [by apply (harmless_good _ (with_h 1) p); [apply harmless_h|]|].
  intros H3. by apply run_handler_good.
Qed.

(** ** The end of a notification *)

Lemma running_exists p i isReject g :
  ginv one (Some (p, i, isReject)) g -> (p < length (promises g))%nat /\ p_n (promise_at g p) = true.
Proof.
  intros H. pose proof (pinv_notify _ _ _ _ _ (H p)) as Hn. simpl in Hn.
  rewrite Nat.eqb_refl in Hn. destruct (p_n (promise_at g p)) eqn:E; [|lia]. split; [|done].
  destruct (Nat.lt_ge_cases p (length (promises g))) as [|Hge]; [done|].
  unfold promise_at in E. by rewrite (lookup_ge_None_2 (promises g)) in E.
Qed.

Lemma end_notification_good p i isReject g :
  ginv one (Some (p, i, isReject)) g -> p_c (promise_at g p) !! i = None ->
  good None g (end_notification p isReject g).
Proof.
  intros H Hr. destruct (running_exists _ _ _ _ H) as [Hp Hn]. unfold end_notification.
  set (f := fun x => with_n false (with_c [] x)).
  assert (Hg1 : good None g (on_promise f p g)).
  { split; intros q; rewrite promise_at_on by done.
    - destruct (H q) as [H1 H2 H3 H4 H5 H6 H7]. destruct (decide (p = q)) as [Heq|Hne].
      + subst q. simpl in *. rewrite Nat.eqb_refl in *. apply lookup_ge_None in Hr.
        split; try done; unfold tokens in *; simpl in *.
        * rewrite Hn in H2. lia.
        * rewrite drop_ge in H5 by lia. exact H5.
      + rewrite (proj2 (Nat.eqb_neq p q) Hne). simpl in H2, H5, H6.
        rewrite (proj2 (Nat.eqb_neq p q) Hne) in *.
        apply (pinv_same _ _ g); [done..|]. split; done.
    - by destruct (Nat.eqb_spec p q) as [<-|]. }
  case_match; [|exact Hg1]. eapply good_trans; [exact Hg1|]. apply add_task_good.
Qed.

(** ** The other microtasks and the tasks *)

(** The token of [p] goes from the microtask to the wrapper. *)
Lemma run_thenable_good p v js g :
  ginv one None g -> microtasks g = JThenable p v :: js ->
  good None g (run_thenable foreign p v (set_microtasks js g)).
Proof.
  intros H Hj. unfold run_thenable. apply caught_good.
  apply (good_trans _ _ (set_wrappers (wrappers g ++ [(p, false)]) (set_microtasks js g)));
    [|intros H1; by apply call_then_good].
  split; [|by intros q]. intros q. change (promise_at _ q) with (promise_at g q).
  destruct (H q) as [H1 H2 H3 H4 H5 H6 H7]. unfold tokens, one in *. rewrite Hj in *.
  rewrite !count_cons in *. simpl in *.
  split; unfold tokens; simpl; rewrite ?count_app, ?count_cons; try done.
  unfold open_for at 2. simpl. rewrite andb_true_r. unfold count in *. simpl.
  destruct (p =? q)%nat; lia.
Qed.

Lemma start_notification_good p isReject js g :
  ginv one None g -> microtasks g = JNotify p isReject :: js ->
  good (Some (p, 0%nat, isReject)) g (set_microtasks js g).
Proof.
  intros H Hj. split; [|by intros q]. intros q. change (promise_at _ q) with (promise_at g q).
  destruct (H q) as [H1 H2 H3 H4 H5 H6 H7]. unfold tokens, one in *. rewrite Hj in *.
  rewrite !count_cons in *. simpl in *. split; unfold tokens; simpl; try done.
  - destruct (p =? q)%nat; lia.
  - transitivity (registered q g); [done|]. rewrite H5. by destruct (p =? q)%nat.
  - destruct (p =? q)%nat; lia.
Qed.

Lemma run_task_good t g :
  ginv one None g -> good None g (run_task onunhandledrejection onrejectionhandled t g).
Proof.
  intros H. destruct t as [p|p]; simpl.
  - match goal with |- good None g (on_promise _ p ?g') => apply (good_trans None g g') end;
      [|intros H1; by apply harmless_good; [apply harmless_a|]].
    case_match; [|by apply good_refl].
    set (g1 := note (Reported p (p_v (promise_at g p))) g).
    assert (H1 : good None g g1).
    { split; [|by intros q]. intros q. change (promise_at g1 q) with (promise_at g q).
      destruct (H q) as [H1 H2 H3 H4 H5 H6 H7].
      split; try done; unfold g1; rewrite ?registered_note, ?ran_note; simpl; rewrite ?app_nil_r; try done.
      intros r s v [Hx|Hx]%elem_of_app; [by eapply H7|]. by apply list_elem_of_singleton in Hx. }
    eapply good_trans; [exact H1|]. intros Hg1.
    match goal with |- good None g1 (on_promise _ p ?g') => apply (good_trans None g1 g') end;
      [|intros H2; by apply harmless_good; [apply harmless_h|]].
    case_match; [by apply exec_good|by apply good_refl].
  - case_match; [by apply exec_good|by apply good_refl].
Qed.

(** ** Every reachable state *)

Abbreviation step := (step foreign onunhandledrejection onrejectionhandled).
Abbreviation evolves := (evolves foreign onunhandledrejection onrejectionhandled).
Abbreviation reached := (reached foreign onunhandledrejection onrejectionhandled).

Definition minv (m : machine) : Prop := ginv one m.2 m.1.

Lemma evolves_minv m m' : minv m -> evolves m m' -> minv m' /\ keeps m.1 m'.1.
Proof.
  intros H He. destruct He as [[g run] m' Hs|g c]; last by apply exec_good.
  unfold minv in *. simpl in *. destruct run as [[[p i] isReject]|].
  - destruct (p_c (promise_at g p) !! i) as [r|] eqn:Hr; injection Hs as <-.
    + by apply run_reaction_good.
    + by eapply end_notification_good.
  - destruct (microtasks g) as [|[p isReject|p v] js] eqn:Hj.
    + destruct (tasks g) as [|t ts]; [done|]. injection Hs as <-. simpl.
      eapply good_trans; [by apply (good_same None g (set_tasks ts g))|]. by apply run_task_good.
    + injection Hs as <-. by apply start_notification_good.
    + injection Hs as <-. by apply run_thenable_good.
Qed.

Lemma reached_minv m : reached m -> minv m.
Proof.
  induction 1 as [|m m' _ IH He]; [|by eapply evolves_minv].
  intros p. split; try done. by intros r s v ?%elem_of_nil.
Qed.

Lemma evolves_star_keeps m m' : minv m -> rtc evolves m m' -> minv m' /\ keeps m.1 m'.1.
Proof.
  intros Hm Hr. induction Hr as [m|m1 m2 m3 He _ IH]; [by split; [|apply keeps_refl]|].
  destruct (evolves_minv _ _ Hm He) as [H2 Hk]. destruct (IH H2) as [H3 Hk3].
  split; [done|]. by eapply keeps_trans.
Qed.
End loop.

(** ** Theorems *)

(** C4: a promise settles once: in whatever way the page goes on from a reachable
    state, a promise that is fulfilled or rejected keeps its state and its
    value. *)
Theorem promise_settles_once foreign onun onre m m' p :
  reached foreign onun onre m -> rtc (evolves foreign onun onre) m m' ->
  p_s (promise_at m.1 p) <> 0 ->
  p_s (promise_at m'.1 p) = p_s (promise_at m.1 p)
  /\ p_v (promise_at m'.1 p) = p_v (promise_at m.1 p).
Proof.
  intros Hm Hr Hs.
  destruct (evolves_star_keeps _ _ _ _ _ (reached_minv _ _ _ _ Hm) Hr) as [_ Hk]. by apply Hk.
Qed.

(** C26: at every moment a promise has exactly one means of being settled: its own
    resolving functions were not called yet, or one microtask waits to adopt a
    thenable for it, or the resolving functions given to one thenable were not
    called yet, or it is settled. *)
Theorem one_way_to_settle foreign onun onre m p :
  reached foreign onun onre m ->
  ((if p_d (promise_at m.1 p) then 0 else 1) + count (adopts p) (microtasks m.1)
   + count (open_for p) (wrappers m.1) + (if (p_s (promise_at m.1 p) =? 0)%Z then 0 else 1) = 1)%nat.
Proof. intros Hm. exact (pinv_token _ _ _ _ _ (reached_minv _ _ _ _ Hm p)). Qed.

(** No reaction is forgotten: when the microtasks are done, every reaction that was
    registered on a settled promise has run. *)
Lemma no_reaction_forgotten foreign onun onre g p :
  reached foreign onun onre (g, None) -> microtasks g = [] ->
  p_s (promise_at g p) <> 0 -> ran p g = registered p g.
Proof.
  intros Hm Hj Hs. pose proof (reached_minv _ _ _ _ Hm p) as [_ Hn _ Hk Ho _ _].
  simpl in *. rewrite Hj in Hn. simpl in Hn.
  destruct (p_c (promise_at g p)) as [|r rs] eqn:Hc; [by rewrite Ho, app_nil_r|].
  rewrite Hk in Hn by done. done.
Qed.

(** C21: reactions run in the order in which they were registered, each at most
    once, with the state and the value the promise settled with; those that have
    not run are the ones the promise still holds.  None is forgotten: when the
    microtasks are done, every reaction of a settled promise has run. *)
Theorem reactions_in_order foreign onun onre m p :
  reached foreign onun onre m ->
  (registered p m.1
   = ran p m.1 ++ (r_promise <$> drop (passed m.2 p) (p_c (promise_at m.1 p))))
  /\ (forall r s v, Ran p r s v ∈ trace m.1 ->
     s <> 0 /\ p_s (promise_at m.1 p) = s /\ p_v (promise_at m.1 p) = v)
  /\ (m.2 = None -> microtasks m.1 = [] -> p_s (promise_at m.1 p) <> 0 -> ran p m.1 = registered p m.1).
Proof.
  intros Hm. pose proof (reached_minv _ _ _ _ Hm p) as H. split_and!.
  - exact (pinv_order _ _ _ _ _ H).
  - exact (pinv_values _ _ _ _ _ H).
  - destruct m as [g o]. simpl. intros ->. by apply (no_reaction_forgotten foreign onun onre).
Qed.

(** ** A run *)

Fixpoint steps foreign onun onre (n : nat) (m : machine) : machine :=
  match n with
  | O => m
  | S n' => match step foreign onun onre m with
            | Some m' => steps foreign onun onre n' m'
            | None => m
            end
  end.

Lemma steps_star foreign onun onre n m :
  rtc (evolves foreign onun onre) m (steps foreign onun onre n m).
Proof.
  revert m. induction n as [|n IH]; intros m; simpl; [apply rtc_refl|].
  destruct (step foreign onun onre m) as [m'|] eqn:Hs; [|apply rtc_refl].
  eapply rtc_l; [by apply evolves_step|apply IH].
Qed.

Lemma reached_star foreign onun onre m m' :
  reached foreign onun onre m -> rtc (evolves foreign onun onre) m m' -> reached foreign onun onre m'.
Proof. intros H Hr. induction Hr as [|m1 m2 m3 He _ IH]; [done|]. apply IH. by eapply reached_next. Qed.

(** A promise fulfilled with a number, with two reactions. *)
Definition demo_script : code :=
  NewPromise (fun p => CallResolve (Own p) (Number 5) (Return Undefined))
    (fun p => CallThen p (Some (fun v => Return v)) None
    (fun _ => CallThen p None None (fun r => Return (APromise r)))).

Definition no_thenables (t : nat) (a b : target) : code := Return Undefined.

Definition demo_start : machine := ((exec demo_script empty_page).2, None).
Definition demo_after (n : nat) : machine := steps no_thenables None None n demo_start.

Lemma demo_start_reached : reached no_thenables None None demo_start.
Proof. eapply reached_next; [apply reached_start|]. apply evolves_script. Qed.

Lemma demo_after_reached n : reached no_thenables None None (demo_after n).
Proof. eapply reached_star; [apply demo_start_reached|apply steps_star]. Qed.

Lemma promise_settles_once_witness :
  p_s (promise_at demo_start.1 0) = 1
  /\ p_s (promise_at (demo_after 9).1 0) = p_s (promise_at demo_start.1 0)
  /\ p_v (promise_at (demo_after 9).1 0) = p_v (promise_at demo_start.1 0).
Proof.
  split; [vm_compute; reflexivity|].
  apply (promise_settles_once no_thenables None None demo_start (demo_after 9) 0).
  - apply demo_start_reached.
  - apply steps_star.
  - vm_compute. discriminate.
Defined.

Lemma one_way_to_settle_witness :
  exists m, reached no_thenables None None m
    /\ ((if p_d (promise_at m.1 1) then 0 else 1) + count (adopts 1) (microtasks m.1)
        + count (open_for 1) (wrappers m.1) + (if (p_s (promise_at m.1 1) =? 0)%Z then 0 else 1)
        = 1)%nat.
Proof.
  exists (demo_after 2). split; [apply demo_after_reached|].
  apply (one_way_to_settle no_thenables None None (demo_after 2) 1). apply demo_after_reached.
Defined.

Lemma reactions_in_order_witness :
  registered 0 (demo_after 2).1 = [1%nat; 2%nat] /\ ran 0 (demo_after 2).1 = [1%nat]
  /\ registered 0 (demo_after 2).1
     = ran 0 (demo_after 2).1
       ++ (r_promise <$> drop (passed (demo_after 2).2 0) (p_c (promise_at (demo_after 2).1 0))).
Proof.
  split; [vm_compute; reflexivity|]. split; [vm_compute; reflexivity|].
  apply (reactions_in_order no_thenables None None (demo_after 2) 0). apply demo_after_reached.
Defined.

