(* ===== verification/LodashCache.v ===== *)
(** * lodash: the caches

    lodash looks values up by arbitrary keys in four layers.  [Hash] keeps
    property names in an object without prototype, [ListCache] keeps pairs in an
    array, [MapCache] sends a key to one of two hashes or to a [Map] (a
    [ListCache] where the engine has none), and [Stack] starts as a [ListCache]
    and becomes a [MapCache] when it grows.  [SetCache] and [memoize] are clients
    of [MapCache].

    The engine decides two things: whether there is a native [Object.create] and
    a native [Map].  Values have no symbols. *)

From S2P Require Import JsPrelude JsNumber JsValue.

(** ** Keys *)

(** [===]. *)
Definition strict_eq (a b : value) : bool :=
  match a, b with
  | VUndefined, VUndefined => true
  | VNull, VNull => true
  | VBool x, VBool y => Bool.eqb x y
  | VNumber x, VNumber y => num_eqb x y
  | VString x, VString y => jseqb x y
  | VRef x, VRef y => Nat.eqb x y
  | _, _ => false
  end.

Definition eq (value other : value) : bool :=
  strict_eq value other || negb (strict_eq value value) && negb (strict_eq other other).

Definition isKeyable (value : value) : bool :=
  match value with
  | VString s => negb (jseqb s (js "__proto__"))
  | VNumber _ | VBool _ => true
  | VNull => true
  | VUndefined | VRef _ => false
  end.

(** ** Hash *)

Definition HASH_UNDEFINED : value := VString (js "__lodash_hash_undefined__").

Record Hash : Type := mkHash {
  hash_data : list (jsstr * value);
  hash_size : Z
}.

Definition hashClear : Hash := mkHash [] 0.

Section hash.
Variable nativeCreate : bool.

Definition hashHas (key : jsstr) (c : Hash) : bool :=
  if nativeCreate
  then negb (strict_eq (default VUndefined (assoc_get (hash_data c) key)) VUndefined)
  else assoc_has (hash_data c) key.

Definition hashGet (key : jsstr) (c : Hash) : value :=
  if nativeCreate then
    let result := default VUndefined (assoc_get (hash_data c) key) in
    if strict_eq result HASH_UNDEFINED then VUndefined else result
  else if assoc_has (hash_data c) key then default VUndefined (assoc_get (hash_data c) key)
  else VUndefined.

Definition hashDelete (key : jsstr) (c : Hash) : bool * Hash :=
  let result := hashHas key c in
  (result,
   if result then mkHash (assoc_del (hash_data c) key) (hash_size c - 1)
   else mkHash (hash_data c) (hash_size c - 0)).

Definition hashSet (key : jsstr) (v : value) (c : Hash) : Hash :=
  mkHash (assoc_set (hash_data c) key
            (if nativeCreate && strict_eq v VUndefined then HASH_UNDEFINED else v))
         (hash_size c + (if hashHas key c then 0 else 1)).
End hash.

(** ** ListCache *)

Record ListCache : Type := mkListCache {
  list_data : list (value * value);
  list_size : Z
}.

Definition listCacheClear : ListCache := mkListCache [] 0.

(** The loop over [length], from the end of the array. *)
Fixpoint assoc_index (array : list (value * value)) (key : value) (length : nat) : option nat :=
  match length with
  | O => None
  | S length' =>
      match array !! length' with
      | Some (k, _) => if eq k key then Some length' else assoc_index array key length'
      | None => assoc_index array key length'
      end
  end.

(** [None] stands for -1. *)
Definition assocIndexOf (array : list (value * value)) (key : value) : option nat :=
  assoc_index array key (length array).

Definition listCacheGet (key : value) (c : ListCache) : value :=
  match assocIndexOf (list_data c) key with
  | None => VUndefined
  | Some index => default VUndefined (snd <$> list_data c !! index)
  end.

Definition listCacheHas (key : value) (c : ListCache) : bool :=
  match assocIndexOf (list_data c) key with Some _ => true | None => false end.

Definition listCacheSet (key v : value) (c : ListCache) : ListCache :=
  match assocIndexOf (list_data c) key with
  | None => mkListCache (list_data c ++ [(key, v)]) (list_size c + 1)
  | Some index => mkListCache (alter (fun p => (p.1, v)) index (list_data c)) (list_size c)
  end.

(** [pop] when the pair is the last, [splice(index, 1)] otherwise. *)
Definition listCacheDelete (key : value) (c : ListCache) : bool * ListCache :=
  match assocIndexOf (list_data c) key with
  | None => (false, c)
  | Some index =>
      let lastIndex := (length (list_data c) - 1)%nat in
      let data := if Nat.eqb index lastIndex then take lastIndex (list_data c)
                  else take index (list_data c) ++ drop (S index) (list_data c) in
      (true, mkListCache data (list_size c - 1))
  end.

(** ** The native Map

    Keys are the same when [eq] says so; a pair keeps its place. *)

Fixpoint map_get (key : value) (m : list (value * value)) : option value :=
  match m with
  | [] => None
  | (k, v) :: m' => if eq k key then Some v else map_get key m'
  end.

Fixpoint map_set (key v : value) (m : list (value * value)) : list (value * value) :=
  match m with
  | [] => [(key, v)]
  | (k, v') :: m' => if eq k key then (k, v) :: m' else (k, v') :: map_set key v m'
  end.

Definition map_delete (key : value) (m : list (value * value)) : list (value * value) :=
  List.filter (fun p => negb (eq (fst p) key)) m.

(** What [new (Map || ListCache)] makes. *)
Inductive MapData : Type :=
| ANativeMap (m : list (value * value))
| AListCache (c : ListCache).

Definition mapdata_get (key : value) (d : MapData) : value :=
  match d with
  | ANativeMap m => default VUndefined (map_get key m)
  | AListCache c => listCacheGet key c
  end.

Definition mapdata_has (key : value) (d : MapData) : bool :=
  match d with
  | ANativeMap m => match map_get key m with Some _ => true | None => false end
  | AListCache c => listCacheHas key c
  end.

Definition mapdata_set (key v : value) (d : MapData) : MapData :=
  match d with
  | ANativeMap m => ANativeMap (map_set key v m)
  | AListCache c => AListCache (listCacheSet key v c)
  end.

Definition mapdata_delete (key : value) (d : MapData) : bool * MapData :=
  match d with
  | ANativeMap m => (mapdata_has key d, ANativeMap (map_delete key m))
  | AListCache c => let '(r, c') := listCacheDelete key c in (r, AListCache c')
  end.

Definition mapdata_size (d : MapData) : Z :=
  match d with
  | ANativeMap m => Z.of_nat (length m)
  | AListCache c => list_size c
  end.

(** ** MapCache *)

Record MapCache : Type := mkMapCache {
  mc_hash : Hash;
  mc_map : MapData;
  mc_string : Hash;
  mc_size : Z
}.

(** Where a key belongs, with the property name an object coerces it to. *)
Inductive place : Type :=
| InHash (name : jsstr)
| InString (name : jsstr)
| InMap.

(** No other keys are keyable. *)
Definition getMapData (key : value) : place :=
  if isKeyable key then
    match key with
    | VString s => InString s
    | VNumber n => InHash (num_toString n)
    | VBool b => InHash (js (if b then "true" else "false"))
    | VNull => InHash (js "null")
    | VUndefined | VRef _ => InMap
    end
  else InMap.

Section map_cache.
Variable nativeCreate has_Map : bool.

Definition mapCacheClear : MapCache :=
  mkMapCache hashClear (if has_Map then ANativeMap [] else AListCache listCacheClear) hashClear 0.

Definition mapCacheGet (key : value) (c : MapCache) : value :=
  match getMapData key with
  | InHash name => hashGet nativeCreate name (mc_hash c)
  | InString name => hashGet nativeCreate name (mc_string c)
  | InMap => mapdata_get key (mc_map c)
  end.

Definition mapCacheHas (key : value) (c : MapCache) : bool :=
  match getMapData key with
  | InHash name => hashHas nativeCreate name (mc_hash c)
  | InString name => hashHas nativeCreate name (mc_string c)
  | InMap => mapdata_has key (mc_map c)
  end.

(** [data.size == size ? 0 : 1]. *)
Definition grown (before after : Z) : Z := if after =? before then 0 else 1.

Definition mapCacheSet (key v : value) (c : MapCache) : MapCache :=
  match getMapData key with
  | InHash name =>
      let data := hashSet nativeCreate name v (mc_hash c) in
      mkMapCache data (mc_map c) (mc_string c) (mc_size c + grown (hash_size (mc_hash c)) (hash_size data))
  | InString name =>
      let data := hashSet nativeCreate name v (mc_string c) in
      mkMapCache (mc_hash c) (mc_map c) data (mc_size c + grown (hash_size (mc_string c)) (hash_size data))
  | InMap =>
      let data := mapdata_set key v (mc_map c) in
      mkMapCache (mc_hash c) data (mc_string c)
                 (mc_size c + grown (mapdata_size (mc_map c)) (mapdata_size data))
  end.

Definition shrunk (deleted : bool) : Z := if deleted then 1 else 0.

Definition mapCacheDelete (key : value) (c : MapCache) : bool * MapCache :=
  match getMapData key with
  | InHash name =>
      let '(r, data) := hashDelete nativeCreate name (mc_hash c) in
      (r, mkMapCache data (mc_map c) (mc_string c) (mc_size c - shrunk r))
  | InString name =>
      let '(r, data) := hashDelete nativeCreate name (mc_string c) in
      (r, mkMapCache (mc_hash c) (mc_map c) data (mc_size c - shrunk r))
  | InMap =>
      let '(r, data) := mapdata_delete key (mc_map c) in
      (r, mkMapCache (mc_hash c) data (mc_string c) (mc_size c - shrunk r))
  end.

(** [new MapCache(entries)]. *)
Definition new_MapCache (entries : list (value * value)) : MapCache :=
  foldl (fun c entry => mapCacheSet entry.1 entry.2 c) mapCacheClear entries.

(** ** Stack *)

Inductive StackData : Type :=
| StackList (c : ListCache)
| StackMap (c : MapCache).

Record Stack : Type := mkStack {
  stack_data : StackData;
  stack_size : Z
}.

Definition LARGE_ARRAY_SIZE : Z := 200.

Definition stackClear : Stack := mkStack (StackList listCacheClear) 0.

Definition data_size (d : StackData) : Z :=
  match d with StackList c => list_size c | StackMap c => mc_size c end.

Definition stackGet (key : value) (s : Stack) : value :=
  match stack_data s with
  | StackList c => listCacheGet key c
  | StackMap c => mapCacheGet key c
  end.

Definition stackHas (key : value) (s : Stack) : bool :=
  match stack_data s with
  | StackList c => listCacheHas key c
  | StackMap c => mapCacheHas key c
  end.

Definition stackDelete (key : value) (s : Stack) : bool * Stack :=
  let '(result, data) :=
    match stack_data s with
    | StackList c => let '(r, c') := listCacheDelete key c in (r, StackList c')
    | StackMap c => let '(r, c') := mapCacheDelete key c in (r, StackMap c')
    end in
  (result, mkStack data (data_size data)).

(** A short list gets the pair without a look at the keys it has. *)
Definition stackSet (key v : value) (s : Stack) : Stack :=
  let finish (c : MapCache) :=
    let data := mapCacheSet key v c in mkStack (StackMap data) (mc_size data) in
  match stack_data s with
  | StackList c =>
      let pairs := list_data c in
      if negb has_Map || (Z.of_nat (length pairs) <? LARGE_ARRAY_SIZE - 1)
      then mkStack (StackList (mkListCache (pairs ++ [(key, v)]) (list_size c + 1)))
                   (list_size c + 1)
      else finish (new_MapCache pairs)
  | StackMap c => finish c
  end.

(** ** SetCache *)

Definition setCacheAdd (v : value) (c : MapCache) : MapCache := mapCacheSet v HASH_UNDEFINED c.

Definition setCacheHas (v : value) (c : MapCache) : bool := mapCacheHas v c.

Definition SetCache (values : list value) : MapCache :=
  foldl (fun c v => setCacheAdd v c) mapCacheClear values.

(** ** memoize *)

Section memoize.
Context {This Exn : Type}.
Variable func : This -> list value -> value + Exn.
Variable resolver : option (This -> list value -> value + Exn).

Definition memo_key (this : This) (args : list value) : value + Exn :=
  match resolver with
  | Some resolver => resolver this args
  | None => inl (default VUndefined (args !! 0%nat))
  end.

(** The result, the cache, and whether the function was called. *)
Definition memoized (this : This) (args : list value) (cache : MapCache)
    : (value + Exn) * MapCache * bool :=
  match memo_key this args with
  | inr e => (inr e, cache, false)
  | inl key =>
      if mapCacheHas key cache then (inl (mapCacheGet key cache), cache, false)
      else match func this args with
           | inl result => (inl result, mapCacheSet key result cache, true)
           | inr e => (inr e, cache, true)
           end
  end.
End memoize.
End map_cache.
