(* ===== verification/LodashCacheTheory.v ===== *)
(** * The caches of lodash are finite maps

    [FiniteMap] says what a cache promises to its clients: its operations act on
    a view, a partial function that respects the equality of keys.  The
    implementations are instances, each built on those below it; what is proved of
    [memoize] and of sequences of operations uses the class alone. *)

From S2P Require Import JsPrelude JsNumber JsDigits JsValue LodashCache.

(** ** The promise *)

Record cache_ops (K C : Type) : Type := mkOps {
  op_clear : C;
  op_get : K -> C -> value;
  op_has : K -> C -> bool;
  op_set : K -> value -> C -> C;
  op_delete : K -> C -> bool * C;
  op_size : C -> Z
}.
Arguments mkOps {K C}.
Arguments op_clear {K C}.
Arguments op_get {K C}.
Arguments op_has {K C}.
Arguments op_set {K C}.
Arguments op_delete {K C}.
Arguments op_size {K C}.

Definition present (o : option value) : bool := match o with Some _ => true | None => false end.

(** [same] is the equality of keys, [storable] the values that can be stored,
    [good] the invariant. *)
Class FiniteMap {K C : Type} (ops : cache_ops K C) (same : K -> K -> bool)
    (storable : value -> Prop) (good : C -> Prop) (view : C -> K -> option value) : Prop := {
  same_refl k : same k k = true;
  same_sym k k' : same k k' = same k' k;
  same_trans k k' k'' : same k k' = true -> same k k'' = same k' k'';
  clear_good : good (op_clear ops);
  clear_view k : view (op_clear ops) k = None;
  clear_size : op_size ops (op_clear ops) = 0;
  view_same c k k' : good c -> same k k' = true -> view c k = view c k';
  get_view c k : good c -> op_get ops k c = default VUndefined (view c k);
  has_view c k : good c -> op_has ops k c = present (view c k);
  set_good c k v : good c -> storable v -> good (op_set ops k v c);
  set_view c k v k' : good c -> storable v ->
    view (op_set ops k v c) k' = if same k k' then Some v else view c k';
  set_size c k v : good c -> storable v ->
    op_size ops (op_set ops k v c) = op_size ops c + (if present (view c k) then 0 else 1);
  delete_good c k : good c -> good (op_delete ops k c).2;
  delete_answer c k : good c -> (op_delete ops k c).1 = present (view c k);
  delete_view c k k' : good c ->
    view (op_delete ops k c).2 k' = if same k k' then None else view c k';
  delete_size c k : good c ->
    op_size ops (op_delete ops k c).2 = op_size ops c - (if present (view c k) then 1 else 0)
}.

(** ** The equality of keys *)

Lemma num_eqb_spec a b :
  num_eqb a b = true <-> (a = b /\ is_nan a = false)
                         \/ exists s s', a = SpecFloat.S754_zero s /\ b = SpecFloat.S754_zero s'.
Proof.
  unfold num_eqb. split.
  - destruct a as [[]|[]| |[] m e], b as [[]|[]| |[] m' e']; simpl; try done; eauto 6;
      destruct (e ?= e') eqn:He; try done; simpl;
      change (Pos.compare_cont Eq m m') with (Pos.compare m m');
      destruct (Pos.compare m m') eqn:Hm; simpl; try done;
      apply Z.compare_eq in He; apply Pos.compare_eq in Hm; subst; intros _; left; auto.
  - intros [[-> Hn]|(s & s' & -> & ->)]; [|done].
    destruct b as [[]|[]| |[] m e]; simpl in *; try done; by rewrite Z.compare_refl, ?Pos.compare_refl.
Qed.

(** The zeros are one key. *)
Definition canon (k : value) : value :=
  match k with
  | VNumber (SpecFloat.S754_zero _) => VNumber (SpecFloat.S754_zero false)
  | _ => k
  end.

Definition nan_value (k : value) : bool := match k with VNumber n => is_nan n | _ => false end.

Lemma num_eqb_canon a b :
  num_eqb a b = bool_decide (canon (VNumber a) = canon (VNumber b)) && negb (is_nan a).
Proof.
  apply eq_true_iff_eq. rewrite andb_true_iff, bool_decide_eq_true, negb_true_iff, num_eqb_spec.
  destruct a as [[]|[]| |[] m e], b as [[]|[]| |[] m' e']; simpl; naive_solver.
Qed.

Lemma strict_eq_canon a b : strict_eq a b = bool_decide (canon a = canon b) && negb (nan_value a).
Proof.
  destruct a, b; cbn [strict_eq nan_value]; rewrite ?andb_true_r; try apply num_eqb_canon;
    try (by rewrite bool_decide_eq_false_2 by (simpl; repeat case_match; discriminate)); simpl.
  - done.
  - done.
  - by destruct b0, b.
  - apply bool_decide_ext. naive_solver.
  - destruct (Nat.eqb_spec l l0) as [->|Hn];
      [by rewrite bool_decide_eq_true_2|by rewrite bool_decide_eq_false_2 by congruence].
Qed.

Lemma eq_canon a b : eq a b = bool_decide (canon a = canon b).
Proof.
  unfold eq. rewrite !strict_eq_canon, (bool_decide_eq_true_2 (canon a = canon a)),
    (bool_decide_eq_true_2 (canon b = canon b)) by done. simpl.
  rewrite !negb_involutive. case_bool_decide as H; simpl.
  - assert (nan_value a = nan_value b) as ->; [|by destruct (nan_value b)].
    destruct a as [| | |[]| |], b as [| | |[]| |]; simpl in *; congruence.
  - destruct a as [| | |[]| |], b as [| | |[]| |]; done.
Qed.

Lemma eq_key_refl k : eq k k = true.
Proof. by rewrite eq_canon, bool_decide_eq_true. Qed.

(** An equality of keys that comes from a classification. *)
Lemma class_sym {K A} `{EqDecision A} (f : K -> A) k k' :
  bool_decide (f k = f k') = bool_decide (f k' = f k).
Proof. by apply bool_decide_ext. Qed.

Lemma class_trans {K A} `{EqDecision A} (f : K -> A) k k' k'' :
  bool_decide (f k = f k') = true -> bool_decide (f k = f k'') = bool_decide (f k' = f k'').
Proof. rewrite bool_decide_eq_true. by intros ->. Qed.

Lemma eq_key_sym k k' : eq k k' = eq k' k.
Proof. rewrite !eq_canon. apply class_sym. Qed.

Lemma eq_key_trans k k' k'' : eq k k' = true -> eq k k'' = eq k' k''.
Proof. rewrite !eq_canon. apply class_trans. Qed.

(** ** The native Map *)

(** No two pairs have the same key. *)
Definition unique (m : list (value * value)) : Prop := NoDup (canon <$> m.*1).

(** No pair has the key. *)
Definition lacks (k : value) (m : list (value * value)) : Prop := Forall (fun p => eq p.1 k = false) m.

Lemma lacks_unique k v m : unique ((k, v) :: m) <-> lacks k m /\ unique m.
Proof.
  unfold unique, lacks. simpl. rewrite NoDup_cons, Forall_forall. apply and_iff_compat_r.
  rewrite list_elem_of_fmap. split.
  - intros H [k' v'] Hin. rewrite eq_canon, bool_decide_eq_false. intros Hc. apply H.
    exists k'. split; [done|]. apply list_elem_of_fmap. by exists (k', v').
  - intros H (k' & Hc & Hin). apply list_elem_of_fmap in Hin as ([k'' v'] & -> & Hin).
    specialize (H _ Hin). rewrite eq_canon, bool_decide_eq_false in H. by apply H.
Qed.

Lemma map_get_lacks k m : map_get k m = None <-> lacks k m.
Proof.
  unfold lacks. induction m as [|[k' v] m IH]; simpl; [by split|].
  rewrite Forall_cons. simpl. destruct (eq k' k); naive_solver.
Qed.

Lemma lacks_same k k' m : eq k k' = true -> lacks k m -> lacks k' m.
Proof.
  intros He Hl. eapply Forall_impl; [exact Hl|]. intros p Hp. simpl in *.
  by rewrite eq_key_sym, <- (eq_key_trans _ _ _ He), eq_key_sym.
Qed.

Lemma map_get_same k k' m : eq k k' = true -> map_get k m = map_get k' m.
Proof.
  intros He. induction m as [|[k0 v] m IH]; simpl; [done|].
  by rewrite (eq_key_sym k0), (eq_key_trans _ _ _ He), eq_key_sym, IH.
Qed.

Lemma map_get_set k v m k' :
  map_get k' (map_set k v m) = if eq k k' then Some v else map_get k' m.
Proof.
  induction m as [|[k0 v0] m IH]; simpl; [done|]. destruct (eq k0 k) eqn:E; simpl.
  - rewrite (eq_key_trans _ _ _ E). by destruct (eq k k').
  - rewrite IH. destruct (eq k0 k') eqn:E'; [|done].
    destruct (eq k k') eqn:E''; [|done].
    rewrite (eq_key_sym k k'), <- (eq_key_trans _ _ _ E') in E''. congruence.
Qed.

Lemma map_get_delete k m k' :
  map_get k' (map_delete k m) = if eq k k' then None else map_get k' m.
Proof.
  unfold map_delete. induction m as [|[k0 v0] m IH]; simpl; [by destruct (eq k k')|].
  destruct (eq k0 k) eqn:E; simpl; rewrite IH.
  - rewrite (eq_key_trans _ _ _ E). by destruct (eq k k').
  - destruct (eq k0 k') eqn:E'; [|done]. destruct (eq k k') eqn:E''; [|done].
    rewrite (eq_key_sym k k'), <- (eq_key_trans _ _ _ E') in E''. congruence.
Qed.

Lemma map_set_lacks k k' v m : eq k k' = false -> lacks k' m -> lacks k' (map_set k v m).
Proof. intros He. rewrite <- !map_get_lacks, map_get_set. by rewrite He. Qed.

Lemma map_set_unique k v m : unique m -> unique (map_set k v m).
Proof.
  induction m as [|[k0 v0] m IH]; simpl; [intros _; apply NoDup_singleton|].
  rewrite lacks_unique. intros [Hl Hu]. destruct (eq k0 k) eqn:E; [by apply lacks_unique|].
  apply lacks_unique. split; [|auto]. apply map_set_lacks; [by rewrite eq_key_sym|done].
Qed.

Lemma map_delete_unique k m : unique m -> unique (map_delete k m).
Proof.
  unfold map_delete. induction m as [|[k0 v0] m IH]; simpl; [done|].
  rewrite lacks_unique. intros [Hl Hu]. destruct (eq k0 k) eqn:E; simpl; [auto|].
  apply lacks_unique. split; [|auto]. apply map_get_lacks.
  change (map_get k0 (map_delete k m) = None). rewrite map_get_delete, eq_key_sym, E.
  by apply map_get_lacks.
Qed.

Lemma map_set_length k v m :
  Z.of_nat (length (map_set k v m))
  = Z.of_nat (length m) + (if present (map_get k m) then 0 else 1).
Proof. induction m as [|[k0 v0] m IH]; simpl; [done|]. destruct (eq k0 k); simpl; lia. Qed.

Lemma map_delete_lacks k m : lacks k m -> map_delete k m = m.
Proof.
  unfold map_delete, lacks. induction 1 as [|[k0 v0] m Hk Hl IH]; simpl in *; [done|].
  by rewrite Hk, IH.
Qed.

Lemma map_delete_length k m : unique m ->
  Z.of_nat (length (map_delete k m))
  = Z.of_nat (length m) - (if present (map_get k m) then 1 else 0).
Proof.
  induction m as [|[k0 v0] m IH]; [done|]. rewrite lacks_unique. intros [Hl Hu].
  unfold map_delete. simpl. fold (map_delete k m). destruct (eq k0 k) eqn:E; simpl.
  - rewrite map_delete_lacks by (by eapply lacks_same). lia.
  - rewrite Nat2Z.inj_succ, IH by done. lia.
Qed.

(** ** ListCache is a Map *)

Lemma unique_split k m : unique m -> lacks k m \/ exists l1 k0 v l2,
  m = l1 ++ (k0, v) :: l2 /\ eq k0 k = true /\ lacks k l1 /\ lacks k l2.
Proof.
  induction m as [|[k0 v0] m IH]; [left; constructor|]. rewrite lacks_unique. intros [Hl Hu].
  destruct (eq k0 k) eqn:E.
  - right. exists [], k0, v0, m. split_and!; [done|done|constructor|by eapply lacks_same].
  - destruct (IH Hu) as [Hk|(l1 & k1 & v1 & l2 & -> & H1 & H2 & H3)].
    + left. by constructor.
    + right. exists ((k0, v0) :: l1), k1, v1, l2. split_and!; [done|done|by constructor|done].
Qed.

Lemma assoc_index_skip array k n d :
  (forall i p, (n <= i)%nat -> array !! i = Some p -> eq p.1 k = false) ->
  assoc_index array k (d + n) = assoc_index array k n.
Proof.
  intros H. induction d as [|d IH]; simpl; [done|].
  destruct (array !! (d + n)%nat) as [[k' v]|] eqn:Hl; [|done].
  pose proof (H (d + n)%nat _ ltac:(lia) Hl) as Hk. simpl in Hk. by rewrite Hk.
Qed.

Lemma assocIndexOf_lacks k m : lacks k m -> assocIndexOf m k = None.
Proof.
  intros Hl. unfold assocIndexOf. rewrite <- (Nat.add_0_r (length m)). rewrite assoc_index_skip; [done|].
  intros i p _ Hi. by eapply Forall_lookup_1 in Hl.
Qed.

Lemma assocIndexOf_split k l1 k0 v l2 : eq k0 k = true -> lacks k l2 ->
  assocIndexOf (l1 ++ (k0, v) :: l2) k = Some (length l1).
Proof.
  intros Hk Hl. unfold assocIndexOf. rewrite length_app. simpl.
  replace (length l1 + S (length l2))%nat with (length l2 + S (length l1))%nat by lia.
  rewrite assoc_index_skip.
  - simpl. rewrite lookup_app_r, Nat.sub_diag by done. simpl. by rewrite Hk.
  - intros i p Hi Hp. rewrite lookup_app_r in Hp by lia.
    destruct (i - length l1)%nat as [|j] eqn:E; [lia|]. simpl in Hp.
    by eapply Forall_lookup_1 in Hl.
Qed.

(** Where the key is, all functions of a Map meet it. *)
Lemma map_get_split k l1 k0 v l2 : eq k0 k = true -> lacks k l1 ->
  map_get k (l1 ++ (k0, v) :: l2) = Some v.
Proof.
  intros Hk. induction 1 as [|[k' v'] l1 H _ IH]; simpl in *; [by rewrite Hk|by rewrite H].
Qed.

Lemma map_set_split k v' l1 k0 v l2 : eq k0 k = true -> lacks k l1 ->
  map_set k v' (l1 ++ (k0, v) :: l2) = l1 ++ (k0, v') :: l2.
Proof.
  intros Hk. induction 1 as [|[k1 v1] l1 H _ IH]; simpl in *; [by rewrite Hk|by rewrite H, IH].
Qed.

Lemma map_set_absent k v m : lacks k m -> map_set k v m = m ++ [(k, v)].
Proof. induction 1 as [|[k1 v1] l1 H _ IH]; simpl in *; [done|by rewrite H, IH]. Qed.

Lemma map_delete_split k l1 k0 v l2 : eq k0 k = true -> lacks k l1 -> lacks k l2 ->
  map_delete k (l1 ++ (k0, v) :: l2) = l1 ++ l2.
Proof.
  intros Hk H1 H2. unfold map_delete. rewrite List.filter_app. simpl. rewrite Hk. simpl.
  fold (map_delete k l1) (map_delete k l2). by rewrite !map_delete_lacks.
Qed.

Lemma listCacheGet_map k c : unique (list_data c) ->
  listCacheGet k c = default VUndefined (map_get k (list_data c)).
Proof.
  intros Hu. unfold listCacheGet.
  destruct (unique_split k _ Hu) as [Hl|(l1 & k0 & v & l2 & -> & Hk & H1 & H2)].
  - by rewrite assocIndexOf_lacks, (proj2 (map_get_lacks _ _)).
  - rewrite assocIndexOf_split, map_get_split by done.
    by rewrite lookup_app_r, Nat.sub_diag by done.
Qed.

Lemma listCacheHas_map k c : unique (list_data c) ->
  listCacheHas k c = present (map_get k (list_data c)).
Proof.
  intros Hu. unfold listCacheHas.
  destruct (unique_split k _ Hu) as [Hl|(l1 & k0 & v & l2 & -> & Hk & H1 & H2)].
  - by rewrite assocIndexOf_lacks, (proj2 (map_get_lacks _ _)).
  - by rewrite assocIndexOf_split, map_get_split.
Qed.

Lemma listCacheSet_map k v c : unique (list_data c) -> list_size c = Z.of_nat (length (list_data c)) ->
  listCacheSet k v c
  = mkListCache (map_set k v (list_data c)) (Z.of_nat (length (map_set k v (list_data c)))).
Proof.
  intros Hu Hs. unfold listCacheSet. rewrite map_set_length, Hs.
  destruct (unique_split k _ Hu) as [Hl|(l1 & k0 & v0 & l2 & -> & Hk & H1 & H2)].
  - by rewrite assocIndexOf_lacks, map_set_absent, (proj2 (map_get_lacks _ _)).
  - rewrite assocIndexOf_split, map_set_split, map_get_split by done. simpl. f_equal; [|lia].
    by rewrite <- (Nat.add_0_r (length l1)), alter_app_r.
Qed.

Lemma listCacheDelete_map k c : unique (list_data c) -> list_size c = Z.of_nat (length (list_data c)) ->
  listCacheDelete k c
  = (present (map_get k (list_data c)),
     mkListCache (map_delete k (list_data c)) (Z.of_nat (length (map_delete k (list_data c))))).
Proof.
  intros Hu Hs. unfold listCacheDelete. rewrite map_delete_length, <- Hs by done.
  destruct (unique_split k _ Hu) as [Hl|(l1 & k0 & v0 & l2 & E & Hk & H1 & H2)].
  - rewrite assocIndexOf_lacks, map_delete_lacks, (proj2 (map_get_lacks _ _)) by done. simpl.
    destruct c. by rewrite Z.sub_0_r.
  - rewrite E, assocIndexOf_split, map_get_split, map_delete_split by done. simpl. do 2 f_equal.
    rewrite length_app. simpl. destruct (Nat.eqb_spec (length l1) (length l1 + S (length l2) - 1)) as [Hn|Hn].
    + destruct l2; simpl in Hn; [|lia]. simpl. rewrite <- Hn, take_app_length. by rewrite app_nil_r.
    + rewrite take_app_length. f_equal.
      by rewrite drop_app_ge, Nat.sub_succ_l, Nat.sub_diag by lia.
Qed.

Definition pairs (d : MapData) : list (value * value) :=
  match d with ANativeMap m => m | AListCache c => list_data c end.

Definition good_mapdata (d : MapData) : Prop :=
  unique (pairs d) /\ mapdata_size d = Z.of_nat (length (pairs d)).

Definition mapdata_ops (has_Map : bool) : cache_ops value MapData :=
  mkOps (if has_Map then ANativeMap [] else AListCache listCacheClear)
        mapdata_get mapdata_has mapdata_set mapdata_delete mapdata_size.

Lemma mapdata_set_pairs k v d : good_mapdata d ->
  pairs (mapdata_set k v d) = map_set k v (pairs d)
  /\ mapdata_size (mapdata_set k v d) = Z.of_nat (length (map_set k v (pairs d))).
Proof.
  destruct d as [m|c]; intros [Hu Hs]; simpl in *; [done|]. by rewrite listCacheSet_map.
Qed.

Lemma mapdata_delete_pairs k d : good_mapdata d ->
  (mapdata_delete k d).1 = present (map_get k (pairs d))
  /\ pairs (mapdata_delete k d).2 = map_delete k (pairs d)
  /\ mapdata_size (mapdata_delete k d).2 = Z.of_nat (length (map_delete k (pairs d))).
Proof.
  destruct d as [m|c]; intros [Hu Hs]; simpl in *; [done|]. by rewrite listCacheDelete_map.
Qed.

#[export] Instance mapdata_map has_Map :
  FiniteMap (mapdata_ops has_Map) eq (fun _ => True) good_mapdata (fun d k => map_get k (pairs d)).
Proof.
  split; simpl.
  - apply eq_key_refl.
  - apply eq_key_sym.
  - apply eq_key_trans.
  - destruct has_Map; (split; [apply NoDup_nil_2|done]).
  - by destruct has_Map.
  - by destruct has_Map.
  - intros d k k' _. apply map_get_same.
  - intros [m|c] k [Hu _]; simpl; [done|by apply listCacheGet_map].
  - intros [m|c] k [Hu _]; simpl; [done|by apply listCacheHas_map].
  - intros d k v Hd _. destruct (mapdata_set_pairs k v d Hd) as [E1 E2]. split; rewrite E1; [|done].
    by apply map_set_unique, Hd.
  - intros d k v k' Hd _. rewrite (proj1 (mapdata_set_pairs k v d Hd)). apply map_get_set.
  - intros d k v Hd _. rewrite (proj2 (mapdata_set_pairs k v d Hd)), map_set_length.
    destruct Hd as [_ ->]. done.
  - intros d k Hd. destruct (mapdata_delete_pairs k d Hd) as (_ & E1 & E2). split; rewrite E1; [|done].
    by apply map_delete_unique, Hd.
  - intros d k Hd. apply (mapdata_delete_pairs k d Hd).
  - intros d k k' Hd. rewrite (proj1 (proj2 (mapdata_delete_pairs k d Hd))). apply map_get_delete.
  - intros d k Hd. rewrite (proj2 (proj2 (mapdata_delete_pairs k d Hd))), map_delete_length by apply Hd.
    destruct Hd as [_ ->]. done.
Qed.

(** ** Hash *)

Definition storable (v : value) : Prop := v <> HASH_UNDEFINED.

(** What a property of the object stands for. *)
Definition stored (nativeCreate : bool) (v : value) : value :=
  if nativeCreate && strict_eq v HASH_UNDEFINED then VUndefined else v.

Definition hash_view (nativeCreate : bool) (c : Hash) (k : jsstr) : option value :=
  stored nativeCreate <$> assoc_get (hash_data c) k.

Definition good_hash (nativeCreate : bool) (c : Hash) : Prop :=
  NoDup (hash_data c).*1 /\ hash_size c = Z.of_nat (length (hash_data c))
  /\ (nativeCreate = true -> forall k, assoc_get (hash_data c) k <> Some VUndefined).

Definition hash_ops (nativeCreate : bool) : cache_ops jsstr Hash :=
  mkOps hashClear (hashGet nativeCreate) (hashHas nativeCreate) (hashSet nativeCreate)
        (hashDelete nativeCreate) hash_size.

Lemma hashHas_view nativeCreate k c : good_hash nativeCreate c ->
  hashHas nativeCreate k c = present (hash_view nativeCreate c k).
Proof.
  intros (_ & _ & Hv). unfold hashHas, hash_view, assoc_has. destruct nativeCreate.
  - specialize (Hv eq_refl k). destruct (assoc_get (hash_data c) k) as [[]|]; simpl; done.
  - by destruct (assoc_get (hash_data c) k).
Qed.

Lemma hashSet_view nativeCreate k v c k' : storable v ->
  hash_view nativeCreate (hashSet nativeCreate k v c) k'
  = if jseqb k k' then Some v else hash_view nativeCreate c k'.
Proof.
  intros Hs. unfold hash_view, hashSet. simpl. rewrite assoc_get_set.
  destruct (jseqb k k'); [|done]. simpl. f_equal. unfold stored. destruct nativeCreate; simpl; [|done].
  destruct v; simpl; try done. destruct (jseqb s _) eqn:E; [|done].
  exfalso. apply Hs. by apply jseqb_eq in E as ->.
Qed.

Lemma present_view nativeCreate c k {A} (x y : A) :
  match assoc_get (hash_data c) k with Some _ => x | None => y end
  = if present (hash_view nativeCreate c k) then x else y.
Proof. unfold hash_view. by destruct (assoc_get (hash_data c) k). Qed.

Lemma hashSet_good nativeCreate k v c : good_hash nativeCreate c ->
  good_hash nativeCreate (hashSet nativeCreate k v c).
Proof.
  intros Hg. pose proof Hg as (Hd & Hs & Hv). split_and!; simpl.
  - by apply assoc_set_NoDup.
  - rewrite assoc_set_length, (present_view nativeCreate), hashHas_view by done. lia.
  - intros -> k'. rewrite assoc_get_set. destruct (jseqb k k'); [|by apply Hv]. simpl.
    intros [= E]. destruct v; simpl in E; discriminate E.
Qed.

Lemma hashDelete_spec nativeCreate k c : good_hash nativeCreate c ->
  hashDelete nativeCreate k c
  = (present (hash_view nativeCreate c k),
     mkHash (assoc_del (hash_data c) k) (Z.of_nat (length (assoc_del (hash_data c) k)))).
Proof.
  intros Hg. pose proof Hg as (Hd & Hs & _). unfold hashDelete. rewrite hashHas_view by done. f_equal.
  rewrite assoc_del_length, (present_view nativeCreate), <- Hs by done.
  destruct (present (hash_view nativeCreate c k)) eqn:E; [done|]. f_equal.
  symmetry. apply assoc_del_absent, assoc_get_key. unfold hash_view in E.
  by destruct (assoc_get (hash_data c) k).
Qed.

#[export] Instance hash_map nativeCreate :
  FiniteMap (hash_ops nativeCreate) jseqb storable (good_hash nativeCreate) (hash_view nativeCreate).
Proof.
  split; cbn [hash_ops op_clear op_get op_has op_set op_delete op_size].
  - apply jseqb_refl.
  - intros k k'. by apply bool_decide_ext.
  - intros k k' k'' ->%jseqb_eq. done.
  - split_and!; [apply NoDup_nil_2|done|done].
  - done.
  - done.
  - by intros c k k' _ ->%jseqb_eq.
  - intros c k _. unfold hashGet, hash_view, stored, assoc_has.
    destruct nativeCreate, (assoc_get (hash_data c) k); done.
  - intros c k. apply hashHas_view.
  - intros c k v Hg _. by apply hashSet_good.
  - intros c k v k' _. apply hashSet_view.
  - intros c k v Hg _. simpl. by rewrite hashHas_view.
  - intros c k Hg. rewrite hashDelete_spec by done. pose proof Hg as (Hd & Hs & Hv).
    split_and!; [by apply assoc_del_NoDup|done|].
    intros Hn k'. simpl. rewrite assoc_get_del. destruct (jseqb k k'); [done|by apply Hv].
  - intros c k Hg. by rewrite hashDelete_spec.
  - intros c k k' Hg. rewrite hashDelete_spec by done. unfold hash_view. simpl.
    rewrite assoc_get_del. by destruct (jseqb k k').
  - intros c k Hg. rewrite hashDelete_spec by done. simpl. pose proof Hg as (Hd & Hs & _).
    by rewrite assoc_del_length, (present_view nativeCreate), Hs.
Qed.

(** ** MapCache *)

#[global] Instance place_eq_dec : EqDecision place.
Proof. solve_decision. Defined.

(** The keys of the abstract map.  Keys of different types are different, numbers are
    the same when they are written the same, strings when they have the same units and
    objects when they are one object. *)
Definition same_key (k k' : value) : bool :=
  match k, k' with
  | VUndefined, VUndefined | VNull, VNull => true
  | VBool b, VBool b' => Bool.eqb b b'
  | VNumber n, VNumber n' => jseqb (num_toString n) (num_toString n')
  | VString s, VString s' => jseqb s s'
  | VRef l, VRef l' => Nat.eqb l l'
  | _, _ => false
  end.

(** What all keys that are the same have in common. *)
Definition key_class (k : value) : jsstr + value :=
  match k with VNumber n => inl (num_toString n) | _ => inr k end.

Lemma same_key_class k k' : same_key k k' = bool_decide (key_class k = key_class k').
Proof.
  apply eq_true_iff_eq. rewrite bool_decide_eq_true.
  destruct k as [| |b|n|s|l], k' as [| |b'|n'|s'|l']; simpl;
    rewrite ?Bool.eqb_true_iff, ?jseqb_eq, ?Nat.eqb_eq; split; congruence.
Qed.

(** The keys of the implementation: two keys meet when they go to one container, as
    property names there, or by [eq] in the map. *)
Definition same_place (k k' : value) : bool :=
  match getMapData k, getMapData k' with
  | InHash a, InHash b | InString a, InString b => jseqb a b
  | InMap, InMap => eq k k'
  | _, _ => false
  end.

Lemma place_string s : getMapData (VString s) = if jseqb s proto_key then InMap else InString s.
Proof. unfold getMapData, isKeyable. change (js "__proto__") with proto_key. by destruct (jseqb s proto_key). Qed.

(** No number is written like the other keys of the hash. *)
Lemma number_text n name : name ∈ (js <$> ["true"; "false"; "null"]%string) ->
  jseqb (num_toString n) name = false /\ jseqb name (num_toString n) = false.
Proof.
  intros Hn. assert (Hne : num_toString n <> name).
  { intros E. destruct (num_toString_head n) as (c & t & E' & Hb). rewrite E' in E.
    repeat (apply elem_of_cons in Hn as [->|Hn];
      [vm_compute in E; injection E as -> _; unfold begins_number in Hb; lia|]).
    by apply elem_of_nil in Hn. }
  split; apply jseqb_neq; congruence.
Qed.

Lemma same_place_string s s' : same_place (VString s) (VString s') = jseqb s s'.
Proof.
  unfold same_place. rewrite !place_string.
  destruct (jseqb s proto_key) eqn:E, (jseqb s' proto_key) eqn:E'; try done.
  - apply jseqb_eq in E as ->, E' as ->. by rewrite eq_key_refl, jseqb_refl.
  - apply jseqb_eq in E as ->. apply jseqb_neq in E'. symmetry. apply jseqb_neq. congruence.
  - apply jseqb_eq in E' as ->. apply jseqb_neq in E. symmetry. apply jseqb_neq. congruence.
Qed.

(** The containers keep the keys apart: no two different keys meet. *)
Lemma same_place_key k k' : same_place k k' = same_key k k'.
Proof.
  assert (Ht : forall n (b : bool), jseqb (num_toString n) (js (if b then "true" else "false")) = false
    /\ jseqb (js (if b then "true" else "false")) (num_toString n) = false).
  { intros n b. apply number_text. destruct b; simpl; rewrite !elem_of_cons; auto. }
  assert (Hn : forall n, jseqb (num_toString n) (js "null") = false /\ jseqb (js "null") (num_toString n) = false).
  { intros n. apply number_text. simpl. rewrite !elem_of_cons. auto. }
  assert (Hr : forall l l', eq (VRef l) (VRef l') = Nat.eqb l l').
  { intros l l'. unfold eq. simpl. by rewrite !Nat.eqb_refl, orb_false_r. }
  destruct k as [| |b|n|s|l], k' as [| |b'|n'|s'|l']; try apply same_place_string;
    unfold same_place; rewrite ?place_string; cbn [getMapData isKeyable same_key];
    try done; try apply Ht; try apply Hn; try apply Hr; try (by destruct b); try (by destruct b');
    try (by destruct b, b'); try (destruct (jseqb _ proto_key)); try done;
    rewrite eq_canon; by rewrite bool_decide_eq_false_2.
Qed.

Definition cache_view (nativeCreate : bool) (c : MapCache) (k : value) : option value :=
  match getMapData k with
  | InHash name => hash_view nativeCreate (mc_hash c) name
  | InString name => hash_view nativeCreate (mc_string c) name
  | InMap => map_get k (pairs (mc_map c))
  end.

Record good_cache (nativeCreate : bool) (c : MapCache) : Prop := {
  good_cache_hash : good_hash nativeCreate (mc_hash c);
  good_cache_string : good_hash nativeCreate (mc_string c);
  good_cache_map : good_mapdata (mc_map c);
  good_cache_size : mc_size c
    = hash_size (mc_hash c) + hash_size (mc_string c) + mapdata_size (mc_map c)
}.

Definition map_cache_ops (nativeCreate has_Map : bool) : cache_ops value MapCache :=
  mkOps (mapCacheClear has_Map) (mapCacheGet nativeCreate) (mapCacheHas nativeCreate)
        (mapCacheSet nativeCreate) (mapCacheDelete nativeCreate) mc_size.

Section map_cache_proof.
Variable nativeCreate has_Map : bool.
Let H := hash_map nativeCreate.
Let M := mapdata_map has_Map.

Lemma grown_size before (b : bool) :
  grown before (before + (if b then 0 else 1)) = if b then 0 else 1.
Proof. unfold grown. destruct b; [rewrite Z.add_0_r, Z.eqb_refl|rewrite (proj2 (Z.eqb_neq _ _)) by lia]; done. Qed.

Lemma hashSet_size c n v : good_hash nativeCreate c -> storable v ->
  hash_size (hashSet nativeCreate n v c)
  = hash_size c + (if present (hash_view nativeCreate c n) then 0 else 1).
Proof. exact (set_size (FiniteMap := H) c n v). Qed.

Lemma mapdata_set_size c k v : good_mapdata c ->
  mapdata_size (mapdata_set k v c)
  = mapdata_size c + (if present (map_get k (pairs c)) then 0 else 1).
Proof. intros Hc. exact (set_size (FiniteMap := M) c k v Hc I). Qed.

Lemma mapCacheSet_good c k v : good_cache nativeCreate c -> storable v ->
  good_cache nativeCreate (mapCacheSet nativeCreate k v c)
  /\ mc_size (mapCacheSet nativeCreate k v c)
     = mc_size c + (if present (cache_view nativeCreate c k) then 0 else 1).
Proof.
  intros [Hh Hs Hm Hz] Hv. unfold mapCacheSet, cache_view. destruct (getMapData k) as [n|n|].
  - rewrite hashSet_size, grown_size by done. split; [|done].
    split; cbn [mc_hash mc_string mc_map mc_size]; try done; [|rewrite hashSet_size by done; lia].
    exact (set_good (FiniteMap := H) _ n v Hh Hv).
  - rewrite hashSet_size, grown_size by done. split; [|done].
    split; cbn [mc_hash mc_string mc_map mc_size]; try done; [|rewrite hashSet_size by done; lia].
    exact (set_good (FiniteMap := H) _ n v Hs Hv).
  - rewrite mapdata_set_size, grown_size by done. split; [|done].
    split; cbn [mc_hash mc_string mc_map mc_size]; try done; [|rewrite mapdata_set_size by done; lia].
    exact (set_good (FiniteMap := M) _ k v Hm I).
Qed.

Lemma mapCacheSet_view c k v k' : good_cache nativeCreate c -> storable v ->
  cache_view nativeCreate (mapCacheSet nativeCreate k v c) k'
  = if same_key k k' then Some v else cache_view nativeCreate c k'.
Proof.
  intros [Hh Hs Hm _] Hv. rewrite <- same_place_key. unfold mapCacheSet, cache_view, same_place.
  destruct (getMapData k) as [n|n|], (getMapData k') as [n'|n'|]; cbn [mc_hash mc_string mc_map]; try done.
  - exact (set_view (FiniteMap := H) _ n v n' Hh Hv).
  - exact (set_view (FiniteMap := H) _ n v n' Hs Hv).
  - exact (set_view (FiniteMap := M) _ k v k' Hm I).
Qed.

Lemma hash_delete_laws c n : good_hash nativeCreate c ->
  let '(r, c') := hashDelete nativeCreate n c in
  good_hash nativeCreate c' /\ r = present (hash_view nativeCreate c n)
  /\ hash_size c' = hash_size c - shrunk r
  /\ forall n', hash_view nativeCreate c' n' = if jseqb n n' then None else hash_view nativeCreate c n'.
Proof.
  intros Hc. pose proof (delete_good (FiniteMap := H) c n Hc) as H1.
  pose proof (delete_answer (FiniteMap := H) c n Hc) as H2.
  pose proof (delete_size (FiniteMap := H) c n Hc) as H3.
  pose proof (fun n' => delete_view (FiniteMap := H) c n n' Hc) as H4.
  cbn [hash_ops op_delete op_size] in *. destruct (hashDelete nativeCreate n c) as [r c'].
  cbn [fst snd] in *. rewrite H2. auto.
Qed.

Lemma mapdata_delete_laws c k : good_mapdata c ->
  let '(r, c') := mapdata_delete k c in
  good_mapdata c' /\ r = present (map_get k (pairs c))
  /\ mapdata_size c' = mapdata_size c - shrunk r
  /\ forall k', map_get k' (pairs c') = if eq k k' then None else map_get k' (pairs c).
Proof.
  intros Hc. pose proof (delete_good (FiniteMap := M) c k Hc) as H1.
  pose proof (delete_answer (FiniteMap := M) c k Hc) as H2.
  pose proof (delete_size (FiniteMap := M) c k Hc) as H3.
  pose proof (fun k' => delete_view (FiniteMap := M) c k k' Hc) as H4.
  cbn [mapdata_ops op_delete op_size] in *. destruct (mapdata_delete k c) as [r c'].
  cbn [fst snd] in *. rewrite H2. auto.
Qed.

Lemma mapCacheDelete_laws c k : good_cache nativeCreate c ->
  let '(r, c') := mapCacheDelete nativeCreate k c in
  good_cache nativeCreate c' /\ r = present (cache_view nativeCreate c k)
  /\ mc_size c' = mc_size c - shrunk r
  /\ forall k', cache_view nativeCreate c' k'
                = if same_key k k' then None else cache_view nativeCreate c k'.
Proof.
  intros [Hh Hs Hm Hz]. unfold mapCacheDelete, cache_view. destruct (getMapData k) as [n|n|] eqn:Ek.
  - pose proof (hash_delete_laws _ n Hh) as L. destruct (hashDelete _ _ _) as [r c'].
    destruct L as (L1 & L2 & L3 & L4). split_and!; [split; simpl; try done; lia|done|done|].
    intros k'. rewrite <- same_place_key. unfold same_place. rewrite Ek. simpl. by destruct (getMapData k').
  - pose proof (hash_delete_laws _ n Hs) as L. destruct (hashDelete _ _ _) as [r c'].
    destruct L as (L1 & L2 & L3 & L4). split_and!; [split; simpl; try done; lia|done|done|].
    intros k'. rewrite <- same_place_key. unfold same_place. rewrite Ek. simpl. by destruct (getMapData k').
  - pose proof (mapdata_delete_laws _ k Hm) as L. destruct (mapdata_delete _ _) as [r c'].
    destruct L as (L1 & L2 & L3 & L4). split_and!; [split; simpl; try done; lia|done|done|].
    intros k'. rewrite <- same_place_key. unfold same_place. rewrite Ek. simpl. by destruct (getMapData k').
Qed.

Lemma cache_view_same c k k' : same_key k k' = true ->
  cache_view nativeCreate c k = cache_view nativeCreate c k'.
Proof.
  rewrite <- same_place_key. unfold same_place, cache_view. destruct (getMapData k), (getMapData k'); try done.
  - by intros ->%jseqb_eq.
  - by intros ->%jseqb_eq.
  - apply map_get_same.
Qed.

#[export] Instance map_cache_map :
  FiniteMap (map_cache_ops nativeCreate has_Map) same_key storable
    (good_cache nativeCreate) (cache_view nativeCreate).
Proof.
  split; cbn [map_cache_ops op_clear op_get op_has op_set op_delete op_size].
  - intros k. by rewrite same_key_class, bool_decide_eq_true.
  - intros k k'. rewrite !same_key_class. apply class_sym.
  - intros k k' k''. rewrite !same_key_class. apply class_trans.
  - split; [apply (clear_good (FiniteMap := H))..|apply (clear_good (FiniteMap := M))|by destruct has_Map].
  - intros k. unfold cache_view. destruct (getMapData k); [done|done|].
    exact (clear_view (FiniteMap := M) k).
  - done.
  - intros c k k' _. apply cache_view_same.
  - intros c k [Hh Hs Hm _]. unfold mapCacheGet, cache_view. destruct (getMapData k) as [n|n|].
    + exact (get_view (FiniteMap := H) _ n Hh).
    + exact (get_view (FiniteMap := H) _ n Hs).
    + exact (get_view (FiniteMap := M) _ k Hm).
  - intros c k [Hh Hs Hm _]. unfold mapCacheHas, cache_view. destruct (getMapData k) as [n|n|].
    + exact (has_view (FiniteMap := H) _ n Hh).
    + exact (has_view (FiniteMap := H) _ n Hs).
    + exact (has_view (FiniteMap := M) _ k Hm).
  - intros c k v Hc Hv. by apply mapCacheSet_good.
  - intros c k v k'. apply mapCacheSet_view.
  - intros c k v Hc Hv. by apply mapCacheSet_good.
  - intros c k Hc. pose proof (mapCacheDelete_laws c k Hc) as L. destruct (mapCacheDelete _ _ _); apply L.
  - intros c k Hc. pose proof (mapCacheDelete_laws c k Hc) as L. destruct (mapCacheDelete _ _ _); apply L.
  - intros c k k' Hc. pose proof (mapCacheDelete_laws c k Hc) as L. destruct (mapCacheDelete _ _ _); apply L.
  - intros c k Hc. pose proof (mapCacheDelete_laws c k Hc) as L.
    destruct (mapCacheDelete _ _ _) as [r c']. destruct L as (_ & -> & L & _). exact L.
Qed.
End map_cache_proof.
