(* ===== verification/LodashCacheClients.v ===== *)
(** * The clients of lodash's caches

    Sequences of operations on a cache answer as a plain list of pairs would;
    [memoize] gives the results of its function; [Stack] keeps the discipline of a
    stack while it is short and the lookups of a map when it grows. *)

From S2P Require Import JsPrelude JsNumber JsValue LodashCache LodashCacheTheory.

(** ** Sequences of operations *)

Inductive cache_op (K : Type) : Type :=
| CGet (k : K)
| CHas (k : K)
| CSet (k : K) (v : value)
| CDelete (k : K)
| CClear.
Arguments CGet {K}.
Arguments CHas {K}.
Arguments CSet {K}.
Arguments CDelete {K}.
Arguments CClear {K}.

Inductive cache_answer : Type :=
| AValue (v : value)
| AFlag (b : bool)
| ANothing.

(** The answer of an operation and the size after it. *)
Fixpoint run_cache {K C} (ops : cache_ops K C) (os : list (cache_op K)) (c : C)
    : list (cache_answer * Z) :=
  match os with
  | [] => []
  | o :: os' =>
      let '(a, c') :=
        match o with
        | CGet k => (AValue (op_get ops k c), c)
        | CHas k => (AFlag (op_has ops k c), c)
        | CSet k v => (ANothing, op_set ops k v c)
        | CDelete k => let '(r, c') := op_delete ops k c in (AFlag r, c')
        | CClear => (ANothing, op_clear ops)
        end in
      (a, op_size ops c') :: run_cache ops os' c'
  end.

(** *** The specification: a list of pairs with different keys *)

Section spec.
Context {K : Type}.
Variable same : K -> K -> bool.

Fixpoint spec_lookup (k : K) (m : list (K * value)) : option value :=
  match m with
  | [] => None
  | (k', v) :: m' => if same k' k then Some v else spec_lookup k m'
  end.

Definition spec_remove (k : K) (m : list (K * value)) : list (K * value) :=
  List.filter (fun p => negb (same (fst p) k)) m.

Definition spec_insert (k : K) (v : value) (m : list (K * value)) : list (K * value) :=
  (k, v) :: spec_remove k m.

Fixpoint run_spec (os : list (cache_op K)) (m : list (K * value)) : list (cache_answer * Z) :=
  match os with
  | [] => []
  | o :: os' =>
      let '(a, m') :=
        match o with
        | CGet k => (AValue (default VUndefined (spec_lookup k m)), m)
        | CHas k => (AFlag (present (spec_lookup k m)), m)
        | CSet k v => (ANothing, spec_insert k v m)
        | CDelete k => (AFlag (present (spec_lookup k m)), spec_remove k m)
        | CClear => (ANothing, [])
        end in
      (a, Z.of_nat (length m')) :: run_spec os' m'
  end.
End spec.

Definition stores {K} (P : value -> Prop) (o : cache_op K) : Prop :=
  match o with CSet _ v => P v | _ => True end.

(** *** Every finite map implements it *)

Section refinement.
Context {K C : Type} {ops : cache_ops K C} {same : K -> K -> bool} {P : value -> Prop}
  {good : C -> Prop} {view : C -> K -> option value} `{F : !FiniteMap ops same P good view}.

Fixpoint distinct (m : list (K * value)) : Prop :=
  match m with
  | [] => True
  | (k, _) :: m' => spec_lookup same k m' = None /\ distinct m'
  end.

Lemma spec_lookup_remove k m k' :
  spec_lookup same k' (spec_remove same k m) = if same k k' then None else spec_lookup same k' m.
Proof.
  unfold spec_remove. induction m as [|[k0 v0] m IH]; simpl; [by destruct (same k k')|].
  destruct (same k0 k) eqn:E; simpl; rewrite IH.
  - rewrite (same_trans (FiniteMap := F) _ _ _ E). by destruct (same k k').
  - destruct (same k0 k') eqn:E'; [|done]. destruct (same k k') eqn:E''; [|done].
    rewrite (same_sym (FiniteMap := F) k k'), <- (same_trans (FiniteMap := F) _ _ _ E') in E''.
    congruence.
Qed.

Lemma spec_lookup_same k k' m : same k k' = true -> spec_lookup same k m = spec_lookup same k' m.
Proof.
  intros He. induction m as [|[k0 v] m IH]; simpl; [done|].
  by rewrite (same_sym (FiniteMap := F) k0 k), (same_trans (FiniteMap := F) _ _ _ He),
    (same_sym (FiniteMap := F) k' k0), IH.
Qed.

Lemma spec_remove_absent k m : spec_lookup same k m = None -> spec_remove same k m = m.
Proof.
  unfold spec_remove. induction m as [|[k0 v0] m IH]; simpl; [done|].
  destruct (same k0 k); [done|]. simpl. intros Hn. by rewrite IH.
Qed.

Lemma spec_remove_distinct k m : distinct m -> distinct (spec_remove same k m).
Proof.
  induction m as [|[k0 v0] m IH]; simpl; [done|]. intros [Hn Hd].
  unfold spec_remove. simpl. fold (spec_remove same k m). destruct (same k0 k) eqn:E; simpl; [auto|].
  split; [|auto]. rewrite spec_lookup_remove, Hn. by destruct (same k k0).
Qed.

Lemma spec_remove_length k m : distinct m ->
  Z.of_nat (length (spec_remove same k m))
  = Z.of_nat (length m) - (if present (spec_lookup same k m) then 1 else 0).
Proof.
  induction m as [|[k0 v0] m IH]; [done|]. intros [Hn Hd].
  unfold spec_remove. simpl. fold (spec_remove same k m). destruct (same k0 k) eqn:E; simpl.
  - rewrite spec_remove_absent by (by rewrite <- (spec_lookup_same _ _ _ E)). lia.
  - rewrite Nat2Z.inj_succ, IH by done. lia.
Qed.

(** The simulation. *)
Record implements (c : C) (m : list (K * value)) : Prop := {
  impl_good : good c;
  impl_view : forall k, view c k = spec_lookup same k m;
  impl_size : op_size ops c = Z.of_nat (length m);
  impl_distinct : distinct m
}.

Lemma implements_set c m k v : implements c m -> P v ->
  implements (op_set ops k v c) (spec_insert same k v m).
Proof.
  intros [Hg Hv Hs Hd] Hp. split.
  - by apply (set_good (FiniteMap := F)).
  - intros k'. rewrite (set_view (FiniteMap := F)) by done. simpl.
    rewrite spec_lookup_remove, Hv. by destruct (same k k').
  - rewrite (set_size (FiniteMap := F)), Hv, Hs by done. simpl.
    rewrite Nat2Z.inj_succ, spec_remove_length by done. destruct (present _); lia.
  - split; [|by apply spec_remove_distinct].
    by rewrite spec_lookup_remove, (same_refl (FiniteMap := F)).
Qed.

Lemma implements_delete c m k : implements c m ->
  (op_delete ops k c).1 = present (spec_lookup same k m)
  /\ implements (op_delete ops k c).2 (spec_remove same k m).
Proof.
  intros [Hg Hv Hs Hd]. split; [by rewrite (delete_answer (FiniteMap := F)), Hv|]. split.
  - by apply (delete_good (FiniteMap := F)).
  - intros k'. rewrite (delete_view (FiniteMap := F)), spec_lookup_remove, Hv by done. done.
  - by rewrite (delete_size (FiniteMap := F)), Hv, Hs, spec_remove_length.
  - by apply spec_remove_distinct.
Qed.

Lemma implements_clear : implements (op_clear ops) [].
Proof.
  split; [apply (clear_good (FiniteMap := F))|apply (clear_view (FiniteMap := F))|
          apply (clear_size (FiniteMap := F))|done].
Qed.

Lemma run_refines os c m : implements c m -> Forall (stores P) os ->
  run_cache ops os c = run_spec same os m.
Proof.
  intros Hi Ho. revert c m Hi. induction Ho as [|o os Hp _ IH]; [done|]. intros c m Hi.
  destruct o as [k|k|k v|k|]; simpl in *.
  - rewrite (get_view (FiniteMap := F)), (impl_view c m), (impl_size c m) by apply Hi. f_equal. auto.
  - rewrite (has_view (FiniteMap := F)), (impl_view c m), (impl_size c m) by apply Hi. f_equal. auto.
  - pose proof (implements_set c m k v Hi Hp) as Hi'. rewrite (impl_size _ _ Hi'). f_equal. auto.
  - destruct (implements_delete c m k Hi) as [Ha Hi'].
    destruct (op_delete ops k c) as [r c']. simpl in *. rewrite Ha, (impl_size _ _ Hi'). f_equal. auto.
  - rewrite (clear_size (FiniteMap := F)). f_equal. apply IH, implements_clear.
Qed.
End refinement.

(** ** memoize *)

Section memo.
Context {This Exn : Type}.
Variable nativeCreate has_Map : bool.
Variable func : This -> list value -> value + Exn.
Variable resolver : option (This -> list value -> value + Exn).

Abbreviation call := (This * list value)%type.

(** The results of a sequence of calls, and the keys for which the function was
    called and returned. *)
Fixpoint memo_run (calls : list call) (cache : MapCache) : list (value + Exn) * list value :=
  match calls with
  | [] => ([], [])
  | (this, args) :: calls' =>
      let '(r, cache', computed) := memoized nativeCreate func resolver this args cache in
      let '(rs, ks) := memo_run calls' cache' in
      (r :: rs,
       match computed, r, memo_key resolver this args with
       | true, inl _, inl k => k :: ks
       | _, _, _ => ks
       end)
  end.

(** What a call gives without the cache. *)
Definition plain_call (c : call) : value + Exn :=
  match memo_key resolver c.1 c.2 with
  | inl _ => func c.1 c.2
  | inr e => inr e
  end.

(** Calls with the same key have the same result. *)
Definition key_decides (calls : list call) : Prop :=
  forall c c' k k', c ∈ calls -> c' ∈ calls ->
    memo_key resolver c.1 c.2 = inl k -> memo_key resolver c'.1 c'.2 = inl k' ->
    same_key k k' = true -> func c.1 c.2 = func c'.1 c'.2.

Definition results_storable (calls : list call) : Prop :=
  forall c v, c ∈ calls -> func c.1 c.2 = inl v -> storable v.

(** The cache holds results of the function. *)
Definition holds_results (calls : list call) (cache : MapCache) : Prop :=
  good_cache nativeCreate cache /\
  forall k v, cache_view nativeCreate cache k = Some v ->
    exists c k', c ∈ calls /\ memo_key resolver c.1 c.2 = inl k' /\ same_key k' k = true
      /\ func c.1 c.2 = inl v.

Let F := map_cache_map nativeCreate has_Map.

(** One call: the result is the function's, and the cache grows by the key. *)
Lemma memoized_call calls this args cache :
  key_decides calls -> results_storable calls -> (this, args) ∈ calls ->
  holds_results calls cache ->
  let '(r, cache', computed) := memoized nativeCreate func resolver this args cache in
  r = plain_call (this, args) /\ holds_results calls cache'
  /\ (forall k, present (cache_view nativeCreate cache k) = true ->
        present (cache_view nativeCreate cache' k) = true)
  /\ (computed = true -> forall k v, memo_key resolver this args = inl k -> r = inl v ->
        present (cache_view nativeCreate cache k) = false
        /\ present (cache_view nativeCreate cache' k) = true).
Proof.
  intros Hk Hst Hin [Hg Hh]. unfold memoized, plain_call. simpl.
  destruct (memo_key resolver this args) as [k|e] eqn:Ek; [|by split_and!].
  pose proof (has_view (FiniteMap := F) cache k Hg) as Hhas. cbn [map_cache_ops op_has] in Hhas.
  pose proof (get_view (FiniteMap := F) cache k Hg) as Hget. cbn [map_cache_ops op_get] in Hget.
  rewrite Hhas. destruct (cache_view nativeCreate cache k) as [v|] eqn:Ev; simpl.
  - destruct (Hh k v Ev) as (c & k' & Hc & Hck & Hs & Hv). split_and!; [|done|done|done].
    rewrite Hget. simpl. rewrite <- Hv. apply (Hk c (this, args) k' k); done.
  - destruct (func this args) as [v|e] eqn:Ef; [|by split_and!].
    assert (Hv : storable v) by (by eapply (Hst (this, args))).
    pose proof (set_view (FiniteMap := F) cache k v) as Hset. cbn [map_cache_ops op_set] in Hset.
    split_and!; [done|split| |].
    + exact (set_good (FiniteMap := F) cache k v Hg Hv).
    + intros k0 v0. rewrite Hset by done. destruct (same_key k k0) eqn:Es; [|apply Hh].
      intros [= <-]. by exists (this, args), k.
    + intros k0 Hp. rewrite Hset by done. by destruct (same_key k k0).
    + intros _ k0 v0 [= <-] _. rewrite Ev, Hset by done.
      by rewrite (same_refl (FiniteMap := F)).
Qed.

Lemma memo_run_results calls done_ cache :
  key_decides calls -> results_storable calls -> incl done_ calls -> holds_results calls cache ->
  (memo_run done_ cache).1 = plain_call <$> done_
  /\ NoDup (key_class <$> (memo_run done_ cache).2)
  /\ Forall (fun k => present (cache_view nativeCreate cache k) = false) (memo_run done_ cache).2.
Proof.
  intros Hk Hst. revert cache. induction done_ as [|[this args] done_ IH]; intros cache Hi Hh.
  - split_and!; [done|apply NoDup_nil_2|constructor].
  - apply incl_cons_inv in Hi as [Hin Hi]. apply list_elem_of_In in Hin.
    pose proof (memoized_call calls this args cache Hk Hst Hin Hh) as Hc.
    simpl. destruct (memoized _ _ _ _ _ _) as [[r cache'] computed].
    destruct Hc as (Hr & Hh' & Hkeep & Hnew). specialize (IH cache' Hi Hh').
    destruct (memo_run done_ cache') as [rs ks]. simpl in *. destruct IH as (-> & Hd & Hf).
    assert (Hf' : Forall (fun k => present (cache_view nativeCreate cache k) = false) ks).
    { eapply Forall_impl; [exact Hf|]. intros k Hp. simpl in Hp. apply not_true_is_false.
      intros Ht. rewrite (Hkeep k Ht) in Hp. discriminate. }
    split; [by rewrite Hr|].
    destruct computed; [|done]. destruct r as [v|e]; [|done].
    destruct (memo_key resolver this args) as [k|e] eqn:Ek; [|done].
    destruct (Hnew eq_refl k v eq_refl eq_refl) as [H1 H2].
    split; [|by constructor]. simpl. apply NoDup_cons. split; [|done].
    intros Hin'. apply list_elem_of_fmap in Hin' as (k' & Hs & Hk').
    rewrite Forall_forall in Hf. specialize (Hf _ Hk'). simpl in Hf.
    rewrite <- (cache_view_same nativeCreate cache' k k') in Hf.
    + congruence.
    + by rewrite same_key_class, bool_decide_eq_true.
Qed.
End memo.

(** ** Stack *)

(** Numbers are the keys a list compares as numbers and a hash by their text. *)
Definition plain_key (k : value) : Prop := match k with VNumber _ => False | _ => True end.

Lemma same_key_plain k k' : plain_key k -> plain_key k' -> same_key k k' = eq k k'.
Proof.
  intros Hk Hk'. rewrite same_key_class, eq_canon. apply bool_decide_ext.
  destruct k, k'; simpl in *; try done; split; congruence.
Qed.

(** The lookups of a list with several pairs for a key: the last one counts. *)
Lemma last_split k m : lacks k m \/ exists l1 k0 v l2,
  m = l1 ++ (k0, v) :: l2 /\ eq k0 k = true /\ lacks k l2.
Proof.
  induction m as [|[k0 v0] m IH]; [left; constructor|].
  destruct IH as [Hl|(l1 & k1 & v1 & l2 & -> & Hk & H2)].
  - destruct (eq k0 k) eqn:E.
    + right. by exists [], k0, v0, m.
    + left. by constructor.
  - right. by exists ((k0, v0) :: l1), k1, v1, l2.
Qed.

Lemma lacks_reverse k m : lacks k m -> lacks k (reverse m).
Proof. unfold lacks. by rewrite Forall_reverse. Qed.

Lemma map_get_last k l1 k0 v l2 : eq k0 k = true -> lacks k l2 ->
  map_get k (reverse (l1 ++ (k0, v) :: l2)) = Some v.
Proof.
  intros Hk Hl. rewrite reverse_app, reverse_cons, <- (assoc_L (++)). simpl.
  apply map_get_split; [done|by apply lacks_reverse].
Qed.

Lemma listCacheGet_last k c :
  listCacheGet k c = default VUndefined (map_get k (reverse (list_data c))).
Proof.
  unfold listCacheGet. destruct (last_split k (list_data c)) as [Hl|(l1 & k0 & v & l2 & -> & Hk & H2)].
  - by rewrite assocIndexOf_lacks, (proj2 (map_get_lacks _ _) (lacks_reverse _ _ Hl)).
  - rewrite assocIndexOf_split, map_get_last by done.
    by rewrite lookup_app_r, Nat.sub_diag by done.
Qed.

Lemma listCacheHas_last k c : listCacheHas k c = present (map_get k (reverse (list_data c))).
Proof.
  unfold listCacheHas. destruct (last_split k (list_data c)) as [Hl|(l1 & k0 & v & l2 & -> & Hk & H2)].
  - by rewrite assocIndexOf_lacks, (proj2 (map_get_lacks _ _) (lacks_reverse _ _ Hl)).
  - by rewrite assocIndexOf_split, map_get_last.
Qed.

Section stack.
Variable nativeCreate has_Map : bool.
Let F := map_cache_map nativeCreate has_Map.

(** The stacks that can be made with keys that are no numbers. *)
Inductive stack_reached : Stack -> Prop :=
| stack_start : stack_reached stackClear
| stack_set s k v : stack_reached s -> plain_key k -> storable v ->
    stack_reached (stackSet nativeCreate has_Map k v s)
| stack_delete s k : stack_reached s -> stack_reached (stackDelete nativeCreate k s).2.

Definition entry_ok (p : value * value) : Prop := plain_key p.1 /\ storable p.2.

Record stack_ok (s : Stack) : Prop := {
  stack_ok_size : stack_size s = data_size (stack_data s);
  stack_ok_data : match stack_data s with
    | StackList c => list_size c = Z.of_nat (length (list_data c)) /\ Forall entry_ok (list_data c)
    | StackMap c => good_cache nativeCreate c
    end
}.

Definition stack_view (s : Stack) (k : value) : option value :=
  match stack_data s with
  | StackList c => map_get k (reverse (list_data c))
  | StackMap c => cache_view nativeCreate c k
  end.

(** There is room in the list. *)
Definition short (s : Stack) : bool :=
  match stack_data s with
  | StackList c => negb has_Map || (Z.of_nat (length (list_data c)) <? LARGE_ARRAY_SIZE - 1)
  | StackMap _ => false
  end.

Lemma stackGet_view k s : stack_ok s -> stackGet nativeCreate k s = default VUndefined (stack_view s k).
Proof.
  intros [_ Hd]. unfold stackGet, stack_view. destruct (stack_data s) as [c|c].
  - apply listCacheGet_last.
  - exact (get_view (FiniteMap := F) c k Hd).
Qed.

Lemma stackHas_view k s : stack_ok s -> stackHas nativeCreate k s = present (stack_view s k).
Proof.
  intros [_ Hd]. unfold stackHas, stack_view. destruct (stack_data s) as [c|c].
  - apply listCacheHas_last.
  - exact (has_view (FiniteMap := F) c k Hd).
Qed.

(** The list becomes a cache with the same lookups. *)
Lemma new_MapCache_view l : Forall entry_ok l ->
  good_cache nativeCreate (new_MapCache nativeCreate has_Map l)
  /\ forall k, plain_key k ->
     cache_view nativeCreate (new_MapCache nativeCreate has_Map l) k = map_get k (reverse l).
Proof.
  induction l as [|[k0 v0] l IH] using rev_ind; intros Hl.
  - split; [exact (clear_good (FiniteMap := F))|]. intros k _. exact (clear_view (FiniteMap := F) k).
  - apply Forall_app in Hl as [Hl Hp]. apply Forall_singleton in Hp as [Hk0 Hv0].
    destruct (IH Hl) as [Hg Hv]. unfold new_MapCache in *. rewrite foldl_snoc. simpl in *.
    split; [exact (set_good (FiniteMap := F) _ k0 v0 Hg Hv0)|]. intros k Hk.
    rewrite reverse_snoc. simpl. rewrite <- (Hv k Hk), <- (same_key_plain k0 k) by done.
    exact (set_view (FiniteMap := F) _ k0 v0 k Hg Hv0).
Qed.

Lemma stackSet_ok k v s : stack_ok s -> plain_key k -> storable v ->
  stack_ok (stackSet nativeCreate has_Map k v s)
  /\ forall k', plain_key k' ->
     stack_view (stackSet nativeCreate has_Map k v s) k' = if eq k k' then Some v else stack_view s k'.
Proof.
  intros [Hz Hd] Hk Hv. unfold stackSet, stack_view. destruct (stack_data s) as [c|c].
  - destruct Hd as [Hs Hf]. destruct (negb has_Map || _) eqn:E.
    + split; [split; [done|]; simpl; rewrite length_app, Forall_app; simpl|].
      * split; [lia|]. split; [done|]. by repeat constructor.
      * intros k' Hk'. simpl. rewrite reverse_snoc. done.
    + destruct (new_MapCache_view _ Hf) as [Hg Hnew]. split.
      * split; [done|]. exact (set_good (FiniteMap := F) _ k v Hg Hv).
      * intros k' Hk'. simpl. rewrite <- (Hnew k' Hk'), <- (same_key_plain k k') by done.
        exact (set_view (FiniteMap := F) _ k v k' Hg Hv).
  - split; [split; [done|exact (set_good (FiniteMap := F) _ k v Hd Hv)]|].
    intros k' Hk'. simpl. rewrite <- (same_key_plain k k') by done.
    exact (set_view (FiniteMap := F) _ k v k' Hd Hv).
Qed.

Lemma stackDelete_ok k s : stack_ok s -> stack_ok (stackDelete nativeCreate k s).2.
Proof.
  intros [Hz Hd]. unfold stackDelete. destruct (stack_data s) as [c|c].
  - destruct Hd as [Hs Hf]. unfold listCacheDelete.
    destruct (last_split k (list_data c)) as [Hl|(l1 & k0 & v & l2 & E & Hk & H2)].
    + rewrite assocIndexOf_lacks by done. split; [done|]. by simpl.
    + rewrite E in *. rewrite assocIndexOf_split by done. split; [done|]. simpl.
      rewrite Forall_app, Forall_cons in Hf. destruct Hf as (Hf1 & _ & Hf2).
      rewrite length_app in *. simpl in *.
      destruct (Nat.eqb_spec (length l1) (length l1 + S (length l2) - 1)) as [Hn|Hn].
      * destruct l2; [|simpl in Hn; lia]. simpl in *. rewrite <- Hn, take_app_length. split; [lia|done].
      * rewrite take_app_length, drop_app_ge by lia.
        replace (S (length l1) - length l1)%nat with 1%nat by lia. simpl.
        rewrite drop_0, length_app, Forall_app. split; [lia|done].
  - pose proof (delete_good (FiniteMap := F) c k Hd) as Hg. cbn [map_cache_ops op_delete] in Hg.
    destruct (mapCacheDelete nativeCreate k c). by split.
Qed.

Lemma stack_reached_ok s : stack_reached s -> stack_ok s.
Proof.
  induction 1 as [|s k v _ IH Hk Hv|s k _ IH].
  - by split.
  - by apply stackSet_ok.
  - by apply stackDelete_ok.
Qed.

(** A short list is a stack. *)
Lemma short_set_delete k v s : stack_ok s -> short s = true ->
  stackDelete nativeCreate k (stackSet nativeCreate has_Map k v s) = (true, s).
Proof.
  intros [Hz Hd] Hs. unfold short, stackSet in *. destruct s as [[c|c] z]; simpl in *; [|done].
  rewrite Hs. unfold stackDelete, listCacheDelete. simpl.
  rewrite assocIndexOf_split by (apply eq_key_refl || constructor). rewrite length_app. simpl.
  rewrite Nat.add_sub, Nat.eqb_refl, take_app_length. simpl. rewrite Hz.
  destruct c as [data n]. simpl. by rewrite Z.add_simpl_r.
Qed.

Lemma stackSet_long k v s : short s = false ->
  exists c, stack_data (stackSet nativeCreate has_Map k v s) = StackMap c.
Proof.
  unfold short, stackSet. destruct (stack_data s) as [c|c]; [intros ->|intros _]; by eexists.
Qed.

(** A large one is a map. *)
Lemma long_set_delete k v s k' : stack_ok s -> plain_key k -> plain_key k' -> storable v ->
  short s = false -> stack_view s k = None ->
  let '(r, s') := stackDelete nativeCreate k (stackSet nativeCreate has_Map k v s) in
  r = true /\ stack_ok s' /\ stack_view s' k' = stack_view s k'.
Proof.
  intros Hs Hk Hk' Hv Hl Hn. destruct (stackSet_ok k v s Hs Hk Hv) as [Hok Hview].
  pose proof (stackDelete_ok k _ Hok) as Hok'. destruct (stackSet_long k v s Hl) as [c Hc].
  pose proof (Hview k Hk) as Vk. pose proof (Hview k' Hk') as Vk'. rewrite eq_key_refl in Vk.
  unfold stackDelete, stack_view in *. rewrite Hc in *. destruct Hok as [_ Hg]. rewrite Hc in Hg.
  pose proof (mapCacheDelete_laws nativeCreate has_Map c k Hg) as L.
  destruct (mapCacheDelete nativeCreate k c) as [r c'] eqn:Ed. destruct L as (_ & L2 & _ & L4). simpl in *.
  split_and!; [by rewrite L2, Vk|done|]. rewrite L4, same_key_plain, Vk' by done.
  destruct (eq k k') eqn:E; [|done]. destruct (stack_data s) as [d|d].
  - by rewrite <- (map_get_same k k') by done.
  - by rewrite <- (cache_view_same nativeCreate d k k') by (by rewrite same_key_plain).
Qed.
End stack.

(** ** The properties *)

(** The marker does not survive in a hash. *)
Lemma marker_lost k c : isKeyable k = true ->
  mapCacheGet true k (mapCacheSet true k HASH_UNDEFINED c) = VUndefined.
Proof.
  intros Hk. unfold mapCacheGet, mapCacheSet, hashGet, hashSet.
  destruct (getMapData k) as [n|n|] eqn:E; cbn [mc_hash mc_string hash_data].
  - by rewrite assoc_get_set, jseqb_refl.
  - by rewrite assoc_get_set, jseqb_refl.
  - unfold getMapData in E. rewrite Hk in E. by destruct k.
Qed.

(** C24: whatever sequence of operations a [MapCache] goes through, its answers and
    its [size] are those of a list of pairs with different keys, with and without a
    native [Map] and [Object.create], as long as no value is the string that stands
    for [undefined] inside a hash.  Keys of different types are different keys,
    although the hash has only property names: the number 1 and the string "1", or
    [true] and "true", never meet, and neither does "__proto__" meet the prototype.
    The exception is real: with [Object.create], the string that stands for
    [undefined] is read back as [undefined] under every key of a hash. *)
Theorem map_cache_refines nativeCreate has_Map :
  (forall os, Forall (stores storable) os ->
     run_cache (map_cache_ops nativeCreate has_Map) os (mapCacheClear has_Map) = run_spec same_key os [])
  /\ (forall k c, isKeyable k = true ->
     mapCacheGet true k (mapCacheSet true k HASH_UNDEFINED c) = VUndefined).
Proof.
  split; [|apply marker_lost]. intros os.
  apply run_refines. exact (implements_clear (F := map_cache_map nativeCreate has_Map)).
Qed.

Lemma map_cache_refines_witness :
  let os := [CSet (VString (js "__proto__")) (VBool true); CSet VNull VUndefined; CHas VNull;
             CSet (VRef 3) VNull; CDelete VNull; CGet (VString (js "__proto__"));
             CSet (VBool true) VNull; CHas (VString (js "true"))] in
  Forall (stores storable) os /\
  run_cache (map_cache_ops true false) os (mapCacheClear false)
  = [(ANothing, 1); (ANothing, 2); (AFlag true, 2); (ANothing, 3); (AFlag true, 2);
     (AValue (VBool true), 2); (ANothing, 3); (AFlag false, 3)].
Proof.
  intros os. assert (Hs : Forall (stores storable) os) by (repeat constructor; discriminate).
  split; [exact Hs|]. rewrite (proj1 (map_cache_refines true false) os Hs). reflexivity.
Defined.

(** A memoized function gives the results of the function, and calls it at most
    once successfully for each key, as long as calls with the same key have the same
    result and no result is the string that stands for [undefined] inside a hash. *)
Lemma memoize_transparent {This Exn} nativeCreate has_Map (func : This -> list value -> value + Exn)
    resolver calls :
  key_decides func resolver calls -> results_storable func calls ->
  let '(results, computed) := memo_run nativeCreate func resolver calls (mapCacheClear has_Map) in
  results = plain_call func resolver <$> calls /\ NoDup (key_class <$> computed).
Proof.
  intros Hk Hs.
  assert (Hh : holds_results nativeCreate func resolver calls (mapCacheClear has_Map)).
  { split; [exact (clear_good (FiniteMap := map_cache_map nativeCreate has_Map))|].
    intros k v Hv. pose proof (clear_view (FiniteMap := map_cache_map nativeCreate has_Map) k) as Hn.
    simpl in Hn. congruence. }
  destruct (memo_run_results nativeCreate has_Map func resolver calls calls _ Hk Hs
    (List.incl_refl _) Hh) as (H1 & H2 & _).
  destruct (memo_run _ _ _ _ _) as [results computed]. by split.
Qed.


(** [memoize] loses one result: where the engine has [Object.create], a function
    that returns the marker of lodash returns [undefined] from its second call on. *)
Lemma memoized_marker_lost has_Map :
  (memo_run true (fun (_ : unit) (_ : list value) => inl HASH_UNDEFINED : value + unit) None
     [(tt, [VNull]); (tt, [VNull])] (mapCacheClear has_Map)).1
  = [inl HASH_UNDEFINED; inl VUndefined].
Proof. by destruct has_Map. Qed.

(** Whether it is a list, becomes a map or is one, a stack gives back what was
    set last for a key and keeps the other lookups; deleting a key right after it was
    set brings the lookups before back, as long as the list is short or the key is
    new.  Keys are no numbers. *)
Lemma stack_discipline nativeCreate has_Map s k v k' :
  stack_reached nativeCreate has_Map s -> plain_key k -> plain_key k' -> storable v ->
  stackGet nativeCreate k' (stackSet nativeCreate has_Map k v s)
  = (if eq k k' then v else stackGet nativeCreate k' s)
  /\ (short has_Map s = true \/ stackHas nativeCreate k s = false ->
      let '(r, s') := stackDelete nativeCreate k (stackSet nativeCreate has_Map k v s) in
      r = true /\ stackGet nativeCreate k' s' = stackGet nativeCreate k' s).
Proof.
  intros Hr Hk Hk' Hv. pose proof (stack_reached_ok nativeCreate has_Map s Hr) as Hs.
  destruct (stackSet_ok nativeCreate has_Map k v s Hs Hk Hv) as [Hok Hview]. split.
  - rewrite !(stackGet_view nativeCreate has_Map), Hview by done. by destruct (eq k k').
  - intros Hn. destruct (short has_Map s) eqn:El; [by rewrite short_set_delete|].
    destruct Hn as [Hn|Hn]; [done|]. rewrite (stackHas_view nativeCreate has_Map) in Hn by done.
    assert (Hn' : stack_view nativeCreate s k = None) by (by destruct (stack_view nativeCreate s k)).
    pose proof (long_set_delete nativeCreate has_Map k v s k' Hs Hk Hk' Hv El Hn') as L.
    destruct (stackDelete _ _ _) as [r s']. destruct L as (-> & Hs' & Hv').
    by rewrite !(stackGet_view nativeCreate has_Map), Hv'.
Qed.

(** Without a resolver only the first argument counts. *)
Lemma memoize_first_argument {This Exn} nativeCreate has_Map (func : This -> list value -> value + Exn)
    this this' args args' v :
  args !! 0%nat = args' !! 0%nat -> func this args = inl v -> storable v ->
  (memo_run nativeCreate func None [(this, args); (this', args')] (mapCacheClear has_Map)).1 = [inl v; inl v].
Proof.
  intros Ha Hf Hv. set (F := map_cache_map nativeCreate has_Map).
  cbn [memo_run]. unfold memoized. cbn [memo_key]. rewrite <- Ha. set (k := default VUndefined (args !! 0%nat)).
  pose proof (clear_good (FiniteMap := F)) as Hg. pose proof (has_view (FiniteMap := F) _ k Hg) as Hh.
  rewrite (clear_view (FiniteMap := F)) in Hh. cbn [map_cache_ops op_has op_clear] in Hh. rewrite Hh, Hf.
  pose proof (set_good (FiniteMap := F) _ k v Hg Hv) as Hg'. pose proof (set_view (FiniteMap := F) _ k v k Hg Hv) as Hs.
  rewrite (same_refl (FiniteMap := F)) in Hs.
  pose proof (has_view (FiniteMap := F) _ k Hg') as Hh'. pose proof (get_view (FiniteMap := F) _ k Hg') as Hr.
  rewrite Hs in Hh', Hr. cbn [map_cache_ops op_has op_get op_set op_clear] in Hh', Hr.
  cbv beta iota delta [present]. by rewrite Hh', Hr.
Qed.

(** C33: a memoized function gives the results of the function, and calls it at most
    once successfully for each key, as long as calls with the same key have the same
    result and no result is the string that stands for [undefined] inside a hash.
    Both conditions are needed.  Without a resolver the key is the first argument alone:
    a second call that differs in the other arguments or in [this] gives the result of
    the first.  And where the engine has [Object.create], a function that returns the
    marker of lodash returns [undefined] from its second call on. *)
Theorem memoize_results {This Exn} nativeCreate has_Map (func : This -> list value -> value + Exn) :
  (forall resolver calls, key_decides func resolver calls -> results_storable func calls ->
   let '(results, computed) := memo_run nativeCreate func resolver calls (mapCacheClear has_Map) in
   results = plain_call func resolver <$> calls /\ NoDup (key_class <$> computed))
  /\ (forall this this' args args' v,
       args !! 0%nat = args' !! 0%nat -> func this args = inl v -> storable v ->
       (memo_run nativeCreate func None [(this, args); (this', args')] (mapCacheClear has_Map)).1
       = [inl v; inl v])
  /\ (memo_run true (fun (_ : unit) (_ : list value) => inl HASH_UNDEFINED : value + unit) None
       [(tt, [VNull]); (tt, [VNull])] (mapCacheClear has_Map)).1
     = [inl HASH_UNDEFINED; inl VUndefined].
Proof.
  split; [|split; [|apply memoized_marker_lost]].
  - intros resolver calls. apply memoize_transparent.
  - intros this this' args args' v. apply memoize_first_argument.
Qed.

Lemma memoize_results_witness :
  let func := fun (_ : unit) (args : list value) =>
    match args with VRef 0 :: _ => inr tt | x :: _ => inl x | [] => inl VNull end in
  let calls := [(tt, [VBool true]); (tt, [VRef 0]); (tt, []); (tt, [VBool true; VNull])] in
  let '(results, computed) := memo_run true func None calls (mapCacheClear true) in
  results = [inl (VBool true); inr tt; inl VNull; inl (VBool true)] /\ NoDup (key_class <$> computed).
Proof.
  apply (proj1 (memoize_results true true
    (fun (_ : unit) (args : list value) =>
       match args with VRef 0 :: _ => inr tt | x :: _ => inl x | [] => inl VNull end))
    None [(tt, [VBool true]); (tt, [VRef 0]); (tt, []); (tt, [VBool true; VNull])]).
  - intros c c' k k'. rewrite !list_elem_of_In. simpl.
    intros [<-|[<-|[<-|[<-|[]]]]] [<-|[<-|[<-|[<-|[]]]]] [= <-] [= <-]; vm_compute; congruence.
  - intros c v. rewrite list_elem_of_In. simpl.
    intros [<-|[<-|[<-|[<-|[]]]]]; simpl; intros [= <-]; discriminate.
Defined.
