(* ===== verification/LodashMatch.v ===== *)
(** * lodash: comparing and finding values

    [find] looks for the first element that matches a source object.  A source is
    compared with [baseIsEqual] under the flags of its two callers,
    [COMPARE_PARTIAL_FLAG | COMPARE_UNORDERED_FLAG]: the object may have more
    properties than the source, and the elements of an array are found in any order.
    The comparison is a recursion over the two values that keeps the objects
    it is inside of in a [Stack], so that it can deal with values that contain
    themselves; this stack is the state of the monad.

    There is no customizer, as its callers have none.  The heap holds plain objects,
    arrays, dates, buffers, regular expressions and functions, and no boxed
    primitives, maps or sets. *)

From S2P Require Import JsPrelude JsNumber JsValue LodashCache.

Section matching.
Variable nativeCreate has_Map : bool.
Variable hs : Host.
(** What a value has from the built-in objects of the language: the properties of
    its wrapper, of its built-in prototype or of a built-in object it inherits from. *)
Variable inherited : value -> jsstr -> option value.
Variable h : heap.

(** ** Properties *)

(** [k in Object(v)] and [v[k]]: the property, if there is one. *)
Definition property (v : value) (k : jsstr) : option value :=
  match v with
  | VRef l =>
      match h !! l with
      | Some (OObject o) =>
          match chain_lookup (length h) h o k with
          | Found x => Some x
          | EndNull => None
          | EndObject | EndHost => inherited v k
          end
      | Some o => if existsb (jseqb k) (object_keys o) then Some (object_get o k) else inherited v k
      | None => None
      end
  | _ => inherited v k
  end.

Definition get_property (v : value) (k : jsstr) : value := default VUndefined (property v k).

Definition has_property (v : value) (k : jsstr) : bool :=
  match property v k with Some _ => true | None => false end.

(** [v == null]. *)
Definition nullish (v : value) : bool :=
  match v with VUndefined | VNull => true | _ => false end.

Definition isObject (v : value) : bool := match v with VRef _ => true | _ => false end.

(** Functions are not object-like. *)
Definition isObjectLike (v : value) : bool :=
  match v with
  | VRef l => match h !! l with Some (OFunction _ _) => false | Some _ => true | None => false end
  | _ => false
  end.

(** ** Comparing *)

Definition M (A : Type) : Type := SE Stack native_error A.

(** [stacked && stack.get(other)]: the answer when both are in the stack. *)
Definition stacked (object other : value) : M (option bool) := fun s =>
  let stacked := stackGet nativeCreate object s in
  Ret (match stacked, stackGet nativeCreate other s with
       | VRef _, VRef _ => Some (strict_eq stacked other)
       | _, _ => None
       end, s).

Definition push (object other : value) : M unit :=
  modifyS (fun s => stackSet nativeCreate has_Map other object (stackSet nativeCreate has_Map object other s)).

Definition pop (object other : value) : M unit :=
  modifyS (fun s => (stackDelete nativeCreate other (stackDelete nativeCreate object s).2).2).

Section equalFunc.
Variable equalFunc : value -> value -> M bool.

Definition same (objValue othValue : value) : M bool :=
  if strict_eq objValue othValue then mret true else equalFunc objValue othValue.

(** [arraySome(other, ...)]: the element is compared with those not seen yet, and the
    first one equal to it is marked as seen. *)
Fixpoint arraySome (arrValue : value) (other : list value) (othIndex : Z) (seen : MapCache)
    : M (option MapCache) :=
  match other with
  | [] => mret None
  | othValue :: other' =>
      if setCacheHas nativeCreate (VNumber (num_of_Z othIndex)) seen
      then arraySome arrValue other' (othIndex + 1) seen
      else
        r ← same arrValue othValue;
        if (r : bool) then mret (Some (setCacheAdd nativeCreate (VNumber (num_of_Z othIndex)) seen))
        else arraySome arrValue other' (othIndex + 1) seen
  end.

Fixpoint array_loop (array other : list value) (seen : MapCache) : M bool :=
  match array with
  | [] => mret true
  | arrValue :: array' =>
      r ← arraySome arrValue other 0 seen;
      match r with
      | Some seen' => array_loop array' other seen'
      | None => mret false
      end
  end.

Definition equalArrays (object other : value) (array array' : list value) : M bool :=
  if negb (Nat.eqb (length array) (length array')) && negb (Nat.ltb (length array) (length array'))
  then mret false
  else
    st ← stacked object other;
    match st with
    | Some b => mret b
    | None =>
        _ ← push object other;
        result ← array_loop array array' (SetCache nativeCreate has_Map []);
        _ ← pop object other;
        mret result
    end.

Fixpoint object_loop (o : object) (other : value) (objProps : list jsstr) : M bool :=
  match objProps with
  | [] => mret true
  | key :: objProps' =>
      r ← same (default VUndefined (assoc_get (props o) key)) (get_property other key);
      if (r : bool) then object_loop o other objProps' else mret false
  end.

(** The loop over the names goes from the last to the first and only tests. *)
Definition equalObjects (object other : value) (o : JsValue.object) : M bool :=
  let objProps := object_keys (OObject o) in
  if negb (forallb (has_property other) (reverse objProps)) then mret false
  else
    st ← stacked object other;
    match st with
    | Some b => mret b
    | None =>
        _ ← push object other;
        result ← object_loop o other objProps;
        _ ← pop object other;
        mret result
    end.

Definition bytes_values (bs : list Z) : list value := (fun b => VNumber (num_of_Z b)) <$> bs.

(** The tags of the two objects; of those [equalByTag] knows, dates and regular
    expressions are on the heap. *)
Definition baseIsEqualDeep (object other : value) : M bool :=
  match object, other with
  | VRef l, VRef l' =>
      match h !! l, h !! l' with
      | Some (OArray es), Some (OArray es') => equalArrays object other es es'
      | Some (OBuffer bs), Some (OBuffer bs') =>
          equalArrays object other (bytes_values bs) (bytes_values bs')
      | Some (ODate t), Some (ODate t') => mret (eq (VNumber (num_of_Z t)) (VNumber (num_of_Z t')))
      | Some (ORegExp _ _), Some (ORegExp _ _) =>
          s' ← liftO (value_toString hs h other);
          s ← liftO (value_toString hs h object);
          mret (jseqb s s')
      | Some (OObject o), Some (OObject _) => equalObjects object other o
      | _, _ => mret false
      end
  | _, _ => mret false
  end.
End equalFunc.

(** [fuel] bounds the depth of the recursion. *)
Fixpoint baseIsEqual (fuel : nat) (v other : value) : M bool :=
  match fuel with
  | O => diverge
  | S fuel' =>
      if strict_eq v other then mret true
      else if nullish v || nullish other || negb (isObjectLike v) && negb (isObjectLike other)
      then mret (negb (strict_eq v v) && negb (strict_eq other other))
      else baseIsEqualDeep (baseIsEqual fuel') v other
  end.

(** ** Matching *)

Definition isStrictComparable (v : value) : bool := strict_eq v v && negb (isObject v).

(** The keys of the source with their values. *)
Definition getMatchData (source : hobj) : list (jsstr * value * bool) :=
  (fun key => let v := object_get source key in (key, v, isStrictComparable v)) <$> object_keys source.

Definition matchesStrictComparable (key : jsstr) (srcValue object : value) : bool :=
  if nullish object then false
  else strict_eq (get_property object key) srcValue
       && (negb (strict_eq srcValue VUndefined) || has_property object key).

(** The first loop, from the last key to the first. *)
Definition passes (object : value) (data : jsstr * value * bool) : bool :=
  let '(key, srcValue, strict) := data in
  if strict : bool then strict_eq srcValue (get_property object key) else has_property object key.

(** The second loop; each comparison has a new stack. *)
Fixpoint match_loop (fuel : nat) (object : value) (matchData : list (jsstr * value * bool))
    : outcome native_error bool :=
  match matchData with
  | [] => Ret true
  | (key, srcValue, strict) :: matchData' =>
      let objValue := get_property object key in
      if strict : bool then
        if strict_eq objValue VUndefined && negb (has_property object key) then Ret false
        else match_loop fuel object matchData'
      else
        '(r, _) ← baseIsEqual fuel srcValue objValue stackClear;
        if (r : bool) then match_loop fuel object matchData' else Ret false
  end.

Definition baseIsMatch (fuel : nat) (object : value) (matchData : list (jsstr * value * bool))
    : outcome native_error bool :=
  if nullish object then Ret (Nat.eqb (length matchData) 0)
  else if negb (forallb (passes object) (reverse matchData)) then Ret false
  else match_loop fuel object matchData.

(** The predicate for the source at the location [source]. *)
Definition baseMatches (fuel : nat) (source : nat) (object : value) : outcome native_error bool :=
  match h !! source with
  | Some o =>
      let matchData := getMatchData o in
      match matchData with
      | [(key, srcValue, true)] => Ret (matchesStrictComparable key srcValue object)
      | _ => if strict_eq object (VRef source) then Ret true else baseIsMatch fuel object matchData
      end
  | None => Ret false
  end.

(** ** Finding *)

(** The loop from [index] on, in an array of [length] elements; [None] is -1. *)
Fixpoint find_from (predicate : value -> outcome native_error bool) (array : list value) (index : nat)
    : outcome native_error (option nat) :=
  match array with
  | [] => Ret None
  | v :: array' =>
      r ← predicate v;
      if (r : bool) then Ret (Some index) else find_from predicate array' (S index)
  end.

Definition baseFindIndex (predicate : value -> outcome native_error bool) (array : list value)
    (fromIndex : nat) : outcome native_error (option nat) :=
  find_from predicate (drop fromIndex array) fromIndex.

(** [fromIndex] is an integer or missing. *)
Definition findIndex (predicate : value -> outcome native_error bool) (array : list value)
    (fromIndex : option Z) : outcome native_error (option nat) :=
  match array with
  | [] => Ret None
  | _ =>
      let index := default 0 fromIndex in
      let index := if index <? 0 then Z.max (strlen array + index) 0 else index in
      baseFindIndex predicate array (Z.to_nat index)
  end.

(** [find] on an array. *)
Definition find (predicate : value -> outcome native_error bool) (array : list value)
    (fromIndex : option Z) : outcome native_error value :=
  index ← findIndex predicate array fromIndex;
  Ret (match index with Some i => default VUndefined (array !! i) | None => VUndefined end).
End matching.
