(* ===== verification/LodashMatchTheory.v ===== *)
(** * lodash: the comparison ends

    While its stack is a list, the comparison leaves the stack as it was, and every
    object it goes into is new to one of its sides, so that it ends on every heap,
    also on values that contain themselves.  When the stack has become a map, leaving
    an object forgets that it is still being compared further up, and the
    comparison can go on for ever. *)

From S2P Require Import JsPrelude JsNumber JsValue LodashCache LodashCacheTheory LodashCacheClients LodashMatch.

(** ** Loops of a comparison that keeps its stack *)

Section loops.
Variable nativeCreate has_Map : bool.
Variable inherited : value -> jsstr -> option value.
Variable h : heap.
Variable equalFunc : value -> value -> M bool.
Variable s : Stack.
Variable R : native_error -> Prop.

(** What every comparison of two elements does. *)
Hypothesis equalFunc_keeps : forall v o, wp (equalFunc v o) (fun _ s' => s' = s) R s.

Lemma same_keeps v o : wp (same equalFunc v o) (fun _ s' => s' = s) R s.
Proof. unfold same. wp_case E; [done|]. apply equalFunc_keeps. Qed.

Lemma arraySome_keeps v os : forall i seen,
  wp (arraySome nativeCreate equalFunc v os i seen) (fun _ s' => s' = s) R s.
Proof.
  induction os as [|o os IH]; intros i seen; simpl; [done|]. wp_case E; [apply IH|].
  wp_prim. wp_use same_keeps. intros [] s' ->; [done|apply IH].
Qed.

Lemma array_loop_keeps es os : forall seen,
  wp (array_loop nativeCreate equalFunc es os seen) (fun _ s' => s' = s) R s.
Proof.
  induction es as [|e es IH]; intros seen; simpl; [done|].
  wp_prim. wp_use arraySome_keeps. intros [seen'|] s' ->; [apply IH|done].
Qed.

Lemma object_loop_keeps o other ks :
  wp (object_loop inherited h equalFunc o other ks) (fun _ s' => s' = s) R s.
Proof.
  induction ks as [|k ks IH]; simpl; [done|].
  wp_prim. wp_use same_keeps. intros [] s' ->; [apply IH|done].
Qed.
End loops.

(** ** The stack while it is a list *)

Definition list_stack (ps : list (value * value)) : Stack :=
  mkStack (StackList (mkListCache ps (Z.of_nat (length ps)))) (Z.of_nat (length ps)).

Section stack_list.
Variable nativeCreate has_Map : bool.
Implicit Types ps : list (value * value).

Lemma list_stack_get k ps :
  stackGet nativeCreate k (list_stack ps) = default VUndefined (map_get k (reverse ps)).
Proof. apply listCacheGet_last. Qed.

(** There is room for one frame. *)
Definition roomy ps : Prop := has_Map = false \/ Z.of_nat (length ps) + 2 <= LARGE_ARRAY_SIZE - 1.

Lemma list_stack_set k v ps : (has_Map = false \/ Z.of_nat (length ps) < LARGE_ARRAY_SIZE - 1) ->
  stackSet nativeCreate has_Map k v (list_stack ps) = list_stack (ps ++ [(k, v)]).
Proof.
  intros H. unfold stackSet, list_stack. simpl.
  replace (negb has_Map || _) with true by (destruct H as [->|H]; [done|]; destruct has_Map; simpl; lia).
  rewrite length_app. simpl. by rewrite Nat2Z.inj_add.
Qed.

Lemma list_stack_delete k v ps ps' : lacks k ps' ->
  (stackDelete nativeCreate k (list_stack (ps ++ (k, v) :: ps'))).2 = list_stack (ps ++ ps').
Proof.
  intros H. unfold stackDelete, list_stack, listCacheDelete. cbn [stack_data list_data list_size].
  rewrite assocIndexOf_split by (done || apply eq_key_refl). rewrite !length_app. simpl.
  assert (E : Z.of_nat (length ps + S (length ps')) - 1 = Z.of_nat (length ps + length ps')) by lia.
  rewrite E. f_equal. f_equal. f_equal.
  destruct (Nat.eqb_spec (length ps) (length ps + S (length ps') - 1)) as [Hn|Hn].
  - destruct ps'; [|simpl in Hn; lia]. by rewrite <- Hn, take_app_length, app_nil_r.
  - rewrite take_app_length, drop_app_ge by lia. by replace (S (length ps) - length ps)%nat with 1%nat by lia.
Qed.

Lemma push_list a b ps : roomy ps ->
  push nativeCreate has_Map a b (list_stack ps) = Ret (tt, list_stack (ps ++ [(a, b); (b, a)])).
Proof.
  intros H. unfold push, modifyS.
  rewrite !list_stack_set by (destruct H; [by left|right; rewrite ?length_app; simpl; lia]).
  by rewrite <- app_assoc.
Qed.

Lemma pop_list a b ps : eq b a = false ->
  pop nativeCreate a b (list_stack (ps ++ [(a, b); (b, a)])) = Ret (tt, list_stack ps).
Proof.
  intros H. unfold pop, modifyS. rewrite list_stack_delete by (by repeat constructor).
  rewrite list_stack_delete by constructor. by rewrite app_nil_r.
Qed.
End stack_list.

(** ** Objects that have not been entered yet *)

Lemma filter_length_lt {A} (f g : A -> bool) l x :
  (forall y, f y = true -> g y = true) -> In x l -> g x = true -> f x = false ->
  (length (List.filter f l) < length (List.filter g l))%nat.
Proof.
  intros Hfg. induction l as [|y l IH]; [done|]. intros [->|Hx] Hg Hf; simpl.
  - rewrite Hg, Hf. simpl. apply Nat.lt_succ_r. clear IH. induction l as [|z l IH]; [done|]. simpl.
    specialize (Hfg z). destruct (f z), (g z); simpl; (lia || by discriminate Hfg).
  - specialize (IH Hx Hg Hf). specialize (Hfg y). destruct (f y), (g y); simpl; (lia || by discriminate Hfg).
Qed.

Definition entered (ps : list (value * value)) (l : nat) : bool := present (map_get (VRef l) (reverse ps)).

Definition unseen (h : heap) (ps : list (value * value)) : nat :=
  length (List.filter (fun l => negb (entered ps l)) (seq 0 (length h))).

Definition refs (ps : list (value * value)) : Prop :=
  Forall (fun p => LodashMatch.isObject p.1 = true /\ LodashMatch.isObject p.2 = true) ps.

Lemma refs_get k ps v : refs ps -> map_get k (reverse ps) = Some v -> exists l, v = VRef l.
Proof.
  unfold refs. rewrite <- (reverse_involutive ps) at 1. rewrite Forall_reverse.
  induction (reverse ps) as [|[k' v'] l IH]; intros H; [done|]. simpl. apply Forall_cons in H as [[_ Hv] H].
  destruct (eq k' k); [|by apply IH]. intros [= <-]. destruct v'; try done. by eexists.
Qed.

Lemma eq_ref l l' : eq (VRef l) (VRef l') = Nat.eqb l l'.
Proof. unfold eq. simpl. by rewrite Nat.eqb_refl, !orb_false_r. Qed.

Definition frame (l l' : nat) : list (value * value) := [(VRef l, VRef l'); (VRef l', VRef l)].

Lemma entered_frame ps l l' x : entered (ps ++ frame l l') x = Nat.eqb l' x || Nat.eqb l x || entered ps x.
Proof.
  unfold entered. rewrite reverse_app. simpl. rewrite !eq_ref.
  by destruct (Nat.eqb l' x), (Nat.eqb l x).
Qed.

Lemma unseen_frame h ps l l' : (l < length h)%nat -> (l' < length h)%nat ->
  entered ps l = false \/ entered ps l' = false ->
  (unseen h (ps ++ frame l l') < unseen h ps)%nat.
Proof.
  intros Hl Hl' [Hn|Hn].
  - apply (filter_length_lt _ _ _ l); [|apply in_seq; lia|by rewrite Hn|].
    + intros x. rewrite entered_frame. by destruct (entered ps x); rewrite ?orb_true_r.
    + by rewrite entered_frame, Nat.eqb_refl, orb_true_r.
  - apply (filter_length_lt _ _ _ l'); [|apply in_seq; lia|by rewrite Hn|].
    + intros x. rewrite entered_frame. by destruct (entered ps x); rewrite ?orb_true_r.
    + by rewrite entered_frame, Nat.eqb_refl.
Qed.

Lemma unseen_nil h : unseen h [] = length h.
Proof. unfold unseen. simpl. rewrite <- (length_seq (length h) 0) at 2. f_equal. induction (seq _ _); simpl; congruence. Qed.

Section termination.
Variable nativeCreate has_Map : bool.
Variable hs : Host.
Variable inherited : value -> jsstr -> option value.
Variable h : heap.

(** All frames that can still be opened find room. *)
Definition enough_room (ps : list (value * value)) : Prop :=
  has_Map = false \/ Z.of_nat (length ps) + 2 * Z.of_nat (unseen h ps) <= LARGE_ARRAY_SIZE - 1.

Lemma frame_keeps ps l l' (body : M bool) :
  refs ps -> enough_room ps -> l <> l' -> (l < length h)%nat -> (l' < length h)%nat ->
  ((unseen h (ps ++ frame l l') < unseen h ps)%nat -> refs (ps ++ frame l l') ->
   enough_room (ps ++ frame l l') ->
   wp body (fun _ s' => s' = list_stack (ps ++ frame l l')) (fun _ => True) (list_stack (ps ++ frame l l'))) ->
  wp (st ← stacked nativeCreate (VRef l) (VRef l');
      match st with
      | Some b => mret b
      | None =>
          _ ← push nativeCreate has_Map (VRef l) (VRef l');
          result ← body;
          _ ← pop nativeCreate (VRef l) (VRef l');
          mret result
      end) (fun _ s' => s' = list_stack ps) (fun _ => True) (list_stack ps).
Proof.
  intros Hps Hroom Hne Hl Hl' Hbody. wp_prim. unfold wp at 1, stacked. rewrite !list_stack_get.
  destruct (match default _ _ with VRef _ => _ | _ => _ end) eqn:Es; [done|].
  assert (Hn : entered ps l = false \/ entered ps l' = false).
  { unfold entered. destruct (map_get (VRef l) _) as [v|] eqn:E1; [|by left].
    destruct (map_get (VRef l') _) as [v'|] eqn:E2; [|by right].
    destruct (refs_get _ _ _ Hps E1) as [? ->], (refs_get _ _ _ Hps E2) as [? ->]. done. }
  pose proof (unseen_frame h ps l l' Hl Hl' Hn) as Hlt.
  wp_prim. unfold wp at 1. rewrite push_list.
  2: { destruct Hroom as [?|Hr]; [by left|right]. lia. }
  wp_prim. wp_use Hbody; [done|..].
  - apply Forall_app. split; [done|]. by repeat constructor.
  - destruct Hroom as [?|Hr]; [by left|right]. rewrite length_app. simpl. lia.
  - intros result s' ->. wp_prim. unfold wp at 1. rewrite pop_list; [done|].
    rewrite eq_ref. by apply Nat.eqb_neq.
Qed.

Lemma regexp_text_ends l (Q : jsstr -> Stack -> Prop) s :
  (exists src fl, h !! l = Some (ORegExp src fl)) -> (forall t, Q t s) ->
  wp (liftO (value_toString hs h (VRef l)) : M jsstr) Q (fun _ => True) s.
Proof.
  intros (src & fl & Hl) HQ. apply wp_liftO. unfold value_toString, of_host.
  destruct (length h); simpl; rewrite Hl; destruct (host_string hs h l); [done|apply HQ|done|apply HQ].
Qed.

Lemma lookup_bound l o : h !! l = Some o -> (l < length h)%nat.
Proof. apply lookup_lt_Some. Qed.

(** The comparison of two values ends and leaves the stack as it was. *)
Lemma baseIsEqual_ends fuel : forall v o ps, refs ps -> enough_room ps -> (unseen h ps < fuel)%nat ->
  wp (baseIsEqual nativeCreate has_Map hs inherited h fuel v o)
     (fun _ s' => s' = list_stack ps) (fun _ => True) (list_stack ps).
Proof.
  induction fuel as [|fuel IH]; intros v o ps Hps Hroom Hf; [lia|]. simpl.
  wp_case E1; [done|]. wp_case E2; [done|].
  unfold baseIsEqualDeep. destruct v as [| | | | |l]; try done. destruct o as [| | | | |l']; try done.
  assert (Hne : l <> l') by (simpl in E1; by apply Nat.eqb_neq in E1).
  destruct (h !! l) as [[]|] eqn:Hl; try done; destruct (h !! l') as [[]|] eqn:Hl'; try done;
    pose proof (lookup_bound _ _ Hl); pose proof (lookup_bound _ _ Hl').
  - unfold equalObjects. wp_case E3; [done|]. apply frame_keeps; [done..|].
    intros Hu Hr He. apply object_loop_keeps. intros v o'. apply IH; [done..|lia].
  - unfold equalArrays. wp_case E3; [done|]. apply frame_keeps; [done..|].
    intros Hu Hr He. apply array_loop_keeps. intros v o'. apply IH; [done..|lia].
  - unfold equalArrays. wp_case E3; [done|]. apply frame_keeps; [done..|].
    intros Hu Hr He. apply array_loop_keeps. intros v o'. apply IH; [done..|lia].
  - wp_prim. apply regexp_text_ends; [by eexists _, _|]. intros t. wp_prim.
    apply regexp_text_ends; [by eexists _, _|done].
Qed.

Lemma match_loop_ends fuel object data : has_Map = false \/ (length h <= 99)%nat -> (length h < fuel)%nat ->
  match_loop nativeCreate has_Map hs inherited h fuel object data <> OutOfFuel.
Proof.
  intros Hm Hf. induction data as [|[[key v] strict] data IH]; simpl; [done|].
  destruct strict; [by destruct (_ && _)|]. unfold mbind, outcome_bind.
  pose proof (baseIsEqual_ends fuel v (get_property inherited h object key) []) as He.
  unfold enough_room, wp in He. rewrite unseen_nil in He.
  change (list_stack []) with stackClear in He.
  destruct (baseIsEqual _ _ _ _ _ _ _ _ _) as [[[] s']|e|]; [done..|]. exfalso.
  apply He; [constructor| |done]. destruct Hm as [Hm|Hm]; [by left|right]. unfold LARGE_ARRAY_SIZE. simpl. lia.
Qed.
End termination.

(** ** The stack when it has become a map *)

Section stack_map.
Variable nativeCreate : bool.
Implicit Types s : Stack.

Definition map_stack s : Prop := stack_ok nativeCreate s /\ exists c, stack_data s = StackMap c.

Lemma map_stack_set l l' s : map_stack s ->
  map_stack (stackSet nativeCreate true (VRef l) (VRef l') s)
  /\ forall x, stack_view nativeCreate (stackSet nativeCreate true (VRef l) (VRef l') s) (VRef x)
      = if Nat.eqb l x then Some (VRef l') else stack_view nativeCreate s (VRef x).
Proof.
  intros [Hok [c Hc]]. destruct (stackSet_ok nativeCreate true (VRef l) (VRef l') s) as [H1 H2]; [done..|].
  split; [split; [done|]|].
  - unfold stackSet. rewrite Hc. by eexists.
  - intros x. by rewrite H2, eq_ref.
Qed.

Lemma map_stack_delete l s : map_stack s ->
  map_stack (stackDelete nativeCreate (VRef l) s).2
  /\ forall x, stack_view nativeCreate (stackDelete nativeCreate (VRef l) s).2 (VRef x)
      = if Nat.eqb l x then None else stack_view nativeCreate s (VRef x).
Proof.
  intros [Hok [c Hc]]. pose proof (stackDelete_ok nativeCreate true (VRef l) s Hok) as H1.
  destruct Hok as [_ Hg]. unfold stackDelete, stack_view in *. rewrite Hc in *.
  pose proof (mapCacheDelete_laws nativeCreate true c (VRef l) Hg) as L.
  destruct (mapCacheDelete _ _ _) as [r c']. destruct L as (_ & _ & _ & L). split.
  - split; [done|by eexists].
  - intros x. cbn [snd stack_data]. by rewrite L, same_key_plain, eq_ref.
Qed.

Lemma map_stack_get l s : map_stack s ->
  stackGet nativeCreate (VRef l) s = default VUndefined (stack_view nativeCreate s (VRef l)).
Proof. intros [Hok _]. by apply (stackGet_view nativeCreate true). Qed.
End stack_map.

(** ** One step into two plain objects *)

Section enter.
Variable nativeCreate has_Map : bool.
Variable hs : Host.
Variable inherited : value -> jsstr -> option value.
Variable h : heap.

(** Two different objects, the second with all names of the first. *)
Record objects (l l' : nat) (o : object) : Prop := {
  objects_ne : Nat.eqb l l' = false;
  objects_left : h !! l = Some (OObject o);
  objects_right : match h !! l' with Some (OObject _) => true | _ => false end = true;
  objects_names : forallb (has_property inherited h (VRef l')) (reverse (object_keys (OObject o))) = true
}.

Lemma equal_objects fuel l l' o s : objects l l' o ->
  baseIsEqual nativeCreate has_Map hs inherited h (S fuel) (VRef l) (VRef l') s
  = equalObjects nativeCreate has_Map inherited h
      (baseIsEqual nativeCreate has_Map hs inherited h fuel) (VRef l) (VRef l') o s.
Proof.
  intros [Hne Hl Hr _]. destruct (h !! l') as [[o'| | | | |]|] eqn:Hl'; try discriminate Hr.
  cbn [baseIsEqual strict_eq nullish isObjectLike]. rewrite Hne, Hl, Hl'.
  cbn [negb andb orb]. unfold baseIsEqualDeep. by rewrite Hl, Hl'.
Qed.

Lemma equal_stacked fuel l l' m o s : objects l l' o ->
  stackGet nativeCreate (VRef l) s = VRef l' -> stackGet nativeCreate (VRef l') s = VRef m ->
  baseIsEqual nativeCreate has_Map hs inherited h (S fuel) (VRef l) (VRef l') s = Ret (true, s).
Proof.
  intros Ho H1 H2. rewrite (equal_objects _ _ _ _ _ Ho). destruct Ho as [_ _ _ Hn].
  unfold equalObjects. rewrite Hn. cbn [negb]. unfold mbind, SE_bind, stacked. rewrite H1, H2. simpl.
  by rewrite Nat.eqb_refl.
Qed.

Lemma equal_enters fuel l l' o s : objects l l' o ->
  stackGet nativeCreate (VRef l) s = VUndefined \/ stackGet nativeCreate (VRef l') s = VUndefined ->
  baseIsEqual nativeCreate has_Map hs inherited h (S fuel) (VRef l) (VRef l') s
  = (result ← object_loop inherited h (baseIsEqual nativeCreate has_Map hs inherited h fuel) o (VRef l')
                (object_keys (OObject o));
     _ ← pop nativeCreate (VRef l) (VRef l');
     mret result)
      (stackSet nativeCreate has_Map (VRef l') (VRef l) (stackSet nativeCreate has_Map (VRef l) (VRef l') s)).
Proof.
  intros Ho Hs. rewrite (equal_objects _ _ _ _ _ Ho). destruct Ho as [_ _ _ Hn].
  unfold equalObjects. rewrite Hn. cbn [negb]. unfold mbind at 1, SE_bind at 1, stacked.
  destruct Hs as [-> | Hs]; [done|]. rewrite Hs. by destruct (stackGet nativeCreate (VRef l) s).
Qed.
End enter.

(** ** A comparison without end *)

Definition plain (ps : list (jsstr * value)) : hobj := OObject (Obj ps ProtoObject).

(** Two chains of a hundred objects that lead to the objects 100 and 201.  The
    first is its own [x] and [y], the second its own [y] and has the object 202, which
    is like the first, as its [x]. *)
Definition endless_heap : heap :=
  ((fun i => plain [(js "n", VRef (S i))]) <$> seq 0 100)
  ++ [plain [(js "x", VRef 100); (js "y", VRef 100)]]
  ++ ((fun i => plain [(js "n", VRef (S i))]) <$> seq 101 100)
  ++ [plain [(js "x", VRef 202); (js "y", VRef 201)];
      plain [(js "x", VRef 202); (js "y", VRef 202)];
      plain [(js "n", VRef 0)]; plain [(js "n", VRef 101)]].

Section endless.
Variable nativeCreate : bool.
Variable hs : Host.
Variable inherited : value -> jsstr -> option value.
Local Notation equal := (baseIsEqual nativeCreate true hs inherited endless_heap).

(** The stack inside of [n] pairs of the chains. *)
Fixpoint chain_stack (n : nat) : Stack :=
  match n with
  | O => stackClear
  | S n' => stackSet nativeCreate true (VRef (101 + n')) (VRef n')
              (stackSet nativeCreate true (VRef n') (VRef (101 + n')) (chain_stack n'))
  end.

Lemma chain_stack_ok n : stack_ok nativeCreate (chain_stack n).
Proof. induction n as [|n IH]; [done|]. simpl. by repeat apply stackSet_ok. Qed.

Definition map_without (s : Stack) (l : nat) : bool :=
  match stack_data s with StackMap c => negb (mapCacheHas nativeCreate (VRef l) c) | StackList _ => false end.

Lemma map_without_view s l : stack_ok nativeCreate s -> map_without s l = true ->
  map_stack nativeCreate s /\ stack_view nativeCreate s (VRef l) = None.
Proof.
  intros Hok. pose proof (stackHas_view nativeCreate true (VRef l) s Hok) as Hv.
  unfold map_without, stackHas in *. destruct (stack_data s) as [c|c] eqn:E; [done|].
  rewrite Hv. intros Hn. split; [split; [done|by eexists]|]. by destruct (stack_view _ _ _).
Qed.

Lemma chain_end : map_stack nativeCreate (chain_stack 100)
  /\ stack_view nativeCreate (chain_stack 100) (VRef 100) = None
  /\ stack_view nativeCreate (chain_stack 100) (VRef 202) = None.
Proof.
  destruct (map_without_view (chain_stack 100) 100) as [H1 H2]; [apply chain_stack_ok| |].
  { destruct nativeCreate; vm_compute; reflexivity. }
  destruct (map_without_view (chain_stack 100) 202) as [_ H3]; [apply chain_stack_ok| |].
  { destruct nativeCreate; vm_compute; reflexivity. }
  exact (conj H1 (conj H2 H3)).
Qed.

Lemma chain_left i : (i < 100)%nat -> endless_heap !! i = Some (plain [(js "n", VRef (S i))]).
Proof.
  intros Hi. unfold endless_heap. rewrite lookup_app_l by (rewrite length_fmap, length_seq; lia).
  by rewrite list_lookup_fmap, lookup_seq_lt by lia.
Qed.

Lemma chain_right i : (i < 100)%nat ->
  endless_heap !! (101 + i)%nat = Some (plain [(js "n", VRef (102 + i))]).
Proof.
  intros Hi. unfold endless_heap. rewrite lookup_app_r by (rewrite length_fmap, length_seq; lia).
  rewrite length_fmap, length_seq, lookup_app_r by (simpl; lia).
  rewrite lookup_app_l by (rewrite length_fmap, length_seq; simpl; lia). rewrite list_lookup_fmap.
  cbn [length]. rewrite lookup_seq_lt by lia. cbn [fmap option_fmap option_map]. do 5 f_equal. lia.
Qed.

Lemma chain_objects i : (i < 100)%nat -> objects inherited endless_heap i (101 + i) (Obj [(js "n", VRef (S i))] ProtoObject).
Proof.
  intros Hi.
  pose proof (chain_left i Hi) as Hl. pose proof (chain_right i Hi) as Hl'.
  split.
  - apply Nat.eqb_neq. lia.
  - exact Hl.
  - by rewrite Hl'.
  - assert (reverse (object_keys (plain [(js "n", VRef (S i))])) = [js "n"]) as E by (vm_compute; reflexivity).
    unfold plain in E. rewrite E. cbn [forallb]. unfold has_property, property. rewrite Hl'. unfold plain.
    assert (chain_lookup (length endless_heap) endless_heap (Obj [(js "n", VRef (102 + i))] ProtoObject) (js "n")
            = Found (VRef (102 + i))) as ->; [|done]. vm_compute. reflexivity.
Qed.

Definition knot : object := Obj [(js "x", VRef 100); (js "y", VRef 100)] ProtoObject.

Lemma knot_objects l' : l' = 201%nat \/ l' = 202%nat -> objects inherited endless_heap 100 l' knot.
Proof.
  intros [-> | ->]; split; vm_compute; reflexivity.
Qed.

Lemma knot_loop (f : value -> value -> M bool) l' m m' :
  get_property inherited endless_heap (VRef l') (js "x") = VRef m ->
  get_property inherited endless_heap (VRef l') (js "y") = VRef m' ->
  Nat.eqb 100 m = false -> Nat.eqb 100 m' = false ->
  object_loop inherited endless_heap f knot (VRef l') (object_keys (OObject knot))
  = (r ← f (VRef 100) (VRef m);
     if r : bool then r ← f (VRef 100) (VRef m'); if r : bool then mret true else mret false else mret false).
Proof.
  intros Hx Hy Hm Hm'. assert (object_keys (OObject knot) = [js "x"; js "y"]) as -> by (vm_compute; reflexivity).
  cbn [object_loop]. rewrite Hx, Hy.
  assert (assoc_get (props knot) (js "x") = Some (VRef 100)) as -> by (vm_compute; reflexivity).
  assert (assoc_get (props knot) (js "y") = Some (VRef 100)) as -> by (vm_compute; reflexivity).
  cbn [default]. unfold id, same. cbn [strict_eq]. by rewrite Hm, Hm'.
Qed.

(** Comparing the knot with the object 202 removes the knot from the stack. *)
Lemma knot_forgotten fuel s : map_stack nativeCreate s -> stack_view nativeCreate s (VRef 202) = None ->
  equal fuel (VRef 100) (VRef 202) s = OutOfFuel
  \/ exists s', equal fuel (VRef 100) (VRef 202) s = Ret (true, s') /\ map_stack nativeCreate s'
     /\ stack_view nativeCreate s' (VRef 100) = None /\ stack_view nativeCreate s' (VRef 202) = None.
Proof.
  intros Hs H2. destruct fuel as [|[|fuel]]; [by left|left|right].
  all: pose proof (knot_objects 202 (or_intror eq_refl)) as Hk.
  all: rewrite (equal_enters _ _ _ _ _ _ _ _ _ _ Hk) by (right; by rewrite map_stack_get, H2).
  all: rewrite (knot_loop _ 202 202 202) by (vm_compute; reflexivity).
  1: done.
  destruct (map_stack_set nativeCreate 100 202 s Hs) as [Hs1 V1]. set (s1 := stackSet _ _ _ _ s) in *.
  destruct (map_stack_set nativeCreate 202 100 s1 Hs1) as [Hs2 V2]. set (s2 := stackSet _ _ _ _ s1) in *.
  assert (E : baseIsEqual nativeCreate true hs inherited endless_heap (S fuel) (VRef 100) (VRef 202) s2
              = Ret (true, s2)).
  { apply (equal_stacked _ _ _ _ _ _ _ _ 100 _ _ Hk).
    - by rewrite map_stack_get, V2, V1.
    - by rewrite map_stack_get, V2. }
  unfold mbind, SE_bind. rewrite E. cbv beta iota. rewrite E.
  destruct (map_stack_delete nativeCreate 100 s2 Hs2) as [Hs3 V3].
  destruct (map_stack_delete nativeCreate 202 _ Hs3) as [Hs4 V4].
  eexists. split; [reflexivity|]. split_and!; [done|by rewrite V4, V3|by rewrite V4].
Qed.

Lemma knot_endless fuel : forall s, map_stack nativeCreate s ->
  stack_view nativeCreate s (VRef 100) = None -> stack_view nativeCreate s (VRef 202) = None ->
  equal fuel (VRef 100) (VRef 201) s = OutOfFuel.
Proof.
  induction fuel as [|fuel IH]; intros s Hs H1 H2; [done|].
  pose proof (knot_objects 201 (or_introl eq_refl)) as Hk. 
  rewrite (equal_enters _ _ _ _ _ _ _ _ _ _ Hk) by (left; by rewrite map_stack_get, H1).
  rewrite (knot_loop _ 201 202 201) by (vm_compute; reflexivity).
  destruct (map_stack_set nativeCreate 100 201 s Hs) as [Hs1 V1]. set (s1 := stackSet _ _ _ _ s) in *.
  destruct (map_stack_set nativeCreate 201 100 s1 Hs1) as [Hs2 V2]. set (s2 := stackSet _ _ _ _ s1) in *.
  destruct (knot_forgotten fuel s2 Hs2) as [E|(s' & E & Hs' & H1' & H2')]; [by rewrite V2, V1| |].
  - unfold mbind, SE_bind. by rewrite E.
  - specialize (IH s' Hs' H1' H2'). unfold mbind, SE_bind. rewrite E. cbv beta iota. by rewrite IH.
Qed.

Lemma chain_links i : (i < 100)%nat ->
  get_property inherited endless_heap (VRef (101 + i)) (js "n") = VRef (102 + i).
Proof.
  intros Hi. unfold get_property, property. rewrite chain_right by done. unfold plain.
  assert (chain_lookup (length endless_heap) endless_heap (Obj [(js "n", VRef (102 + i))] ProtoObject) (js "n")
          = Found (VRef (102 + i))) as ->; [|done]. vm_compute. reflexivity.
Qed.

(** Down the chains nothing is in the stack yet. *)
Lemma chain_new i : (i < 100)%nat -> stackGet nativeCreate (VRef i) (chain_stack i) = VUndefined.
Proof.
  intros Hi.
  assert (H : forallb (fun i => bool_decide (stackGet nativeCreate (VRef i) (chain_stack i) = VUndefined))
                (seq 0 100) = true) by (destruct nativeCreate; vm_compute; reflexivity).
  rewrite forallb_forall in H. specialize (H i (proj2 (in_seq _ _ _) (conj (Nat.le_0_l i) Hi))).
  by apply bool_decide_eq_true in H.
Qed.

Lemma chain_endless d : forall i fuel, (i + d = 100)%nat ->
  equal fuel (VRef i) (VRef (101 + i)) (chain_stack i) = OutOfFuel.
Proof.
  induction d as [|d IH]; intros i fuel Hi.
  - assert (i = 100%nat) as -> by lia. destruct chain_end as (H1 & H2 & H3). exact (knot_endless fuel _ H1 H2 H3).
  - destruct fuel as [|fuel]; [done|].  assert (Hi' : (i < 100)%nat) by lia.
    rewrite (equal_enters _ _ _ _ _ _ _ _ _ _ (chain_objects i Hi')) by (left; by apply chain_new).
    assert (object_keys (OObject (Obj [(js "n", VRef (S i))] ProtoObject)) = [js "n"]) as ->
      by (vm_compute; reflexivity).
    cbn [object_loop]. rewrite chain_links by done.
    assert (assoc_get (props (Obj [(js "n", VRef (S i))] ProtoObject)) (js "n") = Some (VRef (S i))) as ->
      by (vm_compute; reflexivity).
    assert (strict_eq (VRef (S i)) (VRef (102 + i)) = false) as Hne by (apply Nat.eqb_neq; lia).
    unfold mbind, SE_bind, same. cbn [default]. unfold id. rewrite Hne.
    specialize (IH (S i) fuel ltac:(lia)). cbn [chain_stack] in IH.
    replace (101 + S i)%nat with (102 + i)%nat in IH by lia. by rewrite IH.
Qed.
End endless.

(** ** The property *)

(** C13: looking for a match ends: whatever objects there are, cyclic ones included, the
    comparison with a source returns or throws when the engine has no [Map] or there
    are at most 99 objects, because then the stack stays a list.  A stack that has
    become a map is not enough: there are 205 objects, in two chains that end in
    cycles, for which the comparison never ends. *)
Theorem matching_terminates nativeCreate hs inherited :
  (forall has_Map h fuel source object,
     has_Map = false \/ (length h <= 99)%nat -> (length h < fuel)%nat ->
     baseMatches nativeCreate has_Map hs inherited h fuel source object <> OutOfFuel)
  /\ (forall fuel,
     baseMatches nativeCreate true hs inherited endless_heap fuel 203 (VRef 204) = OutOfFuel).
Proof.
  split.
  - intros has_Map h fuel source object Hm Hf. unfold baseMatches.
    destruct (h !! source) as [o|]; [|done]. set (data := getMatchData o).
    assert (H : (if strict_eq object (VRef source) then Ret true
                 else baseIsMatch nativeCreate has_Map hs inherited h fuel object data) <> OutOfFuel).
    { destruct (strict_eq _ _); [done|]. unfold baseIsMatch. destruct (nullish object); [done|].
      destruct (negb _); [done|]. by apply match_loop_ends. }
    by destruct data as [|[[key v] []] []].
  - intros fuel. pose proof (chain_endless nativeCreate hs inherited 100 0 fuel eq_refl) as H.
    unfold baseMatches.
    assert (endless_heap !! 203%nat = Some (plain [(js "n", VRef 0)])) as -> by (vm_compute; reflexivity).
    assert (getMatchData (plain [(js "n", VRef 0)]) = [(js "n", VRef 0, false)]) as -> by (vm_compute; reflexivity).
    cbn [strict_eq Nat.eqb]. unfold baseIsMatch. cbn [nullish].
    assert (property inherited endless_heap (VRef 204) (js "n") = Some (VRef 101)) as E by (vm_compute; reflexivity).
    rewrite reverse_singleton. cbn [forallb passes]. unfold has_property. rewrite E.
    cbn [andb negb match_loop]. unfold get_property. rewrite E. cbn [default]. unfold id.
    change (VRef 101) with (VRef (101 + 0)). change stackClear with (chain_stack nativeCreate 0).
    unfold mbind, outcome_bind. by rewrite H.
Qed.
