(* ===== verification/LodashMatchExact.v ===== *)
(** * lodash: what a match means

    [matches] says what it is for a value to match a source: a primitive is the same,
    an object has all properties of the source with values that match, and
    an array has for each element of the source a different element that matches it.
    For a source that does not contain itself and shares nothing with the objects
    it is compared with, the comparison answers yes only for matches; without
    arrays in the source it finds every match. *)

From S2P Require Import JsPrelude JsNumber JsValue LodashCache LodashCacheTheory LodashCacheClients.
From S2P Require Import LodashMatch LodashMatchTheory.

Section exact.
Variable nativeCreate has_Map : bool.
Variable hs : Host.
Variable inherited : value -> jsstr -> option value.
Variable h : heap.

Definition nan (v : value) : bool := negb (strict_eq v v).

(** The elements of an array or of a buffer. *)
Definition elements (o o' : hobj) : option (list value * list value) :=
  match o, o' with
  | OArray es, OArray es' => Some (es, es')
  | OBuffer bs, OBuffer bs' => Some (bytes_values bs, bytes_values bs')
  | _, _ => None
  end.

Inductive matches : value -> value -> Prop :=
| matches_same v o : strict_eq v o = true -> matches v o
| matches_nan v o : nan v = true -> nan o = true -> matches v o
| matches_date l l' t t' : h !! l = Some (ODate t) -> h !! l' = Some (ODate t') ->
    eq (VNumber (num_of_Z t)) (VNumber (num_of_Z t')) = true -> matches (VRef l) (VRef l')
| matches_regexp l l' src fl src' fl' text :
    h !! l = Some (ORegExp src fl) -> h !! l' = Some (ORegExp src' fl') ->
    value_toString hs h (VRef l) = Ret text -> value_toString hs h (VRef l') = Ret text ->
    matches (VRef l) (VRef l')
| matches_array l l' o o' es es' found : h !! l = Some o -> h !! l' = Some o' ->
    elements o o' = Some (es, es') -> Forall2 matches es found -> found ⊆+ es' ->
    matches (VRef l) (VRef l')
| matches_object l l' o o' : h !! l = Some (OObject o) -> h !! l' = Some (OObject o') ->
    (forall k v, assoc_get (props o) k = Some v ->
       exists v', property inherited h (VRef l') k = Some v' /\ matches v v') ->
    matches (VRef l) (VRef l').

(** ** Sources without cycles *)

(** The values inside of an object. *)
Definition parts_of (o : hobj) : list value :=
  match o with
  | OObject ob => (props ob).*2
  | OArray es => es
  | _ => []
  end.

Definition in_source (P : nat -> bool) (v : value) : Prop := match v with VRef l => P l = true | _ => True end.

Definition outside (P : nat -> bool) (v : value) : Prop := match v with VRef l => P l = false | _ => True end.

Definition rank_of (rank : nat -> nat) (v : value) : nat := match v with VRef l => rank l | _ => 0%nat end.

(** [P] are the objects of the source.  What they contain is of lower rank, and
    nothing leads from the other objects to them. *)
Record apart (P : nat -> bool) (rank : nat -> nat) : Prop := {
  apart_source : forall l o v, P l = true -> h !! l = Some o -> v ∈ parts_of o ->
    in_source P v /\ (forall l', v = VRef l' -> (rank l' < rank l)%nat);
  apart_elements : forall l o v, P l = false -> h !! l = Some o -> v ∈ parts_of o -> outside P v;
  apart_properties : forall v k v', outside P v -> property inherited h v k = Some v' -> outside P v'
}.

Variable P : nat -> bool.
Variable rank : nat -> nat.
Hypothesis Hapart : apart P rank.
Hypothesis regexps_print : forall l src fl, h !! l = Some (ORegExp src fl) ->
  exists text, value_toString hs h (VRef l) = Ret text.

Definition no_arrays : Prop := forall l o, P l = true -> h !! l = Some o ->
  match o with OArray _ | OBuffer _ => False | _ => True end.

(** ** Keys that are in the stack nowhere *)

Lemma stack_view_delete k k' s : stack_ok nativeCreate s -> plain_key k -> plain_key k' ->
  stack_view nativeCreate s k' = None -> stack_view nativeCreate (stackDelete nativeCreate k s).2 k' = None.
Proof.
  intros [_ Hd] Hk Hk'. unfold stack_view, stackDelete. destruct (stack_data s) as [c|c].
  - rewrite map_get_lacks. unfold listCacheDelete.
    destruct (last_split k (list_data c)) as [Hl|(l1 & k0 & v & l2 & E & H0 & H2)].
    + rewrite assocIndexOf_lacks by done. intros H. simpl. by apply map_get_lacks.
    + rewrite E. rewrite assocIndexOf_split by done. unfold lacks. rewrite Forall_reverse. intros H.
      apply map_get_lacks. unfold lacks. rewrite Forall_reverse. cbn [snd stack_data list_data].
      destruct (Nat.eqb _ _); [by apply Forall_take|]. apply Forall_app. split; [by apply Forall_take|].
      by apply Forall_drop.
  - intros H. pose proof (mapCacheDelete_laws nativeCreate has_Map c k Hd) as L.
    destruct (mapCacheDelete _ _ _) as [r c']. destruct L as (_ & _ & _ & L). simpl.
    rewrite L. by destruct (same_key k k').
Qed.

(** What a comparison leaves of the stack: the stack itself, or a map in which no
    key is new. *)
Definition intact (s s' : Stack) : Prop :=
  s' = s \/ (map_stack nativeCreate s'
    /\ forall x, stack_view nativeCreate s (VRef x) = None -> stack_view nativeCreate s' (VRef x) = None).

Lemma intact_trans s1 s2 s3 : intact s1 s2 -> intact s2 s3 -> intact s1 s3.
Proof. intros [-> |[Hm H]] [-> |[Hm' H']]; [by left|by right..|]. right. eauto. Qed.

Lemma intact_ok s s' : intact s s' -> stack_ok nativeCreate s -> stack_ok nativeCreate s'.
Proof. by intros [-> |[[? _] _]]. Qed.

Lemma stack_ok_list s c : stack_ok nativeCreate s -> stack_data s = StackList c -> s = list_stack (list_data c).
Proof.
  intros [Hz Hd] E. rewrite E in *. destruct s as [d z], c as [ps n]. simpl in *. subst.
  destruct Hd as [-> _]. done.
Qed.

Lemma stackSet_list k v s c : stack_data (stackSet nativeCreate has_Map k v s) = StackList c ->
  exists c', stack_data s = StackList c'
    /\ (has_Map = false \/ Z.of_nat (length (list_data c')) < LARGE_ARRAY_SIZE - 1).
Proof.
  unfold stackSet. destruct (stack_data s) as [c'|c']; [|done].
  destruct (negb has_Map || _) eqn:E; [|done]. intros _. exists c'. split; [done|].
  destruct has_Map; [right|by left]. simpl in E. lia.
Qed.

(** Entering and leaving two objects. *)
Lemma frame_kept l l' s s2 : stack_ok nativeCreate s -> l <> l' ->
  let s1 := stackSet nativeCreate has_Map (VRef l') (VRef l) (stackSet nativeCreate has_Map (VRef l) (VRef l') s) in
  intact s1 s2 ->
  intact s (stackDelete nativeCreate (VRef l') (stackDelete nativeCreate (VRef l) s2).2).2.
Proof.
  intros Hok Hne s1 Hk.
  destruct (stackSet_ok nativeCreate has_Map (VRef l) (VRef l') s) as [Hok0 V0]; [done..|].
  destruct (stackSet_ok nativeCreate has_Map (VRef l') (VRef l) _ Hok0 I) as [Hok1 V1]; [done|].
  fold s1 in Hok1, V1.
  assert (Hm : (exists ps, roomy has_Map ps /\ s = list_stack ps /\ s2 = list_stack (ps ++ frame l l'))
               \/ map_stack nativeCreate s2
                  /\ forall x, stack_view nativeCreate s1 (VRef x) = None -> stack_view nativeCreate s2 (VRef x) = None).
  { destruct Hk as [-> |Hk]; [|by right]. destruct (stack_data s1) as [c|c] eqn:E1; [left|right].
    - destruct (stackSet_list _ _ _ _ E1) as (c0 & E0 & R0). destruct (stackSet_list _ _ _ _ E0) as (c' & E & R).
      pose proof (stack_ok_list _ _ Hok E) as Es. exists (list_data c').
      assert (Er : stackSet nativeCreate has_Map (VRef l) (VRef l') s = list_stack (list_data c' ++ [(VRef l, VRef l')])).
      { rewrite Es at 1. by apply list_stack_set. }
      pose proof (stack_ok_list _ _ Hok0 E0) as Es0. rewrite Er in Es0. injection Es0 as Ed _ _.
      split_and!; [|done|].
      + destruct R0 as [R0|R0]; [by left|right]. rewrite <- Ed, length_app in R0. simpl in R0. lia.
      + unfold s1. rewrite Er. rewrite list_stack_set by (by rewrite Ed). by rewrite <- app_assoc.
    - split; [|done]. split; [done|by eexists]. }
  destruct Hm as [(ps & Hr & -> & ->)|[Hm2 V2]].
  - left. pose proof (pop_list nativeCreate (VRef l) (VRef l') ps) as E. unfold pop, modifyS in E.
    rewrite eq_ref in E. specialize (E ltac:(apply Nat.eqb_neq; congruence)).
    injection E as E. exact E.
  - right. destruct (map_stack_delete nativeCreate l s2 Hm2) as [Hm3 V3].
    destruct (map_stack_delete nativeCreate l' _ Hm3) as [Hm4 V4]. split; [done|]. intros x Hx.
    rewrite V4, V3. destruct (Nat.eqb l' x) eqn:E1; [done|]. destruct (Nat.eqb l x) eqn:E2; [done|].
    apply V2. by rewrite V1, V0, !eq_ref, E1, E2.
Qed.

(** ** The indices that have been seen *)

Lemma seen_index i : getMapData (VNumber (num_of_Z i)) = InHash (num_toString (num_of_Z i)).
Proof. done. Qed.

Lemma seen_added i c : setCacheHas nativeCreate (VNumber (num_of_Z i))
  (setCacheAdd nativeCreate (VNumber (num_of_Z i)) c) = true.
Proof.
  unfold setCacheHas, setCacheAdd, mapCacheHas, mapCacheSet. rewrite seen_index. cbn [mc_hash].
  unfold hashHas, hashSet, assoc_has. cbn [hash_data]. rewrite assoc_get_set, jseqb_refl.
  by destruct nativeCreate.
Qed.

Lemma seen_more i j c : setCacheHas nativeCreate (VNumber (num_of_Z i)) c = true ->
  setCacheHas nativeCreate (VNumber (num_of_Z i)) (setCacheAdd nativeCreate (VNumber (num_of_Z j)) c) = true.
Proof.
  unfold setCacheHas, setCacheAdd, mapCacheHas, mapCacheSet. rewrite !seen_index. cbn [mc_hash].
  unfold hashHas, hashSet, assoc_has. cbn [hash_data]. rewrite assoc_get_set.
  destruct (jseqb _ _); [|done]. by destruct nativeCreate.
Qed.

Lemma seq_elements {A} (os : list A) : seq 0 (length os) ≫= (fun j => option_list (os !! j)) = os.
Proof.
  induction os as [|o os IH]; [done|]. cbn [length seq]. rewrite bind_cons, <- fmap_S_seq, list_fmap_bind.
  unfold compose. simpl. f_equal. exact IH.
Qed.

(** Elements at different indices. *)
Lemma found_submseteq {A} (os found : list A) js : NoDup js ->
  Forall2 (fun j o => os !! j = Some o) js found -> found ⊆+ os.
Proof.
  intros Hd Hf. assert (Hsub : js ⊆+ seq 0 (length os)).
  { apply NoDup_submseteq; [done|]. intros j Hj. apply list_elem_of_lookup in Hj as [i Hi].
    destruct (Forall2_lookup_l _ _ _ _ _ Hf Hi) as (o & _ & Ho). apply elem_of_seq.
    apply lookup_lt_Some in Ho. lia. }
  apply (bind_submseteq (fun j => option_list (os !! j))) in Hsub. rewrite seq_elements in Hsub.
  assert (E : js ≫= (fun j => option_list (os !! j)) = found); [|by rewrite E in Hsub].
  clear -Hf. induction Hf as [|j o js found Ho _ IH]; [done|]. by rewrite bind_cons, IH, Ho.
Qed.

(** The objects of the source below a rank are not in the stack. *)
Record clear (n : nat) (s : Stack) : Prop := {
  clear_ok : stack_ok nativeCreate s;
  clear_keys : forall l, P l = true -> (rank l < n)%nat -> stack_view nativeCreate s (VRef l) = None
}.

Lemma clear_intact n s s' : clear n s -> intact s s' -> clear n s'.
Proof.
  intros [Hok Hc] Hk. split; [by eapply intact_ok|]. intros l Hl Hr. specialize (Hc l Hl Hr).
  destruct Hk as [-> |[_ H]]; [done|by apply H].
Qed.

Definition below (n : nat) (v : value) : Prop := forall l, v = VRef l -> (rank l < n)%nat.

(** What the comparison of [v] with [o] in the stack [s] gives. *)
Definition decides (v o : value) (s : Stack) (b : bool) (s' : Stack) : Prop :=
  intact s s' /\ (b = true -> matches v o) /\ (no_arrays -> matches v o -> b = true).

Section loops.
Variable equalFunc : value -> value -> M bool.
Variable n : nat.
Hypothesis equalFunc_decides : forall v o s, in_source P v -> outside P o -> below n v -> clear n s ->
  wp (equalFunc v o) (decides v o s) (fun _ => False) s.

Lemma same_decides v o s : in_source P v -> outside P o -> below n v -> clear n s ->
  wp (same equalFunc v o) (decides v o s) (fun _ => False) s.
Proof.
  intros Hv Ho Hb Hs. unfold same. wp_case E; [|by apply equalFunc_decides].
  split_and!; [by left|by constructor|done].
Qed.

Lemma object_loop_decides o other ks : forall s, clear n s -> outside P other ->
  (forall k, k ∈ ks -> in_source P (default VUndefined (assoc_get (props o) k))
                      /\ below n (default VUndefined (assoc_get (props o) k))) ->
  wp (object_loop inherited h equalFunc o other ks)
     (fun b s' => intact s s'
        /\ (b = true -> forall k, k ∈ ks ->
              matches (default VUndefined (assoc_get (props o) k)) (get_property inherited h other k))
        /\ (no_arrays -> (forall k, k ∈ ks ->
              matches (default VUndefined (assoc_get (props o) k)) (get_property inherited h other k)) -> b = true))
     (fun _ => False) s.
Proof.
  induction ks as [|k ks IH]; intros s Hs Ho Hks; simpl.
  { split_and!; [by left|by intros _ k ?%not_elem_of_nil|done]. }
  wp_prim. destruct (Hks k) as [Hv Hb]; [left|].
  assert (Hg : outside P (get_property inherited h other k)).
  { unfold get_property. destruct (property inherited h other k) eqn:E; [|done].
    by eapply (apart_properties _ _ Hapart). }
  wp_use same_decides; [done..|]. intros b s1 (Hk1 & Hsound & Hcomplete). destruct b.
  - wp_use IH; [by eapply clear_intact|done|intros k' Hk'; apply Hks; by right|].
    intros b s2 (Hk2 & Hs2 & Hc2). split_and!; [by eapply intact_trans| |].
    + intros Hb' k' [-> |Hk']%elem_of_cons; [by apply Hsound|by apply Hs2].
    + intros Hna Hall. apply Hc2; [done|]. intros k' Hk'. apply Hall. by right.
  - split_and!; [done..|]. intros Hna Hall. apply Hcomplete; [done|]. apply Hall. left.
Qed.

(** An element that is found is one not seen before. *)
Lemma arraySome_finds v os : in_source P v -> below n v -> Forall (outside P) os ->
  forall i seen s, clear n s ->
  wp (arraySome nativeCreate equalFunc v os i seen)
     (fun r s' => intact s s' /\ forall seen', r = Some seen' ->
        exists j o, os !! j = Some o /\ matches v o
          /\ setCacheHas nativeCreate (VNumber (num_of_Z (i + Z.of_nat j))) seen = false
          /\ seen' = setCacheAdd nativeCreate (VNumber (num_of_Z (i + Z.of_nat j))) seen)
     (fun _ => False) s.
Proof.
  intros Hv Hb. induction os as [|o os IH]; intros Hos i seen s Hs; simpl; [by split; [left|]|].
  apply Forall_cons in Hos as [Ho Hos].
  assert (Hnext : forall s1, intact s s1 -> wp (arraySome nativeCreate equalFunc v os (i + 1) seen)
     (fun r s' => intact s s' /\ forall seen', r = Some seen' ->
        exists j o', (o :: os) !! j = Some o' /\ matches v o'
          /\ setCacheHas nativeCreate (VNumber (num_of_Z (i + Z.of_nat j))) seen = false
          /\ seen' = setCacheAdd nativeCreate (VNumber (num_of_Z (i + Z.of_nat j))) seen)
     (fun _ => False) s1).
  { intros s1 Hk1. wp_use IH; [done|by eapply clear_intact|]. intros r s2 [Hk2 Hr].
    split; [by eapply intact_trans|]. intros seen' (j & o' & Hj & Hm & Hh & ->)%Hr. exists (S j), o'.
    replace (i + Z.of_nat (S j)) with (i + 1 + Z.of_nat j) by lia. done. }
  wp_case E; [apply Hnext; by left|]. wp_prim. wp_use same_decides; [done..|].
  intros b s1 (Hk1 & Hsound & _). destruct b; [|by apply Hnext]. split; [done|]. intros seen' [= <-].
  exists 0%nat, o. rewrite Z.add_0_r. split_and!; [done|by apply Hsound|done..].
Qed.

(** Each element takes an element of its own. *)
Lemma array_loop_finds es os : Forall (fun v => in_source P v /\ below n v) es -> Forall (outside P) os ->
  forall used seen s, clear n s -> NoDup used ->
  Forall (fun j => setCacheHas nativeCreate (VNumber (num_of_Z (Z.of_nat j))) seen = true) used ->
  wp (array_loop nativeCreate equalFunc es os seen)
     (fun b s' => intact s s' /\ (b = true -> exists js found, NoDup (used ++ js)
        /\ Forall2 (fun j o => os !! j = Some o) js found /\ Forall2 matches es found))
     (fun _ => False) s.
Proof.
  intros Hes Hos. induction es as [|v es IH]; intros used seen s Hs Hu Hseen; simpl.
  { split; [by left|]. intros _. exists [], []. by rewrite app_nil_r. }
  apply Forall_cons in Hes as [[Hv Hb] Hes]. wp_prim. wp_use arraySome_finds; [done..|].
  intros r s1 [Hk1 Hr]. destruct r as [seen'|]; [|by split].
  destruct (Hr seen' eq_refl) as (j & o & Hj & Hm & Hn & ->). rewrite Z.add_0_l in Hn |- *.
  assert (Hnew : j ∉ used).
  { intros Hin. rewrite Forall_forall in Hseen. specialize (Hseen j Hin). by rewrite Hn in Hseen. }
  wp_use (IH Hes (used ++ [j])).
  - by eapply clear_intact.
  - apply NoDup_app. split_and!; [done| |apply NoDup_singleton].
    intros x Hx ->%list_elem_of_singleton. done.
  - apply Forall_app. split; [|constructor; [apply seen_added|constructor]].
    eapply Forall_impl; [exact Hseen|]. intros x. by apply seen_more.
  - intros b s2 [Hk2 Hb2]. split; [by eapply intact_trans|]. intros (js & found & Hd & Hf & Hms)%Hb2.
    exists (j :: js), (o :: found). rewrite <- app_assoc in Hd. split_and!; [done|by constructor..].
Qed.
End loops.

(** ** Entering two objects *)

Lemma frame_decides (post : bool -> Prop) l l' s (body : M bool) :
  P l = true -> P l' = false -> clear (S (rank l)) s ->
  (forall s1, clear (rank l) s1 -> wp body (fun b s' => intact s1 s' /\ post b) (fun _ => False) s1) ->
  wp (st ← stacked nativeCreate (VRef l) (VRef l');
      match st with
      | Some b => mret b
      | None =>
          _ ← push nativeCreate has_Map (VRef l) (VRef l');
          result ← body;
          _ ← pop nativeCreate (VRef l) (VRef l');
          mret result
      end) (fun b s' => intact s s' /\ post b) (fun _ => False) s.
Proof.
  intros Hl Hl' [Hok Hc] Hbody. wp_prim. unfold wp at 1, stacked.
  rewrite (stackGet_view nativeCreate has_Map (VRef l)), Hc by (done || lia). cbn [default].
  wp_prim. unfold push. wp_prim. wp_prim.
  destruct (stackSet_ok nativeCreate has_Map (VRef l) (VRef l') s) as [Hok0 V0]; [done..|].
  destruct (stackSet_ok nativeCreate has_Map (VRef l') (VRef l) _ Hok0 I) as [Hok1 V1]; [done|].
  wp_use Hbody.
  - split; [done|]. intros x Hx Hr. rewrite V1, V0, !eq_ref by done.
    rewrite (proj2 (Nat.eqb_neq l' x)), (proj2 (Nat.eqb_neq l x)) by (intros ->; congruence || lia).
    apply Hc; [done|lia].
  - intros b s2 [Hk Hp]. wp_prim. unfold pop. wp_prim. wp_prim. split; [|done].
    apply frame_kept; [done|congruence|done].
Qed.

(** ** The comparison *)

Lemma matches_refs v o : matches v o -> strict_eq v o = false ->
  nan v && nan o = true
  \/ exists l l', v = VRef l /\ o = VRef l' /\ isObjectLike h v = true /\ isObjectLike h o = true.
Proof.
  intros Hm Hne.
  destruct Hm as [| |l l' ? ? Hl Hl'|l l' ? ? ? ? ? Hl Hl'|l l' o o' ? ? ? Hl Hl' He|l l' ? ? Hl Hl'];
    [congruence|left; by apply andb_true_iff|right; exists l, l'; simpl; rewrite Hl, Hl'..].
  1, 2, 4: done.
  by destruct o, o'.
Qed.

Lemma decides_false v o s : (matches v o -> False) -> decides v o s false s.
Proof. intros H. split_and!; [by left|done|]. by intros _ ?%H. Qed.

Lemma elements_apart l l' o o' es es' : P l = true -> P l' = false -> h !! l = Some o -> h !! l' = Some o' ->
  elements o o' = Some (es, es') ->
  Forall (fun v => in_source P v /\ below (rank l) v) es /\ Forall (outside P) es'.
Proof.
  intros Hp Hp' Hl Hl' He. destruct Hapart as [A1 A2 _].
  destruct o as [| es0| |bs| |], o' as [|es0'| |bs'| |]; try done; injection He as <- <-.
  - split; apply Forall_forall; intros v Hv; [|by eapply A2]. split; [by eapply A1|].
    intros x ->. by eapply (A1 l _ (VRef x)).
  - unfold bytes_values. split; apply Forall_fmap, Forall_forall; [split|]; done.
Qed.

Lemma equalArrays_decides (f : value -> value -> M bool) l l' o o' es es' s :
  (forall v o s, in_source P v -> outside P o -> below (rank l) v -> clear (rank l) s ->
     wp (f v o) (decides v o s) (fun _ => False) s) ->
  P l = true -> P l' = false -> h !! l = Some o -> h !! l' = Some o' -> elements o o' = Some (es, es') ->
  clear (S (rank l)) s ->
  wp (equalArrays nativeCreate has_Map f (VRef l) (VRef l') es es') (decides (VRef l) (VRef l') s) (fun _ => False) s.
Proof.
  intros Hf Hp Hp' Hl Hl' He Hs. destruct (elements_apart _ _ _ _ _ _ Hp Hp' Hl Hl' He) as [Hes Hes'].
  assert (Hna : no_arrays -> False).
  { intros Hna. specialize (Hna l o Hp Hl). by destruct o, o'. }
  unfold equalArrays. wp_case E.
  - split_and!; [by left|done|]. by intros ?%Hna.
  - wp_use (frame_decides (fun b => b = true -> matches (VRef l) (VRef l'))); [done..| |].
    + intros s1 Hs1. wp_use (array_loop_finds f (rank l) Hf es es' Hes Hes' [] (SetCache nativeCreate has_Map []) s1);
        [done|constructor|constructor|].
      intros b s2 [Hk Hb]. split; [done|]. intros (js & found & Hd & Hj & Hm)%Hb.
      eapply matches_array; [done..|]. by eapply found_submseteq.
    + intros b s2 [Hk Hb]. split_and!; [done..|]. by intros ?%Hna.
Qed.

Lemma object_names o k v : assoc_get (props o) k = Some v -> k ∈ object_keys (OObject o).
Proof. intros H. simpl. apply order_keys_elem, assoc_get_Some_key. by eexists. Qed.

Lemma assoc_get_value {A} (ps : list (jsstr * A)) k v : assoc_get ps k = Some v -> v ∈ ps.*2.
Proof.
  induction ps as [|[k' v'] ps IH]; [done|]. simpl. destruct (jseqb k' k); [intros [= ->]; left|].
  intros H. right. by apply IH.
Qed.

Lemma matches_object_inv l l' o : h !! l = Some (OObject o) -> l <> l' -> matches (VRef l) (VRef l') ->
  forall k v, assoc_get (props o) k = Some v ->
    exists v', property inherited h (VRef l') k = Some v' /\ matches v v'.
Proof.
  intros Hl Hne Hm.
  inversion Hm as [? ? E|? ? E| | |? ? o1 o2 ? ? ? Hl1 ? He|? ? o1 ? Hl1 ? H]; subst; try congruence.
  - simpl in E. destruct (Nat.eqb_spec l l'); congruence.
  - unfold nan in E. simpl in E. by rewrite Nat.eqb_refl in E.
  - rewrite Hl in Hl1. injection Hl1 as <-. by destruct o2.
  - rewrite Hl in Hl1. injection Hl1 as <-. exact H.
Qed.

Lemma equalObjects_decides (f : value -> value -> M bool) l l' o o' s :
  (forall v o s, in_source P v -> outside P o -> below (rank l) v -> clear (rank l) s ->
     wp (f v o) (decides v o s) (fun _ => False) s) ->
  P l = true -> P l' = false -> h !! l = Some (OObject o) -> h !! l' = Some (OObject o') ->
  clear (S (rank l)) s ->
  wp (equalObjects nativeCreate has_Map inherited h f (VRef l) (VRef l') o)
     (decides (VRef l) (VRef l') s) (fun _ => False) s.
Proof.
  intros Hf Hp Hp' Hl Hl' Hs. assert (Hne : l <> l') by congruence. pose proof (matches_object_inv l l' o Hl Hne) as Hinv.
  unfold equalObjects. wp_case E.
  { apply decides_false. intros Hm. apply negb_true_iff in E. apply not_true_iff_false in E. apply E.
    apply forallb_forall. intros k Hk%list_elem_of_In. rewrite elem_of_reverse in Hk.
    apply order_keys_elem, assoc_get_Some_key in Hk as [v Hv].
    unfold has_property. by destruct (Hinv Hm k v Hv) as (v' & -> & _). }
  apply negb_false_iff in E. rewrite forallb_forall in E.
  set (all := forall k, k ∈ object_keys (OObject o) ->
    matches (default VUndefined (assoc_get (props o) k)) (get_property inherited h (VRef l') k)).
  wp_use (frame_decides (fun b => (b = true -> all) /\ (no_arrays -> all -> b = true))); [done..| |].
  - intros s1 Hs1. wp_use (object_loop_decides f (rank l) Hf o (VRef l') (object_keys (OObject o)) s1); [done..| |].
    + intros k Hk. apply order_keys_elem, assoc_get_Some_key in Hk as [v Hv]. rewrite Hv.
      apply assoc_get_value in Hv. split; [by eapply (apart_source _ _ Hapart)|].
      intros x Hx. by eapply (apart_source _ _ Hapart l (OObject o)).
    + intros b s2 (Hk & Hb & Hc). done.
  - intros b s2 (Hk & Hb & Hc). split_and!; [done| |].
    + intros Ht. specialize (Hb Ht). eapply matches_object; [done..|]. intros k v Hv.
      pose proof (object_names o k v Hv) as Hk'. specialize (Hb k Hk'). rewrite Hv in Hb.
      specialize (E k). rewrite <- list_elem_of_In, elem_of_reverse in E. specialize (E Hk').
      unfold has_property, get_property in *. destruct (property _ _ _ _) as [v'|]; [|done]. exists v'. split; [done|exact Hb].
    + intros Hna Hm. apply Hc; [done|]. intros k Hk'. apply order_keys_elem, assoc_get_Some_key in Hk' as [v Hv].
      rewrite Hv. unfold get_property. by destruct (Hinv Hm k v Hv) as (v' & -> & Hm').
Qed.

(** Two objects that match have the same tag, and it is one of the tags that are compared. *)
Definition same_kind (o o' : option hobj) : bool :=
  match o, o' with
  | Some (OObject _), Some (OObject _) | Some (OArray _), Some (OArray _) | Some (ODate _), Some (ODate _)
  | Some (OBuffer _), Some (OBuffer _) | Some (ORegExp _ _), Some (ORegExp _ _) => true
  | _, _ => false
  end.

Lemma matches_kind l l' : l <> l' -> matches (VRef l) (VRef l') -> same_kind (h !! l) (h !! l') = true.
Proof.
  intros Hne Hm.
  inversion Hm as [? ? E|? ? E|? ? ? ? Hl Hl'|? ? ? ? ? ? ? Hl Hl'|? ? o o' ? ? ? Hl Hl' He|? ? ? ? Hl Hl']; subst;
    try by rewrite Hl, Hl'.
  - simpl in E. destruct (Nat.eqb_spec l l'); congruence.
  - unfold nan in E. simpl in E. by rewrite Nat.eqb_refl in E.
  - rewrite Hl, Hl'. by destruct o, o'.
Qed.

Lemma clear_weaken n m s : (m <= n)%nat -> clear n s -> clear m s.
Proof. intros Hn [Hok Hc]. split; [done|]. intros l Hl Hr. apply Hc; [done|lia]. Qed.

(** For a source of a rank below the fuel. *)
Lemma baseIsEqual_decides fuel : forall n v o s, (n < fuel)%nat ->
  in_source P v -> outside P o -> below n v -> clear n s ->
  wp (baseIsEqual nativeCreate has_Map hs inherited h fuel v o) (decides v o s) (fun _ => False) s.
Proof.
  induction fuel as [|fuel IH]; intros n v o s Hn Hv Ho Hb Hs; [lia|]. simpl.
  wp_case E1. { split_and!; [by left|by constructor|done]. }
  wp_case E2.
  { split_and!; [by left|intros []%andb_true_iff; by apply matches_nan|]. intros _ Hm.
    destruct (matches_refs _ _ Hm E1) as [H|(l & l' & -> & -> & H1 & H2)]; [done|]. by rewrite H1, H2 in E2. }
  assert (Hobj : ~ (exists l l', v = VRef l /\ o = VRef l') -> matches v o -> False).
  { intros Hn' Hm. destruct (matches_refs _ _ Hm E1) as [[H1 H2]%andb_true_iff|(l & l' & -> & -> & _)]; [|naive_solver].
    unfold nan in H1, H2. destruct v, o; simpl in *; rewrite ?Nat.eqb_refl in *;
      (try done); by rewrite ?eqb_reflx, ?jseqb_refl in *. }
  unfold baseIsEqualDeep.
  destruct v as [| | | | |l]; [apply decides_false, Hobj; by intros (? & ? & ? & ?)..|].
  destruct o as [| | | | |l']; [apply decides_false, Hobj; by intros (? & ? & ? & ?)..|]. clear Hobj.
  simpl in Hv, Ho, E1. assert (Hr : (rank l < n)%nat) by by apply Hb. apply (clear_weaken _ (S (rank l))) in Hs; [|lia].
  assert (IHf : forall v o s, in_source P v -> outside P o -> below (rank l) v -> clear (rank l) s ->
    wp (baseIsEqual nativeCreate has_Map hs inherited h fuel v o) (decides v o s) (fun _ => False) s).
  { intros. eapply (IH (rank l)); [lia|done..]. }
  destruct (h !! l) as [[o|es|t|bs|src fl|ps body]|] eqn:Hl;
    destruct (h !! l') as [[o'|es'|t'|bs'|src' fl'|ps' body']|] eqn:Hl';
    try (apply decides_false; intros Hm%matches_kind; [by rewrite Hl, Hl' in Hm|by apply Nat.eqb_neq]).
  - by eapply equalObjects_decides.
  - by eapply equalArrays_decides.
  - split_and!; [by left|intros Ht; by eapply matches_date|]. intros _ Hm.
    inversion Hm as [? ? E|? ? E| | |? ? o o' ? ? ? Hl1 ? He|]; subst; try congruence.
    + simpl in E. congruence.
    + unfold nan in E. simpl in E. by rewrite Nat.eqb_refl in E.
    + rewrite Hl in Hl1. injection Hl1 as <-. done.
  - by eapply equalArrays_decides.
  - destruct (regexps_print l src fl Hl) as [text E], (regexps_print l' src' fl' Hl') as [text' E'].
    wp_prim. apply wp_liftO. rewrite E'. wp_prim. apply wp_liftO. rewrite E. wp_prim.
    split_and!; [by left|intros ->%jseqb_eq; by eapply matches_regexp|]. intros _ Hm.
    inversion Hm as [? ? F|? ? F| |? ? ? ? ? ? ? ? ? F F'|? ? o o' ? ? ? Hl1 ? He|]; subst; try congruence.
    + simpl in F. congruence.
    + unfold nan in F. simpl in F. by rewrite Nat.eqb_refl in F.
    + apply jseqb_eq. congruence.
    + rewrite Hl in Hl1. injection Hl1 as <-. done.
Qed.

(** ** The predicate of a source *)

Definition source_matches (o : object) (object : value) : Prop :=
  if nullish object then object_keys (OObject o) = []
  else forall k, k ∈ object_keys (OObject o) ->
       exists v', property inherited h object k = Some v' /\ matches (object_get (OObject o) k) v'.

(** A key of the source, as [getMatchData] lists it. *)
Definition key_matches (object : value) (data : jsstr * value * bool) : Prop :=
  exists v', property inherited h object data.1.1 = Some v' /\ matches data.1.2 v'.

Lemma strict_matches v v' : isStrictComparable v = true -> matches v v' <-> strict_eq v v' = true.
Proof.
  unfold isStrictComparable. intros [Hn Ho]%andb_true_iff. split; [|by constructor].
  intros Hm. destruct (strict_eq v v') eqn:E; [done|].
  destruct (matches_refs _ _ Hm E) as [[H1 _]%andb_true_iff|(l & l' & -> & _)]; [|done].
  unfold nan in H1. by rewrite Hn in H1.
Qed.

Lemma strict_key object k v : isStrictComparable v = true ->
  (exists v', property inherited h object k = Some v' /\ matches v v')
  <-> strict_eq v (get_property inherited h object k) = true
     /\ strict_eq (get_property inherited h object k) VUndefined && negb (has_property inherited h object k) = false.
Proof.
  intros Hv. unfold get_property, has_property. destruct (property inherited h object k) as [v'|]; cbn.
  - rewrite andb_false_r. split.
    + intros (v'' & [= ->] & Hm). by rewrite strict_matches in Hm.
    + intros [H _]. exists v'. by rewrite strict_matches.
  - naive_solver.
Qed.

Lemma stackClear_clear n : clear n stackClear.
Proof. by split. Qed.

Lemma match_loop_decides fuel n object data : (n < fuel)%nat -> outside P object ->
  Forall (fun d => isStrictComparable d.1.2 = d.2 /\ in_source P d.1.2 /\ below n d.1.2) data ->
  forallb (passes inherited h object) data = true ->
  exists b, match_loop nativeCreate has_Map hs inherited h fuel object data = Ret b
    /\ (b = true -> Forall (key_matches object) data)
    /\ (no_arrays -> Forall (key_matches object) data -> b = true).
Proof.
  intros Hn Ho. induction data as [|[[k v] strict] data IH]; intros Hd Hp; [by exists true|].
  apply Forall_cons in Hd as [(Hst & Hv & Hb) Hd]. cbn [fst snd] in *. cbn [forallb passes] in Hp.
  apply andb_true_iff in Hp as [Hk Hp]. destruct (IH Hd Hp) as (b & Eb & Hs & Hc). simpl.
  assert (Hnext : key_matches object (k, v, strict) -> 
    exists b, match_loop nativeCreate has_Map hs inherited h fuel object data = Ret b
      /\ (b = true -> Forall (key_matches object) ((k, v, strict) :: data))
      /\ (no_arrays -> Forall (key_matches object) ((k, v, strict) :: data) -> b = true)).
  { intros Hkm. exists b. split_and!; [done|intros ?; constructor; auto|]. intros Hna [_ ?]%Forall_cons. auto. }
  assert (Hfalse : ~ key_matches object (k, v, strict) ->
    exists b, Ret (X := native_error) false = Ret b
      /\ (b = true -> Forall (key_matches object) ((k, v, strict) :: data))
      /\ (no_arrays -> Forall (key_matches object) ((k, v, strict) :: data) -> b = true)).
  { intros Hkm. exists false. split_and!; [done..|]. by intros _ [? _]%Forall_cons. }
  destruct strict.
  - destruct (_ && _) eqn:E.
    + apply Hfalse. intros [_ H]%(strict_key object k v Hst). congruence.
    + apply Hnext. by apply (strict_key object k v Hst).
  - assert (Hprop : exists v', property inherited h object k = Some v').
    { unfold has_property in Hk. destruct (property _ _ _ _); [by eexists|done]. }
    destruct Hprop as [v' Ev]. assert (Hv' : outside P v') by by eapply (apart_properties _ _ Hapart).
    pose proof (baseIsEqual_decides fuel n v v' stackClear Hn Hv Hv' Hb (stackClear_clear n)) as Hw.
    unfold wp in Hw. unfold get_property. rewrite Ev. cbn [default]. unfold id, mbind, outcome_bind.
    destruct (baseIsEqual _ _ _ _ _ _ _ _ _) as [[r s']|e|]; [|done..]. destruct Hw as (_ & Hr & Hr').
    destruct r; [apply Hnext; exists v'; auto|].
    exists false. split_and!; [done..|]. intros Hna [(v'' & Ev' & Hm) _]%Forall_cons. cbn in *.
    rewrite Ev in Ev'. injection Ev' as <-. by apply Hr'.
Qed.

Lemma strict_eq_sym v v' : strict_eq v v' = strict_eq v' v.
Proof.
  rewrite !strict_eq_canon. case_bool_decide as H; [|by rewrite bool_decide_eq_false_2 by congruence].
  rewrite bool_decide_eq_true_2 by done. simpl. f_equal.
  destruct v as [| | |[]| |], v' as [| | |[]| |]; simpl in *; congruence.
Qed.

Lemma match_data_ok source o : P source = true -> h !! source = Some (OObject o) ->
  Forall (fun d => isStrictComparable d.1.2 = d.2 /\ in_source P d.1.2 /\ below (rank source) d.1.2)
    (getMatchData (OObject o)).
Proof.
  intros Hp Hl. unfold getMatchData. apply Forall_fmap, Forall_forall. intros k Hk. cbn [fst snd compose].
  split; [done|]. apply order_keys_elem, assoc_get_Some_key in Hk as [v Hv]. cbn [object_get]. rewrite Hv.
  apply assoc_get_value in Hv. split; [by eapply (apart_source _ _ Hapart)|].
  intros x Hx. by eapply (apart_source _ _ Hapart source (OObject o)).
Qed.

Lemma key_matches_all o object : nullish object = false ->
  Forall (key_matches object) (getMatchData (OObject o)) <-> source_matches o object.
Proof.
  intros Hn. unfold source_matches, getMatchData. rewrite Hn, Forall_fmap, Forall_forall. done.
Qed.

Lemma passes_needed object data : Forall (fun d => isStrictComparable d.1.2 = d.2) data ->
  Forall (key_matches object) data -> forallb (passes inherited h object) data = true.
Proof.
  intros Hd Hk. apply forallb_forall. intros [[k v] strict] Hin%list_elem_of_In.
  rewrite Forall_forall in Hd, Hk. specialize (Hd _ Hin). specialize (Hk _ Hin). simpl in *.
  destruct strict; [by apply (strict_key object k v Hd)|]. unfold has_property.
  destruct Hk as (v' & E & _). cbn [fst] in E. by rewrite E.
Qed.

Lemma forallb_reverse {A} (f : A -> bool) l : forallb f (reverse l) = forallb f l.
Proof.
  apply eq_true_iff_eq. rewrite !forallb_forall. setoid_rewrite <- list_elem_of_In.
  by setoid_rewrite elem_of_reverse.
Qed.

Lemma baseIsMatch_decides fuel source o object : P source = true -> h !! source = Some (OObject o) ->
  outside P object -> (rank source < fuel)%nat ->
  exists b, baseIsMatch nativeCreate has_Map hs inherited h fuel object (getMatchData (OObject o)) = Ret b
    /\ (b = true -> source_matches o object) /\ (no_arrays -> source_matches o object -> b = true).
Proof.
  intros Hp Hl Ho Hf. pose proof (match_data_ok source o Hp Hl) as Hd. unfold baseIsMatch.
  destruct (nullish object) eqn:En.
  - eexists. split; [done|]. unfold source_matches, getMatchData. rewrite En, length_fmap.
    by destruct (object_keys (OObject o)).
  - rewrite forallb_reverse. setoid_rewrite <- (key_matches_all o object En).
    destruct (forallb _ _) eqn:E; cbn [negb].
    + by apply (match_loop_decides fuel (rank source)).
    + exists false. split_and!; [done..|]. intros _ Hk. rewrite passes_needed in E; [done| |done].
      eapply Forall_impl; [exact Hd|]. by intros ? [].
Qed.

Lemma baseMatches_decides fuel source o object : P source = true -> h !! source = Some (OObject o) ->
  outside P object -> (rank source < fuel)%nat ->
  exists b, baseMatches nativeCreate has_Map hs inherited h fuel source object = Ret b
    /\ (b = true -> source_matches o object) /\ (no_arrays -> source_matches o object -> b = true).
Proof.
  intros Hp Hl Ho Hf. unfold baseMatches. rewrite Hl.
  assert (Hgen : exists b, (if strict_eq object (VRef source) then Ret true
      else baseIsMatch nativeCreate has_Map hs inherited h fuel object (getMatchData (OObject o))) = Ret b
    /\ (b = true -> source_matches o object) /\ (no_arrays -> source_matches o object -> b = true)).
  { assert (strict_eq object (VRef source) = false) as ->; [|by apply (baseIsMatch_decides fuel source)].
    destruct object; try done. simpl in *. apply Nat.eqb_neq. congruence. }
  destruct (getMatchData (OObject o)) as [|[[k v] []] [|d data]] eqn:E; try exact Hgen. clear Hgen.
  pose proof (match_data_ok source o Hp Hl) as Hd. rewrite E in Hd. apply Forall_cons in Hd as [(Hst & _) _].
  unfold matchesStrictComparable. destruct (nullish object) eqn:En.
  - exists false. split_and!; [done..|]. unfold source_matches. rewrite En. intros _ Hk.
    unfold getMatchData in E. by rewrite Hk in E.
  - eexists. split; [done|]. rewrite <- (key_matches_all o object En), E, Forall_singleton.
    pose proof (strict_key object k v Hst) as Hk. unfold key_matches. cbn [fst snd] in *. rewrite Hk.
    rewrite (strict_eq_sym v (get_property inherited h object k)). destruct (strict_eq (get_property inherited h object k) v) eqn:Ev; cbn [andb];
      [|by split; [|intros _ [? _]]].
    assert (strict_eq (get_property inherited h object k) VUndefined = strict_eq v VUndefined) as ->
      by (destruct (get_property inherited h object k), v; done).
    destruct (strict_eq v VUndefined), (has_property inherited h object k); simpl; naive_solver.
Qed.
End exact.

(** ** The first match *)

Lemma find_from_first p array : forall index, (forall v, v ∈ array -> exists b, p v = Ret b) ->
  exists i, find_from p array index = Ret (if Nat.ltb i (length array) then Some (index + i)%nat else None)
    /\ (forall j v, (j < i)%nat -> array !! j = Some v -> p v = Ret false)
    /\ (forall v, array !! i = Some v -> p v = Ret true).
Proof.
  induction array as [|v array IH]; intros index Hp; [by exists 0%nat|]. simpl.
  destruct (Hp v) as [b Eb]; [left|]. rewrite Eb. cbn. destruct b.
  - exists 0%nat. rewrite Nat.add_0_r. split_and!; [done|lia|by intros ? [= <-]].
  - destruct (IH (S index)) as (i & E & H1 & H2); [intros v' Hv'; apply Hp; by right|].
    exists (S i). rewrite E, <- Nat.add_succ_comm. split_and!; [done| |done].
    intros [|j] v' Hj; [by intros [= <-]|]. apply H1. lia.
Qed.

Lemma find_first p array : (forall v, v ∈ array -> exists b, p v = Ret b) ->
  exists i, find p array None = Ret (default VUndefined (array !! i))
    /\ (forall j v, (j < i)%nat -> array !! j = Some v -> p v = Ret false)
    /\ (forall v, array !! i = Some v -> p v = Ret true).
Proof.
  intros Hp. destruct (find_from_first p array 0 Hp) as (i & E & H1 & H2). exists i. split; [|done].
  unfold find, findIndex, baseFindIndex. destruct array as [|v array]; [done|].
  change (drop _ (v :: array)) with (v :: array). change (Z.to_nat _) with 0%nat. rewrite E.
  unfold mbind, outcome_bind. destruct (Nat.ltb_spec i (length (v :: array))) as [Hi|Hi]; [done|].
  by rewrite (lookup_ge_None_2 (v :: array)) by done.
Qed.

(** ** The property *)

(** A source with an array of two objects, the first of which is part of the second, and
    an object with an array of the second and of another one that has the first. *)
Definition greedy_heap : heap :=
  let one := [(js "p", VBool true)] in
  let two := [(js "p", VBool true); (js "q", VBool true)] in
  [plain [(js "a", VRef 1)]; OArray [VRef 2; VRef 3]; plain one; plain two;
   plain [(js "a", VRef 5)]; OArray [VRef 6; VRef 7]; plain two;
   plain [(js "p", VBool true); (js "q", VBool false)]].

Lemma greedy_matches hs inherited :
  source_matches hs inherited greedy_heap (Obj [(js "a", VRef 1)] ProtoObject) (VRef 4).
Proof.
  assert (Hp : forall l l' o o', greedy_heap !! l = Some (OObject o) -> greedy_heap !! l' = Some (OObject o') ->
    (forall k v, assoc_get (props o) k = Some v -> v = VBool true /\ assoc_get (props o') k = Some v) ->
    matches hs inherited greedy_heap (VRef l) (VRef l')).
  { intros l l' o o' Hl Hl' Ho. eapply matches_object; [done..|]. intros k v [-> Hv]%Ho. exists (VBool true).
    split; [|by apply matches_same]. unfold property. rewrite Hl'.
    destruct (length greedy_heap); simpl; by rewrite Hv. }
  intros k Hk. apply order_keys_elem in Hk. simpl in Hk. apply list_elem_of_singleton in Hk as ->.
  exists (VRef 5). split; [vm_compute; reflexivity|].
  change (object_get _ _) with (VRef 1).
  apply (matches_array _ _ _ 1 5 (OArray [VRef 2; VRef 3]) (OArray [VRef 6; VRef 7])
    [VRef 2; VRef 3] [VRef 6; VRef 7] [VRef 7; VRef 6]); [done..| |].
  - constructor; [|constructor; [|constructor]].
    + eapply (Hp 2%nat 7%nat); [done..|]. intros k v. cbn [props assoc_get].
      destruct (jseqb _ k); [|done]. by intros [= <-].
    + eapply (Hp 3%nat 6%nat); [done..|]. intros k v. cbn [props assoc_get].
      destruct (jseqb _ k); [by intros [= <-]|]. destruct (jseqb _ k); [|done]. by intros [= <-].
  - apply Permutation_submseteq, Permutation_swap.
Qed.

(** C14: for a source that does not contain itself and shares nothing with what it
    is compared with, [baseMatches] answers yes only for what matches the source,
    and always when there is no array in the source; [find] gives the first element it
    answers yes for, or [undefined].  With arrays it can miss a match: an element takes the
    first element that matches it, although a later one may have no other. *)
Theorem matching_decides nativeCreate has_Map hs inherited h P rank source o fuel :
  apart inherited h P rank ->
  (forall l src fl, h !! l = Some (ORegExp src fl) -> exists text, value_toString hs h (VRef l) = Ret text) ->
  P source = true -> h !! source = Some (OObject o) -> (rank source < fuel)%nat ->
  let predicate := baseMatches nativeCreate has_Map hs inherited h fuel source in
  (forall object, outside P object -> exists b, predicate object = Ret b
     /\ (b = true -> source_matches hs inherited h o object)
     /\ (no_arrays h P -> source_matches hs inherited h o object -> b = true))
  /\ (forall array, Forall (outside P) array -> exists i,
       find predicate array None = Ret (default VUndefined (array !! i))
       /\ (forall j v, (j < i)%nat -> array !! j = Some v -> predicate v = Ret false)
       /\ (forall v, array !! i = Some v -> predicate v = Ret true))
  /\ (source_matches hs inherited greedy_heap (Obj [(js "a", VRef 1)] ProtoObject) (VRef 4)
      /\ baseMatches nativeCreate has_Map hs inherited greedy_heap 5 0 (VRef 4) = Ret false).
Proof.
  intros Ha Hre Hp Hl Hf predicate. subst predicate. split_and!.
  - intros object Ho. by apply (baseMatches_decides _ _ _ _ _ P rank).
  - intros array Hout. apply find_first. intros v Hv. rewrite Forall_forall in Hout.
    destruct (baseMatches_decides nativeCreate has_Map hs inherited h P rank Ha Hre fuel source o v) as (b & E & _);
      [done..|by apply Hout|done|]. by exists b.
  - apply greedy_matches.
  - destruct nativeCreate, has_Map; vm_compute; reflexivity.
Qed.

Definition demo_heap : heap :=
  [plain [(js "a", VRef 1); (js "b", VBool true)]; plain [(js "c", VNull)];
   plain [(js "a", VRef 3); (js "b", VBool true); (js "d", VNull)]; plain [(js "c", VNull); (js "e", VNull)]].

Lemma demo_apart :
  apart (fun _ _ => None) demo_heap (fun l => Nat.ltb l 2) (fun l => 1 - l)%nat.
Proof.
  split.
  - intros [|[|[|[|l]]]] o v; simpl; intros Hp [= <-]; try done; simpl; rewrite ?elem_of_cons;
      intros Hv; destruct_or?; subst; try (by apply not_elem_of_nil in Hv); split; try done;
      intros ? [= <-]; lia.
  - intros [|[|[|[|l]]]] o v; simpl; intros Hp [= <-]; try done; simpl; rewrite ?elem_of_cons;
      intros Hv; destruct_or?; subst; try (by apply not_elem_of_nil in Hv); done.
  - intros [| | | | |[|[|[|[|l]]]]] k v; try done; intros _; unfold property; simpl;
      repeat (destruct (jseqb _ k); [by intros [= <-]|]); done.
Qed.

Lemma matching_decides_witness :
  exists i, find (baseMatches true true bare_host (fun _ _ => None) demo_heap 5 0) [VRef 3; VRef 2] None
            = Ret (default VUndefined ([VRef 3; VRef 2] !! i))
    /\ (forall j v, (j < i)%nat -> [VRef 3; VRef 2] !! j = Some v ->
        baseMatches true true bare_host (fun _ _ => None) demo_heap 5 0 v = Ret false)
    /\ (forall v, [VRef 3; VRef 2] !! i = Some v ->
        baseMatches true true bare_host (fun _ _ => None) demo_heap 5 0 v = Ret true).
Proof.
  apply (proj1 (proj2 (matching_decides true true bare_host (fun _ _ => None) demo_heap
    (fun l => Nat.ltb l 2) (fun l => 1 - l)%nat 0 (Obj [(js "a", VRef 1); (js "b", VBool true)] ProtoObject) 5
    demo_apart
    ltac:(intros [|[|[|[|l]]]] src fl; discriminate) eq_refl eq_refl ltac:(simpl; lia)))).
  repeat constructor.
Defined.
