(* ===== verification/LodashDebounce.v ===== *)
(** * lodash: [debounce]

    The page delays the work it does on every keystroke with [debounce]: a call
    is served when no other call has come for [wait] milliseconds, at the latest
    after [maxWait], and possibly at once ([leading]).  The closure variables of
    the source are the record [closure]; the timers of the browser and what the
    outside sees (calls, invocations of the wrapped function) are the record
    [world].  An [event] is what can happen between two turns of the event loop.

    The wrapped function is a parameter; it returns a result or throws, and does
    not call the debounced function again.  Times are whole milliseconds. *)

From S2P Require Import JsPrelude.

Section debounce.
Context {This Args Result Exn : Type}.
Variable func : This -> Args -> Result + Exn.

(** [wait] and [options], once [debounce] has read them. *)
Record debounce_options : Type := mkOptions {
  opt_leading : bool;
  opt_maxWait : option Z;
  opt_trailing : option bool
}.

Record config : Type := mkConfig {
  wait : Z;
  leading : bool;
  maxing : bool;
  maxWait : Z;
  trailing : bool
}.

Definition make_config (wait : Z) (options : option debounce_options) : config :=
  match options with
  | None => mkConfig wait false false 0 true
  | Some o =>
      mkConfig wait (opt_leading o)
        (match opt_maxWait o with Some _ => true | None => false end)
        (match opt_maxWait o with Some m => Z.max m wait | None => 0 end)
        (default true (opt_trailing o))
  end.

Record closure : Type := mkClosure {
  lastArgs : option Args;
  lastThis : option This;
  result : option Result;
  timerId : option nat;
  lastCallTime : option Z;
  lastInvokeTime : Z
}.

Definition initial_closure : closure := mkClosure None None None None None 0.

(** What the outside sees: a call, an invocation of the function, and that a
    waiting call was given up. *)
Inductive entry : Type :=
| Called (time : Z) (this : This) (args : Args)
| Invoked (time : Z) (this : This) (args : Args)
| GivenUp (time : Z).

(** The clock, the timers that wait with the time they are due, the next timer
    and what happened so far, the latest first. *)
Record world : Type := mkWorld {
  now : Z;
  pending : list (nat * Z);
  next_timer : nat;
  history : list entry
}.

Definition record (e : entry) (w : world) : world :=
  mkWorld (now w) (pending w) (next_timer w) (e :: history w).

(** A timer with a negative delay is due at once. *)
Definition setTimeout (delay : Z) (w : world) : nat * world :=
  (next_timer w,
   mkWorld (now w) ((next_timer w, now w + Z.max 0 delay) :: pending w)
           (S (next_timer w)) (history w)).

Definition clearTimeout (id : nat) (w : world) : world :=
  mkWorld (now w) (filter (fun t => t.1 <> id) (pending w)) (next_timer w) (history w).

(** What a function of the source returns or throws, and the new state. *)
Abbreviation answer := (option Result + Exn)%type.
Abbreviation run := (answer * (closure * world))%type.

Variable c : config.

(** The caller passes [lastArgs] and [lastThis] on; they are set. *)
Definition invokeFunc (time : Z) (s : closure) (w : world) : run :=
  let s' := mkClosure None None (result s) (timerId s) (lastCallTime s) time in
  match lastThis s, lastArgs s with
  | Some this, Some args =>
      let w' := record (Invoked time this args) w in
      match func this args with
      | inl r => (inl (Some r), (mkClosure None None (Some r) (timerId s) (lastCallTime s) time, w'))
      | inr e => (inr e, (s', w'))
      end
  | _, _ => (inl (result s), (s', w))
  end.

Definition set_timer (delay : Z) (s : closure) (w : world) : closure * world :=
  let '(id, w') := setTimeout delay w in
  (mkClosure (lastArgs s) (lastThis s) (result s) (Some id) (lastCallTime s) (lastInvokeTime s), w').

Definition leadingEdge (time : Z) (s : closure) (w : world) : run :=
  let s := mkClosure (lastArgs s) (lastThis s) (result s) (timerId s) (lastCallTime s) time in
  let '(s, w) := set_timer (wait c) s w in
  if leading c then invokeFunc time s w else (inl (result s), (s, w)).

(** [time - lastCallTime] is [NaN] when there was no call, and compares false. *)
Definition remainingWait (time : Z) (s : closure) : Z :=
  let timeWaiting := wait c - (time - default 0 (lastCallTime s)) in
  if maxing c then Z.min timeWaiting (maxWait c - (time - lastInvokeTime s)) else timeWaiting.

Definition shouldInvoke (time : Z) (s : closure) : bool :=
  match lastCallTime s with
  | None => true
  | Some t =>
      (wait c <=? time - t) || (time - t <? 0)
      || maxing c && (maxWait c <=? time - lastInvokeTime s)
  end.

Definition no_waiting (s : closure) : closure :=
  mkClosure None None (result s) (timerId s) (lastCallTime s) (lastInvokeTime s).

Definition discard (s : closure) (w : world) : world :=
  match lastArgs s with Some _ => record (GivenUp (now w)) w | None => w end.

Definition trailingEdge (time : Z) (s : closure) (w : world) : run :=
  let s := mkClosure (lastArgs s) (lastThis s) (result s) None (lastCallTime s) (lastInvokeTime s) in
  match lastArgs s with
  | Some _ => if trailing c then invokeFunc time s w
              else (inl (result s), (no_waiting s, discard s w))
  | None => (inl (result s), (no_waiting s, w))
  end.

Definition timerExpired (s : closure) (w : world) : run :=
  let time := now w in
  if shouldInvoke time s then trailingEdge time s w
  else (inl None, set_timer (remainingWait time s) s w).

Definition cancel (s : closure) (w : world) : closure * world :=
  let w := discard s w in
  (mkClosure None None (result s) None None 0,
   match timerId s with Some id => clearTimeout id w | None => w end).

Definition flush (s : closure) (w : world) : run :=
  match timerId s with
  | None => (inl (result s), (s, w))
  | Some _ => trailingEdge (now w) s w
  end.

Definition debounced (this : This) (args : Args) (s : closure) (w : world) : run :=
  let time := now w in
  let isInvoking := shouldInvoke time s in
  let s := mkClosure (Some args) (Some this) (result s) (timerId s) (Some time) (lastInvokeTime s) in
  let w := record (Called time this args) w in
  let rest :=
    match timerId s with
    | None => let '(s, w) := set_timer (wait c) s w in (inl (result s), (s, w))
    | Some _ => (inl (result s), (s, w))
    end in
  if isInvoking then
    match timerId s with
    | None => leadingEdge time s w
    | Some _ =>
        if maxing c then let '(s, w) := set_timer (wait c) s w in invokeFunc time s w
        else rest
    end
  else rest.

(** ** The event loop *)

Inductive event : Type :=
| Call (this : This) (args : Args)
| Fire (id : nat)
| Cancel
| Flush
| Tick (delay : Z).

Definition due_now (id : nat) (w : world) : bool :=
  existsb (fun t => Nat.eqb t.1 id && (t.2 <=? now w)) (pending w).

(** What an event does; a timer that is not due does not fire, and time does not
    run backwards. *)
Definition react (e : event) (s : closure) (w : world) : option (closure * world) :=
  match e with
  | Call this args => Some (debounced this args s w).2
  | Fire id => if due_now id w then Some (timerExpired s (clearTimeout id w)).2 else None
  | Cancel => Some (cancel s w)
  | Flush => Some (flush s w).2
  | Tick d => if 0 <=? d then Some (s, mkWorld (now w + d) (pending w) (next_timer w) (history w))
              else None
  end.

(** The states after a sequence of events, the latest first. *)
Inductive reaches : list event -> closure -> world -> Prop :=
| reaches_start t : 0 <= t -> reaches [] initial_closure (mkWorld t [] 0 [])
| reaches_step es e s w s' w' :
    reaches es s w -> react e s w = Some (s', w') -> reaches (e :: es) s' w'.
End debounce.
