(* ===== verification/LodashDebounceTheory.v ===== *)
(** * lodash: what [debounce] promises

    An invariant of every reachable state links the closure variables, the
    timers and what the outside has seen.  From it: an invocation always serves
    the latest call and no call twice, a waiting call is served in time, and
    without a leading edge the function runs only after a quiet period. *)

From S2P Require Import JsPrelude LodashDebounce.

Section theory.
Context {This Args Result Exn : Type}.
Variable func : This -> Args -> Result + Exn.
Variable c : config.

Abbreviation entry := (@entry This Args).
Abbreviation closure := (@closure This Args Result).
Abbreviation world := (@world This Args).

(** ** Reading the history *)

(** The latest entry is a call that is neither served nor given up. *)
Definition waiting (h : list entry) : bool :=
  match h with Called _ _ _ :: _ => true | _ => false end.

(** The time of the first of the calls that wait. *)
Fixpoint first_waiting (h : list entry) (acc : Z) : Z :=
  match h with Called t _ _ :: h' => first_waiting h' t | _ => acc end.

(** Every invocation comes right after a call, with the arguments of that call,
    and [P] holds of the time of the call and that of the invocation. *)
Fixpoint served (P : Z -> Z -> Prop) (h : list entry) : Prop :=
  match h with
  | [] => True
  | Invoked t this args :: h' =>
      served P h' /\ exists t' h'', h' = Called t' this args :: h'' /\ P t' t
  | _ :: h' => served P h'
  end.

(** ** The invariant *)

(** A timer in time for the call at [lc] and for the calls that wait. *)
Definition in_time (lc : Z) (h : list entry) (due : Z) : Prop :=
  due <= lc + wait c
  /\ (maxing c = true -> waiting h = true -> due <= first_waiting h 0 + maxWait c).

Record Inv (P : Z -> Z -> Prop) (s : closure) (w : world) : Prop := {
  inv_ids : NoDup (pending w).*1 /\ Forall (fun t => (t.1 < next_timer w)%nat) (pending w);
  inv_timer : forall id, timerId s = Some id -> id ∈ (pending w).*1;
  inv_latest :
    match history w with
    | Called t this args :: _ =>
        lastArgs s = Some args /\ lastThis s = Some this /\ lastCallTime s = Some t
        /\ timerId s <> None
    | _ => lastArgs s = None /\ lastThis s = None
    end;
  inv_served : served P (history w);
  inv_called : forall t, lastCallTime s = Some t -> t <= now w;
  inv_invoked : lastInvokeTime s <= now w
    /\ (waiting (history w) = true -> lastInvokeTime s <= first_waiting (history w) 0);
  inv_deadline : timerId s <> None ->
    exists lc id due, lastCallTime s = Some lc /\ (id, due) ∈ pending w
      /\ in_time lc (history w) due
}.

(** The delays of a configuration that [make_config] gives. *)
Definition wf_config : Prop := 0 <= wait c /\ (maxing c = true -> wait c <= maxWait c).

(** ** Timers *)

Lemma fresh_timer (w : world) :
  Forall (fun t => (t.1 < next_timer w)%nat) (pending w) -> next_timer w ∉ (pending w).*1.
Proof.
  intros H Hin. apply list_elem_of_fmap in Hin as (t & Heq & Ht).
  pose proof (proj1 (Forall_forall _ _) H t Ht) as Hlt. simpl in Hlt. lia.
Qed.

Lemma ids_set delay (w : world) :
  NoDup (pending w).*1 /\ Forall (fun t => (t.1 < next_timer w)%nat) (pending w) ->
  NoDup (pending (setTimeout delay w).2).*1
  /\ Forall (fun t => (t.1 < next_timer (setTimeout delay w).2)%nat) (pending (setTimeout delay w).2).
Proof.
  intros [HN HF]. simpl. split.
  - apply NoDup_cons. split; [by apply fresh_timer|done].
  - constructor; simpl; [lia|]. eapply Forall_impl; [exact HF|]. simpl. lia.
Qed.

Lemma ids_clear id (w : world) :
  NoDup (pending w).*1 /\ Forall (fun t => (t.1 < next_timer w)%nat) (pending w) ->
  NoDup (pending (clearTimeout id w)).*1
  /\ Forall (fun t => (t.1 < next_timer (clearTimeout id w))%nat) (pending (clearTimeout id w)).
Proof.
  intros [HN HF]. simpl. split.
  - clear HF. induction (pending w) as [|t l IH]; [constructor|].
    apply NoDup_cons in HN as [Ht HN]. rewrite filter_cons. case_decide; [|by apply IH].
    apply NoDup_cons. split; [|by apply IH]. intros Hin. destruct Ht.
    apply list_elem_of_fmap in Hin as (t' & -> & Ht'). apply list_elem_of_filter in Ht' as [_ ?].
    apply list_elem_of_fmap. eauto.
  - apply Forall_forall. intros t Ht. apply list_elem_of_filter in Ht as [_ Ht].
    by apply (proj1 (Forall_forall _ _) HF).
Qed.

(** ** The functions keep the invariant *)

(** What the functions rely on while the timers are being changed. *)
Record Core (P : Z -> Z -> Prop) (s : closure) (w : world) : Prop := {
  core_ids : NoDup (pending w).*1 /\ Forall (fun t => (t.1 < next_timer w)%nat) (pending w);
  core_latest :
    match history w with
    | Called t this args :: _ =>
        lastArgs s = Some args /\ lastThis s = Some this /\ lastCallTime s = Some t
    | _ => lastArgs s = None /\ lastThis s = None
    end;
  core_served : served P (history w);
  core_called : forall t, lastCallTime s = Some t -> t <= now w;
  core_invoked : lastInvokeTime s <= now w
    /\ (waiting (history w) = true -> lastInvokeTime s <= first_waiting (history w) 0)
}.

Definition timed (s : closure) (w : world) : Prop :=
  (forall id, timerId s = Some id -> id ∈ (pending w).*1)
  /\ (timerId s <> None ->
      exists lc id due, lastCallTime s = Some lc /\ (id, due) ∈ pending w
        /\ in_time lc (history w) due).

(** The same without regard to the calls that wait. *)
Definition armed (s : closure) (w : world) : Prop :=
  (forall id, timerId s = Some id -> id ∈ (pending w).*1)
  /\ (timerId s <> None ->
      exists lc id due, lastCallTime s = Some lc /\ (id, due) ∈ pending w /\ due <= lc + wait c).

Lemma timed_armed s w : timed s w -> armed s w.
Proof.
  intros [H1 H2]. split; [done|]. intros Hid.
  destruct (H2 Hid) as (lc & id & due & Hl & Hin & Hd & _). by exists lc, id, due.
Qed.

Lemma Inv_Core P s w : Inv P s w -> Core P s w.
Proof.
  intros [H1 _ H2 H3 H4 H5 _]. split; try done.
  destruct (history w) as [|[] ?]; try done. by destruct H2 as (? & ? & ? & _).
Qed.

Lemma Core_Inv P s w :
  Core P s w -> timed s w -> (waiting (history w) = true -> timerId s <> None) -> Inv P s w.
Proof.
  intros [H1 H2 H3 H4 H5] [H6 H7] H8. split; try done.
  destruct (history w) as [|[] ?]; try done. destruct H2 as (? & ? & ?).
  split_and!; try done. by apply H8.
Qed.

(** The state after a call of one of the functions. *)
Abbreviation after r := (fst (snd r)) (only parsing).
Abbreviation world_after r := (snd (snd r)) (only parsing).

Lemma invokeFunc_inv P s w t this args h :
  Core P s w -> armed s w -> history w = Called t this args :: h -> P t (now w) ->
  Inv P (after (invokeFunc func (now w) s w)) (world_after (invokeFunc func (now w) s w)).
Proof.
  intros [H1 H2 H3 H4 [H5 _]] [Ht Hd] Hh HP. rewrite Hh in *.
  destruct H2 as (Ha & Hth & Hlc). unfold invokeFunc. rewrite Ha, Hth.
  assert (Hdead : timerId s <> None -> exists lc id due, lastCallTime s = Some lc
    /\ (id, due) ∈ pending w /\ in_time lc (Invoked (now w) this args :: history w) due).
  { intros Hid. destruct (Hd Hid) as (lc & id & due & Hl & Hin & Hdue).
    exists lc, id, due. by split_and!. }
  destruct (func this args) as [r|e]; simpl; rewrite Hh in *; split; simpl; try done.
  all: rewrite Hh; split; [done|by exists t, h].
Qed.

Lemma no_waiting_inv P s w :
  Core P s w -> timerId s = None -> waiting (history w) = false -> Inv P (no_waiting s) w.
Proof.
  intros [H1 H2 H3 H4 H5] Ht Hw. split; simpl; try done; try by rewrite Ht.
  by destruct (history w) as [|[] ?].
Qed.

Lemma Core_untimed P s w (s' : closure) :
  Core P s w -> lastArgs s' = lastArgs s -> lastThis s' = lastThis s ->
  lastCallTime s' = lastCallTime s -> lastInvokeTime s' = lastInvokeTime s -> Core P s' w.
Proof. intros [H1 H2 H3 H4 H5] Ea Et Ec Ei. split; rewrite ?Ea, ?Et, ?Ec, ?Ei; try done. Qed.

(** The latest call, when one waits. *)
Lemma core_waiting P s w args :
  Core P s w -> lastArgs s = Some args ->
  exists t this h, history w = Called t this args :: h /\ lastThis s = Some this
    /\ lastCallTime s = Some t.
Proof.
  intros HC Ha. pose proof (core_latest _ _ _ HC) as H. rewrite Ha in H.
  destruct (history w) as [|[t this args'| |] h]; try by destruct H.
  destruct H as ([= <-] & Hth & Hc). by exists t, this, h.
Qed.

Lemma core_not_waiting P s w :
  Core P s w -> lastArgs s = None -> waiting (history w) = false.
Proof.
  intros HC Ha. pose proof (core_latest _ _ _ HC) as H. rewrite Ha in H.
  destruct (history w) as [|[] h]; try done. by destruct H.
Qed.

Lemma trailingEdge_inv P s w :
  Core P s w ->
  (forall t, waiting (history w) = true -> lastCallTime s = Some t -> P t (now w)) ->
  Inv P (after (trailingEdge func c (now w) s w)) (world_after (trailingEdge func c (now w) s w)).
Proof.
  intros HC HP. unfold trailingEdge.
  set (s' := mkClosure _ _ _ None _ _).
  assert (HC' : Core P s' w) by by apply (Core_untimed P s w).
  destruct (lastArgs s') as [args|] eqn:Ha; last first.
  { simpl. apply no_waiting_inv; [done..|]. by eapply core_not_waiting. }
  destruct (core_waiting _ _ _ _ HC' Ha) as (t & this & h & Hh & Hth & Hc).
  destruct (trailing c).
  - eapply invokeFunc_inv; [done| |exact Hh|]; [by split|]. apply HP; [by rewrite Hh|done].
  - simpl. unfold discard. rewrite Ha. destruct HC' as [H1 H2 H3 H4 [H5 _]].
    by split; simpl; try done.
Qed.

Lemma set_timer_core P s w delay :
  Core P s w -> Core P (set_timer delay s w).1 (set_timer delay s w).2.
Proof.
  intros [H1 H2 H3 H4 H5]. split; simpl; try done. exact (ids_set delay w H1).
Qed.

Lemma set_timer_timed s w delay lc :
  lastCallTime s = Some lc -> in_time lc (history w) (now w + Z.max 0 delay) ->
  timed (set_timer delay s w).1 (set_timer delay s w).2.
Proof.
  intros Hc Hd. split; simpl.
  - intros id [= <-]. by left.
  - intros _. exists lc, (next_timer w), (now w + Z.max 0 delay). split_and!; try done. by left.
Qed.

Lemma clear_core P s w id : Core P s w -> Core P s (clearTimeout id w).
Proof. intros [H1 H2 H3 H4 H5]. split; try done. exact (ids_clear id w H1). Qed.

(** A timer fires. *)
Lemma timerExpired_inv P s w :
  wf_config -> Core P s w ->
  (forall t, waiting (history w) = true -> lastCallTime s = Some t ->
     shouldInvoke c (now w) s = true -> P t (now w)) ->
  Inv P (after (timerExpired func c s w)) (world_after (timerExpired func c s w)).
Proof.
  intros [Hw0 Hwm] HC HP. unfold timerExpired.
  destruct (shouldInvoke c (now w) s) eqn:Hs.
  { apply trailingEdge_inv; [done|]. intros t Hw Ht. by apply HP. }
  unfold shouldInvoke in Hs. destruct (lastCallTime s) as [lc|] eqn:Hc; [|done].
  apply orb_false_iff in Hs as [[Hs1 Hs2]%orb_false_iff Hs3].
  assert (Htimed : timed (set_timer (remainingWait c (now w) s) s w).1
                         (set_timer (remainingWait c (now w) s) s w).2).
  { apply (set_timer_timed _ _ _ lc Hc). unfold in_time, remainingWait. rewrite Hc. simpl.
    pose proof (core_invoked _ _ _ HC) as [Hi1 Hi2].
    apply Z.leb_gt in Hs1. apply Z.ltb_ge in Hs2.
    destruct (maxing c); simpl in Hs3; [apply Z.leb_gt in Hs3|]; (split; [lia|]); [|done].
    intros _ Hw. specialize (Hi2 Hw). lia. }
  pose proof (set_timer_core P s w (remainingWait c (now w) s) HC) as HC'.
  apply Core_Inv; [exact HC'|exact Htimed|done].
Qed.

Lemma flush_inv P s w :
  Inv P s w ->
  (forall t, waiting (history w) = true -> lastCallTime s = Some t -> P t (now w)) ->
  Inv P (after (flush func c s w)) (world_after (flush func c s w)).
Proof.
  intros HI HP. unfold flush. destruct (timerId s) as [id|]; [|done].
  apply trailingEdge_inv; [by apply Inv_Core|done].
Qed.

Lemma cancel_inv P s w : Inv P s w -> 0 <= now w -> Inv P (cancel s w).1 (cancel s w).2.
Proof.
  intros HI Hn. pose proof (Inv_Core _ _ _ HI) as HC. unfold cancel.
  assert (Hg : served P (history (discard s w)) /\ waiting (history (discard s w)) = false
    /\ pending (discard s w) = pending w /\ next_timer (discard s w) = next_timer w
    /\ now (discard s w) = now w).
  { unfold discard. destruct (lastArgs s) eqn:Ha; simpl.
    - split_and!; try done. apply HI.
    - split_and!; try done; [apply HI|]. by eapply core_not_waiting. }
  destruct Hg as (Hs & Hw & Hp & Hnt & Hnow).
  set (w' := match timerId s with Some id => _ | None => _ end).
  assert (Hw' : history w' = history (discard s w) /\ now w' = now w
    /\ (NoDup (pending w').*1 /\ Forall (fun t => (t.1 < next_timer w')%nat) (pending w'))).
  { unfold w'. destruct (timerId s) as [id|]; simpl.
    - split_and!; try done. all: rewrite Hp, ?Hnt; apply (ids_clear id w), HI.
    - rewrite Hp, Hnt. split_and!; try done; apply HI. }
  destruct Hw' as (Hh' & Hn' & Hids'). simpl. split; simpl; try done.
  - rewrite Hh'. by destruct (history (discard s w)) as [|[] ?].
  - by rewrite Hh'.
  - rewrite Hh', Hw, Hn'. by split.
Qed.

Lemma first_waiting_cons t this args h :
  (waiting h = true -> first_waiting (Called t this args :: h) 0 = first_waiting h 0)
  /\ (waiting h = false -> first_waiting (Called t this args :: h) 0 = t).
Proof. split; by destruct h as [|[] ?]. Qed.

(** The variables and the history once a call has been noted. *)
Definition noted (this : This) (args : Args) (s : closure) (w : world) : closure * world :=
  (mkClosure (Some args) (Some this) (result s) (timerId s) (Some (now w)) (lastInvokeTime s),
   record (Called (now w) this args) w).

Lemma noted_core P this args s w :
  Inv P s w -> Core P (noted this args s w).1 (noted this args s w).2.
Proof.
  intros [H1 H2 H3 H4 H5 [H6 H7] H8]. split; simpl; try done.
  - intros t [= <-]. lia.
  - split; [done|]. intros _. change (lastInvokeTime s <= first_waiting (Called (now w) this args :: history w) 0).
    destruct (first_waiting_cons (now w) this args (history w)) as [Hf1 Hf2].
    destruct (waiting (history w)) eqn:Hw; [rewrite Hf1 by done; auto|rewrite Hf2 by done; done].
Qed.

Lemma noted_in_time this args (w : world) due :
  wf_config -> due <= now w + wait c ->
  (maxing c = true -> waiting (history w) = true -> due <= first_waiting (history w) 0 + maxWait c) ->
  in_time (now w) (Called (now w) this args :: history w) due.
Proof.
  intros [_ Hm] Hd Hf. split; [done|]. intros Hmax _. specialize (Hm Hmax).
  destruct (first_waiting_cons (now w) this args (history w)) as [Hf1 Hf2].
  destruct (waiting (history w)) eqn:Hw; [rewrite Hf1 by done; auto|rewrite Hf2 by done; lia].
Qed.

Lemma noted_timed P this args s w :
  wf_config -> Inv P s w -> timed (noted this args s w).1 (noted this args s w).2.
Proof.
  intros Hc [H1 H2 H3 H4 H5 H6 H7]. split; simpl; [done|]. intros Hid.
  destruct (H7 Hid) as (lc & id & due & Hlc & Hin & Hd & Hm). specialize (H5 lc Hlc).
  exists (now w), id, due. split_and!; try done. apply noted_in_time; [done|lia|done].
Qed.

(** A timer started by a call, when none is running. *)
Lemma noted_timer P this args s w :
  wf_config -> Inv P s w -> timerId s = None ->
  timed (set_timer (wait c) (noted this args s w).1 (noted this args s w).2).1
        (set_timer (wait c) (noted this args s w).1 (noted this args s w).2).2.
Proof.
  intros Hc HI Ht. apply (set_timer_timed _ _ _ (now w)); [done|]. simpl.
  apply noted_in_time; [done| |].
  - destruct Hc. lia.
  - intros _ Hw. pose proof (inv_latest _ _ _ HI) as Hl.
    destruct (history w) as [|[] ?]; try done. by destruct Hl as (_ & _ & _ & ?).
Qed.

Lemma set_timer_armed s (w : world) delay :
  0 <= delay <= wait c -> lastCallTime s = Some (now w) ->
  armed (set_timer delay s w).1 (set_timer delay s w).2.
Proof.
  intros Hd Hc. split; simpl.
  - intros id [= <-]. by left.
  - intros _. exists (now w), (next_timer w), (now w + Z.max 0 delay).
    split_and!; [done|by left|lia].
Qed.

Lemma Inv_waiting_timer P s w : Inv P s w -> timerId s = None -> waiting (history w) = false.
Proof.
  intros HI Ht. pose proof (inv_latest _ _ _ HI) as Hl.
  destruct (history w) as [|[] ?]; try done. by destruct Hl as (_ & _ & _ & ?).
Qed.

(** The leading edge, when no timer is running. *)
Lemma leadingEdge_inv P this args s w :
  wf_config -> Inv P s w -> timerId s = None -> (leading c = true -> P (now w) (now w)) ->
  let r := leadingEdge func c (now w) (noted this args s w).1 (noted this args s w).2 in
  Inv P (after r) (world_after r).
Proof.
  intros Hc HI Ht HP. unfold leadingEdge.
  set (s1 := mkClosure _ _ _ _ _ (now w)).
  assert (HC : Core P s1 (noted this args s w).2).
  { destruct (noted_core P this args s w HI) as [H1 H2 H3 H4 _]. split; try done.
    split; [done|]. intros _.
    change (now w <= first_waiting (Called (now w) this args :: history w) 0).
    by rewrite (proj2 (first_waiting_cons _ _ _ _)) by by eapply Inv_waiting_timer. }
  pose proof (set_timer_core P s1 _ (wait c) HC) as HC'.
  assert (HT : timed (set_timer (wait c) s1 (noted this args s w).2).1
                     (set_timer (wait c) s1 (noted this args s w).2).2).
  { exact (noted_timer P this args s w Hc HI Ht). }
  destruct (set_timer (wait c) s1 (noted this args s w).2) as [s2 w2] eqn:Hset. simpl in HC', HT.
  injection Hset as Hs2 Hw2. destruct (leading c) eqn:Hlead; simpl.
  - assert (Hn : now w = now w2) by by subst w2. rewrite Hn.
    eapply invokeFunc_inv; [exact HC'|by apply timed_armed| |rewrite <- Hn; by apply HP].
    by subst w2.
  - apply Core_Inv; [done..|]. by subst s2.
Qed.

Lemma debounced_inv P this args s w :
  wf_config -> Inv P s w ->
  (leading c = true \/ maxing c = true -> P (now w) (now w)) ->
  Inv P (after (debounced func c this args s w)) (world_after (debounced func c this args s w)).
Proof.
  intros Hc HI HP. pose proof (noted_core P this args s w HI) as HC.
  unfold debounced. cbv zeta.
  change (mkClosure (Some args) (Some this) (result s) (timerId s) (Some (now w)) (lastInvokeTime s))
    with (noted this args s w).1.
  change (record (Called (now w) this args) w) with (noted this args s w).2.
  change (timerId (noted this args s w).1) with (timerId s).
  destruct (timerId s) as [id|] eqn:Ht; last first.
  - assert (Hrest : Inv P (set_timer (wait c) (noted this args s w).1 (noted this args s w).2).1
                          (set_timer (wait c) (noted this args s w).1 (noted this args s w).2).2).
    { apply Core_Inv; [by apply set_timer_core|by eapply noted_timer|done]. }
    destruct (shouldInvoke c (now w) s); [|exact Hrest].
    apply leadingEdge_inv; auto.
  - assert (Hrest : Inv P (noted this args s w).1 (noted this args s w).2).
    { apply Core_Inv; [done|by eapply noted_timed|]. intros _. simpl. by rewrite Ht. }
    destruct (shouldInvoke c (now w) s); [|exact Hrest].
    destruct (maxing c) eqn:Hmax; [|exact Hrest].
    pose proof (set_timer_core P _ _ (wait c) HC) as HC'.
    assert (HA : armed (set_timer (wait c) (noted this args s w).1 (noted this args s w).2).1
                       (set_timer (wait c) (noted this args s w).1 (noted this args s w).2).2).
    { apply set_timer_armed; [destruct Hc; lia|done]. }
    change (now w) with (now (set_timer (wait c) (noted this args s w).1 (noted this args s w).2).2).
    destruct (set_timer (wait c) (noted this args s w).1 (noted this args s w).2) as [s2 w2] eqn:Hset.
    simpl in HC', HA. injection Hset as Hs2 Hw2. simpl.
    eapply invokeFunc_inv; [exact HC'|exact HA| |]; subst w2; [done|]. apply HP. by right.
Qed.

(** ** Reachable states *)

Abbreviation reaches := (reaches func c).
Abbreviation event := (@event This Args).

(** [P] holds of a call and its invocation, wherever an invocation comes from. *)
Record allows (es : list event) (P : Z -> Z -> Prop) : Prop := {
  allows_call : leading c = true \/ maxing c = true -> forall t, P t t;
  allows_fire : forall (s : closure) t t', lastCallTime s = Some t -> t <= t' ->
    shouldInvoke c t' s = true -> P t t';
  allows_flush : Flush ∈ es -> forall t t', t <= t' -> P t t'
}.

Lemma allows_tail P e es : allows (e :: es) P -> allows es P.
Proof. intros [H1 H2 H3]. split; [done..|]. intros He. apply H3. by right. Qed.

Lemma start_inv P t : 0 <= t -> Inv P initial_closure (mkWorld t [] 0 []).
Proof. intros Ht. split; simpl; try done. split; constructor. Qed.

Lemma tick_inv P s (w : world) d :
  0 <= d -> Inv P s w -> Inv P s (mkWorld (now w + d) (pending w) (next_timer w) (history w)).
Proof.
  intros Hd [H1 H2 H3 H4 H5 [H6 H7] H8]. split; simpl; try done.
  - intros t Ht. specialize (H5 t Ht). lia.
  - split; [lia|done].
Qed.

Lemma react_now e s w s' (w' : world) :
  react func c e s w = Some (s', w') -> now w <= now w'.
Proof.
  assert (Hinv : forall time s (w : world), now (world_after (invokeFunc func time s w)) = now w).
  { intros time s0 w0. unfold invokeFunc. by repeat case_match. }
  assert (Htr : forall time s (w : world), now (world_after (trailingEdge func c time s w)) = now w).
  { intros time s0 w0. unfold trailingEdge, discard. repeat case_match; simpl; auto. }
  destruct e; simpl.
  - intros [= Hw]. unfold debounced, leadingEdge in Hw.
    assert (Hnow : now (world_after (debounced func c this args s w)) = now w).
    { unfold debounced, leadingEdge. simpl. repeat case_match; simpl; rewrite ?Hinv; done. }
    unfold debounced, leadingEdge in Hnow. rewrite Hw in Hnow. simpl in Hnow. lia.
  - case_match; [|done]. intros [= Hw]. unfold timerExpired in Hw.
    destruct (shouldInvoke _ _ _).
    + pose proof (Htr (now w) s (clearTimeout id w)) as Hn. simpl in *. rewrite Hw in Hn. simpl in Hn. lia.
    + injection Hw as _ <-. simpl. lia.
  - intros [= _ <-]. unfold discard. repeat case_match; simpl; lia.
  - intros [= Hw]. unfold flush in Hw. destruct (timerId s).
    + pose proof (Htr (now w) s w) as Hn. rewrite Hw in Hn. simpl in Hn. lia.
    + injection Hw as _ <-. lia.
  - case_match; [|done]. intros [= _ <-]. simpl. lia.
Qed.

Lemma react_inv P es e s w s' w' :
  wf_config -> allows (e :: es) P -> Inv P s w -> 0 <= now w ->
  react func c e s w = Some (s', w') -> Inv P s' w'.
Proof.
  intros Hc [Ha1 Ha2 Ha3] HI Hn. destruct e; simpl.
  - pose proof (debounced_inv P this args s w Hc HI) as H. intros [= Hw]. rewrite Hw in H.
    apply H. auto.
  - case_match; [|done]. intros [= Hw].
    pose proof (timerExpired_inv P s (clearTimeout id w) Hc (clear_core _ _ _ _ (Inv_Core _ _ _ HI))) as H'.
    rewrite Hw in H'. apply H'. intros t _ Ht Hs. eapply Ha2; [exact Ht| |exact Hs].
    by apply (inv_called _ _ _ HI).
  - pose proof (cancel_inv P s w HI Hn) as H. intros [= <- <-]. exact H.
  - pose proof (flush_inv P s w HI) as H. intros [= Hw]. rewrite Hw in H. apply H.
    intros t _ Ht. apply Ha3; [by left|]. by apply (inv_called _ _ _ HI).
  - case_match; [|done]. intros [= <- <-]. apply tick_inv; [lia|done].
Qed.

Lemma reaches_inv P es s w :
  wf_config -> allows es P -> reaches es s w -> Inv P s w /\ 0 <= now w.
Proof.
  intros Hc Ha Hr. induction Hr as [t Ht|es e s w s' w' Hr IH Hs].
  - split; [by apply start_inv|done].
  - destruct (IH (allows_tail _ _ _ Ha)) as [HI Hn]. split.
    + by eapply react_inv.
    + pose proof (react_now _ _ _ _ _ Hs). lia.
Qed.

Lemma served_split P h1 t this args h2 :
  served P (h1 ++ Invoked t this args :: h2) ->
  exists t' h3, h2 = Called t' this args :: h3 /\ P t' t.
Proof.
  induction h1 as [|e h1 IH]; simpl; [by intros [_ ?]|]. destruct e; try done.
  by intros [? _]; apply IH.
Qed.

Lemma allows_any es : allows es Z.le.
Proof. split; intros; lia. Qed.

(** Without a leading edge, [maxWait] and [flush], a call is served only when it
    is [wait] milliseconds old. *)
Lemma allows_quiet es :
  leading c = false -> maxing c = false -> Flush ∉ es -> allows es (fun t t' => wait c <= t' - t).
Proof.
  intros Hl Hm Hf. split.
  - intros [H|H]; congruence.
  - intros s t t' Ht Hle Hs. unfold shouldInvoke in Hs. rewrite Ht, Hm in Hs.
    apply orb_true_iff in Hs as [Hs|Hs]; [|done]. apply orb_true_iff in Hs as [Hs|Hs]; lia.
  - done.
Qed.

(** ** Serving a waiting call *)

Lemma due_now_in id due (w : world) : (id, due) ∈ pending w -> due <= now w -> due_now id w = true.
Proof.
  intros Hin Hd. apply existsb_exists. exists (id, due). split; [by apply list_elem_of_In|].
  simpl. rewrite Nat.eqb_refl. simpl. lia.
Qed.

(** What the end of the delay means for a call: without the trailing edge it is
    given up. *)
Definition settled (t : Z) (this : This) (args : Args) : entry :=
  if trailing c then Invoked t this args else GivenUp t.

(** A timer fires when the call may be served. *)
Lemma expired_serves P s w lc this args h :
  Inv P s w -> history w = Called lc this args :: h ->
  forall id, shouldInvoke c (now w) s = true ->
  history (world_after (timerExpired func c s (clearTimeout id w)))
  = settled (now w) this args :: history w.
Proof.
  intros HI Hh id Hs. pose proof (inv_latest _ _ _ HI) as Hl. rewrite Hh in Hl.
  destruct Hl as (Ha & Hth & _ & _). unfold timerExpired. simpl. rewrite Hs. unfold trailingEdge.
  unfold settled. simpl. rewrite Ha. destruct (trailing c).
  - unfold invokeFunc. simpl. rewrite Hth. by case_match.
  - done.
Qed.

(** Let time pass until [t], then let the timer [id] fire. *)
Lemma tick_fire es s w id due t :
  reaches es s w -> (id, due) ∈ pending w -> due <= t -> now w <= t ->
  let w1 := mkWorld t (pending w) (next_timer w) (history w) in
  let r := timerExpired func c s (clearTimeout id w1) in
  reaches (Fire id :: Tick (t - now w) :: es) (after r) (world_after r).
Proof.
  intros Hr Hin Hd Ht w1 r. eapply reaches_step; [eapply reaches_step; [exact Hr|]|].
  - cbn [react]. rewrite (proj2 (Z.leb_le _ _)) by lia.
    replace (now w + (t - now w)) with t by lia. reflexivity.
  - cbn [react]. fold w1. rewrite (due_now_in id due w1 Hin Hd). fold r. by destruct r as [? []].
Qed.

(** The first moment at which the call is old enough. *)
Definition ripe (s : closure) (lc : Z) : Z :=
  if maxing c then Z.min (lc + wait c) (lastInvokeTime s + maxWait c) else lc + wait c.

Lemma shouldInvoke_ripe s lc t :
  lastCallTime s = Some lc -> ripe s lc <= t -> shouldInvoke c t s = true.
Proof.
  intros Hc Ht. unfold shouldInvoke, ripe in *. rewrite Hc.
  destruct (maxing c); simpl.
  - destruct (Z.leb_spec (wait c) (t - lc)); [done|]. apply orb_true_iff. right. lia.
  - destruct (Z.leb_spec (wait c) (t - lc)); [done|lia].
Qed.

Lemma expired_rearms s (w : world) lc :
  lastCallTime s = Some lc -> shouldInvoke c (now w) s = false ->
  (timerExpired func c s w).2 = set_timer (ripe s lc - now w) s w /\ now w <= ripe s lc.
Proof.
  intros Hc Hs. unfold timerExpired. rewrite Hs.
  assert (Hr : remainingWait c (now w) s = ripe s lc - now w).
  { unfold remainingWait, ripe. rewrite Hc. simpl. destruct (maxing c); lia. }
  rewrite Hr. split; [done|].
  destruct (Z.le_gt_cases (ripe s lc) (now w)) as [Hle|]; [|lia].
  rewrite (shouldInvoke_ripe s lc (now w) Hc Hle) in Hs. done.
Qed.

Lemma tick_to_inv P s (w : world) t :
  now w <= t -> Inv P s w -> Inv P s (mkWorld t (pending w) (next_timer w) (history w)).
Proof.
  intros Ht HI. replace t with (now w + (t - now w)) by lia. apply tick_inv; [lia|done].
Qed.

Definition timer_event (e : event) : Prop :=
  match e with Fire _ | Tick _ => True | _ => False end.

(** One more timer serves the call when the moment is right. *)
Lemma serve_at es s w lc this args h id due t :
  wf_config -> reaches es s w -> history w = Called lc this args :: h ->
  (id, due) ∈ pending w -> due <= t -> now w <= t -> shouldInvoke c t s = true ->
  exists s' w', reaches (Fire id :: Tick (t - now w) :: es) s' w'
    /\ history w' = settled t this args :: history w.
Proof.
  intros Hc Hr Hh Hin Hd Hn Hs.
  destruct (reaches_inv Z.le es s w Hc (allows_any es) Hr) as [HI _].
  pose proof (tick_to_inv _ _ _ t Hn HI) as HI1.
  eexists _, _. split; [by eapply tick_fire|].
  exact (expired_serves _ _ _ lc this args h HI1 Hh id Hs).
Qed.

Lemma call_is_settled es s w lc this args h :
  wf_config -> reaches es s w -> history w = Called lc this args :: h ->
  exists es' s' w' t, Forall timer_event es' /\ reaches (es' ++ es) s' w'
    /\ history w' = settled t this args :: history w /\ t <= Z.max (now w) (lc + wait c).
Proof.
  intros Hc Hr Hh.
  destruct (reaches_inv Z.le es s w Hc (allows_any es) Hr) as [HI _].
  pose proof (inv_latest _ _ _ HI) as Hl. rewrite Hh in Hl. destruct Hl as (_ & _ & Hlc & Hid).
  destruct (inv_deadline _ _ _ HI Hid) as (lc' & id & due & Hlc' & Hin & Hdue & _).
  assert (lc' = lc) as -> by congruence. set (t := Z.max (now w) due).
  assert (Hripe : ripe s lc <= lc + wait c) by (unfold ripe; case_match; lia).
  destruct (shouldInvoke c t s) eqn:Hs.
  { destruct (serve_at es s w lc this args h id due t) as (s' & w' & Hr' & Hh'); try done; try lia.
    exists [Fire id; Tick (t - now w)], s', w', t. split_and!; try done; [|lia].
    by repeat apply Forall_cons_2. }
  pose proof (tick_fire es s w id due t Hr Hin ltac:(lia) ltac:(lia)) as Hr1. simpl in Hr1.
  destruct (expired_rearms s (clearTimeout id (mkWorld t (pending w) (next_timer w) (history w)))
              lc Hlc Hs) as [Hre Hle].
  rewrite Hre in Hr1. simpl in Hr1, Hle.
  destruct (serve_at _ _ _ lc this args h (next_timer w) (ripe s lc) (ripe s lc) Hc Hr1)
    as (s' & w' & Hr' & Hh'); simpl; try done; try lia.
  - apply elem_of_cons. left. f_equal. lia.
  - apply (shouldInvoke_ripe _ lc); [done|]. unfold ripe. simpl. lia.
  - eexists (_ :: _ :: [_; _]), s', w', (ripe s lc). split_and!; [|exact Hr'|exact Hh'|lia].
    by repeat apply Forall_cons_2.
Qed.
End theory.

(** ** Theorems *)

(** Without a leading edge, [maxWait] and [flush], the function runs only
    after a quiet period: the call it serves is at least [wait] milliseconds old
    and no other call came in between. *)
Lemma quiet_invocation {This Args Result Exn} (func : This -> Args -> Result + Exn)
    c es s w h1 t this args h2 :
  wf_config c -> leading c = false -> maxing c = false -> Flush ∉ es ->
  reaches func c es s w -> history w = h1 ++ Invoked t this args :: h2 ->
  exists t' h3, h2 = Called t' this args :: h3 /\ wait c <= t - t'.
Proof.
  intros Hc Hl Hm Hf Hr Hh.
  destruct (reaches_inv func c _ es s w Hc (allows_quiet c es Hl Hm Hf) Hr) as [HI _].
  pose proof (inv_served _ _ _ _ HI) as Hs. rewrite Hh in Hs. by eapply served_split in Hs.
Qed.

(** C28: an invocation of the function always serves the latest call: right before
    it the debounced function was called with the same [this] and arguments, at
    the same time or earlier, so that no call is served twice and none after a
    later one; without a leading edge, [maxWait] and [flush], that call is at least
    [wait] milliseconds old.  And while a call waits, the current timer is one of
    those that will fire. *)
Theorem debounce_serves_latest {This Args Result Exn} (func : This -> Args -> Result + Exn) c es s w :
  wf_config c -> reaches func c es s w ->
  (forall h1 t this args h2, history w = h1 ++ Invoked t this args :: h2 ->
     exists t' h3, h2 = Called t' this args :: h3 /\ t' <= t
       /\ (leading c = false -> maxing c = false -> Flush ∉ es -> wait c <= t - t'))
  /\ (waiting (history w) = true ->
      exists id, timerId s = Some id /\ id ∈ (pending w).*1).
Proof.
  intros Hc Hr. destruct (reaches_inv func c Z.le es s w Hc (allows_any c es) Hr) as [HI _]. split.
  - intros h1 t this args h2 Hh. pose proof (inv_served _ _ _ _ HI) as Hs. rewrite Hh in Hs.
    apply served_split in Hs as (t' & h3 & -> & Ht). exists t', h3. split_and!; [done|done|].
    intros Hl Hm Hf. destruct (quiet_invocation func c es s w h1 t this args (Called t' this args :: h3))
      as (t'' & h3' & [= <- _] & Hq); done.
  - intros Hw. pose proof (inv_latest _ _ _ _ HI) as Hl. pose proof (inv_timer _ _ _ _ HI) as Ht.
    destruct (history w) as [|[] ?]; try done. destruct Hl as (_ & _ & _ & Hid).
    destruct (timerId s) as [id|]; [|done]. exists id. auto.
Qed.

(** C22: the end of the delay is met in time.  In a state in which a call waits and the
    browser has run every timer that is due, the latest call is younger than [wait],
    and with [maxWait] the first of the calls that wait together is younger than
    [maxWait].  And from every reachable state in which a call waits, letting time pass
    and timers fire, without another call, ends the wait: not later than [wait]
    milliseconds after the latest call, or at once when these are over already, the
    call is served when the trailing edge is on, and given up when it is off. *)
Theorem debounce_timely {This Args Result Exn} (func : This -> Args -> Result + Exn)
    c es s w lc this args h :
  wf_config c -> reaches func c es s w -> history w = Called lc this args :: h ->
  (Forall (fun t => now w < t.2) (pending w) ->
   now w < lc + wait c
   /\ (maxing c = true -> now w < first_waiting (history w) 0 + maxWait c))
  /\ (exists es' s' w' t, Forall timer_event es' /\ reaches func c (es' ++ es) s' w'
    /\ history w' = (if trailing c then Invoked t this args else GivenUp t) :: history w
    /\ t <= Z.max (now w) (lc + wait c)).
Proof.
  intros Hc Hr Hh. split; [|by apply (call_is_settled func c es s w lc this args h)]. intros Hp.
  destruct (reaches_inv func c Z.le es s w Hc (allows_any c es) Hr) as [HI _].
  pose proof (inv_latest _ _ _ _ HI) as Hl. rewrite Hh in Hl. destruct Hl as (_ & _ & Hlc & Hid).
  destruct (inv_deadline _ _ _ _ HI Hid) as (lc' & id & due & Hlc' & Hin & Hdue & Hm).
  assert (lc' = lc) as -> by congruence.
  pose proof (proj1 (Forall_forall _ _) Hp _ Hin) as Hlt. simpl in Hlt. split; [lia|].
  intros Hmax. specialize (Hm Hmax). rewrite Hh in *. specialize (Hm eq_refl). lia.
Qed.

(** ** A run *)

(** The state after a list of events, the latest first. *)
Fixpoint play {This Args Result Exn} (func : This -> Args -> Result + Exn) (c : config) (start : Z)
    (es : list event) : option (closure * world) :=
  match es with
  | [] => Some (initial_closure, mkWorld start [] 0 [])
  | e :: es' =>
      match play func c start es' with
      | Some (s, w) => react func c e s w
      | None => None
      end
  end.

Lemma play_reaches {This Args Result Exn} (func : This -> Args -> Result + Exn) c start es s w :
  0 <= start -> play func c start es = Some (s, w) -> reaches func c es s w.
Proof.
  intros H0. revert s w. induction es as [|e es IH]; simpl; intros s w Hp.
  - injection Hp as <- <-. by constructor.
  - destruct (play func c start es) as [[s' w']|]; [|done]. by eapply reaches_step; [apply IH|].
Qed.

(** Two calls 20 milliseconds apart, with a delay of 100; the first timer has
    fired once and was set again. *)
Definition demo_func (this : unit) (n : Z) : Z + unit := inl n.
Definition demo_config : config := make_config 100 None.
Definition demo_events : list (@event unit Z) :=
  [Tick 5; Fire 0; Tick 80; Call tt 8; Tick 20; Call tt 7].
Definition demo_closure : @closure unit Z Z := mkClosure (Some 8) (Some tt) None (Some 1%nat) (Some 1020) 1000.
Definition demo_world : @world unit Z :=
  mkWorld 1105 [(1%nat, 1120)] 2 [Called 1020 tt 8; Called 1000 tt 7].

Lemma demo_reaches : reaches demo_func demo_config demo_events demo_closure demo_world.
Proof. apply (play_reaches _ _ 1000); [done|]. vm_compute. reflexivity. Qed.

Lemma demo_config_wf : wf_config demo_config.
Proof. split; [done|]. by intros. Qed.

Lemma debounce_serves_latest_witness :
  exists es s w, reaches demo_func demo_config es s w /\ waiting (history w) = true
    /\ exists id, timerId s = Some id /\ id ∈ (pending w).*1.
Proof.
  exists demo_events, demo_closure, demo_world. split; [exact demo_reaches|].
  split; [reflexivity|].
  exact (proj2 (debounce_serves_latest _ _ _ _ _ demo_config_wf demo_reaches) eq_refl).
Defined.

Lemma debounce_timely_witness :
  exists es s w, reaches demo_func demo_config es s w
    /\ history w = Called 1020 tt 8 :: [Called 1000 tt 7]
    /\ (Forall (fun t => now w < t.2) (pending w) /\ now w < 1020 + wait demo_config)
    /\ exists es' s' w' t, reaches demo_func demo_config (es' ++ es) s' w'
       /\ history w' = Invoked t tt 8 :: history w /\ t <= 1120.
Proof.
  exists demo_events, demo_closure, demo_world. split; [exact demo_reaches|].
  split; [reflexivity|].
  assert (Hp : Forall (fun t => now demo_world < t.2) (pending demo_world)).
  { simpl. repeat apply Forall_cons_2; simpl; [lia|apply Forall_nil_2]. }
  destruct (debounce_timely demo_func demo_config demo_events demo_closure demo_world
    1020 tt 8 [Called 1000 tt 7] demo_config_wf demo_reaches eq_refl) as [Hd Hl].
  split; [exact (conj Hp (proj1 (Hd Hp)))|].
  destruct Hl as (es & s & w & t & _ & Hr & Hh & Ht).
  exists es, s, w, t. split; [exact Hr|]. split; [exact Hh|exact Ht].
Defined.
