(* ===== verification/NodeBuffer.v ===== *)
(** * The [Buffer] module

    The byte buffers the bundle carries for the browser.  The model takes the
    branch [Buffer.TYPED_ARRAY_SUPPORT]: a buffer is a view of a store of bytes,
    and [slice] makes another view of the same store.  A method that reads or
    writes one buffer is a function on its bytes ([bytes]); [through] runs it on
    the store the buffer views, so that every view of the store sees the change.
    The methods that involve two buffers run on the memory itself.

    Numbers are integers of any size; where the source computes in binary64 and
    the exact result may need more than 53 bits, [fl] rounds it.  An operand that
    the source finds [undefined] is [None], and so is the [NaN] that arithmetic
    makes of it.  The packages [base64-js] and [ieee754] are parameters. *)

From S2P Require Import JsPrelude JsNumber.

(** ** Errors, bytes and memory *)

Inductive buf_error : Type :=
| BRangeError (msg : jsstr)
| BTypeError (msg : jsstr)
| BError (msg : jsstr).

Abbreviation bytes := (list Z).
Abbreviation BO := (outcome buf_error).

Definition range_error {A} (s : string) : BO A := Throw (BRangeError (js s)).
Definition type_error {A} (s : string) : BO A := Throw (BTypeError (js s)).

Record buffer : Type := mkBuffer {
  buf_id : nat;
  buf_store : nat;
  buf_offset : Z;
  buf_length : Z
}.

(** The stores, and the number of buffer objects made so far. *)
Record memory : Type := mkMemory {
  stores : list bytes;
  made : nat
}.

Abbreviation B := (SE memory buf_error).

(** [buf[i]]. *)
Definition get (buf : bytes) (i : Z) : option Z :=
  if i <? 0 then None else buf !! Z.to_nat i.

(** [buf[i] = v]: the value is taken modulo 256, an index out of range is
    ignored. *)
Definition set (buf : bytes) (i v : Z) : bytes :=
  if i <? 0 then buf else <[Z.to_nat i := v mod 256]> buf.

(** Consecutive assignments from index [i] on. *)
Fixpoint set_from (buf : bytes) (i : Z) (vs : list Z) : bytes :=
  match vs with
  | [] => buf
  | v :: vs' => set_from (set buf i v) (i + 1) vs'
  end.

(** The bytes a buffer views, and the store with other bytes in that place. *)
Definition view (b : buffer) (store : bytes) : bytes :=
  take (Z.to_nat (buf_length b)) (drop (Z.to_nat (buf_offset b)) store).

Definition patch (b : buffer) (bs store : bytes) : bytes :=
  take (Z.to_nat (buf_offset b)) store ++ bs
  ++ drop (Z.to_nat (buf_offset b + buf_length b)) store.

Definition store_of (m : memory) (b : buffer) : bytes := default [] (stores m !! buf_store b).
Definition contents (m : memory) (b : buffer) : bytes := view b (store_of m b).

Definition reading {A} (b : buffer) (f : bytes -> BO A) : B A :=
  m ← getS; liftO (f (contents m b)).

Definition through {A} (b : buffer) (f : bytes -> BO (A * bytes)) : B A :=
  m ← getS;
  '(a, bs) ← liftO (f (contents m b));
  _ ← modifyS (fun m => mkMemory (<[buf_store b := patch b bs (store_of m b)]> (stores m)) (made m));
  mret a.

(** [>>>]. *)
Definition ushr32 (a k : Z) : Z := Z.shiftr (a mod 2 ^ 32) (k mod 32).

(** The double nearest to an integer. *)
Definition fl (z : Z) : Z :=
  let a := Z.abs z in
  if a <=? 2 ^ 53 then z
  else
    let u := 2 ^ (Z.log2 a - 52) in
    let q := a / u in
    let r := 2 * (a mod u) in
    let q := if (r <? u) || ((r =? u) && Z.even q) then q else q + 1 in
    Z.sgn z * (q * u).

(** ** Allocation *)

Definition kMaxLength : Z := 2147483647.

(** [createBuffer(null, length)]: a new store of zeros. *)
Definition createBuffer (length : Z) : B buffer :=
  if kMaxLength <? length then liftO (range_error "Invalid typed array length")
  else
    m ← getS;
    _ ← modifyS (fun m => mkMemory (stores m ++ [replicate (Z.to_nat length) 0]) (S (made m)));
    mret (mkBuffer (made m) (List.length (stores m)) 0 length).

Definition assertSize (size : Z) : BO unit :=
  if size <? 0 then Throw (BRangeError ([34] ++ js "size" ++ [34] ++ js " argument must not be negative"))
  else Ret tt.

Definition checked (length : Z) : BO Z :=
  if kMaxLength <=? length
  then range_error "Attempt to allocate Buffer larger than maximum size: 0x7fffffff bytes"
  else Ret (toInt32 length).

Definition allocUnsafe (size : Z) : B buffer :=
  _ ← liftO (assertSize size);
  n ← liftO (if size <? 0 then Ret 0 else checked size);
  createBuffer n.

Definition fromArrayLike (array : list Z) : B buffer :=
  length ← liftO (checked (strlen array));
  that ← createBuffer length;
  _ ← through that (fun buf => Ret (tt, set_from buf 0 ((fun x => and32 x 255) <$> array)));
  mret that.

(** ** Slices *)

(** [slice(start, end)]: another buffer on the same store. *)
Definition slice_start (len start : Z) : Z :=
  let start := toInt32 start in
  if start <? 0 then (if start + len <? 0 then 0 else start + len)
  else if len <? start then len else start.

Definition slice_end (len : Z) (end_ : option Z) : Z :=
  let end_ := match end_ with None => len | Some e => toInt32 e end in
  if end_ <? 0 then (if end_ + len <? 0 then 0 else end_ + len)
  else if len <? end_ then len else end_.

Definition buf_slice (this : buffer) (start : Z) (end_ : option Z) : B buffer :=
  let len := buf_length this in
  let start := slice_start len start in
  let end_ := slice_end len end_ in
  let end_ := if end_ <? start then start else end_ in
  m ← getS;
  _ ← modifyS (fun m => mkMemory (stores m) (S (made m)));
  mret (mkBuffer (made m) (buf_store this) (buf_offset this + start) (end_ - start)).

(** ** Reading integers *)

Definition checkOffset (offset ext length : Z) : BO unit :=
  if offset <? 0 then range_error "offset is not uint"
  else if length <? offset + ext then range_error "Trying to access beyond buffer length"
  else Ret tt.

Definition unless (noAssert : bool) (check : BO unit) : BO unit :=
  if noAssert then Ret tt else check.

(** An operand of a bitwise operator: [undefined] counts as zero. *)
Definition bits (buf : bytes) (i : Z) : Z := default 0 (get buf i).

(** [val + x * mul], in binary64. *)
Definition add_scaled (val x : option Z) (mul : Z) : option Z :=
  v ← val; x ← x; Some (fl (v + fl (x * mul))).

(** [while (++i < byteLength && (mul *= 256)) val += this[offset + i] * mul]:
    [n] iterations are left, the last index was [i]. *)
Fixpoint read_le (buf : bytes) (n : nat) (offset i mul : Z) (val : option Z) : option Z * Z :=
  match n with
  | O => (val, mul)
  | S n' =>
      let mul := mul * 256 in
      read_le buf n' offset (i + 1) mul (add_scaled val (get buf (offset + (i + 1))) mul)
  end.

Definition readUIntLE (buf : bytes) (offset byteLength : Z) (noAssert : bool) : BO (option Z) :=
  let offset := toInt32 offset in
  let byteLength := toInt32 byteLength in
  _ ← unless noAssert (checkOffset offset byteLength (strlen buf));
  Ret (fst (read_le buf (Z.to_nat (byteLength - 1)) offset 0 1 (get buf offset))).

(** [while (i > 0 && (mul *= 256)) val += this[offset + --i] * mul]. *)
Fixpoint read_be (buf : bytes) (i : nat) (offset mul : Z) (val : option Z) : option Z * Z :=
  match i with
  | O => (val, mul)
  | S i' =>
      let mul := mul * 256 in
      read_be buf i' offset mul (add_scaled val (get buf (offset + Z.of_nat i')) mul)
  end.

Definition readUIntBE (buf : bytes) (offset byteLength : Z) (noAssert : bool) : BO (option Z) :=
  let offset := toInt32 offset in
  let byteLength := toInt32 byteLength in
  _ ← unless noAssert (checkOffset offset byteLength (strlen buf));
  let byteLength := byteLength - 1 in
  Ret (fst (read_be buf (Z.to_nat byteLength) offset 1 (get buf (offset + byteLength)))).

Definition readUInt8 (buf : bytes) (offset : Z) (noAssert : bool) : BO (option Z) :=
  _ ← unless noAssert (checkOffset offset 1 (strlen buf));
  Ret (get buf offset).

Definition readUInt16LE (buf : bytes) (offset : Z) (noAssert : bool) : BO (option Z) :=
  _ ← unless noAssert (checkOffset offset 2 (strlen buf));
  Ret (Some (or32 (bits buf offset) (shl32 (bits buf (offset + 1)) 8))).

Definition readUInt16BE (buf : bytes) (offset : Z) (noAssert : bool) : BO (option Z) :=
  _ ← unless noAssert (checkOffset offset 2 (strlen buf));
  Ret (Some (or32 (shl32 (bits buf offset) 8) (bits buf (offset + 1)))).

Definition readUInt32LE (buf : bytes) (offset : Z) (noAssert : bool) : BO (option Z) :=
  _ ← unless noAssert (checkOffset offset 4 (strlen buf));
  Ret (add_scaled (Some (or32 (or32 (bits buf offset) (shl32 (bits buf (offset + 1)) 8))
                              (shl32 (bits buf (offset + 2)) 16)))
                  (get buf (offset + 3)) 16777216).

Definition readUInt32BE (buf : bytes) (offset : Z) (noAssert : bool) : BO (option Z) :=
  _ ← unless noAssert (checkOffset offset 4 (strlen buf));
  Ret (add_scaled (Some (or32 (or32 (shl32 (bits buf (offset + 1)) 16) (shl32 (bits buf (offset + 2)) 8))
                              (bits buf (offset + 3))))
                  (get buf offset) 16777216).

(** [mul *= 128; if (val >= mul) val -= Math.pow(2, 8 * byteLength)], for a
    [byteLength] that is not negative. *)
Definition to_signed (byteLength : Z) (r : option Z * Z) : option Z :=
  let '(val, mul) := r in
  let mul := mul * 128 in
  v ← val; Some (if mul <=? v then fl (v - 2 ^ (8 * byteLength)) else v).

Definition readIntLE (buf : bytes) (offset byteLength : Z) (noAssert : bool) : BO (option Z) :=
  let offset := toInt32 offset in
  let byteLength := toInt32 byteLength in
  _ ← unless noAssert (checkOffset offset byteLength (strlen buf));
  Ret (to_signed byteLength (read_le buf (Z.to_nat (byteLength - 1)) offset 0 1 (get buf offset))).

Definition readIntBE (buf : bytes) (offset byteLength : Z) (noAssert : bool) : BO (option Z) :=
  let offset := toInt32 offset in
  let byteLength := toInt32 byteLength in
  _ ← unless noAssert (checkOffset offset byteLength (strlen buf));
  let i := byteLength - 1 in
  Ret (to_signed byteLength (read_be buf (Z.to_nat i) offset 1 (get buf (offset + i)))).

Definition readInt8 (buf : bytes) (offset : Z) (noAssert : bool) : BO (option Z) :=
  _ ← unless noAssert (checkOffset offset 1 (strlen buf));
  Ret (if and32 (bits buf offset) 128 =? 0 then get buf offset
       else v ← get buf offset; Some ((255 - v + 1) * -1)).

Definition sign16 (val : Z) : Z := if and32 val 32768 =? 0 then val else or32 val 4294901760.

Definition readInt16LE (buf : bytes) (offset : Z) (noAssert : bool) : BO (option Z) :=
  _ ← unless noAssert (checkOffset offset 2 (strlen buf));
  Ret (Some (sign16 (or32 (bits buf offset) (shl32 (bits buf (offset + 1)) 8)))).

Definition readInt16BE (buf : bytes) (offset : Z) (noAssert : bool) : BO (option Z) :=
  _ ← unless noAssert (checkOffset offset 2 (strlen buf));
  Ret (Some (sign16 (or32 (bits buf (offset + 1)) (shl32 (bits buf offset) 8)))).

Definition readInt32LE (buf : bytes) (offset : Z) (noAssert : bool) : BO (option Z) :=
  _ ← unless noAssert (checkOffset offset 4 (strlen buf));
  Ret (Some (or32 (or32 (or32 (bits buf offset) (shl32 (bits buf (offset + 1)) 8))
                        (shl32 (bits buf (offset + 2)) 16)) (shl32 (bits buf (offset + 3)) 24))).

Definition readInt32BE (buf : bytes) (offset : Z) (noAssert : bool) : BO (option Z) :=
  _ ← unless noAssert (checkOffset offset 4 (strlen buf));
  Ret (Some (or32 (or32 (or32 (shl32 (bits buf offset) 24) (shl32 (bits buf (offset + 1)) 16))
                        (shl32 (bits buf (offset + 2)) 8)) (bits buf (offset + 3)))).

(** ** Writing integers

    A writer returns the value of the call and the bytes. *)

Definition checkInt (buf : bytes) (value offset ext max min : Z) : BO unit :=
  if (max <? value) || (value <? min)
  then Throw (BRangeError ([34] ++ js "value" ++ [34] ++ js " argument is out of bounds"))
  else if strlen buf <? offset + ext then range_error "Index out of range"
  else Ret tt.

(** [value / mul & 255]: the quotient is exact, and [&] drops its fraction. *)
Definition quotient_byte (value mul : Z) : Z := and32 (Z.quot value mul) 255.

(** [while (++i < byteLength && (mul *= 256)) this[offset + i] = value / mul & 255]. *)
Fixpoint write_le (buf : bytes) (n : nat) (value offset i mul : Z) : bytes :=
  match n with
  | O => buf
  | S n' =>
      let mul := mul * 256 in
      write_le (set buf (offset + (i + 1)) (quotient_byte value mul)) n' value offset (i + 1) mul
  end.

Definition writeUIntLE (buf : bytes) (value offset byteLength : Z) (noAssert : bool) : BO (Z * bytes) :=
  let offset := toInt32 offset in
  let byteLength := toInt32 byteLength in
  _ ← unless noAssert (checkInt buf value offset byteLength (fl (2 ^ (8 * byteLength) - 1)) 0);
  let buf := set buf offset (and32 value 255) in
  Ret (offset + byteLength, write_le buf (Z.to_nat (byteLength - 1)) value offset 0 1).

(** [while (--i >= 0 && (mul *= 256)) this[offset + i] = value / mul & 255]. *)
Fixpoint write_be (buf : bytes) (i : nat) (value offset mul : Z) : bytes :=
  match i with
  | O => buf
  | S i' =>
      let mul := mul * 256 in
      write_be (set buf (offset + Z.of_nat i') (quotient_byte value mul)) i' value offset mul
  end.

Definition writeUIntBE (buf : bytes) (value offset byteLength : Z) (noAssert : bool) : BO (Z * bytes) :=
  let offset := toInt32 offset in
  let byteLength := toInt32 byteLength in
  _ ← unless noAssert (checkInt buf value offset byteLength (fl (2 ^ (8 * byteLength) - 1)) 0);
  let i := byteLength - 1 in
  let buf := set buf (offset + i) (and32 value 255) in
  Ret (offset + byteLength, write_be buf (Z.to_nat i) value offset 1).

Definition writeUInt8 (buf : bytes) (value offset : Z) (noAssert : bool) : BO (Z * bytes) :=
  let offset := toInt32 offset in
  _ ← unless noAssert (checkInt buf value offset 1 255 0);
  Ret (offset + 1, set buf offset (and32 value 255)).

(** The bodies shared by the signed and unsigned writers of a width. *)
Definition write16LE (buf : bytes) (value offset : Z) : bytes :=
  let buf := set buf offset (and32 value 255) in
  set buf (offset + 1) (ushr32 value 8).

Definition write16BE (buf : bytes) (value offset : Z) : bytes :=
  let buf := set buf offset (ushr32 value 8) in
  set buf (offset + 1) (and32 value 255).

Definition write32BE (buf : bytes) (value offset : Z) : bytes :=
  let buf := set buf offset (ushr32 value 24) in
  let buf := set buf (offset + 1) (ushr32 value 16) in
  let buf := set buf (offset + 2) (ushr32 value 8) in
  set buf (offset + 3) (and32 value 255).

Definition writeUInt16LE (buf : bytes) (value offset : Z) (noAssert : bool) : BO (Z * bytes) :=
  let offset := toInt32 offset in
  _ ← unless noAssert (checkInt buf value offset 2 65535 0);
  Ret (offset + 2, write16LE buf value offset).

Definition writeUInt16BE (buf : bytes) (value offset : Z) (noAssert : bool) : BO (Z * bytes) :=
  let offset := toInt32 offset in
  _ ← unless noAssert (checkInt buf value offset 2 65535 0);
  Ret (offset + 2, write16BE buf value offset).

Definition writeUInt32LE (buf : bytes) (value offset : Z) (noAssert : bool) : BO (Z * bytes) :=
  let offset := toInt32 offset in
  _ ← unless noAssert (checkInt buf value offset 4 4294967295 0);
  let buf := set buf (offset + 3) (ushr32 value 24) in
  let buf := set buf (offset + 2) (ushr32 value 16) in
  let buf := set buf (offset + 1) (ushr32 value 8) in
  Ret (offset + 4, set buf offset (and32 value 255)).

Definition writeUInt32BE (buf : bytes) (value offset : Z) (noAssert : bool) : BO (Z * bytes) :=
  let offset := toInt32 offset in
  _ ← unless noAssert (checkInt buf value offset 4 4294967295 0);
  Ret (offset + 4, write32BE buf value offset).

(** [value < 0 && sub === 0 && this[k] !== 0]: a borrow from the bytes below. *)
Definition borrow (buf : bytes) (value sub k : Z) : Z :=
  if (value <? 0) && (sub =? 0) && negb (bool_decide (get buf k = Some 0)) then 1 else sub.

(** [(value / mul >> 0) - sub & 255]. *)
Definition signed_byte (value mul sub : Z) : Z := and32 (toInt32 (Z.quot value mul) - sub) 255.

Fixpoint write_int_le (buf : bytes) (n : nat) (value offset i mul sub : Z) : bytes :=
  match n with
  | O => buf
  | S n' =>
      let i := i + 1 in
      let mul := mul * 256 in
      let sub := borrow buf value sub (offset + i - 1) in
      write_int_le (set buf (offset + i) (signed_byte value mul sub)) n' value offset i mul sub
  end.

Definition writeIntLE (buf : bytes) (value offset byteLength : Z) (noAssert : bool) : BO (Z * bytes) :=
  let offset := toInt32 offset in
  let limit := 2 ^ (8 * byteLength - 1) in
  _ ← unless noAssert (checkInt buf value offset byteLength (fl (limit - 1)) (- limit));
  let buf := set buf offset (and32 value 255) in
  Ret (offset + byteLength, write_int_le buf (Z.to_nat (byteLength - 1)) value offset 0 1 0).

Fixpoint write_int_be (buf : bytes) (i : nat) (value offset mul sub : Z) : bytes :=
  match i with
  | O => buf
  | S i' =>
      let mul := mul * 256 in
      let sub := borrow buf value sub (offset + Z.of_nat i' + 1) in
      write_int_be (set buf (offset + Z.of_nat i') (signed_byte value mul sub)) i' value offset mul sub
  end.

Definition writeIntBE (buf : bytes) (value offset byteLength : Z) (noAssert : bool) : BO (Z * bytes) :=
  let offset := toInt32 offset in
  let limit := 2 ^ (8 * byteLength - 1) in
  _ ← unless noAssert (checkInt buf value offset byteLength (fl (limit - 1)) (- limit));
  let i := byteLength - 1 in
  let buf := set buf (offset + i) (and32 value 255) in
  Ret (offset + byteLength, write_int_be buf (Z.to_nat i) value offset 1 0).

Definition writeInt8 (buf : bytes) (value offset : Z) (noAssert : bool) : BO (Z * bytes) :=
  let offset := toInt32 offset in
  _ ← unless noAssert (checkInt buf value offset 1 127 (-128));
  let value := if value <? 0 then 255 + value + 1 else value in
  Ret (offset + 1, set buf offset (and32 value 255)).

Definition writeInt16LE (buf : bytes) (value offset : Z) (noAssert : bool) : BO (Z * bytes) :=
  let offset := toInt32 offset in
  _ ← unless noAssert (checkInt buf value offset 2 32767 (-32768));
  Ret (offset + 2, write16LE buf value offset).

Definition writeInt16BE (buf : bytes) (value offset : Z) (noAssert : bool) : BO (Z * bytes) :=
  let offset := toInt32 offset in
  _ ← unless noAssert (checkInt buf value offset 2 32767 (-32768));
  Ret (offset + 2, write16BE buf value offset).

Definition writeInt32LE (buf : bytes) (value offset : Z) (noAssert : bool) : BO (Z * bytes) :=
  let offset := toInt32 offset in
  _ ← unless noAssert (checkInt buf value offset 4 2147483647 (-2147483648));
  let buf := set buf offset (and32 value 255) in
  let buf := set buf (offset + 1) (ushr32 value 8) in
  let buf := set buf (offset + 2) (ushr32 value 16) in
  Ret (offset + 4, set buf (offset + 3) (ushr32 value 24)).

Definition writeInt32BE (buf : bytes) (value offset : Z) (noAssert : bool) : BO (Z * bytes) :=
  let offset := toInt32 offset in
  _ ← unless noAssert (checkInt buf value offset 4 2147483647 (-2147483648));
  let value := if value <? 0 then 4294967295 + value + 1 else value in
  Ret (offset + 4, write32BE buf value offset).

(** The branches without typed arrays. *)
Fixpoint object_write16 (buf : bytes) (n : nat) (value offset i : Z) (littleEndian : bool) : bytes :=
  match n with
  | O => buf
  | S n' =>
      let k := if littleEndian then i else 1 - i in
      object_write16
        (set buf (offset + i) (ushr32 (and32 value (shl32 255 (8 * k))) (k * 8)))
        n' value offset (i + 1) littleEndian
  end.

Definition objectWriteUInt16 (buf : bytes) (value offset : Z) (littleEndian : bool) : bytes :=
  let value := if value <? 0 then 65535 + value + 1 else value in
  object_write16 buf (Z.to_nat (Z.min (strlen buf - offset) 2)) value offset 0 littleEndian.

Fixpoint object_write32 (buf : bytes) (n : nat) (value offset i : Z) (littleEndian : bool) : bytes :=
  match n with
  | O => buf
  | S n' =>
      let k := if littleEndian then i else 3 - i in
      object_write32 (set buf (offset + i) (and32 (ushr32 value (k * 8)) 255))
        n' value offset (i + 1) littleEndian
  end.

Definition objectWriteUInt32 (buf : bytes) (value offset : Z) (littleEndian : bool) : bytes :=
  let value := if value <? 0 then 4294967295 + value + 1 else value in
  object_write32 buf (Z.to_nat (Z.min (strlen buf - offset) 4)) value offset 0 littleEndian.

(** ** Encodings *)

Definition toHex (n : Z) : jsstr := if n <? 16 then 48 :: int_toString 16 n else int_toString 16 n.

(** [units -= k]; [None] is the initial [Infinity]. *)
Definition spend (units : option Z) (k : Z) : option Z := u ← units; Some (u - k).
Definition above (units : option Z) (k : Z) : bool := match units with Some u => k <? u | None => true end.
Definition negative (units : option Z) : bool := match units with Some u => u <? 0 | None => false end.

Definition REPLACEMENT : bytes := [239; 191; 189].

(** [if ((units -= 3) > -1) bytes.push(239, 191, 189)]. *)
Definition push_replacement (units : option Z) (out : bytes) : option Z * bytes :=
  let units := spend units 3 in
  (units, if above units (-1) then out ++ REPLACEMENT else out).

(** The bytes of one code point; [None] above the last one. *)
Definition encode_point (codePoint : Z) : option bytes :=
  if codePoint <? 128 then Some [codePoint]
  else if codePoint <? 2048 then
    Some [or32 (sar32 codePoint 6) 192; or32 (and32 codePoint 63) 128]
  else if codePoint <? 65536 then
    Some [or32 (sar32 codePoint 12) 224; or32 (and32 (sar32 codePoint 6) 63) 128;
          or32 (and32 codePoint 63) 128]
  else if codePoint <? 1114112 then
    Some [or32 (sar32 codePoint 18) 240; or32 (and32 (sar32 codePoint 12) 63) 128;
          or32 (and32 (sar32 codePoint 6) 63) 128; or32 (and32 codePoint 63) 128]
  else None.

(** The loop of [utf8ToBytes] over the rest of the string. *)
Fixpoint utf8_loop (s : jsstr) (units : option Z) (lead : option Z) (out : bytes) : BO bytes :=
  match s with
  | [] => Ret out
  | c :: rest =>
      let emit (codePoint : Z) (units : option Z) (out : bytes) : BO bytes :=
        match encode_point codePoint with
        | None => Throw (BError (js "Invalid code point"))
        | Some bs =>
            let units := spend units (strlen bs) in
            if negative units then Ret out else utf8_loop rest units None (out ++ bs)
        end in
      if (55295 <? c) && (c <? 57344) then
        match lead with
        | None =>
            if 56319 <? c then
              let '(units, out) := push_replacement units out in utf8_loop rest units None out
            else match rest with
                 | [] => let '(units, out) := push_replacement units out in utf8_loop rest units None out
                 | _ => utf8_loop rest units (Some c) out
                 end
        | Some l =>
            if c <? 56320 then
              let '(units, out) := push_replacement units out in utf8_loop rest units (Some c) out
            else emit (or32 (shl32 (l - 55296) 10) (c - 56320) + 65536) units out
        end
      else
        let '(units, out) := match lead with
                             | Some _ => push_replacement units out
                             | None => (units, out)
                             end in
        emit c units out
  end.

(** [utf8ToBytes(string, units)]; no units, or zero units, is no limit. *)
Definition utf8ToBytes (string : jsstr) (units : option Z) : BO bytes :=
  let units := match units with Some u => if u =? 0 then None else Some u | None => None end in
  utf8_loop string units None [].

Definition asciiToBytes (str : jsstr) : bytes := (fun c => and32 c 255) <$> str.

Fixpoint utf16_loop (str : jsstr) (units : Z) (out : bytes) : bytes :=
  match str with
  | [] => out
  | c :: rest =>
      let units := units - 2 in
      if units <? 0 then out
      else utf16_loop rest units (out ++ [Z.rem c 256; sar32 c 8])
  end.

Definition utf16leToBytes (str : jsstr) (units : Z) : bytes := utf16_loop str units [].

(** [for (i = 0; i < length; ++i)] with [n] iterations left. *)
Fixpoint blit_loop (n : nat) (src dst : bytes) (offset i : Z) : Z * bytes :=
  match n with
  | O => (i, dst)
  | S n' =>
      if (strlen dst <=? i + offset) || (strlen src <=? i) then (i, dst)
      else blit_loop n' src (set dst (i + offset) (bits src i)) offset (i + 1)
  end.

Definition blitBuffer (src dst : bytes) (offset length : Z) : Z * bytes :=
  blit_loop (Z.to_nat length) src dst offset 0.

(** *** Decoding *)

(** [(b & 192) === 128]. *)
Definition continuation (b : Z) : bool := and32 b 192 =? 128.
Definition low6 (b : Z) : Z := and32 b 63.

(** The length of a sequence by its first byte, and the code point of a
    sequence that is complete and minimal. *)
Definition sequence_length (firstByte : Z) : Z :=
  if 239 <? firstByte then 4 else if 223 <? firstByte then 3 else if 191 <? firstByte then 2 else 1.

Definition decode_sequence (buf : bytes) (i bytesPerSequence : Z) : option Z :=
  let firstByte := bits buf i in
  let secondByte := bits buf (i + 1) in
  let thirdByte := bits buf (i + 2) in
  let fourthByte := bits buf (i + 3) in
  if bytesPerSequence =? 1 then (if firstByte <? 128 then Some firstByte else None)
  else if bytesPerSequence =? 2 then
    if continuation secondByte then
      let temp := or32 (shl32 (and32 firstByte 31) 6) (low6 secondByte) in
      if 127 <? temp then Some temp else None
    else None
  else if bytesPerSequence =? 3 then
    if continuation secondByte && continuation thirdByte then
      let temp := or32 (or32 (shl32 (and32 firstByte 15) 12) (shl32 (low6 secondByte) 6))
                       (low6 thirdByte) in
      if (2047 <? temp) && ((temp <? 55296) || (57343 <? temp)) then Some temp else None
    else None
  else
    if continuation secondByte && continuation thirdByte && continuation fourthByte then
      let temp := or32 (or32 (or32 (shl32 (and32 firstByte 15) 18) (shl32 (low6 secondByte) 12))
                             (shl32 (low6 thirdByte) 6)) (low6 fourthByte) in
      if (65535 <? temp) && (temp <? 1114112) then Some temp else None
    else None.

(** The units a code point is pushed as. *)
Definition point_units (codePoint : Z) : list Z :=
  if 65535 <? codePoint then
    let codePoint := codePoint - 65536 in
    [or32 (and32 (ushr32 codePoint 10) 1023) 55296; or32 56320 (and32 codePoint 1023)]
  else [codePoint].

Fixpoint utf8_slice_loop (n : nat) (buf : bytes) (i end_ : Z) (res : list Z) : list Z :=
  match n with
  | O => res
  | S n' =>
      if i <? end_ then
        let bytesPerSequence := sequence_length (bits buf i) in
        match (if i + bytesPerSequence <=? end_ then decode_sequence buf i bytesPerSequence
               else None) with
        | None => utf8_slice_loop n' buf (i + 1) end_ (res ++ [65533])
        | Some codePoint =>
            utf8_slice_loop n' buf (i + bytesPerSequence) end_ (res ++ point_units codePoint)
        end
      else res
  end.

Definition MAX_ARGUMENTS_LENGTH : Z := 4096.

Fixpoint decode_chunks (n : nat) (codePoints : list Z) (i : Z) (res : jsstr) : jsstr :=
  match n with
  | O => res
  | S n' =>
      if i <? strlen codePoints then
        decode_chunks n' codePoints (i + MAX_ARGUMENTS_LENGTH)
          (res ++ concat (fromCharCode <$> slice codePoints i (i + MAX_ARGUMENTS_LENGTH)))
      else res
  end.

(** One chunk of 4096 units at a time; a chunk per iteration. *)
Definition decodeCodePointsArray (codePoints : list Z) : jsstr :=
  if strlen codePoints <=? MAX_ARGUMENTS_LENGTH then concat (fromCharCode <$> codePoints)
  else decode_chunks (length codePoints) codePoints 0 [].

(** A byte at least per iteration. *)
Definition utf8Slice (buf : bytes) (start end_ : Z) : jsstr :=
  let end_ := Z.min (strlen buf) end_ in
  decodeCodePointsArray (utf8_slice_loop (Z.to_nat (end_ - start)) buf start end_ []).

(** [for (i = start; i < end; ++i) ret += f(buf[i])]. *)
Definition map_slice (f : Z -> jsstr) (buf : bytes) (start end_ : Z) : jsstr :=
  concat (f <$> slice buf start end_).

Definition asciiSlice (buf : bytes) (start end_ : Z) : jsstr :=
  map_slice (fun b => fromCharCode (and32 b 127)) buf start (Z.min (strlen buf) end_).

Definition latin1Slice (buf : bytes) (start end_ : Z) : jsstr :=
  map_slice fromCharCode buf start (Z.min (strlen buf) end_).

Definition hexSlice (buf : bytes) (start end_ : Z) : jsstr :=
  let len := strlen buf in
  let start := if start <? 0 then 0 else start in
  let end_ := if (end_ =? 0) || (end_ <? 0) || (len <? end_) then len else end_ in
  map_slice toHex buf start end_.

(** Pairs of bytes; a single last byte makes [NaN], which is unit zero. *)
Fixpoint utf16_units (bs : bytes) : jsstr :=
  match bs with
  | lo :: hi :: rest => fromCharCode (lo + hi * 256) ++ utf16_units rest
  | [_] => fromCharCode 0
  | [] => []
  end.

(** [buf.slice(start, end)] is only read. *)
Definition utf16leSlice (buf : bytes) (start end_ : Z) : jsstr :=
  let len := strlen buf in
  let s := slice_start len start in
  utf16_units (slice buf s (Z.max s (slice_end len (Some end_)))).

(** ** Encodings by name *)

Inductive encoding : Type := EncHex | EncUtf8 | EncAscii | EncLatin1 | EncBase64 | EncUcs2.

Definition encoding_names : list (jsstr * encoding) :=
  [(js "hex", EncHex); (js "utf8", EncUtf8); (js "utf-8", EncUtf8); (js "ascii", EncAscii);
   (js "latin1", EncLatin1); (js "binary", EncLatin1); (js "base64", EncBase64);
   (js "ucs2", EncUcs2); (js "ucs-2", EncUcs2); (js "utf16le", EncUcs2); (js "utf-16le", EncUcs2)].

Fixpoint name_lookup (table : list (jsstr * encoding)) (name : jsstr) : option encoding :=
  match table with
  | [] => None
  | (n, e) :: rest => if jseqb n name then Some e else name_lookup rest name
  end.

(** The two rounds of the [switch]: as given, then in lower case. *)
Definition find_encoding (name : jsstr) : option encoding :=
  match name_lookup encoding_names name with
  | Some e => Some e
  | None => name_lookup encoding_names (toLowerCase name)
  end.

Definition isEncoding (name : jsstr) : bool :=
  match name_lookup encoding_names (toLowerCase name) with Some _ => true | None => false end.

Definition unknown_encoding {A} (name : jsstr) : BO A :=
  Throw (BTypeError (js "Unknown encoding: " ++ toLowerCase name)).

(** [!encoding]: absent or empty. *)
Definition encoding_or_utf8 (name : option jsstr) : jsstr :=
  match name with Some (c :: s) => c :: s | _ => js "utf8" end.

(** [parseInt(string.substr(i * 2, 2), 16)]. *)
Definition parse_pair (string : jsstr) (i : Z) : option Z :=
  num_to_Z (parseInt (slice string (i * 2) (i * 2 + 2)) 16).

Fixpoint hex_write_loop (n : nat) (buf : bytes) (string : jsstr) (offset i : Z) : Z * bytes :=
  match n with
  | O => (i, buf)
  | S n' =>
      match parse_pair string i with
      | None => (i, buf)
      | Some parsed => hex_write_loop n' (set buf (offset + i) parsed) string offset (i + 1)
      end
  end.

Definition hexWrite (buf : bytes) (string : jsstr) (offset length : Z) : BO (Z * bytes) :=
  let remaining := strlen buf - offset in
  let length := if length =? 0 then remaining else if remaining <? length then remaining else length in
  let strLen := strlen string in
  if negb (Z.rem strLen 2 =? 0) then type_error "Invalid hex string"
  else
    let length := if strLen / 2 <? length then strLen / 2 else length in
    Ret (hex_write_loop (Z.to_nat length) buf string offset 0).

(** The arguments of [write] after the string: none, an encoding, or an offset
    with a length or an encoding in its place. *)
Inductive write_length : Type :=
| LengthAbsent
| LengthNumber (n : Z) (encoding : option jsstr)
| LengthEncoding (encoding : jsstr).

Inductive write_args : Type :=
| WriteAll
| WriteEncoding (encoding : jsstr)
| WriteAt (offset : Z) (length : write_length).

Section packages.
(** [toByteArray] and [fromByteArray] of the package [base64-js]. *)
Context (toByteArray : jsstr -> BO bytes) (fromByteArray : bytes -> jsstr).

Definition base64_valid (c : Z) : bool :=
  existsb (Z.eqb c) [43; 47; 45; 95] || (48 <=? c) && (c <=? 57) || (65 <=? c) && (c <=? 90)
  || (97 <=? c) && (c <=? 122).

(** [while (str.length % 4 !== 0) str += "="]: three iterations at most. *)
Fixpoint pad_loop (n : nat) (str : jsstr) : jsstr :=
  match n with
  | O => str
  | S n' => if strlen str mod 4 =? 0 then str else pad_loop n' (str ++ [61])
  end.

(** What trimming removes is removed by the replacement in any case. *)
Definition base64clean (str : jsstr) : jsstr :=
  let str := List.filter base64_valid str in
  if strlen str <? 2 then [] else pad_loop 3 str.

Definition base64ToBytes (str : jsstr) : BO bytes := toByteArray (base64clean str).

Definition base64Slice (buf : bytes) (start end_ : Z) : jsstr :=
  if (start =? 0) && (end_ =? strlen buf) then fromByteArray buf
  else
    let len := strlen buf in
    let s := slice_start len start in
    fromByteArray (slice buf s (Z.max s (slice_end len (Some end_)))).

Definition byteLength (string : jsstr) (name : option jsstr) : BO Z :=
  let len := strlen string in
  let utf8 := bs ← utf8ToBytes string None; Ret (strlen bs) in
  if len =? 0 then Ret 0
  else match name with
       | None => utf8
       | Some name =>
           match find_encoding name with
           | Some EncAscii | Some EncLatin1 => Ret len
           | Some EncUtf8 | None => utf8
           | Some EncUcs2 => Ret (len * 2)
           | Some EncHex => Ret (ushr32 len 1)
           | Some EncBase64 => bs ← base64ToBytes string; Ret (strlen bs)
           end
       end.

Definition write_encoded (buf : bytes) (string : jsstr) (offset length : Z) (name : jsstr)
    : BO (Z * bytes) :=
  match find_encoding name with
  | None => unknown_encoding name
  | Some EncHex => hexWrite buf string offset length
  | Some EncUtf8 =>
      bs ← utf8ToBytes string (Some (strlen buf - offset)); Ret (blitBuffer bs buf offset length)
  | Some EncAscii | Some EncLatin1 => Ret (blitBuffer (asciiToBytes string) buf offset length)
  | Some EncBase64 => bs ← base64ToBytes string; Ret (blitBuffer bs buf offset length)
  | Some EncUcs2 =>
      Ret (blitBuffer (utf16leToBytes string (strlen buf - offset)) buf offset length)
  end.

Definition write (buf : bytes) (string : jsstr) (args : write_args) : BO (Z * bytes) :=
  let '(offset, length, name) :=
    match args with
    | WriteAll => (0, Some (strlen buf), Some (js "utf8"))
    | WriteEncoding e => (0, Some (strlen buf), Some e)
    | WriteAt offset LengthAbsent => (toInt32 offset, None, None)
    | WriteAt offset (LengthNumber n e) =>
        (toInt32 offset, Some (toInt32 n), Some (default (js "utf8") e))
    | WriteAt offset (LengthEncoding e) => (toInt32 offset, None, Some e)
    end in
  let remaining := strlen buf - offset in
  let length := match length with
                | None => remaining
                | Some n => if remaining <? n then remaining else n
                end in
  if (0 <? strlen string) && ((length <? 0) || (offset <? 0)) || (strlen buf <? offset)
  then range_error "Attempt to write outside buffer bounds"
  else write_encoded buf string offset length (encoding_or_utf8 name).

Definition slowToString (buf : bytes) (name : option jsstr) (start end_ : option Z) : BO jsstr :=
  let len := strlen buf in
  let start := match start with Some s => if s <? 0 then 0 else s | None => 0 end in
  if len <? start then Ret []
  else
    let end_ := match end_ with Some e => if len <? e then len else e | None => len end in
    if end_ <=? 0 then Ret []
    else
      let end_ := end_ mod 2 ^ 32 in
      let start := start mod 2 ^ 32 in
      if end_ <=? start then Ret []
      else
        let name := encoding_or_utf8 name in
        match find_encoding name with
        | None => unknown_encoding name
        | Some EncHex => Ret (hexSlice buf start end_)
        | Some EncUtf8 => Ret (utf8Slice buf start end_)
        | Some EncAscii => Ret (asciiSlice buf start end_)
        | Some EncLatin1 => Ret (latin1Slice buf start end_)
        | Some EncBase64 => Ret (base64Slice buf start end_)
        | Some EncUcs2 => Ret (utf16leSlice buf start end_)
        end.

(** [toString()] with and without arguments. *)
Definition buf_toString (buf : bytes) (args : option (option jsstr * option Z * option Z)) : BO jsstr :=
  let length := toInt32 (strlen buf) in
  if length =? 0 then Ret []
  else match args with
       | None => Ret (utf8Slice buf 0 length)
       | Some (name, start, end_) => slowToString buf name start end_
       end.

(** [Buffer.from(string, encoding)]. *)
Definition fromString (string : jsstr) (name : option jsstr) : B buffer :=
  let name := encoding_or_utf8 name in
  if negb (isEncoding name)
  then liftO (Throw (BTypeError ([34] ++ js "encoding" ++ [34] ++ js " must be a valid string encoding")))
  else
    length ← liftO (byteLength string (Some name));
    let length := toInt32 length in
    that ← createBuffer length;
    actual ← through that (fun buf => write buf string (WriteEncoding name));
    if actual =? length then mret that else buf_slice that 0 (Some actual).
End packages.

(** ** Comparison and search *)

(** [for (i = 0; i < len; ++i) if (a[i] !== b[i])]: the pair to compare. *)
Fixpoint compare_loop (n : nat) (a b : bytes) (i x y : Z) : Z * Z :=
  match n with
  | O => (x, y)
  | S n' =>
      if bits a i =? bits b i then compare_loop n' a b (i + 1) x y
      else (bits a i, bits b i)
  end.

Definition sign_of (p : Z * Z) : Z :=
  let '(x, y) := p in if x <? y then -1 else if y <? x then 1 else 0.

(** [Buffer.compare(a, b)]; the same object compares equal to itself. *)
Definition compare (a b : bytes) : Z :=
  let x := strlen a in
  let y := strlen b in
  sign_of (compare_loop (Z.to_nat (Z.min x y)) a b 0 x y).

Definition equals (a b : bytes) : bool := compare a b =? 0.

(** The method with ranges; [same] is [this === target]. *)
Definition compare_range (this target : bytes) (same : bool) (start end_ thisStart thisEnd : option Z)
    : BO Z :=
  let start := default 0 start in
  let end_ := default (strlen target) end_ in
  let thisStart := default 0 thisStart in
  let thisEnd := default (strlen this) thisEnd in
  if (start <? 0) || (strlen target <? end_) || (thisStart <? 0) || (strlen this <? thisEnd)
  then range_error "out of range index"
  else if (thisEnd <=? thisStart) && (end_ <=? start) then Ret 0
  else if thisEnd <=? thisStart then Ret (-1)
  else if end_ <=? start then Ret 1
  else if same then Ret 0
  else
    let x := thisEnd - thisStart in
    let y := end_ - start in
    Ret (sign_of (compare_loop (Z.to_nat (Z.min x y)) (slice this thisStart thisEnd)
                               (slice target start end_) 0 x y)).

(** [arrayIndexOf] going up: [foundIndex] is where a match may have begun.  A
    step moves [i] on or gives a beginning up, so that the square of the length
    bounds the steps. *)
Fixpoint index_up (n : nat) (arr val : bytes) (i foundIndex : Z) : Z :=
  match n with
  | O => -1
  | S n' =>
      if i <? strlen arr then
        if bool_decide (get arr i = get val (if foundIndex =? -1 then 0 else i - foundIndex)) then
          let foundIndex := if foundIndex =? -1 then i else foundIndex in
          if i - foundIndex + 1 =? strlen val then foundIndex
          else index_up n' arr val (i + 1) foundIndex
        else
          let i := if foundIndex =? -1 then i else i - (i - foundIndex) in
          index_up n' arr val (i + 1) (-1)
      else -1
  end.

Definition index_fuel (arr : bytes) : nat := S (length arr) * S (length arr).

(** Going down: the first [i] from [byteOffset] to zero where all bytes agree. *)
Fixpoint match_at (n : nat) (arr val : bytes) (i j : Z) : bool :=
  match n with
  | O => true
  | S n' =>
      if bool_decide (get arr (i + j) = get val j) then match_at n' arr val i (j + 1) else false
  end.

Fixpoint index_down (n : nat) (arr val : bytes) : Z :=
  match n with
  | O => -1
  | S n' =>
      let i := Z.of_nat n' in
      if match_at (length val) arr val i 0 then i else index_down n' arr val
  end.

(** For an encoding of single bytes. *)
Definition arrayIndexOf (arr val : bytes) (byteOffset : Z) (dir : bool) : Z :=
  if dir then index_up (index_fuel arr) arr val byteOffset (-1)
  else
    let byteOffset := if strlen arr <? byteOffset + strlen val
                      then strlen arr - strlen val else byteOffset in
    index_down (Z.to_nat (byteOffset + 1)) arr val.

(** [bidirectionalIndexOf] of a buffer; no offset is [NaN]. *)
Definition bidirectionalIndexOf (buf val : bytes) (byteOffset : option Z) (dir : bool) : Z :=
  let len := strlen buf in
  if len =? 0 then -1
  else
    let byteOffset :=
      match byteOffset with
      | None => if dir then 0 else len - 1
      | Some o => if 2147483647 <? o then 2147483647 else if o <? -2147483648 then -2147483648 else o
      end in
    let byteOffset := if byteOffset <? 0 then len + byteOffset else byteOffset in
    let search byteOffset :=
      if strlen val =? 0 then -1 else arrayIndexOf buf val byteOffset dir in
    if len <=? byteOffset then (if dir then -1 else search (len - 1))
    else if byteOffset <? 0 then (if dir then search 0 else -1)
    else search byteOffset.

Definition buf_indexOf (buf val : bytes) (byteOffset : option Z) : Z :=
  bidirectionalIndexOf buf val byteOffset true.
Definition buf_lastIndexOf (buf val : bytes) (byteOffset : option Z) : Z :=
  bidirectionalIndexOf buf val byteOffset false.
Definition buf_includes (buf val : bytes) (byteOffset : option Z) : bool :=
  negb (buf_indexOf buf val byteOffset =? -1).

(** ** Swapping, filling and copying *)

Definition swap (b : bytes) (n m : Z) : bytes :=
  let i := bits b n in
  let b := set b n (bits b m) in
  set b m i.

Fixpoint swap_loop (k : nat) (pairs : list (Z * Z)) (width i : Z) (b : bytes) : bytes :=
  match k with
  | O => b
  | S k' =>
      swap_loop k' pairs width (i + width)
        (fold_left (fun b p => swap b (i + fst p) (i + snd p)) pairs b)
  end.

Definition swap_width (width : Z) (pairs : list (Z * Z)) (msg : string) (b : bytes) : BO bytes :=
  let len := strlen b in
  if negb (Z.rem len width =? 0) then range_error msg
  else Ret (swap_loop (Z.to_nat (len / width)) pairs width 0 b).

Definition swap16 : bytes -> BO bytes :=
  swap_width 2 [(0, 1)] "Buffer size must be a multiple of 16-bits".
Definition swap32 : bytes -> BO bytes :=
  swap_width 4 [(0, 3); (1, 2)] "Buffer size must be a multiple of 32-bits".
Definition swap64 : bytes -> BO bytes :=
  swap_width 8 [(0, 7); (1, 6); (2, 5); (3, 4)] "Buffer size must be a multiple of 64-bits".

(** [fill] with a number, or with the bytes of a string or a buffer. *)
Definition fill_bytes (vals : bytes) (n : nat) : list Z :=
  (fun k => bits vals (Z.of_nat k mod strlen vals)) <$> seq 0 n.

(** The start and the number of bytes to fill; [None] when the end is not after
    the start. *)
Definition fill_range (len : Z) (start end_ : option Z) : BO (option (Z * nat)) :=
  let below a b := match a, b with Some a, Some b => a <? b | _, _ => false end in
  if below start (Some 0) || below (Some len) start || below (Some len) end_
  then range_error "Out of range index"
  else if match end_, start with Some e, Some s => e <=? s | _, _ => false end then Ret None
  else
    let start := default 0 start mod 2 ^ 32 in
    let end_ := match end_ with None => len | Some e => e mod 2 ^ 32 end in
    Ret (Some (start, Z.to_nat (end_ - start))).

Definition fill_values (val : Z + bytes) (n : nat) : list Z :=
  match val with
  | inl v => replicate n (and32 v 255)
  | inr bs => fill_bytes bs n
  end.

Definition fill (buf : bytes) (val : Z + bytes) (start end_ : option Z) : BO bytes :=
  r ← fill_range (strlen buf) start end_;
  Ret (match r with
       | None => buf
       | Some (start, n) => set_from buf start (fill_values val n)
       end).

(** One assignment [b[i] = v] in the memory. *)
Definition poke (m : memory) (b : buffer) (i v : Z) : memory :=
  mkMemory (<[buf_store b := patch b (set (contents m b) i v) (store_of m b)]> (stores m)) (made m).

(** [target[i + targetStart] = this[i + start]] for the indices of a list, in
    its order. *)
Definition copy_each (this target : buffer) (targetStart start : Z) (indices : list nat) (m : memory)
    : memory :=
  fold_left (fun m i => poke m target (Z.of_nat i + targetStart)
                          (bits (contents m this) (Z.of_nat i + start))) indices m.

(** [Uint8Array.prototype.set]: the source is read before the target changes. *)
Definition set_all (this target : buffer) (targetStart start : Z) (len : nat) (m : memory) : memory :=
  let src := (fun i => bits (contents m this) (Z.of_nat i + start)) <$> seq 0 len in
  mkMemory (<[buf_store target := patch target (set_from (contents m target) targetStart src)
                                    (store_of m target)]> (stores m)) (made m).

Definition copy (this target : buffer) (targetStart start end_ : option Z) : B Z :=
  let tlen := buf_length target in
  let slen := buf_length this in
  let start := default 0 start in
  let end_ := default slen end_ in
  let targetStart := match targetStart with
                     | Some t => if tlen <=? t then tlen else t
                     | None => 0
                     end in
  let end_ := if (0 <? end_) && (end_ <? start) then start else end_ in
  if end_ =? start then mret 0
  else if (tlen =? 0) || (slen =? 0) then mret 0
  else if targetStart <? 0 then liftO (range_error "targetStart out of bounds")
  else if (start <? 0) || (slen <=? start) then liftO (range_error "sourceStart out of bounds")
  else if end_ <? 0 then liftO (range_error "sourceEnd out of bounds")
  else
    let end_ := if slen <? end_ then slen else end_ in
    let end_ := if tlen - targetStart <? end_ - start then tlen - targetStart + start else end_ in
    let len := end_ - start in
    let n := Z.to_nat len in
    let same := (buf_id this =? buf_id target)%nat in
    _ ← modifyS
          (if same && (start <? targetStart) && (targetStart <? end_)
           then copy_each this target targetStart start (reverse (seq 0 n))
           else if len <? 1000 then copy_each this target targetStart start (seq 0 n)
           else set_all this target targetStart start n);
    mret len.

(** [Buffer.concat(list, length)] on a list of buffers. *)
Fixpoint concat_loop (buffer_ : buffer) (pos : Z) (list_ : list buffer) : B unit :=
  match list_ with
  | [] => mret tt
  | buf :: rest =>
      _ ← copy buf buffer_ (Some pos) None None;
      concat_loop buffer_ (pos + buf_length buf) rest
  end.

Definition buf_alloc (size : Z) (fill_ : option (Z + bytes)) : B buffer :=
  _ ← liftO (assertSize size);
  b ← createBuffer size;
  match fill_ with
  | Some v =>
      if size <=? 0 then mret b
      else _ ← through b (fun buf => bs ← fill buf v None None; Ret (tt, bs)); mret b
  | None => mret b
  end.

(** [SlowBuffer(length)]; what is no number, [None], is the length zero. *)
Definition SlowBuffer (length : option Z) : B buffer := buf_alloc (default 0 length) None.

Definition buf_concat (list_ : list buffer) (length : option Z) : B buffer :=
  match list_ with
  | [] => buf_alloc 0 None
  | _ =>
      let length := default (fold_left (fun n b => n + buf_length b) list_ 0) length in
      buffer_ ← allocUnsafe length;
      _ ← concat_loop buffer_ 0 list_;
      mret buffer_
  end.

(** [Buffer.from] of another buffer: its bytes in a new store. *)
Definition fromBuffer (obj : buffer) : B buffer :=
  len ← liftO (checked (buf_length obj));
  that ← createBuffer len;
  if buf_length that =? 0 then mret that
  else _ ← copy obj that (Some 0) (Some 0) (Some len); mret that.

(** [fromArrayBuffer(array, byteOffset, length)]: a buffer on the store of an
    [ArrayBuffer].  The typed-array constructor makes the last test when no
    offset is given. *)
Definition fromArrayBuffer (array : nat) (byteOffset length : option Z) : B buffer :=
  m ← getS;
  let size := strlen (default [] (stores m !! array)) in
  let offset := default 0 byteOffset in
  if (offset <? 0) || (size <? offset) then liftO (range_error "'offset' is out of bounds")
  else if size <? offset + default 0 length then
    liftO (if byteOffset then range_error "'length' is out of bounds"
           else range_error "Invalid typed array length")
  else
    _ ← modifyS (fun m => mkMemory (stores m) (S (made m)));
    mret (mkBuffer (made m) array offset (default (size - offset) length)).

(** What [Buffer.from] and the constructor are called with. *)
Inductive from_arg : Type :=
| FromNumber (n : Z)
| FromArrayBuffer (array : nat) (byteOffset length : option Z)
| FromString (s : jsstr) (name : option jsstr)
| FromBuffer (b : buffer)
| FromArray (elems : list Z)
| FromOther.

Section construct.
Context (toByteArray : jsstr -> BO bytes).

Definition from (arg : from_arg) : B buffer :=
  match arg with
  | FromNumber _ =>
      liftO (Throw (BTypeError ([34] ++ js "value" ++ [34] ++ js " argument must not be a number")))
  | FromArrayBuffer array byteOffset length => fromArrayBuffer array byteOffset length
  | FromString s name => fromString toByteArray s name
  | FromBuffer b => fromBuffer b
  | FromArray elems => fromArrayLike elems
  | FromOther =>
      liftO (type_error "First argument must be a string, Buffer, ArrayBuffer, Array, or array-like object.")
  end.

(** [new Buffer(arg)]: a number is a size. *)
Definition new_Buffer (arg : from_arg) : B buffer :=
  match arg with
  | FromNumber n => allocUnsafe n
  | _ => from arg
  end.
End construct.

(** [fill] with a string: one unit below 256 fills as a number, and so does the
    empty string; other strings fill with the bytes of their text. *)
Definition fill_string (toByteArray : jsstr -> BO bytes) (fromByteArray : bytes -> jsstr)
    (this : buffer) (val : jsstr) (start end_ : option Z) (name : option jsstr) : B unit :=
  if match name with Some n => negb (isEncoding n) | None => false end
  then liftO (Throw (BTypeError (js "Unknown encoding: " ++ default [] name)))
  else
    r ← liftO (fill_range (buf_length this) start end_);
    match r with
    | None => mret tt
    | Some (start, n) =>
        v ← (if (strlen val =? 0) || (strlen val =? 1) && (charCodeAt val 0 <? 256)
             then mret (inl (if strlen val =? 0 then 0 else charCodeAt val 0))
             else
               b ← fromString toByteArray val name;
               text ← reading b (fun buf => buf_toString fromByteArray buf None);
               bs ← liftO (utf8ToBytes text None);
               mret (inr bs));
        through this (fun buf => Ret (tt, set_from buf start (fill_values v n)))
    end.

Definition INSPECT_MAX_BYTES : Z := 50.

(** [match(/.{2}/g).join(" ")] of a string of even length. *)
Fixpoint in_pairs (s : jsstr) : list jsstr :=
  match s with
  | a :: b :: rest => [a; b] :: in_pairs rest
  | _ => []
  end.

Definition inspect (buf : bytes) : jsstr :=
  let max := INSPECT_MAX_BYTES in
  js "<Buffer "
  ++ (if 0 <? strlen buf then
        join [32] (in_pairs (hexSlice buf 0 (Z.min max (strlen buf))))
        ++ (if max <? strlen buf then js " ... " else [])
      else [])
  ++ js ">".

(** [toJSON]: the type and the bytes. *)
Definition toJSON (buf : bytes) : jsstr * list Z := (js "Buffer", buf).

(** ** Floating point, with the package [ieee754]

    [ieee_read buf offset littleEndian mantissaBits nBytes] is its [read];
    [ieee_write value littleEndian mantissaBits nBytes] is the bytes its [write]
    stores from the offset on. *)

Section ieee754.
Context (ieee_read : bytes -> Z -> bool -> Z -> Z -> num).
Context (ieee_write : num -> bool -> Z -> Z -> list Z).

Definition readFloatLE (buf : bytes) (offset : Z) (noAssert : bool) : BO num :=
  _ ← unless noAssert (checkOffset offset 4 (strlen buf)); Ret (ieee_read buf offset true 23 4).
Definition readFloatBE (buf : bytes) (offset : Z) (noAssert : bool) : BO num :=
  _ ← unless noAssert (checkOffset offset 4 (strlen buf)); Ret (ieee_read buf offset false 23 4).
Definition readDoubleLE (buf : bytes) (offset : Z) (noAssert : bool) : BO num :=
  _ ← unless noAssert (checkOffset offset 8 (strlen buf)); Ret (ieee_read buf offset true 52 8).
Definition readDoubleBE (buf : bytes) (offset : Z) (noAssert : bool) : BO num :=
  _ ← unless noAssert (checkOffset offset 8 (strlen buf)); Ret (ieee_read buf offset false 52 8).

Definition checkIEEE754 (buf : bytes) (offset ext : Z) : BO unit :=
  if strlen buf <? offset + ext then range_error "Index out of range"
  else if offset <? 0 then range_error "Index out of range"
  else Ret tt.

Definition writeFloat (buf : bytes) (value : num) (offset : Z) (littleEndian noAssert : bool)
    : BO (Z * bytes) :=
  _ ← unless noAssert (checkIEEE754 buf offset 4);
  Ret (offset + 4, set_from buf offset (ieee_write value littleEndian 23 4)).

Definition writeFloatLE (buf : bytes) (value : num) (offset : Z) (noAssert : bool) : BO (Z * bytes) :=
  writeFloat buf value offset true noAssert.
Definition writeFloatBE (buf : bytes) (value : num) (offset : Z) (noAssert : bool) : BO (Z * bytes) :=
  writeFloat buf value offset false noAssert.

Definition writeDouble (buf : bytes) (value : num) (offset : Z) (littleEndian noAssert : bool)
    : BO (Z * bytes) :=
  _ ← unless noAssert (checkIEEE754 buf offset 8);
  Ret (offset + 8, set_from buf offset (ieee_write value littleEndian 52 8)).

Definition writeDoubleLE (buf : bytes) (value : num) (offset : Z) (noAssert : bool) : BO (Z * bytes) :=
  writeDouble buf value offset true noAssert.
Definition writeDoubleBE (buf : bytes) (value : num) (offset : Z) (noAssert : bool) : BO (Z * bytes) :=
  writeDouble buf value offset false noAssert.
End ieee754.
