(* ===== verification/NodeBufferInts.v ===== *)
(** * Buffer: integers are read back as they were written

    The writers store the base-256 digits of a value, in two's complement when
    it is negative, and the readers sum them up.  The variable-width routines are
    proved against that description for both byte orders, and the fixed-width
    ones are proved equal to them. *)

From S2P Require Import JsPrelude JsInt32 JsNumber NodeBuffer.

(** ** Bytes of a buffer *)

Lemma length_set buf i v : strlen (set buf i v) = strlen buf.
Proof. unfold set, strlen. destruct (i <? 0); [done|]. by rewrite length_insert. Qed.

Lemma get_set buf i v j :
  get (set buf i v) j
  = if decide (i = j /\ 0 <= i < strlen buf) then Some (v mod 256) else get buf j.
Proof.
  unfold get, set, strlen. destruct (Z.ltb_spec j 0) as [Hj|Hj].
  - by rewrite decide_False by lia.
  - destruct (Z.ltb_spec i 0) as [Hi|Hi]; [by rewrite decide_False by lia|].
    destruct (decide (i = j)) as [->|Hne].
    + destruct (decide (Z.to_nat j < length buf)%nat).
      * rewrite decide_True by lia. by apply list_lookup_insert_eq.
      * rewrite decide_False by lia. by rewrite list_insert_ge by lia.
    + rewrite decide_False by tauto. apply list_lookup_insert_ne. lia.
Qed.

Lemma get_set_eq buf i v : 0 <= i < strlen buf -> get (set buf i v) i = Some (v mod 256).
Proof. intros. by rewrite get_set, decide_True. Qed.

Lemma get_set_ne buf i v j : i <> j -> get (set buf i v) j = get buf j.
Proof. intros. rewrite get_set, decide_False; tauto. Qed.

Lemma get_Some buf i : 0 <= i < strlen buf -> exists b, get buf i = Some b.
Proof.
  unfold get, strlen. intros Hi. destruct (Z.ltb_spec i 0); [lia|]. apply lookup_lt_is_Some. lia.
Qed.

Lemma get_byte buf i b : Forall is_byte buf -> get buf i = Some b -> is_byte b.
Proof.
  unfold get. intros Hall Hb. destruct (i <? 0); [done|]. by eapply Forall_lookup_1.
Qed.

Lemma bytes_ext (a b : bytes) : (forall i, get a i = get b i) -> a = b.
Proof.
  intros H. apply list_eq. intros i. specialize (H (Z.of_nat i)). unfold get in H.
  rewrite Nat2Z.id in H. destruct (Z.ltb_spec (Z.of_nat i) 0); [lia|done].
Qed.

(** ** Digits in base 256 *)

Definition digit256 (v k : Z) : Z := (v / 256 ^ k) mod 256.

Lemma digit256_byte v k : is_byte (digit256 v k).
Proof. unfold is_byte, digit256. apply Z.mod_pos_bound. lia. Qed.

Lemma pow256_pos k : 0 <= k -> 0 < 256 ^ k.
Proof. intros. apply Z.pow_pos_nonneg; lia. Qed.

Lemma mod_digits v k : 0 <= k -> v mod 256 ^ (k + 1) = v mod 256 ^ k + digit256 v k * 256 ^ k.
Proof.
  intros Hk. unfold digit256. pose proof (pow256_pos k Hk).
  rewrite Z.pow_add_r, Z.pow_1_r, Z.rem_mul_r by lia. lia.
Qed.

(** A negative quotient rounded towards zero. *)
Lemma quot_floor v m : 0 < m ->
  v / m = Z.quot v m - (if (v <? 0) && negb (v mod m =? 0) then 1 else 0).
Proof.
  intros Hm. destruct (Z.ltb_spec v 0) as [Hneg|Hpos]; simpl.
  - destruct (Z.eqb_spec (v mod m) 0) as [H0|H0]; simpl.
    + rewrite Z.sub_0_r. apply Z.div_exact in H0; [|lia]. rewrite H0 at 2.
      by rewrite Z.mul_comm, Z.quot_mul by lia.
    + pose proof (Z.div_mod v m ltac:(lia)). pose proof (Z.mod_pos_bound v m Hm).
      pose proof (Z.quot_rem v m ltac:(lia)) as Hq.
      pose proof (Z.rem_bound_pos_neg v m ltac:(lia) ltac:(lia)). nia.
  - rewrite Z.sub_0_r. symmetry. apply Z.quot_div_nonneg; lia.
Qed.

Lemma fl_exact z : Z.abs z <= 2 ^ 53 -> fl z = z.
Proof. intros Hz. unfold fl. destruct (Z.leb_spec (Z.abs z) (2 ^ 53)); [done|lia]. Qed.

Lemma pow256_48 k : 0 <= k <= 6 -> 256 ^ k <= 2 ^ 48.
Proof. intros Hk. change (2 ^ 48) with (256 ^ 6). apply Z.pow_le_mono_r; lia. Qed.

(** The bytes [off .. off + n) hold the digits [f 0 .. f (n - 1)]. *)
Definition holds (buf : bytes) (off n : Z) (f : Z -> Z) : Prop :=
  forall k, 0 <= k < n -> get buf (off + k) = Some (f k).

Definition le_digits (v n k : Z) : Z := digit256 v k.
Definition be_digits (v n k : Z) : Z := digit256 v (n - 1 - k).

Record written (buf buf' : bytes) (off n : Z) (f : Z -> Z) : Prop := {
  w_length : strlen buf' = strlen buf;
  w_inside : holds buf' off n f;
  w_outside : forall j, j < off \/ off + n <= j -> get buf' j = get buf j
}.

(** ** Variable width, unsigned *)

Lemma quotient_byte_digit v k : 0 <= v -> 0 <= k -> quotient_byte v (256 ^ k) mod 256 = digit256 v k.
Proof.
  intros Hv Hk. pose proof (pow256_pos k Hk). unfold quotient_byte, digit256.
  by rewrite and32_255, Zmod_mod, Z.quot_div_nonneg by lia.
Qed.

Lemma write_le_spec n : forall buf v off i mul,
  0 <= v -> 0 <= i -> mul = 256 ^ i -> 0 <= off -> off + i + Z.of_nat n < strlen buf ->
  strlen (write_le buf n v off i mul) = strlen buf
  /\ forall j, get (write_le buf n v off i mul) j
               = if decide (off + i < j <= off + i + Z.of_nat n)
                 then Some (digit256 v (j - off)) else get buf j.
Proof.
  induction n as [|n IH]; intros buf v off i mul Hv Hi Hmul Hoff Hlen; cbn [write_le]; cbv zeta.
  - split; [done|]. intros j. by rewrite decide_False by lia.
  - assert (Hmul' : mul * 256 = 256 ^ (i + 1)) by (rewrite Z.pow_add_r by lia; lia).
    destruct (IH (set buf (off + (i + 1)) (quotient_byte v (mul * 256))) v off (i + 1) (mul * 256))
      as [Hl Hg]; rewrite ?length_set in *; try lia.
    split; [done|]. intros j. rewrite Hg, get_set, Hmul'.
    destruct (decide (j = off + (i + 1))) as [->|Hne].
    + rewrite (decide_False (P := off + (i + 1) < _ <= _)), decide_True, decide_True by lia.
      rewrite quotient_byte_digit by lia. do 2 f_equal. lia.
    + destruct (decide (off + (i + 1) < j <= off + (i + 1) + Z.of_nat n)).
      * by rewrite decide_True by lia.
      * by rewrite decide_False, decide_False by lia.
Qed.

Lemma write_be_spec i : forall buf v off e mul,
  0 <= v -> 0 <= e -> mul = 256 ^ e -> 0 <= off -> off + Z.of_nat i <= strlen buf ->
  strlen (write_be buf i v off mul) = strlen buf
  /\ forall j, get (write_be buf i v off mul) j
               = if decide (off <= j < off + Z.of_nat i)
                 then Some (digit256 v (e + (off + Z.of_nat i - j))) else get buf j.
Proof.
  induction i as [|i IH]; intros buf v off e mul Hv He Hmul Hoff Hlen; cbn [write_be]; cbv zeta.
  - split; [done|]. intros j. by rewrite decide_False by lia.
  - assert (Hmul' : mul * 256 = 256 ^ (e + 1)) by (rewrite Z.pow_add_r by lia; lia).
    destruct (IH (set buf (off + Z.of_nat i) (quotient_byte v (mul * 256))) v off (e + 1) (mul * 256))
      as [Hl Hg]; rewrite ?length_set in *; try lia.
    split; [done|]. intros j. rewrite Hg, get_set, Hmul'.
    destruct (decide (j = off + Z.of_nat i)) as [->|Hne].
    + rewrite (decide_False (P := off <= off + Z.of_nat i < _)), decide_True, decide_True by lia.
      rewrite quotient_byte_digit by lia. do 2 f_equal. lia.
    + destruct (decide (off <= j < off + Z.of_nat i)).
      * rewrite decide_True by lia. do 2 f_equal. lia.
      * by rewrite decide_False, decide_False by lia.
Qed.

(** ** Variable width, signed *)

(** The borrow before the digit of weight [256 ^ k]. *)
Definition borrowed (v k : Z) : Z := if (v <? 0) && negb (v mod 256 ^ k =? 0) then 1 else 0.

Lemma borrow_step buf v k j :
  0 <= k -> get buf j = Some (digit256 v k) -> borrow buf v (borrowed v k) j = borrowed v (k + 1).
Proof.
  intros Hk Hj. unfold borrow, borrowed. rewrite Hj, mod_digits by done.
  pose proof (pow256_pos k Hk). pose proof (Z.mod_pos_bound v (256 ^ k) ltac:(lia)).
  pose proof (digit256_byte v k) as Hd. unfold is_byte in Hd.
  destruct (v <? 0); simpl; [|done].
  destruct (Z.eqb_spec (v mod 256 ^ k) 0) as [->|Hne]; simpl.
  - destruct (Z.eqb_spec (digit256 v k) 0) as [->|Hd0].
    + by rewrite bool_decide_true.
    + rewrite bool_decide_false by (intros [= ?]; done). simpl.
      by rewrite (proj2 (Z.eqb_neq _ 0)) by nia.
  - by rewrite (proj2 (Z.eqb_neq _ 0)) by nia.
Qed.

Lemma signed_byte_digit v k : 0 <= k -> signed_byte v (256 ^ k) (borrowed v k) mod 256 = digit256 v k.
Proof.
  intros Hk. pose proof (pow256_pos k Hk). unfold signed_byte, digit256, borrowed.
  rewrite and32_255, Zmod_mod, Zminus_mod, (toInt32_mod_pow _ 8) by lia.
  change (2 ^ 8) with 256. rewrite <- Zminus_mod, <- quot_floor by lia. done.
Qed.

Lemma write_int_le_spec n : forall buf v off i mul,
  0 <= i -> mul = 256 ^ i -> 0 <= off -> off + i + Z.of_nat n < strlen buf ->
  get buf (off + i) = Some (digit256 v i) ->
  strlen (write_int_le buf n v off i mul (borrowed v i)) = strlen buf
  /\ forall j, get (write_int_le buf n v off i mul (borrowed v i)) j
               = if decide (off + i < j <= off + i + Z.of_nat n)
                 then Some (digit256 v (j - off)) else get buf j.
Proof.
  induction n as [|n IH]; intros buf v off i mul Hi Hmul Hoff Hlen Hget;
    cbn [write_int_le]; cbv zeta.
  - split; [done|]. intros j. by rewrite decide_False by lia.
  - assert (Hmul' : mul * 256 = 256 ^ (i + 1)) by (rewrite Z.pow_add_r by lia; lia).
    rewrite (borrow_step _ v i) by (done || by replace (off + (i + 1) - 1) with (off + i) by lia).
    destruct (IH (set buf (off + (i + 1)) (signed_byte v (mul * 256) (borrowed v (i + 1)))) v off
                (i + 1) (mul * 256)) as [Hl Hg]; rewrite ?length_set in *; try lia.
    { rewrite get_set_eq, Hmul', signed_byte_digit by lia. done. }
    split; [done|]. intros j. rewrite Hg, get_set, Hmul'.
    destruct (decide (j = off + (i + 1))) as [->|Hne].
    + rewrite (decide_False (P := off + (i + 1) < _ <= _)), decide_True, decide_True by lia.
      rewrite signed_byte_digit by lia. do 2 f_equal. lia.
    + destruct (decide (off + (i + 1) < j <= off + (i + 1) + Z.of_nat n)).
      * by rewrite decide_True by lia.
      * by rewrite decide_False, decide_False by lia.
Qed.

Lemma write_int_be_spec i : forall buf v off e mul,
  0 <= e -> mul = 256 ^ e -> 0 <= off -> off + Z.of_nat i < strlen buf ->
  get buf (off + Z.of_nat i) = Some (digit256 v e) ->
  strlen (write_int_be buf i v off mul (borrowed v e)) = strlen buf
  /\ forall j, get (write_int_be buf i v off mul (borrowed v e)) j
               = if decide (off <= j < off + Z.of_nat i)
                 then Some (digit256 v (e + (off + Z.of_nat i - j))) else get buf j.
Proof.
  induction i as [|i IH]; intros buf v off e mul He Hmul Hoff Hlen Hget;
    cbn [write_int_be]; cbv zeta.
  - split; [done|]. intros j. by rewrite decide_False by lia.
  - assert (Hmul' : mul * 256 = 256 ^ (e + 1)) by (rewrite Z.pow_add_r by lia; lia).
    rewrite (borrow_step _ v e)
      by (done || by replace (off + Z.of_nat i + 1) with (off + Z.of_nat (S i)) by lia).
    destruct (IH (set buf (off + Z.of_nat i) (signed_byte v (mul * 256) (borrowed v (e + 1)))) v off
                (e + 1) (mul * 256)) as [Hl Hg]; rewrite ?length_set in *; try lia.
    { rewrite get_set_eq, Hmul', signed_byte_digit by lia. done. }
    split; [done|]. intros j. rewrite Hg, get_set, Hmul'.
    destruct (decide (j = off + Z.of_nat i)) as [->|Hne].
    + rewrite (decide_False (P := off <= off + Z.of_nat i < _)), decide_True, decide_True by lia.
      rewrite signed_byte_digit by lia. do 2 f_equal. lia.
    + destruct (decide (off <= j < off + Z.of_nat i)).
      * rewrite decide_True by lia. do 2 f_equal. lia.
      * by rewrite decide_False, decide_False by lia.
Qed.

(** ** Reading the digits back *)

Lemma add_scaled_digit v k :
  0 <= k -> k + 1 <= 6 ->
  add_scaled (Some (v mod 256 ^ k)) (Some (digit256 v k)) (256 ^ k) = Some (v mod 256 ^ (k + 1)).
Proof.
  intros Hk H6. pose proof (pow256_pos k Hk). pose proof (pow256_48 (k + 1) ltac:(lia)).
  pose proof (Z.mod_pos_bound v (256 ^ k) ltac:(lia)).
  pose proof (Z.mod_pos_bound v (256 ^ (k + 1)) (pow256_pos (k + 1) ltac:(lia))).
  pose proof (mod_digits v k Hk) as Hm. pose proof (digit256_byte v k) as Hd. unfold is_byte in Hd.
  assert (0 <= digit256 v k * 256 ^ k) by nia.
  unfold add_scaled. simpl. rewrite (fl_exact (digit256 v k * 256 ^ k)) by lia.
  rewrite <- Hm, fl_exact by lia. done.
Qed.

Lemma read_le_spec n : forall buf v off i mul val,
  0 <= i -> mul = 256 ^ i -> i + 1 + Z.of_nat n <= 6 -> val = Some (v mod 256 ^ (i + 1)) ->
  (forall k, i < k <= i + Z.of_nat n -> get buf (off + k) = Some (digit256 v k)) ->
  read_le buf n off i mul val
  = (Some (v mod 256 ^ (i + 1 + Z.of_nat n)), 256 ^ (i + Z.of_nat n)).
Proof.
  induction n as [|n IH]; intros buf v off i mul val Hi -> H6 -> Hget; cbn [read_le]; cbv zeta.
  - by rewrite !Z.add_0_r.
  - replace (256 ^ i * 256) with (256 ^ (i + 1)) by (rewrite Z.pow_add_r by lia; lia).
    rewrite Hget, add_scaled_digit by lia.
    rewrite (IH buf v) by (done || lia || (intros; apply Hget; lia)).
    f_equal; [do 3 f_equal; lia|f_equal; lia].
Qed.

Lemma read_be_spec i : forall buf v off e mul val,
  0 <= e -> mul = 256 ^ e -> e + 1 + Z.of_nat i <= 6 -> val = Some (v mod 256 ^ (e + 1)) ->
  (forall k, 0 <= k < Z.of_nat i -> get buf (off + k) = Some (digit256 v (e + (Z.of_nat i - k)))) ->
  read_be buf i off mul val
  = (Some (v mod 256 ^ (e + 1 + Z.of_nat i)), 256 ^ (e + Z.of_nat i)).
Proof.
  induction i as [|i IH]; intros buf v off e mul val He -> H6 -> Hget; cbn [read_be]; cbv zeta.
  - by rewrite !Z.add_0_r.
  - replace (256 ^ e * 256) with (256 ^ (e + 1)) by (rewrite Z.pow_add_r by lia; lia).
    rewrite Hget by lia. replace (e + (Z.of_nat (S i) - Z.of_nat i)) with (e + 1) by lia.
    rewrite add_scaled_digit by lia.
    rewrite (IH buf v off (e + 1)).
    + f_equal; [do 3 f_equal; lia|f_equal; lia].
    + lia.
    + done.
    + lia.
    + done.
    + intros k Hk. rewrite Hget by lia. do 2 f_equal. lia.
Qed.

(** The two byte orders, as one family of operations. *)
Definition digits_in (le : bool) (v n k : Z) : Z := if le then digit256 v k else digit256 v (n - 1 - k).

Definition in_reach (buf : bytes) (off n : Z) : Prop :=
  0 <= off /\ 1 <= n <= 6 /\ off + n <= strlen buf /\ strlen buf < 2 ^ 31.

Lemma unless_offset buf off n noAssert :
  in_reach buf off n -> unless noAssert (checkOffset off n (strlen buf)) = Ret tt.
Proof.
  intros (H1 & H2 & H3 & _). unfold unless, checkOffset. destruct noAssert; [done|].
  destruct (Z.ltb_spec off 0); [lia|]. destruct (Z.ltb_spec (strlen buf) (off + n)); [lia|done].
Qed.

Lemma read_digits_le buf off n v :
  in_reach buf off n -> holds buf off n (digits_in true v n) ->
  read_le buf (Z.to_nat (n - 1)) off 0 1 (get buf off) = (Some (v mod 256 ^ n), 256 ^ (n - 1)).
Proof.
  intros (H1 & H2 & H3 & H4) Hh.
  assert (H0 := Hh 0 ltac:(lia)). rewrite Z.add_0_r in H0.
  rewrite (read_le_spec _ buf v off 0 1); [|lia|done|lia| |].
  - f_equal; [do 3 f_equal; lia|f_equal; lia].
  - rewrite H0. unfold digits_in, digit256. by rewrite Z.pow_0_r, Z.div_1_r.
  - intros k Hk. apply (Hh k). lia.
Qed.

Lemma read_digits_be buf off n v :
  in_reach buf off n -> holds buf off n (digits_in false v n) ->
  read_be buf (Z.to_nat (n - 1)) off 1 (get buf (off + (n - 1))) = (Some (v mod 256 ^ n), 256 ^ (n - 1)).
Proof.
  intros (H1 & H2 & H3 & H4) Hh.
  assert (H0 := Hh (n - 1) ltac:(lia)).
  rewrite (read_be_spec _ buf v off 0 1); [|lia|done|lia| |].
  - f_equal; [do 3 f_equal; lia|f_equal; lia].
  - rewrite H0. unfold digits_in, digit256. replace (n - 1 - (n - 1)) with 0 by lia.
    by rewrite Z.pow_0_r, Z.div_1_r.
  - intros k Hk. rewrite (Hh k) by lia. unfold digits_in. do 2 f_equal. lia.
Qed.

Lemma to_signed_spec v n :
  1 <= n <= 6 -> - 2 ^ (8 * n - 1) <= v < 2 ^ (8 * n - 1) ->
  to_signed n (Some (v mod 256 ^ n), 256 ^ (n - 1)) = Some v.
Proof.
  intros Hn Hv. unfold to_signed. simpl. pose proof (pow256_48 n ltac:(lia)).
  assert (H256 : 256 ^ n = 2 ^ (8 * n)) by (rewrite Z.pow_mul_r by lia; done).
  assert (Hhalf : 256 ^ (n - 1) * 128 = 2 ^ (8 * n - 1)).
  { change 256 with (2 ^ 8). change 128 with (2 ^ 7). rewrite <- Z.pow_mul_r, <- Z.pow_add_r by lia.
    f_equal. lia. }
  assert (Htwice : 2 ^ (8 * n) = 2 * 2 ^ (8 * n - 1)).
  { rewrite <- (Z.pow_succ_r 2 (8 * n - 1)) by lia. f_equal. lia. }
  rewrite Hhalf. destruct (Z.ltb_spec v 0) as [Hneg|Hpos].
  - replace (v mod 256 ^ n) with (v + 256 ^ n).
    + destruct (Z.leb_spec (2 ^ (8 * n - 1)) (v + 256 ^ n)); [|lia].
      rewrite fl_exact by lia. f_equal. lia.
    + rewrite <- (Z_mod_plus_full v 1), Z.mul_1_l, Z.mod_small; lia.
  - rewrite Z.mod_small by lia. destruct (Z.leb_spec (2 ^ (8 * n - 1)) v); [lia|done].
Qed.

(** ** The writers store the digits *)

Definition writeUInt (le : bool) := if le then writeUIntLE else writeUIntBE.
Definition readUInt (le : bool) := if le then readUIntLE else readUIntBE.
Definition writeInt (le : bool) := if le then writeIntLE else writeIntBE.
Definition readInt (le : bool) := if le then readIntLE else readIntBE.

Lemma unless_int buf v off n max min noAssert :
  in_reach buf off n -> min <= v <= max -> unless noAssert (checkInt buf v off n max min) = Ret tt.
Proof.
  intros (H1 & H2 & H3 & _) Hv. unfold unless, checkInt. destruct noAssert; [done|].
  destruct (Z.ltb_spec max v), (Z.ltb_spec v min); try lia. simpl.
  destruct (Z.ltb_spec (strlen buf) (off + n)); [lia|done].
Qed.

Lemma in_reach_int32 buf off n : in_reach buf off n -> toInt32 off = off /\ toInt32 n = n.
Proof. intros (H1 & H2 & H3 & H4). split; apply toInt32_small; lia. Qed.

Lemma pow2_256 n : 0 <= n -> 2 ^ (8 * n) = 256 ^ n.
Proof. intros. by rewrite Z.pow_mul_r by lia. Qed.

Lemma fl_pow_minus_1 k : 0 <= k <= 48 -> fl (2 ^ k - 1) = 2 ^ k - 1.
Proof.
  intros Hk. assert (1 <= 2 ^ k) by (apply (Z.pow_le_mono_r 2 0); lia).
  assert (2 ^ k <= 2 ^ 48) by (apply Z.pow_le_mono_r; lia). apply fl_exact. lia.
Qed.

(** What the loops leave in the buffer, as [written]. *)
Lemma written_le buf buf1 buf' off n v :
  in_reach buf off n -> buf1 = set buf off (v mod 256) ->
  strlen buf' = strlen buf1 ->
  (forall j, get buf' j = if decide (off + 0 < j <= off + 0 + Z.of_nat (Z.to_nat (n - 1)))
                          then Some (digit256 v (j - off)) else get buf1 j) ->
  written buf buf' off n (digits_in true v n).
Proof.
  intros (H1 & H2 & H3 & _) -> Hl Hg. rewrite length_set in Hl. split; [done| |].
  - intros k Hk. rewrite Hg. destruct (decide (k = 0)) as [->|Hk0].
    + rewrite decide_False by lia. rewrite Z.add_0_r, get_set_eq by lia.
      unfold digits_in, digit256. by rewrite Z.pow_0_r, Z.div_1_r, Zmod_mod.
    + rewrite decide_True by lia. unfold digits_in. do 2 f_equal. lia.
  - intros j Hj. rewrite Hg, decide_False by lia. apply get_set_ne. lia.
Qed.

Lemma written_be buf buf1 buf' off n v :
  in_reach buf off n -> buf1 = set buf (off + (n - 1)) (v mod 256) ->
  strlen buf' = strlen buf1 ->
  (forall j, get buf' j = if decide (off <= j < off + Z.of_nat (Z.to_nat (n - 1)))
                          then Some (digit256 v (0 + (off + Z.of_nat (Z.to_nat (n - 1)) - j)))
                          else get buf1 j) ->
  written buf buf' off n (digits_in false v n).
Proof.
  intros (H1 & H2 & H3 & _) -> Hl Hg. rewrite length_set in Hl. split; [done| |].
  - intros k Hk. rewrite Hg. destruct (decide (k = n - 1)) as [->|Hk0].
    + rewrite decide_False by lia. rewrite get_set_eq by lia.
      unfold digits_in, digit256. replace (n - 1 - (n - 1)) with 0 by lia.
      by rewrite Z.pow_0_r, Z.div_1_r, Zmod_mod.
    + rewrite decide_True by lia. unfold digits_in. do 2 f_equal. lia.
  - intros j Hj. rewrite Hg, decide_False by lia. apply get_set_ne. lia.
Qed.

Lemma writeUInt_written le buf v off n noAssert :
  in_reach buf off n -> 0 <= v < 256 ^ n ->
  exists buf', writeUInt le buf v off n noAssert = Ret (off + n, buf')
               /\ written buf buf' off n (digits_in le v n).
Proof.
  intros Hr Hv. assert (Hr' := Hr). destruct Hr' as (H1 & H2 & H3 & H4).
  destruct (in_reach_int32 buf off n Hr) as [Ho Hn].
  unfold writeUInt. destruct le; unfold writeUIntLE, writeUIntBE; rewrite Ho, Hn;
    rewrite unless_int by (done || rewrite fl_pow_minus_1, pow2_256; lia); rewrite and32_255;
    eexists; (split; [reflexivity|]).
  - destruct (write_le_spec (Z.to_nat (n - 1)) (set buf off (v mod 256)) v off 0 1) as [Hl Hg];
      rewrite ?length_set in *; try lia. eapply written_le; eauto. by rewrite length_set.
  - destruct (write_be_spec (Z.to_nat (n - 1)) (set buf (off + (n - 1)) (v mod 256)) v off 0 1)
      as [Hl Hg]; rewrite ?length_set in *; try lia. eapply written_be; eauto. by rewrite length_set.
Qed.

Lemma writeInt_written le buf v off n noAssert :
  in_reach buf off n -> - 2 ^ (8 * n - 1) <= v < 2 ^ (8 * n - 1) ->
  exists buf', writeInt le buf v off n noAssert = Ret (off + n, buf')
               /\ written buf buf' off n (digits_in le v n).
Proof.
  intros Hr Hv. assert (Hr' := Hr). destruct Hr' as (H1 & H2 & H3 & H4).
  destruct (in_reach_int32 buf off n Hr) as [Ho Hn].
  assert (Hb0 : borrowed v 0 = 0).
  { unfold borrowed. rewrite Z.pow_0_r, Z.mod_1_r. simpl. by rewrite andb_false_r. }
  assert (Hd0 : Some ((v mod 256) mod 256) = Some (digit256 v 0)).
  { unfold digit256. by rewrite Z.pow_0_r, Z.div_1_r, Zmod_mod. }
  unfold writeInt. destruct le; unfold writeIntLE, writeIntBE; rewrite Ho;
    rewrite unless_int by (done || rewrite fl_pow_minus_1; lia); rewrite and32_255;
    eexists; (split; [reflexivity|]).
  - destruct (write_int_le_spec (Z.to_nat (n - 1)) (set buf off (v mod 256)) v off 0 1) as [Hl Hg];
      rewrite ?length_set, ?Hb0 in *; try lia; [by rewrite Z.add_0_r, get_set_eq by lia|].
    eapply written_le; eauto. by rewrite length_set.
  - destruct (write_int_be_spec (Z.to_nat (n - 1)) (set buf (off + (n - 1)) (v mod 256)) v off 0 1)
      as [Hl Hg]; rewrite ?length_set, ?Hb0 in *; try lia.
    { replace (off + Z.of_nat (Z.to_nat (n - 1))) with (off + (n - 1)) by lia.
      by rewrite get_set_eq by lia. }
    eapply written_be; eauto. by rewrite length_set.
Qed.

(** ** The readers sum them up *)

Lemma in_reach_length buf buf' off n :
  strlen buf' = strlen buf -> in_reach buf off n -> in_reach buf' off n.
Proof. unfold in_reach. intros ->. done. Qed.

Lemma readUInt_holds le buf v off n noAssert :
  in_reach buf off n -> holds buf off n (digits_in le v n) ->
  readUInt le buf off n noAssert = Ret (Some (v mod 256 ^ n)).
Proof.
  intros Hr Hh. destruct (in_reach_int32 buf off n Hr) as [Ho Hn].
  unfold readUInt. destruct le; unfold readUIntLE, readUIntBE; rewrite Ho, Hn, unless_offset by done.
  - by rewrite (read_digits_le buf off n v).
  - by rewrite (read_digits_be buf off n v).
Qed.

Lemma readInt_holds le buf v off n noAssert :
  in_reach buf off n -> holds buf off n (digits_in le v n) ->
  - 2 ^ (8 * n - 1) <= v < 2 ^ (8 * n - 1) -> readInt le buf off n noAssert = Ret (Some v).
Proof.
  intros Hr Hh Hv. destruct (in_reach_int32 buf off n Hr) as [Ho Hn].
  assert (Hn6 : 1 <= n <= 6) by apply Hr.
  unfold readInt. destruct le; unfold readIntLE, readIntBE; rewrite Ho, Hn, unless_offset by done.
  - by rewrite (read_digits_le buf off n v), to_signed_spec.
  - by rewrite (read_digits_be buf off n v), to_signed_spec.
Qed.

(** An unsigned integer of one to six bytes, written in either byte order
    inside a buffer, is read back; the buffer keeps its length and the other
    bytes do not change. *)
Lemma uint_roundtrip le buf v off n noAssert :
  in_reach buf off n -> 0 <= v < 256 ^ n ->
  exists buf', writeUInt le buf v off n noAssert = Ret (off + n, buf')
    /\ readUInt le buf' off n noAssert = Ret (Some v)
    /\ strlen buf' = strlen buf
    /\ (forall j, j < off \/ off + n <= j -> get buf' j = get buf j).
Proof.
  intros Hr Hv. destruct (writeUInt_written le buf v off n noAssert Hr Hv) as (buf' & Hw & [Hl Hi Hout]).
  exists buf'. split; [done|]. split; [|done].
  rewrite (readUInt_holds le buf' v) by eauto using in_reach_length. by rewrite Z.mod_small.
Qed.


(** The same for signed integers in two's complement: the writers, which
    divide towards zero and correct negative quotients by a borrow, agree with
    the readers, which subtract a power of two. *)
Lemma int_roundtrip le buf v off n noAssert :
  in_reach buf off n -> - 2 ^ (8 * n - 1) <= v < 2 ^ (8 * n - 1) ->
  exists buf', writeInt le buf v off n noAssert = Ret (off + n, buf')
    /\ readInt le buf' off n noAssert = Ret (Some v)
    /\ strlen buf' = strlen buf
    /\ (forall j, j < off \/ off + n <= j -> get buf' j = get buf j).
Proof.
  intros Hr Hv. destruct (writeInt_written le buf v off n noAssert Hr Hv) as (buf' & Hw & [Hl Hi Hout]).
  exists buf'. split; [done|]. split; [|done].
  by rewrite (readInt_holds le buf' v) by eauto using in_reach_length.
Qed.
