(* ===== verification/NodeBufferFixed.v ===== *)
(** * Buffer: the fixed-width integer routines

    The routines for 8, 16 and 32 bits are written with shifts and masks on
    32-bit integers; they are proved equal to the routines of variable width, in
    both byte orders, and the writers for engines without typed arrays are proved
    equal to them. *)

From S2P Require Import JsPrelude JsInt32 JsNumber NodeBuffer NodeBufferInts.

(** The integer formats. *)
Inductive format : Type := U8 | U16 | U32 | I8 | I16 | I32.

Definition width (f : format) : Z :=
  match f with U8 | I8 => 1 | U16 | I16 => 2 | U32 | I32 => 4 end.

Definition signed (f : format) : bool := match f with I8 | I16 | I32 => true | _ => false end.

Definition fits (f : format) (v : Z) : Prop :=
  if signed f then - 2 ^ (8 * width f - 1) <= v < 2 ^ (8 * width f - 1)
  else 0 <= v < 256 ^ width f.

(** The routine of each format. *)
Definition write_fixed (f : format) (le : bool) : bytes -> Z -> Z -> bool -> BO (Z * bytes) :=
  match f, le with
  | U8, _ => writeUInt8
  | U16, true => writeUInt16LE
  | U16, false => writeUInt16BE
  | U32, true => writeUInt32LE
  | U32, false => writeUInt32BE
  | I8, _ => writeInt8
  | I16, true => writeInt16LE
  | I16, false => writeInt16BE
  | I32, true => writeInt32LE
  | I32, false => writeInt32BE
  end.

Definition read_fixed (f : format) (le : bool) : bytes -> Z -> bool -> BO (option Z) :=
  match f, le with
  | U8, _ => readUInt8
  | U16, true => readUInt16LE
  | U16, false => readUInt16BE
  | U32, true => readUInt32LE
  | U32, false => readUInt32BE
  | I8, _ => readInt8
  | I16, true => readInt16LE
  | I16, false => readInt16BE
  | I32, true => readInt32LE
  | I32, false => readInt32BE
  end.

Definition write_any (f : format) := if signed f then writeInt else writeUInt.
Definition read_any (f : format) := if signed f then readInt else readUInt.

(** ** Writers *)

Lemma written_unique buf a b off n f : written buf a off n f -> written buf b off n f -> a = b.
Proof.
  intros [La Ia Oa] [Lb Ib Ob]. apply bytes_ext. intros j.
  destruct (decide (off <= j < off + n)).
  - replace j with (off + (j - off)) by lia. by rewrite Ia, Ib by lia.
  - by rewrite Oa, Ob by lia.
Qed.

Lemma write_any_written f le buf v off noAssert :
  in_reach buf off (width f) -> fits f v ->
  exists buf', write_any f le buf v off (width f) noAssert = Ret (off + width f, buf')
               /\ written buf buf' off (width f) (digits_in le v (width f)).
Proof.
  intros Hr Hv. unfold write_any, fits in *. destruct (signed f).
  - by apply writeInt_written.
  - by apply writeUInt_written.
Qed.

Lemma digit_low v : and32 v 255 mod 256 = digit256 v 0.
Proof. rewrite and32_255, Zmod_mod. unfold digit256. by rewrite Z.pow_0_r, Z.div_1_r. Qed.

Lemma digit_ushr v k : 0 <= k <= 3 -> ushr32 v (8 * k) mod 256 = digit256 v k.
Proof.
  intros Hk. unfold ushr32, digit256. rewrite (Z.mod_small (8 * k)), Z.shiftr_div_pow2 by lia.
  rewrite <- pow2_256 by lia. apply (field_mod v (8 * k) 8); lia.
Qed.

(** Digits of a negative value shifted by a multiple of the modulus. *)
Lemma digit256_shift v n k : 0 <= k < n -> digit256 (v + 256 ^ n) k = digit256 v k.
Proof.
  intros Hk. unfold digit256. pose proof (pow256_pos k ltac:(lia)).
  replace (256 ^ n) with (256 ^ (n - k - 1) * 256 * 256 ^ k).
  - rewrite Z.div_add by lia. by rewrite Z_mod_plus_full.
  - rewrite <- (Z.pow_1_r 256) at 2. rewrite <- !Z.pow_add_r by lia. f_equal. lia.
Qed.

(** The assignments of each routine. *)
Lemma written_1 buf off v : in_reach buf off 1 ->
  forall le, written buf (set buf off (and32 v 255)) off 1 (digits_in le v 1).
Proof.
  intros (H1 & _ & H3 & _) le. split; [by rewrite length_set| |].
  - intros k Hk. replace k with 0 by lia. rewrite Z.add_0_r, get_set_eq, digit_low by lia.
    by destruct le.
  - intros j Hj. apply get_set_ne. lia.
Qed.

(** A goal about the byte [k] of a buffer after assignments to known places. *)
Ltac which_byte k bound :=
  match bound with
  | 2 => assert (k = 0 \/ k = 1) as [->| ->] by lia
  | 4 => assert (k = 0 \/ k = 1 \/ k = 2 \/ k = 3) as [->|[->|[->| ->]]] by lia
  end; rewrite ?Z.add_0_r;
  repeat (rewrite get_set_ne by lia); rewrite get_set_eq by (rewrite ?length_set; lia);
  unfold digits_in; f_equal.

Ltac by_bytes n :=
  match goal with H : in_reach _ _ _ |- _ => destruct H as (? & _ & ? & _) end;
  split; [by rewrite ?length_set
         |let k := fresh "k" in let Hk := fresh in intros k Hk; which_byte k n;
          first [apply digit_low
                |exact (digit_ushr _ 1 ltac:(lia))|exact (digit_ushr _ 2 ltac:(lia))
                |exact (digit_ushr _ 3 ltac:(lia))]
         |let j := fresh "j" in let Hj := fresh in
          intros j Hj; repeat (rewrite get_set_ne by lia); done].

Lemma written_16le buf off v : in_reach buf off 2 ->
  written buf (write16LE buf v off) off 2 (digits_in true v 2).
Proof. intros Hr. unfold write16LE. by_bytes 2. Qed.

Lemma written_16be buf off v : in_reach buf off 2 ->
  written buf (write16BE buf v off) off 2 (digits_in false v 2).
Proof. intros Hr. unfold write16BE. by_bytes 2. Qed.

Lemma written_32be buf off v : in_reach buf off 4 ->
  written buf (write32BE buf v off) off 4 (digits_in false v 4).
Proof. intros Hr. unfold write32BE. by_bytes 4. Qed.

Lemma written_32le buf off v : in_reach buf off 4 ->
  written buf
    (set (set (set (set buf (off + 3) (ushr32 v 24)) (off + 2) (ushr32 v 16)) (off + 1) (ushr32 v 8))
         off (and32 v 255)) off 4 (digits_in true v 4).
Proof. intros Hr. by_bytes 4. Qed.

Lemma written_32le_up buf off v : in_reach buf off 4 ->
  written buf
    (set (set (set (set buf off (and32 v 255)) (off + 1) (ushr32 v 8)) (off + 2) (ushr32 v 16))
         (off + 3) (ushr32 v 24)) off 4 (digits_in true v 4).
Proof. intros Hr. by_bytes 4. Qed.

(** A value and its two's complement have the same digits. *)
Lemma written_shift le buf buf' off n v :
  written buf buf' off n (digits_in le (v + 256 ^ n) n) -> written buf buf' off n (digits_in le v n).
Proof.
  intros [Hl Hi Ho]. split; [done| |done]. intros k Hk. rewrite Hi by done. f_equal.
  unfold digits_in. destruct le; apply digit256_shift; lia.
Qed.

Lemma written_complement (write : bytes -> Z -> Z -> bytes) le buf off n v full :
  full = 256 ^ n ->
  (forall v, written buf (write buf v off) off n (digits_in le v n)) ->
  written buf (write buf (if v <? 0 then full - 1 + v + 1 else v) off) off n (digits_in le v n).
Proof.
  intros -> H. destruct (v <? 0); [|done]. apply written_shift.
  replace (256 ^ n - 1 + v + 1) with (v + 256 ^ n) by lia. apply H.
Qed.

Lemma write_fixed_written f le buf v off noAssert :
  in_reach buf off (width f) -> fits f v ->
  exists buf', write_fixed f le buf v off noAssert = Ret (off + width f, buf')
               /\ written buf buf' off (width f) (digits_in le v (width f)).
Proof.
  intros Hr Hv. destruct (in_reach_int32 buf off _ Hr) as [Ho _].
  assert (Hchk : forall max min, min <= v <= max ->
    unless noAssert (checkInt buf v off (width f) max min) = Ret tt) by (intros; by apply unless_int).
  unfold fits in Hv.
  destruct f; simpl in *; destruct le;
    unfold writeUInt8, writeUInt16LE, writeUInt16BE, writeUInt32LE, writeUInt32BE,
      writeInt8, writeInt16LE, writeInt16BE, writeInt32LE, writeInt32BE;
    rewrite Ho, Hchk by lia; eexists; (split; [reflexivity|]).
  all: try (by apply written_1); try (by apply written_16le); try (by apply written_16be);
    try (by apply written_32le); try (by apply written_32be); try (by apply written_32le_up).
  - apply (written_complement (fun b v o => set b o (and32 v 255)) true buf off 1 v 256 eq_refl).
    intros. by apply written_1.
  - apply (written_complement (fun b v o => set b o (and32 v 255)) false buf off 1 v 256 eq_refl).
    intros. by apply written_1.
  - apply (written_complement write32BE false buf off 4 v 4294967296 eq_refl).
    intros. by apply written_32be.
Qed.

(** Each writer of fixed width stores what the writer of variable width
    stores for its number of bytes, and returns the same offset. *)
Lemma fixed_writers_agree f le buf v off noAssert :
  in_reach buf off (width f) -> fits f v ->
  write_fixed f le buf v off noAssert = write_any f le buf v off (width f) noAssert.
Proof.
  intros Hr Hv. destruct (write_fixed_written f le buf v off noAssert Hr Hv) as (a & -> & Ha).
  destruct (write_any_written f le buf v off noAssert Hr Hv) as (b & -> & Hb).
  by rewrite (written_unique _ _ _ _ _ _ Ha Hb).
Qed.


(** ** The writers without typed arrays *)

Lemma digit_masked v k : 0 <= k <= 1 ->
  ushr32 (and32 v (shl32 255 (8 * k))) (k * 8) mod 256 = digit256 v k.
Proof.
  intros Hk. unfold digit256. rewrite <- pow2_256 by lia. change 256 with (2 ^ 8).
  rewrite <- (shift_mask v (8 * k) 8) by lia. rewrite <- !Z.land_ones by lia.
  unfold ushr32, and32. rewrite (Z.mod_small (k * 8)) by lia.
  replace (toInt32 (shl32 255 (8 * k))) with (Z.shiftl (Z.ones 8) (8 * k))
    by (assert (k = 0 \/ k = 1) as [-> | ->] by lia; reflexivity).
  assert (Hpos : 0 <= Z.land (toInt32 v) (Z.shiftl (Z.ones 8) (8 * k)) < 2 ^ 32).
  { assert (Hs : Z.land (toInt32 v) (Z.shiftl (Z.ones 8) (8 * k))
      = Z.shiftl (Z.land (Z.shiftr (toInt32 v) (8 * k)) (Z.ones 8)) (8 * k)).
    { apply Z.bits_inj'. intros n Hn. rewrite Z.land_spec, !Z.shiftl_spec, Z.land_spec by done.
      destruct (decide (n < 8 * k)).
      - rewrite !(Z.testbit_neg_r _ (n - 8 * k)) by lia. by rewrite !andb_false_r.
      - rewrite Z.shiftr_spec by lia. by replace (n - 8 * k + 8 * k) with n by lia. }
    rewrite Hs, Z.land_ones, Z.shiftl_mul_pow2 by lia.
    pose proof (Z.mod_pos_bound (Z.shiftr (toInt32 v) (8 * k)) (2 ^ 8) ltac:(lia)).
    assert (k = 0 \/ k = 1) as [-> | ->] by lia; simpl in *; lia. }
  rewrite (Z.mod_small _ _ Hpos). replace (k * 8) with (8 * k) by lia.
  rewrite Z.shiftr_land, Z.shiftr_shiftl_l by lia. rewrite Z.sub_diag, Z.shiftl_0_r.
  rewrite <- Z.land_assoc, Z.land_diag. done.
Qed.

Lemma digit_object32 v k : 0 <= k <= 3 -> and32 (ushr32 v (k * 8)) 255 mod 256 = digit256 v k.
Proof. intros Hk. rewrite and32_255, Zmod_mod, Z.mul_comm. by apply digit_ushr. Qed.

Definition object_write (f : format) : bytes -> Z -> Z -> bool -> bytes :=
  match f with U16 | I16 => objectWriteUInt16 | _ => objectWriteUInt32 end.

Definition wide (f : format) : bool := match f with U8 | I8 => false | _ => true end.

Lemma object16_written le buf off v : in_reach buf off 2 ->
  written buf (object_write16 buf 2 v off 0 le) off 2 (digits_in le v 2).
Proof.
  intros (H1 & _ & H3 & _). cbn [object_write16]. split; [by rewrite !length_set| |].
  - intros k Hk. destruct le; which_byte k 2; rewrite digit_masked by lia; done.
  - intros j Hj. by rewrite !get_set_ne by lia.
Qed.

Lemma object32_written le buf off v : in_reach buf off 4 ->
  written buf (object_write32 buf 4 v off 0 le) off 4 (digits_in le v 4).
Proof.
  intros (H1 & _ & H3 & _). cbn [object_write32]. split; [by rewrite !length_set| |].
  - intros k Hk. destruct le; which_byte k 4; rewrite digit_object32 by lia; done.
  - intros j Hj. by rewrite !get_set_ne by lia.
Qed.

Lemma object_write_written f le buf off v :
  wide f = true -> in_reach buf off (width f) ->
  written buf (object_write f buf v off le) off (width f) (digits_in le v (width f)).
Proof.
  intros Hw Hr. assert (Hr' := Hr). destruct Hr' as (H1 & _ & H3 & _).
  destruct f; try done; simpl in *; unfold objectWriteUInt16, objectWriteUInt32;
    [rewrite Z.min_r by lia|rewrite Z.min_r by lia|rewrite Z.min_r by lia|rewrite Z.min_r by lia].
  - apply (written_complement (fun b v o => object_write16 b 2 v o 0 le) le buf off 2 v 65536 eq_refl).
    intros. by apply object16_written.
  - apply (written_complement (fun b v o => object_write32 b 4 v o 0 le) le buf off 4 v 4294967296 eq_refl).
    intros. by apply object32_written.
  - apply (written_complement (fun b v o => object_write16 b 2 v o 0 le) le buf off 2 v 65536 eq_refl).
    intros. by apply object16_written.
  - apply (written_complement (fun b v o => object_write32 b 4 v o 0 le) le buf off 4 v 4294967296 eq_refl).
    intros. by apply object32_written.
Qed.

(** For 16 and 32 bits, the routine for engines without typed arrays stores
    the same bytes as the branch that uses them. *)
Lemma object_writers_agree f le buf v off noAssert :
  wide f = true -> in_reach buf off (width f) -> fits f v ->
  write_fixed f le buf v off noAssert = Ret (off + width f, object_write f buf v off le).
Proof.
  intros Hw Hr Hv. destruct (write_fixed_written f le buf v off noAssert Hr Hv) as (a & -> & Ha).
  do 2 f_equal. eapply written_unique; [exact Ha|]. by apply object_write_written.
Qed.


(** ** Readers *)

Ltac bytes_lia := unfold is_byte in *; lia.

(** The top byte of a signed 32-bit integer. *)
Definition signed_top (b : Z) : Z := if b <? 128 then b else b - 256.

Lemma shl_top b : is_byte b -> shl32 b 24 = signed_top b * 16777216.
Proof.
  intros Hb. unfold shl32, signed_top. change (24 mod 32) with 24.
  rewrite (toInt32_small b), Z.shiftl_mul_pow2 by bytes_lia. change (2 ^ 24) with 16777216.
  destruct (Z.ltb_spec b 128); [rewrite toInt32_small by bytes_lia; done|].
  unfold toInt32. change (2 ^ 31) with 2147483648. change (2 ^ 32) with 4294967296.
  unfold is_byte in Hb. div_mod.
Qed.

Lemma shl_8 b : is_byte b -> shl32 b 8 = b * 256.
Proof. intros Hb. apply (shl32_small b 8); bytes_lia. Qed.
Lemma shl_16 b : is_byte b -> shl32 b 16 = b * 65536.
Proof. intros Hb. apply (shl32_small b 16); bytes_lia. Qed.

Lemma join16 lo hi : is_byte lo -> is_byte hi ->
  or32 (shl32 hi 8) lo = hi * 256 + lo /\ or32 lo (shl32 hi 8) = hi * 256 + lo.
Proof. intros Hl Hh. rewrite shl_8 by done. apply (join_field _ _ 8 hi); bytes_lia. Qed.

Lemma join24 b0 b1 b2 : is_byte b0 -> is_byte b1 -> is_byte b2 ->
  or32 (or32 (shl32 b2 16) (shl32 b1 8)) b0 = b2 * 65536 + b1 * 256 + b0
  /\ or32 (or32 b0 (shl32 b1 8)) (shl32 b2 16) = b2 * 65536 + b1 * 256 + b0.
Proof.
  intros H0 H1 H2. destruct (join16 b0 b1 H0 H1) as [_ ->]. rewrite shl_8, shl_16 by done. split.
  - destruct (join_field (b2 * 65536) (b1 * 256) 16 b2) as [-> _]; try bytes_lia.
    apply (join_field _ _ 8 (b2 * 256 + b1)); bytes_lia.
  - rewrite <- Z.add_assoc. apply (join_field (b2 * 65536) _ 16 b2); bytes_lia.
Qed.

Lemma join32 b0 b1 b2 b3 : is_byte b0 -> is_byte b1 -> is_byte b2 -> is_byte b3 ->
  or32 (or32 (or32 (shl32 b3 24) (shl32 b2 16)) (shl32 b1 8)) b0
    = signed_top b3 * 16777216 + b2 * 65536 + b1 * 256 + b0
  /\ or32 (or32 (or32 b0 (shl32 b1 8)) (shl32 b2 16)) (shl32 b3 24)
    = signed_top b3 * 16777216 + b2 * 65536 + b1 * 256 + b0.
Proof.
  intros H0 H1 H2 H3. destruct (join24 b0 b1 b2 H0 H1 H2) as [_ ->].
  rewrite shl_8, shl_16, shl_top by done.
  assert (- 128 <= signed_top b3 < 128).
  { unfold signed_top. destruct (Z.ltb_spec b3 128); bytes_lia. }
  split.
  - destruct (join_field (signed_top b3 * 16777216) (b2 * 65536) 24 (signed_top b3)) as [-> _];
      try bytes_lia.
    destruct (join_field (signed_top b3 * 16777216 + b2 * 65536) (b1 * 256) 16
                (signed_top b3 * 256 + b2)) as [-> _]; try bytes_lia.
    apply (join_field _ _ 8 (signed_top b3 * 65536 + b2 * 256 + b1)); bytes_lia.
  - rewrite <- !Z.add_assoc. apply (join_field (signed_top b3 * 16777216) _ 24 (signed_top b3)); bytes_lia.
Qed.

(** Digits of a number given by its bytes, whatever its sign. *)
Lemma digits_of_bytes v b0 b1 b2 b3 q :
  is_byte b0 -> is_byte b1 -> is_byte b2 -> is_byte b3 ->
  v = q * 4294967296 + b3 * 16777216 + b2 * 65536 + b1 * 256 + b0 ->
  digit256 v 0 = b0 /\ digit256 v 1 = b1 /\ digit256 v 2 = b2 /\ digit256 v 3 = b3.
Proof.
  unfold is_byte, digit256. intros H0 H1 H2 H3 ->.
  change (256 ^ 0) with 1. change (256 ^ 1) with 256. change (256 ^ 2) with 65536.
  change (256 ^ 3) with 16777216. repeat split; div_mod.
Qed.

(** The bytes in reach, in the order of their weight. *)
Definition nth_byte (le : bool) (buf : bytes) (off n k : Z) : Z :=
  bits buf (off + if le then k else n - 1 - k).

Lemma nth_byte_spec (le : bool) buf off n k :
  Forall is_byte buf -> in_reach buf off n -> 0 <= k < n ->
  get buf (off + if le then k else n - 1 - k) = Some (nth_byte le buf off n k)
  /\ is_byte (nth_byte le buf off n k).
Proof.
  intros Hall (H1 & H2 & H3 & _) Hk. unfold nth_byte, bits.
  destruct (get_Some buf (off + if le then k else n - 1 - k)) as [b Hb]; [destruct le; lia|].
  rewrite Hb. split; [done|]. by eapply get_byte.
Qed.

Lemma holds_digits le buf off n v :
  Forall is_byte buf -> in_reach buf off n ->
  (forall k, 0 <= k < n -> digit256 v k = nth_byte le buf off n k) ->
  holds buf off n (digits_in le v n).
Proof.
  intros Hall Hr Hd k Hk. assert (Hn : 1 <= n) by apply Hr. unfold digits_in. destruct le.
  - rewrite Hd by done. by apply (nth_byte_spec true).
  - rewrite Hd by lia. destruct (nth_byte_spec false buf off n (n - 1 - k) Hall Hr ltac:(lia)) as [Hg _].
    simpl in Hg. rewrite <- Hg. f_equal. lia.
Qed.

Lemma sign16_spec v : 0 <= v < 65536 -> sign16 v = if v <? 32768 then v else v - 65536.
Proof.
  intros Hv. unfold sign16. change 32768 with (2 ^ 15) at 1.
  rewrite (top_bit v 15) by (change (2 ^ (15 + 1)) with 65536; lia). change (2 ^ 15) with 32768.
  destruct (Z.ltb_spec v 32768); [done|]. unfold or32. rewrite (toInt32_small v) by lia.
  change (toInt32 4294901760) with (-65536). rewrite Z.lor_comm, (lor_disjoint (-65536) v 16); [lia|lia|done|lia].
Qed.

(** A reader's answer and what the variable-width reader needs to give it too. *)
Definition reads_as (f : format) (le : bool) (buf : bytes) (off : Z) (r : BO (option Z)) : Prop :=
  exists v, r = Ret (Some v) /\ holds buf off (width f) (digits_in le v (width f)) /\ fits f v.

Lemma read_8 f le buf off noAssert :
  width f = 1 -> Forall is_byte buf -> in_reach buf off (width f) ->
  reads_as f le buf off (read_fixed f le buf off noAssert).
Proof.
  intros Hw Hall Hr. destruct (nth_byte_spec le buf off _ 0 Hall Hr ltac:(lia)) as [Hg Hb].
  set (b := nth_byte le buf off (width f) 0) in *.
  replace (off + (if le then 0 else width f - 1 - 0)) with off in Hg by (destruct le; lia).
  assert (Hd : forall v q, v = q * 256 + b -> holds buf off (width f) (digits_in le v (width f))).
  { intros v q ->. apply holds_digits; [done|done|]. intros k Hk. replace k with 0 by lia. fold b.
    unfold digit256. change (256 ^ 0) with 1. unfold is_byte in Hb. div_mod. }
  destruct f; try done; simpl in Hw; unfold reads_as; cbn [read_fixed].
  - unfold readUInt8. rewrite unless_offset by done. rewrite Hg. exists b. split; [by destruct le|].
    split; [by apply (Hd b 0)|]. unfold fits. simpl. bytes_lia.
  - assert (Hread : readInt8 buf off noAssert = Ret (Some (if b <? 128 then b else b - 256))).
    { unfold readInt8. rewrite unless_offset by done. unfold bits. rewrite Hg. simpl.
      change 128 with (2 ^ 7). rewrite (top_bit b 7) by bytes_lia.
      destruct (b <? 2 ^ 7); [done|]. do 2 f_equal. lia. }
    exists (if b <? 128 then b else b - 256). split; [by destruct le|].
    split; [destruct (b <? 128); [apply (Hd _ 0)|apply (Hd _ (-1))]; lia|].
    unfold fits. simpl. destruct (Z.ltb_spec b 128); bytes_lia.
Qed.

Lemma read_16 f le buf off noAssert :
  width f = 2 -> Forall is_byte buf -> in_reach buf off (width f) ->
  reads_as f le buf off (read_fixed f le buf off noAssert).
Proof.
  intros Hw Hall Hr. destruct (nth_byte_spec le buf off _ 0 Hall Hr ltac:(lia)) as [Hg0 Hb0].
  destruct (nth_byte_spec le buf off _ 1 Hall Hr ltac:(lia)) as [Hg1 Hb1].
  set (b0 := nth_byte le buf off (width f) 0) in *. set (b1 := nth_byte le buf off (width f) 1) in *.
  destruct (join16 b0 b1 Hb0 Hb1) as [Hj Hj'].
  assert (Hd : forall v q b2 b3, is_byte b2 -> is_byte b3 ->
    v = q * 4294967296 + b3 * 16777216 + b2 * 65536 + b1 * 256 + b0 ->
    holds buf off (width f) (digits_in le v (width f))).
  { intros v q b2 b3 Hb2 Hb3 Hv. destruct (digits_of_bytes v b0 b1 b2 b3 q) as (D0 & D1 & _); try done.
    apply holds_digits; [done|done|]. intros k Hk. assert (k = 0 \/ k = 1) as [->| ->] by lia; done. }
  assert (Hv : fits U16 (b1 * 256 + b0)) by (unfold fits; simpl; bytes_lia).
  destruct f; try done; simpl in Hw, Hg0, Hg1, Hr; unfold reads_as; destruct le; cbn [read_fixed];
    unfold readUInt16LE, readUInt16BE, readInt16LE, readInt16BE; rewrite unless_offset by done;
    change (2 - 1 - 0) with 1 in *; change (2 - 1 - 1) with 0 in *;
    rewrite ?Z.add_0_r in *; unfold bits; rewrite Hg0, Hg1; simpl; rewrite ?Hj, ?Hj';
    rewrite ?sign16_spec by (unfold fits in Hv; simpl in Hv; lia); eexists; (split; [reflexivity|]).
  1,2: split; [eapply (Hd _ 0 0 0); bytes_lia|exact Hv].
  all: unfold fits in *; simpl in *; destruct (Z.ltb_spec (b1 * 256 + b0) 32768);
    (split; [first [eapply (Hd _ 0 0 0); bytes_lia|eapply (Hd _ (-1) 255 255); bytes_lia]|lia]).
Qed.

(** The unsigned 32-bit readers add the top byte in floating point. *)
Lemma add_top b0 b1 b2 b3 : is_byte b0 -> is_byte b1 -> is_byte b2 -> is_byte b3 ->
  add_scaled (Some (b2 * 65536 + b1 * 256 + b0)) (Some b3) 16777216
  = Some (b3 * 16777216 + b2 * 65536 + b1 * 256 + b0).
Proof.
  intros H0 H1 H2 H3. unfold add_scaled. simpl. rewrite (fl_exact (b3 * 16777216)) by bytes_lia.
  rewrite fl_exact by bytes_lia. f_equal. lia.
Qed.

Lemma read_32 f le buf off noAssert :
  width f = 4 -> Forall is_byte buf -> in_reach buf off (width f) ->
  reads_as f le buf off (read_fixed f le buf off noAssert).
Proof.
  intros Hw Hall Hr. destruct (nth_byte_spec le buf off _ 0 Hall Hr ltac:(lia)) as [Hg0 Hb0].
  destruct (nth_byte_spec le buf off _ 1 Hall Hr ltac:(lia)) as [Hg1 Hb1].
  destruct (nth_byte_spec le buf off _ 2 Hall Hr ltac:(lia)) as [Hg2 Hb2].
  destruct (nth_byte_spec le buf off _ 3 Hall Hr ltac:(lia)) as [Hg3 Hb3].
  set (b0 := nth_byte le buf off (width f) 0) in *. set (b1 := nth_byte le buf off (width f) 1) in *.
  set (b2 := nth_byte le buf off (width f) 2) in *. set (b3 := nth_byte le buf off (width f) 3) in *.
  destruct (join24 b0 b1 b2 Hb0 Hb1 Hb2) as [Hj Hj'].
  destruct (join32 b0 b1 b2 b3 Hb0 Hb1 Hb2 Hb3) as [Hs Hs'].
  assert (Hd : forall v q, v = q * 4294967296 + b3 * 16777216 + b2 * 65536 + b1 * 256 + b0 ->
    holds buf off (width f) (digits_in le v (width f))).
  { intros v q Hv. destruct (digits_of_bytes v b0 b1 b2 b3 q) as (D0 & D1 & D2 & D3); try done.
    apply holds_digits; [done|done|]. intros k Hk.
    assert (k = 0 \/ k = 1 \/ k = 2 \/ k = 3) as [->|[->|[->| ->]]] by lia; done. }
  destruct f; try done; simpl in Hw, Hg0, Hg1, Hg2, Hg3, Hr; unfold reads_as; destruct le; cbn [read_fixed];
    unfold readUInt32LE, readUInt32BE, readInt32LE, readInt32BE; rewrite unless_offset by done;
    change (4 - 1 - 0) with 3 in *; change (4 - 1 - 1) with 2 in *; change (4 - 1 - 2) with 1 in *;
    change (4 - 1 - 3) with 0 in *;
    rewrite ?Z.add_0_r in *; unfold bits; rewrite Hg0, Hg1, Hg2, Hg3; cbn [from_option id];
    rewrite ?Hs, ?Hs', ?Hj, ?Hj', ?add_top by done; eexists; (split; [reflexivity|]).
  1,2: split; [apply (Hd _ 0); lia|unfold fits; simpl; bytes_lia].
  all: unfold fits, signed_top; simpl; destruct (Z.ltb_spec b3 128);
    (split; [first [apply (Hd _ 0); lia|apply (Hd _ (-1)); lia]|bytes_lia]).
Qed.

Lemma read_any_value f le buf off noAssert v :
  in_reach buf off (width f) -> holds buf off (width f) (digits_in le v (width f)) -> fits f v ->
  read_any f le buf off (width f) noAssert = Ret (Some v).
Proof.
  unfold read_any, fits. intros Hr Hh Hv. destruct (signed f).
  - by apply readInt_holds.
  - rewrite (readUInt_holds le buf v) by done. by rewrite Z.mod_small.
Qed.

(** Each reader of fixed width reads what the reader of variable width
    reads with its number of bytes. *)
Lemma fixed_readers_agree f le buf off noAssert :
  Forall is_byte buf -> in_reach buf off (width f) ->
  read_fixed f le buf off noAssert = read_any f le buf off (width f) noAssert.
Proof.
  intros Hall Hr. assert (Hv : reads_as f le buf off (read_fixed f le buf off noAssert)).
  { destruct f; [apply read_8|apply read_16|apply read_32|apply read_8|apply read_16|apply read_32]; done. }
  destruct Hv as (v & -> & Hh & Hf). by rewrite (read_any_value f le buf off noAssert v).
Qed.

(** C39: an integer of one to six bytes, written in either byte order inside a
    buffer, is read back; the buffer keeps its length and the other bytes do not
    change.  This holds for unsigned integers and for signed ones in two's complement,
    whose writers divide towards zero and correct negative quotients by a borrow.  The
    readers and writers of fixed width, written with shifts and masks, agree with
    those of variable width, and so does the routine for engines without typed
    arrays. *)
Theorem integers_roundtrip le buf off noAssert :
  (forall n, in_reach buf off n ->
   (forall v, 0 <= v < 256 ^ n ->
    exists buf', writeUInt le buf v off n noAssert = Ret (off + n, buf')
     /\ readUInt le buf' off n noAssert = Ret (Some v)
     /\ strlen buf' = strlen buf
     /\ (forall j, j < off \/ off + n <= j -> get buf' j = get buf j))
   /\ (forall v, - 2 ^ (8 * n - 1) <= v < 2 ^ (8 * n - 1) ->
    exists buf', writeInt le buf v off n noAssert = Ret (off + n, buf')
     /\ readInt le buf' off n noAssert = Ret (Some v)
     /\ strlen buf' = strlen buf
     /\ (forall j, j < off \/ off + n <= j -> get buf' j = get buf j)))
  /\ (forall f, in_reach buf off (width f) ->
   (Forall is_byte buf -> read_fixed f le buf off noAssert = read_any f le buf off (width f) noAssert)
   /\ (forall v, fits f v ->
      write_fixed f le buf v off noAssert = write_any f le buf v off (width f) noAssert
      /\ (wide f = true ->
          write_fixed f le buf v off noAssert = Ret (off + width f, object_write f buf v off le)))).
Proof.
  split; [intros n H; split; intros v Hv; [by apply uint_roundtrip|by apply int_roundtrip]|]. intros f H.
  split; [by intros Hb; apply fixed_readers_agree|]. intros v Hv.
  split; [by apply fixed_writers_agree|by intros Hw; apply object_writers_agree].
Qed.

Lemma integers_roundtrip_witness :
  (exists buf', writeInt false [1; 2; 3; 4] (-512) 0 3 false = Ret (0 + 3, buf')
    /\ readInt false buf' 0 3 false = Ret (Some (-512))
    /\ strlen buf' = strlen [1; 2; 3; 4]
    /\ (forall j, j < 0 \/ 0 + 3 <= j -> get buf' j = get [1; 2; 3; 4] j))
  /\ write_fixed I32 true [255; 254; 128; 200] (-2) 0 false
     = Ret (0 + 4, object_write I32 [255; 254; 128; 200] (-2) 0 true).
Proof.
  assert (H : in_reach [1; 2; 3; 4] 0 3) by (unfold in_reach, strlen; simpl; lia).
  assert (H' : in_reach [255; 254; 128; 200] 0 (width I32)) by (unfold in_reach, strlen; simpl; lia).
  split.
  - apply (proj2 (proj1 (integers_roundtrip false [1; 2; 3; 4] 0 false) 3 H)). simpl. lia.
  - apply (proj2 (proj2 (integers_roundtrip true [255; 254; 128; 200] 0 false) I32 H') (-2));
      [unfold fits; simpl; lia|reflexivity].
Defined.
