(* ===== verification/NodeBufferMemory.v ===== *)
(** * Buffer: views, slices and copies

    A buffer is a window on a store of bytes.  What a method writes through one
    buffer is seen through every buffer on the same store, at the same place of
    the store and nowhere else.  On top of that: slices and [copy]. *)

From S2P Require Import JsPrelude JsInt32 JsNumber NodeBuffer NodeBufferInts.

(** ** Well-formed buffers *)

Record window (store : bytes) (b : buffer) : Prop := {
  win_offset : 0 <= buf_offset b;
  win_length : 0 <= buf_length b;
  win_end : buf_offset b + buf_length b <= strlen store
}.

Definition wf_buffer (m : memory) (b : buffer) : Prop :=
  exists store, stores m !! buf_store b = Some store /\ window store b.

(** [get] in terms of its list. *)
Lemma get_lookup (buf : bytes) i : 0 <= i -> get buf i = buf !! Z.to_nat i.
Proof. intros. unfold get. by destruct (Z.ltb_spec i 0); [lia|]. Qed.

Lemma get_out (buf : bytes) i : i < 0 \/ strlen buf <= i -> get buf i = None.
Proof.
  intros Hi. unfold get, strlen in *. destruct (Z.ltb_spec i 0); [done|].
  apply lookup_ge_None_2. lia.
Qed.

Lemma get_app (a b : bytes) i :
  get (a ++ b) i = if decide (i < strlen a) then get a i else get b (i - strlen a).
Proof.
  unfold get, strlen. destruct (Z.ltb_spec i 0).
  - rewrite decide_True by lia. done.
  - case_decide; [by rewrite lookup_app_l by lia|].
    destruct (Z.ltb_spec (i - Z.of_nat (length a)) 0); [lia|].
    rewrite lookup_app_r by lia. f_equal. lia.
Qed.

Lemma get_slice (a : bytes) lo hi i : 0 <= lo ->
  get (slice a lo hi) i = if decide (0 <= i < hi - lo) then get a (lo + i) else None.
Proof.
  intros Hlo. unfold slice. case_decide as Hi.
  - rewrite !get_lookup, lookup_take_lt, lookup_drop by lia. f_equal. lia.
  - unfold get. destruct (Z.ltb_spec i 0); [done|]. apply lookup_ge_None_2. rewrite length_take. lia.
Qed.

Lemma length_slice (a : bytes) lo hi : 0 <= lo <= hi -> hi <= strlen a -> strlen (slice a lo hi) = hi - lo.
Proof. unfold slice, strlen. intros. rewrite length_take, length_drop. lia. Qed.

Lemma get_slice_from (a : bytes) lo i : 0 <= lo -> 0 <= i -> get (slice_from a lo) i = get a (lo + i).
Proof.
  intros. unfold slice_from. rewrite !get_lookup, lookup_drop by lia. f_equal. lia.
Qed.

Lemma length_view store b : window store b -> strlen (view b store) = buf_length b.
Proof.
  intros [H1 H2 H3]. unfold view, strlen in *. rewrite length_take, length_drop. lia.
Qed.

Lemma get_view store b i : window store b ->
  get (view b store) i
  = if decide (0 <= i < buf_length b) then get store (buf_offset b + i) else None.
Proof.
  intros Hw. destruct (decide (0 <= i < buf_length b)) as [Hi|Hi].
  - destruct Hw as [H1 H2 H3]. rewrite !get_lookup by lia. unfold view.
    rewrite lookup_take_lt, lookup_drop by lia. f_equal. lia.
  - apply get_out. rewrite (length_view store b Hw). lia.
Qed.

Lemma length_patch store b bs : window store b -> strlen bs = buf_length b ->
  strlen (patch b bs store) = strlen store.
Proof.
  intros [H1 H2 H3] Hbs. unfold patch. rewrite !strlen_app, Hbs. unfold strlen in *.
  rewrite length_take, length_drop. lia.
Qed.

Lemma get_patch store b bs j : window store b -> strlen bs = buf_length b ->
  get (patch b bs store) j
  = if decide (buf_offset b <= j < buf_offset b + buf_length b)
    then get bs (j - buf_offset b) else get store j.
Proof.
  intros [H1 H2 H3] Hbs. destruct (decide (j < 0)) as [Hneg|Hpos].
  { rewrite decide_False by lia. by rewrite !get_out by lia. }
  assert (Hlt : length (take (Z.to_nat (buf_offset b)) store) = Z.to_nat (buf_offset b)).
  { unfold strlen in H3. rewrite length_take. lia. }
  unfold strlen in *. rewrite (get_lookup (patch _ _ _)), (get_lookup store) by lia. unfold patch.
  destruct (decide (j < buf_offset b)).
  - rewrite decide_False by lia. rewrite lookup_app_l by lia. apply lookup_take_lt. lia.
  - rewrite lookup_app_r by lia. rewrite Hlt.
    destruct (decide (j < buf_offset b + buf_length b)).
    + rewrite decide_True by lia. rewrite get_lookup by lia. rewrite lookup_app_l by lia. f_equal. lia.
    + rewrite decide_False by lia. rewrite lookup_app_r, lookup_drop by lia. f_equal. lia.
Qed.

Lemma store_of_eq m b store : stores m !! buf_store b = Some store -> store_of m b = store.
Proof. intros H. unfold store_of. by rewrite H. Qed.

Lemma contents_length m b : wf_buffer m b -> strlen (contents m b) = buf_length b.
Proof.
  intros (store & Hs & Hw). unfold contents. rewrite (store_of_eq m b store Hs). by apply length_view.
Qed.

(** ** Writing through a buffer *)

(** The memory after the bytes of a buffer are replaced. *)
Definition overwrite (m : memory) (b : buffer) (bs : bytes) : memory :=
  mkMemory (<[buf_store b := patch b bs (store_of m b)]> (stores m)) (made m).

Lemma overwrite_wf m b bs c :
  wf_buffer m b -> strlen bs = buf_length b -> wf_buffer m c -> wf_buffer (overwrite m b bs) c.
Proof.
  intros (sb & Hsb & Hwb) Hbs (sc & Hsc & Hwc). unfold wf_buffer, overwrite. simpl.
  rewrite (store_of_eq m b sb Hsb). pose proof (length_patch sb b bs Hwb Hbs) as Hlen.
  destruct (decide (buf_store c = buf_store b)) as [Heq|Hne].
  - rewrite Heq in *. rewrite Hsb in Hsc. simplify_eq.
    exists (patch b bs sc). split.
    + apply list_lookup_insert_eq. by eapply lookup_lt_Some.
    + destruct Hwc as [H1 H2 H3]. split; lia.
  - exists sc. split; [by rewrite list_lookup_insert_ne by congruence|done].
Qed.

(** A buffer on the same store sees the new bytes where the two windows meet. *)
Lemma overwrite_get m b bs c i :
  wf_buffer m b -> strlen bs = buf_length b -> wf_buffer m c ->
  get (contents (overwrite m b bs) c) i
  = if decide (buf_store c = buf_store b /\ 0 <= i < buf_length c
               /\ buf_offset b <= buf_offset c + i < buf_offset b + buf_length b)
    then get bs (buf_offset c + i - buf_offset b) else get (contents m c) i.
Proof.
  intros Hb Hbs Hc. assert (Hc' := overwrite_wf m b bs c Hb Hbs Hc).
  destruct Hb as (sb & Hsb & Hwb). destruct Hc as (sc & Hsc & Hwc).
  unfold contents at 2. rewrite (store_of_eq m c sc Hsc), get_view by done.
  destruct Hc' as (sc' & Hsc' & Hwc'). unfold contents.
  rewrite (store_of_eq _ c sc' Hsc'), get_view by done.
  unfold overwrite in Hsc'. simpl in Hsc'. rewrite (store_of_eq m b sb Hsb) in Hsc'.
  destruct (decide (buf_store c = buf_store b)) as [Heq|Hne].
  - rewrite Heq in *. rewrite Hsb in Hsc. simplify_eq.
    rewrite list_lookup_insert_eq in Hsc' by (by eapply lookup_lt_Some). simplify_eq.
    destruct (decide (0 <= i < buf_length c)) as [Hi|Hi].
    + rewrite get_patch by done.
      destruct (decide (buf_offset b <= buf_offset c + i < buf_offset b + buf_length b)).
      * by rewrite decide_True by tauto.
      * by rewrite (decide_False (P := buf_store b = buf_store b /\ _)) by tauto.
    + by rewrite decide_False by tauto.
  - rewrite list_lookup_insert_ne in Hsc' by congruence. rewrite Hsc in Hsc'. simplify_eq.
    by rewrite (decide_False (P := buf_store c = buf_store b /\ _)) by tauto.
Qed.

Lemma overwrite_self m b bs :
  wf_buffer m b -> strlen bs = buf_length b -> contents (overwrite m b bs) b = bs.
Proof.
  intros Hb Hbs. apply bytes_ext. intros i. rewrite overwrite_get by done. case_decide as Hd.
  - f_equal. lia.
  - rewrite !get_out; [done|rewrite Hbs|rewrite contents_length by done]; lia.
Qed.

Lemma through_spec {A} m b (f : bytes -> BO (A * bytes)) a bs :
  f (contents m b) = Ret (a, bs) -> through b f m = Ret (a, overwrite m b bs).
Proof. intros Hf. unfold through, mbind, SE_bind. simpl. unfold liftO. by rewrite Hf. Qed.

(** ** Slices *)

Lemma slice_start_range len start : 0 <= len -> 0 <= slice_start len start <= len.
Proof.
  intros Hl. unfold slice_start. destruct (Z.ltb_spec (toInt32 start) 0).
  - destruct (Z.ltb_spec (toInt32 start + len) 0); lia.
  - destruct (Z.ltb_spec len (toInt32 start)); lia.
Qed.

Lemma slice_end_range len e : 0 <= len -> 0 <= slice_end len e <= len.
Proof.
  intros Hl. unfold slice_end. set (x := match e with None => len | Some e => toInt32 e end).
  destruct (Z.ltb_spec x 0).
  - destruct (Z.ltb_spec (x + len) 0); lia.
  - destruct (Z.ltb_spec len x); lia.
Qed.

(** The buffer and the memory [slice] returns, with the range it computes. *)
Definition slice_lo (b : buffer) (start : Z) : Z := slice_start (buf_length b) start.
Definition slice_hi (b : buffer) (start : Z) (e : option Z) : Z :=
  Z.max (slice_lo b start) (slice_end (buf_length b) e).

Definition sliced (m : memory) (b : buffer) (start : Z) (e : option Z) : buffer :=
  mkBuffer (made m) (buf_store b) (buf_offset b + slice_lo b start) (slice_hi b start e - slice_lo b start).

Lemma buf_slice_spec m b start e :
  buf_slice b start e m = Ret (sliced m b start e, mkMemory (stores m) (S (made m))).
Proof.
  unfold buf_slice, sliced, slice_hi, slice_lo, mbind, SE_bind. simpl.
  replace (if slice_end (buf_length b) e <? slice_start (buf_length b) start
           then slice_start (buf_length b) start else slice_end (buf_length b) e)
    with (Z.max (slice_start (buf_length b) start) (slice_end (buf_length b) e)); [done|].
  destruct (Z.ltb_spec (slice_end (buf_length b) e) (slice_start (buf_length b) start)); lia.
Qed.

Lemma slice_bounds m b start e : wf_buffer m b ->
  0 <= slice_lo b start <= slice_hi b start e /\ slice_hi b start e <= buf_length b.
Proof.
  intros (store & _ & [_ Hl _]). unfold slice_hi, slice_lo.
  pose proof (slice_start_range (buf_length b) start Hl). pose proof (slice_end_range (buf_length b) e Hl). lia.
Qed.

Lemma sliced_wf m b start e :
  wf_buffer m b -> wf_buffer (mkMemory (stores m) (S (made m))) (sliced m b start e).
Proof.
  intros Hb. pose proof (slice_bounds m b start e Hb). destruct Hb as (store & Hs & [H1 H2 H3]).
  exists store. split; [done|]. split; simpl; lia.
Qed.

Lemma sliced_contents m b start e : wf_buffer m b ->
  contents (mkMemory (stores m) (S (made m))) (sliced m b start e)
  = slice (contents m b) (slice_lo b start) (slice_hi b start e).
Proof.
  intros Hb. pose proof (slice_bounds m b start e Hb) as Hr.
  pose proof (sliced_wf m b start e Hb) as (store' & Hst' & Hws).
  destruct Hb as (store & Hst & Hw). apply bytes_ext. intros i. unfold contents, store_of in *.
  simpl in *. rewrite Hst in *. simplify_eq. simpl. rewrite get_view by done. simpl.
  rewrite get_slice by lia. case_decide; [|done].
  rewrite get_view, decide_True by (done || lia). f_equal. lia.
Qed.

(** A slice is a window on the bytes of its buffer between the two ends, and whatever a
    method then writes through the slice replaces exactly those bytes of the buffer. *)
Lemma slice_is_window m b start e (f : bytes -> BO (Z * bytes)) a bs :
  wf_buffer m b ->
  f (slice (contents m b) (slice_lo b start) (slice_hi b start e)) = Ret (a, bs) ->
  strlen bs = slice_hi b start e - slice_lo b start ->
  exists s m', buf_slice b start e m = Ret (s, m')
    /\ contents m' s = slice (contents m b) (slice_lo b start) (slice_hi b start e)
    /\ exists m'', through s f m' = Ret (a, m'')
       /\ contents m'' b = slice (contents m b) 0 (slice_lo b start) ++ bs
                           ++ slice_from (contents m b) (slice_hi b start e).
Proof.
  intros Hb Hf Hbs. pose proof (slice_bounds m b start e Hb) as Hr.
  pose proof (sliced_wf m b start e Hb) as Hs. pose proof (sliced_contents m b start e Hb) as Hcont.
  set (m' := mkMemory (stores m) (S (made m))) in *. set (s := sliced m b start e) in *.
  set (lo := slice_lo b start) in *. set (hi := slice_hi b start e) in *.
  exists s, m'. split; [apply buf_slice_spec|]. split; [done|].
  exists (overwrite m' s bs). split; [apply through_spec; by rewrite Hcont|].
  apply bytes_ext. intros i. rewrite overwrite_get by done.
  change (contents m' b) with (contents m b). change (buf_store s) with (buf_store b).
  change (buf_offset s) with (buf_offset b + lo). change (buf_length s) with (hi - lo).
  pose proof (contents_length m b Hb) as Hlen.
  rewrite !get_app, Hbs, length_slice, Z.sub_0_r by lia.
  destruct (decide (i < lo)) as [Hlo|Hlo].
  - rewrite decide_False by lia. rewrite get_slice by lia. case_decide; [done|]. by rewrite get_out by lia.
  - destruct (decide (i - lo < hi - lo)) as [Hhi|Hhi].
    + rewrite decide_True by lia. f_equal. lia.
    + rewrite decide_False, get_slice_from by lia. f_equal. lia.
Qed.

Definition demo_memory : memory := mkMemory [[1; 2; 3; 4; 5]] 1.
Definition demo_buffer : buffer := mkBuffer 0 0 0 5.

Lemma demo_wf : wf_buffer demo_memory demo_buffer.
Proof. exists [1; 2; 3; 4; 5]. split; [reflexivity|]. split; unfold strlen; simpl; lia. Qed.

(** ** Copies *)

(** Buffers on the same store agree where they meet. *)
Lemma same_address m b c i j :
  wf_buffer m b -> wf_buffer m c -> buf_store b = buf_store c ->
  0 <= i < buf_length b -> 0 <= j < buf_length c -> buf_offset b + i = buf_offset c + j ->
  get (contents m b) i = get (contents m c) j.
Proof.
  intros (sb & Hsb & Hwb) (sc & Hsc & Hwc) Heq Hi Hj Hadr. rewrite Heq, Hsc in Hsb. simplify_eq.
  unfold contents. rewrite (store_of_eq m b sb), (store_of_eq m c sb) by congruence.
  rewrite !get_view, !decide_True by done. by rewrite Hadr.
Qed.

Section copying.
Context (m0 : memory) (this target : buffer) (targetStart start : Z).
Context (Hthis : wf_buffer m0 this) (Htarget : wf_buffer m0 target).
Context (Hbytes : Forall is_byte (contents m0 this)).

(** The index of the copied byte that a buffer sees at [i]. *)
Definition copy_index (c : buffer) (i : Z) : Z := buf_offset c + i - buf_offset target - targetStart.

(** A buffer sees at [i] one of the bytes with an index in [P]. *)
Definition reached (P : list nat) (c : buffer) (i : Z) : Prop :=
  buf_store c = buf_store target /\ 0 <= i < buf_length c
  /\ 0 <= copy_index c i /\ Z.to_nat (copy_index c i) ∈ P.

#[local] Instance reached_dec P c i : Decision (reached P c i).
Proof. unfold reached. apply _. Defined.

(** The memory after the bytes with an index in [P] have been copied. *)
Definition copied (P : list nat) (m : memory) : Prop :=
  forall c, wf_buffer m0 c ->
  wf_buffer m c
  /\ forall i, get (contents m c) i
               = if decide (reached P c i) then get (contents m0 this) (copy_index c i + start)
                 else get (contents m0 c) i.

Lemma copied_nil : copied [] m0.
Proof.
  intros c Hc. split; [done|]. intros i. rewrite decide_False; [done|].
  intros (_ & _ & _ & Hin). by apply elem_of_nil in Hin.
Qed.

(** One more byte, which has not been overwritten in the source. *)
Lemma poke_copied P m k :
  copied P m ->
  0 <= Z.of_nat k + targetStart < buf_length target -> 0 <= Z.of_nat k + start < buf_length this ->
  ~ reached P this (Z.of_nat k + start) ->
  copied (k :: P) (poke m target (Z.of_nat k + targetStart)
                     (bits (contents m this) (Z.of_nat k + start))).
Proof.
  intros HP Hkt Hks Hsafe. destruct (HP target Htarget) as [Hwt Hgt]. destruct (HP this Hthis) as [Hws Hgs].
  destruct (get_Some (contents m0 this) (Z.of_nat k + start)) as [v Hv];
    [rewrite contents_length by done; lia|].
  assert (Hbits : bits (contents m this) (Z.of_nat k + start) = v).
  { unfold bits. by rewrite Hgs, decide_False, Hv. }
  assert (Hv256 : v mod 256 = v).
  { apply get_byte in Hv; [|done]. unfold is_byte in Hv. by rewrite Z.mod_small. }
  rewrite Hbits. set (bs := set (contents m target) (Z.of_nat k + targetStart) v).
  assert (Hbs : strlen bs = buf_length target) by (unfold bs; by rewrite length_set, contents_length).
  intros c Hc. destruct (HP c Hc) as [Hwc Hgc].
  change (poke m target (Z.of_nat k + targetStart) v) with (overwrite m target bs).
  split; [by apply overwrite_wf|]. intros i. rewrite overwrite_get by done.
  assert (Hother : (buf_store c = buf_store target -> 0 <= i < buf_length c ->
      copy_index c i <> Z.of_nat k) -> reached (k :: P) c i <-> reached P c i).
  { intros Hne. unfold reached. rewrite elem_of_cons. split; [|tauto].
    intros (H1 & H2 & H3 & [H4|H4]); [|tauto]. specialize (Hne H1 H2). lia. }
  destruct (decide (buf_store c = buf_store target /\ 0 <= i < buf_length c
                    /\ buf_offset target <= buf_offset c + i < buf_offset target + buf_length target))
    as [(Hst & Hi & Ha)|Hno].
  - unfold bs. rewrite get_set, contents_length by done.
    destruct (decide (Z.of_nat k + targetStart = buf_offset c + i - buf_offset target
                      /\ 0 <= Z.of_nat k + targetStart < buf_length target)) as [[Heq _]|Hne].
    + rewrite decide_True; [|unfold reached, copy_index; repeat split; try lia; apply elem_of_cons; left; lia].
      rewrite Hv256. unfold copy_index. rewrite <- Hv. f_equal. lia.
    + set (x := buf_offset c + i - buf_offset target) in *.
      assert (Hidx : copy_index target x = copy_index c i) by (unfold copy_index, x; lia).
      assert (Hiff : reached P target x <-> reached P c i).
      { unfold reached. rewrite Hidx. unfold x. intuition lia. }
      rewrite Hgt, Hidx, (decide_ext _ _ _ _ Hiff).
      rewrite (decide_ext (reached (k :: P) c i) _ _ _ (Hother ltac:(unfold copy_index, x in *; lia))).
      case_decide; [done|]. symmetry. apply same_address; try done; unfold x; lia.
  - rewrite Hgc. rewrite (decide_ext (reached (k :: P) c i) (reached P c i)); [done|].
    apply Hother. intros Hst Hi Heq. apply Hno. unfold copy_index in Heq. lia.
Qed.

(** The bytes of [indices], in that order, none of them overwritten before. *)
Lemma copy_each_copied indices : forall P m,
  copied P m ->
  (forall k, k ∈ indices -> 0 <= Z.of_nat k + targetStart < buf_length target
                            /\ 0 <= Z.of_nat k + start < buf_length this) ->
  (forall pre k post, indices = pre ++ k :: post -> ~ reached (pre ++ P) this (Z.of_nat k + start)) ->
  exists P', copied P' (copy_each this target targetStart start indices m)
             /\ forall k, k ∈ P' <-> k ∈ indices \/ k ∈ P.
Proof.
  induction indices as [|k indices IH]; intros P m HP Hrange Hsafe.
  { exists P. split; [done|]. intros k. rewrite elem_of_nil. tauto. }
  destruct (Hrange k) as [Hkt Hks]; [apply elem_of_cons; by left|].
  pose proof (poke_copied P m k HP Hkt Hks (Hsafe [] k indices eq_refl)) as Hnext.
  destruct (IH (k :: P) _ Hnext) as (P' & HP' & Hin).
  - intros j Hj. apply Hrange, elem_of_cons. by right.
  - intros pre j post Heq Hr. apply (Hsafe (k :: pre) j post); [by rewrite Heq|].
    destruct Hr as (H1 & H2 & H3 & H4). repeat split; try done; try lia.
    rewrite !elem_of_app, !elem_of_cons in *. tauto.
  - exists P'. split; [exact HP'|]. intros j. rewrite Hin, !elem_of_cons. tauto.
Qed.

Lemma length_set_from vs : forall (buf : bytes) i, strlen (set_from buf i vs) = strlen buf.
Proof. induction vs as [|v vs IH]; intros buf i; simpl; [done|]. by rewrite IH, length_set. Qed.

Lemma get_set_from vs : forall (buf : bytes) i j,
  Forall is_byte vs -> 0 <= i -> i + strlen vs <= strlen buf ->
  get (set_from buf i vs) j = if decide (i <= j < i + strlen vs) then get vs (j - i) else get buf j.
Proof.
  induction vs as [|v vs IH]; intros buf i j Hvs Hi Hlen; cbn [set_from].
  - rewrite decide_False; [done|]. rewrite strlen_nil. lia.
  - apply Forall_cons in Hvs as [Hv Hvs]. rewrite strlen_cons in *. pose proof (strlen_nonneg vs).
    rewrite IH by (rewrite ?length_set; done || lia).
    destruct (decide (j = i)) as [->|Hne].
    + rewrite decide_False, decide_True by lia. rewrite get_set_eq by lia.
      rewrite Z.sub_diag. unfold is_byte in Hv. by rewrite Z.mod_small.
    + rewrite get_set_ne by lia. destruct (decide (i + 1 <= j < i + 1 + strlen vs)).
      * rewrite decide_True by lia. unfold get.
        destruct (Z.ltb_spec (j - (i + 1)) 0), (Z.ltb_spec (j - i) 0); try lia.
        replace (Z.to_nat (j - i)) with (S (Z.to_nat (j - (i + 1)))) by lia. done.
      * by rewrite decide_False by lia.
Qed.

Lemma set_all_copied n :
  0 <= targetStart -> 0 <= start ->
  targetStart + Z.of_nat n <= buf_length target -> start + Z.of_nat n <= buf_length this ->
  copied (seq 0 n) (set_all this target targetStart start n m0).
Proof.
  intros Hts Hst Ht Hs c Hc. unfold set_all.
  set (src := (fun i => bits (contents m0 this) (Z.of_nat i + start)) <$> seq 0 n).
  set (bs := set_from (contents m0 target) targetStart src).
  assert (Hsrc : strlen src = Z.of_nat n) by (unfold src, strlen; by rewrite length_fmap, length_seq).
  assert (Hget : forall k, (k < n)%nat -> get src (Z.of_nat k) = get (contents m0 this) (Z.of_nat k + start)).
  { intros k Hk. destruct (get_Some (contents m0 this) (Z.of_nat k + start)) as [v Hv];
      [rewrite contents_length by done; lia|].
    rewrite get_lookup by lia. unfold src. rewrite Nat2Z.id, list_lookup_fmap, lookup_seq_lt by done.
    simpl. unfold bits. by rewrite Hv. }
  assert (Hsb : Forall is_byte src).
  { apply Forall_lookup. intros k v Hk. assert (Hlt := lookup_lt_Some _ _ _ Hk).
    unfold src in Hlt. rewrite length_fmap, length_seq in Hlt.
    apply (get_byte (contents m0 this) (Z.of_nat k + start)); [done|].
    rewrite <- Hget by done. rewrite get_lookup by lia. by rewrite Nat2Z.id. }
  assert (Hbs : strlen bs = buf_length target) by (unfold bs; by rewrite length_set_from, contents_length).
  change (mkMemory _ _) with (overwrite m0 target bs).
  split; [by apply overwrite_wf|]. intros i. rewrite overwrite_get by done.
  pose proof (contents_length m0 target Htarget) as Hlt.
  assert (Hin : reached (seq 0 n) c i <-> buf_store c = buf_store target /\ 0 <= i < buf_length c
      /\ 0 <= copy_index c i < Z.of_nat n).
  { unfold reached. rewrite elem_of_seq. intuition lia. }
  rewrite (decide_ext _ _ _ _ Hin).
  destruct (decide (buf_store c = buf_store target /\ 0 <= i < buf_length c
                    /\ buf_offset target <= buf_offset c + i < buf_offset target + buf_length target))
    as [(Hst' & Hi & Ha)|Hno].
  - unfold bs. rewrite get_set_from, Hsrc by (done || lia). unfold copy_index in *.
    destruct (decide (targetStart <= buf_offset c + i - buf_offset target < targetStart + Z.of_nat n)).
    + rewrite decide_True by (repeat split; done || lia).
      replace (buf_offset c + i - buf_offset target - targetStart)
        with (Z.of_nat (Z.to_nat (buf_offset c + i - buf_offset target - targetStart))) by lia.
      rewrite Hget by lia. done.
    + rewrite decide_False by lia. apply same_address; try done; lia.
  - rewrite decide_False; [done|]. intros (H1 & H2 & H3). apply Hno. unfold copy_index in H3. lia.
Qed.
End copying.

(** How many bytes [copy] moves. *)
Definition copy_count (this target : buffer) (t s e : Z) : Z :=
  Z.min (Z.min e (buf_length this) - s) (buf_length target - t).

(** The bytes are moved in an order that reads each before it is overwritten:
    the buffers are on different stores, or one object, or the move is downwards,
    or the ranges are apart, or there are enough bytes for the engine to move. *)
Definition orderly (this target : buffer) (t s n : Z) : Prop :=
  buf_store this <> buf_store target \/ buf_id this = buf_id target
  \/ buf_offset target + t <= buf_offset this + s
  \/ buf_offset this + s + n <= buf_offset target + t \/ 1000 <= n.

Lemma reverse_seq_split n pre k post :
  reverse (seq 0 n) = pre ++ k :: post -> forall j, j ∈ pre -> (k < j < n)%nat.
Proof.
  intros Heq j Hj. assert (Hs : seq 0 n = reverse post ++ k :: reverse pre).
  { rewrite <- (reverse_involutive (seq 0 n)), Heq, reverse_app, reverse_cons, <- app_assoc. done. }
  assert (Hj' : j ∈ reverse pre) by by rewrite elem_of_reverse.
  apply list_elem_of_lookup_1 in Hj' as [i Hi].
  assert (Hk : seq 0 n !! length (reverse post) = Some k) by (rewrite Hs; by apply list_lookup_middle).
  assert (Hlj : seq 0 n !! (length (reverse post) + S i)%nat = Some j).
  { rewrite Hs, lookup_app_r by lia. by replace (_ - _)%nat with (S i) by lia. }
  apply lookup_seq in Hk as [Hk1 Hk2], Hlj as [Hj1 Hj2]. lia.
Qed.

Lemma seq_split n pre k post : seq 0 n = pre ++ k :: post -> forall j, j ∈ pre -> (j < k)%nat.
Proof.
  intros Heq j Hj. apply list_elem_of_lookup_1 in Hj as [i Hi].
  assert (Hk : seq 0 n !! length pre = Some k) by (rewrite Heq; by apply list_lookup_middle).
  assert (Hlj : seq 0 n !! i = Some j) by (rewrite Heq; by apply lookup_app_l_Some).
  apply lookup_lt_Some in Hi. apply lookup_seq in Hk as [Hk1 Hk2], Hlj as [Hj1 Hj2]. lia.
Qed.

Section moving.
Context (m : memory) (this target : buffer) (t s n : Z).
Context (Hthis : wf_buffer m this) (Htarget : wf_buffer m target).
Context (Hbytes : Forall is_byte (contents m this)).
Context (Ht : 0 <= t) (Hs : 0 <= s) (Hn : 0 <= n).
Context (Hnt : t + n <= buf_length target) (Hns : s + n <= buf_length this).

(** Upwards and downwards. *)
Lemma copy_up :
  buf_store this <> buf_store target \/ buf_offset target + t <= buf_offset this + s
  \/ buf_offset this + s + n <= buf_offset target + t ->
  exists P, copied m this target t s P (copy_each this target t s (seq 0 (Z.to_nat n)) m)
            /\ forall k, k ∈ P <-> (k < Z.to_nat n)%nat.
Proof.
  intros Hord. destruct (copy_each_copied m this target t s Hthis Htarget Hbytes (seq 0 (Z.to_nat n)) [] m)
    as (P & HP & Hin).
  - apply copied_nil.
  - intros k Hk. apply elem_of_seq in Hk. lia.
  - intros pre k post Heq (H1 & H2 & H3 & H4). rewrite app_nil_r in H4.
    apply (seq_split _ _ _ _ Heq) in H4. unfold copy_index in *.
    assert (Hk : (k < Z.to_nat n)%nat).
    { assert (Hk : k ∈ seq 0 (Z.to_nat n)) by (rewrite Heq, elem_of_app, elem_of_cons; tauto).
      apply elem_of_seq in Hk. lia. }
    destruct Hord as [Hne|[Hle|Hge]]; [congruence|lia|lia].
  - exists P. split; [done|]. intros k. rewrite Hin, elem_of_seq, elem_of_nil. lia.
Qed.

Lemma copy_down :
  buf_offset this + s <= buf_offset target + t ->
  exists P, copied m this target t s P (copy_each this target t s (reverse (seq 0 (Z.to_nat n))) m)
            /\ forall k, k ∈ P <-> (k < Z.to_nat n)%nat.
Proof.
  intros Hord.
  destruct (copy_each_copied m this target t s Hthis Htarget Hbytes (reverse (seq 0 (Z.to_nat n))) [] m)
    as (P & HP & Hin).
  - apply copied_nil.
  - intros k Hk. apply elem_of_reverse, elem_of_seq in Hk. lia.
  - intros pre k post Heq (H1 & H2 & H3 & H4). rewrite app_nil_r in H4.
    apply (reverse_seq_split _ _ _ _ Heq) in H4. unfold copy_index in *. lia.
  - exists P. split; [done|]. intros k. rewrite Hin, elem_of_reverse, elem_of_seq, elem_of_nil. lia.
Qed.

(** What the target holds in the end. *)
Lemma copied_contents P m' :
  copied m this target t s P m' -> (forall k, k ∈ P <-> (k < Z.to_nat n)%nat) ->
  contents m' target
  = slice (contents m target) 0 t ++ slice (contents m this) s (s + n) ++ slice_from (contents m target) (t + n).
Proof.
  intros HP Hin. destruct (HP target Htarget) as [Hw Hg].
  pose proof (contents_length m target Htarget). pose proof (contents_length m this Hthis).
  apply bytes_ext. intros j. rewrite Hg, !get_app, !length_slice by lia. rewrite Z.sub_0_r.
  destruct (decide (j < t)) as [Hj|Hj].
  - rewrite decide_False by (intros (_ & H1 & H2 & H3); unfold copy_index in H2; lia).
    rewrite get_slice by lia. case_decide; [done|]. by rewrite get_out by lia.
  - destruct (decide (j - t < s + n - s)) as [Hin'|Hout].
    + rewrite decide_True; [|unfold reached, copy_index; rewrite Hin; lia].
      rewrite get_slice, decide_True by lia. f_equal. unfold copy_index. lia.
    + rewrite decide_False; [|intros (_ & H1 & H2 & H3); unfold copy_index in *; rewrite Hin in H3; lia].
      rewrite get_slice_from by lia. f_equal. lia.
Qed.
End moving.

(** The branch [copy] takes moves the bytes. *)
Definition copy_step (this target : buffer) (t s e : Z) (n : Z) : memory -> memory :=
  if (buf_id this =? buf_id target)%nat && (s <? t) && (t <? e)
  then copy_each this target t s (reverse (seq 0 (Z.to_nat n)))
  else if n <? 1000 then copy_each this target t s (seq 0 (Z.to_nat n))
  else set_all this target t s (Z.to_nat n).

Lemma copy_spec m this target t s e :
  0 <= t < buf_length target -> 0 <= s < buf_length this -> s < e ->
  copy this target (Some t) (Some s) (Some e) m
  = Ret (copy_count this target t s e,
         copy_step this target t s (s + copy_count this target t s e) (copy_count this target t s e) m).
Proof.
  intros Ht Hs He. unfold copy, copy_count. cbn [from_option id].
  destruct (Z.leb_spec (buf_length target) t); [lia|].
  replace (if (0 <? e) && (e <? s) then s else e) with e
    by (destruct (Z.ltb_spec 0 e), (Z.ltb_spec e s); simpl; lia).
  destruct (Z.eqb_spec e s); [lia|]. destruct (Z.eqb_spec (buf_length target) 0); [lia|].
  destruct (Z.eqb_spec (buf_length this) 0); [lia|]. cbn [orb].
  destruct (Z.ltb_spec t 0); [lia|]. destruct (Z.ltb_spec s 0); [lia|].
  destruct (Z.leb_spec (buf_length this) s); [lia|]. cbn [orb]. destruct (Z.ltb_spec e 0); [lia|].
  replace (if buf_length this <? e then buf_length this else e) with (Z.min e (buf_length this))
    by (destruct (Z.ltb_spec (buf_length this) e); lia).
  set (e1 := Z.min e (buf_length this)).
  set (cnt := Z.min (e1 - s) (buf_length target - t)).
  replace (if buf_length target - t <? e1 - s then buf_length target - t + s else e1) with (s + cnt)
    by (unfold cnt; destruct (Z.ltb_spec (buf_length target - t) (e1 - s)); lia).
  replace (s + cnt - s) with cnt by lia. reflexivity.
Qed.

(** [copy] moves the bytes of the range as they were before the call, and
    leaves the rest of the target alone, whenever the order of the moves is
    right; within one buffer object it always is. *)
Lemma copy_moves m this target t s e :
  wf_buffer m this -> wf_buffer m target -> Forall is_byte (contents m this) ->
  (buf_id this = buf_id target -> this = target) ->
  0 <= t < buf_length target -> 0 <= s < buf_length this -> s < e ->
  orderly this target t s (copy_count this target t s e) ->
  exists m', copy this target (Some t) (Some s) (Some e) m = Ret (copy_count this target t s e, m')
    /\ contents m' target
       = slice (contents m target) 0 t
         ++ slice (contents m this) s (s + copy_count this target t s e)
         ++ slice_from (contents m target) (t + copy_count this target t s e).
Proof.
  intros Hthis Htarget Hbytes Hid Ht Hs He Hord. rewrite copy_spec by done.
  set (n := copy_count this target t s e) in *.
  assert (Hn : 0 <= n /\ t + n <= buf_length target /\ s + n <= buf_length this)
    by (unfold n, copy_count; lia).
  destruct Hn as (Hn & Hnt & Hns). eexists. split; [reflexivity|]. unfold copy_step.
  destruct ((buf_id this =? buf_id target)%nat && (s <? t) && (t <? s + n)) eqn:Hback.
  - rewrite !andb_true_iff, Nat.eqb_eq, !Z.ltb_lt in Hback. destruct Hback as [[Heq Hlt] _].
    specialize (Hid Heq). destruct (copy_down m this target t s n) as (P & HP & Hin); try done; try lia.
    { rewrite Hid. lia. }
    eapply (copied_contents m this target t s n); try done; lia.
  - destruct (Z.ltb_spec n 1000).
    + destruct (copy_up m this target t s n) as (P & HP & Hin); try done; try lia.
      { unfold orderly in Hord. destruct Hord as [|[Heq|[|[|]]]]; try tauto; try lia.
        rewrite (Hid Heq) in *. rewrite Nat.eqb_refl in Hback. simpl in Hback.
        apply andb_false_iff in Hback. rewrite !Z.ltb_ge in Hback. lia. }
      eapply (copied_contents m this target t s n); try done; lia.
    + eapply (copied_contents m this target t s n); try done; try lia;
        [apply set_all_copied; try done; lia|].
      intros k. rewrite elem_of_seq. lia.
Qed.


(** For two buffer objects on one store the order can be wrong: copying a
    slice of a few bytes to a slice that starts one byte later repeats its first
    byte. *)
Lemma overlapping_views_smear :
  match copy (mkBuffer 1 0 0 4) (mkBuffer 2 0 1 4) None None None demo_memory with
  | Ret (n, m') => n = 4 /\ contents m' demo_buffer = [1; 1; 1; 1; 1]
  | _ => False
  end.
Proof. vm_compute. split; reflexivity. Qed.

(** C40: buffer objects share the bytes they are views of.  A slice is a window on the
    bytes of its buffer between the two ends, and whatever a method then writes through
    the slice replaces exactly those bytes of the buffer.  [copy] moves the bytes
    of the range as they were before the call, and leaves the rest of the target alone,
    whenever the order of the moves is right; within one buffer object it always is.
    For two buffer objects on one store it can be wrong: copying a slice of a few bytes
    to a slice that starts one byte later repeats its first byte. *)
Theorem views_share_memory m this :
  wf_buffer m this ->
  (forall start e (f : bytes -> BO (Z * bytes)) a bs,
     f (slice (contents m this) (slice_lo this start) (slice_hi this start e)) = Ret (a, bs) ->
     strlen bs = slice_hi this start e - slice_lo this start ->
     exists s m', buf_slice this start e m = Ret (s, m')
       /\ contents m' s = slice (contents m this) (slice_lo this start) (slice_hi this start e)
       /\ exists m'', through s f m' = Ret (a, m'')
          /\ contents m'' this = slice (contents m this) 0 (slice_lo this start) ++ bs
                              ++ slice_from (contents m this) (slice_hi this start e))
  /\ (forall target t s e, wf_buffer m target -> Forall is_byte (contents m this) ->
     (buf_id this = buf_id target -> this = target) ->
     0 <= t < buf_length target -> 0 <= s < buf_length this -> s < e ->
     orderly this target t s (copy_count this target t s e) ->
     exists m', copy this target (Some t) (Some s) (Some e) m = Ret (copy_count this target t s e, m')
       /\ contents m' target
          = slice (contents m target) 0 t
            ++ slice (contents m this) s (s + copy_count this target t s e)
            ++ slice_from (contents m target) (t + copy_count this target t s e))
  /\ match copy (mkBuffer 1 0 0 4) (mkBuffer 2 0 1 4) None None None demo_memory with
     | Ret (n, m') => n = 4 /\ contents m' demo_buffer = [1; 1; 1; 1; 1]
     | _ => False
     end.
Proof.
  intros Hm. split_and!; [intros; by apply slice_is_window|intros; by apply copy_moves|apply overlapping_views_smear].
Qed.

Lemma views_share_memory_witness :
  (exists s m', buf_slice demo_buffer 1 (Some (-1)) demo_memory = Ret (s, m')
    /\ contents m' s = slice (contents demo_memory demo_buffer) (slice_lo demo_buffer 1)
                          (slice_hi demo_buffer 1 (Some (-1)))
    /\ exists m'', through s (fun buf => writeUInt8 buf 9 1 false) m' = Ret (2, m'')
       /\ contents m'' demo_buffer
          = slice (contents demo_memory demo_buffer) 0 (slice_lo demo_buffer 1) ++ [2; 9; 4]
            ++ slice_from (contents demo_memory demo_buffer) (slice_hi demo_buffer 1 (Some (-1))))
  /\ (exists m', copy demo_buffer demo_buffer (Some 2) (Some 0) (Some 4) demo_memory
             = Ret (copy_count demo_buffer demo_buffer 2 0 4, m')
    /\ contents m' demo_buffer
       = slice (contents demo_memory demo_buffer) 0 2
         ++ slice (contents demo_memory demo_buffer) 0 (0 + copy_count demo_buffer demo_buffer 2 0 4)
         ++ slice_from (contents demo_memory demo_buffer) (2 + copy_count demo_buffer demo_buffer 2 0 4)).
Proof.
  destruct (views_share_memory demo_memory demo_buffer demo_wf) as (H1 & H2 & _). split.
  - apply (H1 1 (Some (-1)) (fun buf => writeUInt8 buf 9 1 false) 2 [2; 9; 4]); reflexivity.
  - apply (H2 demo_buffer 2 0 4 demo_wf).
    + repeat constructor; lia.
    + done.
    + simpl. lia.
    + simpl. lia.
    + lia.
    + right. left. done.
Defined.
