(* ===== verification/NodeBufferText.v ===== *)
(** * Buffer: text survives its encoding

    [utf8ToBytes] and [utf8Slice] are compared with code points: the encoder
    writes the code points of a string, a lone surrogate as U+FFFD, and the
    decoder reads any sequence of encoded code points back. *)

From S2P Require Import JsPrelude JsInt32 JsNumber JsUnicode NodeBuffer NodeBufferInts NodeBufferMemory.

(** ** One code point *)

Lemma mark_byte x m k : 0 <= k <= 8 -> m = (m / 2 ^ k) * 2 ^ k -> 0 <= m < 256 -> 0 <= x < 2 ^ k ->
  or32 x m = m + x.
Proof. intros Hk Hm Hr Hx. apply (join_field m x k (m / 2 ^ k)); lia. Qed.

Lemma encode_point_spec p : 0 <= p < 1114112 -> encode_point p = Some (encoded p).
Proof.
  intros Hp. unfold encode_point, encoded.
  assert (Hlow : forall x, or32 (and32 x 63) 128 = 128 + x mod 64).
  { intros x. rewrite and32_63. pose proof (Z.mod_pos_bound x 64 ltac:(lia)).
    apply (mark_byte _ 128 6); lia || done. }
  destruct (Z.ltb_spec p 128); [done|]. destruct (Z.ltb_spec p 2048).
  - rewrite Hlow, sar32_small by lia. change (2 ^ 6) with 64.
    rewrite (mark_byte _ 192 5); [done|lia|done|lia|]. change (2 ^ 5) with 32. div_mod.
  - destruct (Z.ltb_spec p 65536).
    + rewrite !Hlow, !sar32_small by lia. change (2 ^ 6) with 64. change (2 ^ 12) with 4096.
      rewrite (mark_byte _ 224 4); [done|lia|done|lia|]. change (2 ^ 4) with 16. div_mod.
    + destruct (Z.ltb_spec p 1114112); [|lia]. rewrite !Hlow, !sar32_small by lia.
      change (2 ^ 6) with 64. change (2 ^ 12) with 4096. change (2 ^ 18) with 262144.
      rewrite (mark_byte _ 240 3); [done|lia|done|lia|]. change (2 ^ 3) with 8. div_mod.
Qed.

(** Continuation bytes and the payload of the first byte. *)
Lemma continuation_mark x : 0 <= x < 64 -> continuation (128 + x) = true /\ low6 (128 + x) = x.
Proof.
  intros Hx. split.
  - assert (Hall : forallb (fun n => continuation (128 + Z.of_nat n)) (seq 0 64) = true) by reflexivity.
    rewrite forallb_forall in Hall. replace x with (Z.of_nat (Z.to_nat x)) by lia.
    apply Hall, in_seq. lia.
  - unfold low6. rewrite and32_63. div_mod.
Qed.

Lemma bits_here pre b post i : i = strlen pre -> bits (pre ++ b :: post) i = b.
Proof.
  intros ->. unfold bits, get, strlen. destruct (Z.ltb_spec (Z.of_nat (length pre)) 0); [lia|].
  by rewrite Nat2Z.id, list_lookup_middle.
Qed.

Lemma point_encoded_length p : is_scalar p -> 1 <= strlen (encoded p) <= 4.
Proof.
  intros _. unfold encoded, strlen.
  destruct (p <? 128), (p <? 2048), (p <? 65536); simpl; lia.
Qed.

Lemma sequence_length_encoded p first rest :
  is_scalar p -> encoded p = first :: rest -> sequence_length first = strlen (encoded p).
Proof.
  intros Hp. unfold encoded, sequence_length, is_scalar in *.
  destruct (Z.ltb_spec p 128); [|destruct (Z.ltb_spec p 2048); [|destruct (Z.ltb_spec p 65536)]];
    intros [= <- <-]; unfold strlen; simpl.
  - destruct (Z.ltb_spec 239 p), (Z.ltb_spec 223 p), (Z.ltb_spec 191 p); lia.
  - assert (p / 64 < 32) by div_mod. assert (0 <= p / 64) by div_mod.
    destruct (Z.ltb_spec 239 (192 + p / 64)), (Z.ltb_spec 223 (192 + p / 64)),
      (Z.ltb_spec 191 (192 + p / 64)); lia.
  - assert (p / 4096 < 16) by div_mod. assert (0 <= p / 4096) by div_mod.
    destruct (Z.ltb_spec 239 (224 + p / 4096)), (Z.ltb_spec 223 (224 + p / 4096)); lia.
  - assert (0 <= p / 262144) by div_mod. destruct (Z.ltb_spec 239 (240 + p / 262144)); lia.
Qed.

Lemma decode_2 buf i a b : 0 <= a < 32 -> 0 <= b < 64 -> 127 < a * 64 + b ->
  bits buf i = 192 + a -> bits buf (i + 1) = 128 + b -> decode_sequence buf i 2 = Some (a * 64 + b).
Proof.
  intros Ha Hb Hmin H0 H1. unfold decode_sequence. rewrite H0, H1. cbn [Z.eqb Pos.eqb].
  destruct (continuation_mark b Hb) as [-> ->]. rewrite (and32_ones _ 5) by lia.
  change (2 ^ 5) with 32. replace ((192 + a) mod 32) with a by div_mod.
  rewrite (shl32_small a 6) by (change (2 ^ 6) with 64; lia). change (2 ^ 6) with 64.
  destruct (join_field (a * 64) b 6 a) as [-> _]; [lia|done|lia|change (2 ^ 6) with 64; lia|].
  destruct (Z.ltb_spec 127 (a * 64 + b)); [done|lia].
Qed.

Lemma decode_3 buf i a b c : 0 <= a < 16 -> 0 <= b < 64 -> 0 <= c < 64 ->
  2047 < a * 4096 + b * 64 + c ->
  (a * 4096 + b * 64 + c < 55296 \/ 57343 < a * 4096 + b * 64 + c) ->
  bits buf i = 224 + a -> bits buf (i + 1) = 128 + b -> bits buf (i + 2) = 128 + c ->
  decode_sequence buf i 3 = Some (a * 4096 + b * 64 + c).
Proof.
  intros Ha Hb Hc Hmin Hsur H0 H1 H2. unfold decode_sequence. rewrite H0, H1, H2. cbn [Z.eqb Pos.eqb].
  destruct (continuation_mark b Hb) as [-> ->]. destruct (continuation_mark c Hc) as [-> ->].
  rewrite (and32_ones _ 4) by lia. change (2 ^ 4) with 16. replace ((224 + a) mod 16) with a by div_mod.
  cbn [andb]. rewrite (shl32_small a 12), (shl32_small b 6) by
    (change (2 ^ 12) with 4096; change (2 ^ 6) with 64; lia).
  change (2 ^ 12) with 4096. change (2 ^ 6) with 64.
  destruct (join_field (a * 4096) (b * 64) 12 a) as [-> _];
    [lia|done|lia|change (2 ^ 12) with 4096; lia|].
  destruct (join_field (a * 4096 + b * 64) c 6 (a * 64 + b)) as [-> _];
    [lia|change (2 ^ 6) with 64; lia|lia|change (2 ^ 6) with 64; lia|].
  destruct (Z.ltb_spec 2047 (a * 4096 + b * 64 + c)); [|lia].
  destruct (Z.ltb_spec (a * 4096 + b * 64 + c) 55296), (Z.ltb_spec 57343 (a * 4096 + b * 64 + c));
    done || lia.
Qed.

Lemma decode_4 buf i a b c d : 0 <= a < 8 -> 0 <= b < 64 -> 0 <= c < 64 -> 0 <= d < 64 ->
  65535 < a * 262144 + b * 4096 + c * 64 + d < 1114112 ->
  bits buf i = 240 + a -> bits buf (i + 1) = 128 + b -> bits buf (i + 2) = 128 + c ->
  bits buf (i + 3) = 128 + d ->
  decode_sequence buf i 4 = Some (a * 262144 + b * 4096 + c * 64 + d).
Proof.
  intros Ha Hb Hc Hd Hr H0 H1 H2 H3. unfold decode_sequence. rewrite H0, H1, H2, H3.
  cbn [Z.eqb Pos.eqb].
  destruct (continuation_mark b Hb) as [-> ->]. destruct (continuation_mark c Hc) as [-> ->].
  destruct (continuation_mark d Hd) as [-> ->].
  rewrite (and32_ones _ 4) by lia. change (2 ^ 4) with 16. replace ((240 + a) mod 16) with a by div_mod.
  cbn [andb]. rewrite (shl32_small a 18), (shl32_small b 12), (shl32_small c 6) by
    (change (2 ^ 18) with 262144; change (2 ^ 12) with 4096; change (2 ^ 6) with 64; lia).
  change (2 ^ 18) with 262144. change (2 ^ 12) with 4096. change (2 ^ 6) with 64.
  destruct (join_field (a * 262144) (b * 4096) 18 a) as [-> _];
    [lia|done|lia|change (2 ^ 18) with 262144; lia|].
  destruct (join_field (a * 262144 + b * 4096) (c * 64) 12 (a * 64 + b)) as [-> _];
    [lia|change (2 ^ 12) with 4096; lia|lia|change (2 ^ 12) with 4096; lia|].
  destruct (join_field (a * 262144 + b * 4096 + c * 64) d 6 (a * 4096 + b * 64 + c)) as [-> _];
    [lia|change (2 ^ 6) with 64; lia|lia|change (2 ^ 6) with 64; lia|].
  destruct (Z.ltb_spec 65535 (a * 262144 + b * 4096 + c * 64 + d)); [|lia].
  destruct (Z.ltb_spec (a * 262144 + b * 4096 + c * 64 + d) 1114112); [done|lia].
Qed.

(** The bytes of a sequence, where they stand. *)
Lemma bits_nth pre bs post k b :
  bs !! Z.to_nat k = Some b -> 0 <= k -> bits (pre ++ bs ++ post) (strlen pre + k) = b.
Proof.
  intros Hb Hk. unfold bits, get, strlen. destruct (Z.ltb_spec (Z.of_nat (length pre) + k) 0); [lia|].
  replace (Z.to_nat (Z.of_nat (length pre) + k)) with (length pre + Z.to_nat k)%nat by lia.
  rewrite lookup_app_r by lia. replace (length pre + Z.to_nat k - length pre)%nat with (Z.to_nat k) by lia.
  by rewrite (lookup_app_l_Some _ _ _ _ Hb).
Qed.

Lemma decode_encoded pre p post : is_scalar p ->
  decode_sequence (pre ++ encoded p ++ post) (strlen pre) (strlen (encoded p)) = Some p.
Proof.
  intros Hp. pose proof (fun k b => bits_nth pre (encoded p) post k b) as Hn.
  unfold encoded in *. unfold is_scalar in Hp.
  destruct (Z.ltb_spec p 128); [|destruct (Z.ltb_spec p 2048); [|destruct (Z.ltb_spec p 65536)]];
    set (buf := pre ++ _) in *.
  - unfold decode_sequence. change (strlen [p]) with 1. cbn [Z.eqb Pos.eqb].
    rewrite <- (Z.add_0_r (strlen pre)), (Hn 0 p) by (done || lia).
    destruct (Z.ltb_spec p 128); [done|lia].
  - change (strlen _) with 2 at 2.
    rewrite (decode_2 buf (strlen pre) (p / 64) (p mod 64)); [f_equal; div_mod|div_mod..| |by apply Hn].
    rewrite <- (Z.add_0_r (strlen pre)). by apply Hn.
  - change (strlen _) with 3 at 2.
    rewrite (decode_3 buf (strlen pre) (p / 4096) ((p / 64) mod 64) (p mod 64));
      [f_equal; div_mod|div_mod..| |by apply Hn|by apply Hn].
    rewrite <- (Z.add_0_r (strlen pre)). by apply Hn.
  - change (strlen _) with 4 at 2.
    rewrite (decode_4 buf (strlen pre) (p / 262144) ((p / 4096) mod 64) ((p / 64) mod 64) (p mod 64));
      [f_equal; div_mod|div_mod..| |by apply Hn|by apply Hn|by apply Hn].
    rewrite <- (Z.add_0_r (strlen pre)). by apply Hn.
Qed.

(** ** Sequences of code points *)

Definition encoded_all (pts : list Z) : bytes := concat (encoded <$> pts).
Definition units_all (pts : list Z) : jsstr := concat (point_units <$> pts).

Lemma encoded_all_cons p pts : encoded_all (p :: pts) = encoded p ++ encoded_all pts.
Proof. reflexivity. Qed.

Lemma utf8_slice_loop_points pts : forall n pre res,
  Forall is_scalar pts -> (length (encoded_all pts) <= n)%nat ->
  utf8_slice_loop n (pre ++ encoded_all pts) (strlen pre) (strlen (pre ++ encoded_all pts)) res
  = res ++ units_all pts.
Proof.
  induction pts as [|p pts IH]; intros n pre res Hpts Hn.
  - unfold encoded_all, units_all. simpl. rewrite !app_nil_r. destruct n; [done|].
    cbn [utf8_slice_loop]. by rewrite Z.ltb_irrefl.
  - apply Forall_cons in Hpts as [Hp Hpts]. rewrite encoded_all_cons in *.
    pose proof (point_encoded_length p Hp) as Hl. rewrite length_app in Hn.
    destruct n as [|n]; [unfold strlen in Hl; lia|]. cbn [utf8_slice_loop].
    pose proof (strlen_nonneg (encoded_all pts)).
    destruct (Z.ltb_spec (strlen pre) (strlen (pre ++ encoded p ++ encoded_all pts)));
      [|rewrite !strlen_app in *; lia].
    assert (Hseq : sequence_length (bits (pre ++ encoded p ++ encoded_all pts) (strlen pre))
                   = strlen (encoded p)).
    { destruct (encoded p) as [|first rest] eqn:He; [rewrite strlen_nil in Hl; lia|].
      cbn [app]. rewrite bits_here, <- He by done. by apply (sequence_length_encoded p first rest). }
    rewrite Hseq.
    destruct (Z.leb_spec (strlen pre + strlen (encoded p)) (strlen (pre ++ encoded p ++ encoded_all pts)));
      [|rewrite !strlen_app in *; lia].
    rewrite decode_encoded by done. rewrite app_assoc, <- strlen_app.
    rewrite IH by (done || (unfold strlen in Hl; lia)). unfold units_all. rewrite fmap_cons. cbn [concat].
    by rewrite app_assoc.
Qed.

Lemma fromCharCode_units s : Forall is_unit16 s -> concat (fromCharCode <$> s) = s.
Proof.
  induction 1 as [|c s Hc _ IH]; [done|]. rewrite fmap_cons. cbn [concat]. rewrite IH.
  unfold fromCharCode, is_unit16 in *. by rewrite Z.mod_small.
Qed.

Lemma decode_chunks_spec n : forall l i res,
  0 <= i -> (length l <= Z.to_nat i + n * 4096)%nat ->
  decode_chunks n l i res = res ++ concat (fromCharCode <$> drop (Z.to_nat i) l).
Proof.
  induction n as [|n IH]; intros l i res Hi Hn; cbn [decode_chunks].
  - rewrite drop_ge by lia. by rewrite app_nil_r.
  - unfold strlen. destruct (Z.ltb_spec i (Z.of_nat (length l))).
    + unfold MAX_ARGUMENTS_LENGTH. rewrite IH by lia. rewrite <- app_assoc. f_equal.
      unfold slice. replace (Z.to_nat (i + 4096) - Z.to_nat i)%nat with 4096%nat by lia.
      replace (Z.to_nat (i + 4096)) with (Z.to_nat i + 4096)%nat by lia.
      rewrite <- drop_drop, <- concat_app, <- fmap_app. by rewrite take_drop.
    + rewrite drop_ge by lia. by rewrite app_nil_r.
Qed.

Lemma decodeCodePointsArray_units s : Forall is_unit16 s -> decodeCodePointsArray s = s.
Proof.
  intros Hs. unfold decodeCodePointsArray. destruct (strlen s <=? _); [by apply fromCharCode_units|].
  rewrite decode_chunks_spec by lia. simpl. by apply fromCharCode_units.
Qed.

Lemma point_units_unit16 p : 0 <= p < 1114112 -> Forall is_unit16 (point_units p).
Proof.
  intros Hp. unfold point_units. destruct (Z.ltb_spec 65535 p).
  - rewrite (and32_ones _ 10), (and32_ones _ 10) by lia. change (2 ^ 10) with 1024.
    pose proof (Z.mod_pos_bound (ushr32 (p - 65536) 10) 1024 ltac:(lia)).
    pose proof (Z.mod_pos_bound (p - 65536) 1024 ltac:(lia)).
    destruct (join_field 55296 (ushr32 (p - 65536) 10 mod 1024) 10 54) as [_ ->]; try (lia || done).
    destruct (join_field 56320 ((p - 65536) mod 1024) 10 55) as [-> _]; try (lia || done).
    repeat constructor; unfold is_unit16; lia.
  - repeat constructor; unfold is_unit16; lia.
Qed.

Lemma utf8Slice_points pts : Forall is_scalar pts ->
  utf8Slice (encoded_all pts) 0 (strlen (encoded_all pts)) = units_all pts.
Proof.
  intros Hpts. unfold utf8Slice. rewrite Z.min_id, Z.sub_0_r.
  pose proof (utf8_slice_loop_points pts (length (encoded_all pts)) [] [] Hpts ltac:(lia)) as Hl.
  unfold strlen at 1. rewrite Nat2Z.id. cbn [app] in Hl. rewrite strlen_nil in Hl. rewrite Hl.
  apply decodeCodePointsArray_units, Forall_concat, Forall_fmap. clear Hl.
  eapply Forall_impl; [exact Hpts|]. intros p Hp. apply point_units_unit16. unfold is_scalar in Hp. lia.
Qed.

(** ** The code points of a string *)

Fixpoint points (s : jsstr) : list Z :=
  match s with
  | [] => []
  | c :: rest =>
      if is_lead c then
        match rest with
        | n :: rest' => if is_trail n then pair_point c n :: points rest' else 65533 :: points rest
        | [] => [65533]
        end
      else if is_trail c then 65533 :: points rest
      else c :: points rest
  end.

(** The string with U+FFFD for each surrogate that is not in a pair. *)
Fixpoint replace_lone (s : jsstr) : jsstr :=
  match s with
  | [] => []
  | c :: rest =>
      if is_lead c then
        match rest with
        | n :: rest' => if is_trail n then c :: n :: replace_lone rest' else 65533 :: replace_lone rest
        | [] => [65533]
        end
      else if is_trail c then 65533 :: replace_lone rest
      else c :: replace_lone rest
  end.

Fixpoint ends_two_leads (s : jsstr) : bool :=
  match s with
  | [] => false
  | a :: s' => match s' with [b] => is_lead a && is_lead b | _ => ends_two_leads s' end
  end.

(** What the encoder writes: it forgets the last unit of a string that ends with two
    leads. *)
Definition written (s : jsstr) : jsstr := if ends_two_leads s then removelast s else s.

Lemma written_all s : ends_two_leads s = false -> written s = s.
Proof. unfold written. by intros ->. Qed.

Lemma written_cons c s : (forall d, s = [d] -> is_lead c && is_lead d = false) ->
  written (c :: s) = c :: written s.
Proof.
  intros Hs. unfold written. destruct s as [|d [|e s]]; [done| |].
  - by cbn [ends_two_leads]; rewrite (Hs d eq_refl).
  - change (ends_two_leads (c :: d :: e :: s)) with (ends_two_leads (d :: e :: s)).
    by destruct (ends_two_leads (d :: e :: s)).
Qed.

Lemma written_other c s : is_lead c = false -> written (c :: s) = c :: written s.
Proof. intros Hc. apply written_cons. intros d _. by rewrite Hc. Qed.

Lemma written_two a b : is_lead a = true -> is_lead b = true -> written [a; b] = [a].
Proof. intros Ha Hb. unfold written. simpl. by rewrite Ha, Hb. Qed.

Lemma written_head c s : exists t, written (c :: s) = c :: t.
Proof.
  unfold written. destruct (ends_two_leads (c :: s)) eqn:E; [|by eexists].
  destruct s as [|d s]; [done|by eexists].
Qed.

Lemma written_units P s : Forall P s -> Forall P (written s).
Proof.
  intros Hs. unfold written. destruct (ends_two_leads s); [|done].
  induction Hs as [|c s Hc Hs IH]; [constructor|]. destruct s; [constructor|by constructor].
Qed.

Lemma written_length s : strlen (written s) <= strlen s.
Proof.
  unfold written. destruct (ends_two_leads s); [|done].
  induction s as [|c s IH]; [done|]. destruct s as [|d s]; [done|].
  change (removelast (c :: d :: s)) with (c :: removelast (d :: s)). rewrite !strlen_cons in *. lia.
Qed.

Lemma written_nil s : written s = [] -> s = [].
Proof. destruct s as [|c s]; [done|]. by destruct (written_head c s) as [t ->]. Qed.

Lemma well_formed_replace s : well_formed s = true -> replace_lone s = s.
Proof.
  induction s as [|c|c n s IH1 IH2] using units_ind; [done|..].
  - simpl. destruct (is_lead c); [done|]. by destruct (is_trail c).
  - cbn [well_formed replace_lone]. destruct (is_lead c).
    + intros [-> Hs]%andb_true_iff. by rewrite IH1.
    + intros [Hc Hs]%andb_true_iff. apply negb_true_iff in Hc. rewrite Hc. f_equal. by apply IH2.
Qed.

Lemma points_scalar s : Forall is_unit16 s -> Forall is_scalar (points s).
Proof.
  induction s as [|c|c n s IH1 IH2] using units_ind; [constructor|..]; intros Hs;
    apply Forall_cons in Hs as [Hc Hs]; unfold is_unit16 in Hc.
  - simpl. unfold is_lead, is_trail.
    destruct ((55295 <? c) && (c <? 56320)) eqn:Hl; [apply Forall_singleton; unfold is_scalar; lia|].
    destruct ((56319 <? c) && (c <? 57344)) eqn:Ht; [apply Forall_singleton; unfold is_scalar; lia|].
    apply Forall_singleton. unfold is_scalar. apply andb_false_iff in Hl, Ht. rewrite !Z.ltb_ge in *. lia.
  - specialize (IH2 Hs). apply Forall_cons in Hs as [Hn Hs]. specialize (IH1 Hs).
    change (points (c :: n :: s)) with
      (if is_lead c then if is_trail n then pair_point c n :: points s else 65533 :: points (n :: s)
       else if is_trail c then 65533 :: points (n :: s) else c :: points (n :: s)).
    destruct (is_lead c) eqn:Hl.
    + destruct (is_trail n) eqn:Ht.
      * constructor; [|done]. pose proof (pair_point_range c n Hl Ht). unfold is_scalar. lia.
      * constructor; [unfold is_scalar; lia|done].
    + destruct (is_trail c) eqn:Ht; constructor; try done; unfold is_scalar; [lia|].
      unfold is_lead, is_trail in *. apply andb_false_iff in Hl, Ht. rewrite !Z.ltb_ge in *. lia.
Qed.

Lemma point_units_pair l t : is_lead l = true -> is_trail t = true ->
  point_units (pair_point l t) = [l; t].
Proof.
  intros Hl Ht. pose proof (pair_point_range l t Hl Ht) as Hr.
  unfold is_lead, is_trail in *. rewrite !andb_true_iff, !Z.ltb_lt in *.
  unfold point_units. destruct (Z.ltb_spec 65535 (pair_point l t)); [|lia].
  replace (pair_point l t - 65536) with ((l - 55296) * 1024 + (t - 56320)) by (unfold pair_point; lia).
  rewrite !(and32_ones _ 10) by lia. change (2 ^ 10) with 1024. unfold ushr32.
  change (10 mod 32) with 10. rewrite (Z.mod_small ((l - 55296) * 1024 + (t - 56320)) (2 ^ 32)) by lia.
  rewrite Z.shiftr_div_pow2 by lia. change (2 ^ 10) with 1024.
  replace ((((l - 55296) * 1024 + (t - 56320)) / 1024) mod 1024) with (l - 55296) by div_mod.
  replace (((l - 55296) * 1024 + (t - 56320)) mod 1024) with (t - 56320) by div_mod.
  destruct (join_field 55296 (l - 55296) 10 54) as [_ ->]; try (lia || done).
  destruct (join_field 56320 (t - 56320) 10 55) as [-> _]; try (lia || done).
  apply (f_equal2 (@cons Z)); [lia|]. f_equal. lia.
Qed.

Lemma units_points s : Forall is_unit16 s -> units_all (points s) = replace_lone s.
Proof.
  assert (Hsmall : forall c, is_unit16 c -> point_units c = [c]).
  { intros c Hc. unfold is_unit16 in Hc. unfold point_units. destruct (Z.ltb_spec 65535 c); [lia|done]. }
  induction s as [|c|c n s IH1 IH2] using units_ind; [done|..]; intros Hs;
    apply Forall_cons in Hs as [Hc Hs].
  - simpl. destruct (is_lead c); [done|]. destruct (is_trail c); [done|].
    unfold units_all. simpl. by rewrite Hsmall.
  - specialize (IH2 Hs). apply Forall_cons in Hs as [Hn Hs]. specialize (IH1 Hs).
    change (points (c :: n :: s)) with
      (if is_lead c then if is_trail n then pair_point c n :: points s else 65533 :: points (n :: s)
       else if is_trail c then 65533 :: points (n :: s) else c :: points (n :: s)).
    change (replace_lone (c :: n :: s)) with
      (if is_lead c then if is_trail n then c :: n :: replace_lone s else 65533 :: replace_lone (n :: s)
       else if is_trail c then 65533 :: replace_lone (n :: s) else c :: replace_lone (n :: s)).
    assert (Hcons : forall p ps, units_all (p :: ps) = point_units p ++ units_all ps) by reflexivity.
    destruct (is_lead c) eqn:Hl; [destruct (is_trail n) eqn:Ht|destruct (is_trail c)];
      rewrite Hcons, ?IH1, ?IH2; [by rewrite point_units_pair|done|done|by rewrite Hsmall].
Qed.

(** ** The encoder *)

(** The limit leaves room for [n] bytes. *)
Definition room (units : option Z) (n : Z) : Prop :=
  match units with Some u => n <= u | None => True end.

Lemma room_spend units n k : room units (n + k) -> room (spend units n) k.
Proof. destruct units; simpl; [lia|done]. Qed.

Lemma push_room units k out : 0 <= k -> room units (3 + k) ->
  push_replacement units out = (spend units 3, out ++ REPLACEMENT).
Proof.
  intros Hk Hr. unfold push_replacement. destruct units as [u|]; simpl in *; [|done].
  destruct (Z.ltb_spec (-1) (u - 3)); [done|lia].
Qed.

Lemma room_nonneg units n k : 0 <= k -> room units (n + k) -> negative (spend units n) = false.
Proof. destruct units as [u|]; simpl; [|done]. intros. apply Z.ltb_ge. lia. Qed.

Lemma lead_trail_point l t : is_lead l = true -> is_trail t = true ->
  or32 (shl32 (l - 55296) 10) (t - 56320) + 65536 = pair_point l t.
Proof.
  unfold is_lead, is_trail. rewrite !andb_true_iff, !Z.ltb_lt. intros Hl Ht.
  rewrite (shl32_small _ 10) by (change (2 ^ 10) with 1024; lia). change (2 ^ 10) with 1024.
  destruct (join_field ((l - 55296) * 1024) (t - 56320) 10 (l - 55296)) as [-> _];
    [lia|done|lia|change (2 ^ 10) with 1024; lia|done].
Qed.

(** The surrogate test of the loop, by kinds of units. *)
Lemma surrogate_test c :
  (55295 <? c) && (c <? 57344) = is_lead c || is_trail c
  /\ (is_lead c = true -> (56319 <? c) = false /\ (c <? 56320) = true /\ is_trail c = false)
  /\ (is_trail c = true -> (56319 <? c) = true /\ (c <? 56320) = false).
Proof.
  unfold is_lead, is_trail. destruct (Z.ltb_spec 55295 c), (Z.ltb_spec c 57344), (Z.ltb_spec c 56320),
    (Z.ltb_spec 56319 c); simpl; repeat split; intros; try done; lia.
Qed.

Lemma utf8_loop_emit c rest units out k :
  is_scalar c -> 0 <= k -> room units (strlen (encoded c) + k) ->
  match encode_point c with
  | None => Throw (BError (js "Invalid code point"))
  | Some bs =>
      if negative (spend units (strlen bs)) then Ret out
      else utf8_loop rest (spend units (strlen bs)) None (out ++ bs)
  end = utf8_loop rest (spend units (strlen (encoded c))) None (out ++ encoded c).
Proof.
  intros Hc Hk Hr. rewrite encode_point_spec by (unfold is_scalar in Hc; lia).
  by rewrite (room_nonneg units _ k).
Qed.

Lemma points_lead l c rest : is_lead l = true ->
  points (l :: c :: rest) = if is_trail c then pair_point l c :: points rest else 65533 :: points (c :: rest).
Proof. intros Hl. simpl. by rewrite Hl. Qed.

(** The loop without a lead that waits for its trail, and with one. *)
Lemma utf8_loop_points s : forall units out, Forall is_unit16 s ->
  (room units (strlen (encoded_all (points (written s)))) ->
   utf8_loop s units None out = Ret (out ++ encoded_all (points (written s))))
  /\ (forall l, is_lead l = true -> s <> [] ->
      room units (strlen (encoded_all (points (written (l :: s))))) ->
      utf8_loop s units (Some l) out = Ret (out ++ encoded_all (points (written (l :: s))))).
Proof.
  induction s as [|c rest IH]; intros units out Hs.
  { split; [intros; simpl; by rewrite app_nil_r|done]. }
  apply Forall_cons in Hs as [Hc Hrest]. specialize (fun u o => IH u o Hrest).
  destruct (surrogate_test c) as (Htest & Hlead & Htrail).
  pose proof (strlen_nonneg (encoded_all (points (written rest)))) as Hnn.
  assert (Hsc : is_lead c = false -> is_trail c = false -> is_scalar c).
  { intros H1 H2. unfold is_scalar, is_unit16 in *. unfold is_lead, is_trail in *.
    apply andb_false_iff in H1, H2. rewrite !Z.ltb_ge in *. lia. }
  split.
  - intros Hroom. cbn [utf8_loop]. rewrite Htest. destruct (is_lead c) eqn:Hl; cbn [orb].
    + destruct (Hlead eq_refl) as (-> & _). destruct rest as [|n rest'] eqn:Hr.
      * change (written [c]) with [c] in *. simpl points in *. rewrite Hl in *.
        by rewrite (push_room units 0) by (done || exact Hroom).
      * apply IH; [done|done|exact Hroom].
    + rewrite written_other in * by done. cbn [points] in *. rewrite Hl in *. destruct (is_trail c) eqn:Ht.
      * destruct (Htrail eq_refl) as (-> & _).
        rewrite encoded_all_cons, strlen_app in Hroom. rewrite (push_room units _ _ Hnn Hroom).
        rewrite (proj1 (IH _ _)); [|by apply room_spend].
        by rewrite <- app_assoc, encoded_all_cons.
      * rewrite encoded_all_cons, strlen_app in *.
        specialize (Hsc eq_refl eq_refl). rewrite (utf8_loop_emit c rest units out _ Hsc Hnn Hroom).
        rewrite (proj1 (IH _ _)); [by rewrite <- app_assoc|by apply room_spend].
  - intros l Hl _ Hroom. cbn [utf8_loop]. rewrite Htest. destruct (is_lead c) eqn:Hlc; cbn [orb].
    + destruct (Hlead eq_refl) as (_ & -> & Htc). destruct rest as [|n rest'] eqn:Hr.
      * rewrite written_two in * by done. cbn [points] in *. rewrite Hl in *.
        by rewrite (push_room units 0) by (done || exact Hroom).
      * rewrite (written_cons l) in * by done. destruct (written_head c (n :: rest')) as [t Et].
        rewrite Et, points_lead, Htc, <- Et, encoded_all_cons, strlen_app in * by done.
        rewrite (push_room units _ _ (strlen_nonneg (encoded_all (points (written (c :: n :: rest'))))) Hroom).
        rewrite (proj2 (IH _ _)); [by rewrite <- app_assoc|done|done|by apply room_spend].
    + rewrite (written_cons l), (written_other c) in * by (done || by intros d [= -> _]; rewrite Hlc, andb_false_r).
      rewrite points_lead in * by done. destruct (is_trail c) eqn:Ht.
      * destruct (Htrail eq_refl) as (_ & ->). rewrite lead_trail_point by done.
        rewrite encoded_all_cons, strlen_app in *.
        assert (Hsp : is_scalar (pair_point l c)).
        { pose proof (pair_point_range l c Hl Ht). unfold is_scalar. lia. }
        rewrite (utf8_loop_emit _ rest units out _ Hsp Hnn Hroom).
        rewrite (proj1 (IH _ _)); [by rewrite <- app_assoc|by apply room_spend].
      * cbn [points] in *. rewrite Hlc, Ht in *. specialize (Hsc eq_refl eq_refl).
        rewrite !encoded_all_cons, !strlen_app in *.
        change (strlen (encoded 65533)) with 3 in Hroom.
        rewrite (push_room units (strlen (encoded c) + strlen (encoded_all (points (written rest))))) by
          (done || (pose proof (strlen_nonneg (encoded c)); lia)).
        rewrite (utf8_loop_emit c rest _ _ _ Hsc Hnn) by (by apply room_spend).
        rewrite (proj1 (IH _ _)); [by rewrite <- !app_assoc|by apply room_spend, room_spend].
Qed.

(** With no limit, or with a limit that the whole text meets. *)
Lemma utf8ToBytes_points s units :
  Forall is_unit16 s -> room units (strlen (encoded_all (points (written s)))) ->
  utf8ToBytes s units = Ret (encoded_all (points (written s))).
Proof.
  intros Hs Hr. unfold utf8ToBytes.
  set (u := match units with Some u => if u =? 0 then None else Some u | None => None end).
  destruct (utf8_loop_points s u [] Hs) as [Hl _]. apply Hl.
  unfold u. destruct units as [x|]; [|done]. by destruct (x =? 0).
Qed.

Lemma encoded_bytes p : 0 <= p < 1114112 -> Forall is_byte (encoded p).
Proof.
  intros Hp. unfold encoded, is_byte.
  destruct (Z.ltb_spec p 128); [|destruct (Z.ltb_spec p 2048); [|destruct (Z.ltb_spec p 65536)]];
    repeat (apply Forall_cons; split; [div_mod|]); apply Forall_nil_2.
Qed.

Lemma encoded_all_bytes s : Forall is_unit16 s -> Forall is_byte (encoded_all (points s)).
Proof.
  intros Hs. apply Forall_concat, Forall_fmap. eapply Forall_impl; [by apply points_scalar|].
  intros p Hp. apply encoded_bytes. unfold is_scalar in Hp. lia.
Qed.

Lemma encoded_all_nil s : encoded_all (points s) = [] -> s = [].
Proof.
  destruct s as [|c s]; [done|]. intros H. exfalso. revert H.
  assert (Hne : forall p ps, is_scalar p \/ True -> encoded_all (p :: ps) <> []).
  { intros p ps _. rewrite encoded_all_cons. unfold encoded.
    by destruct (p <? 128), (p <? 2048), (p <? 65536). }
  cbn [points]. destruct (is_lead c); [destruct s as [|n s]; [|destruct (is_trail n)]|destruct (is_trail c)];
    apply Hne; auto.
Qed.

(** ** Blits *)

Lemma blit_loop_spec n : forall src dst offset i,
  0 <= i -> 0 <= offset -> Forall is_byte src ->
  i + Z.of_nat n <= strlen src -> offset + i + Z.of_nat n <= strlen dst ->
  fst (blit_loop n src dst offset i) = i + Z.of_nat n
  /\ strlen (snd (blit_loop n src dst offset i)) = strlen dst
  /\ forall j, get (snd (blit_loop n src dst offset i)) j
               = if decide (offset + i <= j < offset + i + Z.of_nat n)
                 then get src (j - offset) else get dst j.
Proof.
  induction n as [|n IH]; intros src dst offset i Hi Ho Hall Hs Hd; cbn [blit_loop].
  - simpl. split; [lia|]. split; [done|]. intros j. by rewrite decide_False by lia.
  - destruct (Z.leb_spec (strlen dst) (i + offset)); [lia|].
    destruct (Z.leb_spec (strlen src) i); [lia|]. cbn [orb].
    destruct (IH src (set dst (i + offset) (bits src i)) offset (i + 1)) as (H1 & H2 & H3);
      rewrite ?length_set; try (done || lia). rewrite length_set in H2.
    split; [lia|]. split; [done|]. intros j. rewrite H3, get_set.
    destruct (get_Some src i ltac:(lia)) as [b Hb].
    destruct (decide (j = i + offset)) as [->|Hne].
    + rewrite (decide_False (P := offset + (i + 1) <= _ < _)), decide_True, decide_True by lia.
      replace (i + offset - offset) with i by lia. unfold bits. rewrite Hb. simpl.
      apply get_byte in Hb; [|done]. unfold is_byte in Hb. by rewrite Z.mod_small.
    + destruct (decide (offset + (i + 1) <= j < offset + (i + 1) + Z.of_nat n)).
      * by rewrite decide_True by lia.
      * by rewrite decide_False, decide_False by lia.
Qed.

Lemma blitBuffer_full src dst :
  Forall is_byte src -> strlen src = strlen dst -> blitBuffer src dst 0 (strlen dst) = (strlen dst, src).
Proof.
  intros Hall Hl. unfold blitBuffer. pose proof (strlen_nonneg dst).
  destruct (blit_loop_spec (Z.to_nat (strlen dst)) src dst 0 0) as (H1 & H2 & H3); try (done || lia).
  destruct (blit_loop _ _ _ _ _) as [i buf]. simpl in *. f_equal; [lia|].
  apply bytes_ext. intros j. rewrite H3. rewrite Z.sub_0_r.
  case_decide; [done|].
  unfold get, strlen in *. destruct (Z.ltb_spec j 0); [done|].
  rewrite !lookup_ge_None_2 by lia. done.
Qed.

(** ** A string through a buffer *)

Lemma encoded_all_length s : Forall is_unit16 s -> strlen (encoded_all (points s)) <= 3 * strlen s.
Proof.
  assert (Hp3 : forall p, p < 65536 -> strlen (encoded p) <= 3).
  { intros p Hp. unfold encoded, strlen. destruct (p <? 128), (p <? 2048); simpl; try lia.
    destruct (Z.ltb_spec p 65536); simpl; lia. }
  assert (Hp4 : forall p, strlen (encoded p) <= 4).
  { intros p. unfold encoded, strlen. destruct (p <? 128), (p <? 2048), (p <? 65536); simpl; lia. }
  assert (Hfffd : strlen (encoded 65533) = 3) by reflexivity.
  induction s as [|c|c n s IH1 IH2] using units_ind; [done|..]; intros Hs;
    apply Forall_cons in Hs as [Hc Hs]; unfold is_unit16 in Hc; specialize (Hp3 c ltac:(lia)).
  - cbn [points]. destruct (is_lead c), (is_trail c); unfold encoded_all; cbn [fmap list_fmap concat];
      rewrite app_nil_r; change (strlen [c]) with 1; lia.
  - specialize (IH2 Hs). apply Forall_cons in Hs as [Hn Hs]. specialize (IH1 Hs).
    specialize (Hp4 (pair_point c n)). rewrite !strlen_cons in *.
    change (points (c :: n :: s)) with
      (if is_lead c then if is_trail n then pair_point c n :: points s else 65533 :: points (n :: s)
       else if is_trail c then 65533 :: points (n :: s) else c :: points (n :: s)).
    destruct (is_lead c); [destruct (is_trail n)|destruct (is_trail c)];
      rewrite encoded_all_cons, strlen_app; lia.
Qed.

Lemma createBuffer_spec m len : 0 <= len <= kMaxLength ->
  exists b m', createBuffer len m = Ret (b, m') /\ wf_buffer m' b /\ buf_length b = len
               /\ contents m' b = replicate (Z.to_nat len) 0.
Proof.
  intros Hlen. unfold createBuffer. destruct (Z.ltb_spec kMaxLength len); [lia|].
  eexists _, _. split; [reflexivity|].
  assert (Hst : (stores m ++ [replicate (Z.to_nat len) 0]) !! length (stores m)
                = Some (replicate (Z.to_nat len) 0)) by by apply list_lookup_middle.
  split; [|split; [done|]].
  - exists (replicate (Z.to_nat len) 0). split; [exact Hst|]. split; simpl; try lia.
    unfold strlen. rewrite length_replicate. lia.
  - unfold contents, store_of, view. simpl. rewrite Hst. simpl. rewrite drop_0. apply take_ge.
    by rewrite length_replicate.
Qed.

Section strings.
Context (toByteArray : jsstr -> BO bytes) (fromByteArray : bytes -> jsstr).

Lemma write_whole buf s bs name : find_encoding (encoding_or_utf8 (Some name)) = Some EncUtf8 ->
  utf8ToBytes s (Some (strlen buf)) = Ret bs -> Forall is_byte bs -> strlen bs = strlen buf ->
  write toByteArray buf s (WriteEncoding name) = Ret (strlen buf, bs).
Proof.
  intros Hn Hu Hall Hl. pose proof (strlen_nonneg buf). unfold write. rewrite !Z.sub_0_r.
  rewrite !Z.ltb_irrefl. cbn [orb andb].
  destruct (Z.ltb_spec (strlen buf) 0); [lia|]. cbn [orb]. rewrite andb_false_r. cbn [orb].
  unfold write_encoded. rewrite Hn, Z.sub_0_r, Hu. simpl. by rewrite blitBuffer_full.
Qed.

Lemma fromString_spec m s name : isEncoding (encoding_or_utf8 name) = true ->
  find_encoding (encoding_or_utf8 name) = Some EncUtf8 ->
  Forall is_unit16 s -> 3 * strlen s <= kMaxLength ->
  exists b m', fromString toByteArray s name m = Ret (b, m')
               /\ contents m' b = encoded_all (points (written s)).
Proof.
  intros He Hn Hs Hlen. set (enc := encoding_or_utf8 name) in *.
  assert (Hid : encoding_or_utf8 (Some enc) = enc) by (subst enc; destruct name as [[|]|]; done).
  set (bs := encoded_all (points (written s))).
  pose proof (encoded_all_length _ (written_units _ s Hs)) as Hle. fold bs in Hle.
  pose proof (strlen_nonneg bs). pose proof (written_length s) as Hwl.
  assert (Hall : Forall is_byte bs) by by apply encoded_all_bytes, written_units.
  assert (Hbl : byteLength toByteArray s (Some enc) = Ret (strlen bs)).
  { unfold byteLength. destruct (Z.eqb_spec (strlen s) 0) as [H0|H0].
    - assert (s = []) as -> by (destruct s; [done|rewrite strlen_cons in H0; pose proof (strlen_nonneg s); lia]).
      done.
    - by rewrite Hn, utf8ToBytes_points. }
  unfold kMaxLength in Hlen.
  destruct (createBuffer_spec m (strlen bs)) as (b & m1 & Hc & Hw & Hbl' & Hct); [unfold kMaxLength; lia|].
  assert (Hrep : strlen (replicate (Z.to_nat (strlen bs)) 0) = strlen bs).
  { unfold strlen at 1. rewrite length_replicate. lia. }
  assert (Hwrite : write toByteArray (contents m1 b) s (WriteEncoding enc) = Ret (strlen bs, bs)).
  { rewrite Hct. rewrite (write_whole _ s bs); [by rewrite Hrep|by rewrite Hid| |done|done].
    apply utf8ToBytes_points; [done|]. simpl. fold bs. lia. }
  exists b, (overwrite m1 b bs). split; [|apply overwrite_self; [done|congruence]].
  unfold fromString. fold enc. rewrite He. cbn [negb].
  unfold mbind, SE_bind, liftO. rewrite Hbl, (toInt32_small (strlen bs)) by lia. cbv beta iota zeta.
  rewrite Hc, (through_spec m1 b _ _ _ Hwrite), Z.eqb_refl. done.
Qed.
Lemma toString_points s : Forall is_unit16 s -> 3 * strlen s <= kMaxLength ->
  buf_toString fromByteArray (encoded_all (points s)) None = Ret (replace_lone s).
Proof.
  intros Hs Hlen. pose proof (encoded_all_length s Hs). unfold kMaxLength in Hlen.
  pose proof (strlen_nonneg (encoded_all (points s))).
  unfold buf_toString. rewrite toInt32_small by lia.
  destruct (Z.eqb_spec (strlen (encoded_all (points s))) 0) as [Hz|Hz].
  - assert (Hnil : encoded_all (points s) = []).
    { destruct (encoded_all (points s)) as [|x l]; [done|]. rewrite strlen_cons in Hz.
      pose proof (strlen_nonneg l). lia. }
    by rewrite (encoded_all_nil s Hnil).
  - rewrite utf8Slice_points by by apply points_scalar. by rewrite units_points.
Qed.
End strings.

(** A string without lone surrogates does not end in a lead. *)
Lemma well_formed_ends s : well_formed s = true -> ends_two_leads s = false.
Proof.
  induction s as [|c|c n s IH1 IH2] using units_ind; [done|done|].
  change (well_formed (c :: n :: s)) with
    (if is_lead c then is_trail n && well_formed s else negb (is_trail c) && well_formed (n :: s)).
  change (ends_two_leads (c :: n :: s)) with
    (match s with [] => is_lead c && is_lead n | _ => ends_two_leads (n :: s) end).
  destruct (is_lead c) eqn:Hc; intros Hw.
  - apply andb_true_iff in Hw as [Hn Hw]. specialize (IH1 Hw).
    destruct (surrogate_test n) as (_ & Hl & _). destruct s as [|d s].
    + destruct (is_lead n) eqn:E; [|done]. destruct (Hl eq_refl) as (_ & _ & H'). congruence.
    + change (ends_two_leads (n :: d :: s)) with
        (match s with [] => is_lead n && is_lead d | _ => ends_two_leads (d :: s) end).
      destruct s as [|e s]; [|done].
      destruct (is_lead n) eqn:E; [|done]. destruct (Hl eq_refl) as (_ & _ & H'). congruence.
  - apply andb_true_iff in Hw as [_ Hw]. specialize (IH2 Hw). by destruct s.
Qed.

(** C38: a string of 16-bit units goes through a buffer in UTF-8: what [toString]
    gives for the buffer [Buffer.from] makes of it is the string with U+FFFD for
    its lone surrogates, and the string itself when it has none.  A string that ends
    with two leads loses the last of them on the way, without a U+FFFD for it. *)
Theorem text_through_buffer toByteArray fromByteArray m s :
  Forall is_unit16 s -> 3 * strlen s <= kMaxLength ->
  exists b m', fromString toByteArray s None m = Ret (b, m')
    /\ buf_toString fromByteArray (contents m' b) None
       = Ret (replace_lone (if ends_two_leads s then removelast s else s))
    /\ (well_formed s = true -> buf_toString fromByteArray (contents m' b) None = Ret s).
Proof.
  intros Hs Hlen.
  destruct (fromString_spec toByteArray m s None eq_refl eq_refl Hs Hlen) as (b & m' & Hf & Hc).
  exists b, m'. split; [done|].
  assert (Ht : buf_toString fromByteArray (contents m' b) None = Ret (replace_lone (written s))).
  { rewrite Hc. apply toString_points; [by apply written_units|]. pose proof (written_length s). lia. }
  split; [exact Ht|]. intros Hw.
  by rewrite Ht, written_all, well_formed_replace by (done || by apply well_formed_ends).
Qed.

Lemma text_through_buffer_witness :
  let s := [104; 233; 8364; 55357; 56832; 55357; 55358] in
  exists b m', fromString (fun _ => Ret []) s None (mkMemory [] 0) = Ret (b, m')
    /\ buf_toString (fun _ => []) (contents m' b) None = Ret [104; 233; 8364; 55357; 56832; 65533].
Proof.
  intros s. destruct (text_through_buffer (fun _ => Ret []) (fun _ => []) (mkMemory [] 0) s)
    as (b & m' & Hf & Ht & _).
  - repeat constructor; lia.
  - unfold strlen, kMaxLength. simpl. lia.
  - exists b, m'. split; [exact Hf|exact Ht].
Defined.
