(* ===== verification/NodeBufferOrder.v ===== *)
(** * Buffer: comparison

    [Buffer.compare], [equals] and the method [compare] with its ranges against the
    lexicographic order of the bytes. *)

From S2P Require Import JsPrelude JsNumber NodeBuffer NodeBufferMemory.

(** The order of the bytes; a beginning comes first. *)
Fixpoint lex (a b : bytes) : Z :=
  match a, b with
  | [], [] => 0
  | [], _ :: _ => -1
  | _ :: _, [] => 1
  | x :: a', y :: b' => if x <? y then -1 else if y <? x then 1 else lex a' b'
  end.

Lemma lex_eq a b : lex a b = 0 <-> a = b.
Proof.
  revert b. induction a as [|x a IH]; intros [|y b]; simpl; try done.
  destruct (Z.ltb_spec x y); [split; [done|intros [= -> ->]; lia]|].
  destruct (Z.ltb_spec y x); [split; [done|intros [= -> ->]; lia]|].
  rewrite IH. assert (x = y) as -> by lia. split; [by intros ->|by intros [= ->]].
Qed.

(** The other way round. *)
Lemma lex_swap a b : lex b a = - lex a b.
Proof.
  revert b. induction a as [|x a IH]; intros [|y b]; simpl; try done.
  destruct (Z.ltb_spec x y), (Z.ltb_spec y x); try lia. apply IH.
Qed.

Lemma lex_trans a b c : lex a b <= 0 -> lex b c <= 0 -> lex a c <= 0.
Proof.
  revert b c. induction a as [|x a IH]; intros [|y b] [|z c]; simpl; try lia.
  destruct (Z.ltb_spec x y), (Z.ltb_spec y z), (Z.ltb_spec x z); try lia;
    destruct (Z.ltb_spec y x), (Z.ltb_spec z y), (Z.ltb_spec z x); try lia. apply IH.
Qed.

(** A byte behind the bytes that are equal. *)
Lemma bits_behind (p s : bytes) x : bits (p ++ x :: s) (strlen p) = x.
Proof.
  unfold bits. rewrite get_app, decide_False by lia. by rewrite Z.sub_diag.
Qed.

Lemma compare_loop_lex sa : forall pa pb sb, length pa = length pb ->
  sign_of (compare_loop (Nat.min (length sa) (length sb)) (pa ++ sa) (pb ++ sb) (strlen pa)
                        (strlen (pa ++ sa)) (strlen (pb ++ sb))) = lex sa sb.
Proof.
  induction sa as [|x sa IH]; intros pa pb [|y sb] Hp; cbn [compare_loop Nat.min length lex sign_of].
  - unfold strlen. rewrite !length_app. simpl.
    destruct (Z.ltb_spec (Z.of_nat (length pa + 0)) (Z.of_nat (length pb + 0))); [lia|].
    destruct (Z.ltb_spec (Z.of_nat (length pb + 0)) (Z.of_nat (length pa + 0))); lia.
  - unfold strlen. rewrite !length_app. simpl.
    destruct (Z.ltb_spec (Z.of_nat (length pa + 0)) (Z.of_nat (length pb + S (length sb)))); lia.
  - unfold strlen. rewrite !length_app. simpl.
    destruct (Z.ltb_spec (Z.of_nat (length pa + S (length sa))) (Z.of_nat (length pb + 0))); [lia|].
    destruct (Z.ltb_spec (Z.of_nat (length pb + 0)) (Z.of_nat (length pa + S (length sa)))); lia.
  - assert (Hs : strlen pa = strlen pb) by (unfold strlen; by rewrite Hp).
    rewrite bits_behind.
    assert (bits (pb ++ y :: sb) (strlen pa) = y) as -> by (rewrite Hs; apply bits_behind).
    destruct (Z.eqb_spec x y) as [->|Hn].
    + rewrite Z.ltb_irrefl. specialize (IH (pa ++ [y]) (pb ++ [y]) sb).
      rewrite <- !(assoc_L (++)) in IH. simpl in IH. rewrite <- IH by (rewrite !length_app; simpl; lia).
      do 2 f_equal. unfold strlen. rewrite length_app. simpl. lia.
    + cbn [sign_of]. destruct (Z.ltb_spec x y), (Z.ltb_spec y x); lia.
Qed.

Lemma compare_lex a b : compare a b = lex a b.
Proof.
  rewrite <- (compare_loop_lex a [] [] b) by done. unfold compare. do 2 f_equal. simpl. unfold strlen. lia.
Qed.

(** The method on two buffers, with all four bounds given. *)
Lemma compare_range_lex this target start end_ thisStart thisEnd :
  0 <= start -> end_ <= strlen target -> 0 <= thisStart -> thisEnd <= strlen this ->
  compare_range this target false (Some start) (Some end_) (Some thisStart) (Some thisEnd)
  = Ret (lex (slice this thisStart thisEnd) (slice target start end_)).
Proof.
  intros H1 H2 H3 H4. unfold compare_range. cbn [default id].
  rewrite !(proj2 (Z.ltb_ge _ _)) by done. cbn [orb].
  assert (He : forall (s : bytes) lo hi, 0 <= lo -> hi <= lo -> slice s lo hi = [])
    by (intros; unfold slice; by replace (Z.to_nat hi - Z.to_nat lo)%nat with 0%nat by lia).
  assert (Hl : forall (s : bytes) lo hi, 0 <= lo < hi -> hi <= strlen s -> exists x l, slice s lo hi = x :: l).
  { intros s lo hi Hb Hs. pose proof (length_slice s lo hi ltac:(lia) Hs) as Hlen.
    destruct (slice s lo hi) as [|x l]; [unfold strlen in Hlen; simpl in Hlen; lia|by exists x, l]. }
  destruct (Z.leb_spec thisEnd thisStart), (Z.leb_spec end_ start); cbn [andb].
  - by rewrite !He by lia.
  - rewrite He by lia. by destruct (Hl target start end_) as (x & l & ->).
  - rewrite (He target) by lia. by destruct (Hl this thisStart thisEnd) as (x & l & ->).
  - f_equal. rewrite <- compare_lex. unfold compare. rewrite !length_slice by lia. done.
Qed.

(** C34: [Buffer.compare] and the method [compare], each range within its buffer, give
    the lexicographic order of the bytes, a total order; [equals] is equality.  When
    a buffer is compared with itself the ranges are ignored: different bytes are
    found equal. *)
Theorem compare_is_lexicographic :
  (forall a b, compare a b = lex a b)
  /\ (forall a b, equals a b = true <-> a = b)
  /\ (forall a b c, compare b a = - compare a b
        /\ (compare a b <= 0 -> compare b c <= 0 -> compare a c <= 0))
  /\ (forall this target start end_ thisStart thisEnd,
        0 <= start -> end_ <= strlen target -> 0 <= thisStart -> thisEnd <= strlen this ->
        compare_range this target false (Some start) (Some end_) (Some thisStart) (Some thisEnd)
        = Ret (lex (slice this thisStart thisEnd) (slice target start end_)))
  /\ compare_range [1; 2] [1; 2] true (Some 0) (Some 1) (Some 1) (Some 2) = Ret 0.
Proof.
  split_and!.
  - exact compare_lex.
  - intros a b. unfold equals. rewrite Z.eqb_eq, compare_lex. apply lex_eq.
  - intros a b c. rewrite !compare_lex. split; [apply lex_swap|apply lex_trans].
  - exact compare_range_lex.
  - reflexivity.
Qed.
