(* ===== verification/SwaggerData.v ===== *)
(** * Swagger UI: plain data

    The helpers of the page work on data read from JSON or YAML: trees of plain
    objects and arrays.  An object is the list of its own properties in the order
    in which they were created; its prototype is [Object.prototype].  With the
    helpers of the utility module that work on such data. *)

From S2P Require Import JsPrelude JsNumber JsValue.

Inductive jdata : Type :=
| DUndefined
| DNull
| DBool (b : bool)
| DNumber (n : num)
| DString (s : jsstr)
| DArray (es : list jdata)
| DObject (ps : list (jsstr * jdata)).

Section jdata_ind.
Variable P : jdata -> Prop.
Hypothesis H_undefined : P DUndefined.
Hypothesis H_null : P DNull.
Hypothesis H_bool : forall b, P (DBool b).
Hypothesis H_number : forall n, P (DNumber n).
Hypothesis H_string : forall s, P (DString s).
Hypothesis H_array : forall es, Forall P es -> P (DArray es).
Hypothesis H_object : forall ps, Forall (fun p => P p.2) ps -> P (DObject ps).

(** Induction with the hypothesis for every element and every property. *)
Fixpoint jdata_nested_ind (d : jdata) : P d :=
  match d with
  | DUndefined => H_undefined
  | DNull => H_null
  | DBool b => H_bool b
  | DNumber n => H_number n
  | DString s => H_string s
  | DArray es =>
      H_array es ((fix go (es : list jdata) : Forall P es :=
        match es with
        | [] => Forall_nil_2 _
        | e :: es' => Forall_cons_2 _ _ _ (jdata_nested_ind e) (go es')
        end) es)
  | DObject ps =>
      H_object ps ((fix go (ps : list (jsstr * jdata)) : Forall (fun p => P p.2) ps :=
        match ps with
        | [] => Forall_nil_2 _
        | p :: ps' => Forall_cons_2 (fun p : jsstr * jdata => P p.2) p ps' (jdata_nested_ind p.2) (go ps')
        end) ps)
  end.
End jdata_ind.

(** ** Reading and writing *)

(** [d ? ... : ...]. *)
Definition truthy (d : jdata) : bool :=
  match d with
  | DUndefined | DNull => false
  | DBool b => b
  | DNumber n => negb (num_eqb n (num_of_Z 0) || is_nan n)
  | DString s => match s with [] => false | _ => true end
  | DArray _ | DObject _ => true
  end.

Definition is_undefined (d : jdata) : bool := match d with DUndefined => true | _ => false end.

(** [d === "s"]. *)
Definition is_string (s : jsstr) (d : jdata) : bool :=
  match d with DString t => jseqb t s | _ => false end.

(** [d[k]] for a name that is not inherited, where [d] is not [undefined] or
    [null]; the properties of primitive values are not read. *)
Definition dget (d : jdata) (k : jsstr) : jdata :=
  match d with
  | DObject ps => default DUndefined (assoc_get ps k)
  | DArray es => match array_index k with
                 | Some i => default DUndefined (es !! Z.to_nat i)
                 | None => DUndefined
                 end
  | _ => DUndefined
  end.

(** The names of [for (k in d)] and of [Object.keys(d)]. *)
Definition dkeys (d : jdata) : list jsstr :=
  match d with
  | DObject ps => order_keys ps.*1
  | DArray es => indices (length es)
  | _ => []
  end.

(** [o[k] = v] on an object: a key [__proto__] reaches the setter that is
    inherited and makes no property. *)
Definition dset (ps : list (jsstr * jdata)) (k : jsstr) (v : jdata) : list (jsstr * jdata) :=
  if jseqb k proto_key then ps else assoc_set ps k v.

(** [String(d)].  An object with a property [toString] of its own, which is no
    function here, cannot be converted. *)
Fixpoint dstring (d : jdata) : outcome native_error jsstr :=
  match d with
  | DUndefined => Ret (js "undefined")
  | DNull => Ret (js "null")
  | DBool b => Ret (js (if b then "true" else "false"))
  | DNumber n => Ret (num_toString n)
  | DString s => Ret s
  | DArray es =>
      ss ← (fix go (es : list jdata) : outcome native_error (list jsstr) :=
              match es with
              | [] => Ret []
              | e :: es' =>
                  s ← match e with DUndefined | DNull => Ret [] | _ => dstring e end;
                  ss ← go es'; Ret (s :: ss)
              end) es;
      Ret (join [44] ss)
  | DObject ps => if assoc_has ps (js "toString") then Throw cannot_convert
                  else Ret (js "[object Object]")
  end.

(** ** The utility module *)

Definition isObject (d : jdata) : bool := match d with DArray _ | DObject _ => true | _ => false end.

(** Data is not one of the immutable collections. *)
Definition objectify (thing : jdata) : jdata := if isObject thing then thing else DObject [].

Definition normalizeArray (arr : jdata) : list jdata :=
  match arr with DArray es => es | d => [d] end.

(** [Object.assign({}, input)]. *)
Definition assign_copy (ps : list (jsstr * jdata)) : list (jsstr * jdata) :=
  foldl (fun o k => dset o k (dget (DObject ps) k)) [] (order_keys ps.*1).

Section strip.
Variable keyToStrip : jsstr.
Variable predicate : jdata -> jsstr -> bool.

(** The properties of [input] that are kept, each one stripped; arrays are given
    back as they are. *)
Fixpoint deeplyStripKey (input : jdata) : jdata :=
  match input with
  | DObject ps =>
      match keyToStrip with
      | [] => input
      | _ =>
          let stripped :=
            (fix go (ps : list (jsstr * jdata)) : list (jsstr * jdata) :=
               match ps with
               | [] => []
               | (k, v) :: ps' =>
                   if jseqb k keyToStrip && predicate v k then go ps'
                   else (k, deeplyStripKey v) :: go ps'
               end) ps in
          DObject (assign_copy stripped)
      end
  | _ => input
  end.
End strip.

(** ** Depth *)

(** How deep the data is nested. *)
Fixpoint depth (d : jdata) : nat :=
  match d with
  | DArray es => S ((fix go (es : list jdata) := match es with [] => O | e :: es' => Nat.max (depth e) (go es') end) es)
  | DObject ps => S ((fix go (ps : list (jsstr * jdata)) :=
                        match ps with [] => O | (_, v) :: ps' => Nat.max (depth v) (go ps') end) ps)
  | _ => 1%nat
  end.

Lemma depth_array_eq es : depth (DArray es) = S (foldr (fun e n => Nat.max (depth e) n) O es).
Proof. done. Qed.

Lemma depth_object_eq ps : depth (DObject ps) = S (foldr (fun p n => Nat.max (depth p.2) n) O ps).
Proof. simpl. f_equal. induction ps as [|[k v] ps IH]; simpl; [done|by rewrite IH]. Qed.

Lemma depth_elem es e : e ∈ es -> (depth e < depth (DArray es))%nat.
Proof.
  rewrite depth_array_eq. induction 1 as [e es|e e' es _ IH]; simpl; lia.
Qed.

Lemma depth_prop ps k v : assoc_get ps k = Some v -> (depth v < depth (DObject ps))%nat.
Proof.
  rewrite depth_object_eq. induction ps as [|[k' v'] ps IH]; simpl; [done|].
  destruct (jseqb k' k); [intros [= ->]; lia|]. intros H. specialize (IH H). lia.
Qed.

Lemma depth_pos d : (1 <= depth d)%nat.
Proof. destruct d; simpl; lia. Qed.

Lemma depth_get d k : dget d k <> DUndefined -> (depth (dget d k) < depth d)%nat.
Proof.
  destruct d as [| | | | |es|ps]; try done; cbn [dget].
  - destruct (array_index k); [|done]. destruct (es !! Z.to_nat z) as [e|] eqn:E; [|done].
    intros _. cbn [default]. by apply depth_elem, (list_elem_of_lookup_2 es (Z.to_nat z)).
  - destruct (assoc_get ps k) as [v|] eqn:E; [|done]. intros _. by eapply depth_prop.
Qed.

Lemma depth_objectify d : (depth (objectify d) <= depth d)%nat.
Proof. unfold objectify. destruct d; simpl; lia. Qed.
