(* ===== verification/JsonSchema.v ===== *)
(** * JSON Schema: when a value is valid

    The meaning of a schema of an API description, as the specifications of JSON
    Schema and OpenAPI give it: an executable check of a value against the keywords
    of its schema.  The page has no such check; it is what the examples the page
    makes are measured by.  Keywords that are annotations ([format], [title],
    [default], ...) do not restrict the values.  The regular expressions of [pattern]
    are a parameter. *)

From Stdlib Require Import Floats.SpecFloat.
From S2P Require Import JsPrelude JsNumber JsValue JsUnicode SwaggerData.

(** ** Values *)

(** Equality of JSON values: the order of the properties does not matter. *)
Fixpoint json_equal (a b : jdata) : bool :=
  match a, b with
  | DNull, DNull => true
  | DBool x, DBool y => Bool.eqb x y
  | DNumber x, DNumber y => num_eqb x y
  | DString x, DString y => jseqb x y
  | DArray xs, DArray ys =>
      (fix go (xs ys : list jdata) : bool :=
         match xs, ys with
         | [], [] => true
         | x :: xs', y :: ys' => json_equal x y && go xs' ys'
         | _, _ => false
         end) xs ys
  | DObject ps, DObject qs =>
      Nat.eqb (length ps) (length qs)
      && (fix go (ps : list (jsstr * jdata)) : bool :=
            match ps with
            | [] => true
            | (k, x) :: ps' => match assoc_get qs k with
                               | Some y => json_equal x y && go ps'
                               | None => false
                               end
            end) ps
  | _, _ => false
  end.

Definition is_finite (n : num) : bool :=
  match n with S754_zero _ | S754_finite _ _ _ => true | _ => false end.

(** The types of JSON values; an integer is a number. *)
Definition json_type (type : jsstr) (v : jdata) : bool :=
  match v with
  | DUndefined => false
  | DNull => jseqb type (js "null")
  | DBool _ => jseqb type (js "boolean")
  | DNumber n => is_finite n && (jseqb type (js "number") || jseqb type (js "integer") && is_integral n)
  | DString _ => jseqb type (js "string")
  | DArray _ => jseqb type (js "array")
  | DObject _ => jseqb type (js "object")
  end.

(** A length is counted in characters. *)
Fixpoint characters (t : jsstr) : Z :=
  match t with
  | [] => 0
  | c :: t' => match t' with
               | d :: t'' => if is_lead c && is_trail d then 1 + characters t'' else 1 + characters t'
               | [] => 1
               end
  end.

(** Whether [n] is a whole number of times [m]. *)
Definition multiple_of (n m : num) : bool :=
  match n, m with
  | S754_zero _, _ => true
  | S754_finite _ a e, S754_finite _ b f =>
      let g := Z.min e f in
      (Z.shiftl (Zpos a) (e - g) mod Z.shiftl (Zpos b) (f - g) =? 0)
  | _, _ => false
  end.

(** ** Keywords *)

Section keywords.
Variable matches : jsstr -> jsstr -> bool.

Definition limit (s : jdata) (keyword : string) (test : num -> bool) : bool :=
  match dget s (js keyword) with DNumber b => test b | _ => true end.

Definition flag (s : jdata) (keyword : string) : bool := truthy (dget s (js keyword)).

Definition type_ok (s v : jdata) : bool :=
  match dget s (js "type") with
  | DUndefined => true
  | DString type => json_type type v
  | _ => false
  end.

Definition enum_ok (s v : jdata) : bool :=
  match dget s (js "enum") with DArray es => existsb (json_equal v) es | _ => true end.

Definition number_ok (s v : jdata) : bool :=
  match v with
  | DNumber n =>
      limit s "minimum" (fun m => if flag s "exclusiveMinimum" then SFltb m n else SFleb m n)
      && limit s "maximum" (fun m => if flag s "exclusiveMaximum" then SFltb n m else SFleb n m)
      && limit s "multipleOf" (multiple_of n)
  | _ => true
  end.

(** The bounds on a length, a number of elements or a number of properties. *)
Definition count_ok (s : jdata) (least most : string) (n : Z) : bool :=
  limit s least (fun m => SFleb m (num_of_Z n)) && limit s most (fun m => SFleb (num_of_Z n) m).

Definition string_ok (s v : jdata) : bool :=
  match v with
  | DString t =>
      count_ok s "minLength" "maxLength" (characters t)
      && match dget s (js "pattern") with DString p => matches p t | _ => true end
  | _ => true
  end.

(** The schema of a property. *)
Definition declared (s : jdata) (name : jsstr) : option jdata :=
  match dget s (js "properties") with DObject ps => assoc_get ps name | _ => None end.

Section parts.
Variable rec : jdata -> jdata -> bool.

Fixpoint different (vs : list jdata) : bool :=
  match vs with
  | [] => true
  | v :: vs' => negb (existsb (json_equal v) vs') && different vs'
  end.

Definition array_ok (s v : jdata) : bool :=
  match v with
  | DArray vs =>
      count_ok s "minItems" "maxItems" (strlen vs)
      && (negb (flag s "uniqueItems") || different vs)
      && match dget s (js "items") with DObject ps => forallb (rec (DObject ps)) vs | _ => true end
  | _ => true
  end.

Definition field_ok (s : jdata) (field : jsstr * jdata) : bool :=
  match declared s field.1 with
  | Some p => rec p field.2
  | None => match dget s (js "additionalProperties") with
            | DBool b => b
            | DObject ps => rec (DObject ps) field.2
            | _ => true
            end
  end.

Definition required_ok (s : jdata) (fields : list (jsstr * jdata)) : bool :=
  match dget s (js "required") with
  | DArray names =>
      forallb (fun n => match n with DString name => assoc_has fields name | _ => false end) names
  | _ => true
  end.

Definition object_ok (s v : jdata) : bool :=
  match v with
  | DObject fields =>
      count_ok s "minProperties" "maxProperties" (strlen fields)
      && required_ok s fields && forallb (field_ok s) fields
  | _ => true
  end.

Definition schemas (s : jdata) (keyword : string) : option (list jdata) :=
  match dget s (js keyword) with DArray es => Some es | _ => None end.

Definition combined_ok (s v : jdata) : bool :=
  match schemas s "allOf" with Some es => forallb (fun e => rec e v) es | None => true end
  && match schemas s "anyOf" with Some es => existsb (fun e => rec e v) es | None => true end
  && match schemas s "oneOf" with
     | Some es => Nat.eqb (length (List.filter (fun e => rec e v) es)) 1
     | None => true
     end
  && match dget s (js "not") with DObject ps => negb (rec (DObject ps) v) | _ => true end.

Definition schema_ok (s v : jdata) : bool :=
  match s with
  | DObject _ =>
      type_ok s v && enum_ok s v && number_ok s v && string_ok s v
      && array_ok s v && object_ok s v && combined_ok s v
  | _ => false
  end.
End parts.

Fixpoint valid (fuel : nat) (s v : jdata) : bool :=
  match fuel with
  | O => false
  | S fuel' => schema_ok (valid fuel') s v
  end.

(** A schema has no references, so its depth bounds the recursion. *)
Definition validate (s v : jdata) : bool := valid (S (depth s)) s v.
End keywords.

(** ** Schemas without some keywords *)

Definition without (s : jdata) (keywords : list string) : Prop :=
  Forall (fun k => dget s (js k) = DUndefined) keywords.

Lemma without_in s keywords k : without s keywords -> k ∈ keywords -> dget s (js k) = DUndefined.
Proof. intros Hw Hin. exact (proj1 (Forall_forall _ _) Hw k Hin). Qed.

Lemma without_incl s keywords keywords' : without s keywords -> keywords' ⊆ keywords -> without s keywords'.
Proof. intros Hw Hs. apply Forall_forall. intros k Hk. by eapply without_in, Hs. Qed.

Lemma without_drop s k keywords : without s (k :: keywords) -> without s keywords.
Proof. apply Forall_inv_tail. Qed.

Definition combinators : list string := ["allOf"; "anyOf"; "oneOf"; "not"]%string.

Lemma combined_ok_none rec s v : without s combinators -> combined_ok rec s v = true.
Proof.
  unfold without, combinators. rewrite !Forall_cons. intros (H1 & H2 & H3 & H4 & _).
  unfold combined_ok, schemas. by rewrite H1, H2, H3, H4.
Qed.

Lemma enum_ok_none s v : dget s (js "enum") = DUndefined -> enum_ok s v = true.
Proof. unfold enum_ok. by intros ->. Qed.

Lemma limit_none s k test : dget s (js k) = DUndefined -> limit s k test = true.
Proof. unfold limit. by intros ->. Qed.

Lemma count_ok_none s least most n : without s [least; most] -> count_ok s least most n = true.
Proof.
  unfold without. rewrite !Forall_cons. intros (H1 & H2 & _). unfold count_ok. by rewrite !limit_none.
Qed.

(** A valid value has the type of the schema. *)
Lemma valid_type matches fuel s v type : valid matches fuel s v = true ->
  dget s (js "type") = DString type -> json_type type v = true.
Proof.
  destruct fuel as [|fuel]; [done|]. cbn [valid]. unfold schema_ok. destruct s; try done.
  rewrite !andb_true_iff. intros [[[[[[Ht _] _] _] _] _] _] E. unfold type_ok in Ht. by rewrite E in Ht.
Qed.

(** Types that no value shares. *)
Definition disjoint_types (s s' : jdata) : Prop :=
  exists t t', dget s (js "type") = DString t /\ dget s' (js "type") = DString t'
    /\ t <> t' /\ ~ (t ∈ [js "number"; js "integer"] /\ t' ∈ [js "number"; js "integer"]).

Lemma json_type_disjoint t t' v : json_type t v = true -> json_type t' v = true ->
  t = t' \/ t ∈ [js "number"; js "integer"] /\ t' ∈ [js "number"; js "integer"].
Proof.
  destruct v; cbn [json_type]; try done; try (intros ->%jseqb_eq ->%jseqb_eq; by left).
  intros [_ H]%andb_true_iff [_ H']%andb_true_iff. right. rewrite !elem_of_cons.
  rewrite orb_true_iff, andb_true_iff, !jseqb_eq in *. tauto.
Qed.

Lemma disjoint_invalid matches fuel fuel' s s' v : disjoint_types s s' ->
  valid matches fuel s v = true -> valid matches fuel' s' v = false.
Proof.
  intros (t & t' & Ht & Ht' & Hne & Hn) Hv. destruct (valid matches fuel' s' v) eqn:E; [|done].
  exfalso. pose proof (valid_type _ _ _ _ _ Hv Ht). pose proof (valid_type _ _ _ _ _ E Ht').
  by destruct (json_type_disjoint t t' v).
Qed.

(** Scalars are equal to themselves. *)
Lemma json_equal_scalar t v : json_type t v = true -> ~ t ∈ [js "array"; js "object"] -> json_equal v v = true.
Proof.
  rewrite !not_elem_of_cons. destruct v as [| |b|n|s|es|ps]; cbn [json_type json_equal]; try done.
  - by destruct b.
  - intros [Hf _]%andb_true_iff _. unfold num_eqb. destruct n as [| | |[] m e]; try done; simpl;
      by rewrite Z.compare_refl, Pos.compare_refl.
  - intros _ _. apply jseqb_refl.
  - intros ->%jseqb_eq. tauto.
  - intros ->%jseqb_eq. tauto.
Qed.
