(* ===== verification/SwaggerSample.v ===== *)
(** * Swagger UI: examples for a schema

    [sampleFromSchema] makes the example value that the page shows for the schema
    of a request or response.  The schema is plain data; the time of day is a
    parameter, and so is what the functions return that every object inherits
    (a schema could name one of them as its type). *)

From stdpp Require Import sets.
From Stdlib Require Import Floats.SpecFloat.
From S2P Require Import JsPrelude JsNumber JsValue SwaggerData.

Record sample_config : Type := mkSampleConfig {
  includeReadOnly : bool;
  includeWriteOnly : bool
}.

Section sample.
Variable now : jsstr.
Variable call_inherited : jsstr -> jdata -> outcome native_error jdata.

(** The functions of [Object.prototype]. *)
Definition inherited_names : list jsstr :=
  js <$> ["constructor"; "hasOwnProperty"; "isPrototypeOf"; "propertyIsEnumerable"; "toLocaleString";
          "toString"; "valueOf"; "__defineGetter__"; "__defineSetter__"; "__lookupGetter__";
          "__lookupSetter__"]%string.

Definition sample_boolean (schema : jdata) : jdata :=
  match dget schema (js "default") with DBool b => DBool b | _ => DBool true end.

(** [primitives[name]], when it is a function. *)
Definition primitives (name : jsstr) : option (jdata -> outcome native_error jdata) :=
  if jseqb name (js "string") then Some (fun _ => Ret (DString (js "string")))
  else if jseqb name (js "string_email") then Some (fun _ => Ret (DString (js "user@example.com")))
  else if jseqb name (js "string_date-time") then Some (fun _ => Ret (DString now))
  else if jseqb name (js "number") then Some (fun _ => Ret (DNumber (num_of_Z 0)))
  else if jseqb name (js "number_float") then Some (fun _ => Ret (DNumber (num_of_Z 0)))
  else if jseqb name (js "integer") then Some (fun _ => Ret (DNumber (num_of_Z 0)))
  else if jseqb name (js "boolean") then Some (fun schema => Ret (sample_boolean schema))
  else if bool_decide (name ∈ inherited_names) then Some (call_inherited name)
  else None.

Definition primitive (schema : jdata) : outcome native_error jdata :=
  let schema := objectify schema in
  type ← dstring (dget schema (js "type"));
  format ← dstring (dget schema (js "format"));
  let fn := match primitives (type ++ js "_" ++ format) with
            | Some fn => Some fn
            | None => primitives type
            end in
  match fn with
  | Some fn => fn schema
  | None => Ret (DString (js "Unknown Type: " ++ type))
  end.

(** [typeof val === "string" && val.indexOf("#") > -1]. *)
Definition names_definition (val : jdata) (_ : jsstr) : bool :=
  match val with DString s => negb (indexOf s 35 =? -1) | _ => false end.

(** The type, or the one its other properties suggest. *)
Definition schema_type (o : jdata) : option jdata :=
  if truthy (dget o (js "type")) then Some (dget o (js "type"))
  else if truthy (dget o (js "properties")) then Some (DString (js "object"))
  else if truthy (dget o (js "items")) then Some (DString (js "array"))
  else None.

(** The properties that are left out. *)
Definition hidden (config : sample_config) (p : jdata) : bool :=
  truthy p && truthy (dget p (js "deprecated"))
  || truthy p && truthy (dget p (js "readOnly")) && negb (includeReadOnly config)
  || truthy p && truthy (dget p (js "writeOnly")) && negb (includeWriteOnly config).

Section body.
Variable config : sample_config.
Variable rec : jdata -> outcome native_error jdata.

(** [for (var name in props)]. *)
Fixpoint sample_props (props : jdata) (names : list jsstr) (obj : list (jsstr * jdata))
    : outcome native_error (list (jsstr * jdata)) :=
  match names with
  | [] => Ret obj
  | name :: names' =>
      if hidden config (dget props name) then sample_props props names' obj
      else v ← rec (dget props name); sample_props props names' (dset obj name v)
  end.

Definition additional_names : list jsstr :=
  js <$> ["additionalProp1"; "additionalProp2"; "additionalProp3"]%string.

Definition sample_additional (additionalProperties : jdata) (obj : list (jsstr * jdata))
    : outcome native_error (list (jsstr * jdata)) :=
  match additionalProperties with
  | DBool true => Ret (dset obj (js "additionalProp1") (DObject []))
  | _ =>
      if truthy additionalProperties then
        v ← rec (objectify additionalProperties);
        Ret (foldl (fun obj name => dset obj name v) obj additional_names)
      else Ret obj
  end.

(** [array.map(sampleFromSchema)]. *)
Fixpoint sample_each (es : list jdata) : outcome native_error (list jdata) :=
  match es with
  | [] => Ret []
  | e :: es' => v ← rec e; vs ← sample_each es'; Ret (v :: vs)
  end.

(** The schemas of the elements of an array. *)
Definition item_schemas (items : jdata) : list jdata :=
  match dget items (js "anyOf") with
  | DArray es => es
  | _ => match dget items (js "oneOf") with
         | DArray es => es
         | _ => [items]
         end
  end.

Definition sample_array (items : jdata) : outcome native_error jdata :=
  match items with
  | DUndefined | DNull => Throw (TypeError (js "Cannot read property 'anyOf' of " ++
                                 js (match items with DNull => "null" | _ => "undefined" end)))
  | _ => vs ← sample_each (item_schemas items); Ret (DArray vs)
  end.

Definition sample_body (schema : jdata) : outcome native_error jdata :=
  let o := objectify schema in
  let example := dget o (js "example") in
  if negb (is_undefined example) then Ret (deeplyStripKey (js "$$ref") names_definition example)
  else
    match schema_type o with
    | None => Ret DUndefined
    | Some type =>
        if is_string (js "object") type then
          let props := objectify (dget o (js "properties")) in
          obj ← sample_props props (dkeys props) [];
          obj ← sample_additional (dget o (js "additionalProperties")) obj;
          Ret (DObject obj)
        else if is_string (js "array") type then sample_array (dget o (js "items"))
        else if truthy (dget schema (js "enum")) then
          if truthy (dget schema (js "default")) then Ret (dget schema (js "default"))
          else Ret (default DUndefined (normalizeArray (dget schema (js "enum")) !! 0%nat))
        else if is_string (js "file") type then Ret DUndefined
        else primitive schema
    end.
End body.

Fixpoint sample (fuel : nat) (config : sample_config) (schema : jdata) : outcome native_error jdata :=
  match fuel with
  | O => OutOfFuel
  | S fuel' => sample_body config (sample fuel' config) schema
  end.

Definition sampleFromSchema (schema : jdata) (config : sample_config) : outcome native_error jdata :=
  sample (S (depth schema)) config schema.
End sample.
