(* ===== verification/SwaggerSampleTheory.v ===== *)
(** * Swagger UI: the examples are valid

    An example is measured by the meaning of its schema (JsonSchema): for schemas
    that keep to the keywords the page looks at, the example is valid, and its fields
    are those of the properties that may be shown. *)

From stdpp Require Import sets.
From Stdlib Require Import Floats.SpecFloat.
From S2P Require Import JsPrelude JsNumber JsValue SwaggerData JsonSchema SwaggerSample.

(** ** The schemas *)

(** The properties an example may show: none that is deprecated, those that are read
    only or write only when they are asked for. *)
Definition visible (config : sample_config) (p : jdata) : Prop :=
  flag p "deprecated" = false
  /\ (flag p "readOnly" = true -> includeReadOnly config = true)
  /\ (flag p "writeOnly" = true -> includeWriteOnly config = true).

Lemma hidden_visible config p : hidden config p = false <-> visible config p.
Proof.
  unfold hidden, visible, flag. destruct (truthy p) eqn:Ep.
  - simpl. destruct (truthy (dget p (js "deprecated"))), (truthy (dget p (js "readOnly"))),
      (truthy (dget p (js "writeOnly"))), (includeReadOnly config), (includeWriteOnly config);
      simpl; intuition congruence.
  - assert (Hd : forall k, dget p k = DUndefined) by (intros k; by destruct p).
    rewrite !Hd. simpl. intuition congruence.
Qed.

Definition scalar_types : list jsstr := js <$> ["string"; "number"; "integer"; "boolean"]%string.

Definition object_typed (o : jdata) : Prop :=
  dget o (js "type") = DString (js "object")
  \/ dget o (js "type") = DUndefined /\ exists ps, dget o (js "properties") = DObject ps.

Definition array_typed (o : jdata) : Prop :=
  dget o (js "type") = DString (js "array")
  \/ dget o (js "type") = DUndefined /\ dget o (js "properties") = DUndefined.

Definition additional_kind (o : jdata) : Prop :=
  match dget o (js "additionalProperties") with
  | DUndefined | DBool _ | DObject _ => True
  | _ => False
  end.

(** The fields that stand for additional properties. *)
Definition extra_names (o : jdata) : list jsstr :=
  match dget o (js "additionalProperties") with
  | DBool true => [js "additionalProp1"]
  | DObject _ => additional_names
  | _ => []
  end.

(** A property that has a field in the example. *)
Definition has_field (config : sample_config) (o : jdata) (name : jsstr) : Prop :=
  name <> proto_key /\ exists p, declared o name = Some p /\ visible config p.

(** The keywords that none of the schemas has: an example is shown as it is, and the
    page does not look at the combinations of a schema with others. *)
Definition ignored_keywords : list string := "example" :: combinators.

(** The keywords that restrict the values of a schema by itself, and those that do so
    beside a list of alternatives. *)
Definition value_keywords : list string :=
  ["type"; "enum"; "minimum"; "maximum"; "multipleOf"; "minLength"; "maxLength"; "pattern"; "minItems";
   "maxItems"; "uniqueItems"; "items"; "minProperties"; "maxProperties"; "required"; "properties";
   "additionalProperties"]%string.

Definition restricting (alternatives : string) : list string :=
  value_keywords ++ List.filter (fun k => negb (String.eqb k alternatives)) combinators.

Section plain.
Variable matches : jsstr -> jsstr -> bool.
Variable config : sample_config.

(** The schemas that keep to what the page looks at.  An object names in [required]
    only properties that are shown, and no property as the fields for additional
    properties are named; an enumeration has members of the type, and its default is
    one of them; the bounds of a number allow 0. *)
Inductive plain_schema : jdata -> Prop :=
| plain_object ps :
    let o := DObject ps in
    without o ("enum" :: "minProperties" :: "maxProperties" :: ignored_keywords) ->
    object_typed o ->
    (dget o (js "properties") = DUndefined \/ exists qs, dget o (js "properties") = DObject qs) ->
    (forall name p, declared o name = Some p -> visible config p -> plain_schema p) ->
    additional_kind o ->
    (forall qs, dget o (js "additionalProperties") = DObject qs -> plain_schema (DObject qs)) ->
    (forall name, name ∈ extra_names o -> declared o name = None) ->
    (forall names n, dget o (js "required") = DArray names -> n ∈ names ->
       exists name, n = DString name /\ has_field config o name) ->
    plain_schema o
| plain_array ps qs :
    let o := DObject ps in
    without o ("enum" :: "uniqueItems" :: ignored_keywords) ->
    array_typed o ->
    dget o (js "items") = DObject qs ->
    count_ok o "minItems" "maxItems" 1 = true ->
    plain_schema (DObject qs) ->
    plain_schema o
| plain_array_any ps qs es :
    let o := DObject ps in
    without o ("enum" :: "uniqueItems" :: ignored_keywords) ->
    array_typed o ->
    dget o (js "items") = DObject qs ->
    count_ok o "minItems" "maxItems" (strlen es) = true ->
    without (DObject qs) (restricting "anyOf") -> dget (DObject qs) (js "anyOf") = DArray es ->
    (forall s, s ∈ es -> plain_schema s) ->
    plain_schema o
| plain_array_one ps qs es :
    let o := DObject ps in
    without o ("enum" :: "uniqueItems" :: ignored_keywords) ->
    array_typed o ->
    dget o (js "items") = DObject qs ->
    count_ok o "minItems" "maxItems" (strlen es) = true ->
    without (DObject qs) (restricting "oneOf") -> dget (DObject qs) (js "oneOf") = DArray es ->
    (forall s, s ∈ es -> plain_schema s) ->
    (forall i j s s', es !! i = Some s -> es !! j = Some s' -> i <> j -> disjoint_types s s') ->
    plain_schema o
| plain_enum ps type e es :
    let o := DObject ps in
    without o ignored_keywords ->
    dget o (js "type") = DString type -> type ∈ scalar_types ->
    dget o (js "enum") = DArray (e :: es) ->
    (forall v, v ∈ e :: es -> json_type type v && number_ok o v && string_ok matches o v = true) ->
    (truthy (dget o (js "default")) = true -> dget o (js "default") ∈ e :: es) ->
    plain_schema o
| plain_scalar ps type :
    let o := DObject ps in
    without o ("enum" :: "minLength" :: "maxLength" :: "pattern" :: ignored_keywords) ->
    dget o (js "type") = DString type -> type ∈ scalar_types ->
    number_ok o (DNumber (num_of_Z 0)) = true ->
    (exists s, dstring (dget o (js "format")) = Ret s) ->
    plain_schema o.
End plain.

(** ** The pieces of an example *)

Lemma dset_keys ps k v name :
  name ∈ (dset ps k v).*1 <-> (name = k /\ k <> proto_key) \/ name ∈ ps.*1.
Proof.
  unfold dset. destruct (jseqb k proto_key) eqn:E.
  - apply jseqb_eq in E. naive_solver.
  - apply jseqb_neq in E. rewrite <- !assoc_get_Some_key, assoc_get_set.
    destruct (jseqb k name) eqn:E'.
    + apply jseqb_eq in E' as ->. naive_solver.
    + apply jseqb_neq in E'. naive_solver.
Qed.

Lemma assoc_set_elem {A} (ps : list (jsstr * A)) k v name w :
  (name, w) ∈ assoc_set ps k v -> (name = k /\ w = v) \/ (name, w) ∈ ps.
Proof.
  induction ps as [|[k' v'] ps IH]; simpl.
  - rewrite list_elem_of_singleton. intros [= -> ->]. by left.
  - destruct (jseqb k' k) eqn:E; rewrite !elem_of_cons.
    + apply jseqb_eq in E as ->. intros [[= -> ->]|H]; auto.
    + intros [H|H]; [auto|]. destruct (IH H); auto.
Qed.

Lemma dset_elem ps k v name w :
  (name, w) ∈ dset ps k v -> (name = k /\ w = v /\ k <> proto_key) \/ (name, w) ∈ ps.
Proof.
  unfold dset. destruct (jseqb k proto_key) eqn:E; [by right|]. apply jseqb_neq in E.
  intros [[-> ->]|H]%assoc_set_elem; auto.
Qed.

(** The loop over the properties: it makes a field of every property that is
    shown, with what [rec] gives for it, and keeps the fields it was given. *)
Lemma sample_props_spec config rec props names : forall obj,
  (forall name, name ∈ names -> hidden config (dget props name) = false ->
     exists v, rec (dget props name) = Ret v) ->
  exists fields, sample_props config rec props names obj = Ret fields
    /\ (forall name, name ∈ fields.*1 <-> name ∈ obj.*1
          \/ name ∈ names /\ name <> proto_key /\ hidden config (dget props name) = false)
    /\ (forall name v, (name, v) ∈ fields -> (name, v) ∈ obj
          \/ name ∈ names /\ name <> proto_key /\ hidden config (dget props name) = false
             /\ rec (dget props name) = Ret v).
Proof.
  induction names as [|n names IH]; intros obj Hr.
  - exists obj. split_and!; [done| |by left].
    intros name. rewrite elem_of_nil. tauto.
  - assert (Hr' : forall name, name ∈ names -> hidden config (dget props name) = false ->
      exists v, rec (dget props name) = Ret v)
      by (intros name Hin; apply Hr; by right).
    simpl. destruct (hidden config (dget props n)) eqn:Hh.
    + destruct (IH obj Hr') as (fields & E & Hk & Hf). exists fields. split_and!; [done| |].
      * intros name. rewrite Hk, elem_of_cons. split; [tauto|].
        intros [?|([->|?] & ? & Hx)]; [auto|congruence|auto].
      * intros name v Hin. rewrite elem_of_cons. destruct (Hf name v Hin); tauto.
    + destruct (Hr n) as [v Hv]; [by left|done|]. rewrite Hv. simpl.
      destruct (IH (dset obj n v) Hr') as (fields & E & Hk & Hf). exists fields. split_and!; [done| |].
      * intros name. rewrite Hk, dset_keys, elem_of_cons. split.
        -- intros [[[-> ?]|?]|?]; tauto.
        -- intros [?|([->|?] & ? & ?)]; tauto.
      * intros name w Hin. rewrite elem_of_cons. destruct (Hf name w Hin) as [Hd|Hd]; [|tauto].
        destruct (dset_elem _ _ _ _ _ Hd) as [(-> & -> & ?)|?]; tauto.
Qed.

Lemma dset_all_elem names (w : jdata) name v : forall obj,
  (name, v) ∈ foldl (fun obj name => dset obj name w) obj names ->
  (name ∈ names /\ v = w) \/ (name, v) ∈ obj.
Proof.
  induction names as [|n names IH]; intros obj; simpl; [by right|]. intros H.
  rewrite elem_of_cons. destruct (IH _ H) as [?|Hd]; [tauto|].
  destruct (dset_elem _ _ _ _ _ Hd) as [(-> & -> & _)|?]; tauto.
Qed.

Lemma dset_all_names names (w : jdata) name : Forall (fun n => n <> proto_key) names -> forall obj,
  name ∈ (foldl (fun obj name => dset obj name w) obj names).*1 <-> name ∈ obj.*1 \/ name ∈ names.
Proof.
  induction 1 as [|n names Hn _ IH]; intros obj; simpl; [rewrite elem_of_nil; tauto|].
  rewrite IH, dset_keys, elem_of_cons. split; [tauto|]. intros [?|[->|?]]; auto.
Qed.

Lemma additional_no_proto : Forall (fun n => n <> proto_key) additional_names.
Proof. repeat constructor; discriminate. Qed.

(** The fields of [additionalProperties]. *)
Lemma sample_additional_spec rec o obj :
  additional_kind o ->
  (forall ps, dget o (js "additionalProperties") = DObject ps -> exists v, rec (DObject ps) = Ret v) ->
  exists fields, sample_additional rec (dget o (js "additionalProperties")) obj = Ret fields
    /\ (forall name, name ∈ fields.*1 <-> name ∈ obj.*1 \/ name ∈ extra_names o)
    /\ (forall name v, (name, v) ∈ fields -> (name, v) ∈ obj
          \/ name ∈ extra_names o /\ forall ps, dget o (js "additionalProperties") = DObject ps -> rec (DObject ps) = Ret v).
Proof.
  unfold additional_kind, extra_names. intros Hk Hr.
  destruct (dget o (js "additionalProperties")) as [| |[]| | | |ps]; try done;
    cbn [sample_additional truthy objectify isObject].
  - exists obj. split_and!; [done| |auto]. intros name. rewrite elem_of_nil. tauto.
  - eexists. split_and!; [done| |].
    + intros name. rewrite dset_keys, list_elem_of_singleton. split; [tauto|].
      intros [?| ->]; [by right|by left].
    + intros name v [(-> & -> & _)|H]%dset_elem; [|auto]. right. split; [|done].
      by apply list_elem_of_singleton.
  - exists obj. split_and!; [done| |auto]. intros name. rewrite elem_of_nil. tauto.
  - destruct (Hr ps eq_refl) as [w Hw]. rewrite Hw. eexists. split_and!; [done| |].
    + intros name. apply dset_all_names. apply additional_no_proto.
    + intros name v [[Ha ->]|Hin]%dset_all_elem; [|auto]. right. split; [done|]. by intros ps' [= <-].
Qed.

Lemma sample_each_spec rec es (P : jdata -> jdata -> Prop) :
  (forall e, e ∈ es -> exists v, rec e = Ret v /\ P e v) ->
  exists vs, sample_each rec es = Ret vs /\ Forall2 P es vs.
Proof.
  induction es as [|e es IH]; intros Hr; [by exists []; split; [|constructor]|].
  destruct (Hr e ltac:(set_solver)) as (v & Hv & Hp).
  destruct (IH ltac:(set_solver)) as (vs & Hvs & Hf).
  exists (v :: vs). simpl. rewrite Hv. simpl. rewrite Hvs. simpl. split; [done|by constructor].
Qed.

(** ** The keywords, one kind of value at a time *)

(** A name that is written in the list. *)
Ltac listed := repeat first [apply list_elem_of_here|apply list_elem_of_further].

(** The last keywords of those a hypothesis says are not there. *)
Ltac last_keywords := repeat first [eassumption|eapply without_drop].

Lemma scalar_not_container type : type ∈ scalar_types -> ~ type ∈ [js "array"; js "object"].
Proof.
  intros Ht. repeat (apply elem_of_cons in Ht as [->|Ht];
    [rewrite !elem_of_cons; intros [H|[H|H]]; [discriminate H..|by apply elem_of_nil in H]|]).
  by apply elem_of_nil in Ht.
Qed.

Lemma scalar_valid matches rec ps type v :
  let o := DObject ps in
  dget o (js "type") = DString type -> type ∈ scalar_types -> json_type type v = true ->
  enum_ok o v = true -> number_ok o v = true -> string_ok matches o v = true -> without o combinators ->
  schema_ok matches rec o v = true.
Proof.
  intros o Ht Hin Hv He Hn Hs Hc. unfold schema_ok, o. fold o. unfold type_ok.
  rewrite Ht, Hv, He, Hn, Hs, combined_ok_none by done. pose proof (scalar_not_container _ Hin) as Hno.
  destruct v; try done; apply jseqb_eq in Hv; subst type; destruct Hno; rewrite !elem_of_cons; auto.
Qed.

Lemma array_valid matches rec ps qs vs :
  let o := DObject ps in
  without o ("enum" :: "uniqueItems" :: ignored_keywords) -> array_typed o ->
  dget o (js "items") = DObject qs -> count_ok o "minItems" "maxItems" (strlen vs) = true ->
  Forall (fun v => rec (DObject qs) v = true) vs ->
  schema_ok matches rec o (DArray vs) = true.
Proof.
  intros o Hw Ht Hi Hc Hf. unfold schema_ok, o. fold o.
  rewrite enum_ok_none by (eapply without_in; [done|by left]).
  rewrite combined_ok_none by last_keywords.
  assert (Hty : type_ok o (DArray vs) = true)
    by (unfold type_ok; by destruct Ht as [->|[-> _]]; [apply jseqb_refl|]).
  rewrite Hty. cbn [number_ok string_ok object_ok andb]. rewrite !andb_true_r.
  unfold array_ok, flag. rewrite Hc, Hi, (without_in o _ "uniqueItems" Hw) by (right; by left).
  simpl. apply forallb_forall. intros v Hv%list_elem_of_In. by apply (proj1 (Forall_forall _ _) Hf).
Qed.

Lemma object_valid matches rec ps fields :
  let o := DObject ps in
  without o ("enum" :: "minProperties" :: "maxProperties" :: ignored_keywords) -> object_typed o ->
  required_ok o fields = true -> (forall name v, (name, v) ∈ fields -> field_ok rec o (name, v) = true) ->
  schema_ok matches rec o (DObject fields) = true.
Proof.
  intros o Hw Ht Hr Hf. unfold schema_ok, o. fold o.
  rewrite enum_ok_none by (eapply without_in; [done|by left]).
  rewrite combined_ok_none by last_keywords.
  assert (Hty : type_ok o (DObject fields) = true)
    by (unfold type_ok; by destruct Ht as [->|[-> _]]; [apply jseqb_refl|]).
  rewrite Hty. cbn [number_ok string_ok array_ok andb]. rewrite !andb_true_r. unfold object_ok.
  rewrite count_ok_none, Hr by (eapply without_incl; [done|set_solver]). simpl.
  apply forallb_forall. intros [name v] Hv%list_elem_of_In. by apply Hf.
Qed.

(** A schema that says nothing but its alternatives. *)
Lemma alternatives_ok matches rec qs kw v : without (DObject qs) (restricting kw) ->
  schema_ok matches rec (DObject qs) v = combined_ok rec (DObject qs) v.
Proof.
  intros Hw. assert (Hn : forall k, k ∈ value_keywords -> dget (DObject qs) (js k) = DUndefined).
  { intros k Hin. eapply without_in; [exact Hw|]. apply elem_of_app. by left. }
  unfold schema_ok, type_ok, enum_ok, number_ok, string_ok, array_ok, object_ok, count_ok, required_ok, flag.
  destruct v as [| | | | |vs|fields]; rewrite ?limit_none by (apply Hn; listed);
    rewrite !Hn by listed; try done.
  simpl andb.
  replace (forallb _ fields) with true; [done|]. symmetry. apply forallb_forall. intros f _.
  unfold field_ok, declared. by rewrite !Hn by listed.
Qed.

Lemma any_valid matches rec qs es v e :
  without (DObject qs) (restricting "anyOf") -> dget (DObject qs) (js "anyOf") = DArray es ->
  e ∈ es -> rec e v = true -> schema_ok matches rec (DObject qs) v = true.
Proof.
  intros Hw He Hin Hv. rewrite (alternatives_ok _ _ _ "anyOf") by done.
  unfold combined_ok, schemas. rewrite He.
  rewrite !(without_in _ _ _ Hw) by (vm_compute; listed). rewrite !andb_true_r. simpl.
  apply existsb_exists. exists e. split; [by apply list_elem_of_In|done].
Qed.

Lemma filter_one {A} (f : A -> bool) es i e : es !! i = Some e -> f e = true ->
  (forall j e', es !! j = Some e' -> j <> i -> f e' = false) -> length (List.filter f es) = 1%nat.
Proof.
  revert i. induction es as [|x es IH]; intros i Hi He Ho; [done|]. destruct i as [|i]; simpl in *.
  - injection Hi as ->. rewrite He. simpl. f_equal.
    assert (Hn : forall y, y ∈ es -> f y = false).
    { intros y [j Hj]%list_elem_of_lookup. by apply (Ho (S j)). }
    clear -Hn. induction es as [|y es IH]; [done|]. simpl. rewrite (Hn y) by (by left).
    apply IH. intros z Hz. apply Hn. by right.
  - rewrite (Ho 0%nat x) by done. apply (IH i); [done..|]. intros j e' Hj Hne. apply (Ho (S j)); [done|lia].
Qed.

Lemma one_valid matches rec qs es v i e :
  without (DObject qs) (restricting "oneOf") -> dget (DObject qs) (js "oneOf") = DArray es ->
  es !! i = Some e -> rec e v = true -> (forall j e', es !! j = Some e' -> j <> i -> rec e' v = false) ->
  schema_ok matches rec (DObject qs) v = true.
Proof.
  intros Hw He Hi Hv Ho. rewrite (alternatives_ok _ _ _ "oneOf") by done.
  unfold combined_ok, schemas. rewrite He.
  rewrite !(without_in _ _ _ Hw) by (vm_compute; listed). rewrite !andb_true_r. simpl.
  by rewrite (filter_one _ es i e).
Qed.

(** ** Scalars *)

(** What the page shows for a primitive type. *)
Definition sample_of (type : jsstr) (v : jdata) : Prop :=
  json_type type v = true /\ forall n, v = DNumber n -> n = num_of_Z 0.

Section examples.
Variable now : jsstr.
Variable call_inherited : jsstr -> jdata -> outcome native_error jdata.

Abbreviation primitives := (primitives now call_inherited).
Abbreviation primitive := (primitive now call_inherited).
Abbreviation sample := (sample now call_inherited).

(** A name of a type with a format is no other type and is not inherited. *)
Lemma format_is_new type s name : type ∈ scalar_types -> name ∈ scalar_types ++ inherited_names ->
  jseqb (type ++ js "_" ++ s) name = false.
Proof.
  intros Ht Hn. apply jseqb_neq. intros E.
  repeat (apply elem_of_cons in Ht as [->|Ht]; [
    repeat (apply elem_of_cons in Hn as [->|Hn]; [vm_compute in E; discriminate E|]); by apply elem_of_nil in Hn|]).
  by apply elem_of_nil in Ht.
Qed.

(** What the entry for a type with a format returns has the type. *)
Lemma format_sample type s schema fn : type ∈ scalar_types ->
  primitives (type ++ js "_" ++ s) = Some fn -> exists v, fn schema = Ret v /\ sample_of type v.
Proof.
  intros Ht. unfold primitives.
  rewrite !(format_is_new type s) by (done || (vm_compute; set_solver)).
  rewrite (bool_decide_eq_false_2 (_ ∈ inherited_names)).
  2:{ intros Hin. assert (Hn : type ++ js "_" ++ s ∈ scalar_types ++ inherited_names)
        by (apply elem_of_app; by right).
      pose proof (format_is_new type s _ Ht Hn) as H. by rewrite jseqb_refl in H. }
  repeat (apply elem_of_cons in Ht as [->|Ht]; [
    repeat (destruct (jseqb _ _) eqn:E; [
      apply jseqb_eq in E; first [vm_compute in E; discriminate E|intros [= <-]; eexists; (split; [done|]); split; [done|by intros n [= <-]]]|clear E]); done|]).
  by apply elem_of_nil in Ht.
Qed.

Lemma type_sample type schema fn : type ∈ scalar_types -> primitives type = Some fn ->
  exists v, fn schema = Ret v /\ sample_of type v.
Proof.
  intros Ht. repeat (apply elem_of_cons in Ht as [->|Ht]; [
    intros [= <-]; eexists; (split; [done|]); unfold sample_boolean; split;
    repeat case_match; try done; by intros n [= <-]|]).
  by apply elem_of_nil in Ht.
Qed.

Lemma type_known type : type ∈ scalar_types -> exists fn, primitives type = Some fn.
Proof.
  intros Ht. repeat (apply elem_of_cons in Ht as [->|Ht]; [by eexists|]). by apply elem_of_nil in Ht.
Qed.

Lemma primitive_sample ps type s :
  let o := DObject ps in
  dget o (js "type") = DString type -> type ∈ scalar_types -> dstring (dget o (js "format")) = Ret s ->
  exists v, primitive o = Ret v /\ sample_of type v.
Proof.
  intros o Ht Hin Hf. subst o. unfold primitive, mbind, outcome_bind.
  change (objectify (DObject ps)) with (DObject ps). rewrite Ht. cbn [dstring]. rewrite Hf.
  destruct (primitives (type ++ js "_" ++ s)) as [fn|] eqn:E; [by eapply format_sample|].
  destruct (type_known type Hin) as [fn E']. rewrite E'. by eapply type_sample.
Qed.


(** ** Depth *)

Lemma part_depth o k d : dget o k = d -> d <> DUndefined -> (depth d < depth o)%nat.
Proof. intros <-. apply depth_get. Qed.

Lemma declared_depth o name p : declared o name = Some p -> (depth p < depth o)%nat.
Proof.
  unfold declared. destruct (dget o (js "properties")) as [| | | | | |qs] eqn:E; try done.
  intros Hp%depth_prop. pose proof (part_depth _ _ _ E ltac:(done)). lia.
Qed.

Lemma alternative_depth o k qs k' es s : dget o k = DObject qs -> dget (DObject qs) k' = DArray es -> s ∈ es ->
  (depth s < depth o)%nat.
Proof.
  intros E E' Hin%depth_elem. pose proof (part_depth _ _ _ E ltac:(done)).
  pose proof (part_depth _ _ _ E' ltac:(done)). lia.
Qed.

(** ** Objects *)

Definition object_properties (o : jdata) : Prop :=
  dget o (js "properties") = DUndefined \/ exists qs, dget o (js "properties") = DObject qs.

Lemma declared_key o name : object_properties o ->
  name ∈ dkeys (objectify (dget o (js "properties"))) <-> exists p, declared o name = Some p.
Proof.
  unfold declared. intros [->|[qs ->]]; simpl.
  - split; [by intros ?%elem_of_nil|by intros [p Hp]].
  - by rewrite order_keys_elem, <- assoc_get_Some_key.
Qed.

Lemma declared_part o name p : declared o name = Some p ->
  dget (objectify (dget o (js "properties"))) name = p.
Proof. unfold declared. destruct (dget o (js "properties")); try done. simpl. by intros ->. Qed.

(** The object the page makes, when the examples of its parts are made. *)
Lemma object_example config rec o :
  object_properties o -> additional_kind o ->
  (forall name p, declared o name = Some p -> visible config p -> exists v, rec p = Ret v) ->
  (forall qs, dget o (js "additionalProperties") = DObject qs -> exists v, rec (DObject qs) = Ret v) ->
  exists f1 f2,
    sample_props config rec (objectify (dget o (js "properties")))
      (dkeys (objectify (dget o (js "properties")))) [] = Ret f1
    /\ sample_additional rec (dget o (js "additionalProperties")) f1 = Ret f2
    /\ (forall name, name ∈ f2.*1 <-> has_field config o name \/ name ∈ extra_names o)
    /\ (forall name v, (name, v) ∈ f2 ->
          (exists p, declared o name = Some p /\ visible config p /\ rec p = Ret v)
          \/ name ∈ extra_names o
             /\ forall qs, dget o (js "additionalProperties") = DObject qs -> rec (DObject qs) = Ret v).
Proof.
  intros Ho Hk Hp Ha. set (props := objectify (dget o (js "properties"))).
  assert (Hd : forall name, name ∈ dkeys props /\ hidden config (dget props name) = false
    <-> exists p, declared o name = Some p /\ visible config p).
  { intros name. unfold props. rewrite declared_key, hidden_visible by done. split.
    - intros [[p Hn] Hv]. rewrite (declared_part _ _ _ Hn) in Hv. by exists p.
    - intros (p & Hn & Hv). rewrite (declared_part _ _ _ Hn). eauto. }
  destruct (sample_props_spec config rec props (dkeys props) []) as (f1 & E1 & K1 & F1).
  { intros name Hn Hh. destruct (proj1 (Hd name) (conj Hn Hh)) as (p & Hdp & Hv).
    unfold props. rewrite (declared_part _ _ _ Hdp). by eapply Hp. }
  destruct (sample_additional_spec rec o f1 Hk Ha) as (f2 & E2 & K2 & F2).
  exists f1, f2. split_and!; [done|done| |].
  - intros name. rewrite K2, K1. unfold has_field. rewrite <- Hd, elem_of_nil. tauto.
  - intros name v [Hin|Hin]%F2; [left|by right].
    apply F1 in Hin as [Hin|(Hn & _ & Hh & Hr)]; [by apply elem_of_nil in Hin|].
    destruct (proj1 (Hd name) (conj Hn Hh)) as (p & Hdp & Hv). exists p. split_and!; [done|done|].
    unfold props in Hr. by rewrite (declared_part _ _ _ Hdp) in Hr.
Qed.

Lemma required_fields config o fields :
  (forall names n, dget o (js "required") = DArray names -> n ∈ names ->
     exists name, n = DString name /\ has_field config o name) ->
  (forall name, has_field config o name -> name ∈ fields.*1) -> required_ok o fields = true.
Proof.
  intros Hr Hf. unfold required_ok. destruct (dget o (js "required")) as [| | | | |names|] eqn:E; try done.
  apply forallb_forall. intros n Hn%list_elem_of_In. destruct (Hr names n eq_refl Hn) as (name & -> & Hh).
  apply Hf, assoc_get_Some_key in Hh. unfold assoc_has. by destruct Hh as [v ->].
Qed.

Lemma schema_type_object o : object_typed o -> schema_type o = Some (DString (js "object")).
Proof. unfold schema_type. by intros [->|[-> [ps ->]]]. Qed.

Lemma schema_type_array o qs : array_typed o -> dget o (js "items") = DObject qs ->
  schema_type o = Some (DString (js "array")).
Proof. unfold schema_type. by intros [->|[-> ->]] ->. Qed.

Lemma schema_type_scalar o type : dget o (js "type") = DString type -> type ∈ scalar_types ->
  schema_type o = Some (DString type)
  /\ forall name, name ∈ (js <$> ["object"; "array"; "file"]%string) -> is_string name (DString type) = false.
Proof.
  unfold schema_type. intros -> Ht.
  repeat (apply elem_of_cons in Ht as [->|Ht]; [split; [done|]; intros name Hn;
    repeat (apply elem_of_cons in Hn as [->|Hn]; [done|]); by apply elem_of_nil in Hn|]).
  by apply elem_of_nil in Ht.
Qed.

(** ** Every example is valid *)

Section valid.
Variable matches : jsstr -> jsstr -> bool.
Variable config : sample_config.

(** The fields of the example of an object. *)
Definition shows (s v : jdata) : Prop :=
  object_typed s -> exists fields, v = DObject fields
    /\ forall name, name ∈ fields.*1 <-> has_field config s name \/ name ∈ extra_names s.

Definition example_of (s v : jdata) : Prop :=
  shows s v /\ forall fuel, (depth s < fuel)%nat -> valid matches fuel s v = true.

Lemma example_valid s v fuel : example_of s v -> (depth s < fuel)%nat -> valid matches fuel s v = true.
Proof. intros [_ H]. apply H. Qed.

Lemma shows_array o vs : array_typed o -> shows o vs.
Proof.
  intros [Ha|[Ha Hp]] [Ho|[Ho [qs Hq]]]; rewrite Ha in Ho; try discriminate Ho. congruence.
Qed.

Lemma shows_scalar o type v : dget o (js "type") = DString type -> type ∈ scalar_types -> shows o v.
Proof.
  intros Ht Hin [Ho|[Ho _]]; rewrite Ht in Ho; [|discriminate]. injection Ho as ->.
  exfalso. apply (scalar_not_container _ Hin). right. by left.
Qed.

Lemma object_sample ps rec :
  let o := DObject ps in
  without o ("enum" :: "minProperties" :: "maxProperties" :: ignored_keywords) -> object_typed o ->
  object_properties o -> additional_kind o ->
  (forall name p, declared o name = Some p -> visible config p -> exists v, rec p = Ret v /\ example_of p v) ->
  (forall qs, dget o (js "additionalProperties") = DObject qs ->
     exists v, rec (DObject qs) = Ret v /\ example_of (DObject qs) v) ->
  (forall name, name ∈ extra_names o -> declared o name = None) ->
  (forall names n, dget o (js "required") = DArray names -> n ∈ names ->
     exists name, n = DString name /\ has_field config o name) ->
  exists v, sample_body now call_inherited config rec o = Ret v /\ example_of o v.
Proof.
  intros o Hw Ht Hpr Hk Hp Ha Hx Hr.
  destruct (object_example config rec o Hpr Hk) as (f1 & f2 & E1 & E2 & K & F).
  { intros name p Hd Hv. destruct (Hp name p Hd Hv) as (v & Hv' & _). by exists v. }
  { intros qs Hq. destruct (Ha qs Hq) as (v & Hv & _). by exists v. }
  exists (DObject f2). split.
  - unfold sample_body. change (objectify o) with o.
    rewrite (without_in o _ "example" Hw) by (unfold ignored_keywords; listed).
    rewrite schema_type_object by done. cbn [is_undefined negb is_string]. rewrite jseqb_refl.
    unfold mbind, outcome_bind. by rewrite E1, E2.
  - split; [intros _; by exists f2|]. intros [|fuel] Hf; [lia|]. cbn [valid].
    apply object_valid; [done|done|eapply required_fields; [done|]; intros name Hh; apply K; by left|].
    intros name v [(p & Hd & Hv & Hr')|[Hin Hr']]%F; unfold field_ok; fold o; cbn [fst snd].
    + rewrite Hd. destruct (Hp name p Hd Hv) as (v' & Hv' & He). replace v with v' by congruence.
      apply example_valid; [done|]. pose proof (declared_depth _ _ _ Hd). lia.
    + rewrite (Hx name Hin). unfold extra_names in Hin.
      destruct (dget o (js "additionalProperties")) as [| |[]| | | |qs] eqn:Eq; try done;
        try by apply elem_of_nil in Hin.
      destruct (Ha qs eq_refl) as (v' & Hv' & He). replace v with v' by (specialize (Hr' qs eq_refl); congruence).
      apply example_valid; [done|]. pose proof (part_depth _ _ _ Eq ltac:(done)). lia.
Qed.

(** An array with the examples [vs] of the schemas of its elements. *)
Lemma array_sample ps qs rec vs :
  let o := DObject ps in
  without o ("enum" :: "uniqueItems" :: ignored_keywords) -> array_typed o ->
  dget o (js "items") = DObject qs -> count_ok o "minItems" "maxItems" (strlen vs) = true ->
  sample_each rec (item_schemas (DObject qs)) = Ret vs ->
  (forall fuel v, (depth o <= fuel)%nat -> v ∈ vs -> valid matches fuel (DObject qs) v = true) ->
  exists v, sample_body now call_inherited config rec o = Ret v /\ example_of o v.
Proof.
  intros o Hw Ht Hi Hc Hs Hv. exists (DArray vs). split.
  - unfold sample_body. change (objectify o) with o.
    rewrite (without_in o _ "example" Hw) by (unfold ignored_keywords; listed).
    rewrite (schema_type_array o qs) by done. cbn [is_undefined negb is_string]. rewrite jseqb_refl.
    change (jseqb (js "array") (js "object")) with false. rewrite Hi. unfold sample_array, mbind, outcome_bind.
    by rewrite Hs.
  - split; [by apply shows_array|]. intros [|fuel] Hf; [lia|]. cbn [valid].
    apply (array_valid _ _ _ qs); [done..|]. apply Forall_forall. intros v Hin. apply Hv; [lia|done].
Qed.

Lemma scalar_sample ps type s rec :
  let o := DObject ps in
  without o ("enum" :: "minLength" :: "maxLength" :: "pattern" :: ignored_keywords) ->
  dget o (js "type") = DString type -> type ∈ scalar_types ->
  number_ok o (DNumber (num_of_Z 0)) = true -> dstring (dget o (js "format")) = Ret s ->
  exists v, sample_body now call_inherited config rec o = Ret v /\ example_of o v.
Proof.
  intros o Hw Ht Hin Hn Hf. destruct (schema_type_scalar o type Ht Hin) as [Hs Hno].
  destruct (primitive_sample ps type s Ht Hin Hf) as (v & Hv & Hty & Hz). exists v. split.
  - unfold sample_body. change (objectify o) with o. change (dget (DObject ps)) with (dget o) in *.
    rewrite (without_in o _ "example" Hw) by (unfold ignored_keywords; listed).
    rewrite Hs, !Hno by (simpl; listed). cbn [is_undefined negb].
    by rewrite (without_in o _ "enum" Hw) by listed.
  - split; [by eapply shows_scalar|]. intros [|fuel] Hd; [lia|]. cbn [valid].
    apply (scalar_valid _ _ _ type); try done.
    + apply enum_ok_none, (without_in o _ "enum" Hw). listed.
    + destruct v; try done. by rewrite (Hz n eq_refl).
    + destruct v; try done. unfold string_ok.
      rewrite count_ok_none by (constructor; [|constructor; [|constructor]]; apply (without_in o _ _ Hw); listed).
      fold o. by rewrite (without_in o _ "pattern" Hw) by listed.
    + last_keywords.
Qed.

Lemma enum_sample ps type e es rec :
  let o := DObject ps in
  without o ignored_keywords -> dget o (js "type") = DString type -> type ∈ scalar_types ->
  dget o (js "enum") = DArray (e :: es) ->
  (forall v, v ∈ e :: es -> json_type type v && number_ok o v && string_ok matches o v = true) ->
  (truthy (dget o (js "default")) = true -> dget o (js "default") ∈ e :: es) ->
  exists v, sample_body now call_inherited config rec o = Ret v /\ example_of o v.
Proof.
  intros o Hw Ht Hin He Hm Hdef. destruct (schema_type_scalar o type Ht Hin) as [Hs Hno].
  assert (Hv : exists v, sample_body now call_inherited config rec o = Ret v /\ v ∈ e :: es).
  { unfold sample_body. change (objectify o) with o.
    rewrite (without_in o _ "example" Hw) by (unfold ignored_keywords; listed).
    rewrite Hs, !Hno by (simpl; listed). cbn [is_undefined negb]. rewrite He. cbn [truthy].
    destruct (truthy (dget o (js "default"))); eexists; (split; [done|]); [auto|by left]. }
  destruct Hv as (v & Hv & Hel). exists v. split; [done|].
  specialize (Hm v Hel). rewrite !andb_true_iff in Hm. destruct Hm as [[Hty Hn] Hst].
  split; [by eapply shows_scalar|]. intros [|fuel] Hd; [lia|]. cbn [valid].
  apply (scalar_valid _ _ _ type); try done.
  - unfold enum_ok. fold o. rewrite He. apply existsb_exists. exists v.
    split; [by apply list_elem_of_In|]. by apply (json_equal_scalar type), scalar_not_container.
  - last_keywords.
Qed.

Lemma examples_of_all rec es : (forall e, e ∈ es -> exists v, rec e = Ret v /\ example_of e v) ->
  exists vs, sample_each rec es = Ret vs /\ Forall2 example_of es vs.
Proof. apply sample_each_spec. Qed.

Lemma plain_items qs : plain_schema matches config (DObject qs) -> item_schemas (DObject qs) = [DObject qs].
Proof.
  intros Hp. assert (Hw : without (DObject qs) combinators) by (inversion Hp; last_keywords).
  unfold item_schemas. rewrite !(without_in _ _ _ Hw) by listed. done.
Qed.

Lemma sample_example s : plain_schema matches config s -> forall fuel, (depth s < fuel)%nat ->
  exists v, sample fuel config s = Ret v /\ example_of s v.
Proof.
  induction 1 as [ps o Hw Ht Hpr Hp IHp Hk Ha IHa Hx Hr|ps qs o Hw Ht Hi Hc Hq IH
                 |ps qs es o Hw Ht Hi Hc Hq He Hs IH|ps qs es o Hw Ht Hi Hc Hq He Hs IH Hdis
                 |ps type e es o Hw Ht Hin He Hm Hd|ps type o Hw Ht Hin Hn [s Hs]];
    intros [|fuel] Hf; [lia| |lia| |lia| |lia| |lia| |lia|]; cbn [sample].
  - apply object_sample; try done.
    + intros name p Hd Hv. apply (IHp name p Hd Hv). pose proof (declared_depth _ _ _ Hd). subst o. lia.
    + intros qs Hq. apply (IHa qs Hq). pose proof (part_depth _ _ _ Hq ltac:(done)). subst o. lia.
  - pose proof (part_depth _ _ _ Hi ltac:(done)) as Hdq.
    destruct (IH fuel ltac:(subst o; lia)) as (v & Hv & Hex).
    apply (array_sample ps qs _ [v]); try done.
    + rewrite (plain_items qs Hq). cbn [sample_each]. by rewrite Hv.
    + intros fuel' v' Hd ->%list_elem_of_singleton. apply Hex. subst o. lia.
  - destruct (examples_of_all (sample fuel config) es) as (vs & Hvs & Hex).
    { intros e Hin. apply (IH e Hin). pose proof (alternative_depth _ _ _ _ _ _ Hi He Hin). subst o. lia. }
    apply (array_sample ps qs _ vs); try done.
    + unfold strlen. by rewrite <- (Forall2_length _ _ _ Hex).
    + unfold item_schemas. by rewrite He.
    + intros [|fuel'] v Hd [i Hv]%list_elem_of_lookup; [pose proof (depth_pos (DObject ps)); lia|].
      destruct (Forall2_lookup_r _ _ _ _ _ Hex Hv) as (e & Hei & Hev). cbn [valid].
      apply (any_valid _ _ _ es _ e); [done|done|by eapply list_elem_of_lookup_2|].
      apply Hev. pose proof (alternative_depth _ _ _ _ _ e Hi He ltac:(by eapply list_elem_of_lookup_2)).
      pose proof (part_depth _ _ _ Hi ltac:(done)). pose proof (part_depth _ _ _ He ltac:(done)).
      pose proof (depth_elem es e ltac:(by eapply list_elem_of_lookup_2)). subst o. lia.
  - destruct (examples_of_all (sample fuel config) es) as (vs & Hvs & Hex).
    { intros e Hin. apply (IH e Hin). pose proof (alternative_depth _ _ _ _ _ _ Hi He Hin). subst o. lia. }
    apply (array_sample ps qs _ vs); try done.
    + unfold strlen. by rewrite <- (Forall2_length _ _ _ Hex).
    + unfold item_schemas. rewrite (without_in _ _ "anyOf" Hq) by (vm_compute; listed). by rewrite He.
    + intros [|fuel'] v Hd [i Hv]%list_elem_of_lookup; [pose proof (depth_pos (DObject ps)); lia|].
      destruct (Forall2_lookup_r _ _ _ _ _ Hex Hv) as (e & Hei & Hev). cbn [valid].
      assert (Hve : valid matches fuel' e v = true).
      { apply Hev. pose proof (part_depth _ _ _ Hi ltac:(done)). pose proof (part_depth _ _ _ He ltac:(done)).
        pose proof (depth_elem es e ltac:(by eapply list_elem_of_lookup_2)). subst o. lia. }
      apply (one_valid _ _ _ es _ i e); [done..|]. intros j e' Hj Hne.
      by apply (disjoint_invalid _ fuel' _ e); [eapply Hdis|].
  - by apply (enum_sample ps type e es).
  - by apply (scalar_sample ps type s).
Qed.
End valid.
End examples.

(** ** The property *)

(** Schemas whose examples are not valid: a bound, a default outside the enumeration, a
    property that is overwritten by an additional one, alternatives that share
    values, and a required property that is not shown. *)
Definition typed (type : string) : jdata := DObject [(js "type", DString (js type))].

Definition misled_schemas : list jdata :=
  [DObject [(js "type", DString (js "integer")); (js "minimum", DNumber (num_of_Z 5))];
   DObject [(js "type", DString (js "string")); (js "enum", DArray [DString (js "a")]);
            (js "default", DString (js "b"))];
   DObject [(js "properties", DObject [(js "additionalProp1", typed "integer")]);
            (js "additionalProperties", typed "string")];
   DObject [(js "items", DObject [(js "oneOf", DArray [typed "integer"; typed "number"])])];
   DObject [(js "properties", DObject
              [(js "a", DObject [(js "type", DString (js "string")); (js "deprecated", DBool true)])]);
            (js "required", DArray [DString (js "a")])]].

(** C10: the example the page makes for a schema is valid by the meaning of the schema,
    for every schema that keeps to the keywords the page looks at: nested objects with
    [properties], [additionalProperties] and [required], arrays of one kind of element
    or of alternatives, enumerations, and scalars whose bounds allow 0.  The fields of
    an example object are those of the properties that are not deprecated and are read
    only or write only just when these are asked for, and up to three that stand for
    additional properties.  A schema of type [array] without [items] makes the
    function throw; and what it does not look at misleads it: a minimum, a default
    outside the enumeration, a property named like the fields for additional ones,
    alternatives that share values, and a required property that is deprecated give
    examples that are not valid. *)
Theorem sample_valid matches now call config :
  (forall schema, plain_schema matches config schema ->
     exists v, sampleFromSchema now call schema config = Ret v
       /\ validate matches schema v = true
       /\ (object_typed schema -> exists fields, v = DObject fields
           /\ forall name, name ∈ fields.*1 <-> has_field config schema name \/ name ∈ extra_names schema))
  /\ sampleFromSchema now call (DObject [(js "type", DString (js "array"))]) config
     = Throw (TypeError (js "Cannot read property 'anyOf' of undefined"))
  /\ Forall (fun s => exists v, sampleFromSchema now call s config = Ret v /\ validate matches s v = false)
       misled_schemas.
Proof.
  split_and!; [|done|].
  - intros schema Hs. unfold sampleFromSchema, validate.
    destruct (sample_example now call matches config schema Hs (S (depth schema)) ltac:(lia)) as (v & Hv & Hsh & Hval).
    exists v. split_and!; [done|apply Hval; lia|exact Hsh].
  - repeat constructor; eexists; (split; [reflexivity|]); vm_compute; reflexivity.
Qed.

(** An object with a list of numbers, which is required, and a hidden property. *)
Definition demo_schema : jdata :=
  DObject [(js "required", DArray [DString (js "ids")]);
    (js "properties", DObject
     [(js "ids", DObject [(js "items", DObject
        [(js "type", DString (js "integer")); (js "maximum", DNumber (num_of_Z 9))])]);
      (js "secret", DObject [(js "type", DString (js "string")); (js "writeOnly", DBool true)])])].

Lemma sample_valid_witness :
  let config := mkSampleConfig true false in
  plain_schema (fun _ _ => false) config demo_schema /\
  exists v, sampleFromSchema [] (fun _ _ => Ret DNull) demo_schema config = Ret v
    /\ validate (fun _ _ => false) demo_schema v = true
    /\ v = DObject [(js "ids", DArray [DNumber (num_of_Z 0)])].
Proof.
  intros config.
  assert (Hw : plain_schema (fun _ _ => false) config demo_schema).
  { apply plain_object; [repeat constructor|right; split; [done|by eexists]|right; by eexists| |done|done| |].
    - intros name p Hn Hv. unfold declared in Hn. cbn [demo_schema dget] in Hn.
      destruct (jseqb (js "ids") name) eqn:E; [|destruct (jseqb (js "secret") name) eqn:E'].
      + apply jseqb_eq in E as <-. injection Hn as <-.
        eapply plain_array; [repeat constructor|by right|reflexivity|reflexivity|].
        eapply plain_scalar; [repeat constructor|reflexivity|vm_compute; listed|reflexivity|by eexists].
      + apply jseqb_eq in E' as <-. injection Hn as <-. destruct Hv as (_ & _ & Hv). discriminate (Hv eq_refl).
      + exfalso. revert Hn. unfold demo_schema. simpl in E, E' |- *. by rewrite E, E'.
    - by intros name Hn%elem_of_nil.
    - intros names n [= <-] ->%list_elem_of_singleton. exists (js "ids"). split; [done|].
      split; [discriminate|]. eexists. split; [reflexivity|by repeat split]. }
  split; [exact Hw|].
  destruct (proj1 (sample_valid (fun _ _ => false) [] (fun _ _ => Ret DNull) config) demo_schema Hw)
    as (v & Hv & Hval & _).
  exists v. split; [exact Hv|]. split; [exact Hval|]. vm_compute in Hv. injection Hv as <-. reflexivity.
Defined.
