(* ===== verification/SwaggerSearch.v ===== *)
(** * Swagger UI: query strings and form bodies

    The functions of the utility module that read the query of the page's
    address and write queries and form bodies. *)

From S2P Require Import JsPrelude JsNumber JsValue JsUnicode SwaggerData.

(** ** The operations *)

(** One turn of the loop over the parts of the query. *)
Definition search_param (map : list (jsstr * jdata)) (param : jsstr)
    : outcome native_error (list (jsstr * jdata)) :=
  let i := split_char 61 param in
  k ← decodeURIComponent (default [] (i !! 0%nat));
  v ← match i !! 1%nat with
      | Some (c :: t) => decodeURIComponent (c :: t)
      | _ => Ret []
      end;
  Ret (dset map k (DString v)).

Fixpoint search_params (map : list (jsstr * jdata)) (params : list jsstr)
    : outcome native_error (list (jsstr * jdata)) :=
  match params with
  | [] => Ret map
  | p :: params' => map' ← search_param map p; search_params map' params'
  end.

(** [search] is [window.location.search]. *)
Definition parseSearch (search : jsstr) : outcome native_error (list (jsstr * jdata)) :=
  match search with
  | [] => Ret []
  | _ => search_params [] (split_char 38 (drop 1 search))
  end.

Definition serialize_pair (searchMap : jdata) (k : jsstr) : outcome native_error jsstr :=
  tk ← encodeURIComponent k;
  v ← dstring (dget searchMap k);
  tv ← encodeURIComponent v;
  Ret (tk ++ 61 :: tv).

Definition serializeSearch (searchMap : jdata) : outcome native_error jsstr :=
  ts ← mapM (serialize_pair searchMap) (dkeys searchMap);
  Ret (join [38] ts).

(** [s.replace(/%20/g, x)] for a one-unit string [x]. *)
Fixpoint replace_20 (x : Z) (s : jsstr) : jsstr :=
  match s with
  | [] => []
  | c :: rest =>
      match rest with
      | a :: b :: rest' =>
          if (c =? 37) && (a =? 50) && (b =? 48) then x :: replace_20 x rest'
          else c :: replace_20 x rest
      | _ => c :: replace_20 x rest
      end
  end.

(** A value that is sent: neither [undefined] nor the empty string. *)
Definition is_sent (val : jdata) : bool := negb (is_undefined val || is_string [] val).

Fixpoint form_pairs (data : jdata) (names : list jsstr) : outcome native_error (list jsstr) :=
  match names with
  | [] => Ret []
  | name :: names' =>
      if is_sent (dget data name) then
        v ← dstring (dget data name);
        t ← encodeURIComponent v;
        ts ← form_pairs data names';
        Ret ((name ++ 61 :: replace_20 43 t) :: ts)
      else form_pairs data names'
  end.

Definition buildFormData (data : jdata) : outcome native_error jsstr :=
  ts ← form_pairs data (dkeys data);
  Ret (join [38] ts).

(** ** What a server reads

    The fields of a text in the format [application/x-www-form-urlencoded]: parts
    separated by [&], the name of each cut off at the first [=], a plus sign for
    a space, and percent encoding. *)

Fixpoint cut (c : Z) (s : jsstr) : jsstr * jsstr :=
  match s with
  | [] => ([], [])
  | x :: s' => if x =? c then ([], s') else let '(a, b) := cut c s' in (x :: a, b)
  end.

Definition plus_to_space (s : jsstr) : jsstr := (fun c => if c =? 43 then 32 else c) <$> s.

Definition form_field (part : jsstr) : outcome native_error (jsstr * jsstr) :=
  let '(n, v) := cut 61 part in
  n' ← decodeURIComponent (plus_to_space n);
  v' ← decodeURIComponent (plus_to_space v);
  Ret (n', v').

Definition form_fields (text : jsstr) : outcome native_error (list (jsstr * jsstr)) :=
  match text with
  | [] => Ret []
  | _ => mapM form_field (split_char 38 text)
  end.

(** Strings that can be encoded. *)
Definition encodable (s : jsstr) : Prop := Forall is_unit16 s /\ well_formed s = true.

Lemma encodable_check s :
  forallb (fun c => (0 <=? c) && (c <? 65536)) s && well_formed s = true -> encodable s.
Proof.
  intros [H Hw]%andb_true_iff. split; [|done]. apply Forall_forall. rewrite forallb_forall in H.
  intros c Hc. apply list_elem_of_In, H in Hc. unfold is_unit16. lia.
Qed.

(** ** Splitting what was joined *)

Lemma split_char_none c s : c ∉ s -> split_char c s = [s].
Proof.
  induction s as [|x s IH]; simpl; [done|]. rewrite not_elem_of_cons. intros [Hx Hs].
  rewrite (proj2 (Z.eqb_neq x c)), IH by congruence. done.
Qed.

Lemma split_char_app c s t : c ∉ s -> split_char c (s ++ c :: t) = s :: split_char c t.
Proof.
  induction s as [|x s IH]; simpl; [by rewrite Z.eqb_refl|]. rewrite not_elem_of_cons. intros [Hx Hs].
  rewrite (proj2 (Z.eqb_neq x c)), IH by congruence. done.
Qed.

Lemma split_join c l : l <> [] -> Forall (fun s => c ∉ s) l -> split_char c (join [c] l) = l.
Proof.
  induction l as [|s l IH]; [done|]. intros _ [Hs Hl]%Forall_cons. destruct l as [|s' l].
  - by apply split_char_none.
  - change (join [c] (s :: s' :: l)) with (s ++ c :: join [c] (s' :: l)).
    by rewrite split_char_app, IH.
Qed.

Lemma cut_app c s t : c ∉ s -> cut c (s ++ c :: t) = (s, t).
Proof.
  induction s as [|x s IH]; simpl; [by rewrite Z.eqb_refl|]. rewrite not_elem_of_cons. intros [Hx Hs].
  rewrite (proj2 (Z.eqb_neq x c)), IH by congruence. done.
Qed.

Lemma uri_unit_sep t c : Forall (fun c => uri_unit c = true) t -> uri_unit c = false -> c ∉ t.
Proof. rewrite Forall_forall. intros H Hc Hin%H. congruence. Qed.

(** ** The round trip of a query *)

Lemma dset_get ps k v k' : assoc_get (dset ps k v) k' =
  if jseqb k k' && negb (jseqb k proto_key) then Some v else assoc_get ps k'.
Proof.
  unfold dset. destruct (jseqb k proto_key) eqn:E; [by rewrite andb_false_r|].
  by rewrite andb_true_r, assoc_get_set.
Qed.

Lemma foldl_dset_get (f : jsstr -> jdata) k ks : forall o,
  assoc_get (foldl (fun o k => dset o k (f k)) o ks) k
  = if bool_decide (k ∈ ks) && negb (jseqb k proto_key) then Some (f k) else assoc_get o k.
Proof.
  induction ks as [|k' ks IH]; intros o; simpl; [done|].
  rewrite IH, dset_get. destruct (jseqb k' k) eqn:E.
  - apply jseqb_eq in E as ->. rewrite (bool_decide_eq_true_2 (k ∈ k :: ks)) by left.
    by destruct (jseqb k proto_key), (bool_decide (k ∈ ks)).
  - assert (bool_decide (k ∈ k' :: ks) = bool_decide (k ∈ ks)) as ->; [|done].
    apply bool_decide_ext. rewrite elem_of_cons. split; [intros [->|]; [by rewrite jseqb_refl in E|done]|tauto].
Qed.

(** [Object.assign({}, o)] has the properties of [o], but for [__proto__]. *)
Lemma assign_copy_get ps k :
  assoc_get (assign_copy ps) k = if jseqb k proto_key then None else assoc_get ps k.
Proof.
  unfold assign_copy. rewrite foldl_dset_get. simpl.
  destruct (jseqb k proto_key); [by rewrite andb_false_r|]. rewrite andb_true_r.
  case_bool_decide as H; rewrite order_keys_elem, <- assoc_get_Some_key in H.
  - by destruct H as [v ->].
  - apply eq_None_not_Some in H. done.
Qed.

(** [part] is the text of the pair [k] and [v]. *)
Definition pair_text (part k v : jsstr) : Prop :=
  exists tk tv, part = tk ++ 61 :: tv /\ decodes tk k /\ decodes tv v.

Lemma pair_text_sep part k v : pair_text part k v -> 38 ∉ part /\ part <> [].
Proof.
  intros (tk & tv & -> & Hk & Hv). split; [|by intros []%app_eq_nil].
  rewrite elem_of_app, elem_of_cons. destruct Hk as [Hk _], Hv as [Hv _].
  pose proof (uri_unit_sep _ 38 Hk eq_refl). pose proof (uri_unit_sep _ 38 Hv eq_refl). naive_solver.
Qed.

Lemma search_param_pair map part k v : pair_text part k v ->
  search_param map part = Ret (dset map k (DString v)).
Proof.
  intros (tk & tv & -> & Hk & Hv). unfold search_param.
  pose proof (uri_unit_sep _ 61 (proj1 Hk) eq_refl). pose proof (uri_unit_sep _ 61 (proj1 Hv) eq_refl).
  rewrite split_char_app, split_char_none by done. cbn [lookup list_lookup default id].
  rewrite (decodes_decode _ _ Hk). unfold mbind, outcome_bind. destruct tv as [|c tv].
  - destruct Hv as (_ & Hv & _). by rewrite Hv.
  - by rewrite (decodes_decode _ _ Hv).
Qed.

(** A map from strings to strings, all of which can be encoded. *)
Definition string_map (ps : list (jsstr * jdata)) : Prop :=
  Forall (fun p => encodable p.1 /\ exists v, p.2 = DString v /\ encodable v) ps.

Lemma string_map_get ps k : string_map ps -> k ∈ ps.*1 ->
  encodable k /\ exists v, assoc_get ps k = Some (DString v) /\ encodable v.
Proof.
  unfold string_map. induction ps as [|[k' v'] ps IH]; [by intros _ ?%not_elem_of_nil|].
  intros [[Hk Hv] Hps]%Forall_cons Hin. simpl in *. destruct (jseqb k' k) eqn:E.
  - apply jseqb_eq in E as ->. split; [done|]. destruct Hv as (v & -> & ?). eauto.
  - apply elem_of_cons in Hin as [->|Hin]; [by rewrite jseqb_refl in E|]. by apply IH.
Qed.

Lemma serialize_pairs ps ks : string_map ps -> Forall (fun k => k ∈ ps.*1) ks -> exists ts,
  mapM (serialize_pair (DObject ps)) ks = Ret ts
  /\ Forall2 (fun k t => exists v, dget (DObject ps) k = DString v /\ pair_text t k v) ks ts.
Proof.
  intros Hps. induction 1 as [|k ks Hk _ (ts & E & IH)]; [by exists []|].
  destruct (string_map_get ps k Hps Hk) as ([Hk1 Hk2] & v & Hg & Hv1 & Hv2).
  destruct (encode_decode k Hk1 Hk2) as (tk & Ek & Dk), (encode_decode v Hv1 Hv2) as (tv & Ev & Dv).
  exists ((tk ++ 61 :: tv) :: ts). split.
  - cbn [mapM]. rewrite E. unfold serialize_pair. simpl dget. rewrite Hg, Ek. simpl. by rewrite Ev.
  - constructor; [|done]. exists v. simpl. rewrite Hg. split; [done|]. by exists tk, tv.
Qed.

Lemma search_params_pairs ps ks ts :
  Forall2 (fun k t => exists v, dget (DObject ps) k = DString v /\ pair_text t k v) ks ts ->
  forall map, search_params map ts
    = Ret (foldl (fun o k => dset o k (dget (DObject ps) k)) map ks).
Proof.
  induction 1 as [|k t ks ts (v & Hv & Ht) _ IH]; intros map; [done|].
  cbn [search_params foldl]. rewrite (search_param_pair map t k v Ht), Hv. apply IH.
Qed.

Lemma Forall2_pairs_sep ps ks ts :
  Forall2 (fun k t => exists v, dget (DObject ps) k = DString v /\ pair_text t k v) ks ts ->
  Forall (fun t => 38 ∉ t /\ t <> []) ts.
Proof. induction 1 as [|k t ks ts (v & _ & Ht) _ IH]; constructor; [by eapply pair_text_sep|done]. Qed.

Lemma join_ne sep t ts : t <> [] -> join sep (t :: ts) <> [].
Proof. destruct t, ts; done. Qed.

(** What [location.search] is for a page whose address has the query [t]. *)
Definition location_search (t : jsstr) : jsstr := match t with [] => [] | _ => 63 :: t end.

(** C29: the query written for a map of strings without lone surrogates, read
    back from the address of the page, gives the map again: every property with
    its value, in the order of [Object.keys], with the exception of a property
    [__proto__], which the reader cannot make.  A percent sign that does not
    begin an encoding makes the reader throw. *)
Theorem search_roundtrip ps : string_map ps ->
  (exists t, serializeSearch (DObject ps) = Ret t
    /\ parseSearch (location_search t) = Ret (assign_copy ps))
  /\ (forall k, assoc_get (assign_copy ps) k = if jseqb k proto_key then None else assoc_get ps k)
  /\ parseSearch (js "?a=100%") = Throw malformed.
Proof.
  intros Hps. split_and!; [|apply assign_copy_get|by vm_compute].
  destruct (serialize_pairs ps (order_keys ps.*1)) as (ts & E & Hts); [done| |].
  { apply Forall_forall. intros k. by rewrite order_keys_elem. }
  exists (join [38] ts). unfold serializeSearch. cbn [dkeys]. rewrite E. split; [done|].
  pose proof (search_params_pairs _ _ _ Hts []) as Hr. pose proof (Forall2_pairs_sep _ _ _ Hts) as Hs.
  destruct ts as [|t ts].
  - simpl. unfold assign_copy. rewrite <- Hr. done.
  - pose proof Hs as [[_ Hne] _]%Forall_cons. pose proof (join_ne [38] t ts Hne).
    unfold location_search, parseSearch. destruct (join [38] (t :: ts)) as [|c r] eqn:Ej; [done|].
    cbn [drop]. rewrite <- Ej, split_join; [by rewrite Hr|done|].
    eapply Forall_impl; [exact Hs|]. by intros ? [].
Qed.

Lemma search_roundtrip_witness :
  (exists t, serializeSearch (DObject [(js "q", DString (js "a&b=c d")); (js "", DString (js "+"))]) = Ret t
    /\ parseSearch (location_search t)
       = Ret [(js "q", DString (js "a&b=c d")); (js "", DString (js "+"))]).
Proof.
  destruct (search_roundtrip [(js "q", DString (js "a&b=c d")); (js "", DString (js "+"))])
    as ((t & H1 & H2) & _).
  - repeat (apply Forall_cons_2 || apply Forall_nil_2); simpl;
      (split; [apply encodable_check; reflexivity|]);
      eexists; (split; [reflexivity|apply encodable_check; reflexivity]).
  - exists t. split; [exact H1|]. rewrite H2. vm_compute. reflexivity.
Defined.

(** ** The round trip of a form *)

Lemma replace_20_cons x c s : c <> 37 -> replace_20 x (c :: s) = c :: replace_20 x s.
Proof.
  intros Hc. cbn [replace_20]. rewrite (proj2 (Z.eqb_neq c 37)) by done. by destruct s as [|? [|]].
Qed.

Lemma replace_20_octet x a b s : (a =? 50) && (b =? 48) = false -> a <> 37 -> b <> 37 ->
  replace_20 x (37 :: a :: b :: s) = 37 :: a :: b :: replace_20 x s.
Proof.
  intros Hab Ha Hb.
  change (replace_20 x (37 :: a :: b :: s)) with
    (if (37 =? 37) && (a =? 50) && (b =? 48) then x :: replace_20 x s else 37 :: replace_20 x (a :: b :: s)).
  rewrite <- andb_assoc, Hab, andb_false_r. by rewrite !replace_20_cons.
Qed.

Lemma replace_20_three x c a b s : replace_20 x (c :: a :: b :: s) =
  if (c =? 37) && (a =? 50) && (b =? 48) then x :: replace_20 x s else c :: replace_20 x (a :: b :: s).
Proof. done. Qed.

(** Without a plus sign, writing plus signs for spaces and reading them back
    decodes the spaces. *)
Lemma plus_to_space_replace s : 43 ∉ s -> plus_to_space (replace_20 43 s) = replace_20 32 s.
Proof.
  induction s as [s IH] using (induction_ltof1 _ (@length Z)). unfold ltof in IH. intros Hs.
  assert (Hc : forall c rest, s = c :: rest -> plus_to_space (c :: replace_20 43 rest) = c :: replace_20 32 rest).
  { intros c rest ->. rewrite not_elem_of_cons in Hs. destruct Hs as [Hc Hr].
    unfold plus_to_space in *. cbn [fmap list_fmap]. rewrite (proj2 (Z.eqb_neq c 43)) by congruence.
    f_equal. apply IH; [simpl; lia|done]. }
  destruct s as [|c [|a [|b rest]]]; [done|by apply (Hc c [])|by apply (Hc c [a])|].
  rewrite !replace_20_three.
  destruct ((c =? 37) && (a =? 50) && (b =? 48)); [|by apply Hc].
  unfold plus_to_space. cbn [fmap list_fmap]. rewrite Z.eqb_refl. f_equal.
  apply IH; [simpl; lia|]. rewrite !not_elem_of_cons in Hs. tauto.
Qed.

Lemma hex_digit_range c d : hex_digit c = Some d -> 0 <= d < 16 /\ c <> 37
  /\ (c = 50 <-> d = 2) /\ (c = 48 <-> d = 0).
Proof.
  unfold hex_digit. intros H. repeat case_match; try done; simplify_eq; bool_to_prop; lia.
Qed.

Lemma read_octet_inv s b rest : read_octet s = Some (b, rest) -> exists x y dx dy,
  s = 37 :: x :: y :: rest /\ hex_digit x = Some dx /\ hex_digit y = Some dy /\ b = dx * 16 + dy.
Proof.
  unfold read_octet. intros H. repeat case_match; try done. simplify_eq. eauto 10.
Qed.

(** A replaced [%20] stands for the byte 32 and nothing else is touched. *)
Lemma read_octet_replace s b rest : read_octet s = Some (b, rest) ->
  if b =? 32 then replace_20 32 s = 32 :: replace_20 32 rest
  else read_octet (replace_20 32 s) = Some (b, replace_20 32 rest).
Proof.
  intros (x & y & dx & dy & -> & Hx & Hy & ->)%read_octet_inv.
  pose proof (hex_digit_range _ _ Hx) as (? & ? & Hx2 & Hx0).
  pose proof (hex_digit_range _ _ Hy) as (? & ? & Hy2 & Hy0).
  destruct (Z.eqb_spec (dx * 16 + dy) 32).
  - assert (x = 50) as -> by (apply Hx2; lia). assert (y = 48) as -> by (apply Hy0; lia). done.
  - rewrite replace_20_octet; [|rewrite andb_false_iff, !Z.eqb_neq; lia|done..].
    simpl. by rewrite Hx, Hy.
Qed.

Lemma read_octets_replace n : forall s bs rest, read_octets n s = Some (bs, rest) ->
  32 ∉ bs -> read_octets n (replace_20 32 s) = Some (bs, replace_20 32 rest).
Proof.
  induction n as [|n IH]; intros s bs rest H Hbs; simpl in *; [by simplify_eq|].
  destruct (read_octet s) as [[b r]|] eqn:E; [|done]. simpl in H.
  destruct (read_octets n r) as [[bs' r']|] eqn:E'; [|done]. simpl in H. simplify_eq.
  rewrite not_elem_of_cons in Hbs. destruct Hbs as [Hb Hbs]. apply read_octet_replace in E.
  rewrite (proj2 (Z.eqb_neq b 32)) in E by congruence. rewrite E. simpl.
  by erewrite IH by done.
Qed.

Lemma encoded_space p b bs : encoded p = b :: bs -> 32 ∉ bs /\ (b = 32 -> 0 <= p -> p = 32 /\ bs = []).
Proof.
  unfold encoded. intros H.
  destruct (p <? 128) eqn:E1; [simplify_eq; split; [apply not_elem_of_nil|done]|].
  destruct (p <? 2048) eqn:E2; [|destruct (p <? 65536) eqn:E3]; simplify_eq; bool_to_prop;
    (split; [rewrite ?not_elem_of_cons; repeat split; try apply not_elem_of_nil|intros Hb Hp; exfalso]);
    Z.to_euclidean_division_equations; lia.
Qed.

Lemma read_point_replace s p rest : read_point s = Some (p, rest) ->
  if p =? 32 then replace_20 32 s = 32 :: replace_20 32 rest
  else read_point (replace_20 32 s) = Some (p, replace_20 32 rest).
Proof.
  unfold read_point. intros H. destruct (read_octet s) as [[b r]|] eqn:E; [|done]. simpl in H.
  destruct (sequence_of b) as [[n bits]|] eqn:Es; [|done]. simpl in H.
  destruct (read_octets n r) as [[bs r']|] eqn:Er; [|done]. simpl in H.
  destruct (scalar_point _ && _) eqn:Ep in H; [|done]. simplify_eq.
  apply andb_true_iff in Ep as [Hp He%bool_decide_eq_true_1].
  pose proof (encoded_space _ _ _ He) as [Hbs Hb]. apply read_octet_replace in E.
  destruct (Z.eqb_spec b 32) as [->|Hne].
  - change (sequence_of 32) with (Some (0%nat, 32)) in Es. injection Es as <- <-.
    injection Er as <- <-. exact E.
  - set (p := foldl _ bits bs) in *. destruct (Z.eqb_spec p 32) as [Heq|].
    + rewrite Heq in He. change (encoded 32) with [32] in He. by simplify_eq.
    + rewrite E. simpl. rewrite Es. simpl. rewrite (read_octets_replace _ _ _ _ Er Hbs). simpl.
      fold p. by rewrite Hp, bool_decide_eq_true_2.
Qed.

Lemma decode_uri_replace fuel : forall s r, decode_uri fuel s = Ret r ->
  decode_uri fuel (replace_20 32 s) = Ret r.
Proof.
  induction fuel as [|fuel IH]; intros [|c s] r H; try done. cbn [decode_uri] in H.
  destruct (Z.eqb_spec c 37) as [->|Hc].
  - destruct (read_point (37 :: s)) as [[p rest]|] eqn:E; [|done].
    destruct (decode_uri fuel rest) as [r'|?|] eqn:Ed; [|done..].
    simpl in H. simplify_eq. apply IH in Ed. pose proof E as Hs. apply read_point_replace in E.
    destruct (Z.eqb_spec p 32) as [->|Hp].
    + rewrite E. cbn [decode_uri]. change (32 =? 37) with false. cbv iota. by rewrite Ed.
    + destruct (replace_20 32 (37 :: s)) as [|c t] eqn:Er; [done|].
      assert (c = 37) as ->.
      { unfold read_point in E. destruct (read_octet (c :: t)) as [[]|] eqn:Eo; [|done].
        apply read_octet_inv in Eo as (? & ? & ? & ? & ? & _). by simplify_eq. }
      cbn [decode_uri]. change (37 =? 37) with true. cbv iota. by rewrite E, Ed.
  - rewrite replace_20_cons by done. cbn [decode_uri]. rewrite (proj2 (Z.eqb_neq c 37)) by done.
    destruct (decode_uri fuel s) as [r'|?|] eqn:Ed; [|done..]. by rewrite (IH _ _ Ed).
Qed.

Lemma replace_20_length x s : (length (replace_20 x s) <= length s)%nat.
Proof.
  induction s as [s IH] using (induction_ltof1 _ (@length Z)). unfold ltof in IH.
  destruct s as [|c [|a [|b rest]]]; [done|simpl; lia..|].
  pose proof (IH rest ltac:(simpl; lia)). pose proof (IH (a :: b :: rest) ltac:(simpl; lia)).
  rewrite replace_20_three.
  destruct (_ && _); simpl length in *; lia.
Qed.

Lemma read_octets_length n : forall s bs rest, read_octets n s = Some (bs, rest) ->
  (length rest <= length s)%nat.
Proof.
  induction n as [|n IH]; intros s bs rest H; simpl in *; [by simplify_eq|].
  destruct (read_octet s) as [[b r]|] eqn:E; [|done]. simpl in H.
  destruct (read_octets n r) as [[bs' r']|] eqn:E'; [|done]. simpl in H. simplify_eq.
  apply IH in E'. apply read_octet_inv in E as (? & ? & ? & ? & -> & _). simpl. lia.
Qed.

Lemma read_point_length s p rest : read_point s = Some (p, rest) -> (length rest < length s)%nat.
Proof.
  unfold read_point. intros H. destruct (read_octet s) as [[b r]|] eqn:E; [|done]. simpl in H.
  destruct (sequence_of b) as [[n bits]|] eqn:Es; [|done]. simpl in H.
  destruct (read_octets n r) as [[bs r']|] eqn:Er; [|done]. simpl in H.
  destruct (scalar_point _ && _); [|done]. simplify_eq. apply read_octets_length in Er.
  apply read_octet_inv in E as (? & ? & ? & ? & -> & _). simpl. lia.
Qed.

(** The fuel of [decodeURIComponent] is enough. *)
Lemma decode_uri_fuel fuel : forall s r fuel', decode_uri fuel s = Ret r -> (length s <= fuel')%nat ->
  decode_uri fuel' s = Ret r.
Proof.
  induction fuel as [|fuel IH]; intros [|c s] r [|fuel'] H Hf; simpl length in Hf; try done; [lia|].
  cbn [decode_uri] in *. destruct (c =? 37).
  - destruct (read_point (c :: s)) as [[p rest]|] eqn:E; [|done].
    apply read_point_length in E. simpl length in E.
    destruct (decode_uri fuel rest) as [r'|?|] eqn:Ed; [|done..]. by rewrite (IH _ _ fuel' Ed) by lia.
  - destruct (decode_uri fuel s) as [r'|?|] eqn:Ed; [|done..]. by rewrite (IH _ _ fuel' Ed) by lia.
Qed.

(** A form value, with plus signs for its spaces, reads as the value. *)
Lemma decodes_form t v : decodes t v ->
  decodeURIComponent (plus_to_space (replace_20 43 t)) = Ret v.
Proof.
  intros (Hu & _ & Hd). rewrite plus_to_space_replace by (by eapply uri_unit_sep).
  unfold decodeURIComponent. apply decode_uri_fuel with (length t); [|done].
  by apply decode_uri_replace, Hd.
Qed.

Lemma decodes_self n : Forall (fun c => unreserved c = true) n -> decodes n n.
Proof. induction 1; [apply decodes_nil|by apply decodes_unreserved]. Qed.

Lemma replace_20_none x s : 37 ∉ s -> replace_20 x s = s.
Proof.
  induction s as [|c s IH]; [done|]. rewrite not_elem_of_cons. intros [? ?].
  by rewrite replace_20_cons, IH.
Qed.

Lemma unreserved_sep n c : Forall (fun c => unreserved c = true) n -> unreserved c = false -> c ∉ n.
Proof. rewrite Forall_forall. intros H Hc Hin%H. congruence. Qed.

Lemma form_field_pair n t v : Forall (fun c => unreserved c = true) n -> decodes t v ->
  form_field (n ++ 61 :: replace_20 43 t) = Ret (n, v).
Proof.
  intros Hn Ht. unfold form_field. rewrite cut_app by (by eapply unreserved_sep).
  pose proof (decodes_form n n (decodes_self n Hn)) as Hd.
  rewrite (replace_20_none 43 n) in Hd by (by eapply unreserved_sep).
  rewrite Hd. simpl. by rewrite (decodes_form t v Ht).
Qed.

Lemma replace_20_elem c x s : c ∈ replace_20 x s -> c = x \/ c ∈ s.
Proof.
  induction s as [s IH] using (induction_ltof1 _ (@length Z)). unfold ltof in IH.
  destruct s as [|d [|a [|b rest]]]; [by right|by right|by right|].
  pose proof (IH rest ltac:(simpl; lia)). pose proof (IH (a :: b :: rest) ltac:(simpl; lia)).
  rewrite replace_20_three. destruct (_ && _ && _); rewrite !elem_of_cons in *; tauto.
Qed.

(** A form whose names are made of unreserved characters, and whose values are
    strings that can be encoded or [undefined]. *)
Definition form_map (ps : list (jsstr * jdata)) : Prop :=
  Forall (fun p => Forall (fun c => unreserved c = true) p.1
                   /\ (p.2 = DUndefined \/ exists v, p.2 = DString v /\ encodable v)) ps.

(** The fields that are sent. *)
Definition sent_field (data : jdata) (k : jsstr) : option (jsstr * jsstr) :=
  match dget data k with
  | DString (c :: v) => Some (k, c :: v)
  | _ => None
  end.

Lemma form_map_get ps k : form_map ps -> k ∈ ps.*1 ->
  Forall (fun c => unreserved c = true) k
  /\ (dget (DObject ps) k = DUndefined \/ exists v, dget (DObject ps) k = DString v /\ encodable v).
Proof.
  unfold form_map. induction ps as [|[k' v'] ps IH]; [by intros _ ?%not_elem_of_nil|].
  intros [[Hk Hv] Hps]%Forall_cons Hin. simpl in *. destruct (jseqb k' k) eqn:E.
  - apply jseqb_eq in E as ->. done.
  - apply elem_of_cons in Hin as [->|Hin]; [by rewrite jseqb_refl in E|]. by apply IH.
Qed.

Lemma form_pair_sep n t : Forall (fun c => unreserved c = true) n -> Forall (fun c => uri_unit c = true) t ->
  38 ∉ n ++ 61 :: replace_20 43 t /\ n ++ 61 :: replace_20 43 t <> [].
Proof.
  intros Hn Ht. split; [|by intros []%app_eq_nil]. rewrite elem_of_app, elem_of_cons.
  intros [H|[H|H%replace_20_elem]]; [|done|destruct H as [H|H]; [done|]].
  - by apply (unreserved_sep n 38) in H.
  - by apply (uri_unit_sep t 38) in H.
Qed.

Lemma form_pairs_spec ps ks : form_map ps -> Forall (fun k => k ∈ ps.*1) ks -> exists ts,
  form_pairs (DObject ps) ks = Ret ts /\ Forall (fun t => 38 ∉ t /\ t <> []) ts
  /\ mapM form_field ts = Ret (omap (sent_field (DObject ps)) ks).
Proof.
  intros Hps. induction 1 as [|k ks Hk _ (ts & E & Hs & IH)]; [by exists []|].
  destruct (form_map_get ps k Hps Hk) as [Hn Hv]. cbn [form_pairs omap list_omap].
  unfold sent_field at 1. destruct Hv as [->|(v & -> & Hv)]; [by exists ts|].
  destruct v as [|c v]; [by exists ts|]. unfold is_sent. cbn [is_undefined is_string dstring].
  change (jseqb (c :: v) []) with false. cbn [orb negb].
  destruct (encode_decode (c :: v)) as (t & Et & Ht); [apply Hv..|].
  exists ((k ++ 61 :: replace_20 43 t) :: ts). split_and!.
  - unfold mbind, outcome_bind. by rewrite Et, E.
  - constructor; [|done]. by apply form_pair_sep; [|apply Ht].
  - cbn [mapM]. by rewrite (form_field_pair k t (c :: v)), IH.
Qed.

(** The body that is built for a form reads as its fields. *)
Lemma buildFormData_fields ps : form_map ps -> exists body,
  buildFormData (DObject ps) = Ret body
  /\ form_fields body = Ret (omap (sent_field (DObject ps)) (order_keys ps.*1)).
Proof.
  intros Hps. destruct (form_pairs_spec ps (order_keys ps.*1)) as (ts & E & Hs & Hf); [done| |].
  { apply Forall_forall. intros k. by rewrite order_keys_elem. }
  exists (join [38] ts). unfold buildFormData. cbn [dkeys]. rewrite E. split; [done|].
  destruct ts as [|t ts]; [by rewrite <- Hf|].
  pose proof Hs as [[_ Hne] _]%Forall_cons. pose proof (join_ne [38] t ts Hne).
  unfold form_fields. destruct (join [38] (t :: ts)) as [|c r] eqn:Ej; [done|].
  rewrite <- Ej, split_join; [done..|]. eapply Forall_impl; [exact Hs|]. by intros ? [].
Qed.
