(* ===== verification/JsJson.v ===== *)
(** * [JSON.parse] and [JSON.stringify]

    The text format on plain data.  [JSON.parse] is a recursive descent whose
    fuel is above twice the length of the text, which is always enough; a text that is no JSON
    is [Throw tt].  [JSON.stringify] is the form without indentation. *)

From S2P Require Import JsPrelude JsNumber JsValue JsUnicode SwaggerData.

(** ** Reading *)

Definition json_space (c : Z) : bool := (c =? 9) || (c =? 10) || (c =? 13) || (c =? 32).

Fixpoint skip_space (s : jsstr) : jsstr :=
  match s with
  | c :: s' => if json_space c then skip_space s' else s
  | [] => []
  end.

(** What follows [p] at the front of [s]. *)
Fixpoint strip_prefix (p s : jsstr) : option jsstr :=
  match p, s with
  | [], _ => Some s
  | c :: p', d :: s' => if c =? d then strip_prefix p' s' else None
  | _ :: _, [] => None
  end.

(** One digit at least. *)
Definition some_digits (s : jsstr) : option jsstr :=
  let '(_, len, rest) := read_digits 10 0 0 s in if len =? 0 then None else Some rest.

(** What follows the number at the front of [s]. *)
Definition after_number (s : jsstr) : option jsstr :=
  let s1 := match s with c :: r => if c =? 45 then r else s | [] => s end in
  s2 ← match s1 with
       | c :: r => if c =? 48 then Some r else some_digits s1
       | [] => None
       end;
  s3 ← match s2 with c :: r => if c =? 46 then some_digits r else Some s2 | [] => Some s2 end;
  match s3 with
  | c :: r =>
      if (c =? 101) || (c =? 69) then
        some_digits (match r with d :: r' => if (d =? 43) || (d =? 45) then r' else r | [] => r end)
      else Some s3
  | [] => Some s3
  end.

Definition json_number (s : jsstr) : option (num * jsstr) :=
  rest ← after_number s; Some (parseFloat (take (length s - length rest) s), rest).

Definition json_escape (c : Z) : option Z :=
  if (c =? 34) || (c =? 92) || (c =? 47) then Some c
  else if c =? 98 then Some 8 else if c =? 102 then Some 12 else if c =? 110 then Some 10
  else if c =? 114 then Some 13 else if c =? 116 then Some 9 else None.

(** The string whose opening quote has been read. *)
Fixpoint json_string (s : jsstr) : option (jsstr * jsstr) :=
  match s with
  | [] => None
  | c :: r =>
      if c =? 34 then Some ([], r)
      else if c <? 32 then None
      else if c =? 92 then
        match r with
        | e :: r' =>
            if e =? 117 then
              match r' with
              | h1 :: h2 :: h3 :: h4 :: r'' =>
                  d1 ← hex_digit h1; d2 ← hex_digit h2; d3 ← hex_digit h3; d4 ← hex_digit h4;
                  '(t, rest) ← json_string r'';
                  Some (((d1 * 16 + d2) * 16 + d3) * 16 + d4 :: t, rest)
              | _ => None
              end
            else x ← json_escape e; '(t, rest) ← json_string r'; Some (x :: t, rest)
        | [] => None
        end
      else '(t, rest) ← json_string r; Some (c :: t, rest)
  end.

Definition json := outcome unit.

(** A value that is no array and no object. *)
Definition json_scalar (s : jsstr) : json (jdata * jsstr) :=
  match s with
  | [] => Throw tt
  | c :: r =>
      if c =? 34 then
        match json_string r with Some (t, rest) => Ret (DString t, rest) | None => Throw tt end
      else match strip_prefix (js "null") s, strip_prefix (js "true") s, strip_prefix (js "false") s with
           | Some rest, _, _ => Ret (DNull, rest)
           | _, Some rest, _ => Ret (DBool true, rest)
           | _, _, Some rest => Ret (DBool false, rest)
           | None, None, None =>
               match json_number s with Some (n, rest) => Ret (DNumber n, rest) | None => Throw tt end
           end
  end.

(** A name and the colon after it. *)
Definition json_key (s : jsstr) : json (jsstr * jsstr) :=
  match skip_space s with
  | c :: r =>
      if c =? 34 then
        match json_string r with
        | Some (k, rest) =>
            match skip_space rest with
            | d :: rest' => if d =? 58 then Ret (k, rest') else Throw tt
            | [] => Throw tt
            end
        | None => Throw tt
        end
      else Throw tt
  | [] => Throw tt
  end.

(** A value, the elements of an array and the members of an object, from the first
    one on. *)
Fixpoint json_value (fuel : nat) (s : jsstr) : json (jdata * jsstr) :=
  match fuel with
  | O => OutOfFuel
  | S f =>
      match skip_space s with
      | [] => Throw tt
      | c :: r =>
          if c =? 91 then
            match skip_space r with
            | d :: rest => if d =? 93 then Ret (DArray [], rest)
                           else '(es, rest) ← json_elements f r; Ret (DArray es, rest)
            | [] => Throw tt
            end
          else if c =? 123 then
            match skip_space r with
            | d :: rest => if d =? 125 then Ret (DObject [], rest)
                           else '(ps, rest) ← json_members f [] r; Ret (DObject ps, rest)
            | [] => Throw tt
            end
          else json_scalar (c :: r)
      end
  end
with json_elements (fuel : nat) (s : jsstr) : json (list jdata * jsstr) :=
  match fuel with
  | O => OutOfFuel
  | S f =>
      '(e, rest) ← json_value f s;
      match skip_space rest with
      | c :: r =>
          if c =? 44 then '(es, rest) ← json_elements f r; Ret (e :: es, rest)
          else if c =? 93 then Ret ([e], r) else Throw tt
      | [] => Throw tt
      end
  end
with json_members (fuel : nat) (ps : list (jsstr * jdata)) (s : jsstr)
    : json (list (jsstr * jdata) * jsstr) :=
  match fuel with
  | O => OutOfFuel
  | S f =>
      '(k, r) ← json_key s;
      '(v, rest) ← json_value f r;
      let ps := assoc_set ps k v in
      match skip_space rest with
      | c :: r =>
          if c =? 44 then json_members f ps r
          else if c =? 125 then Ret (ps, r) else Throw tt
      | [] => Throw tt
      end
  end.

(** [JSON.parse(text)]. *)
Definition JSON_parse (text : jsstr) : json jdata :=
  '(v, rest) ← json_value (S (2 * length text)) text;
  match skip_space rest with [] => Ret v | _ => Throw tt end.

(** ** Reviving

    [JSON.parse(text, reviver)] for a reviver that does not return [undefined]:
    it is called for every property after the properties of its value, in the
    order of [Object.keys], and at the end for the whole value with an empty
    name. *)

Section revive.
Variable reviver : jsstr -> jdata -> outcome native_error jdata.

Fixpoint each {X A} (l : list (jsstr * outcome X A)) (done : list (jsstr * A))
    : outcome X (list (jsstr * A)) :=
  match l with
  | [] => Ret done
  | (k, m) :: l' => v ← m; each l' (assoc_set done k v)
  end.

Fixpoint in_order {A} (ps : list (jsstr * A)) (ks : list jsstr) : list (jsstr * A) :=
  match ks with
  | [] => []
  | k :: ks' => match assoc_get ps k with
                | Some v => (k, v) :: in_order ps ks'
                | None => in_order ps ks'
                end
  end.

Fixpoint revive (name : jsstr) (d : jdata) : outcome native_error jdata :=
  match d with
  | DArray es =>
      es' ← (fix go (i : nat) (es : list jdata) : outcome native_error (list jdata) :=
               match es with
               | [] => Ret []
               | e :: es' =>
                   v ← revive (digits 10 (Z.of_nat i)) e; vs ← go (S i) es'; Ret (v :: vs)
               end) 0%nat es;
      reviver name (DArray es')
  | DObject ps =>
      let calls := (fix go (ps : list (jsstr * jdata)) : list (jsstr * outcome native_error jdata) :=
                      match ps with
                      | [] => []
                      | (k, v) :: ps' => (k, revive k v) :: go ps'
                      end) ps in
      ps' ← each (in_order calls (order_keys ps.*1)) ps;
      reviver name (DObject ps')
  | _ => reviver name d
  end.
End revive.

Lemma in_order_spec {A} (ps : list (jsstr * A)) (P : jsstr -> A -> Prop) ks :
  (forall k v, assoc_get ps k = Some v -> P k v) -> Forall (fun c => P c.1 c.2) (in_order ps ks).
Proof.
  intros HP. induction ks as [|k ks IH]; simpl; [constructor|].
  destruct (assoc_get ps k) as [v|] eqn:E; [constructor; [by apply HP|done]|done].
Qed.

Lemma in_order_keys {A} (ps : list (jsstr * A)) ks k :
  k ∈ (in_order ps ks).*1 <-> k ∈ ks /\ is_Some (assoc_get ps k).
Proof.
  induction ks as [|k' ks IH]; simpl; [split; [by intros ?%not_elem_of_nil|by intros [?%not_elem_of_nil _]]|]. rewrite elem_of_cons.
  destruct (assoc_get ps k') as [v|] eqn:E; cbn [fmap list_fmap fst]; rewrite ?elem_of_cons, IH.
  - split; [intros [->|[? ?]]; [rewrite E; eauto|tauto]|tauto].
  - split; [tauto|]. intros [[->|?] Hs]; [rewrite E in Hs; by destruct Hs|done].
Qed.

(** ** Writing *)

Definition json_hex4 (c : Z) : jsstr :=
  digit_unit <$> [c / 4096; (c / 256) mod 16; (c / 16) mod 16; c mod 16].

Definition quote_unit (c : Z) : jsstr :=
  if (c =? 34) || (c =? 92) then [92; c]
  else if c =? 8 then js "\b" else if c =? 9 then js "\t" else if c =? 10 then js "\n"
  else if c =? 12 then js "\f" else if c =? 13 then js "\r"
  else if c <? 32 then js "\u" ++ json_hex4 c
  else [c].

(** A lone surrogate is written as an escape. *)
Fixpoint quote_units (s : jsstr) : jsstr :=
  match s with
  | [] => []
  | c :: rest =>
      if is_lead c then
        match rest with
        | n :: rest' => if is_trail n then c :: n :: quote_units rest'
                        else js "\u" ++ json_hex4 c ++ quote_units rest
        | [] => js "\u" ++ json_hex4 c
        end
      else if is_trail c then js "\u" ++ json_hex4 c ++ quote_units rest
      else quote_unit c ++ quote_units rest
  end.

Definition json_quote (s : jsstr) : jsstr := 34 :: quote_units s ++ [34].

Definition num_json (n : num) : jsstr :=
  match n with
  | SpecFloat.S754_nan | SpecFloat.S754_infinity _ => js "null"
  | _ => num_toString n
  end.

(** [JSON.stringify(d)], [None] for [undefined]. *)
Fixpoint JSON_stringify (d : jdata) : option jsstr :=
  match d with
  | DUndefined => None
  | DNull => Some (js "null")
  | DBool b => Some (js (if b then "true" else "false"))
  | DNumber n => Some (num_json n)
  | DString s => Some (json_quote s)
  | DArray es =>
      Some (js "[" ++ join [44] ((fun e => default (js "null") (JSON_stringify e)) <$> es) ++ js "]")
  | DObject ps =>
      let texts := (fix go (ps : list (jsstr * jdata)) : list (jsstr * option jsstr) :=
                      match ps with
                      | [] => []
                      | (k, v) :: ps' => (k, JSON_stringify v) :: go ps'
                      end) ps in
      Some (js "{" ++ join [44] (omap (fun p : jsstr * option jsstr =>
                                         t ← p.2; Some (json_quote p.1 ++ 58 :: t))
                                      (in_order texts (order_keys ps.*1))) ++ js "}")
  end.

(** ** The fuel is enough *)

Lemma skip_space_length s : (length (skip_space s) <= length s)%nat.
Proof. induction s as [|c s IH]; simpl; [done|]. destruct (json_space c); simpl; lia. Qed.

Lemma strip_prefix_length p : forall s rest, strip_prefix p s = Some rest ->
  length s = (length p + length rest)%nat.
Proof.
  induction p as [|c p IH]; intros [|d s] rest; simpl; [by intros [= <-]..|done|].
  destruct (c =? d); [|done]. intros H%IH. lia.
Qed.

Lemma read_digits_length radix s : forall acc len,
  let '(_, n, rest) := read_digits radix acc len s in
  Z.of_nat (length s) = n - len + Z.of_nat (length rest) /\ len <= n.
Proof.
  induction s as [|c s IH]; intros acc len; simpl; [lia|]. destruct (is_digit radix c); [|simpl; lia].
  specialize (IH (acc * radix + digit_value c) (len + 1)).
  destruct (read_digits radix _ _ s) as [[v n] rest]. lia.
Qed.

Lemma some_digits_length s rest : some_digits s = Some rest -> (length rest < length s)%nat.
Proof.
  unfold some_digits. pose proof (read_digits_length 10 s 0 0) as H.
  destruct (read_digits 10 0 0 s) as [[v n] r]. destruct (Z.eqb_spec n 0); [done|]. intros [= <-]. lia.
Qed.

(** Splits a definition into its cases and collects what the readers leave. *)
Ltac json_cases :=
  repeat match goal with
  | |- _ => progress simplify_eq
  | H : some_digits _ = Some _ |- _ => apply some_digits_length in H
  | H : strip_prefix _ _ = Some _ |- _ => apply strip_prefix_length in H
  | H : context [match ?x with _ => _ end] |- _ =>
      lazymatch x with
      | context [match _ with _ => _ end] => fail
      | _ => destruct x eqn:?
      end
  end.

Lemma after_number_length s rest : after_number s = Some rest -> (length rest < length s)%nat.
Proof.
  unfold after_number, mbind, option_bind. intros H. json_cases; simpl in *; lia.
Qed.

Lemma json_string_length s : forall t rest, json_string s = Some (t, rest) -> (length rest < length s)%nat.
Proof.
  induction s as [s IH] using (induction_ltof1 _ (@length Z)). unfold ltof in IH. intros t rest.
  destruct s as [|c r]; [done|]. cbn [json_string]. unfold mbind, option_bind. intros H.
  json_cases; simpl in *; try lia;
  match goal with E : json_string ?u = Some (?v, ?w) |- _ =>
    pose proof (IH u ltac:(simpl; lia) v w E); lia end.
Qed.

Lemma json_scalar_spec s : json_scalar s <> OutOfFuel
  /\ forall d rest, json_scalar s = Ret (d, rest) -> (length rest < length s)%nat.
Proof.
  unfold json_scalar, json_number, mbind, option_bind. split.
  - repeat case_match; done.
  - intros d rest H. destruct s as [|c r]; [done|].
    json_cases; simpl in *; try lia.
    + apply json_string_length in Heqo. simpl in *. lia.
    + apply after_number_length in Heqo2. simpl in *. lia.
Qed.

Lemma json_key_spec s : json_key s <> OutOfFuel
  /\ forall k rest, json_key s = Ret (k, rest) -> (length rest < length s)%nat.
Proof.
  unfold json_key. pose proof (skip_space_length s) as Hs. split.
  - repeat case_match; done.
  - intros k rest H. destruct (skip_space s) as [|c r]; [done|]. destruct (c =? 34); [|done].
    destruct (json_string r) as [[t u]|] eqn:E; [|done]. apply json_string_length in E.
    pose proof (skip_space_length u). destruct (skip_space u) as [|d u']; [done|].
    destruct (d =? 58); [|done]. injection H as <- <-. simpl in *. lia.
Qed.

(** What a reader promises on a text of [n] units. *)
Definition reads {A} (n : nat) (m : json (A * jsstr)) : Prop :=
  m <> OutOfFuel /\ forall a rest, m = Ret (a, rest) -> (length rest < n)%nat.

Lemma reads_throw {A} n : reads n (Throw tt : json (A * jsstr)).
Proof. done. Qed.

Lemma reads_ret {A} n (a : A) rest : (length rest < n)%nat -> reads n (Ret (a, rest)).
Proof. intros H. split; [done|]. by intros ? ? [= _ <-]. Qed.

Lemma reads_bind {A B} n m (p : json (A * jsstr)) (k : A * jsstr -> json (B * jsstr)) :
  reads m p -> (forall a rest, (length rest < m)%nat -> reads n (k (a, rest))) -> reads n (p ≫= k).
Proof.
  intros [Hf Hr] Hk. destruct p as [[a rest]|[]|]; [|by apply reads_throw|done].
  apply Hk. by eapply Hr.
Qed.

Lemma reads_mono {A} n n' (m : json (A * jsstr)) : reads n m -> (n <= n')%nat -> reads n' m.
Proof. intros [Hf Hr] Hn. split; [done|]. intros a rest H%Hr. lia. Qed.

Lemma json_reads fuel :
  (forall s, (2 * length s < fuel)%nat -> reads (length s) (json_value fuel s))
  /\ (forall s, (2 * length s + 1 < fuel)%nat -> reads (length s) (json_elements fuel s))
  /\ (forall s ps, (2 * length s + 1 < fuel)%nat -> reads (length s) (json_members fuel ps s)).
Proof.
  induction fuel as [|f (IHv & IHe & IHm)]; [split_and!; lia|]. split_and!.
  - intros s Hs. cbn [json_value]. pose proof (skip_space_length s) as Hl.
    destruct (skip_space s) as [|c r] eqn:E; [apply reads_throw|]. simpl in Hl.
    pose proof (skip_space_length r).
    destruct (c =? 91); [|destruct (c =? 123)].
    + destruct (skip_space r) as [|d rest] eqn:Er; [apply reads_throw|]. simpl in *.
      destruct (d =? 93); [apply reads_ret; lia|].
      eapply reads_bind; [apply IHe; lia|]. intros. apply reads_ret. lia.
    + destruct (skip_space r) as [|d rest] eqn:Er; [apply reads_throw|]. simpl in *.
      destruct (d =? 125); [apply reads_ret; lia|].
      eapply reads_bind; [apply IHm; lia|]. intros. apply reads_ret. lia.
    + apply reads_mono with (length (c :: r)); [apply json_scalar_spec|simpl; lia].
  - intros s Hs. cbn [json_elements]. eapply reads_bind; [apply IHv; lia|]. intros e rest Hr.
    pose proof (skip_space_length rest). destruct (skip_space rest) as [|c r]; [apply reads_throw|].
    simpl in *. destruct (c =? 44); [|destruct (c =? 93); [apply reads_ret; lia|apply reads_throw]].
    eapply reads_bind; [apply IHe; lia|]. intros. apply reads_ret. lia.
  - intros s ps Hs. cbn [json_members]. eapply reads_bind; [apply json_key_spec|]. intros k r Hr.
    eapply reads_bind; [apply IHv; lia|]. intros v rest Hrest. pose proof (skip_space_length rest).
    destruct (skip_space rest) as [|c r']; [apply reads_throw|]. simpl in *.
    destruct (c =? 44); [eapply reads_mono; [apply IHm|]; lia|].
    destruct (c =? 125); [apply reads_ret; lia|apply reads_throw].
Qed.

Lemma JSON_parse_total text : JSON_parse text <> OutOfFuel.
Proof.
  unfold JSON_parse. destruct (json_reads (S (2 * length text))) as (Hv & _).
  destruct (Hv text ltac:(lia)) as [H _]. destruct (json_value _ text) as [[v rest]|[]|]; [|done..].
  simpl. by destruct (skip_space rest).
Qed.

(** ** Objects of plain strings *)

(** A unit that stands for itself in a JSON string. *)
Definition plain_unit (c : Z) : bool := (32 <=? c) && negb (c =? 34) && negb (c =? 92).

Lemma json_string_plain t rest : Forall (fun c => plain_unit c = true) t ->
  json_string (t ++ 34 :: rest) = Some (t, rest).
Proof.
  unfold plain_unit. induction 1 as [|c t Hc _ IH]; [done|]. simpl app. cbn [json_string].
  bool_to_prop. rewrite (proj2 (Z.eqb_neq c 34)), (proj2 (Z.ltb_ge c 32)), (proj2 (Z.eqb_neq c 92)) by done.
  by rewrite IH.
Qed.

(** The text of a member. *)
Definition member_text (p : jsstr * jsstr) : jsstr := 34 :: p.1 ++ 34 :: 58 :: 34 :: p.2 ++ [34].

Lemma json_members_plain l : forall fuel ps rest, (S (length l) < fuel)%nat -> l <> [] ->
  Forall (fun p => Forall (fun c => plain_unit c = true) p.1 /\ Forall (fun c => plain_unit c = true) p.2) l ->
  json_members fuel ps (join [44] (member_text <$> l) ++ 125 :: rest)
  = Ret (foldl (fun ps p => assoc_set ps p.1 (DString p.2)) ps l, rest).
Proof.
  induction l as [|[k v] l IH]; intros fuel ps rest Hf Hl Hp; [done|].
  apply Forall_cons in Hp as [[Hk Hv] Hp]. simpl in Hk, Hv, Hf.
  assert (Hstep : forall u f, (1 < f)%nat ->
    json_members f ps (member_text (k, v) ++ u) =
      match skip_space u with
      | c :: r => if c =? 44 then json_members (pred f) (assoc_set ps k (DString v)) r
                  else if c =? 125 then Ret (assoc_set ps k (DString v), r) else Throw tt
      | [] => Throw tt
      end).
  { intros u [|[|f]] Hf'; [lia..|]. cbn [json_members pred]. unfold member_text.
    cbn [app fst snd]. rewrite <- app_assoc. cbn [app]. rewrite <- app_assoc. cbn [app].
    unfold json_key. cbn [skip_space json_space]. change (json_space 34) with false. cbv iota.
    change (34 =? 34) with true. cbv iota. rewrite json_string_plain by done.
    cbn [skip_space]. change (json_space 58) with false. cbv iota. change (58 =? 58) with true. cbv iota.
    unfold mbind at 1, outcome_bind at 1. cbn [json_value skip_space].
    change (json_space 34) with false. cbv iota. change (34 =? 91) with false. cbv iota.
    change (34 =? 123) with false. cbv iota. unfold json_scalar. change (34 =? 34) with true. cbv iota.
    by rewrite json_string_plain by done. }
  destruct l as [|p l].
  - cbn [fmap list_fmap join]. rewrite Hstep by lia. done.
  - change (join [44] (member_text <$> (k, v) :: p :: l))
      with (member_text (k, v) ++ 44 :: join [44] (member_text <$> p :: l)).
    rewrite <- app_assoc, Hstep by lia. cbn [app skip_space]. change (json_space 44) with false. cbv iota.
    change (44 =? 44) with true. cbv iota. rewrite IH; [done|simpl in *; lia|done|done].
Qed.
