(* ===== verification/SwaggerHighlight.v ===== *)
(** * Swagger UI: [highlight]

    The page shows request and response bodies with the tokenizer of
    [highlight]: it cuts the text of an element into tokens and puts a [span] for
    each in its place.  The loop of the source keeps the character before, the one
    before that, the token so far and its type:

    - 0 anything else, 1 operator, 2 closing bracket, 3 word, 4 regular expression,
      5 and 6 strings, 7 [<!-- -->], 8 [/* */], 9 [//] and 10 [#] comments.

    A variable that holds a character can also be [undefined] behind the end of the
    text, and [1] at its start and after an escape. *)

From S2P Require Import JsPrelude JsNumber JsRegExp.

(** ** Characters *)

Inductive jchar : Type :=
| Undefined
| One
| Chr (c : Z).

(** [String(u)]. *)
Definition char_text (u : jchar) : jsstr :=
  match u with Undefined => js "undefined" | One => js "1" | Chr c => [c] end.

(** [text[i]]. *)
Definition char_at (text : jsstr) (i : Z) : jchar :=
  if i <? 0 then Undefined
  else match text !! Z.to_nat i with Some c => Chr c | None => Undefined end.

(** [u == "c"].  A sum of several is compared with a text one by one: [undefined]
    and [1] do not add up to any of these texts. *)
Definition is_char (c : Z) (u : jchar) : bool := match u with Chr d => d =? c | _ => false end.

Definition truthy (u : jchar) : bool := match u with Undefined => false | _ => true end.

(** [/[...]/.test(u)]. *)
Definition some_unit (p : Z -> bool) (u : jchar) : bool := existsb p (char_text u).

(** [/\S/], [/[$\w]/], the operators and the closing brackets. *)
Definition not_space (c : Z) : bool := negb (is_js_space c).
Definition word_unit (c : Z) : bool :=
  (c =? 36) || in_range 65 90 c || in_range 97 122 c || in_range 48 57 c || (c =? 95).
Definition operator_unit : Z -> bool := one_of (js "/{}[(-+*=<>:;|\.,?!&@~").
Definition closing_unit : Z -> bool := one_of (js "])").

Definition L (s : String.string) : regex := RLit (js s).

(** The words of the pattern behind [^] and before [$]. *)
Definition keywords : regex :=
  RAlts [
    RSeqs [L "a"; RAlts [L "bstract"; L "lias"; L "nd"; L "rguments"; L "rray"; RSeqs
    [L "s"; ROpt (RAlts [L "m"; L "sert"])]; L "uto"]]; RSeqs [L "b"; RAlts [L "ase";
    L "egin"; RSeqs [L "ool"; ROpt (L "ean")]; L "reak"; L "yte"]]; RSeqs [L "c"; RAlts
    [L "ase"; L "atch"; L "har"; L "hecked"; L "lass"; L "lone"; L "ompl"; L "onst";
    L "ontinue"]]; RSeqs [L "de"; RAlts [L "bugger"; L "cimal"; L "clare"; RSeqs [L "f";
    ROpt (RAlts [L "ault"; L "er"])]; L "init"; RSeqs [L "l"; ROpt (RAlts [L "egate";
    L "ete"])]]]; L "do"; L "double"; RSeqs [L "e"; RAlts [L "cho"; RSeqs [L "l";
    ROpt (L "s"); L "if"]; RSeqs [L "lse"; ROpt (L "if")]; L "nd"; L "nsure"; L "num";
    L "vent"; RSeqs [L "x"; RAlts [L "cept"; L "ec"; RSeqs [L "p"; RAlts [L "licit";
    L "ort"]]; RSeqs [L "te"; RAlts [L "nds"; L "nsion"; L "rn"]]]]]]; RSeqs [L "f"; RAlts
    [L "allthrough"; L "alse"; RSeqs [L "inal"; ROpt (L "ly")]; L "ixed"; L "loat"; RSeqs
    [L "or"; ROpt (L "each")]; L "riend"; L "rom"; RSeqs [L "unc"; ROpt (L "tion")]]];
    L "global"; L "goto"; L "guard"; RSeqs [L "i"; RAlts [L "f"; RSeqs [L "mp"; RAlts
    [L "lements"; L "licit"; L "ort"]]; RSeqs [L "n"; ROpt (RAlts [L "it"; RSeqs [L "clude";
    ROpt (L "_once")]; L "line"; L "out"; L "stanceof"; RSeqs [L "t"; ROpt (RAlts
    [L "erface"; L "ernal"])]])]; L "s"]]; RSeqs [L "l"; RAlts [L "ambda"; L "et"; L "ock";
    L "ong"]]; RSeqs [L "m"; RAlts [L "icrolight"; L "odule"; L "utable"]]; L "NaN"; RSeqs
    [L "n"; RAlts [L "amespace"; L "ative"; L "ext"; L "ew"; L "il"; L "ot"; L "ull"]];
    RSeqs [L "o"; RAlts [L "bject"; L "perator"; L "r"; L "ut"; L "verride"]]; RSeqs [L "p";
    RAlts [L "ackage"; L "arams"; L "rivate"; L "rotected"; L "rotocol"; L "ublic"]]; RSeqs
    [L "r"; RAlts [L "aise"; RSeqs [L "e"; RAlts [L "adonly"; L "do"; L "f"; L "gister";
    L "peat"; RSeqs [L "quire"; ROpt (L "_once")]; L "scue"; L "strict"; L "try";
    L "turn"]]]]; RSeqs [L "s"; RAlts [L "byte"; L "ealed"; L "elf"; L "hort"; L "igned";
    L "izeof"; L "tatic"; L "tring"; L "truct"; L "ubscript"; L "uper"; L "ynchronized";
    L "witch"]]; RSeqs [L "t"; RAlts [L "emplate"; L "hen"; L "his"; RSeqs [L "hrow";
    ROpt (L "s")]; L "ransient"; L "rue"; L "ry"; RSeqs [L "ype"; RAlts [L "alias"; L "def";
    L "id"; L "name"; L "of"]]]]; RSeqs [L "u"; RAlts [RSeqs [L "n"; RAlts [L "checked";
    RSeqs [L "def"; ROpt (L "ined")]; L "ion"; L "less"; L "signed"; L "til"]]; L "se";
    L "sing"]]; RSeqs [L "v"; RAlts [L "ar"; L "irtual"; L "oid"; L "olatile"]]; RSeqs
    [L "w"; RAlts [L "char_t"; L "hen"; L "here"; L "hile"; L "ith"]]; L "xor"; L "yield"].

(** ** The loop *)

Record hstate : Type := mkHState {
  pos : Z;
  next1 : jchar;
  chr : jchar;
  prev1 : jchar;
  prev2 : jchar;
  token : jsstr;
  tokenType : Z;
  lastTokenType : option Z;
  spans : list (jsstr * jsstr)
}.

Definition styles : list jsstr :=
  [js "color: #555; font-weight: bold;"; []; []; js "color: #555;"; []].

Definition style_of (tokenType : Z) (token : jsstr) : jsstr :=
  let i := if tokenType =? 0 then 0
           else if tokenType <? 3 then 2
           else if 6 <? tokenType then 4
           else if 3 <? tokenType then 3
           else if rmatch keywords token then 1 else 0 in
  default [] (styles !! Z.to_nat i).

Section text.
Variable text : jsstr.

(** Whether the token ends before [chr]. *)
Definition token_ends (s : hstate) : bool :=
  let multichar := (1 <? length (token s))%nat in
  negb (truthy (chr s))
  || (8 <? tokenType s) && is_char 10 (chr s)
  || match tokenType s with
     | 0 => some_unit not_space (chr s)
     | 1 | 2 => true
     | 3 => negb (some_unit word_unit (chr s))
     | 4 => (is_char 47 (prev1 s) || is_char 10 (prev1 s)) && multichar
     | 5 => is_char 34 (prev1 s) && multichar
     | 6 => is_char 39 (prev1 s) && multichar
     | 7 => is_char 45 (char_at text (pos s - 4)) && is_char 45 (prev2 s) && is_char 62 (prev1 s)
     | 8 => is_char 42 (prev2 s) && is_char 47 (prev1 s)
     | _ => false
     end.

(** Whether a token of type [t] starts at [chr]. *)
Definition starts (last : option Z) (s : hstate) (t : Z) : bool :=
  let c := chr s in
  let n := next1 s in
  match t with
  | 0 => true
  | 1 => some_unit operator_unit c
  | 2 => some_unit closing_unit c
  | 3 => some_unit word_unit c
  | 4 => is_char 47 c && match last with Some l => l <? 2 | None => false end
         && negb (is_char 60 (prev1 s))
  | 5 => is_char 34 c
  | 6 => is_char 39 c
  | 7 => is_char 60 c && is_char 33 n && is_char 45 (char_at text (pos s + 1))
         && is_char 45 (char_at text (pos s + 2))
  | 8 => is_char 47 c && is_char 42 n
  | 9 => is_char 47 c && is_char 47 n
  | _ => is_char 35 c
  end.

(** [while (![...][--tokenType]) {}]. *)
Fixpoint new_type (last : option Z) (s : hstate) (tokenType : nat) : Z :=
  match tokenType with
  | O => 0
  | S t => if starts last s (Z.of_nat t) then Z.of_nat t else new_type last s t
  end.

(** A token that ends is shown, and the next one begins. *)
Definition end_token (s : hstate) : hstate :=
  let spans' := match token s with
                | [] => spans s
                | _ => spans s ++ [(style_of (tokenType s) (token s), token s)]
                end in
  let last := if negb (tokenType s =? 0) && (tokenType s <? 7) then Some (tokenType s)
              else lastTokenType s in
  mkHState (pos s) (next1 s) (chr s) (prev1 s) (prev2 s) [] (new_type last s 11) last spans'.

Definition add_char (s : hstate) : hstate :=
  mkHState (pos s) (next1 s) (chr s) (prev1 s) (prev2 s) (token s ++ char_text (chr s))
           (tokenType s) (lastTokenType s) (spans s).

(** The condition of the loop, with its assignments, and the body. *)
Definition loop_head (s : hstate) : hstate :=
  mkHState (pos s) (next1 s) (chr s)
           (if (tokenType s <? 7) && is_char 92 (prev1 s) then One else chr s) (prev1 s)
           (token s) (tokenType s) (lastTokenType s) (spans s).

Definition next_char (s : hstate) : hstate :=
  mkHState (pos s + 1) (char_at text (pos s + 1)) (next1 s) (prev1 s) (prev2 s)
           (token s) (tokenType s) (lastTokenType s) (spans s).

Definition loop_body (s : hstate) : hstate :=
  let s := next_char s in
  add_char (if token_ends s then end_token s else s).

Fixpoint reset_loop (fuel : nat) (s : hstate) : option (list (jsstr * jsstr)) :=
  match fuel with
  | O => None
  | S fuel' =>
      let s := loop_head s in
      if truthy (prev1 s) then reset_loop fuel' (loop_body s) else Some (spans s)
  end.

Definition initial_state : hstate :=
  mkHState 0 (char_at text 0) One Undefined Undefined [] 0 None [].

(** The spans of the element, with their styles. *)
Definition reset : option (list (jsstr * jsstr)) := reset_loop (length text + 3) initial_state.
End text.

(** What an element shows afterwards. *)
Inductive shown : Type :=
| NoElement
| TooLong (text : jsstr)
| Highlighted (spans : option (list (jsstr * jsstr))).

Definition MAX_LENGTH : Z := 5000.

Definition highlight (el : option jsstr) : shown :=
  match el with
  | None => NoElement
  | Some text => if MAX_LENGTH <? Z.of_nat (length text) then TooLong text
                 else Highlighted (reset text)
  end.

(** ** No character is lost *)

Definition all_text (l : list (jsstr * jsstr)) : jsstr := concat (l.*2).

(** The loop has read [k] characters. *)
Record read_so_far (text : jsstr) (k : nat) (s : hstate) : Prop := {
  read_pos : pos s = Z.of_nat k;
  read_next : next1 s = char_at text (Z.of_nat k);
  read_text : all_text (spans s) ++ token s = take k text;
  read_chr : chr s = One /\ k = O \/ exists c, chr s = Chr c /\ last (take k text) = Some c
}.

Lemma end_token_text text s :
  all_text (spans (end_token text s)) = all_text (spans s) ++ token s.
Proof.
  unfold end_token. destruct (token s) as [|c t] eqn:E; simpl; [by rewrite app_nil_r|].
  unfold all_text. rewrite fmap_app, concat_app. simpl. by rewrite app_nil_r.
Qed.

Lemma char_at_lookup text k c : text !! k = Some c -> char_at text (Z.of_nat k) = Chr c.
Proof. intros H. unfold char_at. rewrite (proj2 (Z.ltb_ge _ _)) by lia. by rewrite Nat2Z.id, H. Qed.

Lemma char_at_end text k : (length text <= k)%nat -> char_at text (Z.of_nat k) = Undefined.
Proof.
  intros H. unfold char_at. rewrite (proj2 (Z.ltb_ge _ _)) by lia.
  by rewrite Nat2Z.id, lookup_ge_None_2.
Qed.

Lemma token_boundary text s :
  let s' := if token_ends text s then end_token text s else s in
  pos s' = pos s /\ next1 s' = next1 s /\ chr s' = chr s
  /\ all_text (spans s') ++ token s' = all_text (spans s) ++ token s.
Proof.
  simpl. destruct (token_ends text s); [|done]. split_and!; try done.
  rewrite end_token_text. change (token (end_token text s)) with (@nil Z). by rewrite app_nil_r.
Qed.

(** One round of the loop reads one character. *)
Lemma loop_reads text k s : (k < length text)%nat -> read_so_far text k s ->
  truthy (prev1 (loop_head s)) = true /\ read_so_far text (S k) (loop_body text (loop_head s)).
Proof.
  intros Hk [Hp Hn Ht Hc]. destruct (lookup_lt_is_Some_2 text k Hk) as [c Hl].
  split; [unfold loop_head; destruct Hc as [[-> _]|(d & -> & _)]; simpl; by case_match|].
  rewrite (char_at_lookup text k c Hl) in Hn.
  assert (Hlast : take (S k) text = take k text ++ [c]) by (by apply take_S_r).
  unfold loop_body. destruct (token_boundary text (next_char text (loop_head s))) as (H1 & H2 & H3 & H4).
  destruct (if token_ends _ _ then _ else _) as [p n ch p1 p2 tk ty lt sp].
  cbn [next_char loop_head pos next1 chr token spans] in *. subst.
  split; cbn [add_char pos next1 chr token spans].
  - lia.
  - f_equal. lia.
  - by rewrite (assoc_L (++)), H4, Ht, Hlast, Hn.
  - right. exists c. by rewrite Hlast, last_snoc.
Qed.

(** Behind the end of the text every token ends, and the next one is the word
    "undefined". *)
Lemma loop_behind text s : next1 s = Undefined -> (length text <= Z.to_nat (pos s + 1))%nat -> 0 <= pos s ->
  let s' := loop_body text s in
  next1 s' = Undefined /\ chr s' = Undefined /\ prev1 s' = prev1 s /\ token s' = js "undefined"
  /\ tokenType s' = 3 /\ pos s' = pos s + 1 /\ all_text (spans s') = all_text (spans s) ++ token s.
Proof.
  intros Hn Hl Hp. unfold loop_body, next_char. rewrite Hn.
  unfold token_ends. cbn [chr truthy negb orb].
  split_and!; try done.
  - simpl. rewrite <- (Z2Nat.id (pos s + 1)) by lia. by apply char_at_end.
  - unfold add_char. cbn [spans]. rewrite end_token_text. done.
Qed.

Lemma reset_end text fuel s : read_so_far text (length text) s ->
  exists l, reset_loop text (S (S (S fuel))) s = Some l
    /\ (all_text l = text \/ last text = Some 92 /\ all_text l = text ++ js "undefined").
Proof.
  intros [Hp Hn Ht Hc]. rewrite take_ge in Ht by done. rewrite char_at_end in Hn by done.
  assert (Hh : truthy (prev1 (loop_head s)) = true)
    by (unfold loop_head; destruct Hc as [[-> _]|(d & -> & _)]; simpl; by case_match).
  cbn [reset_loop]. rewrite Hh. clear Hh.
  destruct (loop_behind text (loop_head s)) as (Nn & Nc & Np & Nt & Nty & Npos & Nx);
    [done|simpl; lia|simpl; lia|].
  set (s1 := loop_body text (loop_head s)) in *. clearbody s1. cbn [loop_head spans token] in Nx. rewrite Ht in Nx.
  unfold loop_head at 1. cbn [prev1]. rewrite Nty, Np, Nc. cbn [Z.ltb Z.compare andb].
  destruct (is_char 92 (prev1 (loop_head s))) eqn:E; cbn [truthy].
  - destruct (loop_behind text (loop_head s1)) as (_ & Mc & Mp & _ & Mty & _ & Mx);
      [exact Nn|change (pos (loop_head s1)) with (pos s1); rewrite Npos; cbn [loop_head pos]; lia..|].
    set (s2 := loop_body text (loop_head s1)) in *. clearbody s2. unfold loop_head at 1 2. cbn [prev1 spans].
    unfold loop_head in Mp at 1. cbn [prev1] in Mp. rewrite Nty, Np, E in Mp. cbn in Mp.
    rewrite Mty, Mp, Mc. cbn. exists (spans s2). split; [done|]. right.
    rewrite Mx. cbn [loop_head spans token]. rewrite Nx, Nt. split; [|done].
    unfold loop_head in E. cbn [prev1] in E. destruct (_ && _); [done|].
    destruct Hc as [[Hc _]|(c & Hc & Hl)]; rewrite Hc in E; [done|]. simpl in E.
    apply Z.eqb_eq in E as ->. by rewrite take_ge in Hl.
  - exists (spans s1). split; [done|]. by left.
Qed.

Lemma reset_loop_reads text n k s fuel : (k + n = length text)%nat -> read_so_far text k s ->
  exists s', read_so_far text (length text) s'
    /\ reset_loop text (n + fuel) s = reset_loop text fuel s'.
Proof.
  revert k s. induction n as [|n IH]; intros k s Hk Hr.
  - exists s. by rewrite <- Hk, Nat.add_0_r.
  - destruct (loop_reads text k s ltac:(lia) Hr) as [Ht Hr'].
    destruct (IH (S k) _ ltac:(lia) Hr') as (s' & Hs' & E). exists s'. split; [done|].
    cbn [Nat.add reset_loop]. by rewrite Ht.
Qed.

(** C25: [highlight] ends for every text and what it shows is the text: the tokens
    put together are the text, unless its last character is a backslash; then they
    can be followed by the word "undefined", which is what happens for a single
    backslash. *)
Theorem highlight_shows_text :
  (forall text, exists l, reset text = Some l
    /\ (all_text l = text \/ last text = Some 92 /\ all_text l = text ++ js "undefined"))
  /\ all_text <$> reset (js "\") = Some (js "\undefined").
Proof.
  split; [|reflexivity]. intros text.
  destruct (reset_loop_reads text (length text) 0 (initial_state text) 3) as (s & Hs & E);
    [done|by split; [..|left]|].
  unfold reset. rewrite E. by apply reset_end.
Qed.
