(* ===== verification/SwaggerUrl.v ===== *)
(** * Swagger UI: addresses in a description

    The addresses of a description (of its contact, its licence, its external
    documentation) become links of the page after [sanitizeUrl] has seen them.  The
    theorem compares it with the way a browser reads the scheme of an address. *)

From S2P Require Import JsPrelude JsNumber JsRegExp SwaggerData.

(** ** The sanitizer *)

(** [/[^\x20-\x7E]/gim]. *)
Definition ctrlCharacters (c : Z) : bool := negb (in_range 32 126 c).

(** A literal under the flag [i]. *)
Fixpoint RLit_i (s : jsstr) : regex :=
  match s with [] => REps | c :: s' => RSeq (RClass (fun x => lower_unit x =? c)) (RLit_i s') end.

(** [/^(%20|\s)*(javascript|data)/im], with what may follow. *)
Definition invalidPrototcolRegex : regex :=
  RSeqs [RStar (RAlt (RLit (js "%20")) (RClass is_js_space));
         RAlt (RLit_i (js "javascript")) (RLit_i (js "data"));
         RStar (RClass (fun _ => true))].

Definition isRelativeUrl (url : jsstr) : bool :=
  match url with c :: _ => one_of (js "./") c | [] => false end.

(** The first match of [/^([^:]+):/gm] in a text of one line. *)
Fixpoint scheme_part (url : jsstr) : option jsstr :=
  match url with
  | [] => None
  | c :: url' => if c =? 58 then Some [58] else cons c <$> scheme_part url'
  end.

Definition urlScheme (url : jsstr) : option jsstr :=
  match scheme_part url with
  | Some (c :: d :: s) => Some (c :: d :: s)
  | _ => None
  end.

Definition sanitize (url : jsstr) : jsstr :=
  let sanitizedUrl := List.filter (fun c => negb (ctrlCharacters c)) url in
  if isRelativeUrl sanitizedUrl then sanitizedUrl
  else match urlScheme sanitizedUrl with
       | None => js "about:blank"
       | Some scheme => if rmatch invalidPrototcolRegex scheme then js "about:blank" else sanitizedUrl
       end.

(** The function of the page, on any value. *)
Definition sanitizeUrl (url : jdata) : jsstr :=
  match url with DString (c :: s) => sanitize (c :: s) | _ => [] end.

(** ** How a browser reads an address

    White space and control characters before the address and line breaks and tabs
    inside are dropped; a scheme is a letter, then letters, digits and signs, up to the
    first colon. *)

Fixpoint drop_blank (s : jsstr) : jsstr :=
  match s with c :: s' => if c <=? 32 then drop_blank s' else s | [] => [] end.

Definition is_letter (c : Z) : bool := in_range 97 122 (lower_unit c).

Definition scheme_unit (c : Z) : bool := is_letter c || in_range 48 57 c || one_of (js "+-.") c.

Fixpoint read_scheme (s : jsstr) : option jsstr :=
  match s with
  | [] => None
  | c :: s' => if c =? 58 then Some []
               else if scheme_unit c then cons (lower_unit c) <$> read_scheme s' else None
  end.

Definition browser_scheme (url : jsstr) : option jsstr :=
  let s := List.filter (fun c => negb (one_of [9; 10; 13] c)) (drop_blank url) in
  match s with
  | c :: _ => if is_letter c then read_scheme s else None
  | [] => None
  end.

(** ** Facts *)

Definition printable (s : jsstr) : Prop := Forall (fun c => ctrlCharacters c = false) s.

Lemma RLit_i_matches w s : matches (RLit_i w) s <-> toLowerCase s = w.
Proof.
  revert s. induction w as [|c w IH]; intros s; simpl.
  - split; [by inversion 1|]. destruct s; [constructor|done].
  - split.
    + inversion 1 as [| |? ? s1 s2 H1 H2| | | |]; subst. inversion H1 as [|? d Hd| | | | |]; subst.
      apply Z.eqb_eq in Hd. apply IH in H2.
      change (lower_unit d :: toLowerCase s2 = c :: w). congruence.
    + destruct s as [|d s]; [done|]. intros [= Hd Hs]. apply (m_seq _ _ [d] s).
      * constructor. by apply Z.eqb_eq.
      * by apply IH.
Qed.

Lemma any_matches s : matches (RStar (RClass (fun _ => true))) s.
Proof. apply star_class. by apply Forall_forall. Qed.

Lemma blank_matches sp : Forall (fun c => c = 32) sp ->
  matches (RStar (RAlt (RLit (js "%20")) (RClass is_js_space))) sp.
Proof.
  induction 1 as [|c sp -> _ IH]; [constructor|]. apply (m_star_cons _ 32 [] sp); [|done].
  apply m_alt_r. by constructor.
Qed.

(** What the pattern finds: in full after blanks, and nothing else before a letter. *)
Lemma invalid_after_blank sp w t rest : Forall (fun c => c = 32) sp -> toLowerCase w = t ->
  t = js "javascript" \/ t = js "data" -> rmatch invalidPrototcolRegex (sp ++ w ++ rest) = true.
Proof.
  intros Hsp Hw Ht. apply rmatch_spec. apply m_seq; [by apply blank_matches|].
  apply m_seq; [|apply any_matches].
  destruct Ht as [-> | ->]; [apply m_alt_l|apply m_alt_r]; by apply RLit_i_matches.
Qed.

Lemma seq_inv r1 r2 s : matches (RSeq r1 r2) s -> exists s1 s2, s = s1 ++ s2 /\ matches r1 s1 /\ matches r2 s2.
Proof. inversion 1; subst. by eexists _, _. Qed.

Lemma alt_inv r1 r2 s : matches (RAlt r1 r2) s -> matches r1 s \/ matches r2 s.
Proof. inversion 1; auto. Qed.

Lemma unit_inv p s : matches (RClass p) s -> exists c, s = [c] /\ p c = true.
Proof. inversion 1; subst. by eexists. Qed.

Lemma star_inv r c s : matches (RStar r) (c :: s) -> exists s1 s2, s = s1 ++ s2 /\ matches r (c :: s1).
Proof. inversion 1; subst. by eexists _, _. Qed.

Lemma invalid_letter c s : is_letter c = true -> rmatch invalidPrototcolRegex (c :: s) = true ->
  js "javascript" `prefix_of` toLowerCase (c :: s) \/ js "data" `prefix_of` toLowerCase (c :: s).
Proof.
  intros Hc Hm%rmatch_spec. apply seq_inv in Hm as (s1 & s2 & E & H1 & H2).
  assert (s1 = []) as ->.
  { destruct s1 as [|d s1]; [done|]. injection E as <- _. exfalso.
    apply star_inv in H1 as (t1 & t2 & _ & [H1|H1]%alt_inv).
    - apply seq_inv in H1 as (u1 & u2 & E1 & (x & -> & Hx)%unit_inv & _). apply Z.eqb_eq in Hx.
      injection E1 as -> _. by subst.
    - apply unit_inv in H1 as (x & [= <-] & Hx). unfold is_letter, in_range, lower_unit, is_js_space in *.
      simpl in Hx. repeat case_match; lia. }
  simpl in E. subst s2. apply seq_inv in H2 as (s1 & s2 & -> & H3 & _). apply alt_inv in H3 as [H3|H3];
    apply RLit_i_matches in H3; [left|right]; exists (toLowerCase s2);
    unfold toLowerCase in *; by rewrite fmap_app, H3.
Qed.

(** ** Printable addresses *)

Lemma printable_blank u : printable u -> exists sp, u = sp ++ drop_blank u /\ Forall (fun c => c = 32) sp
  /\ List.filter (fun c => negb (one_of [9; 10; 13] c)) (drop_blank u) = drop_blank u.
Proof.
  intros Hu. induction Hu as [|c u Hc Hu IH]; [by exists []|].
  assert (Hc' : 32 <= c) by (unfold ctrlCharacters, in_range in Hc; lia). simpl.
  destruct (c <=? 32) eqn:E.
  - destruct IH as (sp & E1 & E2 & E3). exists (32 :: sp). split_and!; [|by constructor|done].
    simpl. f_equal; [lia|done].
  - exists []. split_and!; [done|constructor|]. clear IH.
    assert (Hp : printable (c :: u)) by by constructor. revert Hp. generalize (c :: u). clear.
    induction 1 as [|d l Hd _ IH]; [done|]. cbn [List.filter]. rewrite IH.
    replace (negb _) with true; [done|]. unfold ctrlCharacters, in_range in *. lia.
Qed.

Lemma read_scheme_split s t : read_scheme s = Some t ->
  exists pre rest, s = pre ++ 58 :: rest /\ t = toLowerCase pre /\ Forall (fun c => c <> 58) pre.
Proof.
  revert t. induction s as [|c s IH]; intros t; [done|]. simpl. destruct (Z.eqb_spec c 58) as [-> |Hc].
  - intros [= <-]. by exists [], s.
  - destruct (scheme_unit c); [|done]. destruct (read_scheme s) as [t'|]; [|done]. intros [= <-].
    destruct (IH t' eq_refl) as (pre & rest & -> & -> & Hp). exists (c :: pre), rest. split_and!; [done..|by constructor].
Qed.

Lemma scheme_part_split pre rest : Forall (fun c => c <> 58) pre -> scheme_part (pre ++ 58 :: rest) = Some (pre ++ [58]).
Proof.
  induction 1 as [|c pre Hc _ IH]; [done|]. simpl. rewrite (proj2 (Z.eqb_neq c 58) Hc). cbn [app]. by rewrite IH.
Qed.

Lemma sanitized_printable url : printable (List.filter (fun c => negb (ctrlCharacters c)) url).
Proof. apply Forall_forall. intros c Hc%list_elem_of_In. apply filter_In in Hc as [_ Hc]. by destruct (ctrlCharacters c). Qed.

Lemma printable_kept u : printable u -> List.filter (fun c => negb (ctrlCharacters c)) u = u.
Proof. induction 1 as [|c u Hc _ IH]; [done|]. simpl. by rewrite Hc, IH. Qed.

Lemma letter_not_relative c s : is_letter c = true -> isRelativeUrl (c :: s) = false.
Proof.
  intros Hc. assert (65 <= c).
  { unfold is_letter, in_range, lower_unit in Hc. destruct ((65 <=? c) && (c <=? 90)) eqn:E; lia. }
  change ((c =? 46) || ((c =? 47) || false) = false). lia.
Qed.

(** A scheme the browser would run is found. *)
Lemma browser_scheme_found u t : printable u -> browser_scheme u = Some t ->
  t = js "javascript" \/ t = js "data" ->
  isRelativeUrl u = false /\ exists scheme, urlScheme u = Some scheme /\ rmatch invalidPrototcolRegex scheme = true.
Proof.
  intros Hu Hb Ht. destruct (printable_blank u Hu) as (sp & Eu & Hsp & Ef). unfold browser_scheme in Hb.
  rewrite Ef in Hb. destruct (drop_blank u) as [|c v] eqn:Ed; [done|]. destruct (is_letter c) eqn:Hl; [|done].
  apply read_scheme_split in Hb as (pre & rest & E & -> & Hpre).
  assert (Hn : Forall (fun c => c <> 58) (sp ++ pre)).
  { apply Forall_app. split; [|done]. eapply Forall_impl; [exact Hsp|]. by intros ? ->. }
  assert (Hpne : exists d pre', pre = d :: pre').
  { destruct pre as [|d pre]; [|by eexists _, _]. by destruct Ht. }
  rewrite Eu, E. split.
  - destruct sp as [|x sp]; [|by apply Forall_cons in Hsp as [-> _]]. destruct Hpne as (d & pre' & ->).
    injection E as <- _. apply letter_not_relative. done.
  - unfold urlScheme. rewrite app_assoc, scheme_part_split by done.
    exists ((sp ++ pre) ++ [58]). split.
    + destruct Hpne as (d & pre' & ->). destruct sp as [|x sp]; simpl; [by destruct pre'|]. by destruct sp.
    + rewrite <- app_assoc. by eapply invalid_after_blank.
Qed.

Lemma sanitize_safe url t : browser_scheme (sanitize url) = Some t -> ~ (t = js "javascript" \/ t = js "data").
Proof.
  intros Hb Ht. unfold sanitize in Hb. set (u := List.filter _ _) in Hb.
  pose proof (sanitized_printable url : printable u) as Hu.
  assert (Hblank : browser_scheme (js "about:blank") = Some t -> False).
  { replace (browser_scheme _) with (Some (js "about")) by (vm_compute; reflexivity).
    intros [= <-]. by destruct Ht. }
  destruct (isRelativeUrl u) eqn:Er.
  - destruct (browser_scheme_found u t Hu Hb Ht) as [E _]. congruence.
  - destruct (urlScheme u) as [scheme|] eqn:Es; [|done]. destruct (rmatch _ scheme) eqn:Em; [done|].
    destruct (browser_scheme_found u t Hu Hb Ht) as (_ & scheme' & E & E'). congruence.
Qed.

Lemma first_colon s : In 58 s -> exists pre rest, s = pre ++ 58 :: rest /\ Forall (fun c => c <> 58) pre.
Proof.
  induction s as [|c s IH]; [done|]. intros Hin. destruct (Z.eq_dec c 58) as [-> |Hc]; [by exists [], s|].
  destruct Hin as [|(pre & rest & -> & Hp)%IH]; [done|]. exists (c :: pre), rest. split; [done|by constructor].
Qed.

Lemma sanitize_kept c s : printable (c :: s) -> is_letter c = true -> In 58 s ->
  ~ js "javascript" `prefix_of` toLowerCase (c :: s) -> ~ js "data" `prefix_of` toLowerCase (c :: s) ->
  sanitize (c :: s) = c :: s.
Proof.
  intros Hp Hl (pre & rest & -> & Hpre)%first_colon H1 H2. unfold sanitize.
  rewrite printable_kept, letter_not_relative by done.
  assert (Hc : c <> 58) by (intros ->; done).
  assert (E : urlScheme (c :: pre ++ 58 :: rest) = Some (c :: pre ++ [58])).
  { unfold urlScheme. rewrite app_comm_cons, scheme_part_split by by constructor. by destruct pre. }
  rewrite E. destruct (rmatch _ _) eqn:Em; [|done]. exfalso.
  assert (Hpre' : toLowerCase (c :: pre ++ [58]) `prefix_of` toLowerCase (c :: pre ++ 58 :: rest)).
  { exists (toLowerCase rest). unfold toLowerCase. rewrite <- fmap_app. f_equal. cbn. by rewrite <- app_assoc. }
  destruct (invalid_letter _ _ Hl Em) as [H|H]; [apply H1|apply H2]; by etrans.
Qed.

(** ** The property *)

(** C15: no address of a description that the page makes a link of is one that a browser
    takes for a script or for inline data: whatever the address is, the scheme a
    browser reads in the result is neither [javascript] nor [data], and the result has
    printable characters only.  A printable address is kept as it is when it is
    relative or when it has a scheme that does not begin with one of these words. *)
Theorem sanitized_scheme url :
  (forall t, browser_scheme (sanitizeUrl url) = Some t -> t <> js "javascript" /\ t <> js "data")
  /\ printable (sanitizeUrl url)
  /\ (forall c s, url = DString (c :: s) -> printable (c :: s) ->
      isRelativeUrl (c :: s) = true
      \/ is_letter c = true /\ In 58 s
         /\ ~ js "javascript" `prefix_of` toLowerCase (c :: s) /\ ~ js "data" `prefix_of` toLowerCase (c :: s) ->
      sanitizeUrl url = c :: s).
Proof.
  split_and!.
  - intros t Hb. assert (H : ~ (t = js "javascript" \/ t = js "data")); [|naive_solver].
    destruct url as [| | | |[|c s]| |]; try done. by apply (sanitize_safe (c :: s)).
  - destruct url as [| | | |[|c s]| |]; try constructor. simpl. unfold sanitize.
    pose proof (sanitized_printable (c :: s)) as Hu.
    assert (Hb : printable (js "about:blank")) by (repeat constructor).
    destruct (isRelativeUrl _); [done|]. destruct (urlScheme _); [|done]. by destruct (rmatch _ _).
  - intros c s -> Hp H. unfold sanitizeUrl. destruct H as [H|(H1 & H2 & H3 & H4)]; [|by apply sanitize_kept].
    unfold sanitize. by rewrite printable_kept, H.
Qed.

Lemma sanitized_scheme_witness :
  sanitizeUrl (DString (js "https://cosmos.network")) = js "https://cosmos.network"
  /\ sanitizeUrl (DString (js " JavaScript:alert(1)")) = js "about:blank".
Proof.
  split; [|vm_compute; reflexivity].
  eapply (proj2 (proj2 (sanitized_scheme (DString (js "https://cosmos.network"))))); [reflexivity| |].
  - repeat constructor.
  - right. split_and!; [reflexivity|vm_compute; tauto|..]; intros [k Hk]; discriminate Hk.
Defined.
