(* ===== verification/SwaggerDeepLink.v ===== *)
(** * Swagger UI: the layout and its deep links

    What is open on the page is part of its state, under a list of names such as
    [["operations"; tag; operationId]].  With deep links, opening an operation also puts
    its names into the fragment of the address, and when the configuration has been
    loaded the fragment is read, and what it names is opened and scrolled to.  The
    modes of the layout are left out.

    The map of what is shown has lists as keys, which the package compares by their
    elements; how a browser writes a fragment is a parameter. *)

From S2P Require Import JsPrelude JsNumber JsValue SwaggerSearch.

(** A map of the package with lists of names as keys, with its laws. *)
Class ShownMap (M : Type) : Type := {
  shown_empty : M;
  shown_get : M -> list jsstr -> option bool;
  shown_set : M -> list jsstr -> bool -> M
}.

Class ShownMapLaws (M : Type) `{ShownMap M} : Prop := {
  shown_get_empty k : shown_get (shown_empty : M) k = None;
  shown_get_set (m : M) k k' v :
    shown_get (shown_set m k v) k' = if bool_decide (k = k') then Some v else shown_get m k'
}.

Section layout.
Context {M : Type} `{ShownMap M}.

(** The state of the layout, and the fragment as it was set last. *)
Record layout_state : Type := mkLayout {
  current : jsstr;
  currentFilter : jsstr;
  shown : option M;
  scrollToKey : option (list jsstr);
  fragment : jsstr
}.
Implicit Types state : layout_state.

(** ** The layout plugin *)

Definition UPDATE_LAYOUT (payload : jsstr) state : layout_state :=
  mkLayout payload (currentFilter state) (shown state) (scrollToKey state) (fragment state).

Definition UPDATE_FILTER (payload : jsstr) state : layout_state :=
  mkLayout (current state) payload (shown state) (scrollToKey state) (fragment state).

Definition SHOW (thing : list jsstr) (isShown : bool) state : layout_state :=
  mkLayout (current state) (currentFilter state)
    (Some (shown_set (default shown_empty (shown state)) thing isShown))
    (scrollToKey state) (fragment state).

Definition isShown state (thing : list jsstr) (def : option bool) : option bool :=
  match shown_get (default shown_empty (shown state)) thing with Some b => Some b | None => def end.

Definition SCROLL_TO (payload : list jsstr) state : layout_state :=
  mkLayout (current state) (currentFilter state) (shown state) (Some payload) (fragment state).

Definition CLEAR_SCROLL_TO state : layout_state :=
  mkLayout (current state) (currentFilter state) (shown state) None (fragment state).

Definition set_fragment (f : jsstr) state : layout_state :=
  mkLayout (current state) (currentFilter state) (shown state) (scrollToKey state) f.

(** ** Names and fragments *)

(** [str.trim().replace(/\s/g, "_")]. *)
Definition createDeepLinkPath (str : jsstr) : jsstr :=
  (fun c => if is_js_space c then 95 else c) <$> reverse (trim_start (reverse (trim_start str))).

(** [history.pushState] with the fragment, or an empty fragment. *)
Definition setHash (value : jsstr) state : layout_state :=
  set_fragment (match value with [] => [] | _ => 35 :: value end) state.

(** The names behind the first; a name that is missing is [undefined]. *)
Definition urlHashArrayFromIsShownKey (isShownKey : list jsstr) : list (option jsstr) :=
  match isShownKey with
  | type :: names =>
      if jseqb type (js "operations") then [names !! 0%nat; names !! 1%nat]
      else if jseqb type (js "operations-tag") then [names !! 0%nat]
      else []
  | [] => []
  end.

Definition isShownKeyFromUrlHashArray (urlHashArray : list jsstr) : list jsstr :=
  match urlHashArray with
  | tag :: (c :: operationId) :: _ => [js "operations"; tag; c :: operationId]
  | (c :: tag) :: _ => [js "operations-tag"; c :: tag]
  | _ => []
  end.

Definition name_text (name : option jsstr) : jsstr := default (js "undefined") name.

(** ** The plugin for deep links *)

Variable deepLinking : bool.
(** [window.location.hash] after the address was set with a fragment. *)
Variable location_hash : jsstr -> jsstr.

(** [show] with both arguments, wrapped around the action of the layout. *)
Definition show (tokenArray : list jsstr) (isShown : bool) state : layout_state :=
  let state := SHOW tokenArray isShown state in
  if negb deepLinking then state
  else match urlHashArrayFromIsShownKey tokenArray with
       | [] => state
       | names =>
           if negb isShown then setHash (js "/") state
           else match names with
                | [type; assetName] =>
                    setHash (createDeepLinkPath (js "/" ++ name_text type ++ js "/" ++ name_text assetName)) state
                | [type] => setHash (createDeepLinkPath (js "/" ++ name_text type)) state
                | _ => state
                end
       end.

(** [slice(1)] when the first unit is [c]. *)
Definition skip_first (c : Z) (s : jsstr) : jsstr :=
  match s with x :: s' => if x =? c then s' else s | [] => [] end.

Definition hash_names (rawHash : jsstr) : list jsstr :=
  (fun val : jsstr => (fun c => if c =? 95 then 32 else c) <$> val)
    <$> split_char 47 (skip_first 47 (skip_first 33 (drop 1 rawHash))).

Definition parseDeepLinkHash (rawHash : jsstr) state : layout_state :=
  if negb deepLinking then state
  else match rawHash with
       | [] => state
       | _ =>
           let isShownKey := isShownKeyFromUrlHashArray (hash_names rawHash) in
           SCROLL_TO isShownKey (show isShownKey true state)
       end.

(** The configuration has been loaded: the fragment of the address is read. *)
Definition configs_loaded state : layout_state := parseDeepLinkHash (location_hash (fragment state)) state.

(** An element appears; the result tells whether the page scrolls to it. *)
Definition readyToScroll (isShownKey : list jsstr) state : bool * layout_state :=
  match scrollToKey state with
  | Some key => if bool_decide (key = isShownKey) then (true, CLEAR_SCROLL_TO state) else (false, state)
  | None => (false, state)
  end.

(** The keys the page uses for the section of a tag: the one it opens and closes, and
    the one its wrapper waits for. *)
Definition section_key (tag : jsstr) : list jsstr := [js "operations-tag"; createDeepLinkPath tag].

Definition OperationTagWrapper_onLoad (tag : jsstr) state : bool * layout_state :=
  readyToScroll [js "operations-tag"; tag] state.

Definition OperationWrapper_onLoad (tag operationId : jsstr) state : bool * layout_state :=
  readyToScroll [js "operations"; tag; operationId] state.
End layout.

(** ** Names in a fragment *)

(** The units a browser leaves as they are in a fragment. *)
Definition fragment_unit (c : Z) : bool :=
  (32 <? c) && (c <? 127) && negb (existsb (Z.eqb c) [34; 60; 62; 96]).

Definition blank (c : Z) : bool := is_js_space c || (c =? 95).

Definition not_blank (c : option Z) : bool := match c with Some c => negb (blank c) | None => false end.

(** A name that can be written: no slash, white space or units that stay as they are,
    and no white space and no underscore at either end. *)
Definition writable (name : jsstr) : bool :=
  forallb (fun c => negb (c =? 47) && (is_js_space c || fragment_unit c)) name
  && not_blank (head name) && not_blank (last name).

(** What comes back: underscores and white space are spaces. *)
Definition spaced (name : jsstr) : jsstr := (fun c => if blank c then 32 else c) <$> name.

Definition underscored (name : jsstr) : jsstr := (fun c => if is_js_space c then 95 else c) <$> name.

(** A name that comes back as it was. *)
Definition plain (name : jsstr) : bool := forallb (fun c => negb (blank c) || (c =? 32)) name.

Lemma writable_inv name : writable name = true ->
  (forall c, c ∈ name -> c <> 47 /\ is_js_space c || fragment_unit c = true) /\
  (exists c s, name = c :: s /\ blank c = false) /\ (exists c s, name = s ++ [c] /\ blank c = false).
Proof.
  unfold writable. intros [[Hw Hh]%andb_true_iff Hl]%andb_true_iff. rewrite forallb_forall in Hw. split_and!.
  - intros c [Hs Hc]%list_elem_of_In%Hw%andb_true_iff. split; [|done]. by intros ->.
  - destruct name as [|c s]; [done|]. exists c, s. split; [done|]. by apply negb_true_iff.
  - destruct (last name) as [c|] eqn:E; [|done]. apply last_Some in E as [s ->].
    exists c, s. split; [done|]. by apply negb_true_iff.
Qed.

Lemma space_not_blank c : blank c = false -> is_js_space c = false.
Proof. by intros [? _]%orb_false_iff. Qed.

(** Trimming changes nothing between units that are not white space. *)
Lemma trimmed c s d : is_js_space c = false -> is_js_space d = false ->
  createDeepLinkPath (c :: s ++ [d]) = underscored (c :: s ++ [d]).
Proof.
  intros Hc Hd. unfold createDeepLinkPath. cbn [trim_start]. rewrite Hc, app_comm_cons, reverse_snoc.
  cbn [trim_start]. by rewrite Hd, reverse_cons, reverse_involutive.
Qed.

Lemma createDeepLinkPath_path pre name : writable name = true ->
  createDeepLinkPath (47 :: pre ++ name) = 47 :: underscored pre ++ underscored name.
Proof.
  intros (_ & _ & d & s & -> & Hd)%writable_inv. rewrite app_assoc, trimmed; [|done|by apply space_not_blank].
  change (underscored (47 :: ?x)) with (47 :: underscored x). unfold underscored. by rewrite !fmap_app, app_assoc.
Qed.

Lemma createDeepLinkPath_name name : writable name = true -> createDeepLinkPath name = underscored name.
Proof.
  intros (_ & (c & s & E & Hc) & d & s' & E' & Hd)%writable_inv. destruct s' as [|x s']; subst name.
  - injection E' as -> ->. unfold createDeepLinkPath. cbn [trim_start].
    rewrite (space_not_blank _ Hc). change (reverse [d]) with [d]. cbn [trim_start]. by rewrite (space_not_blank _ Hc).
  - injection E' as -> ->. apply trimmed; by apply space_not_blank.
Qed.

Lemma underscored_slash name : writable name = true -> 47 ∉ underscored name.
Proof.
  intros (Hw & _)%writable_inv (c & Hc & Hin)%list_elem_of_fmap. apply Hw in Hin as [Hs _].
  destruct (is_js_space c); [done|congruence].
Qed.

Lemma underscored_safe name : writable name = true -> forallb fragment_unit (underscored name) = true.
Proof.
  intros (Hw & _)%writable_inv. apply forallb_forall. intros x Hx%list_elem_of_In.
  apply list_elem_of_fmap in Hx as (c & -> & Hin). apply Hw in Hin as [_ Hc]. by destruct (is_js_space c).
Qed.

Lemma spaced_underscored name : (fun c => if c =? 95 then 32 else c) <$> underscored name = spaced name.
Proof.
  unfold underscored, spaced, blank. rewrite <- list_fmap_compose. apply list_fmap_ext. intros _ c _. simpl.
  by destruct (is_js_space c).
Qed.

Lemma underscored_spaced name : underscored (spaced name) = underscored name.
Proof.
  unfold underscored, spaced, blank. rewrite <- list_fmap_compose. apply list_fmap_ext. intros _ c _. simpl.
  destruct (is_js_space c) eqn:E; [done|]. simpl. destruct (Z.eqb_spec c 95) as [-> |]; [done|]. by rewrite E.
Qed.

Lemma spaced_plain name : spaced name = name <-> plain name = true.
Proof.
  unfold plain, spaced. induction name as [|c name IH]; [done|]. cbn [fmap list_fmap forallb].
  rewrite andb_true_iff, <- IH. destruct (blank c); cbn [negb orb].
  - rewrite Z.eqb_eq. split; [by intros [= -> ->]|by intros [-> ->]].
  - split; [by intros [= ->]|by intros [_ ->]].
Qed.

Lemma writable_spaced name : writable name = true -> writable (spaced name) = true.
Proof.
  intros (Hw & (c & s & E & Hc) & d & s' & E' & Hd)%writable_inv. unfold writable. rewrite !andb_true_iff. split_and!.
  - apply forallb_forall. intros x Hx%list_elem_of_In. apply list_elem_of_fmap in Hx as (y & -> & Hy).
    apply Hw in Hy as [Hs Hy]. destruct (blank y) eqn:Ey; [done|]. rewrite Hy. by rewrite (proj2 (Z.eqb_neq _ _) Hs).
  - rewrite E. simpl. rewrite Hc. simpl. by rewrite Hc.
  - rewrite E'. unfold spaced. rewrite fmap_app. cbn [fmap list_fmap]. rewrite last_snoc, Hd. simpl. by rewrite Hd.
Qed.

Lemma writable_underscored name : writable name = true -> writable (underscored name) = true.
Proof.
  intros Hn. pose proof (writable_inv _ Hn) as (_ & (c & s & E & Hc) & d & s' & E' & Hd). unfold writable.
  rewrite !andb_true_iff. split_and!.
  - apply forallb_forall. intros x Hx. rewrite andb_true_iff. split.
    + apply negb_true_iff, Z.eqb_neq. intros ->. by apply (underscored_slash _ Hn), list_elem_of_In.
    + pose proof (underscored_safe _ Hn) as Hs. rewrite forallb_forall in Hs. rewrite (Hs _ Hx). apply orb_true_r.
  - rewrite E. simpl. rewrite (space_not_blank _ Hc). simpl. by rewrite Hc.
  - rewrite E'. unfold underscored. rewrite fmap_app. cbn [fmap list_fmap].
    rewrite last_snoc, (space_not_blank _ Hd). simpl. by rewrite Hd.
Qed.

Lemma underscored_twice name : underscored (underscored name) = underscored name.
Proof.
  unfold underscored. rewrite <- list_fmap_compose. apply list_fmap_ext. intros _ c _. simpl.
  destruct (is_js_space c) eqn:E; [done|]. by rewrite E.
Qed.

Lemma spaced_is_underscored name : spaced name = underscored name <-> existsb blank name = false.
Proof.
  unfold spaced, underscored. induction name as [|c name IH]; [done|]. cbn [fmap list_fmap existsb].
  rewrite orb_false_iff, <- IH. unfold blank. destruct (is_js_space c); [by split; [|intros []]|].
  destruct (Z.eqb_spec c 95) as [-> |Hc]; [by split; [|intros []]|]. cbn [orb].
  split; [by intros [= ->]|by intros [_ ->]].
Qed.

(** ** Reading a link back *)

(** The map of what is shown as a list of keys and values. *)
#[export] Instance list_ShownMap : ShownMap (list (list jsstr * bool)) := {
  shown_empty := [];
  shown_get m k := snd <$> List.find (fun kv => bool_decide (kv.1 = k)) m;
  shown_set m k v := (k, v) :: m
}.

#[export] Instance list_ShownMapLaws : ShownMapLaws (list (list jsstr * bool)).
Proof. split; [done|]. intros m k k' v. simpl. by destruct (bool_decide (k = k')). Qed.

Section links.
Context {M : Type} `{ShownMapLaws M}.
Variable location_hash : jsstr -> jsstr.
Implicit Types state fresh : layout_state (M := M).

(** [page] is [fresh] with the thing of [key] opened and waited for, and [link] in the
    address. *)
Definition opens (page fresh : layout_state (M := M)) (link : jsstr) (key : list jsstr) : Prop :=
  fragment page = link /\
  (forall k def, isShown page k def = if bool_decide (key = k) then Some true else isShown fresh k def) /\
  (forall k, (readyToScroll k page).1 = bool_decide (key = k)).

Lemma show_operation state tag operationId : writable tag = true -> writable operationId = true ->
  show true [js "operations"; tag; operationId] true state
  = set_fragment (35 :: 47 :: underscored tag ++ 47 :: underscored operationId)
      (SHOW [js "operations"; tag; operationId] true state).
Proof.
  intros Ht Ho. unfold show. cbn [negb].
  change (urlHashArrayFromIsShownKey _) with [Some tag; Some operationId]. cbv iota. unfold name_text, default, setHash.
  change (js "/" ++ ?s) with (47 :: s). rewrite app_assoc. change (id ?x) with x.
  rewrite createDeepLinkPath_path; [|done]. unfold underscored at 1. rewrite fmap_app.
  rewrite <- app_assoc. done.
Qed.

Lemma show_tag state tag : writable tag = true ->
  show true [js "operations-tag"; tag] true state
  = set_fragment (35 :: 47 :: underscored tag) (SHOW [js "operations-tag"; tag] true state).
Proof.
  intros Ht. unfold show. cbn [negb].
  change (urlHashArrayFromIsShownKey _) with [Some tag]. cbv iota. unfold name_text, default, setHash.
  change (js "/" ++ ?s) with (47 :: [] ++ s). change (id ?x) with x.
  by rewrite createDeepLinkPath_path.
Qed.

Lemma names_of_operation tag operationId : writable tag = true -> writable operationId = true ->
  isShownKeyFromUrlHashArray (hash_names (35 :: 47 :: underscored tag ++ 47 :: underscored operationId))
  = [js "operations"; spaced tag; spaced operationId].
Proof.
  intros Ht Ho. unfold hash_names. cbn [drop skip_first Z.eqb Pos.eqb].
  change (underscored tag ++ 47 :: underscored operationId) with (join [47] [underscored tag; underscored operationId]).
  rewrite split_join; [|done|by repeat constructor; apply underscored_slash].
  cbn [fmap list_fmap]. rewrite !spaced_underscored.
  apply writable_inv in Ho as (_ & (c & s & -> & Hc) & _). by destruct (spaced tag).
Qed.

Lemma names_of_tag tag : writable tag = true ->
  isShownKeyFromUrlHashArray (hash_names (35 :: 47 :: underscored tag)) = [js "operations-tag"; spaced tag].
Proof.
  intros Ht. unfold hash_names. cbn [drop skip_first Z.eqb Pos.eqb].
  change (underscored tag) with (join [47] [underscored tag]).
  rewrite split_join; [|done|by repeat constructor; apply underscored_slash].
  cbn [fmap list_fmap]. rewrite !spaced_underscored.
  apply writable_inv in Ht as (_ & (c & s & -> & Hc) & _). done.
Qed.

(** When the link names [key] and showing [key] writes the link again, loading opens it. *)
Lemma loaded_opens fresh link key : link <> [] -> location_hash link = link ->
  isShownKeyFromUrlHashArray (hash_names link) = key ->
  show true key true (set_fragment link fresh) = set_fragment link (SHOW key true (set_fragment link fresh)) ->
  opens (configs_loaded true location_hash (set_fragment link fresh)) fresh link key.
Proof.
  intros Hne Hl Hk Hs. unfold configs_loaded. cbn [fragment set_fragment]. rewrite Hl.
  unfold parseDeepLinkHash. cbn [negb]. destruct link as [|c link]; [done|]. rewrite Hk, Hs. split_and!; [done|..].
  - intros k def. unfold isShown. simpl. rewrite shown_get_set. by destruct (bool_decide (key = k)).
  - intros k. unfold readyToScroll. simpl. by destruct (bool_decide (key = k)).
Qed.

Hypothesis location_hash_safe :
  forall s, s <> [] -> forallb fragment_unit s = true -> location_hash (35 :: s) = 35 :: s.

Lemma operation_link fresh tag operationId : writable tag = true -> writable operationId = true ->
  let link := 35 :: 47 :: underscored tag ++ 47 :: underscored operationId in
  opens (configs_loaded true location_hash (set_fragment link fresh)) fresh link
    [js "operations"; spaced tag; spaced operationId].
Proof.
  intros Ht Ho link. apply loaded_opens; [done| |by apply names_of_operation|].
  - apply location_hash_safe; [done|].
    change (fragment_unit 47 && forallb fragment_unit (underscored tag ++ 47 :: underscored operationId) = true).
    rewrite forallb_app. cbn [forallb]. by rewrite !underscored_safe.
  - rewrite show_operation by (by apply writable_spaced). by rewrite !underscored_spaced.
Qed.

Lemma section_link fresh tag : writable tag = true ->
  let link := 35 :: 47 :: underscored tag in
  opens (configs_loaded true location_hash (set_fragment link fresh)) fresh link [js "operations-tag"; spaced tag].
Proof.
  intros Ht link. apply loaded_opens; [done| |by apply names_of_tag|].
  - apply location_hash_safe; [done|]. cbn [forallb]. by rewrite underscored_safe.
  - rewrite show_tag by (by apply writable_spaced). by rewrite underscored_spaced.
Qed.
End links.

(** C17: With deep links on, the link written when an operation or the section of a tag
    is opened brings back what it was written for.  Loading the page with the link
    keeps the link in the address, opens exactly the key it names and scrolls to exactly
    the element of that key; all else stays as it was.  The names come back with
    spaces for their white space and underscores, so the operation or the section the
    link was written for is the one scrolled to exactly when its names have no
    underscore and no white space other than spaces.  A section is opened and closed
    under another key than the one the link opens as soon as its name has white space
    or an underscore: the page then leaves the section as it was, and scrolls to it
    only if all its blanks are spaces. *)
Theorem deep_link_roundtrip {M : Type} `{ShownMapLaws M} (location_hash : jsstr -> jsstr)
    (state fresh : layout_state (M := M)) (tag operationId : jsstr) :
  (forall s, s <> [] -> forallb fragment_unit s = true -> location_hash (35 :: s) = 35 :: s) ->
  writable tag = true -> writable operationId = true ->
  (let link := fragment (show true [js "operations"; tag; operationId] true state) in
   let page := configs_loaded true location_hash (set_fragment link fresh) in
   opens page fresh link [js "operations"; spaced tag; spaced operationId] /\
   (OperationWrapper_onLoad tag operationId page).1 = plain tag && plain operationId) /\
  (let link := fragment (show true (section_key tag) true state) in
   let page := configs_loaded true location_hash (set_fragment link fresh) in
   opens page fresh link [js "operations-tag"; spaced tag] /\
   (OperationTagWrapper_onLoad tag page).1 = plain tag /\
   (forall def, isShown page (section_key tag) def
      = if existsb blank tag then isShown fresh (section_key tag) def else Some true)).
Proof.
  intros Hlaw Ht Ho. split; intros link page.
  - assert (Hp : opens page fresh link [js "operations"; spaced tag; spaced operationId]).
    { unfold page, link. rewrite show_operation by done. by apply operation_link. }
    split; [done|]. destruct Hp as (_ & _ & Hr). unfold OperationWrapper_onLoad. rewrite Hr.
    apply eq_bool_prop_intro. rewrite bool_decide_spec, Is_true_true, andb_true_iff, <- !spaced_plain.
    split; [by intros [= -> ->]|by intros [-> ->]].
  - assert (Hp : opens page fresh link [js "operations-tag"; spaced tag]).
    { unfold page, link, section_key. rewrite createDeepLinkPath_name by done.
      rewrite show_tag by (by apply writable_underscored). rewrite underscored_twice. by apply section_link. }
    split; [done|]. destruct Hp as (_ & Hsh & Hr). split.
    + unfold OperationTagWrapper_onLoad. rewrite Hr. apply eq_bool_prop_intro.
      rewrite bool_decide_spec, Is_true_true, <- spaced_plain. split; [by intros [= ->]|by intros ->].
    + intros def. rewrite Hsh. unfold section_key. rewrite createDeepLinkPath_name by done.
      destruct (existsb blank tag) eqn:E.
      * rewrite bool_decide_eq_false_2; [done|]. intros [= Hs%spaced_is_underscored]. congruence.
      * apply spaced_is_underscored in E. rewrite bool_decide_eq_true_2; [done|]. by rewrite E.
Qed.

Lemma deep_link_roundtrip_witness :
  let tag := js "Gaia REST" in
  let operationId := js "get_balance" in
  let state := mkLayout (M := list (list jsstr * bool)) (js "BaseLayout") [] None None [] in
  let link := fragment (show true (section_key tag) true state) in
  let page := configs_loaded true (fun s => s) (set_fragment link state) in
  link = js "#/Gaia_REST" /\
  (OperationTagWrapper_onLoad tag page).1 = true /\
  isShown page (section_key tag) (Some false) = Some false /\
  (OperationWrapper_onLoad tag operationId (configs_loaded true (fun s => s)
     (set_fragment (js "#/Gaia_REST/get_balance") state))).1 = false.
Proof.
  intros tag operationId state link page.
  destruct (deep_link_roundtrip (fun s => s) state state tag operationId) as [[_ Ho] [_ [Ht Hs]]].
  - done.
  - vm_compute. reflexivity.
  - vm_compute. reflexivity.
  - split; [vm_compute; reflexivity|]. split; [exact Ht|]. split; [exact (Hs (Some false))|exact Ho].
Defined.
