(* ===== verification/SwaggerAuth.v ===== *)
(** * Swagger UI: the authorization state

    [btoa] of the utility module, the reducers of the plugin [auth] and its
    selector [isAuthorized].  The state is kept in persistent maps of which only
    the interface is used; a value inside a map is the plain tree it stands for. *)

From S2P Require Import JsPrelude JsNumber JsValue JsUnicode JsImmutable.
From S2P Require Import NodeBuffer NodeBufferText SwaggerData SwaggerSearch.

(** ** Errors and strings *)

(** What the code of the page throws: an error of the language or one of the
    buffer module. *)
Inductive page_error : Type :=
| NativeError (e : native_error)
| BufferError (e : buf_error).

Abbreviation page := (outcome page_error).

Definition native {A} (m : outcome native_error A) : page A :=
  match m with Ret a => Ret a | Throw e => Throw (NativeError e) | OutOfFuel => OutOfFuel end.

Definition of_buffer {A} (m : BO A) : page A :=
  match m with Ret a => Ret a | Throw e => Throw (BufferError e) | OutOfFuel => OutOfFuel end.

(** [a || b]. *)
Definition d_or (a b : jdata) : jdata := if truthy a then a else b.

Section packages.
(** [toByteArray] and [fromByteArray] of the package [base64-js]. *)
Context (toByteArray : jsstr -> BO bytes) (fromByteArray : bytes -> jsstr).

(** [new Buffer(str, "utf-8").toString("base64")]; the memory the buffer is made
    in is not used for anything else. *)
Definition btoa (str : jsstr) : page jsstr :=
  '(b, m) ← of_buffer (fromString toByteArray str (Some (js "utf-8")) (mkMemory [] 0));
  of_buffer (buf_toString fromByteArray (contents m b) (Some (Some (js "base64"), None, None))).

(** A header for a name and a password. *)
Definition basic_header (user password : jdata) : page jsstr :=
  u ← native (dstring user);
  p ← native (dstring password);
  t ← btoa (u ++ 58 :: p);
  Ret (js "Basic " ++ t).

(** ** The state of a form *)

(** The state of the component for one OAuth2 definition, which is also the object
    the actions pass along as [auth]. *)
Record auth : Type := mkAuth {
  auth_appName : jdata;
  auth_name : jsstr;
  auth_schema : jdata;
  auth_scopes : list jsstr;
  auth_clientId : jdata;
  auth_clientSecret : jdata;
  auth_username : jdata;
  auth_password : jdata;
  auth_passwordType : jdata;
  auth_code : jdata;
  auth_token : jdata
}.

(** The constructor of the component: [entry] is what is authorized under the
    name, [authConfigs] the configuration of the plugin. *)
Definition initial_auth (name : jsstr) (schema : jdata) (entry : option jdata) (authConfigs : jdata)
    : auth :=
  let of_entry k := match entry with Some e => dget e (js k) | None => DUndefined end in
  mkAuth (dget authConfigs (js "appName")) name schema []
    (d_or (d_or (of_entry "clientId") (dget authConfigs (js "clientId"))) (DString []))
    (d_or (d_or (of_entry "clientSecret") (dget authConfigs (js "clientSecret"))) (DString []))
    (d_or (of_entry "username") (DString []))
    (DString [])
    (d_or (of_entry "passwordType") (DString (js "request-body")))
    DUndefined DUndefined.

Definition present (k : string) (v : jdata) : list (jsstr * jdata) :=
  if is_undefined v then [] else [(js k, v)].

(** The tree of the object. *)
Definition auth_tree (a : auth) : jdata :=
  DObject ([(js "appName", auth_appName a); (js "name", DString (auth_name a));
            (js "schema", auth_schema a); (js "scopes", DArray (DString <$> auth_scopes a));
            (js "clientId", auth_clientId a); (js "clientSecret", auth_clientSecret a);
            (js "username", auth_username a); (js "password", auth_password a);
            (js "passwordType", auth_passwordType a)]
           ++ present "code" (auth_code a) ++ present "token" (auth_token a)).

Definition set_code (c : jdata) (a : auth) : auth :=
  mkAuth (auth_appName a) (auth_name a) (auth_schema a) (auth_scopes a) (auth_clientId a)
    (auth_clientSecret a) (auth_username a) (auth_password a) (auth_passwordType a) c (auth_token a).

Definition set_token (t : jdata) (a : auth) : auth :=
  mkAuth (auth_appName a) (auth_name a) (auth_schema a) (auth_scopes a) (auth_clientId a)
    (auth_clientSecret a) (auth_username a) (auth_password a) (auth_passwordType a) (auth_code a) t.

(** [Object.assign({}, d)] for any value [d]. *)
Definition assign_from (d : jdata) : list (jsstr * jdata) :=
  match d with
  | DObject ps => assign_copy ps
  | DArray es => zip (indices (length es)) es
  | DString s => zip (indices (length s)) ((fun c => DString [c]) <$> s)
  | _ => []
  end.

(** ** The reducers *)

Section reducers.
Context {M : Type} `{ImMap jdata M}.

(** A field that has not been set is [undefined]. *)
Record auth_state : Type := mkAuthState {
  showDefinitions : jdata;
  authorized : option M;
  auth_configs : jdata
}.

(** The reducer made of a handler: a handler that throws leaves the state. *)
Definition makeReducer {St} (redFn : St -> page St) (state : St) : St :=
  match redFn state with Ret state' => state' | _ => state end.

Definition SHOW_AUTH_POPUP (payload : jdata) (state : auth_state) : page auth_state :=
  Ret (mkAuthState payload (authorized state) (auth_configs state)).

(** [m.setIn([k, name], v)] for an entry that is a map or missing. *)
Definition set_in (m : M) (k : jsstr) (name : string) (v : jdata) : M :=
  let ps := match im_get m k with Some (DObject ps) => ps | _ => [] end in
  im_set m k (DObject (assoc_set ps (js name) v)).

(** What one security of the payload does to the map; one that is no collection has no
    [getIn]. *)
Definition authorize_one (m : M) (key : jsstr) (security : jdata) : page M :=
  if negb (isObject security) then
    Throw (NativeError (TypeError match security with
      | DUndefined => js "Cannot read property 'getIn' of undefined"
      | DNull => js "Cannot read property 'getIn' of null"
      | _ => js "security.getIn is not a function"
      end))
  else
  let type := dget (dget security (js "schema")) (js "type") in
  if is_string (js "apiKey") type || is_string (js "http") type then Ret (im_set m key security)
  else if is_string (js "basic") type then
    let username := dget (dget security (js "value")) (js "username") in
    let password := dget (dget security (js "value")) (js "password") in
    header ← basic_header username password;
    let value := DObject [(js "username", username); (js "header", DString header)] in
    let m := set_in m key "value" value in
    Ret (set_in m key "schema" (dget security (js "schema")))
  else Ret m.

Fixpoint authorize_all (m : M) (securities : list (jsstr * jdata)) : page M :=
  match securities with
  | [] => Ret m
  | (key, security) :: rest => m' ← authorize_one m key security; authorize_all m' rest
  end.

(** The entries of the payload are visited in the order of the list. *)
Definition AUTHORIZE (payload : list (jsstr * jdata)) (state : auth_state) : page auth_state :=
  m ← authorize_all (default im_empty (authorized state)) payload;
  Ret (mkAuthState (showDefinitions state) (Some m) (auth_configs state)).

(** With [a] the object [auth] after its token has been assigned. *)
Definition AUTHORIZE_OAUTH2 (a : auth) (state : auth_state) : page auth_state :=
  let m := im_set (default im_empty (authorized state)) (auth_name a) (auth_tree a) in
  Ret (mkAuthState (showDefinitions state) (Some m) (auth_configs state)).

Definition LOGOUT (payload : list jsstr) (state : auth_state) : page auth_state :=
  match authorized state with
  | None => Throw (NativeError (TypeError (js "Cannot read property 'withMutations' of undefined")))
  | Some m =>
      Ret (mkAuthState (showDefinitions state) (Some (foldl im_delete m payload)) (auth_configs state))
  end.

Definition CONFIGURE_AUTH (payload : jdata) (state : auth_state) : page auth_state :=
  Ret (mkAuthState (showDefinitions state) (authorized state) payload).

(** ** The selector [isAuthorized] *)

(** [securities.toJS()]: a list of objects, of which the names are used. *)
Definition isAuthorized (state : auth_state) (securities : list (list jsstr)) : bool :=
  let m := default im_empty (authorized state) in
  match List.filter
          (fun security => forallb (fun key => match im_get m key with
                                               | Some e => truthy e
                                               | None => false
                                               end) security) securities with
  | [] => false
  | _ => true
  end.
End reducers.
End packages.

(** ** What the reducers do to [isAuthorized] *)

Section authorization.
Context {M : Type} `{ImMapLaws jdata M}.
Implicit Types (m : M) (state : auth_state (M := M)).

(** One entry that makes a name authorized. *)
Definition granted (m : M) (key : jsstr) : bool :=
  match im_get m key with Some e => truthy e | None => false end.

Lemma isAuthorized_spec state securities : isAuthorized state securities
  = existsb (forallb (granted (default im_empty (authorized state)))) securities.
Proof.
  unfold isAuthorized. fold (granted (default im_empty (authorized state))).
  induction securities as [|s l IH]; [done|]. simpl. by destruct (forallb _ s).
Qed.

Lemma granted_foldl_delete names key m : granted (foldl im_delete m names) key
  = granted m key && negb (existsb (jseqb key) names).
Proof.
  revert m. induction names as [|n names IH]; intros m; simpl; [by rewrite andb_true_r|].
  rewrite IH. unfold granted. rewrite im_get_delete. unfold jseqb at 1 3.
  destruct (decide (n = key)) as [->|Hn].
  - by rewrite !bool_decide_eq_true_2, andb_false_r.
  - by rewrite !bool_decide_eq_false_2.
Qed.

(** What is granted after a logout, also when nothing was authorized and the
    handler throws. *)
Lemma logout_granted names key state :
  granted (default im_empty (authorized (makeReducer (LOGOUT names) state))) key
  = granted (default im_empty (authorized state)) key && negb (existsb (jseqb key) names).
Proof.
  unfold makeReducer, LOGOUT. destruct (authorized state) as [m|] eqn:E; simpl.
  - apply granted_foldl_delete.
  - rewrite E. simpl. unfold granted. by rewrite im_get_empty.
Qed.
End authorization.

(** C30: a logout revokes the names it is given and nothing else: a list of
    alternatives each of which needs one of these names is not authorized any
    more, and one that needs none of them is authorized as before.  Giving the
    value of an API key or an HTTP scheme authorizes its name. *)
Theorem authorize_logout {M} `{ImMapLaws jdata M} tba fba (state : auth_state (M := M)) names securities
    key security :
  let out := makeReducer (LOGOUT names) state in
  (forallb (existsb (fun k => existsb (jseqb k) names)) securities = true -> isAuthorized out securities = false)
  /\ (forallb (forallb (fun k => negb (existsb (jseqb k) names))) securities = true ->
      isAuthorized out securities = isAuthorized state securities)
  /\ (existsb (fun t => is_string (js t) (dget (dget security (js "schema")) (js "type"))) ["apiKey"; "http"] = true ->
      isAuthorized (makeReducer (AUTHORIZE tba fba [(key, security)]) state) [[key]] = true).
Proof.
  intros out. rewrite !isAuthorized_spec. split_and!.
  - intros Hs. apply not_true_iff_false. intros (s & Hin & Hf)%existsb_exists.
    rewrite forallb_forall in Hs, Hf. apply Hs, existsb_exists in Hin as (k & Hk & Hn).
    apply Hf in Hk. subst out. by rewrite logout_granted, Hn, andb_false_r in Hk.
  - intros Hs. subst out. induction securities as [|s l IH]; [done|]. simpl in *.
    apply andb_true_iff in Hs as [Hs Hl]. rewrite IH by done. f_equal. clear -Hs H0.
    induction s as [|k s IH]; [done|]. simpl in *. apply andb_true_iff in Hs as [Hk Hs].
    by rewrite logout_granted, Hk, andb_true_r, IH.
  - cbn [existsb]. rewrite orb_false_r. intros Ht. unfold makeReducer, AUTHORIZE, authorize_all, authorize_one.
    assert (Hs : isObject security = true) by (by destruct security). rewrite Hs, Ht. simpl. unfold granted. rewrite im_get_set, jseqb_refl. by destruct security.
Qed.

Lemma authorize_logout_witness :
  let state := mkAuthState (M := list (jsstr * jdata)) DUndefined
                 (Some [(js "a", DObject []); (js "b", DObject [])]) DUndefined in
  isAuthorized (makeReducer (LOGOUT [js "a"]) state) [[js "a"; js "b"]] = false
  /\ isAuthorized (makeReducer (LOGOUT [js "a"]) state) [[js "b"]] = true.
Proof.
  intros state. split.
  - apply (authorize_logout (fun _ => Ret []) (fun _ => []) state [js "a"] [[js "a"; js "b"]] [] DNull).
    reflexivity.
  - transitivity (isAuthorized state [[js "b"]]); [|reflexivity].
    apply (authorize_logout (fun _ => Ret []) (fun _ => []) state [js "a"] [[js "b"]] [] DNull). reflexivity.
Defined.
