(* ===== verification/SwaggerOAuth.v ===== *)
(** * Swagger UI: OAuth2 flows

    The component for an OAuth2 definition, the function [authorize] that starts a
    flow, the page [oauth2-redirect.html] the authorization server sends the user
    back to, the actions that ask for a token, and what is done with the answer.
    The objects [auth] that these parts share and assign to are kept in a store,
    so that what one part writes is seen by the others. *)

From S2P Require Import JsPrelude JsNumber JsValue JsUnicode JsImmutable.
From S2P Require Import NodeBuffer NodeBufferText SwaggerData SwaggerSearch JsJson SwaggerAuth.

(** ** The world of a flow *)

Record token_request : Type := mkRequest {
  rq_url : jsstr;
  rq_headers : list (jsstr * jsstr);
  rq_query : list (jsstr * jdata);
  rq_body : jsstr;
  rq_name : jsstr;
  rq_auth : nat
}.

Inductive callback : Type :=
| preAuthorizeImplicit_
| accessCodeWithBasic_
| accessCodeWithForm_.

(** [window.swaggerUIRedirectOauth2]; its [errCb] is always [newAuthErr]. *)
Record oauth2 : Type := mkOauth2 {
  o_auth : nat;
  o_state : jdata;
  o_redirectUrl : jdata;
  o_callback : callback
}.

(** Calls of the plugin [err]. *)
Inductive err_call : Type :=
| newAuthErr (authId source level : jsstr) (message : jsstr)
| clearErr (authId type source : jsstr).

(** The names of the inputs of the form. *)
Inductive field : Type := FClientId | FClientSecret | FUsername | FPassword | FPasswordType.

(** What comes back from [fn.fetch]: a response, or a failure with the text of the
    error and the data of the response it may carry. *)
Inductive reply : Type :=
| Response (data : jsstr) (ok : bool) (statusText : jsstr)
| Failure (text : jsstr) (data : jdata).

(** What the user, the authorization server and the network do. *)
Inductive input : Type :=
| ChangeInput (f : field) (v : jsstr)
| ChangeScope (scope : jsstr) (checked : bool)
| ClickAuthorize (now : jsstr)
| Redirected (hash search : jsstr)
| Answered (i : nat) (r : reply)
| ClickLogout.

(** ** The text of a redirect *)

(** [/code|token|error/.test(s)]. *)
Fixpoint contains (sub s : jsstr) : bool :=
  match strip_prefix sub s with
  | Some _ => true
  | None => match s with [] => false | _ :: s' => contains sub s' end
  end.

Definition names_reply (s : jsstr) : bool :=
  contains (js "code") s || contains (js "token") s || contains (js "error") s.

(** [v.replace('=', r)]: the first one. *)
Fixpoint replace_first (c : Z) (r s : jsstr) : jsstr :=
  match s with
  | [] => []
  | x :: s' => if x =? c then r ++ s' else x :: replace_first c r s'
  end.

(** The parts of the query, written as the members of a JSON object. *)
Definition reply_json (qp : jsstr) : jsstr :=
  123 :: join [44] ((fun v => 34 :: replace_first 61 [34; 58; 34] v ++ [34]) <$> split_char 38 qp)
  ++ [125].

Definition reply_reviver (key : jsstr) (value : jdata) : outcome native_error jdata :=
  match key with
  | [] => Ret value
  | _ => s ← dstring value; t ← decodeURIComponent s; Ret (DString t)
  end.

(** The parameters of the address the user was sent back to. *)
Definition reply_params (hash search : jsstr) : outcome native_error jdata :=
  let qp := if names_reply hash then drop 1 hash else drop 1 search in
  match qp with
  | [] => Ret (DObject [])
  | _ => match JSON_parse (reply_json qp) with
         | Ret d => revive reply_reviver [] d
         | Throw _ => Throw (SyntaxError (js "Unexpected token in JSON"))
         | OutOfFuel => OutOfFuel
         end
  end.

(** [d1 === d2]; two objects of different expressions are not the same. *)
Definition strict_eq (d1 d2 : jdata) : bool :=
  match d1, d2 with
  | DUndefined, DUndefined | DNull, DNull => true
  | DBool b1, DBool b2 => Bool.eqb b1 b2
  | DNumber n1, DNumber n2 => num_eqb n1 n2
  | DString s1, DString s2 => jseqb s1 s2
  | _, _ => false
  end.

Definition unsafe_message : jsstr :=
  js "Authorization may be unsafe, passed state was changed in server Passed state wasn't returned from auth server".

(** The message for a reply without a code. *)
Definition no_code_message (qp : jdata) : outcome native_error jsstr :=
  let error := dget qp (js "error") in
  if truthy error then
    e ← dstring error;
    d ← (if truthy (dget qp (js "error_description"))
         then d ← dstring (dget qp (js "error_description")); Ret (d ++ js ". ")
         else Ret (js "no accessCode received from the server. "));
    u ← (if truthy (dget qp (js "error_uri"))
         then u ← dstring (dget qp (js "error_uri")); Ret (js "More info: " ++ u)
         else Ret []);
    Ret (js "[" ++ e ++ js "]: " ++ d ++ u)
  else Ret (js "[Authorization failed]: no accessCode received from the server").

(** ** Effects *)

(** What the flows take from the packages and from the browser: [toByteArray] and
    [fromByteArray] of [base64-js], [parsedUrl.toString()] of [url-parse] for the
    address of a definition and the parameters that are added to its query,
    [window.name], the configuration [oauth2RedirectUrl], and the text of the error
    [JSON.parse] throws. *)
Record browser : Type := mkBrowser {
  toByteArray : jsstr -> BO bytes;
  fromByteArray : bytes -> jsstr;
  fetch_url : jdata -> option jdata -> jsstr;
  window_name : jsstr;
  oauth2RedirectUrl : jdata;
  syntax_message : jsstr -> jsstr
}.

Section flows.
Context (B : browser).
Context {M : Type} `{ImMap jdata M}.

Record world : Type := mkWorld {
  auths : list auth;
  this_state : nat;
  opener : option oauth2;
  store : auth_state (M := M);
  errs : list err_call;
  windows : list jsstr;
  requests : list token_request
}.

(** A handler: what it has done when it throws stays done. *)
Definition eff (A : Type) : Type := world -> page A * world.

#[local] Instance eff_ret : MRet eff := fun A a w => (Ret a, w).
#[local] Instance eff_bind : MBind eff :=
  fun A B f m w =>
    match m w with
    | (Ret a, w') => f a w'
    | (Throw e, w') => (Throw e, w')
    | (OutOfFuel, w') => (OutOfFuel, w')
    end.

Definition lift {A} (m : page A) : eff A := fun w => (m, w).
Definition get_world : eff world := fun w => (Ret w, w).

Definition set_auths (l : list auth) (w : world) : world :=
  mkWorld l (this_state w) (opener w) (store w) (errs w) (windows w) (requests w).
Definition set_opener (o : option oauth2) (w : world) : world :=
  mkWorld (auths w) (this_state w) o (store w) (errs w) (windows w) (requests w).
Definition set_store (s : auth_state) (w : world) : world :=
  mkWorld (auths w) (this_state w) (opener w) s (errs w) (windows w) (requests w).

Definition modify (f : world -> world) : eff unit := fun w => (Ret tt, f w).

Definition add_err (e : err_call) : eff unit := modify (fun w =>
  mkWorld (auths w) (this_state w) (opener w) (store w) (errs w ++ [e]) (windows w) (requests w)).
Definition open_window (url : jsstr) : eff unit := modify (fun w =>
  mkWorld (auths w) (this_state w) (opener w) (store w) (errs w) (windows w ++ [url]) (requests w)).
Definition send (r : token_request) : eff unit := modify (fun w =>
  mkWorld (auths w) (this_state w) (opener w) (store w) (errs w) (windows w) (requests w ++ [r])).

Definition no_auth : native_error := TypeError (js "Cannot read property of undefined").

Definition get_auth (l : nat) : eff auth := fun w =>
  match auths w !! l with Some a => (Ret a, w) | None => (Throw (NativeError no_auth), w) end.

Definition update_auth (l : nat) (f : auth -> auth) : eff unit :=
  modify (fun w => set_auths (alter f l (auths w)) w).

(** [this.setState(...)]: a new object with the fields of the old one. *)
Definition setState (f : auth -> auth) : eff unit :=
  w ← get_world;
  a ← get_auth (this_state w);
  modify (fun w => mkWorld (auths w ++ [f a]) (length (auths w)) (opener w) (store w) (errs w)
                     (windows w) (requests w)).

(** ** Asking for a token *)

Definition schema_get (a : auth) (k : string) : jdata := dget (auth_schema a) (js k).

Definition default_headers : list (jsstr * jsstr) :=
  [(js "Accept", js "application/json, text/plain, */*");
   (js "Content-Type", js "application/x-www-form-urlencoded")].

(** The request is made with [fn.fetch]; the answer is a later input. *)
Definition authorizeRequest (l : nat) (a : auth) (body : jsstr) (query : list (jsstr * jdata))
    (headers : list (jsstr * jsstr)) : eff unit :=
  w ← get_world;
  let additional := dget (auth_configs (store w)) (js "additionalQueryStringParams") in
  let url := fetch_url B (schema_get a "tokenUrl")
               (match additional with
                | DObject _ | DArray _ | DNull => Some additional
                | _ => None
                end) in
  let _headers := foldl (fun h p => assoc_set h p.1 p.2) default_headers headers in
  send (mkRequest url _headers query body (auth_name a) l).

Definition authorization (user password : jdata) : eff (list (jsstr * jsstr)) :=
  t ← lift (basic_header (toByteArray B) (fromByteArray B) user password);
  mret [(js "Authorization", t)].

Definition scope_text (a : auth) : jdata := DString (join [32] (auth_scopes a)).

Definition authorizePassword (l : nat) : eff unit :=
  a ← get_auth l;
  let form := [(js "grant_type", DString (js "password")); (js "scope", scope_text a)] in
  let user := [(js "username", auth_username a); (js "password", auth_password a)] in
  if is_string (js "basic") (auth_passwordType a) then
    headers ← authorization (auth_username a) (auth_password a);
    body ← lift (native (buildFormData (DObject form)));
    authorizeRequest l a body [] headers
  else if is_string (js "query") (auth_passwordType a) then
    let query :=
      (if truthy (auth_clientId a) then [(js "client_id", auth_clientId a)] else []) ++
      (if truthy (auth_clientSecret a) then [(js "client_secret", auth_clientSecret a)] else []) in
    body ← lift (native (buildFormData (DObject (form ++ user))));
    authorizeRequest l a body query []
  else
    headers ← authorization (auth_clientId a) (auth_clientSecret a);
    body ← lift (native (buildFormData (DObject (form ++ user))));
    authorizeRequest l a body [] headers.

Definition authorizeApplication (l : nat) : eff unit :=
  a ← get_auth l;
  headers ← authorization (auth_clientId a) (auth_clientSecret a);
  let form := [(js "grant_type", DString (js "client_credentials")); (js "scope", scope_text a)] in
  body ← lift (native (buildFormData (DObject form)));
  authorizeRequest l a body [] headers.

Definition code_form (a : auth) (redirectUrl : jdata) : list (jsstr * jdata) :=
  [(js "grant_type", DString (js "authorization_code")); (js "code", auth_code a);
   (js "client_id", auth_clientId a); (js "client_secret", auth_clientSecret a);
   (js "redirect_uri", redirectUrl)].

Definition authorizeAccessCodeWithFormParams (l : nat) (redirectUrl : jdata) : eff unit :=
  a ← get_auth l;
  body ← lift (native (buildFormData (DObject (code_form a redirectUrl))));
  authorizeRequest l a body [] [].

Definition authorizeAccessCodeWithBasicAuthentication (l : nat) (redirectUrl : jdata) : eff unit :=
  a ← get_auth l;
  headers ← authorization (auth_clientId a) (auth_clientSecret a);
  let form := [(js "grant_type", DString (js "authorization_code")); (js "code", auth_code a);
               (js "client_id", auth_clientId a); (js "redirect_uri", redirectUrl)] in
  body ← lift (native (buildFormData (DObject form)));
  authorizeRequest l a body [] headers.

(** ** Tokens *)

(** The action and its reducer, which assigns to the object. *)
Definition authorizeOauth2 (l : nat) (token : jdata) : eff unit :=
  _ ← update_auth l (set_token (DObject (assign_from token)));
  a ← get_auth l;
  modify (fun w => set_store (makeReducer (AUTHORIZE_OAUTH2 a) (store w)) w).

Definition auth_err (name : jsstr) (level : string) (message : jsstr) : eff unit :=
  add_err (newAuthErr name (js "auth") (js level) message).

Definition preAuthorizeImplicit (l : nat) (token : jdata) (isValid : bool) : eff unit :=
  a ← get_auth l;
  _ ← modify (set_opener None);
  _ ← (if negb (is_string (js "accessCode") (schema_get a "flow")) && negb isValid
       then auth_err (auth_name a) "warning" unsafe_message else mret tt);
  if truthy (dget token (js "error"))
  then auth_err (auth_name a) "error" (default [] (JSON_stringify token))
  else authorizeOauth2 l token.

(** [message += ", error: " + x], where the conversion of [x] may throw. *)
Definition add_detail (label : string) (x : jdata) (message : jsstr) : outcome native_error jsstr :=
  if truthy x then t ← dstring x; Ret (message ++ js label ++ t) else Ret message.

(** The details of a failure; what throws ends the collection. *)
Definition failure_message (text : jsstr) (data : jdata) : jsstr :=
  if negb (truthy data) then text
  else
    let json := match data with
                | DString s => match JSON_parse s with Ret d => Some d | _ => None end
                | d => Some d
                end in
    match json with
    | None | Some DNull => text
    | Some d =>
        match add_detail ", error: " (dget d (js "error")) text with
        | Ret message =>
            match add_detail ", description: " (dget d (js "error_description")) message with
            | Ret message' => message'
            | _ => message
            end
        | _ => text
        end
    end.

Definition on_reply (rq : token_request) (r : reply) : eff unit :=
  let fail text data := auth_err (rq_name rq) "error" (failure_message text data) in
  match r with
  | Failure text data => fail text data
  | Response data ok statusText =>
      match JSON_parse data with
      | Ret token =>
          if negb ok then auth_err (rq_name rq) "error" statusText
          else if truthy (dget token (js "error")) || truthy (dget token (js "parseError"))
          then auth_err (rq_name rq) "error" (default [] (JSON_stringify token))
          else authorizeOauth2 (rq_auth rq) token
      | _ => fail (syntax_message B data) DUndefined
      end
  end.

(** ** Starting a flow *)

(** [name=value] with the value encoded. *)
Definition query_part (name : string) (v : jdata) : page jsstr :=
  s ← native (dstring v); t ← native (encodeURIComponent s); Ret (js name ++ 61 :: t).

(** The loop over [additionalQueryStringParams]. *)
Fixpoint additional_parts (params : jdata) (keys : list jsstr) : page (list jsstr) :=
  match keys with
  | [] => Ret []
  | k :: keys' =>
      if is_undefined (dget params k) then additional_parts params keys'
      else
        tk ← native (encodeURIComponent k);
        v ← native (dstring (dget params k));
        tv ← native (encodeURIComponent v);
        rest ← additional_parts params keys';
        Ret ((tk ++ 61 :: tv) :: rest)
  end.

(** [response_type] by flow. *)
Definition response_part (flow : jdata) : list jsstr :=
  if is_string (js "accessCode") flow || is_string (js "authorizationCode") flow
  then [js "response_type=code"]
  else if is_string (js "implicit") flow then [js "response_type=token"]
  else [].

(** A part of the query that is there under a condition. *)
Definition part_if (b : bool) (m : page jsstr) : page (list jsstr) :=
  if b then t ← m; Ret [t] else Ret [].

(** [authConfigs[k]]; a missing configuration is the empty one. *)
Definition config_get (authConfigs : jdata) (k : string) : page jdata :=
  match authConfigs with
  | DNull => Throw (NativeError (TypeError (js "Cannot read property '" ++ js k ++ js "' of null")))
  | _ => Ret (dget authConfigs (js k))
  end.

(** The state and the query that are sent to the authorization server. *)
Definition authorize_query (a : auth) (authConfigs : jdata) (now : jsstr) : page (jsstr * list jsstr) :=
  redirect ← query_part "redirect_uri" (oauth2RedirectUrl B);
  scope ← (match auth_scopes a with
           | [] => Ret []
           | _ => separator ← config_get authConfigs "scopeSeparator";
                  sep ← native (dstring (d_or separator (DString [32])));
                  t ← query_part "scope" (DString (join sep (auth_scopes a))); Ret [t]
           end);
  state ← btoa (toByteArray B) (fromByteArray B) now;
  st ← query_part "state" (DString state);
  realm ← config_get authConfigs "realm";
  realms ← part_if (negb (is_undefined realm)) (query_part "realm" realm);
  let params := dget authConfigs (js "additionalQueryStringParams") in
  more ← additional_parts params (dkeys params);
  Ret (state, redirect :: scope ++ st :: realms ++ more).

Definition authorize (l : nat) (authConfigs : jdata) (now : jsstr) : eff unit :=
  a ← get_auth l;
  let flow := schema_get a "flow" in
  if is_string (js "password") flow then authorizePassword l
  else if is_string (js "application") flow || is_string (js "clientCredentials") flow
  then authorizeApplication l
  else
    client ← lift (part_if (match auth_clientId a with DString _ => true | _ => false end)
                           (query_part "client_id" (auth_clientId a)));
    if is_undefined (oauth2RedirectUrl B) then
      add_err (newAuthErr (auth_name a) (js "validation") (js "error")
        (js "oauth2RedirectUrl configuration is not passed. Oauth2 authorization cannot be performed."))
    else
      '(state, rest) ← lift (authorize_query a authConfigs now);
      match schema_get a "authorizationUrl" with
      | DString url =>
          let query := join [38] (response_part flow ++ client ++ rest) in
          let sep := if indexOf url 63 =? -1 then 63 else 38 in
          let cb := if is_string (js "implicit") flow then preAuthorizeImplicit_
                    else if truthy (dget authConfigs (js "useBasicAuthenticationWithAccessCodeGrant"))
                    then accessCodeWithBasic_ else accessCodeWithForm_ in
          _ ← modify (set_opener (Some (mkOauth2 l (DString state) (oauth2RedirectUrl B) cb)));
          open_window (url ++ sep :: query)
      | _ => lift (Throw (NativeError no_auth))
      end.

(** ** The page the user is sent back to *)

(** The callback for the implicit flow is only there when the flow is, and is then
    given a token. *)
Definition call_back (o : oauth2) (token : jdata) (isValid : bool) : eff unit :=
  match o_callback o with
  | preAuthorizeImplicit_ => preAuthorizeImplicit (o_auth o) token isValid
  | accessCodeWithBasic_ => authorizeAccessCodeWithBasicAuthentication (o_auth o) (o_redirectUrl o)
  | accessCodeWithForm_ => authorizeAccessCodeWithFormParams (o_auth o) (o_redirectUrl o)
  end.

(** [delete oauth2.state] on the object of the opener. *)
Definition delete_state (o : oauth2) : oauth2 :=
  mkOauth2 (o_auth o) DUndefined (o_redirectUrl o) (o_callback o).

Definition run (hash search : jsstr) : eff unit :=
  w ← get_world;
  match opener w with
  | None => lift (Throw (NativeError no_auth))
  | Some o =>
      qp ← lift (native (reply_params hash search));
      let isValid := strict_eq (dget qp (js "state")) (o_state o) in
      a ← get_auth (o_auth o);
      let flow := schema_get a "flow" in
      if (is_string (js "accessCode") flow || is_string (js "authorizationCode") flow)
         && negb (truthy (auth_code a)) then
        _ ← (if isValid then mret tt else auth_err (auth_name a) "warning" unsafe_message);
        if truthy (dget qp (js "code")) then
          _ ← modify (set_opener (Some (delete_state o)));
          _ ← update_auth (o_auth o) (set_code (dget qp (js "code")));
          call_back o DUndefined false
        else
          message ← lift (native (no_code_message qp));
          auth_err (auth_name a) "error" message
      else call_back o qp isValid
  end.

(** ** The component *)

Definition set_field (f : field) (v : jsstr) (a : auth) : auth :=
  let pick g old := match g, f with
                    | FClientId, FClientId | FClientSecret, FClientSecret | FUsername, FUsername
                    | FPassword, FPassword | FPasswordType, FPasswordType => DString v
                    | _, _ => old
                    end in
  mkAuth (auth_appName a) (auth_name a) (auth_schema a) (auth_scopes a)
    (pick FClientId (auth_clientId a)) (pick FClientSecret (auth_clientSecret a))
    (pick FUsername (auth_username a)) (pick FPassword (auth_password a))
    (pick FPasswordType (auth_passwordType a)) (auth_code a) (auth_token a).

Definition set_scopes (scopes : list jsstr) (a : auth) : auth :=
  mkAuth (auth_appName a) (auth_name a) (auth_schema a) scopes (auth_clientId a)
    (auth_clientSecret a) (auth_username a) (auth_password a) (auth_passwordType a)
    (auth_code a) (auth_token a).

Definition onScopeChange (scope : jsstr) (checked : bool) : eff unit :=
  w ← get_world;
  a ← get_auth (this_state w);
  let listed := existsb (jseqb scope) (auth_scopes a) in
  if checked && negb listed then setState (set_scopes (auth_scopes a ++ [scope]))
  else if negb checked && listed
  then setState (set_scopes (List.filter (fun val => negb (jseqb val scope)) (auth_scopes a)))
  else mret tt.

(** [name] in the call of [clear] is no variable of the function: it is the
    property of the window. *)
Definition component_authorize (now : jsstr) : eff unit :=
  w ← get_world;
  _ ← add_err (clearErr (window_name B) (js "auth") (js "auth"));
  authorize (this_state w) (auth_configs (store w)) now.

Definition component_logout : eff unit :=
  w ← get_world;
  a ← get_auth (this_state w);
  _ ← add_err (clearErr (auth_name a) (js "auth") (js "auth"));
  modify (fun w => set_store (makeReducer (LOGOUT [auth_name a]) (store w)) w).

(** An answer to a request that is waiting. *)
Definition answer (i : nat) (r : reply) : eff unit :=
  w ← get_world;
  match requests w !! i with
  | None => mret tt
  | Some rq =>
      _ ← modify (fun w => mkWorld (auths w) (this_state w) (opener w) (store w) (errs w) (windows w)
                             (delete i (requests w)));
      on_reply rq r
  end.

Definition handle (i : input) : eff unit :=
  match i with
  | ChangeInput f v => setState (set_field f v)
  | ChangeScope scope checked => onScopeChange scope checked
  | ClickAuthorize now => component_authorize now
  | Redirected hash search => run hash search
  | Answered i r => answer i r
  | ClickLogout => component_logout
  end.

(** One turn of the event loop: what a handler throws is only reported. *)
Definition turn (w : world) (i : input) : world := (handle i w).2.
Definition turns (w : world) (l : list input) : world := foldl turn w l.
End flows.
