(* ===== verification/SwaggerOAuthTheory.v ===== *)
(** * Swagger UI: what an OAuth2 flow sends and accepts

    The query a flow opens the authorization server with, the reading of the
    reply, the request for a token, and which inputs make a definition
    authorized. *)

From stdpp Require Import sets.
From S2P Require Import JsPrelude JsNumber JsValue JsUnicode JsImmutable.
From S2P Require Import JsInt32 NodeBuffer NodeBufferText SwaggerData SwaggerSearch JsJson SwaggerAuth SwaggerOAuth.

(** ** Texts of fields *)

(** A part of a query or a form that a server reads as the field [f]. *)
Definition field_text (t : jsstr) (f : jsstr * jsstr) : Prop :=
  form_field t = Ret f /\ 38 ∉ t /\ t <> [].

Lemma fields_read ts fs : Forall2 field_text ts fs -> form_fields (join [38] ts) = Ret fs.
Proof.
  intros H. assert (Hm : mapM form_field ts = Ret fs /\ Forall (fun t => 38 ∉ t) ts).
  { induction H as [|t f ts fs (Hf & Hs & _) _ [IH1 IH2]]; [done|]. split; [|by constructor].
    cbn [mapM]. by rewrite Hf, IH1. }
  destruct Hm as [Hm Hs]. inversion H as [|t f ts' fs' (_ & _ & Hne) H']; subst; [done|].
  pose proof (join_ne [38] t ts' Hne). unfold form_fields.
  destruct (join [38] (t :: ts')) as [|c r] eqn:E; [done|]. rewrite <- E, split_join; done.
Qed.

Lemma plus_to_space_none s : 43 ∉ s -> plus_to_space s = s.
Proof.
  unfold plus_to_space. induction s as [|c s IH]; [done|]. rewrite not_elem_of_cons. intros [Hc Hs].
  cbn [fmap list_fmap]. rewrite (proj2 (Z.eqb_neq c 43)) by congruence. f_equal. by apply IH.
Qed.

Lemma field_text_general tn n t v : decodes tn n -> decodes t v -> field_text (tn ++ 61 :: t) (n, v).
Proof.
  intros Hn Ht. destruct (pair_text_sep (tn ++ 61 :: t) n v) as [H1 H2]; [by exists tn, t|].
  split; [|done]. unfold form_field.
  rewrite cut_app by (eapply uri_unit_sep; [apply Hn|done]).
  rewrite !plus_to_space_none by (eapply uri_unit_sep; [apply Hn || apply Ht|done]).
  rewrite (decodes_decode _ _ Hn). simpl. by rewrite (decodes_decode _ _ Ht).
Qed.

Lemma field_text_pair n t v : forallb unreserved n = true -> decodes t v ->
  field_text (n ++ 61 :: t) (n, v).
Proof.
  intros Hn Ht. apply field_text_general; [|done]. apply decodes_self, Forall_forall.
  rewrite forallb_forall in Hn. intros c Hc%list_elem_of_In. by apply Hn.
Qed.

Lemma encodable_text s : encodable s -> exists t, encodeURIComponent s = Ret t /\ decodes t s.
Proof. intros [H1 H2]. by apply encode_decode. Qed.

(** ** The reply *)

(** The properties after a pass that assigns each of the names in turn. *)
Lemma each_get {X A} (f : jsstr -> A) (calls : list (jsstr * outcome X A)) : forall ps,
  Forall (fun c => c.2 = Ret (f c.1)) calls ->
  exists ps', each calls ps = Ret ps'
    /\ forall k, assoc_get ps' k = if bool_decide (k ∈ calls.*1) then Some (f k) else assoc_get ps k.
Proof.
  induction calls as [|[k m] calls IH]; intros ps Hc; [by exists ps|].
  apply Forall_cons in Hc as [Hm Hc]. simpl in Hm. subst m. cbn [each].
  destruct (IH (assoc_set ps k (f k)) Hc) as (ps' & E & Hg). exists ps'. split; [done|].
  intros k'. rewrite Hg, assoc_get_set. cbn [fmap list_fmap fst].
  case_bool_decide as H1; case_bool_decide as H2; rewrite elem_of_cons in H2; [done|tauto| |].
  - destruct H2 as [->|]; [by rewrite jseqb_refl|done].
  - destruct (jseqb k k') eqn:E'; [|done]. apply jseqb_eq in E' as ->. tauto.
Qed.

Lemma assoc_set_new {A} (ps : list (jsstr * A)) k v : k ∉ ps.*1 -> assoc_set ps k v = ps ++ [(k, v)].
Proof.
  induction ps as [|[k' v'] ps IH]; simpl; [done|]. rewrite not_elem_of_cons. intros [Hk Hps].
  destruct (jseqb k' k) eqn:E; [by apply jseqb_eq in E as ->|]. by rewrite IH.
Qed.

Lemma foldl_assoc_set {B} (f : B -> jdata) (l : list (jsstr * B)) : forall ps,
  NoDup (ps.*1 ++ l.*1) ->
  foldl (fun ps p => assoc_set ps p.1 (f p.2)) ps l = ps ++ ((fun p => (p.1, f p.2)) <$> l).
Proof.
  induction l as [|[k b] l IH]; intros ps Hn; [by rewrite app_nil_r|]. cbn [foldl fmap list_fmap fst snd] in *.
  rewrite assoc_set_new, IH.
  - by rewrite <- app_assoc.
  - by rewrite fmap_app, <- app_assoc.
  - apply NoDup_app in Hn as (_ & Hd & _). intros Hk%Hd. apply Hk. by left.
Qed.

Lemma assoc_get_fmap {A B} (f : jsstr -> A -> B) (ps : list (jsstr * A)) k :
  assoc_get ((fun p => (p.1, f p.1 p.2)) <$> ps) k = f k <$> assoc_get ps k.
Proof.
  induction ps as [|[k' v] ps IH]; [done|]. cbn. destruct (jseqb k' k) eqn:E; [|done].
  by apply jseqb_eq in E as ->.
Qed.

Lemma fmap_keys {A B} (f : jsstr -> A -> B) (ps : list (jsstr * A)) :
  ((fun p => (p.1, f p.1 p.2)) <$> ps).*1 = ps.*1.
Proof. induction ps as [|p ps IH]; [done|]. cbn. by f_equal. Qed.

Lemma revive_object r name ps : revive r name (DObject ps) =
  (ps' ← each (in_order ((fun p => (p.1, revive r p.1 p.2)) <$> ps) (order_keys ps.*1)) ps;
   r name (DObject ps')).
Proof.
  cbn [revive]. do 3 f_equal. generalize (order_keys ps.*1) as ks. intros ks. f_equal.
  induction ps as [|[k v] ps IH]; [done|]. cbn. by f_equal.
Qed.

(** Reviving an object whose properties all convert. *)
Lemma revive_flat r (f : jsstr -> jdata) ps :
  (forall d, r [] d = Ret d) ->
  (forall k v, assoc_get ps k = Some v -> revive r k v = Ret (f k)) ->
  exists ps', revive r [] (DObject ps) = Ret (DObject ps')
    /\ forall k, assoc_get ps' k = if bool_decide (k ∈ ps.*1) then Some (f k) else None.
Proof.
  intros Hr Hf. rewrite revive_object.
  set (calls := (fun p => (p.1, revive r p.1 p.2)) <$> ps).
  destruct (each_get f (in_order calls (order_keys ps.*1)) ps) as (ps' & E & Hg).
  { apply in_order_spec with (P := fun k m => m = Ret (f k)). intros k m. subst calls.
    rewrite assoc_get_fmap. destruct (assoc_get ps k) as [v|] eqn:Ek; [|done]. intros [= <-]. by apply Hf. }
  exists ps'. rewrite E. split; [apply Hr|]. intros k. rewrite Hg.
  assert (Hk : k ∈ (in_order calls (order_keys ps.*1)).*1 <-> k ∈ ps.*1).
  { rewrite in_order_keys, order_keys_elem, assoc_get_Some_key. subst calls. rewrite fmap_keys. tauto. }
  rewrite (bool_decide_ext _ _ Hk). case_bool_decide as H; [done|]. by apply assoc_get_key.
Qed.

(** The parameters of a reply, with the texts they are sent as. *)
Definition reply_text (p : jsstr * jsstr) (t : jsstr) : Prop :=
  p.1 <> [] /\ forallb unreserved p.1 = true /\ decodes t p.2.

Lemma uri_unit_plain c : uri_unit c = true -> plain_unit c = true.
Proof.
  unfold uri_unit, plain_unit. intros H. destruct (Z.eqb_spec c 34) as [->|]; [done|].
  destruct (Z.eqb_spec c 92) as [->|]; [done|]. unfold unreserved in H.
  change (js "-_.!~*'()") with [45; 95; 46; 33; 126; 42; 39; 40; 41] in H. cbn [existsb] in H.
  rewrite !orb_true_iff, !andb_true_iff, !Z.leb_le, !Z.eqb_eq in H. cbn. rewrite !andb_true_r. lia.
Qed.

Lemma decodes_plain t v : decodes t v -> Forall (fun c => plain_unit c = true) t.
Proof. intros [H _]. eapply Forall_impl; [exact H|]. apply uri_unit_plain. Qed.

Lemma unreserved_forall n : forallb unreserved n = true -> Forall (fun c => unreserved c = true) n.
Proof. intros H. apply Forall_forall. rewrite forallb_forall in H. intros c Hc%list_elem_of_In. by apply H. Qed.

Lemma replace_first_cut c r n t : c ∉ n -> replace_first c r (n ++ c :: t) = n ++ r ++ t.
Proof.
  induction n as [|x n IH]; simpl; [by rewrite Z.eqb_refl|]. rewrite not_elem_of_cons. intros [Hx Hn].
  rewrite (proj2 (Z.eqb_neq x c)) by congruence. by rewrite IH.
Qed.

(** The text of a parameter. *)
Definition param_text (p t : jsstr) : jsstr := p ++ 61 :: t.

Lemma param_member p t : reply_text p t ->
  34 :: replace_first 61 [34; 58; 34] (param_text p.1 t) ++ [34] = member_text (p.1, t).
Proof.
  intros (_ & Hn & _). unfold param_text, member_text.
  rewrite replace_first_cut by (eapply unreserved_sep; [by apply unreserved_forall|done]).
  simpl. by rewrite <- !app_assoc.
Qed.

Lemma param_sep p t : reply_text p t -> 38 ∉ param_text p.1 t /\ param_text p.1 t <> [].
Proof. intros (_ & Hn & Ht). by destruct (field_text_pair p.1 t p.2 Hn Ht) as (_ & ? & ?). Qed.

Lemma params_members ps ts : Forall2 reply_text ps ts ->
  (fun v => 34 :: replace_first 61 [34; 58; 34] v ++ [34]) <$> zip_with param_text ps.*1 ts
  = member_text <$> zip ps.*1 ts.
Proof.
  induction 1 as [|p t ps ts H _ IH]; [done|]. cbn [fmap list_fmap zip_with fst]. f_equal; [|done].
  by apply (param_member p t).
Qed.

Lemma params_sep ps ts : Forall2 reply_text ps ts ->
  Forall (fun t => 38 ∉ t /\ t <> []) (zip_with param_text ps.*1 ts).
Proof.
  induction 1 as [|p t ps ts H _ IH]; constructor; [by apply (param_sep p t)|done].
Qed.

Lemma params_plain ps ts : Forall2 reply_text ps ts ->
  Forall (fun p => Forall (fun c => plain_unit c = true) p.1 /\ Forall (fun c => plain_unit c = true) p.2)
    (zip ps.*1 ts).
Proof.
  induction 1 as [|p t ps ts (_ & Hn & Ht) _ IH]; constructor; [|done]. simpl. split.
  - eapply Forall_impl; [by apply unreserved_forall|]. intros c Hc. apply uri_unit_plain.
    unfold uri_unit. by rewrite Hc.
  - by eapply decodes_plain.
Qed.

(** The parsed reply, before its values are decoded. *)
Lemma reply_parsed ps ts : Forall2 reply_text ps ts -> NoDup ps.*1 -> ps <> [] ->
  JSON_parse (reply_json (join [38] (zip_with param_text ps.*1 ts)))
  = Ret (DObject ((fun p => (p.1, DString p.2)) <$> zip ps.*1 ts)).
Proof.
  intros H Hn Hne. pose proof (Forall2_length _ _ _ H) as Hlen. unfold reply_json.
  assert (Hz : zip_with param_text ps.*1 ts <> []) by (destruct H; done).
  rewrite split_join; [|done|eapply Forall_impl; [by apply params_sep|by intros ? []]].
  rewrite (params_members ps ts H). set (l := zip ps.*1 ts).
  assert (Hl : l <> []) by (subst l; destruct H; done).
  assert (Hll : length l = length ps) by (subst l; rewrite length_zip_with, length_fmap; lia).
  assert (Hk : l.*1 = ps.*1) by (subst l; apply fst_zip; rewrite length_fmap; lia).
  set (text := join [44] (member_text <$> l) ++ [125]).
  assert (Hm : forall fuel, (S (length l) < fuel)%nat ->
            json_members fuel [] text = Ret ((fun p => (p.1, DString p.2)) <$> l, [])).
  { intros fuel Hf. subst text. rewrite json_members_plain; [|done|done|by apply params_plain].
    rewrite (foldl_assoc_set DString l []); [done|]. simpl. by rewrite Hk. }
  assert (Ht : exists r, text = 34 :: r).
  { subst text. destruct l as [|p [|p' l']]; [done|by eexists..]. }
  destruct Ht as [r Hr]. unfold JSON_parse. cbn [json_value skip_space].
  change (json_space 123) with false. cbv iota. change (123 =? 91) with false. cbv iota.
  change (123 =? 123) with true. cbv iota. rewrite Hr at 1. cbn [skip_space].
  change (json_space 34) with false. cbv iota. change (34 =? 125) with false. cbv iota.
  rewrite Hm; [done|]. cbn [length]. enough (S (length l) < length text)%nat by lia.
  subst text. rewrite length_app. cbn [length]. clear -Hl. induction l as [|p l IH]; [done|].
  destruct l as [|p' l]; [unfold member_text; simpl; rewrite length_app; simpl; lia|].
  change (join [44] (member_text <$> p :: p' :: l))
    with (member_text p ++ 44 :: join [44] (member_text <$> p' :: l)).
  rewrite length_app. specialize (IH ltac:(done)). cbn [length] in *. lia.
Qed.

Lemma zip_get ps ts k v : Forall2 reply_text ps ts -> assoc_get (zip ps.*1 ts) k = Some v ->
  exists w, assoc_get ps k = Some w /\ decodes v w /\ k <> [].
Proof.
  induction 1 as [|[k' w] t ps ts (Hne & _ & Ht) _ IH]; [done|]. cbn. destruct (jseqb k' k) eqn:E; [|done].
  apply jseqb_eq in E as ->. intros [= <-]. eauto.
Qed.

(** A reply whose parameters have distinct names is read as these parameters. *)
Lemma reply_params_spec ps ts : Forall2 reply_text ps ts -> NoDup ps.*1 -> ps <> [] ->
  exists qs, reply_params [] (63 :: join [38] (zip_with param_text ps.*1 ts)) = Ret (DObject qs)
    /\ forall k, assoc_get qs k = DString <$> assoc_get ps k.
Proof.
  intros H Hn Hne. pose proof (Forall2_length _ _ _ H) as Hlen.
  pose proof (reply_parsed ps ts H Hn Hne) as Hp. unfold reply_params.
  change (names_reply []) with false. cbv iota. rewrite skipn_cons, drop_0.
  assert (Hj : join [38] (zip_with param_text ps.*1 ts) <> []).
  { pose proof (params_sep ps ts H) as Hs. destruct H; [done|]. cbn [fmap list_fmap zip_with] in *.
    apply Forall_cons in Hs as [[_ Hs] _]. by apply join_ne. }
  destruct (join [38] _) as [|c r]; [done|]. rewrite Hp.
  set (f := fun k => DString (default [] (assoc_get ps k))).
  destruct (revive_flat reply_reviver f ((fun p => (p.1, DString p.2)) <$> zip ps.*1 ts)) as (qs & E & Hg);
    [done| |].
  { intros k v. rewrite (assoc_get_fmap (fun _ => DString)).
    destruct (assoc_get (zip ps.*1 ts) k) as [t|] eqn:Ek; [|done]. intros [= <-].
    destruct (zip_get ps ts k t H Ek) as (w & Hw & Hd & Hk). destruct k as [|c' k]; [done|].
    cbn [revive reply_reviver dstring]. subst f. cbv beta. rewrite Hw.
    unfold mbind, outcome_bind. by rewrite (decodes_decode _ _ Hd). }
  exists qs. split; [done|]. intros k. rewrite Hg, (fmap_keys (fun _ => DString)), fst_zip
    by (rewrite length_fmap; lia).
  case_bool_decide as Hk; subst f; cbv beta.
  - apply assoc_get_Some_key in Hk as [w Hw]. by rewrite Hw.
  - by rewrite (proj2 (assoc_get_key ps k)).
Qed.

(** ** Encodable texts *)

Lemma well_formed_app s t : well_formed s = true -> well_formed t = true -> well_formed (s ++ t) = true.
Proof.
  intros Hs Ht. induction s as [|c|c n s IH2 IH1] using units_ind; [done| |].
  - simpl in *. destruct (is_lead c); [done|]. by destruct (is_trail c).
  - change (well_formed (c :: n :: s)) with
      (if is_lead c then is_trail n && well_formed s else negb (is_trail c) && well_formed (n :: s)) in Hs.
    change (well_formed ((c :: n :: s) ++ t)) with
      (if is_lead c then is_trail n && well_formed (s ++ t) else negb (is_trail c) && well_formed ((n :: s) ++ t)).
    destruct (is_lead c); apply andb_true_iff in Hs as [-> Hs]; [by rewrite IH2|by rewrite IH1].
Qed.

Lemma encodable_app s t : encodable s -> encodable t -> encodable (s ++ t).
Proof. intros [? ?] [? ?]. split; [by apply Forall_app|by apply well_formed_app]. Qed.

Lemma encodable_join sep l : encodable sep -> Forall encodable l -> encodable (join sep l).
Proof.
  intros Hsep. induction 1 as [|s l Hs Hl IH]; [by apply encodable_check|]. destruct l as [|s' l]; [done|].
  change (join sep (s :: s' :: l)) with (s ++ sep ++ join sep (s' :: l)). by repeat apply encodable_app.
Qed.

(** The characters of base64 are ASCII. *)
Definition base64_unit (c : Z) : bool := base64_valid c || (c =? 61).

Lemma base64_encodable s : forallb base64_unit s = true -> encodable s.
Proof.
  intros H. assert (Hc : forall c, base64_unit c = true -> 0 <= c < 128).
  { intros c. unfold base64_unit, base64_valid. cbn [existsb].
    rewrite !orb_true_iff, !andb_true_iff, !Z.leb_le, !Z.eqb_eq. lia. }
  apply encodable_check. apply andb_true_iff. split.
  - apply forallb_forall. intros c Hin. rewrite forallb_forall in H. apply H, Hc in Hin. lia.
  - induction s as [|c s IH]; [done|]. simpl in *. apply andb_true_iff in H as [H%Hc Hs].
    assert (is_lead c = false) as -> by (apply andb_false_iff; left; apply Z.ltb_ge; lia).
    assert (is_trail c = false) as -> by (apply andb_false_iff; left; apply Z.ltb_ge; lia).
    by apply IH.
Qed.

Section btoa.
Context (toByteArray : jsstr -> BO bytes) (fromByteArray : bytes -> jsstr).

(** The text of a string of plain size. *)
Definition base64_of (s : jsstr) : jsstr :=
  match encoded_all (points s) with [] => [] | bs => fromByteArray bs end.

Lemma btoa_spec s : Forall is_unit16 s -> ends_two_leads s = false -> 3 * strlen s <= kMaxLength ->
  btoa toByteArray fromByteArray s = Ret (base64_of s).
Proof.
  intros Hs Hend Hlen. unfold btoa.
  destruct (fromString_spec toByteArray (mkMemory [] 0) s (Some (js "utf-8")) eq_refl eq_refl Hs Hlen)
    as (b & m & -> & Hc).
  rewrite written_all in Hc by done.
  cbn [of_buffer]. unfold mbind, outcome_bind. rewrite Hc. unfold base64_of.
  pose proof (encoded_all_length s Hs) as Hle. unfold kMaxLength in Hlen.
  set (bs := encoded_all (points s)) in *. pose proof (strlen_nonneg bs).
  unfold buf_toString. rewrite toInt32_small by lia.
  destruct (Z.eqb_spec (strlen bs) 0) as [Hz|Hz].
  - destruct bs as [|x l]; [done|]. rewrite strlen_cons in Hz. pose proof (strlen_nonneg l). lia.
  - unfold slowToString. destruct (Z.ltb_spec (strlen bs) 0); [lia|].
    destruct (Z.leb_spec (strlen bs) 0); [lia|]. rewrite (Z.mod_small (strlen bs)) by lia.
    change (0 mod 2 ^ 32) with 0. destruct (Z.leb_spec (strlen bs) 0); [lia|].
    change (find_encoding (encoding_or_utf8 (Some (js "base64")))) with (Some EncBase64). cbv iota.
    unfold base64Slice. rewrite !Z.eqb_refl. by destruct bs.
Qed.
End btoa.

(** ** What a flow sends *)

Definition string_of (d : jdata) : option jsstr := match d with DString s => Some s | _ => None end.

(** A value that is a string or missing. *)
Definition text_or_missing (d : jdata) : Prop :=
  d = DUndefined \/ exists s, d = DString s /\ encodable s.

(** The properties of an object that are strings, as fields. *)
Definition object_fields (d : jdata) : list (jsstr * jsstr) :=
  omap (fun k => v ← string_of (dget d k); Some (k, v)) (dkeys d).

(** A form and a configuration whose values are strings that can be encoded. *)
Record ready (a : auth) (cfg : jdata) (fl url cid cs sep : jsstr) : Prop := {
  r_flow : schema_get a "flow" = DString fl;
  r_flows : fl ∈ [js "accessCode"; js "authorizationCode"; js "implicit"];
  r_url : schema_get a "authorizationUrl" = DString url;
  r_client : auth_clientId a = DString cid /\ encodable cid;
  r_secret : auth_clientSecret a = DString cs /\ encodable cs;
  r_scopes : Forall encodable (auth_scopes a);
  r_sep : d_or (dget cfg (js "scopeSeparator")) (DString [32]) = DString sep /\ encodable sep;
  r_realm : text_or_missing (dget cfg (js "realm"));
  r_more : let more := dget cfg (js "additionalQueryStringParams") in
           Forall (fun k => encodable k /\ text_or_missing (dget more k)) (dkeys more);
  r_config : cfg <> DNull
}.

(** The fields of the query for the authorization server. *)
Definition authorize_fields (a : auth) (cfg : jdata) (fl cid ru sep st : jsstr) : list (jsstr * jsstr) :=
  (js "response_type", if jseqb fl (js "implicit") then js "token" else js "code")
  :: (js "client_id", cid) :: (js "redirect_uri", ru)
  :: match auth_scopes a with [] => [] | _ => [(js "scope", join sep (auth_scopes a))] end
  ++ (js "state", st)
  :: match string_of (dget cfg (js "realm")) with Some r => [(js "realm", r)] | None => [] end
  ++ object_fields (dget cfg (js "additionalQueryStringParams")).

Lemma query_part_spec name s : forallb unreserved (js name) = true -> encodable s ->
  exists t, query_part name (DString s) = Ret t /\ field_text t (js name, s).
Proof.
  intros Hn Hs. destruct (encodable_text s Hs) as (t & E & Ht). exists (js name ++ 61 :: t).
  unfold query_part. cbn [dstring native]. unfold mbind, outcome_bind. rewrite E. cbn [native].
  split; [done|by apply field_text_pair].
Qed.

Lemma additional_parts_spec more ks :
  Forall (fun k => encodable k /\ text_or_missing (dget more k)) ks ->
  exists ts, additional_parts more ks = Ret ts
    /\ Forall2 field_text ts (omap (fun k => v ← string_of (dget more k); Some (k, v)) ks).
Proof.
  induction 1 as [|k ks [Hk Hv] _ (ts & E & IH)]; [by exists []|]. cbn [additional_parts omap list_omap].
  destruct Hv as [->|(v & -> & Hv)]; [by exists ts|]. cbn [is_undefined string_of dstring].
  destruct (encodable_text k Hk) as (tk & Ek & Dk), (encodable_text v Hv) as (tv & Ev & Dv).
  exists ((tk ++ 61 :: tv) :: ts). rewrite Ek, E. cbn [native]. unfold mbind, outcome_bind.
  rewrite Ev. cbn [native]. split; [done|]. constructor; [by apply field_text_general|done].
Qed.

Lemma config_get_object cfg k : cfg <> DNull -> config_get cfg k = Ret (dget cfg (js k)).
Proof. by destruct cfg. Qed.

Lemma authorize_query_spec B a cfg fl url cid cs sep ru now st : ready a cfg fl url cid cs sep ->
  oauth2RedirectUrl B = DString ru -> encodable ru ->
  btoa (toByteArray B) (fromByteArray B) now = Ret st -> encodable st ->
  exists ts, authorize_query B a cfg now = Ret (st, ts)
    /\ Forall2 field_text ts (drop 2 (authorize_fields a cfg fl cid ru sep st)).
Proof.
  intros [_ _ _ _ _ Hs [Hsep Hsep'] Hr Hm Hcfg] Hru Hru' Hst Hst'. unfold authorize_query.
  rewrite !config_get_object by done. rewrite Hru, Hst. destruct (query_part_spec "redirect_uri" ru eq_refl Hru') as (t1 & -> & F1).
  destruct (query_part_spec "state" st eq_refl Hst') as (t2 & E2 & F2).
  destruct (additional_parts_spec _ _ Hm) as (ts & E4 & F4).
  assert (Hscope : exists t, (match auth_scopes a with
      | [] => Ret []
      | _ => separator ← Ret (dget cfg (js "scopeSeparator"));
             sep0 ← native (dstring (d_or separator (DString [32])));
             t ← query_part "scope" (DString (join sep0 (auth_scopes a))); Ret [t]
      end : page (list jsstr)) = Ret t /\ Forall2 field_text t
        match auth_scopes a with [] => [] | _ => [(js "scope", join sep (auth_scopes a))] end).
  { destruct (auth_scopes a) as [|s l]; [by exists []|]. unfold mbind at 1, outcome_bind at 1.
    rewrite Hsep. cbn [dstring native].
    destruct (query_part_spec "scope" (join sep (s :: l)) eq_refl) as (t & E & F); [by apply encodable_join|].
    exists [t]. unfold mbind, outcome_bind. rewrite E. split; [done|]. by constructor. }
  destruct Hscope as (t3 & E3 & F3).
  assert (Hrealm : exists t, part_if (negb (is_undefined (dget cfg (js "realm"))))
      (query_part "realm" (dget cfg (js "realm"))) = Ret t /\ Forall2 field_text t
      match string_of (dget cfg (js "realm")) with Some r => [(js "realm", r)] | None => [] end).
  { destruct Hr as [->|(r & -> & Hr)]; [by exists []|].
    destruct (query_part_spec "realm" r eq_refl Hr) as (t & E & F). exists [t].
    cbn [is_undefined negb part_if]. rewrite E. split; [done|]. by constructor. }
  destruct Hrealm as (t5 & E5 & F5).
  exists (t1 :: t3 ++ t2 :: t5 ++ ts). unfold mbind, outcome_bind in *. rewrite E3, E2, E5, E4. split; [done|].
  unfold authorize_fields. cbn [drop skipn]. constructor; [done|]. apply Forall2_app; [done|].
  constructor; [done|]. by apply Forall2_app.
Qed.

Lemma response_field fl : fl ∈ [js "accessCode"; js "authorizationCode"; js "implicit"] ->
  exists t, response_part (DString fl) = [t]
    /\ field_text t (js "response_type", if jseqb fl (js "implicit") then js "token" else js "code")
    /\ is_string (js "password") (DString fl) = false
    /\ is_string (js "application") (DString fl) = false
    /\ is_string (js "clientCredentials") (DString fl) = false
    /\ is_string (js "implicit") (DString fl) = jseqb fl (js "implicit").
Proof.
  assert (Hsep : forall s : jsstr, bool_decide (38 ∈ s) = false -> 38 ∉ s)
    by (intros s; apply bool_decide_eq_false_1).
  rewrite !elem_of_cons, elem_of_nil. intros [->|[->|[->|[]]]];
    (eexists; split; [reflexivity|]); (split; [|by vm_compute]);
    (split; [by vm_compute|split; [apply Hsep; by vm_compute|done]]).
Qed.

(** The callback of a flow. *)
Definition flow_callback (cfg : jdata) (fl : jsstr) : callback :=
  if jseqb fl (js "implicit") then preAuthorizeImplicit_
  else if truthy (dget cfg (js "useBasicAuthenticationWithAccessCodeGrant"))
  then accessCodeWithBasic_ else accessCodeWithForm_.

Definition query_sep (url : jsstr) : Z := if indexOf url 63 =? -1 then 63 else 38.

(** A flow that starts: the window it opens, and the object left for the page of
    the reply. *)
Lemma authorize_opens {M} `{ImMap jdata M} B (w : world (M := M)) l a cfg fl url cid cs sep ru now st :
  auths w !! l = Some a -> ready a cfg fl url cid cs sep ->
  oauth2RedirectUrl B = DString ru -> encodable ru ->
  btoa (toByteArray B) (fromByteArray B) now = Ret st -> encodable st ->
  exists q, authorize B l cfg now w
      = (Ret tt, mkWorld (auths w) (this_state w)
                   (Some (mkOauth2 l (DString st) (DString ru) (flow_callback cfg fl)))
                   (store w) (errs w) (windows w ++ [url ++ query_sep url :: q]) (requests w))
    /\ form_fields q = Ret (authorize_fields a cfg fl cid ru sep st).
Proof.
  intros Ha Hr Hru Hru' Hst Hst'.
  destruct (authorize_query_spec B a cfg fl url cid cs sep ru now st) as (ts & E & F); [done..|].
  destruct Hr as [Hf Hfl Hu [Hc Hc'] _ _ _ _ _].
  destruct (response_field fl Hfl) as (t0 & R0 & F0 & P1 & P2 & P3 & P4).
  destruct (query_part_spec "client_id" cid eq_refl Hc') as (t1 & E1 & F1).
  exists (join [38] (t0 :: t1 :: ts)). split.
  - unfold authorize, get_auth, mbind, eff_bind. rewrite Ha, Hf, P1, P2, P3. cbn [orb].
    rewrite Hc. unfold lift, part_if at 1. rewrite E1. cbv beta iota.
    unfold mbind, outcome_bind. rewrite Hru. cbn [is_undefined]. rewrite E, Hu, P4, R0. done.
  - apply fields_read. unfold authorize_fields in *. constructor; [done|]. constructor; [done|]. exact F.
Qed.

(** ** The request for a token *)

Definition nonempty (p : jsstr * jsstr) : option (jsstr * jsstr) :=
  match p.2 with [] => None | _ => Some p end.

Lemma assoc_get_elem {A} (ps : list (jsstr * A)) p : NoDup ps.*1 -> p ∈ ps -> assoc_get ps p.1 = Some p.2.
Proof.
  induction ps as [|[k v] ps IH]; [set_solver|]. cbn [fmap list_fmap]. intros [Hk Hn]%NoDup_cons.
  rewrite elem_of_cons. intros [->|Hp]; cbn; [by rewrite jseqb_refl|].
  destruct (jseqb k p.1) eqn:E; [|by apply IH]. apply jseqb_eq in E. subst k.
  destruct Hk. apply list_elem_of_fmap. by exists p.
Qed.

(** The fields that are sent for a form of strings. *)
Lemma sent_fields (l : list (jsstr * jsstr)) :
  NoDup l.*1 ->
  omap (sent_field (DObject ((fun p => (p.1, DString p.2)) <$> l))) l.*1 = omap nonempty l.
Proof.
  intros Hn. assert (Hg : forall p, p ∈ l -> sent_field (DObject ((fun p => (p.1, DString p.2)) <$> l)) p.1 = nonempty p).
  { intros p Hp. unfold sent_field. cbn [dget]. rewrite (assoc_get_fmap (fun _ => DString)).
    rewrite (assoc_get_elem l p Hn Hp). destruct p as [k [|c v]]; done. }
  clear Hn. revert Hg. generalize (sent_field (DObject ((fun p => (p.1, DString p.2)) <$> l))) as f.
  intros f Hg. induction l as [|p l IH]; [done|].
  cbn [fmap list_fmap omap list_omap]. rewrite Hg by left. rewrite IH; [done|]. intros q Hq. apply Hg. by right.
Qed.

(** The body that is built for a form of strings. *)
Lemma form_body l : NoDup l.*1 -> order_keys l.*1 = l.*1 ->
  Forall (fun p => forallb unreserved p.1 = true /\ encodable p.2) l ->
  exists body, buildFormData (DObject ((fun p => (p.1, DString p.2)) <$> l)) = Ret body
    /\ form_fields body = Ret (omap nonempty l).
Proof.
  intros Hn Ho Hl. destruct (buildFormData_fields ((fun p => (p.1, DString p.2)) <$> l)) as (body & E & F).
  { unfold form_map. apply Forall_fmap. eapply Forall_impl; [exact Hl|]. intros p [Hp He]. simpl. split.
    - by apply unreserved_forall.
    - right. by exists p.2. }
  exists body. split; [done|]. rewrite F, (fmap_keys (fun _ => DString)), Ho. f_equal. by apply sent_fields.
Qed.

Definition code_fields (cid cs ru c : jsstr) : list (jsstr * jsstr) :=
  [(js "grant_type", js "authorization_code"); (js "code", c); (js "client_id", cid);
   (js "client_secret", cs); (js "redirect_uri", ru)].

Lemma authorizeRequest_sends {M} B l a body query headers (w : world (M := M)) :
  exists rq, authorizeRequest B l a body query headers w
      = (Ret tt, mkWorld (auths w) (this_state w) (opener w) (store w) (errs w) (windows w)
                   (requests w ++ [rq]))
    /\ rq_body rq = body /\ rq_headers rq = foldl (fun h p => assoc_set h p.1 p.2) default_headers headers
    /\ rq_auth rq = l /\ rq_name rq = auth_name a.
Proof.
  unfold authorizeRequest, mbind, eff_bind, get_world. cbv beta iota zeta. unfold send, modify.
  eexists. split; [reflexivity|]. by split_and!.
Qed.

(** The request made with the code [c] by the callback that sends a form. *)
Lemma form_request {M} B (w : world (M := M)) l a cid cs ru c :
  auths w !! l = Some a -> auth_clientId a = DString cid /\ encodable cid ->
  auth_clientSecret a = DString cs /\ encodable cs -> auth_code a = DString c -> encodable c -> encodable ru ->
  exists rq, authorizeAccessCodeWithFormParams B l (DString ru) w
      = (Ret tt, mkWorld (auths w) (this_state w) (opener w) (store w) (errs w) (windows w)
                   (requests w ++ [rq]))
    /\ form_fields (rq_body rq) = Ret (omap nonempty (code_fields cid cs ru c))
    /\ rq_auth rq = l /\ rq_name rq = auth_name a.
Proof.
  intros Ha [Hc Hc'] [Hs Hs'] Hk Hk' Hru.
  destruct (form_body (code_fields cid cs ru c)) as (body & E & F).
  - change ((code_fields cid cs ru c).*1) with
      [js "grant_type"; js "code"; js "client_id"; js "client_secret"; js "redirect_uri"].
    by apply (bool_decide_unpack _); vm_compute.
  - by vm_compute.
  - repeat (apply Forall_cons_2; [split; [reflexivity|]|]); try done; by apply encodable_check.
  - unfold authorizeAccessCodeWithFormParams, get_auth, mbind, eff_bind, lift. rewrite Ha.
    unfold code_form. rewrite Hc, Hs, Hk.
    change [(js "grant_type", DString (js "authorization_code")); (js "code", DString c);
      (js "client_id", DString cid); (js "client_secret", DString cs); (js "redirect_uri", DString ru)]
      with ((fun p => (p.1, DString p.2)) <$> code_fields cid cs ru c).
    rewrite E. cbn [native]. destruct (authorizeRequest_sends B l a body [] [] w) as (rq & -> & <- & _ & ? & ?).
    by exists rq.
Qed.

(** The same with the callback that sends the client in a header. *)
Lemma basic_request {M} B (w : world (M := M)) l a cid cs ru c :
  auths w !! l = Some a -> auth_clientId a = DString cid /\ encodable cid ->
  auth_clientSecret a = DString cs /\ encodable cs -> auth_code a = DString c -> encodable c -> encodable ru ->
  3 * strlen (cid ++ 58 :: cs) <= kMaxLength ->
  exists rq, authorizeAccessCodeWithBasicAuthentication B l (DString ru) w
      = (Ret tt, mkWorld (auths w) (this_state w) (opener w) (store w) (errs w) (windows w)
                   (requests w ++ [rq]))
    /\ form_fields (rq_body rq) = Ret (omap nonempty (code_fields cid [] ru c))
    /\ assoc_get (rq_headers rq) (js "Authorization")
       = Some (js "Basic " ++ base64_of (fromByteArray B) (cid ++ 58 :: cs))
    /\ rq_auth rq = l /\ rq_name rq = auth_name a.
Proof.
  intros Ha [Hc Hc'] [Hs Hs'] Hk Hk' Hru Hlen.
  set (l4 := [(js "grant_type", js "authorization_code"); (js "code", c); (js "client_id", cid);
              (js "redirect_uri", ru)]).
  destruct (form_body l4) as (body & E & F).
  - change (l4.*1) with [js "grant_type"; js "code"; js "client_id"; js "redirect_uri"].
    by apply (bool_decide_unpack _); vm_compute.
  - by vm_compute.
  - repeat (apply Forall_cons_2; [split; [reflexivity|]|]); try done; by apply encodable_check.
  - assert (Hb : btoa (toByteArray B) (fromByteArray B) (cid ++ 58 :: cs)
                 = Ret (base64_of (fromByteArray B) (cid ++ 58 :: cs))).
    { assert (He : encodable (cid ++ 58 :: cs)).
      { change (58 :: cs) with ([58] ++ cs). repeat apply encodable_app; try done. by apply encodable_check. }
      apply btoa_spec; [apply He|apply well_formed_ends, He|done]. }
    unfold authorizeAccessCodeWithBasicAuthentication, authorization, basic_header, get_auth, mbind, mret, eff_bind, eff_ret, lift.
    rewrite Ha, Hc, Hs, Hk. cbn [dstring native]. unfold outcome_bind. rewrite Hb.
    change [(js "grant_type", DString (js "authorization_code")); (js "code", DString c);
      (js "client_id", DString cid); (js "redirect_uri", DString ru)]
      with ((fun p => (p.1, DString p.2)) <$> l4).
    rewrite E. cbn [native]. set (h := [(js "Authorization", _)]).
    destruct (authorizeRequest_sends B l a body [] h w) as (rq & -> & <- & Hh & ? & ?).
    exists rq. split_and!; [done|done| |done|done]. by rewrite Hh.
Qed.

(** ** The flow with a code *)

Definition uses_basic (cfg : jdata) : bool :=
  truthy (dget cfg (js "useBasicAuthenticationWithAccessCodeGrant")).

(** The request a server gets for the code [c]: the fields of its body, and the
    header when the client is sent in one. *)
Definition asks_for_token (B : browser) (cfg : jdata) (cid cs ru c : jsstr) (rq : token_request) : Prop :=
  form_fields (rq_body rq) = Ret (omap nonempty (code_fields cid (if uses_basic cfg then [] else cs) ru c))
  /\ (uses_basic cfg = true -> assoc_get (rq_headers rq) (js "Authorization")
      = Some (js "Basic " ++ base64_of (fromByteArray B) (cid ++ 58 :: cs))).

Lemma callback_request {M} `{ImMap jdata M} B (w : world (M := M)) l a cfg fl cid cs ru c st token isValid :
  auths w !! l = Some a -> auth_clientId a = DString cid /\ encodable cid ->
  auth_clientSecret a = DString cs /\ encodable cs -> auth_code a = DString c -> encodable c -> encodable ru ->
  3 * strlen (cid ++ 58 :: cs) <= kMaxLength -> fl <> js "implicit" ->
  exists rq, call_back B (mkOauth2 l st (DString ru) (flow_callback cfg fl)) token isValid w
      = (Ret tt, mkWorld (auths w) (this_state w) (opener w) (store w) (errs w) (windows w)
                   (requests w ++ [rq]))
    /\ asks_for_token B cfg cid cs ru c rq.
Proof.
  intros Ha Hc Hs Hk Hk' Hru Hlen Hfl. unfold call_back, flow_callback, asks_for_token, uses_basic.
  cbn [o_callback o_auth o_redirectUrl]. unfold jseqb. rewrite bool_decide_eq_false_2 by done.
  destruct (truthy _) eqn:Eb.
  - destruct (basic_request B w l a cid cs ru c) as (rq & -> & Hb & Hh & _); [done..|]. by exists rq.
  - destruct (form_request B w l a cid cs ru c) as (rq & -> & Hb & _); [done..|]. by exists rq.
Qed.

(** The address a server sends the user back to, for a code and a state. *)
Definition reply_address (c st : jsstr) : outcome native_error jsstr :=
  tc ← encodeURIComponent c;
  ts ← encodeURIComponent st;
  Ret (63 :: join [38] [js "code" ++ 61 :: tc; js "state" ++ 61 :: ts]).

Lemma reply_address_read c st : encodable c -> encodable st -> exists search qs,
  reply_address c st = Ret search /\ reply_params [] search = Ret (DObject qs)
  /\ dget (DObject qs) (js "code") = DString c /\ dget (DObject qs) (js "state") = DString st.
Proof.
  intros Hc Hst. destruct (encodable_text c Hc) as (tc & Ec & Dc), (encodable_text st Hst) as (ts & Es & Ds).
  destruct (reply_params_spec [(js "code", c); (js "state", st)] [tc; ts]) as (qs & E & Hg).
  - by repeat (apply Forall2_cons; split; [by split_and!|]).
  - change ([(js "code", c); (js "state", st)].*1) with [js "code"; js "state"].
    by apply (bool_decide_unpack _); vm_compute.
  - done.
  - eexists _, qs. unfold reply_address. rewrite Ec. simpl mbind. rewrite Es. simpl mbind.
    split_and!; [reflexivity|exact E|..]; cbn [dget]; by rewrite Hg.
Qed.

(** What the page of the reply does with a code, for an object that has none. *)
Lemma run_code {M} `{ImMap jdata M} B (w : world (M := M)) l a cfg fl url cid cs sep ru c st st' search qs :
  opener w = Some (mkOauth2 l (DString st) (DString ru) (flow_callback cfg fl)) ->
  auths w !! l = Some a -> ready a cfg fl url cid cs sep -> fl <> js "implicit" ->
  truthy (auth_code a) = false -> encodable ru -> 3 * strlen (cid ++ 58 :: cs) <= kMaxLength ->
  c <> [] -> encodable c ->
  reply_params [] search = Ret (DObject qs) ->
  dget (DObject qs) (js "code") = DString c -> dget (DObject qs) (js "state") = DString st' ->
  exists rq, asks_for_token B cfg cid cs ru c rq
    /\ run B [] search w
      = (Ret tt, mkWorld (alter (set_code (DString c)) l (auths w)) (this_state w)
                   (Some (mkOauth2 l DUndefined (DString ru) (flow_callback cfg fl))) (store w)
                   (errs w ++ if jseqb st' st then []
                              else [newAuthErr (auth_name a) (js "auth") (js "warning") unsafe_message])
                   (windows w) (requests w ++ [rq])).
Proof.
  intros Ho Ha [Hf Hfl _ Hcl Hcs _ _ _ _] Hni Hcode Hru Hlen Hne Hc Hq Hqc Hqs.
  set (errs' := if jseqb st' st then [] else [newAuthErr (auth_name a) (js "auth") (js "warning") unsafe_message]).
  set (w' := mkWorld (alter (set_code (DString c)) l (auths w)) (this_state w)
               (Some (mkOauth2 l DUndefined (DString ru) (flow_callback cfg fl))) (store w)
               (errs w ++ errs') (windows w) (requests w)).
  assert (Ha' : auths w' !! l = Some (set_code (DString c) a)) 
    by (subst w'; cbn [auths]; rewrite list_lookup_alter_eq; by rewrite Ha).
  destruct (callback_request B w' l (set_code (DString c) a) cfg fl cid cs ru c (DString st) DUndefined false)
    as (rq & Hcb & Hrq); [done..|]. exists rq. split; [done|].
  assert (Hflow : is_string (js "accessCode") (DString fl) || is_string (js "authorizationCode") (DString fl) = true).
  { apply elem_of_cons in Hfl as [->|Hfl]; [done|]. apply elem_of_cons in Hfl as [->|Hfl]; [done|].
    apply elem_of_cons in Hfl as [->|Hfl]; [done|by apply not_elem_of_nil in Hfl]. }
  unfold run, mbind, mret, eff_bind, eff_ret, lift, get_world, get_auth, modify.
  rewrite Ho, Hq. cbn [native o_auth o_state]. rewrite Ha, Hf, Hflow, Hcode. cbn [andb negb].
  rewrite Hqs, Hqc. assert (truthy (DString c) = true) as -> by (by destruct c). cbn [strict_eq].
  unfold update_auth, modify. subst w' errs'. destruct (jseqb st' st); [rewrite app_nil_r in Hcb |- *|]; exact Hcb.
Qed.

(** The state that is sent is the base64 text of the time. *)
Lemma state_sent B now : (forall bs, forallb base64_unit (fromByteArray B bs) = true) ->
  encodable now -> 3 * strlen now <= kMaxLength ->
  btoa (toByteArray B) (fromByteArray B) now = Ret (base64_of (fromByteArray B) now)
  /\ encodable (base64_of (fromByteArray B) now).
Proof.
  intros Hb [Hn Hw] Hl. split; [apply btoa_spec; [done|by apply well_formed_ends|done]|].
  unfold base64_of. destruct (encoded_all _); [by apply encodable_check|apply base64_encodable, Hb].
Qed.

(** The world after the user has clicked. *)
Lemma click_opens {M} `{ImMap jdata M} B (w : world (M := M)) a fl url cid cs sep ru now st :
  auths w !! this_state w = Some a -> ready a (auth_configs (store w)) fl url cid cs sep ->
  oauth2RedirectUrl B = DString ru -> encodable ru ->
  btoa (toByteArray B) (fromByteArray B) now = Ret st -> encodable st ->
  exists q, form_fields q = Ret (authorize_fields a (auth_configs (store w)) fl cid ru sep st)
    /\ turn B w (ClickAuthorize now)
      = mkWorld (auths w) (this_state w)
          (Some (mkOauth2 (this_state w) (DString st) (DString ru)
                   (flow_callback (auth_configs (store w)) fl)))
          (store w) (errs w ++ [clearErr (window_name B) (js "auth") (js "auth")])
          (windows w ++ [url ++ query_sep url :: q]) (requests w).
Proof.
  intros Ha Hr Hru Hru' Hst Hst'. unfold turn, handle, component_authorize, mbind, eff_bind, get_world.
  unfold add_err, modify. cbv beta iota.
  set (w' := mkWorld _ _ _ _ _ _ _).
  destruct (authorize_opens B w' (this_state w) a (auth_configs (store w)) fl url cid cs sep ru now st)
    as (q & E & F); [done..|]. exists q. split; [done|]. by rewrite E.
Qed.

(** C5: the flow with a code, from the click to the request for a token.  The window
    that is opened has the address of the definition with a query that the
    server reads as the type of the response, the client, the address to come back
    to, the scopes, the state and the configured parameters.  When the user comes
    back with the code [c], the request that is sent has the fields of the grant
    with this code, the client and the address, and with the option for it the
    client is sent in a header instead of the secret.  A state that is not the
    one that was sent adds a warning and changes nothing else. *)
Theorem access_code_flow {M} `{ImMap jdata M} B (w : world (M := M)) a fl url cid cs sep ru now c st' search :
  (forall bs, forallb base64_unit (fromByteArray B bs) = true) ->
  auths w !! this_state w = Some a -> ready a (auth_configs (store w)) fl url cid cs sep ->
  fl <> js "implicit" -> truthy (auth_code a) = false ->
  oauth2RedirectUrl B = DString ru -> encodable ru ->
  encodable now -> 3 * strlen now <= kMaxLength -> 3 * strlen (cid ++ 58 :: cs) <= kMaxLength ->
  c <> [] -> encodable c -> encodable st' -> reply_address c st' = Ret search ->
  let cfg := auth_configs (store w) in
  let st := base64_of (fromByteArray B) now in
  let w1 := turn B w (ClickAuthorize now) in
  let w2 := turn B w1 (Redirected [] search) in
  (exists q, windows w1 = windows w ++ [url ++ query_sep url :: q]
    /\ form_fields q = Ret (authorize_fields a cfg fl cid ru sep st))
  /\ (exists rq, requests w2 = requests w ++ [rq] /\ asks_for_token B cfg cid cs ru c rq)
  /\ errs w2 = errs w ++ clearErr (window_name B) (js "auth") (js "auth")
                  :: (if jseqb st' st then []
                      else [newAuthErr (auth_name a) (js "auth") (js "warning") unsafe_message])
  /\ auths w2 !! this_state w2 = Some (set_code (DString c) a).
Proof.
  intros Hb Ha Hr Hfl Hcode Hru Hru' Hnow Hnl Hcl Hne Hc Hst' Hs cfg st w1 w2.
  destruct (state_sent B now Hb Hnow Hnl) as [Hst Hste].
  destruct (click_opens B w a fl url cid cs sep ru now st) as (q & Hq & E1); [done..|].
  destruct (reply_address_read c st' Hc Hst') as (search' & qs & Hs' & Hp & Hpc & Hps).
  rewrite Hs in Hs'. injection Hs' as <-.
  destruct (run_code B w1 (this_state w) a cfg fl url cid cs sep ru c st st' search qs) as (rq & Hrq & E2);
    [first [done|subst w1; by rewrite E1]..|].
  assert (E2' : w2 = (run B [] search w1).2) by done. rewrite E2 in E2'. subst w1. rewrite E1 in E2' |- *.
  rewrite E2'. cbn. split_and!; [by exists q|by exists rq|by rewrite <- app_assoc|].
  by rewrite list_lookup_alter_eq, Ha.
Qed.

(** ** A concrete page *)

(** A page for the examples, on which the text of bytes is one letter for each. *)
Definition example_browser : browser :=
  mkBrowser (fun _ => Ret []) (fun bs => (fun _ => 65) <$> bs) (fun _ _ => js "/token") []
    (DString (js "http://page/oauth2-redirect.html")) (fun _ => js "SyntaxError").

Definition example_auth (code : jdata) : auth :=
  mkAuth DUndefined (js "login")
    (DObject [(js "flow", DString (js "accessCode"));
              (js "authorizationUrl", DString (js "http://server/auth"));
              (js "tokenUrl", DString (js "http://server/token"))])
    [js "read"; js "write all"] (DString (js "me & you")) (DString (js "secret")) (DString [])
    (DString []) (DString (js "request-body")) code DUndefined.

Definition example_world (code : jdata) : world (M := list (jsstr * jdata)) :=
  mkWorld [example_auth code] 0 None (mkAuthState DUndefined None DUndefined) [] [] [].

Lemma example_ready code : ready (example_auth code) DUndefined (js "accessCode")
  (js "http://server/auth") (js "me & you") (js "secret") [32].
Proof.
  split; first [reflexivity|by left|apply Forall_nil_2|split; [reflexivity|by apply encodable_check]|discriminate|idtac].
  repeat apply Forall_cons_2; try apply Forall_nil_2; by apply encodable_check.
Qed.

Lemma example_base64 bs : forallb base64_unit (fromByteArray example_browser bs) = true.
Proof. induction bs as [|b bs IH]; [done|exact IH]. Qed.

Definition example_search (c st : jsstr) : jsstr :=
  match reply_address c st with Ret search => search | _ => [] end.

Lemma access_code_flow_witness :
  exists rq, requests (turns example_browser (example_world DUndefined)
                [ClickAuthorize (js "Mon"); Redirected [] (example_search (js "a+b") (js "AAA"))]) = [rq]
    /\ form_fields (rq_body rq) = Ret [(js "grant_type", js "authorization_code"); (js "code", js "a+b");
         (js "client_id", js "me & you"); (js "client_secret", js "secret");
         (js "redirect_uri", js "http://page/oauth2-redirect.html")].
Proof.
  destruct (access_code_flow example_browser (example_world DUndefined) (example_auth DUndefined)
    (js "accessCode") (js "http://server/auth") (js "me & you") (js "secret") [32]
    (js "http://page/oauth2-redirect.html") (js "Mon") (js "a+b") (js "AAA")
    (example_search (js "a+b") (js "AAA"))
    example_base64 eq_refl (example_ready _)) as (_ & (rq & Hr & Hb & _) & _);
    try (apply encodable_check; reflexivity); try reflexivity; try discriminate.
  exists rq. split; [exact Hr|]. rewrite Hb. reflexivity.
Defined.

(** C31: a code that has been received once stays in the object of the form.  When the
    flow is started again from the same form, for instance after the request
    for a token has failed or the user has logged out, the page of the reply does
    not use the code it gets: the request asks for a token with the first code,
    and a state that is not the one that was sent goes without a warning. *)
Theorem first_code_sticks {M} `{ImMap jdata M} B (w : world (M := M)) a fl url cid cs sep ru now c c' st' search :
  (forall bs, forallb base64_unit (fromByteArray B bs) = true) ->
  auths w !! this_state w = Some a -> ready a (auth_configs (store w)) fl url cid cs sep ->
  fl <> js "implicit" -> auth_code a = DString c -> c <> [] -> encodable c ->
  oauth2RedirectUrl B = DString ru -> encodable ru ->
  encodable now -> 3 * strlen now <= kMaxLength -> 3 * strlen (cid ++ 58 :: cs) <= kMaxLength ->
  encodable c' -> encodable st' -> reply_address c' st' = Ret search ->
  let w2 := turns B w [ClickAuthorize now; Redirected [] search] in
  (exists rq, requests w2 = requests w ++ [rq]
    /\ asks_for_token B (auth_configs (store w)) cid cs ru c rq)
  /\ errs w2 = errs w ++ [clearErr (window_name B) (js "auth") (js "auth")]
  /\ auths w2 = auths w.
Proof.
  intros Hb Ha Hr Hfl Hcode Hne Hc Hru Hru' Hnow Hnl Hcl Hc' Hst' Hs.
  destruct (state_sent B now Hb Hnow Hnl) as [Hst Hste].
  destruct (click_opens B w a fl url cid cs sep ru now _ Ha Hr Hru Hru' Hst Hste) as (q & Hq & E1).
  destruct (reply_address_read c' st' Hc' Hst') as (search' & qs & Hs' & Hp & _).
  rewrite Hs in Hs'. injection Hs' as <-.
  unfold turns. cbn [foldl]. rewrite E1. clear E1 Hq. set (w1 := mkWorld _ _ _ _ _ _ _). cbv zeta.
  destruct Hr as [Hf _ _ Hcid Hcs _ _ _ _].
  set (isValid := strict_eq (dget (DObject qs) (js "state")) (DString (base64_of (fromByteArray B) now))).
  destruct (callback_request B w1 (this_state w) a (auth_configs (store w)) fl cid cs ru c
    (DString (base64_of (fromByteArray B) now)) (DObject qs) isValid) as (rq & Hcb & Hrq); [done..|].
  assert (Hrun : run B [] search w1
    = call_back B (mkOauth2 (this_state w) (DString (base64_of (fromByteArray B) now)) (DString ru)
                     (flow_callback (auth_configs (store w)) fl)) (DObject qs) isValid w1).
  { unfold run, mbind, mret, eff_bind, lift, get_world, get_auth. subst w1. cbn [opener auths].
    rewrite Hp. cbn [native o_auth o_state]. rewrite Ha, Hcode.
    assert (truthy (DString c) = true) as -> by (by destruct c). by rewrite andb_false_r. }
  unfold turn, handle. rewrite Hrun, Hcb. cbn. by split_and!; [exists rq|..].
Qed.

Lemma first_code_sticks_witness :
  exists rq, requests (turns example_browser (example_world (DString (js "first")))
                [ClickAuthorize (js "Mon"); Redirected [] (example_search (js "second") (js "AAA"))]) = [rq]
    /\ form_fields (rq_body rq) = Ret [(js "grant_type", js "authorization_code"); (js "code", js "first");
         (js "client_id", js "me & you"); (js "client_secret", js "secret");
         (js "redirect_uri", js "http://page/oauth2-redirect.html")].
Proof.
  destruct (first_code_sticks example_browser (example_world (DString (js "first"))) (example_auth (DString (js "first")))
    (js "accessCode") (js "http://server/auth") (js "me & you") (js "secret") [32]
    (js "http://page/oauth2-redirect.html") (js "Mon") (js "first") (js "second") (js "AAA")
    (example_search (js "second") (js "AAA"))
    example_base64 eq_refl (example_ready _)) as ((rq & Hr & Hb & _) & _);
    try (apply encodable_check; reflexivity); try reflexivity; try discriminate.
  exists rq. split; [exact Hr|]. rewrite Hb. reflexivity.
Defined.
