(* ===== verification/SwaggerOAuthSafety.v ===== *)
(** * Swagger UI: what makes a definition authorized

    An invariant of the event loop of the OAuth2 component: an entry of the state
    [authorized] is there only after an input that brought a token. *)

From S2P Require Import JsPrelude JsNumber JsValue JsUnicode JsImmutable.
From S2P Require Import NodeBuffer SwaggerData SwaggerSearch JsJson SwaggerAuth SwaggerOAuth.

Section invariant.
Context (B : browser) {M : Type} `{ImMapLaws jdata M}.
Abbreviation world := (SwaggerOAuth.world (M := M)).
Abbreviation eff := (SwaggerOAuth.eff (M := M)).

(** The name of the definition and its flow. *)
Context (name : jsstr) (flow : jdata).

Definition entries (w : world) : M := default im_empty (authorized (store w)).

(** [P] says whether a token has been accepted. *)
Record invariant (P : Prop) (w : world) : Prop := {
  inv_auths : Forall (fun a => auth_name a = name /\ schema_get a "flow" = flow) (auths w);
  inv_opener : forall o, opener w = Some o -> o_callback o = preAuthorizeImplicit_ ->
               is_string (js "implicit") flow = true;
  inv_entries : forall n e, im_get (entries w) n = Some e -> n = name /\ P
}.

(** Run in a state with the invariant, [m] keeps it, also when it throws, and what
    it returns satisfies [Q]. *)
Definition keeps {A} (P : Prop) (m : eff A) (Q : A -> Prop) : Prop :=
  forall w, invariant P w -> invariant P (m w).2 /\ forall a, (m w).1 = Ret a -> Q a.

Lemma keeps_bind {A C} P (m : eff A) (k : A -> eff C) Q R :
  keeps P m Q -> (forall a, Q a -> keeps P (k a) R) -> keeps P (eff_bind A C k m) R.
Proof.
  intros Hm Hk w Hw. destruct (Hm w Hw) as [Hi Hq]. unfold eff_bind.
  destruct (m w) as [[a|e|] w']; simpl in *; [|done..]. by apply Hk; [apply Hq|].
Qed.

Lemma keeps_ret {A} P (a : A) (Q : A -> Prop) : Q a -> keeps P (eff_ret A a) Q.
Proof. intros Ha w Hw. split; [done|]. by intros ? [= <-]. Qed.

Lemma keeps_lift {A} P (m : page A) (Q : A -> Prop) : (forall a, m = Ret a -> Q a) -> keeps P (lift m) Q.
Proof. intros Hm w Hw. done. Qed.

Lemma keeps_get_world P : keeps P get_world (invariant P).
Proof. intros w Hw. split; [done|]. by intros ? [= <-]. Qed.

Lemma keeps_get_auth P l : keeps P (get_auth l) (fun a => auth_name a = name /\ schema_get a "flow" = flow).
Proof.
  intros w Hw. unfold get_auth. destruct (auths w !! l) as [a|] eqn:E; (split; [done|]); [|done].
  intros ? [= <-]. exact (Forall_lookup_1 _ _ _ _ (inv_auths _ _ Hw) E).
Qed.

Lemma keeps_modify P f : (forall w, invariant P w -> invariant P (f w)) ->
  keeps P (modify f) (fun _ => True).
Proof. intros Hf w Hw. split; [by apply Hf|done]. Qed.

Lemma keeps_weaken {A} P (m : eff A) (Q R : A -> Prop) : keeps P m Q -> (forall a, Q a -> R a) -> keeps P m R.
Proof. intros Hm HQ w Hw. destruct (Hm w Hw). split; [done|]. auto. Qed.

(** Changes that do not touch what the invariant is about. *)
Lemma invariant_same P w w' : auths w' = auths w -> opener w' = opener w -> store w' = store w ->
  invariant P w -> invariant P w'.
Proof.
  intros Ha Ho Hs [H1 H2 H3]. split; [by rewrite Ha|intros o; rewrite Ho; apply H2|].
  intros n e. unfold entries. rewrite Hs. apply H3.
Qed.

Lemma keeps_add_err P e : keeps P (add_err e) (fun _ => True).
Proof. apply keeps_modify. intros w. by apply invariant_same. Qed.

Lemma keeps_open P url : keeps P (open_window url) (fun _ => True).
Proof. apply keeps_modify. intros w. by apply invariant_same. Qed.

Lemma keeps_send P rq : keeps P (send rq) (fun _ => True).
Proof. apply keeps_modify. intros w. by apply invariant_same. Qed.

Lemma keeps_update_auth P l f :
  (forall a, auth_name (f a) = auth_name a /\ auth_schema (f a) = auth_schema a) ->
  keeps P (update_auth l f) (fun _ => True).
Proof.
  intros Hf. apply keeps_modify. intros w [H1 H2 H3]. split; [|done|done]. simpl.
  apply Forall_alter; [done|]. intros a _ [Hn Hs]. destruct (Hf a) as [-> Hs']. split; [done|].
  unfold schema_get in *. by rewrite Hs'.
Qed.

Lemma keeps_setState P f :
  (forall a, auth_name (f a) = auth_name a /\ auth_schema (f a) = auth_schema a) ->
  keeps P (setState f) (fun _ => True).
Proof.
  intros Hf. apply keeps_bind with (invariant P); [apply keeps_get_world|]. intros w0 _.
  eapply keeps_bind; [apply keeps_get_auth|]. intros a [Hn Hs]. apply keeps_modify.
  intros w [H1 H2 H3]. split; [|done|done]. simpl. apply Forall_app. split; [done|].
  apply Forall_singleton. destruct (Hf a) as [-> Hs']. split; [done|].
  unfold schema_get in *. by rewrite Hs'.
Qed.

(** Runs through the binds and the tests of a handler. *)
Ltac keeps_step :=
  lazymatch goal with
  | |- keeps _ (mbind _ _) _ => unfold mbind
  | |- keeps _ (eff_bind _ _ _ get_world) _ =>
      eapply keeps_bind; [apply keeps_get_world|]; intros ? ?
  | |- keeps _ (eff_bind _ _ _ (get_auth _)) _ =>
      eapply keeps_bind; [apply keeps_get_auth|]; intros ? [? ?]
  | |- keeps _ (eff_bind _ _ _ (lift _)) _ =>
      eapply keeps_bind; [apply (keeps_lift _ _ (fun _ => True)); done|]; intros ? _
  | |- keeps _ (eff_bind _ _ _ _) _ =>
      apply keeps_bind with (fun _ => True); [|intros ? _]
  | |- keeps _ (mret _) _ => unfold mret
  | |- keeps _ (eff_ret _ _) _ => apply keeps_ret; done
  | |- keeps _ (lift _) _ => apply keeps_lift; done
  | |- keeps _ (add_err _) _ => apply keeps_add_err
  | |- keeps _ (auth_err _ _ _) _ => apply keeps_add_err
  | |- keeps _ (open_window _) _ => apply keeps_open
  | |- keeps _ (send _) _ => apply keeps_send
  | |- keeps _ (if ?b then _ else _) _ => destruct b eqn:?
  | |- keeps _ (match ?x with _ => _ end) _ => destruct x eqn:?
  end.

Ltac keeps_auto := repeat (cbv zeta; keeps_step).

Lemma keeps_authorizeRequest P l a body query headers :
  keeps P (authorizeRequest B l a body query headers) (fun _ => True).
Proof. unfold authorizeRequest. keeps_auto. Qed.

Lemma keeps_authorization P u p : keeps P (authorization B u p) (fun _ => True).
Proof. unfold authorization. keeps_auto. Qed.

Ltac keeps_request := repeat (keeps_auto; first [apply keeps_authorizeRequest|apply keeps_authorization]).

Lemma keeps_authorizePassword P l : keeps P (authorizePassword B l) (fun _ => True).
Proof. unfold authorizePassword. keeps_request. Qed.

Lemma keeps_authorizeApplication P l : keeps P (authorizeApplication B l) (fun _ => True).
Proof. unfold authorizeApplication. keeps_request. Qed.

Lemma keeps_formParams P l ru : keeps P (authorizeAccessCodeWithFormParams B l ru) (fun _ => True).
Proof. unfold authorizeAccessCodeWithFormParams. keeps_request. Qed.

Lemma keeps_basicAuthentication P l ru :
  keeps P (authorizeAccessCodeWithBasicAuthentication B l ru) (fun _ => True).
Proof. unfold authorizeAccessCodeWithBasicAuthentication. keeps_request. Qed.

(** A token is only stored when it may be. *)
Lemma keeps_authorizeOauth2 (P : Prop) l token : P -> keeps P (authorizeOauth2 l token) (fun _ => True).
Proof.
  intros HP. unfold authorizeOauth2. keeps_auto; [by apply keeps_update_auth|].
  apply keeps_modify. intros w [I1 I2 I3]. split; [done|done|]. intros n e. unfold entries. simpl.
  rewrite im_get_set. destruct (jseqb (auth_name _) n) eqn:E; [|apply I3].
  apply jseqb_eq in E as <-. done.
Qed.

Lemma keeps_preAuthorizeImplicit (P : Prop) l token isValid :
  (truthy (dget token (js "error")) = false -> P) ->
  keeps P (preAuthorizeImplicit l token isValid) (fun _ => True).
Proof.
  intros HP. unfold preAuthorizeImplicit. keeps_auto.
  - apply keeps_modify. intros w [I1 I2 I3]. by split.
  - by apply keeps_authorizeOauth2, HP.
Qed.

Lemma keeps_authorize P l cfg now : keeps P (authorize B l cfg now) (fun _ => True).
Proof.
  unfold authorize. keeps_auto; [apply keeps_authorizePassword|apply keeps_authorizeApplication|].
  apply keeps_modify. intros w [I1 I2 I3]. split; [done| |done]. intros o [= <-]. cbn [o_callback].
  match goal with E : schema_get _ _ = flow |- _ => rewrite E end.
  destruct (is_string (js "implicit") flow); [done|]. by destruct (truthy _).
Qed.

Lemma keeps_call_back (P : Prop) o token isValid :
  (o_callback o = preAuthorizeImplicit_ -> truthy (dget token (js "error")) = false -> P) ->
  keeps P (call_back B o token isValid) (fun _ => True).
Proof.
  intros HP. unfold call_back. destruct (o_callback o);
    [by apply keeps_preAuthorizeImplicit, HP|apply keeps_basicAuthentication|apply keeps_formParams].
Qed.

(** The inputs that bring a token: an answer that is a success and reports no error
    and, for the implicit flow, an address to which the user is sent back. *)
Definition accepts (i : input) : Prop :=
  match i with
  | Answered _ (Response data ok _) =>
      ok = true /\ exists token, JSON_parse data = Ret token
        /\ truthy (dget token (js "error")) = false /\ truthy (dget token (js "parseError")) = false
  | Redirected hash search =>
      is_string (js "implicit") flow = true /\ exists token, reply_params hash search = Ret token
        /\ truthy (dget token (js "error")) = false
  | _ => False
  end.

Lemma code_flow_not_implicit :
  is_string (js "accessCode") flow || is_string (js "authorizationCode") flow = true ->
  is_string (js "implicit") flow = true -> False.
Proof.
  destruct flow; try done. cbn [is_string]. unfold jseqb.
  rewrite orb_true_iff, !bool_decide_eq_true. by intros [-> | ->].
Qed.

Lemma keeps_run (P : Prop) hash search : (accepts (Redirected hash search) -> P) ->
  keeps P (run B hash search) (fun _ => True).
Proof.
  intros HP. unfold run, mbind. eapply keeps_bind; [apply keeps_get_world|]. intros w0 Hw0.
  destruct (opener w0) as [o|] eqn:Eo; [|by apply keeps_lift].
  eapply keeps_bind; [apply (keeps_lift _ _ (fun qp => reply_params hash search = Ret qp))|].
  { intros qp. by destruct (reply_params hash search); intros [= <-]. }
  intros qp Hqp. keeps_step. match goal with E : schema_get _ _ = flow |- _ => rewrite E end.
  pose proof (inv_opener _ _ Hw0 o Eo) as Hi. cbv zeta. destruct (_ && _) eqn:Ef.
  - keeps_auto.
    + apply keeps_modify. intros w [I1 I2 I3]. split; [done| |done]. intros o' [= <-]. exact Hi.
    + by apply keeps_update_auth.
    + apply keeps_call_back. intros Hc%Hi. apply andb_true_iff in Ef as [Ef _]. by destruct (code_flow_not_implicit Ef).
  - apply keeps_call_back. intros Hc%Hi He. apply HP. split; [done|]. by exists qp.
Qed.

Lemma keeps_on_reply (P : Prop) i rq r : (accepts (Answered i r) -> P) ->
  keeps P (on_reply B rq r) (fun _ => True).
Proof.
  intros HP. unfold on_reply. keeps_auto. apply keeps_authorizeOauth2, HP.
  match goal with E : negb _ = false |- _ => apply negb_false_iff in E as -> end.
  match goal with E : _ || _ = false |- _ => apply orb_false_iff in E as [? ?] end.
  split; [done|]. eauto.
Qed.

Lemma foldl_delete_get n e l : forall (m : M), im_get (foldl im_delete m l) n = Some e -> im_get m n = Some e.
Proof.
  induction l as [|k l IH]; intros m; [done|]. simpl. intros Hg%IH. rewrite im_get_delete in Hg.
  by destruct (jseqb k n).
Qed.

Lemma keeps_logout P : keeps P component_logout (fun _ => True).
Proof.
  unfold component_logout. keeps_auto. apply keeps_modify. intros w [I1 I2 I3]. split; [done|done|].
  intros n e. unfold entries, makeReducer, LOGOUT. simpl. destruct (authorized (store w)) as [m|] eqn:E.
  - simpl. intros Hg%(foldl_delete_get n e [_]). apply (I3 n e). unfold entries. by rewrite E.
  - intros Hg. apply (I3 n e). exact Hg.
Qed.

Lemma invariant_mono (P Q : Prop) w : (P -> Q) -> invariant P w -> invariant Q w.
Proof. intros HPQ [I1 I2 I3]. split; [done|done|]. intros n e Hg. destruct (I3 n e Hg). auto. Qed.

Lemma turn_invariant P w i : invariant P w -> invariant (P \/ accepts i) (turn B w i).
Proof.
  intros Hw%(invariant_mono P (P \/ accepts i)); [|tauto].
  enough (Hk : keeps (P \/ accepts i) (handle B i) (fun _ => True)) by by apply Hk.
  unfold handle. destruct i.
  - by apply keeps_setState.
  - unfold onScopeChange. keeps_auto; by apply keeps_setState.
  - unfold component_authorize. keeps_auto. apply keeps_authorize.
  - apply keeps_run. tauto.
  - unfold answer. keeps_auto.
    + apply keeps_modify. intros w'. by apply invariant_same.
    + eapply keeps_on_reply. eauto.
  - apply keeps_logout.
Qed.

Lemma turns_invariant l : forall P w, invariant P w -> invariant (P \/ Exists accepts l) (turns B w l).
Proof.
  induction l as [|i l IH]; intros P w Hw.
  - eapply invariant_mono; [|exact Hw]. tauto.
  - eapply invariant_mono; [|apply IH, (turn_invariant P w i Hw)]. rewrite Exists_cons. tauto.
Qed.
End invariant.

(** C6: whatever the user, the servers and the network do, the state [authorized]
    has an entry only for the name of the definition, and only after an
    input that brought a token: an answer to a request for a token that is a
    success and reports no error or, when the flow is the implicit one, an address
    the user was sent back to that reports no error. *)
Theorem authorized_by_token B {M} `{ImMapLaws jdata M} name schema cfg authConfigs l n e :
  let w := mkWorld [initial_auth name schema None authConfigs] 0 None
             (mkAuthState DUndefined None cfg) [] [] [] : world (M := M) in
  im_get (default im_empty (authorized (store (turns B w l)))) n = Some e ->
  n = name /\ Exists (accepts (dget schema (js "flow"))) l.
Proof.
  intros w Hg. destruct (turns_invariant B name (dget schema (js "flow")) l False w) as [_ _ Hi].
  - split; [by apply Forall_singleton|done|]. intros ? ?. unfold entries. simpl. by rewrite im_get_empty.
  - destruct (Hi n e Hg) as [-> [[]|He]]. done.
Qed.

Lemma authorized_by_token_witness :
  let schema := DObject [(js "flow", DString (js "implicit")); (js "authorizationUrl", DString (js "/auth"))] in
  let l := [ClickAuthorize (js "Mon"); Redirected (js "#access_token=T") []] in
  Exists (accepts (dget schema (js "flow"))) l.
Proof.
  intros schema l.
  pose (B := mkBrowser (fun _ => Ret []) (fun bs => (fun _ => 65) <$> bs) (fun _ _ => []) []
               (DString (js "/back")) (fun _ => [])).
  assert (Hg : exists e, im_get (M := list (jsstr * jdata)) (default im_empty (authorized (store (turns B
      (mkWorld [initial_auth (js "login") schema None DUndefined] 0 None
         (mkAuthState DUndefined None DUndefined) [] [] []) l)))) (js "login") = Some e).
  { vm_compute. eexists. reflexivity. }
  destruct Hg as [e Hg].
  exact (proj2 (authorized_by_token B (js "login") schema DUndefined DUndefined l (js "login") e Hg)).
Defined.
