(* ===== verification/SwaggerErrors.v ===== *)
(** * Swagger UI: the error plugin

    The reducers that collect errors, the transformers that rewrite their messages
    and the reducers that clear them.  A list of the package Immutable.js is a
    list, and a map is the plain tree it stands for; the order of [sortBy] is a
    parameter. *)

From S2P Require Import JsPrelude JsNumber JsValue JsUnicode SwaggerData SwaggerSearch JsJson SwaggerAuth SwaggerOAuth.

(** ** Messages *)

(** [s.indexOf(sub)]. *)
Fixpoint index_sub (i : Z) (sub s : jsstr) : Z :=
  match strip_prefix sub s with
  | Some _ => i
  | None => match s with [] => -1 | _ :: s' => index_sub (i + 1) sub s' end
  end.

(** [arr[i + 1]] as a condition. *)
Definition next_type (rest : list jsstr) : bool :=
  match rest with (_ :: _) :: _ => true | _ => false end.

(** The steps of [reduce]; [n] is the length of the whole array. *)
Fixpoint new_message (n : nat) (p : jsstr) (types : list jsstr) : jsstr :=
  match types with
  | [] => p
  | c :: rest =>
      let p' :=
        if match rest with [] => true | _ => false end && (1 <? n)%nat then p ++ js "or " ++ c
        else if next_type rest && (2 <? n)%nat then p ++ c ++ js ", "
        else if next_type rest then p ++ c ++ [32]
        else p ++ c in
      new_message n p' rest
  end.

Definition makeNewMessage (types : list jsstr) : jsstr :=
  new_message (length types) (js "should be a") types.

Definition seekStr : jsstr := js "is not of a type(s)".

(** [err.set(k, v)] on the tree of a map. *)
Definition map_set (err : jdata) (k : string) (v : jdata) : jdata :=
  match err with DObject ps => DObject (assoc_set ps (js k) v) | d => d end.

Definition no_message : native_error := TypeError (js "Cannot read property of undefined").

(** A message is a string or missing. *)
Definition not_of_type (err : jdata) : outcome native_error jdata :=
  match dget err (js "message") with
  | DString m =>
      let i := index_sub 0 seekStr m in
      if -1 <? i then
        let types := split_char 44 (drop (Z.to_nat i + length seekStr) m) in
        Ret (map_set err "message" (DString (take (Z.to_nat i) m ++ makeNewMessage types)))
      else Ret err
  | _ => Throw no_message
  end.

Definition line_end (c : Z) : bool := (c =? 10) || (c =? 13) || (c =? 8232) || (c =? 8233).

(** [str.replace(new RegExp("instance.", "g"), "")]: the dot of the pattern is any
    character but the end of a line. *)
Fixpoint remove_instance (fuel : nat) (s : jsstr) : jsstr :=
  match fuel, s with
  | S f, c :: s' =>
      match strip_prefix (js "instance") s with
      | Some (d :: rest) => if line_end d then c :: remove_instance f s' else remove_instance f rest
      | _ => c :: remove_instance f s'
      end
  | _, _ => s
  end.

Definition removeSubstring (str : jsstr) : jsstr := remove_instance (length str) str.

Definition strip_instance (err : jdata) : outcome native_error jdata :=
  match dget err (js "message") with
  | DString m => Ret (map_set err "message" (DString (removeSubstring m)))
  | _ => Throw no_message
  end.

(** The transformer for parameters returns the errors at once. *)
Definition parameter_one_of (err : jdata) : outcome native_error jdata := Ret err.

(** A transformer that throws leaves all the errors as they are. *)
Definition apply_transformer (errors : list jdata) (transform : jdata -> outcome native_error jdata)
    : list jdata :=
  match mapM transform errors with Ret errors' => errors' | _ => errors end.

Definition transformErrors (errors : list jdata) : list jdata :=
  foldl apply_transformer errors [not_of_type; parameter_one_of; strip_instance].

(** ** The reducers *)

(** The properties [Object.assign] copies from a value. *)
Definition assign_props (d : jdata) : list (jsstr * jdata) :=
  match d with
  | DObject ps => in_order ps (order_keys ps.*1)
  | _ => assign_from d
  end.

(** [Object.assign(o, d)]. *)
Definition assign_onto (o : list (jsstr * jdata)) (d : jdata) : list (jsstr * jdata) :=
  foldl (fun o p => dset o p.1 p.2) o (assign_props d).

(** The object [DEFAULT_ERROR_STRUCTURE] is made once and then assigned to. *)
Record err_state : Type := mkErrState {
  errors : option (list jdata);
  default_error : list (jsstr * jdata)
}.

Definition DEFAULT_ERROR_STRUCTURE : list (jsstr * jdata) :=
  [(js "line", DNumber (num_of_Z 0)); (js "level", DString (js "error"));
   (js "message", DString (js "Unknown error"))].

Definition initial_errors : err_state := mkErrState None DEFAULT_ERROR_STRUCTURE.

Definition type_object (type : string) : jdata := DObject [(js "type", DString (js type))].

(** Each error of a batch is a snapshot of the shared object after it was assigned. *)
Fixpoint assign_batch (o : list (jsstr * jdata)) (type : string) (payload : list jdata)
    : list jdata * list (jsstr * jdata) :=
  match payload with
  | [] => ([], o)
  | err :: rest =>
      let o' := assign_onto (assign_onto o err) (type_object type) in
      let '(errs, o'') := assign_batch o' type rest in (DObject o' :: errs, o'')
  end.

Definition NEW_THROWN_ERR (payload : jdata) (state : err_state) : err_state :=
  let error := assign_onto (assign_onto (default_error state) payload) (type_object "thrown") in
  mkErrState (Some (transformErrors (default [] (errors state) ++ [DObject error]))) error.

Definition NEW_THROWN_ERR_BATCH (payload : list jdata) (state : err_state) : err_state :=
  let '(errs, o) := assign_batch (default_error state) "thrown" payload in
  mkErrState (Some (transformErrors (default [] (errors state) ++ errs))) o.

Definition NEW_SPEC_ERR_BATCH (payload : list jdata) (state : err_state) : err_state :=
  let '(errs, o) := assign_batch (default_error state) "spec" payload in
  mkErrState (Some (transformErrors (default [] (errors state) ++ errs))) o.

(** [sorted] is [sortBy] with the field [line]. *)
Definition NEW_SPEC_ERR (sorted : list jdata -> list jdata) (payload : jdata) (state : err_state)
    : err_state :=
  let error := map_set payload "type" (DString (js "spec")) in
  mkErrState (Some (transformErrors (sorted (default [] (errors state) ++ [error])))) (default_error state).

Definition NEW_AUTH_ERR (payload : jdata) (state : err_state) : err_state :=
  let error := map_set (DObject (assign_onto [] payload)) "type" (DString (js "auth")) in
  mkErrState (Some (transformErrors (default [] (errors state) ++ [error]))) (default_error state).

(** The test of one error against the filter of [clear]. *)
Definition kept (filter err : jdata) : bool :=
  forallb (fun k => let filterValue := dget filter k in
                    negb (truthy filterValue) || negb (strict_eq (dget err k) filterValue)) (dkeys err).

Definition CLEAR (payload : jdata) (state : err_state) : err_state :=
  match errors state with
  | Some errs =>
      if truthy payload then mkErrState (Some (List.filter (kept payload) errs)) (default_error state)
      else state
  | None => state
  end.

(** Without errors the handler throws and the state stays. *)
Definition CLEAR_BY (payload : jdata -> bool) (state : err_state) : err_state :=
  match errors state with
  | Some errs => mkErrState (Some (List.filter payload errs)) (default_error state)
  | None => state
  end.

Definition allErrors (state : err_state) : list jdata := default [] (errors state).
Definition lastError (state : err_state) : option jdata := last (allErrors state).

(** ** The transformers only rewrite messages *)

(** Two errors that differ in their message at most. *)
Definition same_error (e1 e2 : jdata) : Prop :=
  e1 = e2 \/ exists ps m, e1 = DObject ps /\ e2 = DObject (assoc_set ps (js "message") (DString m)).

Lemma same_error_get e1 e2 k : same_error e1 e2 -> k <> js "message" -> dget e1 k = dget e2 k.
Proof.
  intros [->|(ps & m & -> & ->)] Hk; [done|]. cbn [dget]. rewrite assoc_get_set.
  unfold jseqb. by rewrite bool_decide_eq_false_2.
Qed.

Lemma map_set_same e m : same_error e (map_set e "message" (DString m)).
Proof. destruct e; try by left. right. eauto. Qed.

Lemma not_of_type_same e e' : not_of_type e = Ret e' -> same_error e e'.
Proof.
  unfold not_of_type. destruct (dget e (js "message")); try done.
  destruct (_ <? _); intros [= <-]; [apply map_set_same|by left].
Qed.

Lemma strip_instance_same e e' : strip_instance e = Ret e' -> same_error e e'.
Proof. unfold strip_instance. destruct (dget e (js "message")); try done. intros [= <-]. apply map_set_same. Qed.

Lemma mapM_same (f : jdata -> outcome native_error jdata) : (forall e e', f e = Ret e' -> same_error e e') -> forall es es',
  mapM f es = Ret es' -> Forall2 same_error es es'.
Proof.
  intros Hf. induction es as [|e es IH]; intros es'; cbn [mapM]; [intros [= <-]; constructor|].
  unfold mbind, outcome_bind. destruct (f e) as [e'|?|] eqn:E; [|done..].
  destruct (mapM f es) as [es''|?|]; [|done..]. intros [= <-]. constructor; [by apply Hf|by apply IH].
Qed.

Lemma apply_same (f : jdata -> outcome native_error jdata) es : (forall e e', f e = Ret e' -> same_error e e') ->
  Forall2 same_error es (apply_transformer es f).
Proof.
  intros Hf. unfold apply_transformer. destruct (mapM f es) as [es'|?|] eqn:E.
  - by eapply mapM_same.
  - apply Forall_Forall2_diag, Forall_forall. by left.
  - apply Forall_Forall2_diag, Forall_forall. by left.
Qed.

(** Errors that agree in a field that is not the message. *)
Definition agree (k : jsstr) (e1 e2 : jdata) : Prop := dget e1 k = dget e2 k.

Lemma agree_trans k es1 es2 es3 :
  Forall2 (agree k) es1 es2 -> Forall2 (agree k) es2 es3 -> Forall2 (agree k) es1 es3.
Proof.
  intros H. revert es3. induction H as [|x y l1 l2 Hxy _ IH]; intros es3 H3; inversion H3; subst; constructor.
  - unfold agree in *. congruence.
  - by apply IH.
Qed.

Lemma transformErrors_agree k es : k <> js "message" -> Forall2 (agree k) es (transformErrors es).
Proof.
  intros Hk. assert (Ht : forall (f : jdata -> outcome native_error jdata) es, (forall e e', f e = Ret e' -> same_error e e') ->
      Forall2 (agree k) es (apply_transformer es f)).
  { intros f l Hf. eapply Forall2_impl; [by apply apply_same|]. intros e e' He. by eapply same_error_get. }
  unfold transformErrors. cbn [foldl].
  eapply agree_trans; [apply (Ht not_of_type), not_of_type_same|].
  eapply agree_trans; [apply (Ht parameter_one_of)|].
  { intros e e' [= <-]. by left. }
  apply Ht, strip_instance_same.
Qed.

Lemma transformErrors_last k es e : k <> js "message" ->
  exists es' e', transformErrors (es ++ [e]) = es' ++ [e'] /\ dget e' k = dget e k.
Proof.
  intros Hk. pose proof (transformErrors_agree k (es ++ [e]) Hk) as H.
  apply Forall2_app_inv_l in H as (l1 & l2 & _ & H2 & Heq).
  apply Forall2_cons_inv_l in H2 as (e' & l3 & He & H3 & ->). apply Forall2_nil_inv_l in H3 as ->.
  rewrite Heq. by exists l1, e'.
Qed.

(** ** Fields that stay from one error to the next *)

Lemma foldl_pairs_get ps (l : list (jsstr * jdata)) k : forall o,
  Forall (fun p => assoc_get ps p.1 = Some p.2) l ->
  assoc_get (foldl (fun o p => dset o p.1 p.2) o l) k
  = if bool_decide (k ∈ l.*1) && negb (jseqb k proto_key) then assoc_get ps k else assoc_get o k.
Proof.
  induction l as [|[k' v] l IH]; intros o Hl; [done|]. apply Forall_cons in Hl as [Hk Hl].
  cbn [foldl fmap list_fmap fst snd] in *. rewrite IH, dset_get by done.
  destruct (jseqb k' k) eqn:E.
  - apply jseqb_eq in E as ->. rewrite (bool_decide_eq_true_2 (k ∈ k :: l.*1)) by left. rewrite Hk.
    by destruct (jseqb k proto_key), (bool_decide (k ∈ l.*1)).
  - assert (bool_decide (k ∈ k' :: l.*1) = bool_decide (k ∈ l.*1)) as ->; [|done].
    apply bool_decide_ext. rewrite elem_of_cons.
    split; [intros [->|]; [by rewrite jseqb_refl in E|done]|tauto].
Qed.

Lemma assign_onto_get o ps k : k <> proto_key -> assoc_get (assign_onto o (DObject ps)) k
  = match assoc_get ps k with Some v => Some v | None => assoc_get o k end.
Proof.
  intros Hk. unfold assign_onto, assign_props.
  rewrite (foldl_pairs_get ps) by by apply (in_order_spec ps (fun k v => assoc_get ps k = Some v)).
  unfold jseqb. rewrite (bool_decide_eq_false_2 (k = proto_key)), andb_true_r by done.
  case_bool_decide as H; rewrite in_order_keys, order_keys_elem, <- assoc_get_Some_key in H.
  - destruct H as [_ [v Hv]]. by rewrite Hv.
  - destruct (assoc_get ps k) eqn:E; [|done]. destruct H. rewrite ?E. eauto.
Qed.

(** The last value a field was given, starting from [init]. *)
Fixpoint latest (k : jsstr) (init : option jdata) (payloads : list (list (jsstr * jdata))) : option jdata :=
  match payloads with
  | [] => init
  | p :: rest => latest k (match assoc_get p k with Some v => Some v | None => init end) rest
  end.

Definition thrown (payloads : list (list (jsstr * jdata))) (state : err_state) : err_state :=
  foldl (fun st p => NEW_THROWN_ERR (DObject p) st) state payloads.

Lemma thrown_default k payloads : k <> proto_key -> k <> js "type" -> forall state,
  assoc_get (default_error (thrown payloads state)) k = latest k (assoc_get (default_error state) k) payloads.
Proof.
  intros Hp Ht. induction payloads as [|p payloads IH]; intros state; [done|].
  cbn [thrown foldl latest]. unfold thrown in IH. rewrite IH. f_equal. unfold NEW_THROWN_ERR. cbn [default_error].
  unfold type_object. rewrite assign_onto_get by done. cbn [assoc_get]. unfold jseqb.
  rewrite bool_decide_eq_false_2 by congruence. by rewrite assign_onto_get.
Qed.

Lemma lastError_snoc state es e : errors state = Some (es ++ [e]) -> lastError state = Some e.
Proof. unfold lastError, allErrors. intros ->. apply last_snoc. Qed.

(** The object with the defaults of an error is shared by all errors. *)
Lemma thrown_fields payloads p k :
  k <> proto_key -> k <> js "type" -> k <> js "message" ->
  (exists e, lastError (thrown (payloads ++ [p]) initial_errors) = Some e
    /\ dget e k = default DUndefined
                    (latest k (assoc_get DEFAULT_ERROR_STRUCTURE k) (payloads ++ [p])))
  /\ (forall state, exists e, lastError (NEW_AUTH_ERR (DObject p) state) = Some e
    /\ dget e k = default DUndefined (assoc_get p k)).
Proof.
  intros Hp Ht Hm. split.
  - pose proof (thrown_default k (payloads ++ [p]) Hp Ht initial_errors) as Hd.
    unfold thrown in *. rewrite foldl_app in *. cbn [foldl] in *. set (st := foldl _ _ payloads) in *.
    unfold NEW_THROWN_ERR in *. cbn [default_error] in Hd. set (error := assign_onto _ (type_object _)) in *.
    destruct (transformErrors_last k (default [] (errors st)) (DObject error) Hm) as (es & e & E & He).
    exists e. split; [apply (lastError_snoc _ es); cbn [errors]; by rewrite E|].
    rewrite He. cbn [dget]. by rewrite Hd.
  - intros state. unfold NEW_AUTH_ERR. set (error := map_set _ _ _).
    destruct (transformErrors_last k (default [] (errors state)) error Hm) as (es & e & E & He).
    exists e. split; [apply (lastError_snoc _ es); cbn [errors]; by rewrite E|].
    rewrite He. subst error. cbn [map_set dget]. rewrite assoc_get_set. unfold jseqb.
    rewrite bool_decide_eq_false_2 by congruence. rewrite assign_onto_get by done. by destruct (assoc_get p k).
Qed.

(** ** Clearing *)

(** What the calls of the OAuth2 component do to the state. *)
Definition err_action (state : err_state) (c : err_call) : err_state :=
  match c with
  | newAuthErr authId source level message =>
      NEW_AUTH_ERR (DObject [(js "authId", DString authId); (js "source", DString source);
                             (js "level", DString level); (js "message", DString message)]) state
  | clearErr authId type source =>
      CLEAR (DObject [(js "authId", DString authId); (js "type", DString type);
                      (js "source", DString source)]) state
  end.

Lemma dkeys_get e k : dget e k <> DUndefined -> (forall es, e <> DArray es) -> k ∈ dkeys e.
Proof.
  destruct e; try done; intros H Ha; [by destruct (Ha es)|]. cbn [dkeys dget] in *.
  rewrite order_keys_elem, <- assoc_get_Some_key. destruct (assoc_get ps k); [eauto|done].
Qed.

Lemma kept_false filter e k : dget e k = dget filter k -> truthy (dget filter k) = true ->
  (exists s, dget filter k = DString s) -> (forall es, e <> DArray es) -> kept filter e = false.
Proof.
  intros He Ht [s Hs] Ha. apply not_true_iff_false. unfold kept. rewrite forallb_forall. intros H.
  assert (Hin : k ∈ dkeys e) by (apply dkeys_get; [by rewrite He, Hs|done]).
  apply list_elem_of_In, H in Hin. rewrite He, Hs in Hin. cbn [strict_eq] in Hin.
  rewrite Hs in Ht. by rewrite Ht, jseqb_refl in Hin.
Qed.

(** [clear] removes an error when any one of its fields has the value the filter gives
    for it, and keeps the others. *)
Lemma cleared_errors state filter calls authId :
  (truthy filter = true -> forall e, e ∈ allErrors (CLEAR filter state) <->
     e ∈ allErrors state /\ forall k, k ∈ dkeys e -> truthy (dget filter k) = true ->
       strict_eq (dget e k) (dget filter k) = false)
  /\ forall e ps, e ∈ allErrors (foldl err_action state (calls ++ [clearErr authId (js "auth") (js "auth")])) ->
     e = DObject ps -> dget e (js "type") <> DString (js "auth").
Proof.
  split.
  - intros Hf e. unfold CLEAR, allErrors. destruct (errors state) as [es|] eqn:E; [|rewrite E; simpl].
    + rewrite Hf. cbn [errors default]. unfold id. rewrite !list_elem_of_In, filter_In. unfold kept.
      rewrite forallb_forall. setoid_rewrite <- list_elem_of_In.
      split; (intros [He Hk]; split; [done|]); intros k Hin; specialize (Hk k Hin).
      * intros Ht. rewrite Ht in Hk. by apply negb_true_iff in Hk.
      * destruct (truthy (dget filter k)); [|done]. by rewrite (Hk eq_refl).
    + split; [by intros ?%not_elem_of_nil|by intros [?%not_elem_of_nil _]].
  - intros e ps. rewrite foldl_app. cbn [foldl err_action]. set (st := foldl _ _ _). intros He -> Ht.
    unfold CLEAR, allErrors in He. destruct (errors st) as [es|] eqn:E.
    + cbn [truthy errors default] in He. unfold id in He. apply list_elem_of_In, filter_In in He as [_ Hk].
      rewrite (kept_false _ _ (js "type")) in Hk; [done|by rewrite Ht|done|by eexists|done].
    + rewrite E in He. by apply not_elem_of_nil in He.
Qed.

(** The dot of the pattern takes a character of the message with it. *)
Example instance_removed :
  removeSubstring (js "instance.type is not an instance of string") = js "type is not an of string".
Proof. vm_compute. reflexivity. Qed.

(** C36: [clear] removes an error when any one of its fields has the value the filter
    gives for it, and keeps the others.  So a call that names one definition, with
    the type and the source of authorization errors beside it, leaves no
    error of that type, whichever definition it belongs to.  And the object with the
    defaults of an error is shared by all errors: after a sequence of thrown errors, a
    field of the last one that its own payload does not have is not the default but
    the last value an earlier payload gave it, while an error of the authorization has
    the fields of its payload only. *)
Theorem errors_cleared_and_shared :
  (forall state filter, truthy filter = true -> forall e, e ∈ allErrors (CLEAR filter state) <->
     e ∈ allErrors state /\ forall k, k ∈ dkeys e -> truthy (dget filter k) = true ->
       strict_eq (dget e k) (dget filter k) = false)
  /\ (forall state calls authId e ps,
     e ∈ allErrors (foldl err_action state (calls ++ [clearErr authId (js "auth") (js "auth")])) ->
     e = DObject ps -> dget e (js "type") <> DString (js "auth"))
  /\ (forall payloads p k, k <> proto_key -> k <> js "type" -> k <> js "message" ->
     (exists e, lastError (thrown (payloads ++ [p]) initial_errors) = Some e
       /\ dget e k = default DUndefined (latest k (assoc_get DEFAULT_ERROR_STRUCTURE k) (payloads ++ [p])))
     /\ (forall state, exists e, lastError (NEW_AUTH_ERR (DObject p) state) = Some e
       /\ dget e k = default DUndefined (assoc_get p k))).
Proof.
  split; [intros state filter; apply (cleared_errors state filter [] [])|].
  split; [intros state calls authId; apply (cleared_errors state DNull calls authId)|apply thrown_fields].
Qed.

Lemma errors_cleared_and_shared_witness :
  let calls := [newAuthErr (js "other") (js "auth") (js "error") (js "failed")] in
  (forall e ps, e ∈ allErrors (foldl err_action initial_errors (calls ++ [clearErr (js "mine") (js "auth") (js "auth")])) ->
     e = DObject ps -> dget e (js "type") <> DString (js "auth"))
  /\ exists e, lastError (thrown [[(js "line", DNumber (num_of_Z 7))]; [(js "message", DString (js "no line"))]]
                         initial_errors) = Some e /\ dget e (js "line") = DNumber (num_of_Z 7).
Proof.
  intros calls. split.
  - exact (proj1 (proj2 errors_cleared_and_shared) initial_errors calls (js "mine")).
  - destruct (proj1 (proj2 (proj2 errors_cleared_and_shared) [[(js "line", DNumber (num_of_Z 7))]]
      [(js "message", DString (js "no line"))] (js "line")
      ltac:(discriminate) ltac:(discriminate) ltac:(discriminate))) as [e [He Hl]].
    exists e. split; [exact He|]. rewrite Hl. vm_compute. reflexivity.
Defined.
