(* ===== verification/SwaggerValidate.v ===== *)
(** * Swagger UI: validation of parameters

    The validators of the utility module and [validateParam].  A value is plain
    data, a list of the package Immutable.js or a file; bounds and lengths of a
    definition are numbers or missing. *)

From S2P Require Import JsPrelude JsNumber JsDigits JsValue JsRegExp SwaggerData JsJson.
From Stdlib Require Import Floats.SpecFloat.

Inductive pvalue : Type :=
| PData (d : jdata)
| PList (items : list jdata)
| PFile.

(** What is taken from the engine and from the package: [new RegExp(p).test(s)],
    which throws for a pattern that is none, whether [Date.parse(s)] is a number,
    and the text and the property [length] of a list. *)
Record engine : Type := mkEngine {
  test_pattern : jsstr -> jsstr -> outcome native_error bool;
  date_valid : jsstr -> bool;
  list_text : list jdata -> jsstr;
  list_length : list jdata -> option Z
}.

(** The fields of a definition that are read. *)
Record details : Type := mkDetails {
  maximum : option num;
  minimum : option num;
  type_ : jdata;
  format : jdata;
  maxLength : option num;
  minLength : option num;
  pattern : jdata;
  items_type : jdata
}.

Record param : Type := mkParam {
  p_in : jdata;
  p_value : pvalue;
  p_value_xml : pvalue;
  p_required : jdata;
  p_schema : option details;
  p_details : details
}.

(** An element of the result: a message, or a message for an item. *)
Inductive verr : Type :=
| Msg (s : jsstr)
| ItemErr (index : Z) (s : jsstr).

(** ** Conversions *)

Definition trim (s : jsstr) : jsstr := rev (trim_start (rev (trim_start s))).

Definition digit : regex := RClass (in_range 48 57).

(** The decimal literals a string may hold. *)
Definition decimal_literal : regex :=
  RSeq (ROpt (RClass (one_of [43; 45])))
    (RAlt (RLit (js "Infinity"))
       (RSeq (RAlt (RSeq (RPlus digit) (ROpt (RSeq (RChr 46) (RStar digit)))) (RSeq (RChr 46) (RPlus digit)))
             (ROpt (RSeqs [RClass (one_of [69; 101]); ROpt (RClass (one_of [43; 45])); RPlus digit])))).

(** [0x], [0o] and [0b]. *)
Definition prefix_radix (c : Z) : option Z :=
  if (c =? 120) || (c =? 88) then Some 16
  else if (c =? 111) || (c =? 79) then Some 8
  else if (c =? 98) || (c =? 66) then Some 2 else None.

(** ToNumber of a string. *)
Definition string_to_number (s : jsstr) : num :=
  match trim s with
  | [] => S754_zero false
  | (a :: b :: d :: rest) as t =>
      match (if a =? 48 then prefix_radix b else None) with
      | Some radix =>
          let '(v, _, unread) := read_digits radix 0 0 (d :: rest) in
          if bool_decide (unread = []) then num_of_ratio v 1 else S754_nan
      | None => if rmatch decimal_literal t then parseFloat t else S754_nan
      end
  | t => if rmatch decimal_literal t then parseFloat t else S754_nan
  end.

Section validators.
Context (E : engine).

(** [String(val)]. *)
Definition ptext (val : pvalue) : outcome native_error jsstr :=
  match val with
  | PData d => dstring d
  | PList items => Ret (list_text E items)
  | PFile => Ret (js "[object File]")
  end.

Definition to_number (val : pvalue) : outcome native_error num :=
  match val with
  | PData DUndefined => Ret S754_nan
  | PData DNull => Ret (S754_zero false)
  | PData (DBool b) => Ret (num_of_Z (if b then 1 else 0))
  | PData (DNumber n) => Ret n
  | v => s ← ptext v; Ret (string_to_number s)
  end.

Definition ptruthy (val : pvalue) : bool := match val with PData d => truthy d | _ => true end.

(** [val.length]: a number, or something that compares false with every number. *)
Definition length_of (val : pvalue) : outcome native_error num :=
  match val with
  | PData DUndefined | PData DNull => Throw (TypeError (js "Cannot read property 'length'"))
  | PData (DString s) => Ret (num_of_Z (strlen s))
  | PData (DArray es) => Ret (num_of_Z (Z.of_nat (length es)))
  | PData (DObject ps) => to_number (PData (dget (DObject ps) (js "length")))
  | PData _ | PFile => Ret S754_nan
  | PList items => Ret (match list_length E items with Some n => num_of_Z n | None => S754_nan end)
  end.

(** ** The validators *)

Definition fails (b : bool) (message : string) : option jsstr := if b then Some (js message) else None.

Definition validateMaximum (val : pvalue) (max : num) : outcome native_error (option jsstr) :=
  n ← to_number val; Ret (fails (SFltb max n) "Value must be less than Maximum").

Definition validateMinimum (val : pvalue) (min : num) : outcome native_error (option jsstr) :=
  n ← to_number val; Ret (fails (SFltb n min) "Value must be greater than Minimum").

(** [/^-?\d+(\.?\d+)?$/] and [/^-?\d+$/]. *)
Definition number_pattern : regex :=
  RSeqs [ROpt (RChr 45); RPlus digit; ROpt (RSeq (ROpt (RChr 46)) (RPlus digit))].
Definition integer_pattern : regex := RSeq (ROpt (RChr 45)) (RPlus digit).

Definition validateNumber (val : pvalue) : outcome native_error (option jsstr) :=
  s ← ptext val; Ret (fails (negb (rmatch number_pattern s)) "Value must be a number").

Definition validateInteger (val : pvalue) : outcome native_error (option jsstr) :=
  s ← ptext val; Ret (fails (negb (rmatch integer_pattern s)) "Value must be an integer").

Definition validateFile (val : pvalue) : option jsstr :=
  fails (ptruthy val && match val with PFile => false | _ => true end) "Value must be a file".

Definition validateBoolean (val : pvalue) : option jsstr :=
  fails (negb match val with
              | PData (DBool _) => true
              | PData d => is_string (js "true") d || is_string (js "false") d
              | _ => false
              end) "Value must be a boolean".

Definition validateString (val : pvalue) : option jsstr :=
  fails (ptruthy val && match val with PData (DString _) => false | _ => true end) "Value must be a string".

Definition validateDateTime (val : pvalue) : outcome native_error (option jsstr) :=
  s ← ptext val; Ret (fails (negb (date_valid E s)) "Value must be a DateTime").

Fixpoint RTimes (n : nat) (r : regex) : regex := match n with O => REps | S n' => RSeq r (RTimes n' r) end.

Definition guid_pattern : regex :=
  let hex := RClass (fun c => in_range 48 57 c || in_range 97 102 c) in
  RSeqs [ROpt (RClass (one_of (js "{("))); RTimes 8 hex; RChr 45; RTimes 4 hex; RChr 45; RTimes 4 hex;
         RChr 45; RTimes 4 hex; RChr 45; RTimes 12 hex; ROpt (RClass (one_of (js ")}")))].

Definition validateGuid (val : pvalue) : outcome native_error (option jsstr) :=
  match val with
  | PData DUndefined | PData DNull => Throw (TypeError (js "Cannot read property 'toString'"))
  | _ => s ← ptext val;
         Ret (fails (negb (rmatch guid_pattern (toLowerCase s))) "Value must be a Guid")
  end.

Definition validateMaxLength (val : pvalue) (max : num) : outcome native_error (option jsstr) :=
  n ← length_of val; Ret (fails (SFltb max n) "Value must be less than MaxLength").

Definition validateMinLength (val : pvalue) (min : num) : outcome native_error (option jsstr) :=
  n ← length_of val; Ret (fails (SFltb n min) "Value must be greater than MinLength").

Definition validatePattern (val : pvalue) (rxPattern : jdata) : outcome native_error (option jsstr) :=
  p ← dstring rxPattern;
  s ← ptext val;
  ok ← test_pattern E p s;
  Ret (if (ok : bool) then None else Some (js "Value must follow pattern " ++ p)).

(** ** The whole check *)

Definition to_errs (e : option jsstr) : list verr := match e with Some s => [Msg s] | None => [] end.

(** [if (bound || bound === 0)] for a bound that is a number or missing. *)
Definition has_bound (b : option num) : option num :=
  match b with Some n => if is_nan n then None else Some n | None => None end.

(** [if (bound)]. *)
Definition has_nonzero (b : option num) : option num :=
  match b with Some n => if truthy (DNumber n) then Some n else None | None => None end.

Definition check_bound (b : option num) (f : num -> outcome native_error (option jsstr))
    : outcome native_error (list verr) :=
  match b with Some n => e ← f n; Ret (to_errs e) | None => Ret [] end.

Definition check_type (d : details) (val : pvalue) : outcome native_error (list verr) :=
  if is_string (js "string") (type_ d) then
    e ← (if is_string (js "date-time") (format d) then validateDateTime val
         else if is_string (js "uuid") (format d) then validateGuid val
         else Ret (validateString val));
    Ret (to_errs e)
  else if is_string (js "boolean") (type_ d) then Ret (to_errs (validateBoolean val))
  else if is_string (js "number") (type_ d) then e ← validateNumber val; Ret (to_errs e)
  else if is_string (js "integer") (type_ d) then e ← validateInteger val; Ret (to_errs e)
  else if is_string (js "array") (type_ d) then
    match val with
    | PList items =>
        (fix go (i : Z) (items : list jdata) : outcome native_error (list verr) :=
           match items with
           | [] => Ret []
           | item :: rest =>
               e ← (if is_string (js "number") (items_type d) then validateNumber (PData item)
                    else if is_string (js "integer") (items_type d) then validateInteger (PData item)
                    else if is_string (js "string") (items_type d) then Ret (validateString (PData item))
                    else Ret None);
               es ← go (i + 1) rest;
               Ret (match e with Some s => ItemErr i s :: es | None => es end)
           end) 0 items
    | _ => Ret []
    end
  else if is_string (js "file") (type_ d) then Ret (to_errs (validateFile val))
  else Ret [].

(** The checks of the type against an absent value, but for the one of objects. *)
Definition passed_check (d : details) (val : pvalue) : bool :=
  let has t := is_string (js t) (type_ d) in
  has "string" && ptruthy val
  || has "array" && match val with PData (DArray (_ :: _)) => true | PList (_ :: _) => true | _ => false end
  || has "file" && match val with PFile => true | _ => false end
  || has "boolean" && (ptruthy val || match val with PData (DBool false) => true | _ => false end)
  || (has "number" || has "integer")
     && (ptruthy val || match val with PData (DNumber n) => num_eqb n (num_of_Z 0) | _ => false end).

(** Whether the value passes as an object of a definition of version 3; [None] for a
    string that is no JSON. *)
Definition object_check (isOAS3 : bool) (d : details) (val : pvalue) : option bool :=
  if isOAS3 && is_string (js "object") (type_ d) then
    match val with
    | PData (DString s) => match JSON_parse s with Ret _ => Some true | _ => None end
    | PData (DArray _) | PData (DObject _) | PData DNull | PList _ | PFile => Some true
    | PData _ => Some false
    end
  else Some false.

Definition validateParam (p : param) (isXml isOAS3 : bool) : outcome native_error (list verr) :=
  let value := if isXml && is_string (js "body") (p_in p) then p_value_xml p else p_value p in
  let required := truthy (p_required p) in
  match (if isOAS3 then p_schema p else Some (p_details p)) with
  | None => Ret []
  | Some d =>
      if truthy (type_ d) && (required || ptruthy value) then
        match object_check isOAS3 d value with
        | None => Ret [Msg (js "Parameter string value must be valid JSON")]
        | Some isObject =>
            if required && negb (passed_check d value || isObject)
            then Ret [Msg (js "Required field is not provided")]
            else
              e1 ← (if truthy (pattern d) then e ← validatePattern value (pattern d); Ret (to_errs e)
                    else Ret []);
              e2 ← check_bound (has_bound (maxLength d)) (validateMaxLength value);
              e3 ← check_bound (has_nonzero (minLength d)) (validateMinLength value);
              e4 ← check_bound (has_bound (maximum d)) (validateMaximum value);
              e5 ← check_bound (has_bound (minimum d)) (validateMinimum value);
              e6 ← check_type d value;
              Ret (e1 ++ e2 ++ e3 ++ e4 ++ e5 ++ e6)
        end
      else Ret []
  end.
End validators.

(** ** Integers *)

(** A text that stands for an integer: a sign and its digits. *)
Definition integer_text (s : jsstr) (neg : bool) (ds : list Z) : Prop :=
  s = (if neg then [45] else []) ++ (digit_unit <$> ds) /\ ds <> [] /\ Forall (fun d => 0 <= d < 10) ds.

Lemma digit_unit_digit d : 0 <= d < 10 -> in_range 48 57 (digit_unit d) = true.
Proof. intros Hd. unfold digit_unit, in_range. rewrite (proj2 (Z.ltb_lt d 10)) by lia. lia. Qed.

Lemma digits_class s : Forall (fun c => in_range 48 57 c = true) s <->
  exists ds, s = digit_unit <$> ds /\ Forall (fun d => 0 <= d < 10) ds.
Proof.
  split.
  - induction 1 as [|c s Hc _ (ds & -> & IH)]; [by exists []|]. exists (c - 48 :: ds).
    unfold in_range in Hc. bool_to_prop. split; [|constructor; [lia|done]].
    cbn [fmap list_fmap]. f_equal. unfold digit_unit. rewrite (proj2 (Z.ltb_lt _ 10)) by lia. lia.
  - intros (ds & -> & Hd). apply Forall_fmap. eapply Forall_impl; [exact Hd|]. apply digit_unit_digit.
Qed.

Lemma opt_inv r s : matches (ROpt r) s -> matches r s \/ s = [].
Proof. intros H. inversion H as [| | |? ? ? H1|? ? ? H1| |]; subst; [by left|]. inversion H1. by right. Qed.

Lemma integer_pattern_spec s : rmatch integer_pattern s = true <-> exists neg ds, integer_text s neg ds.
Proof.
  rewrite rmatch_spec. unfold integer_pattern, digit. split.
  - intros H. inversion H as [| |? ? s1 s2 H1 H2| | | |]; subst. apply plus_class in H2 as [Hne H2].
    apply digits_class in H2 as (ds & -> & Hd). assert (ds <> []) by (by destruct ds).
    apply opt_inv in H1 as [H1| ->]; [|by exists false, ds].
    inversion H1 as [|p c Hc| | | | |]; subst. apply Z.eqb_eq in Hc as <-. by exists true, ds.
  - intros (neg & ds & -> & Hne & Hd). apply m_seq.
    + unfold ROpt. destruct neg; [apply m_alt_l; by apply m_unit|apply m_alt_r, m_eps].
    + apply plus_class. split; [by destruct ds|]. apply digits_class. eauto.
Qed.

Lemma trim_start_id c s : is_js_space c = false -> trim_start (c :: s) = c :: s.
Proof. intros Hc. cbn [trim_start]. by rewrite Hc. Qed.

Lemma digit_not_space c : in_range 48 57 c = true -> is_js_space c = false.
Proof.
  unfold in_range. intros Hc. bool_to_prop. unfold is_js_space. cbn [existsb].
  repeat rewrite orb_false_iff. rewrite andb_false_iff, !Z.eqb_neq, !Z.leb_gt. lia.
Qed.

Lemma integer_first s neg ds : integer_text s neg ds ->
  exists c r, s = c :: r /\ is_js_space c = false /\ (exists l d, s = l ++ [d] /\ in_range 48 57 d = true).
Proof.
  intros (-> & Hne & Hd). destruct (exists_last Hne) as (l & d & ->).
  apply Forall_app in Hd as [Hl [Hd _]%Forall_cons]. rewrite fmap_app. cbn [fmap list_fmap].
  assert (Hlast : exists l' d', (if neg then [45] else []) ++ (digit_unit <$> l) ++ [digit_unit d] = l' ++ [d']
            /\ in_range 48 57 d' = true).
  { exists ((if neg then [45] else []) ++ (digit_unit <$> l)), (digit_unit d).
    rewrite app_assoc. split; [done|by apply digit_unit_digit]. }
  destruct neg; [eexists 45, _; by split_and!|].
  destruct Hl as [|d0 l Hd0 Hl]; [exists (digit_unit d), []|exists (digit_unit d0), ((digit_unit <$> l) ++ [digit_unit d])];
    (split_and!; [done|by apply digit_not_space, digit_unit_digit|done]).
Qed.

Lemma trim_integer s neg ds : integer_text s neg ds -> trim s = s.
Proof.
  intros H. destruct (integer_first s neg ds H) as (c & r & Es & Hc & l & d & El & Hd). unfold trim.
  assert (trim_start s = s) as -> by (rewrite Es; by apply trim_start_id).
  rewrite El, rev_app_distr. simpl rev at 2. cbn [app]. rewrite trim_start_id by by apply digit_not_space.
  cbn [rev]. by rewrite rev_involutive.
Qed.

Lemma parseFloat_integer s neg ds : integer_text s neg ds ->
  parseFloat s = with_sign neg (num_of_ratio (digits_val 10 0 ds) 1).
Proof.
  intros H. destruct (integer_first s neg ds H) as (c & r & Es & Hc & _).
  unfold parseFloat. assert (trim_start s = s) as -> by (rewrite Es; by apply trim_start_id).
  destruct H as (-> & Hne & Hd).
  assert (Hsign : read_sign ((if neg then [45] else []) ++ (digit_unit <$> ds)) = (neg, digit_unit <$> ds)).
  { destruct neg; [done|]. destruct Hd as [|d ds Hd0 _]; [done|]. cbn [app fmap list_fmap].
    unfold digit_unit. rewrite (proj2 (Z.ltb_lt d 10)) by lia. unfold read_sign.
    assert (Hr : 48 + d = 45 \/ 48 + d = 43 -> False) by lia.
    repeat case_match; try done; exfalso; lia. }
  rewrite Hsign. rewrite bool_decide_eq_false_2.
  2: { destruct Hd as [|d ds Hd0 _]; [done|]. cbn. unfold digit_unit. rewrite (proj2 (Z.ltb_lt d 10)) by lia.
       intros [=]. lia. }
  pose proof (read_digits_units 10 0 0 ds [] ltac:(lia) Hd I) as Hr. rewrite app_nil_r in Hr. rewrite Hr.
  assert (0 < strlen ds) by (destruct ds; [done|rewrite strlen_cons; pose proof (strlen_nonneg ds); lia]).
  rewrite (proj2 (Z.eqb_neq (0 + strlen ds) 0)) by lia. cbn [andb read_exponent].
  unfold num_of_scaled. simpl. by rewrite Z.mul_1_r.
Qed.

Lemma integer_decimal s neg ds : integer_text s neg ds -> rmatch decimal_literal s = true.
Proof.
  intros (-> & Hne & Hd). apply rmatch_spec. unfold decimal_literal. apply m_seq.
  - unfold ROpt. destruct neg; [apply m_alt_l; by apply m_unit|apply m_alt_r, m_eps].
  - apply m_alt_r. rewrite <- (app_nil_r (digit_unit <$> ds)). apply m_seq; [|apply m_alt_r, m_eps].
    apply m_alt_l. rewrite <- (app_nil_r (digit_unit <$> ds)). apply m_seq; [|apply m_alt_r, m_eps].
    apply plus_class. split; [by destruct ds|]. apply digits_class. eauto.
Qed.

Lemma integer_no_radix neg ds a b r : integer_text (a :: b :: r) neg ds ->
  (if a =? 48 then prefix_radix b else None) = None.
Proof.
  intros (E & Hne & Hd). destruct (Z.eqb_spec a 48) as [->|]; [|done].
  destruct neg; [by simplify_eq/=|]. destruct ds as [|d0 [|d1 ds]]; [done..|]. cbn in E.
  injection E as _ -> _. apply Forall_cons in Hd as [_ Hd]. apply Forall_cons in Hd as [Hd _].
  unfold digit_unit, prefix_radix. rewrite (proj2 (Z.ltb_lt d1 10)) by lia.
  repeat case_match; try done; rewrite orb_true_iff in *; lia.
Qed.

(** A text of an integer is converted to the double next to the integer. *)
Lemma string_to_number_integer s neg ds : integer_text s neg ds ->
  string_to_number s = with_sign neg (num_of_ratio (digits_val 10 0 ds) 1).
Proof.
  intros H. unfold string_to_number. rewrite (trim_integer s neg ds H).
  rewrite <- (parseFloat_integer s neg ds H). pose proof (integer_decimal s neg ds H) as Hm.
  destruct s as [|a [|b [|d r]]].
  - by destruct (integer_first [] neg ds H) as (? & ? & ? & _).
  - by rewrite Hm.
  - by rewrite Hm.
  - rewrite (integer_no_radix neg ds a b (d :: r) H). by rewrite Hm.
Qed.

(** ** What [validateParam] accepts *)

Definition the_value (p : param) (isXml : bool) : pvalue :=
  if isXml && is_string (js "body") (p_in p) then p_value_xml p else p_value p.

Definition the_details (p : param) (isOAS3 : bool) : option details :=
  if isOAS3 then p_schema p else Some (p_details p).

(** A value that is not there; for an array, one without elements. *)
Definition absent (d : details) (v : pvalue) : bool :=
  match v with
  | PData DUndefined | PData DNull | PData (DString []) => true
  | PData (DArray []) | PList [] => is_string (js "array") (type_ d)
  | _ => false
  end.

(** Within the bounds of a definition. *)
Definition within (d : details) (n : num) : Prop :=
  (forall max, maximum d = Some max -> SFltb max n = false)
  /\ (forall min, minimum d = Some min -> SFltb n min = false).

Lemma SFltb_nan n b : is_nan b = true -> SFltb n b = false /\ SFltb b n = false.
Proof. destruct b; try done. intros _. unfold SFltb. by destruct n. Qed.

Lemma bound_ok (b : option num) (f : num -> bool) message :
  (forall n, is_nan n = true -> f n = false) ->
  check_bound (has_bound b) (fun n => Ret (fails (f n) message)) = Ret []
  <-> forall n, b = Some n -> f n = false.
Proof.
  intros Hnan. unfold check_bound, has_bound. destruct b as [n|]; [|done].
  destruct (is_nan n) eqn:E; [split; [intros _ ? [= <-]; by apply Hnan|done]|].
  unfold fails. simpl. destruct (f n) eqn:Ef; simpl; split; try done.
  - intros H. by rewrite (H n eq_refl) in Ef.
  - by intros _ ? [= <-].
Qed.

Lemma check_bound_ret b (f : num -> outcome native_error (option jsstr)) :
  (forall n, exists e, f n = Ret e) -> exists es, check_bound b f = Ret es.
Proof.
  intros Hf. unfold check_bound. destruct b as [n|]; [|by eexists]. destruct (Hf n) as [e ->]. by eexists.
Qed.

(** A required value that is not there. *)
Lemma required_missing E p isXml isOAS3 d : the_details p isOAS3 = Some d ->
  truthy (type_ d) = true -> truthy (p_required p) = true -> absent d (the_value p isXml) = true ->
  is_string (js "object") (type_ d) = false ->
  validateParam E p isXml isOAS3 = Ret [Msg (js "Required field is not provided")].
Proof.
  intros Hd. unfold validateParam. fold (the_value p isXml). fold (the_details p isOAS3). rewrite Hd.
  intros Ht Hr Ha Ho. rewrite Ht, Hr. cbn [andb orb]. unfold object_check. rewrite Ho, andb_false_r.
  assert (passed_check d (the_value p isXml) = false) as ->; [|done].
  unfold passed_check. destruct (the_value p isXml) as [[| | | |[|]|[|]|]|[|]|]; try done; cbn [ptruthy truthy absent] in *;
    rewrite ?orb_false_r, ?andb_false_r; try done;
    destruct (type_ d); try done; apply jseqb_eq in Ha as ->; done.
Qed.

(** The result for a text of a definition of an integer: the errors of the bounds and
    the one of the type. *)
Lemma integer_checks E p isXml isOAS3 d s : the_details p isOAS3 = Some d ->
  type_ d = DString (js "integer") -> the_value p isXml = PData (DString s) -> s <> [] ->
  truthy (pattern d) = false -> maxLength d = None -> minLength d = None ->
  exists e4 e5, validateParam E p isXml isOAS3
      = Ret (e4 ++ e5 ++ to_errs (fails (negb (rmatch integer_pattern s)) "Value must be an integer"))
    /\ (e4 = [] <-> forall max, maximum d = Some max -> SFltb max (string_to_number s) = false)
    /\ (e5 = [] <-> forall min, minimum d = Some min -> SFltb (string_to_number s) min = false).
Proof.
  intros Hd. unfold validateParam. fold (the_value p isXml). fold (the_details p isOAS3). rewrite Hd.
  intros Ht Hv Hs Hp Hmax Hmin. rewrite Ht, Hv, Hp, Hmax, Hmin.
  assert (Hts : ptruthy (PData (DString s)) = true) by (by destruct s). rewrite Hts, orb_true_r.
  change (truthy (DString (js "integer"))) with true. cbn [andb].
  unfold object_check. rewrite Ht. change (is_string (js "object") (DString (js "integer"))) with false.
  rewrite andb_false_r.
  assert (passed_check d (PData (DString s)) = true) as ->.
  { unfold passed_check. rewrite Ht, Hts. vm_compute. done. }
  rewrite andb_false_r. cbn [has_bound has_nonzero check_bound].
  unfold check_type. rewrite Ht. unfold mbind, outcome_bind.
  unfold validateMaximum, validateMinimum, validateInteger, to_number, ptext. cbn [dstring].
  unfold mbind, outcome_bind. set (n := string_to_number s).
  destruct (check_bound_ret (has_bound (maximum d)) (fun m => Ret (fails (SFltb m n) "Value must be less than Maximum")))
    as [e4 E4]; [by eexists|].
  destruct (check_bound_ret (has_bound (minimum d)) (fun m => Ret (fails (SFltb n m) "Value must be greater than Minimum")))
    as [e5 E5]; [by eexists|].
  pose proof (bound_ok (maximum d) (fun m => SFltb m n) "Value must be less than Maximum") as B4.
  pose proof (bound_ok (minimum d) (fun m => SFltb n m) "Value must be greater than Minimum") as B5.
  cbv beta in B4, B5. rewrite E4 in B4 |- *. rewrite E5 in B5 |- *.
  specialize (B4 (fun m Hm => proj2 (SFltb_nan n m Hm))). specialize (B5 (fun m Hm => proj1 (SFltb_nan n m Hm))).
  change (is_string (js "string") (DString (js "integer"))) with false.
  change (is_string (js "boolean") (DString (js "integer"))) with false.
  change (is_string (js "number") (DString (js "integer"))) with false.
  change (is_string (js "integer") (DString (js "integer"))) with true. cbv iota. cbn [app].
  exists e4, e5. split; [done|]. split; [rewrite <- B4|rewrite <- B5]; (split; [by intros ->|by intros [= ->]]).
Qed.

(** C32: a required value that is not there gives the one error that says so, unless
    the definition is for an object of version 3.  A non-empty text for a definition of an
    integer without a pattern and without lengths gives no error exactly
    when it is a sign and digits, and the double next to the integer they stand
    for is within the bounds of the definition. *)
Theorem validate_integer E p isXml isOAS3 d :
  the_details p isOAS3 = Some d ->
  (truthy (type_ d) = true -> truthy (p_required p) = true -> absent d (the_value p isXml) = true ->
   is_string (js "object") (type_ d) = false ->
   validateParam E p isXml isOAS3 = Ret [Msg (js "Required field is not provided")])
  /\ (forall s, type_ d = DString (js "integer") -> the_value p isXml = PData (DString s) -> s <> [] ->
      truthy (pattern d) = false -> maxLength d = None -> minLength d = None ->
      (validateParam E p isXml isOAS3 = Ret [] <->
       exists neg ds, integer_text s neg ds
         /\ within d (with_sign neg (num_of_ratio (digits_val 10 0 ds) 1)))).
Proof.
  intros Hd. split; [by apply required_missing|]. intros s Ht Hv Hs Hp Hmax Hmin.
  destruct (integer_checks E p isXml isOAS3 d s) as (e4 & e5 & -> & B4 & B5); [done..|].
  pose proof (integer_pattern_spec s) as Hi. destruct (rmatch integer_pattern s) eqn:Em; cbn [negb fails to_errs].
  - rewrite app_nil_r. destruct (proj1 Hi eq_refl) as (neg & ds & H). split.
    + intros [= Ee]. apply app_eq_nil in Ee as [H4 H5]. exists neg, ds. split; [done|].
      unfold within. rewrite <- (string_to_number_integer s neg ds H). tauto.
    + intros (neg' & ds' & H' & Hw). unfold within in Hw. rewrite <- (string_to_number_integer s neg' ds' H') in Hw.
      destruct Hw as [Hw4%B4 Hw5%B5]. by subst.
  - split; [intros Ee; by destruct e4, e5|]. intros (neg & ds & H & _).
    assert (false = true) by (apply Hi; eauto). done.
Qed.

Lemma validate_integer_witness :
  let d := mkDetails (Some (num_of_Z 100)) None (DString (js "integer")) DUndefined None None DUndefined DUndefined in
  let p := mkParam (DString (js "query")) (PData (DString (js "-12"))) (PData DUndefined) (DBool true) None d in
  let E := mkEngine (fun _ _ => Ret true) (fun _ => true) (fun _ => []) (fun _ => None) in
  validateParam E p false false = Ret [].
Proof.
  intros d p E. apply (proj2 (validate_integer E p false false d eq_refl) (js "-12")); try reflexivity; [discriminate|].
  exists true, [1; 2]. split; [split; [reflexivity|split; [discriminate|repeat constructor; lia]]|].
  split; [intros max [= <-]; reflexivity|intros min [=]].
Defined.
