(* ===== verification/SwaggerSystem.v ===== *)
(** * Swagger UI: the plugin system

    How plugins are combined into one system ([combinePlugins], [systemExtend]),
    how the actions of the system are wrapped ([getWrappedAndBoundActions],
    [wrapWithTryCatch]), how components are looked up ([getComponents]) and how
    the callbacks after loading are called ([callAfterLoad]).  [deep-extend] is a
    package: only its documented merging is used. *)

From S2P Require Import JsPrelude JsNumber JsValue SwaggerData.

(** ** Objects with functions *)

(** A value of a plugin; a function is known by a number. *)
Inductive plug : Type :=
| Fn (id : nat)
| Prim (d : jdata)
| Arr (es : list plug)
| Obj (ps : list (jsstr * plug)).

Abbreviation plugs := (list (jsstr * plug)).

Definition plug_truthy (v : option plug) : bool :=
  match v with Some (Prim d) => truthy d | Some _ => true | None => false end.

(** The value at a path of properties. *)
Fixpoint get_path (o : plugs) (ks : list jsstr) : option plug :=
  match ks with
  | [] => Some (Obj o)
  | [k] => assoc_get o k
  | k :: ks' => match assoc_get o k with Some (Obj o') => get_path o' ks' | _ => None end
  end.

(** Assignment at a path whose objects are there. *)
Fixpoint set_path (o : plugs) (ks : list jsstr) (v : plug) : plugs :=
  match ks with
  | [] => o
  | [k] => assoc_set o k v
  | k :: ks' => match assoc_get o k with
                | Some (Obj o') => assoc_set o k (Obj (set_path o' ks' v))
                | _ => o
                end
  end.

(** [deepExtend(target, source)] on the properties of the two objects: an object
    is merged into the object with the same name, anything else replaces what
    was there. *)
Class DeepExtend : Type := deep_extend : plugs -> plugs -> plugs.

Class DeepExtendLaws `{DeepExtend} : Prop :=
  deep_extend_get d s k : assoc_get (deep_extend d s) k =
    match assoc_get s k with
    | None => assoc_get d k
    | Some (Obj ps) =>
        Some (Obj (deep_extend (match assoc_get d k with Some (Obj qs) => qs | _ => [] end) ps))
    | Some v => Some v
    end.

(** ** Extending a system *)

Definition wrap_path (ns a : jsstr) : list jsstr := [js "statePlugins"; ns; js "wrapActions"; a].

(** [Array.isArray(v) ? v : [v]]. *)
Definition as_array (v : plug) : list plug := match v with Arr es => es | v => [v] end.

(** The wrappers at a path, none when there is no value. *)
Definition wrappers (s : plugs) (ns a : jsstr) : list plug :=
  match get_path s (wrap_path ns a) with Some v => as_array v | None => [] end.

(** One action of the loop over [dest.statePlugins]. *)
Definition extend_action (ns a : jsstr) (ds : plugs * plugs) : plugs * plugs :=
  let '(dest, src) := ds in
  match get_path dest (wrap_path ns a) with
  | Some v =>
      let action := as_array v in
      let dest := set_path dest (wrap_path ns a) (Arr action) in
      match get_path src (wrap_path ns a) with
      | Some w => if plug_truthy (Some w)
                  then (dest, set_path src (wrap_path ns a) (Arr (action ++ as_array w)))
                  else (dest, src)
      | None => (dest, src)
      end
  | None => (dest, src)
  end.

(** The names [for ... in] visits; an object has each of its properties once. *)
Definition keys_of (v : option plug) : list jsstr :=
  match v with Some (Obj ps) => remove_dups (order_keys ps.*1) | _ => [] end.

(** The pairs of names the loop visits. *)
Definition action_names (dest : plugs) : list (jsstr * jsstr) :=
  ns ← keys_of (get_path dest [js "statePlugins"]);
  a ← keys_of (get_path dest [js "statePlugins"; ns; js "wrapActions"]);
  [(ns, a)].

Definition extend_actions (dest src : plugs) : plugs * plugs :=
  foldl (fun ds p => extend_action p.1 p.2 ds) (dest, src) (action_names dest).

(** One wrapper of [src.wrapComponents]. *)
Definition extend_component (key : jsstr) (ds : plugs * plugs) : plugs * plugs :=
  let '(dest, src) := ds in
  match get_path src [js "wrapComponents"] with
  | Some (Obj wraps) =>
      match assoc_get wraps key, get_path dest [js "components"; key] with
      | Some wrapperFn, Some ori =>
          if plug_truthy (Some ori) then
            let list := match ori with Arr es => es ++ [wrapperFn] | _ => [ori; wrapperFn] end in
            (set_path dest [js "components"; key] (Arr list),
             assoc_set src (js "wrapComponents") (Obj (assoc_del wraps key)))
          else (dest, src)
      | _, _ => (dest, src)
      end
  | _ => (dest, src)
  end.

Definition extend_components (dest src : plugs) : plugs * plugs :=
  let '(dest, src) :=
    foldl (fun ds k => extend_component k ds) (dest, src) (keys_of (get_path src [js "wrapComponents"])) in
  match get_path src [js "wrapComponents"] with
  | Some (Obj []) => (dest, assoc_del src (js "wrapComponents"))
  | _ => (dest, src)
  end.

Section system.
Context `{DeepExtend}.

(** The extended system and what has been done to [src] on the way. *)
Definition systemExtend (dest src : plugs) : plugs * plugs :=
  let '(dest, src) := extend_components dest src in
  let '(dest, src) := extend_actions dest src in
  (deep_extend dest src, src).

(** ** Combining plugins *)

(** A plugin: an object, a function that is called with the system, a list of
    plugins, or a value that is none of these. *)
Inductive plugin : Type :=
| PluginObject (o : plugs)
| PluginFunction (f : plugs -> plugin)
| PluginList (l : list plugin)
| PluginOther.

Fixpoint combinePlugins (p : plugin) (toolbox : plugs) : plugs :=
  match p with
  | PluginObject o => o
  | PluginFunction f => combinePlugins (f toolbox) toolbox
  | PluginList l =>
      (fix go (l : list plugin) (acc : plugs) : plugs :=
         match l with
         | [] => acc
         | p :: l' => go l' (fst (systemExtend acc (combinePlugins p toolbox)))
         end) l []
  | PluginOther => []
  end.

(** The system after [register]; [boundSystem] is the toolbox. *)
Definition register (system boundSystem : plugs) (p : plugin) : plugs :=
  fst (systemExtend system (combinePlugins p boundSystem)).
End system.

(** ** Wrapping actions *)

Section actions.
Context {Arg Res Exn : Type} (null : Res).

(** A bound action: its arguments to what it returns or throws. *)
Definition action : Type := list Arg -> outcome Exn Res.

(** [fn(acc, system)], the action a wrapper makes of an action. *)
Context (apply_wrap : plug -> action -> action).

Definition wrapWithTryCatch (f : action) : action :=
  fun args => match f args with Throw _ => Ret null | r => r end.

Definition wrap_action (act : action) (wrap : list plug) : action :=
  foldl (fun acc fn => wrapWithTryCatch (apply_wrap fn acc)) act wrap.

(** An action of a namespace, with the wrappers the system has for it. *)
Definition getWrappedAction (system : plugs) (ns a : jsstr) (act : action) : action :=
  match get_path system (wrap_path ns a) with
  | Some wrap => if plug_truthy (Some wrap) then wrap_action act (as_array wrap) else act
  | None => act
  end.
End actions.

(** ** Components *)

Section components.
Context {Comp : Type} (component : plug -> Comp) (wrap_component : plug -> Comp -> Comp).

(** [getComponents(name)]: a list is a component and its wrappers. *)
Definition getComponents (system : plugs) (name : jsstr) : option Comp :=
  match get_path system [js "components"; name] with
  | Some (Arr (ori :: ws)) => Some (foldl (fun c w => wrap_component w c) (component ori) ws)
  | Some (Arr []) => None
  | Some v => Some (component v)
  | None => None
  end.
End components.

(** ** Callbacks after loading *)

(** The functions that are called, and whether the result counts as true: the
    result for a list is an array, which always does. *)
Fixpoint callAfterLoad (p : plugin) (system : plugs) (hasLoaded : bool) : list nat * bool :=
  match p with
  | PluginObject o =>
      match assoc_get o (js "afterLoad") with
      | Some (Fn id) => ([id], true)
      | _ => ([], hasLoaded)
      end
  | PluginFunction f => callAfterLoad (f system) system hasLoaded
  | PluginList l => (l ≫= fun p => fst (callAfterLoad p system hasLoaded), true)
  | PluginOther => ([], hasLoaded)
  end.

(** ** An implementation of the merging *)

Fixpoint merge_value (v : plug) (old : option plug) : plug :=
  match v with
  | Obj ps =>
      Obj ((fix go (ps acc : plugs) (seen : list jsstr) : plugs :=
              match ps with
              | [] => acc
              | (k, w) :: ps' =>
                  if bool_decide (k ∈ seen) then go ps' acc seen
                  else go ps' (assoc_set acc k (merge_value w (assoc_get acc k))) (k :: seen)
              end) ps (match old with Some (Obj qs) => qs | _ => [] end) [])
  | v => v
  end.

Fixpoint merge_props (ps acc : plugs) (seen : list jsstr) : plugs :=
  match ps with
  | [] => acc
  | (k, w) :: ps' =>
      if bool_decide (k ∈ seen) then merge_props ps' acc seen
      else merge_props ps' (assoc_set acc k (merge_value w (assoc_get acc k))) (k :: seen)
  end.

Lemma merge_value_obj ps old :
  merge_value (Obj ps) old = Obj (merge_props ps (match old with Some (Obj qs) => qs | _ => [] end) []).
Proof. done. Qed.

#[export] Instance merge : DeepExtend := fun d s => merge_props s d [].

Lemma merge_props_get ps k : forall acc seen, assoc_get (merge_props ps acc seen) k =
  if bool_decide (k ∈ seen) then assoc_get acc k
  else match assoc_get ps k with
       | None => assoc_get acc k
       | Some w => Some (merge_value w (assoc_get acc k))
       end.
Proof.
  induction ps as [|[k' w] ps IH]; intros acc seen; simpl; [by destruct (bool_decide _)|].
  destruct (decide (k' ∈ seen)) as [Hk'|Hk'].
  - rewrite bool_decide_eq_true_2, IH by done. case_bool_decide; [done|].
    unfold jseqb. rewrite bool_decide_eq_false_2; [done|congruence].
  - rewrite bool_decide_eq_false_2, IH, assoc_get_set by done. unfold jseqb.
    destruct (decide (k' = k)) as [->|Hne].
    + rewrite !(bool_decide_eq_true_2 (k = k)), (bool_decide_eq_true_2 (k ∈ k :: seen)) by (done || left).
      by rewrite bool_decide_eq_false_2.
    + rewrite !(bool_decide_eq_false_2 (k' = k)) by done.
      assert (bool_decide (k ∈ k' :: seen) = bool_decide (k ∈ seen)) as ->; [|done].
      apply bool_decide_ext. rewrite elem_of_cons. split; [intros [->|]; done|tauto].
Qed.

#[export] Instance merge_laws : DeepExtendLaws.
Proof.
  intros d s k. unfold deep_extend, merge. rewrite merge_props_get.
  rewrite bool_decide_eq_false_2 by apply not_elem_of_nil.
  by destruct (assoc_get s k) as [[| | |ps]|].
Qed.
