(* ===== verification/SwaggerSystemTheory.v ===== *)
(** * Swagger UI: plugins keep each other's wrappers

    What extending a system does to the wrappers of its actions, and the order in
    which the wrappers of all plugins are applied. *)

From S2P Require Import JsPrelude JsNumber JsValue SwaggerData SwaggerSystem.

(** ** Paths *)

(** On the way of a path there are objects only, as far as it goes, and at its end no
    object. *)
Fixpoint objs (o : plugs) (ks : list jsstr) : Prop :=
  match ks with
  | [] => True
  | [k] => match assoc_get o k with Some (Obj _) => False | _ => True end
  | k :: ks' => match assoc_get o k with None => True | Some (Obj o') => objs o' ks' | _ => False end
  end.

Lemma get_path_cons o k k' ks : get_path o (k :: k' :: ks)
  = match assoc_get o k with Some (Obj o') => get_path o' (k' :: ks) | _ => None end.
Proof. done. Qed.

Lemma set_path_cons o k k' ks v : set_path o (k :: k' :: ks) v
  = match assoc_get o k with
    | Some (Obj o') => assoc_set o k (Obj (set_path o' (k' :: ks) v))
    | _ => o
    end.
Proof. done. Qed.

Lemma objs_cons o k k' ks : objs o (k :: k' :: ks)
  = match assoc_get o k with None => True | Some (Obj o') => objs o' (k' :: ks) | _ => False end.
Proof. done. Qed.

Lemma objs_nil ks : objs [] ks.
Proof. by destruct ks as [|k [|k' ks]]. Qed.

Lemma get_path_nil ks : ks <> [] -> get_path [] ks = None.
Proof. by destruct ks as [|k [|k' ks]]. Qed.

Lemma get_set_path ks v v0 : forall o, get_path o ks = Some v0 -> ks <> [] ->
  get_path (set_path o ks v) ks = Some v.
Proof.
  induction ks as [|k ks IH]; [done|]. intros o Ho _. destruct ks as [|k' ks].
  - cbn. by rewrite assoc_get_set, jseqb_refl.
  - rewrite get_path_cons in Ho |- *. rewrite set_path_cons.
    destruct (assoc_get o k) as [[| | |o']|]; try done. rewrite assoc_get_set, jseqb_refl. by apply IH.
Qed.

Lemma get_set_path_other ks v : forall ks' o, length ks = length ks' -> ks <> ks' ->
  get_path (set_path o ks v) ks' = get_path o ks'.
Proof.
  induction ks as [|k ks IH]; intros ks' o Hl Hne; [by destruct ks'|].
  destruct ks' as [|k0 ks']; [done|]. destruct ks as [|k1 ks], ks' as [|k2 ks']; try done.
  - cbn. rewrite assoc_get_set. unfold jseqb. by rewrite bool_decide_eq_false_2 by congruence.
  - rewrite set_path_cons, !get_path_cons. destruct (assoc_get o k) as [[| | |o']|] eqn:E; try done.
    rewrite assoc_get_set. unfold jseqb. destruct (decide (k = k0)) as [<-|Hk].
    + rewrite bool_decide_eq_true_2, E by done. apply IH; [simpl in *; lia|congruence].
    + by rewrite bool_decide_eq_false_2.
Qed.

Definition not_obj (v : plug) : Prop := match v with Obj _ => False | _ => True end.

Lemma objs_set_path ks v : not_obj v -> forall ks' o, length ks = length ks' ->
  objs o ks' -> objs (set_path o ks v) ks'.
Proof.
  intros Hv. induction ks as [|k ks IH]; intros ks' o Hl Ho; [by destruct ks'|].
  destruct ks' as [|k0 ks']; [done|]. destruct ks as [|k1 ks], ks' as [|k2 ks']; try done.
  - cbn in *. rewrite assoc_get_set. destruct (jseqb k k0); [by destruct v|done].
  - rewrite set_path_cons. rewrite objs_cons in *. destruct (assoc_get o k) as [[| | |o']|] eqn:E; try done.
    rewrite assoc_get_set. unfold jseqb. destruct (decide (k = k0)) as [<-|Hk].
    + rewrite bool_decide_eq_true_2 by done. rewrite E in Ho. apply IH; [simpl in *; lia|done].
    + by rewrite bool_decide_eq_false_2.
Qed.

(** Merging along a path: what the source has, or else what was there. *)
Lemma deep_path `{DeepExtendLaws} ks : ks <> [] -> forall d s, objs d ks -> objs s ks ->
  get_path (deep_extend d s) ks = match get_path s ks with Some v => Some v | None => get_path d ks end
  /\ objs (deep_extend d s) ks.
Proof.
  induction ks as [|k ks IH]; [done|]. intros _ d s Hd Hs. destruct ks as [|k' ks].
  - cbn in *. rewrite deep_extend_get. by destruct (assoc_get s k) as [[| | |]|].
  - rewrite !get_path_cons, !objs_cons, deep_extend_get in *.
    destruct (assoc_get s k) as [[| | |ps]|] eqn:Es; try done.
    destruct (assoc_get d k) as [[| | |qs]|] eqn:Ed; try done; [by apply IH|].
    destruct (IH ltac:(done) [] ps) as [E Ho]; [apply objs_nil|done|].
    rewrite get_path_nil in E by done. done.
Qed.

(** ** Plugins whose wrappers are functions *)

Definition is_fn (v : plug) : bool := match v with Fn _ => true | _ => false end.

(** A wrapper or a list of wrappers. *)
Definition wrap_ok (v : plug) : bool := match v with Fn _ => true | Arr es => forallb is_fn es | _ => false end.

Definition wf (o : plugs) : Prop :=
  forall ns a, objs o (wrap_path ns a)
  /\ forall v, get_path o (wrap_path ns a) = Some v -> wrap_ok v = true.

Lemma wrap_ok_as_array v : wrap_ok v = true -> forallb is_fn (as_array v) = true.
Proof. by destruct v. Qed.

Lemma wrap_ok_app v w : wrap_ok v = true -> wrap_ok w = true ->
  wrap_ok (Arr (as_array v ++ as_array w)) = true.
Proof. intros Hv Hw. cbn. by rewrite forallb_app, !wrap_ok_as_array. Qed.

Lemma wrap_ok_truthy v : wrap_ok v = true -> plug_truthy (Some v) = true.
Proof. by destruct v. Qed.

Lemma wrap_path_inj ns a ns' a' : wrap_path ns a = wrap_path ns' a' -> (ns, a) = (ns', a').
Proof. unfold wrap_path. congruence. Qed.

(** The two values at the path of an action after its turn. *)
Definition turn_of (v w : option plug) : option plug * option plug :=
  match v with
  | Some v => (Some (Arr (as_array v)),
               match w with Some w => Some (Arr (as_array v ++ as_array w)) | None => None end)
  | None => (None, w)
  end.

Definition paths (ds : plugs * plugs) (p : jsstr * jsstr) : option plug * option plug :=
  (get_path ds.1 (wrap_path p.1 p.2), get_path ds.2 (wrap_path p.1 p.2)).

Lemma wf_set_path o ns a v : wf o -> get_path o (wrap_path ns a) <> None -> wrap_ok v = true ->
  wf (set_path o (wrap_path ns a) v).
Proof.
  intros Ho Hp Hv ns' a'. destruct (Ho ns' a') as [H1 H2].
  split; [apply objs_set_path; [by destruct v|done|done]|]. intros v'.
  destruct (get_path o (wrap_path ns a)) as [v0|] eqn:E; [|done].
  destruct (decide ((ns, a) = (ns', a'))) as [[= <- <-]|Hne].
  - rewrite (get_set_path _ v v0) by done. by intros [= <-].
  - rewrite get_set_path_other; [apply H2|done|]. intros Hc%wrap_path_inj. done.
Qed.

Lemma extend_action_paths ns a ds : wf ds.1 -> wf ds.2 ->
  wf (extend_action ns a ds).1 /\ wf (extend_action ns a ds).2
  /\ forall p, paths (extend_action ns a ds) p
       = if bool_decide (p = (ns, a)) then turn_of (paths ds p).1 (paths ds p).2 else paths ds p.
Proof.
  destruct ds as [d s]. intros Hd Hs. cbn [fst snd] in *. unfold extend_action.
  destruct (get_path d (wrap_path ns a)) as [v|] eqn:Ev.
  2: { split_and!; [done..|]. intros p. case_bool_decide as E; [|done]. subst p. unfold paths. cbn [fst snd]. by rewrite Ev. }
  pose proof (proj2 (Hd ns a) v Ev) as Hv.
  assert (Hset : wf (set_path d (wrap_path ns a) (Arr (as_array v)))).
  { apply wf_set_path; [done|by rewrite Ev|by apply wrap_ok_as_array]. }
  assert (Hother : forall o u p, p <> (ns, a) ->
    get_path (set_path o (wrap_path ns a) u) (wrap_path p.1 p.2) = get_path o (wrap_path p.1 p.2)).
  { intros o u p Hp. apply get_set_path_other; [done|]. intros Hc%wrap_path_inj. by destruct p. }
  destruct (get_path s (wrap_path ns a)) as [w|] eqn:Ew.
  - pose proof (proj2 (Hs ns a) w Ew) as Hw. rewrite (wrap_ok_truthy w Hw). cbn [fst snd].
    split_and!; [done|apply wf_set_path; [done|by rewrite Ew|by apply wrap_ok_app]|].
    intros p. unfold paths. cbn [fst snd]. case_bool_decide as E.
    + subst p. cbn [fst snd]. by rewrite Ev, Ew, (get_set_path _ _ v), (get_set_path _ _ w) by done.
    + by rewrite !Hother.
  - cbn [fst snd]. split_and!; [done..|]. intros p. unfold paths. cbn [fst snd]. case_bool_decide as E.
    + subst p. cbn [fst snd]. by rewrite Ev, Ew, (get_set_path _ _ v) by done.
    + by rewrite Hother.
Qed.

Lemma fold_actions l : NoDup l -> forall ds, wf ds.1 -> wf ds.2 ->
  let ds' := foldl (fun ds p => extend_action p.1 p.2 ds) ds l in
  wf ds'.1 /\ wf ds'.2
  /\ forall p, paths ds' p = if bool_decide (p ∈ l) then turn_of (paths ds p).1 (paths ds p).2 else paths ds p.
Proof.
  induction 1 as [|[ns a] l Hn _ IH]; intros ds Hd Hs; [done|]. cbn [foldl fst snd].
  destruct (extend_action_paths ns a ds Hd Hs) as (Hd' & Hs' & Hp).
  destruct (IH _ Hd' Hs') as (Hd'' & Hs'' & Hp'). split_and!; [done..|].
  intros p. rewrite Hp', Hp. destruct (decide (p = (ns, a))) as [->|Hne].
  - rewrite (bool_decide_eq_false_2 ((ns, a) ∈ l)), (bool_decide_eq_true_2 ((ns, a) = _)) by done.
    by rewrite bool_decide_eq_true_2 by left.
  - rewrite (bool_decide_eq_false_2 (p = (ns, a))) by done.
    assert (bool_decide (p ∈ (ns, a) :: l) = bool_decide (p ∈ l)) as ->; [|done].
    apply bool_decide_ext. rewrite elem_of_cons. tauto.
Qed.

Lemma action_names_elem d ns a : (ns, a) ∈ action_names d <->
  ns ∈ keys_of (get_path d [js "statePlugins"])
  /\ a ∈ keys_of (get_path d [js "statePlugins"; ns; js "wrapActions"]).
Proof.
  unfold action_names. rewrite list_elem_of_bind. split.
  - intros (ns' & (a' & Hp & Ha)%list_elem_of_bind & Hns). apply elem_of_cons in Hp as [[= -> ->]|Hp]; [done|].
    by apply not_elem_of_nil in Hp.
  - intros [Hns Ha]. exists ns. split; [|done]. apply list_elem_of_bind. exists a. split; [by left|done].
Qed.

Lemma keys_of_NoDup v : NoDup (keys_of v).
Proof. destruct v as [[| | |]|]; try constructor. apply NoDup_remove_dups. Qed.

Lemma action_names_NoDup d : NoDup (action_names d).
Proof.
  unfold action_names. apply NoDup_bind.
  - intros ns ns' p _ _ (a & Hp & _)%list_elem_of_bind (a' & Hp' & _)%list_elem_of_bind.
    apply elem_of_cons in Hp as [->|Hp]; [|by apply not_elem_of_nil in Hp].
    apply elem_of_cons in Hp' as [[= -> _]|Hp']; [done|by apply not_elem_of_nil in Hp'].
  - intros ns _. apply NoDup_bind; [|intros; apply NoDup_singleton|apply keys_of_NoDup].
    intros a a' p _ _ Hp Hp'. apply elem_of_cons in Hp as [->|Hp]; [|by apply not_elem_of_nil in Hp].
    apply elem_of_cons in Hp' as [[= ->]|Hp']; [done|by apply not_elem_of_nil in Hp'].
  - apply keys_of_NoDup.
Qed.

Lemma keys_of_elem ps k : is_Some (assoc_get ps k) -> k ∈ keys_of (Some (Obj ps)).
Proof. intros Hk. cbn. rewrite elem_of_remove_dups, order_keys_elem. by apply assoc_get_Some_key. Qed.

Lemma action_names_complete d ns a : get_path d (wrap_path ns a) <> None -> (ns, a) ∈ action_names d.
Proof.
  intros H. rewrite action_names_elem. unfold wrap_path in H. rewrite get_path_cons in H. cbn [get_path].
  destruct (assoc_get d (js "statePlugins")) as [[| | |nss]|] eqn:E1; try done.
  rewrite get_path_cons in H. destruct (assoc_get nss ns) as [[| | |n]|] eqn:E2; try done.
  rewrite get_path_cons in H. destruct (assoc_get n (js "wrapActions")) as [[| | |ws]|] eqn:E3; try done.
  split; apply keys_of_elem; [by rewrite E2|]. cbn [get_path] in H. by apply not_eq_None_Some.
Qed.

(** The loop over the actions gives every action its turn. *)
Lemma extend_actions_paths d s : wf d -> wf s ->
  wf (extend_actions d s).1 /\ wf (extend_actions d s).2
  /\ forall p, paths (extend_actions d s) p = turn_of (paths (d, s) p).1 (paths (d, s) p).2.
Proof.
  intros Hd Hs. destruct (fold_actions _ (action_names_NoDup d) (d, s) Hd Hs) as (Hd' & Hs' & Hp).
  split_and!; [done..|]. intros [ns a]. unfold extend_actions. rewrite Hp. case_bool_decide as E; [done|].
  assert (Hn : get_path d (wrap_path ns a) = None).
  { destruct (get_path d (wrap_path ns a)) eqn:Eg; [|done]. destruct E. apply action_names_complete. by rewrite Eg. }
  unfold paths, turn_of. cbn [fst snd]. by rewrite Hn.
Qed.

(** ** The components do not touch the state plugins *)

Lemma extend_component_state key ds :
  assoc_get (extend_component key ds).1 (js "statePlugins") = assoc_get ds.1 (js "statePlugins")
  /\ assoc_get (extend_component key ds).2 (js "statePlugins") = assoc_get ds.2 (js "statePlugins").
Proof.
  destruct ds as [d s]. unfold extend_component. cbn [fst snd].
  destruct (get_path s [js "wrapComponents"]) as [[| | |ws]|]; try done.
  destruct (assoc_get ws key), (get_path d [js "components"; key]) as [ori|]; try done.
  destruct (plug_truthy _); [|done]. cbn [fst snd]. split.
  - rewrite set_path_cons. destruct (assoc_get d (js "components")) as [[| | |]|]; try done.
    by rewrite assoc_get_set.
  - by rewrite assoc_get_set.
Qed.

Lemma extend_components_state d s :
  assoc_get (extend_components d s).1 (js "statePlugins") = assoc_get d (js "statePlugins")
  /\ assoc_get (extend_components d s).2 (js "statePlugins") = assoc_get s (js "statePlugins").
Proof.
  unfold extend_components. generalize (keys_of (get_path s [js "wrapComponents"])) as ks. intros ks.
  assert (H : forall ds, let ds' := foldl (fun ds k => extend_component k ds) ds ks in
    assoc_get ds'.1 (js "statePlugins") = assoc_get ds.1 (js "statePlugins")
    /\ assoc_get ds'.2 (js "statePlugins") = assoc_get ds.2 (js "statePlugins")).
  { induction ks as [|k ks IH]; intros ds; [done|]. cbn [foldl].
    destruct (extend_component_state k ds) as [<- <-]. apply IH. }
  specialize (H (d, s)). destruct (foldl _ _ _) as [d' s']. cbn [fst snd] in H. destruct H as [<- <-].
  destruct (get_path s' _) as [[| | |[|]]|]; try done. cbn [fst snd]. by rewrite assoc_get_del.
Qed.

Lemma wrap_path_ext o o' ns a : assoc_get o (js "statePlugins") = assoc_get o' (js "statePlugins") ->
  get_path o (wrap_path ns a) = get_path o' (wrap_path ns a)
  /\ (objs o (wrap_path ns a) <-> objs o' (wrap_path ns a)).
Proof. intros E. unfold wrap_path. by rewrite !get_path_cons, !objs_cons, E. Qed.

Lemma wf_ext o o' : assoc_get o (js "statePlugins") = assoc_get o' (js "statePlugins") -> wf o' -> wf o.
Proof.
  intros E H ns a. destruct (wrap_path_ext o o' ns a E) as [E1 E2], (H ns a) as [H1 H2].
  rewrite E1. by split; [apply E2|].
Qed.

(** ** Extending keeps the wrappers of both *)

Lemma systemExtend_wrappers `{DeepExtendLaws} d s : wf d -> wf s ->
  wf (systemExtend d s).1 /\ forall ns a, wrappers (systemExtend d s).1 ns a = wrappers d ns a ++ wrappers s ns a.
Proof.
  intros Hd Hs. unfold systemExtend. destruct (extend_components_state d s) as [E1 E2].
  destruct (extend_components d s) as [d1 s1]. cbn [fst snd] in *.
  pose proof (wf_ext _ _ E1 Hd) as Hd1. pose proof (wf_ext _ _ E2 Hs) as Hs1.
  destruct (extend_actions_paths d1 s1 Hd1 Hs1) as (Hd2 & Hs2 & Hp).
  destruct (extend_actions d1 s1) as [d2 s2]. cbn [fst snd] in *.
  assert (Hg : forall ns a, get_path (deep_extend d2 s2) (wrap_path ns a)
      = match get_path s2 (wrap_path ns a) with Some v => Some v | None => get_path d2 (wrap_path ns a) end
      /\ objs (deep_extend d2 s2) (wrap_path ns a)).
  { intros ns a. apply deep_path; [done|apply Hd2|apply Hs2]. }
  split.
  - intros ns a. destruct (Hg ns a) as [-> Ho]. split; [done|]. intros v.
    destruct (get_path s2 _) as [w|] eqn:Ew; [intros [= <-]; by apply (Hs2 ns a)|apply (Hd2 ns a)].
  - intros ns a. unfold wrappers. rewrite (proj1 (Hg ns a)).
    destruct (wrap_path_ext d1 d ns a E1) as [<- _], (wrap_path_ext s1 s ns a E2) as [<- _].
    specialize (Hp (ns, a)). unfold paths, turn_of in Hp. cbn [fst snd] in Hp.
    destruct (get_path d1 (wrap_path ns a)) as [v|], (get_path s1 (wrap_path ns a)) as [w|];
      apply pair_equal_spec in Hp as [H1 H2]; rewrite H1, H2; cbn [as_array app]; rewrite ?app_nil_r; done.
Qed.

(** What the object of a plugin has after it was merged: the wrappers that were there
    before its own. *)
Lemma systemExtend_source `{DeepExtend} d s ns a : wf d -> wf s ->
  wrappers (systemExtend d s).2 ns a =
  match get_path s (wrap_path ns a) with Some _ => wrappers d ns a ++ wrappers s ns a | None => [] end.
Proof.
  intros Hd Hs. unfold systemExtend. destruct (extend_components_state d s) as [E1 E2].
  destruct (extend_components d s) as [d1 s1]. cbn [fst snd] in *.
  destruct (extend_actions_paths d1 s1 (wf_ext _ _ E1 Hd) (wf_ext _ _ E2 Hs)) as (_ & _ & Hp).
  destruct (extend_actions d1 s1) as [d2 s2]. cbn [fst snd] in *. unfold wrappers.
  destruct (wrap_path_ext d1 d ns a E1) as [<- _], (wrap_path_ext s1 s ns a E2) as [<- _].
  specialize (Hp (ns, a)). unfold paths, turn_of in Hp. cbn [fst snd] in Hp.
  destruct (get_path d1 (wrap_path ns a)) as [v|], (get_path s1 (wrap_path ns a)) as [w|];
    apply pair_equal_spec in Hp as [_ H2]; rewrite H2; done.
Qed.

(** ** Wrappers of selectors *)

Definition selector_path (ns a : jsstr) : list jsstr := [js "statePlugins"; ns; js "wrapSelectors"; a].

Lemma extend_action_selector ns a ns' a' ds :
  (get_path (extend_action ns a ds).1 (selector_path ns' a') = get_path ds.1 (selector_path ns' a')
   /\ get_path (extend_action ns a ds).2 (selector_path ns' a') = get_path ds.2 (selector_path ns' a'))
  /\ (objs ds.1 (selector_path ns' a') -> objs (extend_action ns a ds).1 (selector_path ns' a'))
  /\ (objs ds.2 (selector_path ns' a') -> objs (extend_action ns a ds).2 (selector_path ns' a')).
Proof.
  destruct ds as [d s]. unfold extend_action. cbn [fst snd].
  assert (Hne : wrap_path ns a <> selector_path ns' a') by (by intros [=]).
  destruct (get_path d (wrap_path ns a)) as [v|]; [|done].
  destruct (get_path s (wrap_path ns a)) as [w|]; [destruct (plug_truthy _)|]; cbn [fst snd];
    rewrite ?get_set_path_other by done;
    (split; [done|split]); intros Ho; try done; by apply objs_set_path.
Qed.

(** An extension replaces the wrapper of a selector. *)
Lemma systemExtend_selectors `{DeepExtendLaws} d s ns a :
  objs d (selector_path ns a) -> objs s (selector_path ns a) ->
  get_path (systemExtend d s).1 (selector_path ns a) =
  match get_path s (selector_path ns a) with Some v => Some v | None => get_path d (selector_path ns a) end.
Proof.
  intros Hd Hs. unfold systemExtend. destruct (extend_components_state d s) as [E1 E2].
  destruct (extend_components d s) as [d1 s1]. cbn [fst snd] in *.
  unfold selector_path in *. rewrite objs_cons, <- E1 in Hd. rewrite objs_cons, <- E2 in Hs.
  rewrite (get_path_cons d), (get_path_cons s), <- E1, <- E2, <- (get_path_cons d1), <- (get_path_cons s1).
  rewrite <- objs_cons in Hd, Hs. fold (selector_path ns a) in *. unfold extend_actions.
  assert (Hfold : forall l ds, objs ds.1 (selector_path ns a) -> objs ds.2 (selector_path ns a) ->
    let ds' := foldl (fun ds p => extend_action p.1 p.2 ds) ds l in
    objs ds'.1 (selector_path ns a) /\ objs ds'.2 (selector_path ns a)
    /\ get_path ds'.1 (selector_path ns a) = get_path ds.1 (selector_path ns a)
    /\ get_path ds'.2 (selector_path ns a) = get_path ds.2 (selector_path ns a)).
  { induction l as [|p l IH]; intros ds H1 H2; [done|]. cbn [foldl].
    destruct (extend_action_selector p.1 p.2 ns a ds) as ([<- <-] & K1 & K2). apply IH; auto. }
  destruct (Hfold (action_names d1) (d1, s1) Hd Hs) as (O1 & O2 & G1 & G2).
  destruct (foldl _ _ _) as [d2 s2]. cbn [fst snd] in *.
  rewrite (proj1 (deep_path (selector_path ns a) ltac:(done) d2 s2 O1 O2)). by rewrite G1, G2.
Qed.

(** ** All plugins *)

(** The objects a plugin stands for, in the order in which they are merged. *)
Fixpoint flatten (p : plugin) (toolbox : plugs) : list plugs :=
  match p with
  | PluginObject o => [o]
  | PluginFunction f => flatten (f toolbox) toolbox
  | PluginList l => l ≫= fun p => flatten p toolbox
  | PluginOther => []
  end.

Section plugin_ind.
Variable P : plugin -> Prop.
Hypothesis H_object : forall o, P (PluginObject o).
Hypothesis H_function : forall f, (forall t, P (f t)) -> P (PluginFunction f).
Hypothesis H_list : forall l, Forall P l -> P (PluginList l).
Hypothesis H_other : P PluginOther.

Fixpoint plugin_nested_ind (p : plugin) : P p :=
  match p with
  | PluginObject o => H_object o
  | PluginFunction f => H_function f (fun t => plugin_nested_ind (f t))
  | PluginList l =>
      H_list l ((fix go (l : list plugin) : Forall P l :=
        match l with
        | [] => Forall_nil_2 _
        | p :: l' => Forall_cons_2 _ _ _ (plugin_nested_ind p) (go l')
        end) l)
  | PluginOther => H_other
  end.
End plugin_ind.

(** The wrappers of a list of objects, one object after the other. *)
Definition all_wrappers (os : list plugs) (ns a : jsstr) : list plug := os ≫= fun o => wrappers o ns a.

Lemma wf_nil : wf [].
Proof. intros ns a. split; [apply objs_nil|]. by rewrite get_path_nil. Qed.

Lemma combinePlugins_wrappers `{DeepExtendLaws} toolbox p : Forall wf (flatten p toolbox) ->
  wf (combinePlugins p toolbox)
  /\ forall ns a, wrappers (combinePlugins p toolbox) ns a = all_wrappers (flatten p toolbox) ns a.
Proof.
  unfold all_wrappers. induction p as [o|f IH|l IH|] using plugin_nested_ind; intros Hf.
  - apply Forall_cons in Hf as [Hf _]. split; [done|]. intros ns a. cbn. by rewrite app_nil_r.
  - by apply IH.
  - cbn [flatten combinePlugins] in *.
    assert (Hgo : forall acc, wf acc ->
      let r := (fix go (l : list plugin) (acc : plugs) : plugs :=
         match l with
         | [] => acc
         | p :: l' => go l' (fst (systemExtend acc (combinePlugins p toolbox)))
         end) l acc in
      wf r /\ forall ns a, wrappers r ns a
        = wrappers acc ns a ++ ((l ≫= fun p => flatten p toolbox) ≫= fun o => wrappers o ns a)).
    { induction IH as [|p l Hp Hl IHl]; intros acc Hacc; [split; [done|intros; cbn; by rewrite app_nil_r]|].
      cbn [mbind list_bind] in Hf. apply Forall_app in Hf as [Hf1 Hf2].
      destruct (Hp Hf1) as [Hw Hws]. destruct (systemExtend_wrappers acc _ Hacc Hw) as [Ha Has].
      destruct (IHl Hf2 _ Ha) as [Hr Hrs]. split; [done|]. intros ns a. rewrite Hrs, Has, Hws.
      by rewrite <- app_assoc, bind_cons, bind_app. }
    destruct (Hgo [] wf_nil) as [H1 H2]. split; [done|]. intros ns a. by rewrite H2.
  - split; [apply wf_nil|done].
Qed.

(** ** A test for the plugins *)

Definition namespace_ok (v : plug) : bool :=
  match v with
  | Obj n => match assoc_get n (js "wrapActions") with
             | None => true
             | Some (Obj ws) => forallb (fun q => wrap_ok q.2) ws
             | _ => false
             end
  | _ => false
  end.

Definition plugin_ok (o : plugs) : bool :=
  match assoc_get o (js "statePlugins") with
  | None => true
  | Some (Obj nss) => forallb (fun p => namespace_ok p.2) nss
  | _ => false
  end.

Lemma assoc_get_forallb {A} (f : A -> bool) (ps : list (jsstr * A)) k v :
  forallb (fun p => f p.2) ps = true -> assoc_get ps k = Some v -> f v = true.
Proof.
  induction ps as [|[k' w] ps IH]; [done|]. cbn. intros [Hw Hps]%andb_true_iff.
  destruct (jseqb k' k); [by intros [= <-]|by apply IH].
Qed.

Lemma plugin_ok_wf o : plugin_ok o = true -> wf o.
Proof.
  unfold plugin_ok. intros H ns a. unfold wrap_path. rewrite get_path_cons, objs_cons.
  destruct (assoc_get o (js "statePlugins")) as [[| | |nss]|]; try done.
  rewrite get_path_cons, objs_cons. destruct (assoc_get nss ns) as [n|] eqn:En; [|done].
  apply (assoc_get_forallb namespace_ok nss ns n H) in En. destruct n as [| | |n]; cbn [namespace_ok] in En; try done.
  rewrite get_path_cons, objs_cons. destruct (assoc_get n (js "wrapActions")) as [[| | |ws]|]; try done.
  cbn [get_path objs]. destruct (assoc_get ws a) as [v|] eqn:Ea; [|done].
  apply (assoc_get_forallb wrap_ok ws a v En) in Ea. split; [by destruct v|]. by intros ? [= <-].
Qed.

(** C12: whatever objects, functions and lists of plugins are registered, no wrapper of an
    action is lost: the action of the system is the original one with the wrappers
    it had before and then those of the plugins around it, in the order in which
    the plugins are merged, so that the last one is called first, and an
    exception below any wrapper ends there with [null].  This holds for actions only:
    a later plugin replaces the wrapper of a selector.  And the objects of the plugins
    are changed on the way: a merged one has the wrappers of the earlier plugins
    before its own, and brings them along when it is used again. *)
Theorem wrappers_in_order `{DeepExtendLaws} {Arg Res Exn : Type} (null : Res)
    (apply_wrap : plug -> @action Arg Res Exn -> action) system toolbox p ns a act :
  plugin_ok system = true -> forallb plugin_ok (flatten p toolbox) = true ->
  let ws := wrappers system ns a ++ all_wrappers (flatten p toolbox) ns a in
  getWrappedAction null apply_wrap (register system toolbox p) ns a act = wrap_action null apply_wrap act ws
  /\ (forall ws' w, ws = ws' ++ [w] -> forall args,
      wrap_action null apply_wrap act ws args
        = match apply_wrap w (wrap_action null apply_wrap act ws') args with Throw _ => Ret null | r => r end)
  /\ (forall d s sel, objs d (selector_path ns sel) -> objs s (selector_path ns sel) ->
      get_path (systemExtend d s).1 (selector_path ns sel)
      = match get_path s (selector_path ns sel) with
        | Some v => Some v
        | None => get_path d (selector_path ns sel)
        end)
  /\ (forall d s, plugin_ok d = true -> plugin_ok s = true -> wrappers s ns a <> [] ->
      wrappers (systemExtend d s).2 ns a = wrappers d ns a ++ wrappers s ns a).
Proof.
  intros Hsys%plugin_ok_wf Hp ws.
  assert (Hf : Forall wf (flatten p toolbox)).
  { apply Forall_forall. rewrite forallb_forall in Hp. intros o Ho%list_elem_of_In. by apply plugin_ok_wf, Hp. }
  destruct (combinePlugins_wrappers toolbox p Hf) as [Hc Hcs].
  destruct (systemExtend_wrappers system _ Hsys Hc) as [Hr Hrs]. split_and!.
  - unfold getWrappedAction, register. specialize (Hrs ns a). rewrite Hcs in Hrs. fold ws in Hrs.
    unfold wrappers at 1 in Hrs. destruct (get_path _ (wrap_path ns a)) as [v|] eqn:Ev; [|by rewrite <- Hrs].
    rewrite (wrap_ok_truthy v) by by apply (Hr ns a). by rewrite <- Hrs.
  - intros ws' w -> args. unfold wrap_action. by rewrite foldl_app.
  - intros d s sel. apply systemExtend_selectors.
  - intros d s Hd%plugin_ok_wf Hs%plugin_ok_wf Hne. rewrite systemExtend_source by done.
    unfold wrappers in Hne |- *. by destruct (get_path s (wrap_path ns a)).
Qed.

(** Two plugins that wrap the action [a] of the namespace [n]. *)
Definition example_plugin (id : nat) : plugs :=
  [(js "statePlugins", Obj [(js "n", Obj [(js "wrapActions", Obj [(js "a", Fn id)])])])].

Lemma wrappers_in_order_witness :
  getWrappedAction (Exn := unit) [] (fun w act args => r ← act args; Ret (match w with Fn i => i | _ => 0%nat end :: r))
    (register [] [] (PluginList [PluginObject (example_plugin 1); PluginFunction (fun _ => PluginObject (example_plugin 2))]))
    (js "n") (js "a") (fun args : list nat => Ret args) [7%nat] = Ret [2; 1; 7]%nat.
Proof.
  rewrite (proj1 (wrappers_in_order (H := merge) [] _ [] []
    (PluginList [PluginObject (example_plugin 1); PluginFunction (fun _ => PluginObject (example_plugin 2))])
    (js "n") (js "a") _ eq_refl eq_refl)). reflexivity.
Defined.
