(* ===== verification/SwaggerSpec.v ===== *)
(** * Swagger UI: the state of the description

    The plugin [spec] keeps the description of the API, the parts of it that have been
    resolved, and for every operation what the user entered: the values of the
    parameters, their errors, the content types, the requests and the responses.  Here
    are its reducers and the selectors the page reads them with.

    The collections are those of the package Immutable.js, of which the interface is
    used.  The description is the plain tree it stands for, with [DObject] for a map
    and [DArray] for a list; its operations, parameters and tags are objects where the
    code reads them, and the names of a parameter are primitive values other than
    [NaN]. *)

From S2P Require Import JsPrelude JsNumber JsValue JsRegExp JsImmutable.
From S2P Require Import SwaggerData SwaggerErrors SwaggerSample SwaggerValidate.

(** ** The collections *)

(** Maps of any values, with what the code does to all the values of a map. *)
Class ImCollection (M : Type -> Type) : Type := {
  im_maps :: forall A, ImMap A (M A);
  im_mapped : forall A B, (A -> B) -> M A -> M B;
  im_values : forall A, M A -> list A
}.
Arguments im_mapped {M _ A B} f m.
Arguments im_values {M _ A} m.

Class ImCollectionLaws (M : Type -> Type) `{ImCollection M} : Prop := {
  im_maps_laws :: forall A, ImMapLaws A (M A);
  im_get_mapped A B (f : A -> B) (m : M A) k : im_get (im_mapped f m) k = f <$> im_get m k;
  im_values_spec A (m : M A) v : v ∈ im_values m <-> exists k, im_get m k = Some v
}.

Definition is_map (d : jdata) : bool := match d with DObject _ => true | _ => false end.

(** [d.get(k)] of a map; nothing for a value that is none. *)
Definition mget (d : jdata) (k : jsstr) : option jdata :=
  match d with DObject ps => assoc_get ps k | _ => None end.

(** [d.getIn(path)]. *)
Fixpoint getIn (d : option jdata) (path : list jsstr) : option jdata :=
  match path with
  | [] => d
  | k :: path' => match d with Some d => getIn (mget d k) path' | None => None end
  end.

(** The operations on trees that make new ones: [OrderedMap().mergeWith(f, a, b)], where
    [a] and [b] are maps or missing, and [t.setIn(path, v)], which throws when a value on
    the way is no collection. *)
Class ImTree : Type := {
  merge_with : (jdata -> jdata -> jdata) -> jdata -> jdata -> jdata;
  tree_setIn : jdata -> list jsstr -> jdata -> outcome native_error jdata
}.

Definition map_or_missing (d : jdata) : bool := match d with DObject _ | DUndefined => true | _ => false end.

Class ImTreeLaws `{ImTree} : Prop := {
  merge_with_map f a b : map_or_missing a = true -> map_or_missing b = true -> is_map (merge_with f a b) = true;
  mget_merge_with f a b k : map_or_missing a = true -> map_or_missing b = true ->
    mget (merge_with f a b) k
    = match mget a k, mget b k with
      | Some x, Some y => Some (f x y)
      | Some x, None => Some x
      | None, y => y
      end;
  getIn_tree_setIn t path v t' : tree_setIn t path v = Ret t' -> getIn (Some t') path = Some v
}.

(** The text of a primitive value in a concatenation. *)
Definition text (d : jdata) : jsstr :=
  match d with
  | DString s => s
  | DUndefined => js "undefined"
  | DNull => js "null"
  | DBool b => js (if b then "true" else "false")
  | DNumber n => num_toString n
  | DArray _ | DObject _ => []
  end.

(** [a === b] for primitive values. *)
Definition same_primitive (a b : jdata) : bool :=
  match a, b with
  | DString s, DString t => jseqb s t
  | DUndefined, DUndefined | DNull, DNull => true
  | DBool x, DBool y => Bool.eqb x y
  | DNumber x, DNumber y => num_eqb x y
  | _, _ => false
  end.

(** [/xml/i.test(s)]. *)
Definition lower_unit (c : Z) : Z := if (65 <=? c) && (c <=? 90) then c + 32 else c.

Fixpoint has_xml (s : jsstr) : bool :=
  match s with
  | [] => false
  | _ :: s' => jseqb (lower_unit <$> take 3 s) (js "xml") || has_xml s'
  end.

(** ** The state *)

(** What is kept for a parameter; a field that has not been set is missing. *)
Record pmeta : Type := mkPmeta {
  pm_value : option pvalue;
  pm_value_xml : option pvalue;
  pm_errors : option (list verr)
}.

Definition no_pmeta : pmeta := mkPmeta None None None.

Section spec.
Context {M : Type -> Type} `{ImCollection M} `{ImTree}.
(** The text of [param.hashCode()]. *)
Variable hashCode : jdata -> jsstr.

(** [meta.paths[path][method]]. *)
Record op_meta : Type := mkOpMeta {
  om_parameters : option (M pmeta);
  om_parameter_inclusions : option (M jdata);
  om_consumes_value : jdata;
  om_produces_value : jdata
}.

Definition no_op_meta : op_meta := mkOpMeta None None DUndefined DUndefined.

(** The default scheme is kept beside the schemes of the paths, of which none is called
    [_defaultScheme]. *)
Record spec_state : Type := mkSpec {
  spec_text : jdata;
  spec_url : jdata;
  spec_json : jdata;
  spec_resolved : jdata;
  resolvedSubtrees : jdata;
  meta_paths : M (M op_meta);
  responses : M (M jdata);
  requests : M (M jdata);
  mutatedRequests : M (M jdata);
  defaultScheme : jdata;
  scheme : M (M jdata)
}.
Implicit Types state : spec_state.

Definition with_meta state (m : M (M op_meta)) : spec_state :=
  mkSpec (spec_text state) (spec_url state) (spec_json state) (spec_resolved state) (resolvedSubtrees state) m
    (responses state) (requests state) (mutatedRequests state) (defaultScheme state) (scheme state).

(** [m.getIn([path, method])], [m.setIn([path, method], v)], [m.deleteIn([path, method])]. *)
Definition get2 {A} (m : M (M A)) (path method : jsstr) : option A :=
  mm ← im_get m path; im_get mm method.

Definition set2 {A} (m : M (M A)) (path method : jsstr) (v : A) : M (M A) :=
  im_set m path (im_set (default im_empty (im_get m path)) method v).

Definition delete2 {A} (m : M (M A)) (path method : jsstr) : M (M A) :=
  match im_get m path with
  | Some mm => im_set m path (im_delete mm method)
  | None => m
  end.

Definition op_meta_of state (path method : jsstr) : op_meta := default no_op_meta (get2 (meta_paths state) path method).

Definition parameter_metas state (path method : jsstr) : M pmeta :=
  default im_empty (om_parameters (op_meta_of state path method)).

Definition set_parameter_metas state (path method : jsstr) (ms : M pmeta) : spec_state :=
  let om := op_meta_of state path method in
  with_meta state (set2 (meta_paths state) path method
    (mkOpMeta (Some ms) (om_parameter_inclusions om) (om_consumes_value om) (om_produces_value om))).

(** ** The description *)

(** [mergerFn]; the fuel is the depth of the trees. *)
Fixpoint mergerFn (fuel : nat) (oldVal newVal : jdata) : jdata :=
  match fuel with
  | O => newVal
  | S fuel' =>
      if is_map oldVal && is_map newVal then
        if truthy (default DUndefined (mget newVal (js "$$ref"))) then newVal
        else merge_with (mergerFn fuel') oldVal newVal
      else newVal
  end.

Definition specJsonWithResolvedSubtrees state : jdata :=
  merge_with (mergerFn (S (depth (resolvedSubtrees state)))) (spec_json state) (resolvedSubtrees state).

Definition specJson state : jdata :=
  match spec_json state with DUndefined => DObject [] | d => d end.

Definition isOAS3 (jsSpec : jdata) : bool :=
  match mget jsSpec (js "openapi") with
  | Some (DString v) => jseqb (take 4 v) (js "3.0.") && (4 <? Z.of_nat (length v))
  | _ => false
  end.

Definition isSwagger2 (jsSpec : jdata) : bool :=
  match mget jsSpec (js "swagger") with
  | Some (DString v) => jseqb (take 3 v) (js "2.0")
  | _ => false
  end.

Definition operation_at state (path method : jsstr) : option jdata :=
  getIn (Some (specJsonWithResolvedSubtrees state)) [js "paths"; path; method].

Definition list_items (d : option jdata) : list jdata := match d with Some (DArray es) => es | _ => [] end.

(** The parameters of an operation. *)
Definition opParams state (path method : jsstr) : list jdata :=
  list_items (getIn (Some (specJsonWithResolvedSubtrees state)) [js "paths"; path; method; js "parameters"]).

(** ** Parameters with what was entered *)

Definition p_field (param : jdata) (k : string) : jdata := default DUndefined (mget param (js k)).

(** [name + "." + in], and with the hash of the parameter. *)
Definition name_in (param : jdata) : jsstr := text (p_field param "name") ++ 46 :: text (p_field param "in").

Definition name_in_hash (param : jdata) : jsstr :=
  name_in param ++ js ".hash-" ++ hashCode param.

(** [OrderedMap().merge(currentParam, nameInKeyedMeta, hashKeyedMeta)]: the definition
    and what the later maps put over it. *)
Record merged : Type := mkMerged {
  m_def : jdata;
  m_value : pvalue;
  m_value_xml : pvalue;
  m_errors : option (list verr)
}.

Definition over {A} (o : option pmeta) (field : pmeta -> option A) (below : option A) : option A :=
  match o ≫= field with Some v => Some v | None => below end.

Definition merge_param (currentParam : jdata) (nameInKeyedMeta hashKeyedMeta : option pmeta) : merged :=
  let look field k := default (PData (p_field currentParam k)) (over hashKeyedMeta field (over nameInKeyedMeta field None)) in
  mkMerged currentParam (look pm_value "value") (look pm_value_xml "value_xml")
    (over hashKeyedMeta pm_errors (over nameInKeyedMeta pm_errors None)).

Definition no_merged : merged := mkMerged (DObject []) (PData DUndefined) (PData DUndefined) None.

Definition same_parameter (param curr : jdata) : bool :=
  same_primitive (p_field curr "in") (p_field param "in") && same_primitive (p_field curr "name") (p_field param "name").

(** The empty map that the code passes to [find] is its context, not the value for
    nothing found, so that nothing found is [undefined]. *)
Definition parameterWithMetaByIdentity state (path method : jsstr) (param : jdata) : option merged :=
  let metaParams := parameter_metas state path method in
  let mergedParams :=
    (fun currentParam => merge_param currentParam (im_get metaParams (name_in param)) (im_get metaParams (name_in_hash param)))
      <$> opParams state path method in
  List.find (fun curr => same_parameter param (m_def curr)) mergedParams.

(** Nothing found is passed on, and throws at the first parameter there is. *)
Definition parameterWithMeta state (path method : jsstr) (paramName paramIn : jdata)
    : outcome native_error (option merged) :=
  match List.find (fun param => same_primitive (p_field param "in") paramIn
                                && same_primitive (p_field param "name") paramName)
          (opParams state path method) with
  | Some currentParam => Ret (parameterWithMetaByIdentity state path method currentParam)
  | None =>
      match opParams state path method with
      | [] => Ret None
      | _ :: _ => Throw (TypeError (js "Cannot read property 'get' of undefined"))
      end
  end.

Definition parameterInclusionSettingFor state (path method : jsstr) (paramName paramIn : jsstr) : jdata :=
  default (DBool false)
    (ms ← om_parameter_inclusions (op_meta_of state path method); im_get ms (paramName ++ 46 :: paramIn)).

(** The operation, what is kept for it, and its parameters with theirs. *)
Record with_meta_op : Type := mkWithMeta {
  wm_operation : jdata;
  wm_meta : op_meta;
  wm_parameters : list merged
}.

(** The parameters of the operation are found among them. *)
Definition operationWithMeta state (path method : jsstr) : with_meta_op :=
  let op := default (DObject []) (operation_at state path method) in
  mkWithMeta op (op_meta_of state path method)
    ((fun param => default no_merged (parameterWithMetaByIdentity state path method param))
       <$> list_items (mget op (js "parameters"))).

(** The value of a parameter that is used. *)
Definition used_value (isXml : bool) (p : merged) : pvalue :=
  if isXml && is_string (js "body") (p_field (m_def p) "in") then m_value_xml p else m_value p.

Definition in_name (param : jdata) : jsstr := text (p_field param "in") ++ 46 :: text (p_field param "name").

Definition parameterValues state (path method : jsstr) (isXml : bool) : M pvalue :=
  foldl (fun hash p => im_set hash (in_name (m_def p)) (used_value isXml p)) im_empty
    (wm_parameters (operationWithMeta state path method)).

Definition parametersIncludeIn (parameters : option jdata) (inValue : jdata) : bool :=
  existsb (fun p => is_map p && same_primitive (p_field p "in") inValue) (list_items parameters).

Definition parametersIncludeType (parameters : option jdata) (typeValue : jdata) : bool :=
  existsb (fun p => is_map p && same_primitive (p_field p "type") typeValue) (list_items parameters).

Definition currentProducesFor state (path method : jsstr) : jdata :=
  match operation_at state path method with
  | None => DUndefined
  | Some operation =>
      let currentProducesValue := om_produces_value (op_meta_of state path method) in
      let firstProducesArrayItem := default DNull (head (list_items (mget operation (js "produces")))) in
      if truthy currentProducesValue then currentProducesValue
      else if truthy firstProducesArrayItem then firstProducesArrayItem
      else DString (js "application/json")
  end.

(** The content types of the request and of the response. *)
Definition contentTypeValues state (path method : jsstr) : jdata * jdata :=
  let op := default (DObject []) (operation_at state path method) in
  let consumes_value := om_consumes_value (op_meta_of state path method) in
  let parameters := mget op (js "parameters") in
  let requestContentType :=
    if truthy consumes_value then consumes_value
    else if parametersIncludeType parameters (DString (js "file")) then DString (js "multipart/form-data")
    else if parametersIncludeType parameters (DString (js "formData"))
    then DString (js "application/x-www-form-urlencoded")
    else DUndefined in
  (requestContentType, currentProducesFor state path method).

(** The scheme an address starts with: a letter and then letters, digits, plus, minus and
    dots, all in lower case, up to a colon. *)
Definition scheme_unit (c : Z) : bool :=
  in_range 97 122 c || in_range 48 57 c || (c =? 43) || (c =? 45) || (c =? 46).

Fixpoint scheme_then_colon (s : jsstr) : option jsstr :=
  match s with
  | [] => None
  | c :: s' => if c =? 58 then Some []
               else if scheme_unit c then r ← scheme_then_colon s'; Some (c :: r)
               else None
  end.

Definition match_scheme (s : jsstr) : option jsstr :=
  match s with c :: _ => if in_range 97 122 c then scheme_then_colon s else None | [] => None end.

Definition operationScheme state (path method : jsstr) : outcome native_error jdata :=
  match spec_url state with
  | DString url =>
      let urlScheme := match match_scheme url with Some s => DString s | None => DNull end in
      let own := default DUndefined (get2 (scheme state) path method) in
      Ret (if truthy own then own
           else if truthy (defaultScheme state) then defaultScheme state
           else if truthy urlScheme then urlScheme
           else DString [])
  | _ => Throw (TypeError (js "url.match is not a function"))
  end.

Definition canExecuteScheme state (path method : jsstr) : outcome native_error bool :=
  s ← operationScheme state path method;
  Ret (is_string (js "http") s || is_string (js "https") s).

Definition has_errors (p : pmeta) : bool := match pm_errors p with Some (_ :: _) => true | _ => false end.

Definition validateBeforeExecute state (path method : jsstr) : bool :=
  negb (existsb has_errors (im_values (parameter_metas state path method))).

Definition hasHost state : bool :=
  match mget (specJson state) (js "host") with
  | Some (DString (c :: _)) => negb (c =? 47)
  | _ => false
  end.

Definition responseFor state (path method : jsstr) : jdata := default DNull (get2 (responses state) path method).
Definition requestFor state (path method : jsstr) : jdata := default DNull (get2 (requests state) path method).
Definition mutatedRequestFor state (path method : jsstr) : jdata := default DNull (get2 (mutatedRequests state) path method).

(** ** The reducers *)

Definition UPDATE_SPEC (payload : jdata) state : spec_state :=
  match payload with
  | DString _ =>
      mkSpec payload (spec_url state) (spec_json state) (spec_resolved state) (resolvedSubtrees state) (meta_paths state)
        (responses state) (requests state) (mutatedRequests state) (defaultScheme state) (scheme state)
  | _ => state
  end.

Definition UPDATE_URL (payload : jdata) state : spec_state :=
  mkSpec (spec_text state) (DString (text payload)) (spec_json state) (spec_resolved state) (resolvedSubtrees state)
    (meta_paths state) (responses state) (requests state) (mutatedRequests state) (defaultScheme state) (scheme state).

Definition UPDATE_JSON (payload : jdata) state : spec_state :=
  mkSpec (spec_text state) (spec_url state) payload (spec_resolved state) (resolvedSubtrees state) (meta_paths state)
    (responses state) (requests state) (mutatedRequests state) (defaultScheme state) (scheme state).

Definition UPDATE_RESOLVED (payload : jdata) state : spec_state :=
  mkSpec (spec_text state) (spec_url state) (spec_json state) payload (resolvedSubtrees state) (meta_paths state)
    (responses state) (requests state) (mutatedRequests state) (defaultScheme state) (scheme state).

Definition UPDATE_RESOLVED_SUBTREE (path : list jsstr) (value : jdata) state : outcome native_error spec_state :=
  t ← tree_setIn (resolvedSubtrees state) path value;
  Ret (mkSpec (spec_text state) (spec_url state) (spec_json state) (spec_resolved state) t (meta_paths state)
         (responses state) (requests state) (mutatedRequests state) (defaultScheme state) (scheme state)).

(** The payloads of [changeParam] and of [changeParamByIdentity]. *)
Inductive param_ref : Type :=
| ByName (paramName paramIn : jsstr)
| ByIdentity (param : jdata).

Definition ref_key (r : param_ref) : jsstr :=
  match r with
  | ByName paramName paramIn => paramName ++ 46 :: paramIn
  | ByIdentity param => name_in_hash param
  end.

Definition put_value (isXml : bool) (value : pvalue) (p : pmeta) : pmeta :=
  if isXml then mkPmeta (pm_value p) (Some value) (pm_errors p) else mkPmeta (Some value) (pm_value_xml p) (pm_errors p).

Definition UPDATE_PARAM (path method : jsstr) (r : param_ref) (value : pvalue) (isXml : bool) state : spec_state :=
  let ms := parameter_metas state path method in
  set_parameter_metas state path method
    (im_set ms (ref_key r) (put_value isXml value (default no_pmeta (im_get ms (ref_key r))))).

Definition UPDATE_EMPTY_PARAM_INCLUSION (path method paramName paramIn : jsstr) (includeEmptyValue : jdata) state
    : spec_state :=
  match paramName, paramIn with
  | [], _ | _, [] => state
  | _, _ =>
      let om := op_meta_of state path method in
      let inclusions := default im_empty (om_parameter_inclusions om) in
      with_meta state (set2 (meta_paths state) path method
        (mkOpMeta (om_parameters om) (Some (im_set inclusions (paramName ++ 46 :: paramIn) includeEmptyValue))
           (om_consumes_value om) (om_produces_value om)))
  end.

Definition put_errors (errors : list verr) (p : pmeta) : pmeta := mkPmeta (pm_value p) (pm_value_xml p) (Some errors).

(** A parameter as [validateParam] reads it; bounds and lengths are numbers or missing. *)
Definition number_field (d : jdata) (k : string) : option num :=
  match p_field d k with DNumber n => Some n | _ => None end.

Definition details_of (d : jdata) : details :=
  mkDetails (number_field d "maximum") (number_field d "minimum") (p_field d "type") (p_field d "format")
    (number_field d "maxLength") (number_field d "minLength") (p_field d "pattern")
    (p_field (p_field d "items") "type").

Definition param_of (p : merged) : param :=
  let schema := p_field (m_def p) "schema" in
  mkParam (p_field (m_def p) "in") (m_value p) (m_value_xml p) (p_field (m_def p) "required")
    (if truthy schema then Some (details_of schema) else None) (details_of (m_def p)).

Variable E : engine.

Fixpoint validate_all (isXml oas3 : bool) (ps : list merged) (res : M pmeta) : outcome native_error (M pmeta) :=
  match ps with
  | [] => Ret res
  | p :: ps' =>
      errors ← validateParam E (param_of p) isXml oas3;
      let k := name_in (m_def p) in
      validate_all isXml oas3 ps' (im_set res k (put_errors errors (default no_pmeta (im_get res k))))
  end.

Definition VALIDATE_PARAMS (path method : jsstr) (oas3 : bool) state : outcome native_error spec_state :=
  let isXml := has_xml (text (om_consumes_value (op_meta_of state path method))) in
  match wm_parameters (operationWithMeta state path method) with
  | [] => Ret state
  | ps =>
      ms ← validate_all isXml oas3 ps (parameter_metas state path method);
      Ret (set_parameter_metas state path method ms)
  end.

Definition CLEAR_VALIDATE_PARAMS (path method : jsstr) state : spec_state :=
  match om_parameters (op_meta_of state path method) with
  | None => state
  | Some ms => set_parameter_metas state path method (im_mapped (put_errors []) ms)
  end.

(** [result.headers = result.headers || {}]. *)
Definition with_headers (result : jdata) : jdata :=
  match result with
  | DObject ps =>
      let headers := dget result (js "headers") in
      DObject (dset ps (js "headers") (if truthy headers then headers else DObject []))
  | d => d
  end.

(** The result of a request that failed: the error and the fields of its response. *)
Definition error_result (err : jdata) : outcome native_error jdata :=
  match err with
  | DUndefined | DNull => Throw (TypeError (js "Cannot read property 'name' of undefined"))
  | _ => Ret (DObject (assign_onto [(js "error", DBool true); (js "name", dget err (js "name"));
                                    (js "message", dget err (js "message"));
                                    (js "statusCode", dget err (js "statusCode"))]
                         (dget err (js "response"))))
  end.

(** [is_blob]: whether the data of the response is a [Blob]. *)
Definition SET_RESPONSE (path method : jsstr) (res : jdata) (is_blob : bool) state : outcome native_error spec_state :=
  result ← (if truthy (dget res (js "error")) then error_result (dget res (js "err")) else Ret res);
  let result := with_headers result in
  let result := match result with
                | DObject ps => if is_blob then DObject (assoc_set ps (js "text") (dget res (js "data"))) else result
                | d => d
                end in
  Ret (mkSpec (spec_text state) (spec_url state) (spec_json state) (spec_resolved state) (resolvedSubtrees state)
         (meta_paths state) (set2 (responses state) path method result) (requests state) (mutatedRequests state)
         (defaultScheme state) (scheme state)).

Definition SET_REQUEST (path method : jsstr) (req : jdata) state : spec_state :=
  mkSpec (spec_text state) (spec_url state) (spec_json state) (spec_resolved state) (resolvedSubtrees state)
    (meta_paths state) (responses state) (set2 (requests state) path method req) (mutatedRequests state)
    (defaultScheme state) (scheme state).

Definition SET_MUTATED_REQUEST (path method : jsstr) (req : jdata) state : spec_state :=
  mkSpec (spec_text state) (spec_url state) (spec_json state) (spec_resolved state) (resolvedSubtrees state)
    (meta_paths state) (responses state) (requests state) (set2 (mutatedRequests state) path method req)
    (defaultScheme state) (scheme state).

(** The keys [consumes_value] and [produces_value]. *)
Inductive meta_key : Type := Consumes | Produces.

Definition described (tree : jdata) (path method : jsstr) : bool :=
  truthy (default DUndefined (getIn (Some tree) [js "paths"; path; method])).

Definition UPDATE_OPERATION_META_VALUE (path method : jsstr) (key : meta_key) (value : jdata) state : spec_state :=
  if described (spec_json state) path method || described (spec_resolved state) path method
     || described (resolvedSubtrees state) path method then
    let om := op_meta_of state path method in
    with_meta state (set2 (meta_paths state) path method
      match key with
      | Consumes => mkOpMeta (om_parameters om) (om_parameter_inclusions om) value (om_produces_value om)
      | Produces => mkOpMeta (om_parameters om) (om_parameter_inclusions om) (om_consumes_value om) value
      end)
  else state.

Definition CLEAR_RESPONSE (path method : jsstr) state : spec_state :=
  mkSpec (spec_text state) (spec_url state) (spec_json state) (spec_resolved state) (resolvedSubtrees state)
    (meta_paths state) (delete2 (responses state) path method) (requests state) (mutatedRequests state)
    (defaultScheme state) (scheme state).

Definition CLEAR_REQUEST (path method : jsstr) state : spec_state :=
  mkSpec (spec_text state) (spec_url state) (spec_json state) (spec_resolved state) (resolvedSubtrees state)
    (meta_paths state) (responses state) (delete2 (requests state) path method) (mutatedRequests state)
    (defaultScheme state) (scheme state).

(** With a path and a method, or with neither of them; an empty string is as if it were
    missing.  With only one of them the reducer returns nothing. *)
Definition SET_SCHEME (value : jdata) (path method : jsstr) state : option spec_state :=
  match path, method with
  | _ :: _, _ :: _ =>
      Some (mkSpec (spec_text state) (spec_url state) (spec_json state) (spec_resolved state) (resolvedSubtrees state)
              (meta_paths state) (responses state) (requests state) (mutatedRequests state) (defaultScheme state)
              (set2 (scheme state) path method value))
  | [], [] =>
      Some (mkSpec (spec_text state) (spec_url state) (spec_json state) (spec_resolved state) (resolvedSubtrees state)
              (meta_paths state) (responses state) (requests state) (mutatedRequests state) value (scheme state))
  | _, _ => None
  end.
End spec.
