(* ===== verification/SwaggerSpecTheory.v ===== *)
(** * Swagger UI: what the selectors of the description give

    The values that are read for an operation are the ones that were entered, under the
    keys that were entered, and the parts of the description that have been resolved
    take the place of those they were resolved from. *)

From stdpp Require Import sets.
From S2P Require Import JsPrelude JsNumber JsValue JsImmutable.
From S2P Require Import SwaggerData SwaggerSample SwaggerValidate SwaggerSpec.

(** ** Keys *)

(** Two texts with a mark between two parts are equal only when the parts are, when the
    mark is not in the last parts. *)
Lemma last_mark_inj c (a b a' b' : jsstr) :
  c ∉ b -> c ∉ b' -> a ++ c :: b = a' ++ c :: b' -> a = a' /\ b = b'.
Proof.
  intros Hb Hb' He. revert b' Hb' He. induction b as [|x b IH] using rev_ind; intros b' Hb' He.
  - destruct b' as [|y b' _] using rev_ind; [by apply app_inj_tail in He as [-> _]|].
    rewrite app_comm_cons, app_assoc in He. apply app_inj_tail in He as [_ ->]. set_solver.
  - destruct b' as [|y b' _] using rev_ind.
    { rewrite app_comm_cons, app_assoc in He. apply app_inj_tail in He as [_ ->]. set_solver. }
    rewrite !app_comm_cons, !app_assoc in He. apply app_inj_tail in He as [He ->].
    destruct (IH ltac:(set_solver) b') as [-> ->]; [set_solver|done|done].
Qed.

(** The places a parameter can be in. *)
Definition places : list jsstr :=
  [js "query"; js "path"; js "header"; js "body"; js "formData"; js "cookie"].

Lemma place_unmarked place : place ∈ places -> 46 ∉ place.
Proof.
  assert (Hp : forallb (fun s => negb (existsb (Z.eqb 46) s)) places = true) by reflexivity.
  rewrite forallb_forall in Hp. intros Hin%list_elem_of_In%Hp Hd%list_elem_of_In.
  apply negb_true_iff in Hin. by rewrite (proj2 (existsb_exists _ _) (ex_intro _ 46 (conj Hd eq_refl))) in Hin.
Qed.

Lemma place_no_hash place s : place ∈ places -> place <> js "hash-" ++ s.
Proof.
  assert (Hp : forallb (fun p => match p with 104 :: 97 :: _ => false | _ => true end) places = true) by reflexivity.
  rewrite forallb_forall in Hp. intros Hin%list_elem_of_In%Hp ->. done.
Qed.

(** A parameter as descriptions have them: its name is a string and its place is one of
    the places. *)
Definition proper_param (p : jdata) : Prop :=
  exists name place, p_field p "name" = DString name /\ p_field p "in" = DString place /\ place ∈ places.

(** The parameters of an operation: no two with one name in one place. *)
Definition proper_params (ps : list jdata) : Prop := Forall proper_param ps /\ NoDup (in_name <$> ps).

Lemma same_parameter_keys p q : proper_param p -> proper_param q ->
  (same_parameter p q = true <-> in_name p = in_name q) /\ (name_in p = name_in q <-> in_name p = in_name q).
Proof.
  intros (n & i & Hn & Hi & Hp) (n' & i' & Hn' & Hi' & Hp').
  unfold same_parameter, in_name, name_in. rewrite Hn, Hi, Hn', Hi'. cbn [text same_primitive].
  rewrite andb_true_iff, !jseqb_eq.
  assert (Hin : i ++ 46 :: n = i' ++ 46 :: n' -> i = i' /\ n = n').
  { intros E%(f_equal reverse). rewrite !reverse_app, !reverse_cons, <- !app_assoc in E.
    apply last_mark_inj in E as [E1 E2]; [|by rewrite elem_of_reverse; apply place_unmarked..].
    split; by apply (inj reverse). }
  split; [split; [by intros [-> ->]|intros E; by apply Hin in E as [-> ->]]|].
  split; [intros E; apply last_mark_inj in E as [-> ->]; [done|by apply place_unmarked..]|].
  intros E. by apply Hin in E as [-> ->].
Qed.

Section keys.
Variable hashCode : jdata -> jsstr.
Hypothesis hashCode_text : forall p, 46 ∉ hashCode p.

Lemma name_in_not_hash p q : proper_param p -> name_in p <> name_in_hash hashCode q.
Proof.
  intros (n & i & Hn & Hi & Hp) E. unfold name_in_hash in E. unfold name_in at 1 in E. rewrite Hn, Hi in E.
  change (js ".hash-" ++ ?s) with (46 :: js "hash-" ++ s) in E. apply last_mark_inj in E as [_ E].
  - by apply (place_no_hash _ _ Hp) in E.
  - by apply place_unmarked.
  - pose proof (hashCode_text q). rewrite not_elem_of_app. split; [|done]. by apply (bool_decide_unpack (46 ∉ js "hash-")).
Qed.

Lemma name_in_hash_inj p q : proper_param p -> proper_param q ->
  name_in_hash hashCode p = name_in_hash hashCode q -> in_name p = in_name q.
Proof.
  intros Hp Hq E. unfold name_in_hash in E. change (js ".hash-" ++ ?s) with (46 :: js "hash-" ++ s) in E.
  apply last_mark_inj in E as [E _]; [by apply same_parameter_keys|..];
    rewrite not_elem_of_app; (split; [by apply (bool_decide_unpack (46 ∉ js "hash-"))|done]).
Qed.
End keys.

(** ** The state *)

Section state.
Context {M : Type -> Type} `{ImCollectionLaws M} `{ImTreeLaws}.
Implicit Types state : spec_state (M := M).

Lemma get2_set2 {A} (m : M (M A)) path method path' method' v :
  get2 (set2 m path method v) path' method'
  = if jseqb path path' && jseqb method method' then Some v else get2 m path' method'.
Proof.
  unfold get2, set2. rewrite im_get_set. destruct (jseqb path path') eqn:E; [|done]. apply jseqb_eq in E as <-.
  cbn [mbind option_bind]. rewrite im_get_set. destruct (jseqb method method'); [done|].
  destruct (im_get m path); [done|]. apply im_get_empty.
Qed.

Lemma op_meta_of_set state path method ms path' method' :
  op_meta_of (set_parameter_metas state path method ms) path' method'
  = let om := op_meta_of state path' method' in
    if jseqb path path' && jseqb method method'
    then mkOpMeta (Some ms) (om_parameter_inclusions om) (om_consumes_value om) (om_produces_value om) else om.
Proof.
  unfold op_meta_of, set_parameter_metas. simpl. rewrite get2_set2.
  destruct (jseqb path path') eqn:E1; [|done]. destruct (jseqb method method') eqn:E2; [|done].
  apply jseqb_eq in E1 as <-, E2 as <-. done.
Qed.

Lemma parameter_metas_set state path method ms path' method' :
  parameter_metas (set_parameter_metas state path method ms) path' method'
  = if jseqb path path' && jseqb method method' then ms else parameter_metas state path' method'.
Proof. unfold parameter_metas. rewrite op_meta_of_set. by destruct (jseqb path path' && jseqb method method'). Qed.

Lemma opParams_set state path method ms path' method' :
  opParams (set_parameter_metas state path method ms) path' method' = opParams state path' method'.
Proof. done. Qed.

Lemma getIn_none path : getIn None path = None.
Proof. by destruct path. Qed.

Lemma getIn_app d path path' : getIn d (path ++ path') = getIn (getIn d path) path'.
Proof.
  revert d. induction path as [|k path IH]; intros d; [done|]. simpl. destruct d; [apply IH|]. by rewrite getIn_none.
Qed.

Lemma operation_parameters state path method :
  list_items (mget (default (DObject []) (operation_at state path method)) (js "parameters"))
  = opParams state path method.
Proof.
  unfold opParams, operation_at.
  change [js "paths"; path; method; js "parameters"] with ([js "paths"; path; method] ++ [js "parameters"]).
  rewrite getIn_app. by destruct (getIn _ [js "paths"; path; method]).
Qed.

(** ** The values of the parameters *)

Section values.
Context (hashCode : jdata -> jsstr) (hashCode_text : forall p, 46 ∉ hashCode p).

(** A parameter of the operation with what is kept for it. *)
Definition entered state path method (p : jdata) : merged :=
  let ms := parameter_metas state path method in
  merge_param p (im_get ms (name_in p)) (im_get ms (name_in_hash hashCode p)).

Lemma m_def_merge p a b : m_def (merge_param p a b) = p.
Proof. done. Qed.

Lemma find_unique {A B} (f : A -> B) (test : B -> bool) (l : list A) x :
  x ∈ l -> test (f x) = true -> (forall y, y ∈ l -> test (f y) = true -> y = x) ->
  List.find test (f <$> l) = Some (f x).
Proof.
  intros Hx Ht. induction Hx as [x l|x y l Hx IH]; intros Hu; simpl; [by rewrite Ht|].
  destruct (test (f y)) eqn:E.
  - by rewrite (Hu y (list_elem_of_here _ _) E).
  - apply IH; [done|]. intros z Hz. by apply Hu, list_elem_of_further.
Qed.

Lemma proper_unique ps p q : proper_params ps -> p ∈ ps -> q ∈ ps -> in_name p = in_name q -> q = p.
Proof.
  intros [_ Hn] Hp Hq E. apply list_elem_of_lookup in Hp as [i Hi], Hq as [j Hj].
  assert (i = j) as ->; [|congruence]. apply (NoDup_lookup _ i j (in_name p) Hn); rewrite list_lookup_fmap.
  - by rewrite Hi.
  - rewrite Hj. simpl. by rewrite E.
Qed.

Lemma by_identity state path method p : proper_params (opParams state path method) -> p ∈ opParams state path method ->
  parameterWithMetaByIdentity hashCode state path method p = Some (entered state path method p).
Proof.
  intros Hps Hp. unfold parameterWithMetaByIdentity. destruct (Hps) as [Hall _]. rewrite Forall_forall in Hall.
  rewrite (find_unique _ _ _ p Hp); [done|..].
  - rewrite m_def_merge. by apply same_parameter_keys; [apply Hall..|].
  - intros q Hq Hs. rewrite m_def_merge in Hs.
    apply (proper_unique _ _ _ Hps Hp Hq). apply same_parameter_keys in Hs; [done|by apply Hall..].
Qed.

(** A parameter of the operation is found, whatever the others are called. *)
Lemma parameter_found state path method p : p ∈ opParams state path method -> same_parameter p p = true ->
  is_Some (parameterWithMetaByIdentity hashCode state path method p).
Proof.
  intros Hp Hs. unfold parameterWithMetaByIdentity. destruct (List.find _ _) eqn:E; [by eexists|].
  exfalso. eapply find_none in E; [|apply list_elem_of_In, list_elem_of_fmap_2, Hp].
  rewrite m_def_merge in E. congruence.
Qed.

Lemma with_meta_parameters state path method : proper_params (opParams state path method) ->
  wm_parameters (operationWithMeta hashCode state path method) = entered state path method <$> opParams state path method.
Proof.
  intros Hps. unfold operationWithMeta. cbn [wm_parameters]. rewrite operation_parameters.
  apply list_fmap_ext. intros i p Hp%list_elem_of_lookup_2. by rewrite by_identity.
Qed.

Lemma fold_set_get {A B} (f : A -> jsstr) (g : A -> B) (l : list A) (m : M B) k :
  NoDup (f <$> l) ->
  im_get (foldl (fun hash x => im_set hash (f x) (g x)) m l) k
  = match List.find (fun x => jseqb (f x) k) l with Some x => Some (g x) | None => im_get m k end.
Proof.
  revert m. induction l as [|x l IH]; intros m Hn; [done|]. cbn [foldl List.find].
  rewrite fmap_cons, NoDup_cons in Hn. destruct Hn as [Hx Hn]. rewrite IH by done.
  destruct (jseqb (f x) k) eqn:E.
  - apply jseqb_eq in E as <-. destruct (List.find _ l) as [y|] eqn:F; [|by rewrite im_get_set, jseqb_refl].
    apply find_some in F as [Hy Ey%jseqb_eq]. destruct Hx. rewrite <- Ey. by apply list_elem_of_fmap_2, list_elem_of_In.
  - destruct (List.find _ l); [done|]. by rewrite im_get_set, E.
Qed.

(** The values that are read: for every parameter of the operation the value entered. *)
Lemma parameterValues_get state path method isXml k : proper_params (opParams state path method) ->
  im_get (parameterValues hashCode state path method isXml) k
  = (fun p => used_value isXml (entered state path method p))
      <$> List.find (fun p => jseqb (in_name p) k) (opParams state path method).
Proof.
  intros Hps. unfold parameterValues. rewrite with_meta_parameters by done.
  rewrite (foldl_fmap (fun (hash : M pvalue) q => im_set hash (in_name (m_def q)) (used_value isXml q))).
  rewrite (fold_set_get in_name (fun p => used_value isXml (entered state path method p))) by apply Hps.
  rewrite im_get_empty. by destruct (List.find _ _).
Qed.

(** The field a value is kept in, and the one that is read for a parameter. *)
Definition slot (xml : bool) : pmeta -> option pvalue := if xml then pm_value_xml else pm_value.

Definition read_slot (isXml : bool) (p : jdata) : bool := isXml && is_string (js "body") (p_field p "in").

Lemma slot_put_value b isXml v pm : slot b (put_value isXml v pm) = if Bool.eqb b isXml then Some v else slot b pm.
Proof. by destruct b, isXml. Qed.

(** The value kept under the hash of a parameter, and the one kept under its name. *)
Definition hash_value state path method (b : bool) (p : jdata) : option pvalue :=
  im_get (parameter_metas state path method) (name_in_hash hashCode p) ≫= slot b.

Definition name_value state path method (b : bool) (p : jdata) : option pvalue :=
  im_get (parameter_metas state path method) (name_in p) ≫= slot b.

Lemma used_entered state path method isXml p :
  let b := read_slot isXml p in
  used_value isXml (entered state path method p)
  = default (PData (p_field p (if b then "value_xml" else "value")))
      (match hash_value state path method b p with Some v => Some v | None => name_value state path method b p end).
Proof.
  unfold used_value, entered, hash_value, name_value, read_slot. rewrite m_def_merge.
  destruct (isXml && is_string (js "body") (p_field p "in")); simpl; unfold over;
    destruct (im_get (parameter_metas state path method) (name_in_hash hashCode p) ≫= _); try done;
    by destruct (im_get (parameter_metas state path method) (name_in p) ≫= _).
Qed.

(** A parameter under its name. *)
Definition by_name (p : jdata) : param_ref := ByName (text (p_field p "name")) (text (p_field p "in")).

Lemma metas_update state path method r v isXml path' method' k :
  im_get (parameter_metas (UPDATE_PARAM hashCode path method r v isXml state) path' method') k
  = let ms := parameter_metas state path' method' in
    if jseqb path path' && jseqb method method' && jseqb (ref_key hashCode r) k
    then Some (put_value isXml v (default no_pmeta (im_get ms k))) else im_get ms k.
Proof.
  unfold UPDATE_PARAM. rewrite parameter_metas_set. cbv zeta.
  destruct (jseqb path path') eqn:E1; [|done]. destruct (jseqb method method') eqn:E2; [|done].
  apply jseqb_eq in E1 as <-, E2 as <-. cbn [andb]. rewrite im_get_set.
  destruct (jseqb _ k) eqn:E; [|done]. by apply jseqb_eq in E as <-.
Qed.

Lemma slot_update state path method r v isXml path' method' k b :
  im_get (parameter_metas (UPDATE_PARAM hashCode path method r v isXml state) path' method') k ≫= slot b
  = if jseqb path path' && jseqb method method' && jseqb (ref_key hashCode r) k && Bool.eqb b isXml
    then Some v else im_get (parameter_metas state path' method') k ≫= slot b.
Proof.
  rewrite metas_update. cbv zeta. destruct (jseqb path path' && _ && _); [|done]. simpl. rewrite slot_put_value.
  destruct (Bool.eqb b isXml); [done|]. destruct (im_get _ k); [done|]. by destruct b.
Qed.

(** What an update does to the value that is read for the parameter it is made for. *)
Lemma update_by_identity state path method p v isXml isXml' : proper_param p ->
  used_value isXml' (entered (UPDATE_PARAM hashCode path method (ByIdentity p) v isXml state) path method p)
  = if Bool.eqb (read_slot isXml' p) isXml then v else used_value isXml' (entered state path method p).
Proof.
  intros Hp. rewrite !used_entered. cbv zeta. unfold hash_value, name_value. rewrite !slot_update.
  rewrite !jseqb_refl. cbn [ref_key andb].
  rewrite (proj2 (jseqb_neq (name_in_hash hashCode p) (name_in p))) by (symmetry; eapply name_in_not_hash; eauto).
  by destruct (Bool.eqb _ isXml).
Qed.

Lemma update_by_name state path method p v isXml isXml' : proper_param p ->
  used_value isXml' (entered (UPDATE_PARAM hashCode path method (by_name p) v isXml state) path method p)
  = if Bool.eqb (read_slot isXml' p) isXml && bool_decide (hash_value state path method isXml p = None)
    then v else used_value isXml' (entered state path method p).
Proof.
  intros Hp. rewrite !used_entered. cbv zeta. unfold hash_value, name_value. rewrite !slot_update.
  rewrite !jseqb_refl. change (ref_key hashCode (by_name p)) with (name_in p). rewrite ?jseqb_refl. cbn [andb].
  rewrite (proj2 (jseqb_neq (name_in p) (name_in_hash hashCode p))) by (eapply name_in_not_hash; eauto).
  cbn [andb]. destruct (Bool.eqb (read_slot isXml' p) isXml) eqn:E; [|done]. apply eqb_prop in E as ->.
  by destruct (im_get _ (name_in_hash hashCode p) ≫= slot isXml).
Qed.

(** It changes nothing else. *)
Lemma update_others state path method r p v isXml isXml' path' method' q :
  proper_param p -> proper_param q -> r = ByIdentity p \/ r = by_name p ->
  jseqb path path' && jseqb method method' = false \/ in_name p <> in_name q ->
  used_value isXml' (entered (UPDATE_PARAM hashCode path method r v isXml state) path' method' q)
  = used_value isXml' (entered state path' method' q).
Proof.
  intros Hp Hq Hr Ho. rewrite !used_entered. cbv zeta. unfold hash_value, name_value. rewrite !slot_update.
  destruct (jseqb path path' && jseqb method method'); [|done]. destruct Ho as [|Ho]; [done|].
  assert (Hk : jseqb (ref_key hashCode r) (name_in q) = false /\ jseqb (ref_key hashCode r) (name_in_hash hashCode q) = false).
  { rewrite !jseqb_neq. destruct Hr as [-> | ->].
    - split; [symmetry; by apply name_in_not_hash|]. intros E. by apply Ho, (name_in_hash_inj hashCode).
    - split; [|by apply name_in_not_hash]. intros E. by apply Ho, same_parameter_keys. }
  by rewrite (proj1 Hk), (proj2 Hk).
Qed.

Lemma find_param ps p : proper_params ps -> p ∈ ps -> List.find (fun q => jseqb (in_name q) (in_name p)) ps = Some p.
Proof.
  intros Hps Hp. rewrite <- (list_fmap_id ps). apply (find_unique id); [done|apply jseqb_refl|].
  intros q Hq E%jseqb_eq. by eapply proper_unique.
Qed.

Lemma values_of_others state path method r p v isXml isXml' path' method' k :
  proper_params (opParams state path' method') -> proper_param p -> r = ByIdentity p \/ r = by_name p ->
  jseqb path path' && jseqb method method' = false \/ in_name p <> k ->
  im_get (parameterValues hashCode (UPDATE_PARAM hashCode path method r v isXml state) path' method' isXml') k
  = im_get (parameterValues hashCode state path' method' isXml') k.
Proof.
  intros Hps Hp Hr Ho. rewrite !parameterValues_get by done.
  change (opParams (UPDATE_PARAM _ _ _ _ _ _ _) path' method') with (opParams state path' method').
  destruct (List.find _ (opParams state path' method')) as [q|] eqn:E; [|done].
  apply find_some in E as [Hq%list_elem_of_In Ek%jseqb_eq]. simpl. f_equal. subst k.
  destruct Hps as [Hall _]. rewrite Forall_forall in Hall. apply (update_others _ _ _ _ p); auto.
Qed.
End values.

(** ** Resolved parts *)

Lemma mergerFn_getIn fuel old new path v :
  (depth new <= fuel)%nat -> getIn (Some new) path = Some v -> is_map v = false ->
  getIn (Some (mergerFn fuel old new)) path = Some v.
Proof.
  revert old new path. induction fuel as [|fuel IH]; intros old new path Hf Hg Hv; [done|]. cbn [mergerFn].
  destruct (is_map old && is_map new) eqn:E; [|done]. apply andb_true_iff in E as [Eo En].
  destruct (truthy _); [done|]. destruct path as [|k path]; [simpl in Hg; congruence|]. cbn [getIn] in Hg |- *.
  destruct old as [| | | | | |ps]; try done. destruct new as [| | | | | |ps']; try done. rewrite mget_merge_with by done.
  destruct (mget (DObject ps') k) as [y|] eqn:Ey; [|by rewrite getIn_none in Hg].
  destruct (mget (DObject ps) k) as [x|] eqn:Ex; [|done]. apply IH; [|done|done].
  pose proof (depth_prop ps' k y Ey). lia.
Qed.

(** What has been resolved is what is read, except where it is a map. *)
Lemma resolved_getIn state path v : path <> [] ->
  map_or_missing (spec_json state) = true -> map_or_missing (resolvedSubtrees state) = true ->
  getIn (Some (resolvedSubtrees state)) path = Some v -> is_map v = false ->
  getIn (Some (specJsonWithResolvedSubtrees state)) path = Some v.
Proof.
  intros Hne Hj Hr Hg Hv. destruct path as [|k path]; [done|]. unfold specJsonWithResolvedSubtrees.
  cbn [getIn] in Hg |- *. rewrite mget_merge_with by done.
  destruct (mget (resolvedSubtrees state) k) as [y|] eqn:Ey; [|by rewrite getIn_none in Hg].
  destruct (mget (spec_json state) k) as [x|] eqn:Ex; [|done]. apply mergerFn_getIn; [|done|done].
  destruct (resolvedSubtrees state); try done. pose proof (depth_prop _ _ _ Ey). lia.
Qed.

(** Where nothing has been resolved, the description is read. *)
Lemma unresolved_getIn state k path :
  map_or_missing (spec_json state) = true -> map_or_missing (resolvedSubtrees state) = true ->
  mget (resolvedSubtrees state) k = None ->
  getIn (Some (specJsonWithResolvedSubtrees state)) (k :: path) = getIn (Some (spec_json state)) (k :: path).
Proof.
  intros Hj Hr Hn. unfold specJsonWithResolvedSubtrees. cbn [getIn]. rewrite mget_merge_with by done.
  rewrite Hn. by destruct (mget (spec_json state) k).
Qed.
End state.

(** ** One implementation *)

(** Association lists as the maps, and a tree whose parts are resolved in place. *)
#[export] Instance assoc_ImCollection : ImCollection (fun A => list (jsstr * A)) := {
  im_maps A := assoc_ImMap A;
  im_mapped A B f m := (fun kv => (kv.1, f kv.2)) <$> m;
  im_values A m := omap (fun k => assoc_get m k) m.*1
}.

#[export] Instance assoc_ImCollectionLaws : ImCollectionLaws (fun A => list (jsstr * A)).
Proof.
  split; [exact assoc_ImMapLaws|..].
  - intros A B f m k. induction m as [|[k' v] m IH]; [done|]. simpl. by destruct (jseqb k' k).
  - intros A m v. change (@im_get A (list (jsstr * A)) _) with (@assoc_get A). unfold im_values. simpl.
    rewrite list_elem_of_omap. split.
    + intros (k & _ & Hk). by exists k.
    + intros (k & Hk). exists k. split; [|done]. by apply assoc_get_Some_key.
Qed.

Definition assoc_merge (f : jdata -> jdata -> jdata) (a b : jdata) : jdata :=
  let props d := match d with DObject ps => ps | _ => [] end in
  DObject (foldl (fun acc kv => assoc_set acc kv.1
                    match assoc_get (props a) kv.1 with Some x => f x kv.2 | None => kv.2 end)
             (props a) (rev (props b))).

Fixpoint assoc_setIn (t : jdata) (path : list jsstr) (v : jdata) : outcome native_error jdata :=
  match path with
  | [] => Ret v
  | k :: path' =>
      match t with
      | DObject ps => t' ← assoc_setIn (default DUndefined (assoc_get ps k)) path' v; Ret (DObject (assoc_set ps k t'))
      | DUndefined => t' ← assoc_setIn DUndefined path' v; Ret (DObject [(k, t')])
      | _ => Throw (TypeError (js "invalid keyPath"))
      end
  end.

#[export] Instance assoc_ImTree : ImTree := { merge_with := assoc_merge; tree_setIn := assoc_setIn }.

Lemma assoc_merged (g : jsstr -> jdata -> jdata) acc bs k :
  assoc_get (foldl (fun acc kv => assoc_set acc kv.1 (g kv.1 kv.2)) acc (rev bs)) k
  = match assoc_get bs k with Some y => Some (g k y) | None => assoc_get acc k end.
Proof.
  induction bs as [|[k' y] bs IH]; [done|]. cbn [rev]. rewrite foldl_app. simpl. rewrite assoc_get_set, IH.
  destruct (jseqb k' k) eqn:E; [|done]. by apply jseqb_eq in E as ->.
Qed.

#[export] Instance assoc_ImTreeLaws : ImTreeLaws.
Proof.
  split; [done|..].
  - intros f a b k _ _. simpl. unfold assoc_merge.
    rewrite (assoc_merged (fun k' y => match assoc_get _ k' with Some x => f x y | None => y end)).
    destruct a, b; simpl; try done; repeat destruct (assoc_get _ k); done.
  - intros t path. revert t. induction path as [|k path IH]; intros t v t'; [by intros [= ->]|]. simpl. intros Ht.
    destruct t as [| | | | | |ps]; try done.
    + destruct (assoc_setIn DUndefined path v) as [t1| |] eqn:E; try done. injection Ht as <-. simpl.
      rewrite jseqb_refl. by eapply IH.
    + destruct (assoc_setIn _ path v) as [t1| |] eqn:E; try done. injection Ht as <-. simpl.
      rewrite assoc_get_set, jseqb_refl. by eapply IH.
Qed.

(** C8: The values the page sends for an operation are the values that were entered.  A
    value entered for a parameter, under its identity, is from then on the value read
    for it, in the request that is made for its kind of body; a value entered under its
    name and place is read as long as none is kept under its identity, which else
    hides it.  No other value of the operation is changed, and none of another
    operation. *)
Theorem entered_values {M : Type -> Type} `{ImCollectionLaws M} `{ImTree} (hashCode : jdata -> jsstr)
    (state : spec_state (M := M)) (path method : jsstr) (p : jdata) (v : pvalue) (isXml isXml' : bool) :
  (forall q, 46 ∉ hashCode q) -> proper_params (opParams state path method) -> p ∈ opParams state path method ->
  let read s path method := im_get (parameterValues hashCode s path method isXml') in
  let update r := UPDATE_PARAM hashCode path method r v isXml state in
  let wrote := Bool.eqb (read_slot isXml' p) isXml in
  let hidden := negb (bool_decide (hash_value hashCode state path method isXml p = None)) in
  read (update (ByIdentity p)) path method (in_name p)
    = (if wrote then Some v else read state path method (in_name p)) /\
  read (update (by_name p)) path method (in_name p)
    = (if wrote && negb hidden then Some v else read state path method (in_name p)) /\
  (forall r, r = ByIdentity p \/ r = by_name p ->
     (forall k, k <> in_name p -> read (update r) path method k = read state path method k) /\
     (forall path' method' k, (path', method') <> (path, method) -> proper_params (opParams state path' method') ->
        read (update r) path' method' k = read state path' method' k)).
Proof.
  intros Hh Hps Hp read update wrote hidden.
  assert (Hpp : proper_param p) by (destruct Hps as [Hall _]; rewrite Forall_forall in Hall; auto).
  assert (Hr : forall s, opParams s path method = opParams state path method ->
                 read s path method (in_name p) = Some (used_value isXml' (entered hashCode s path method p))).
  { intros s Es. unfold read. rewrite parameterValues_get by (by rewrite Es). by rewrite Es, find_param. }
  split_and!.
  - rewrite !Hr by done. unfold update. rewrite update_by_identity by done. unfold wrote. by destruct (Bool.eqb _ _).
  - rewrite !Hr by done. unfold update. rewrite update_by_name by done. unfold hidden. rewrite negb_involutive.
    unfold wrote. by destruct (_ && _).
  - intros r Hor. split; intros; apply (values_of_others _ Hh _ _ _ _ p); auto.
    left. apply not_true_iff_false. intros [->%jseqb_eq ->%jseqb_eq]%andb_true_iff. done.
Qed.

Lemma entered_values_witness :
  let p := DObject [(js "name", DString (js "height")); (js "in", DString (js "query"))] in
  let json := DObject [(js "paths", DObject [(js "/blocks", DObject [(js "get", DObject [(js "parameters", DArray [p])])])])] in
  let state := mkSpec (M := fun A => list (jsstr * A)) DUndefined DUndefined json DUndefined DUndefined [] [] [] [] DUndefined [] in
  let entered := UPDATE_PARAM (fun _ => js "1") (js "/blocks") (js "get") (by_name p) (PData (DString (js "12"))) false state in
  im_get (parameterValues (fun _ => js "1") entered (js "/blocks") (js "get") false) (js "query.height")
  = Some (PData (DString (js "12"))).
Proof.
  intros p json state entered.
  assert (Hp : opParams state (js "/blocks") (js "get") = [p]) by (vm_compute; reflexivity).
  refine (proj1 (proj2 (entered_values (fun _ => js "1") state (js "/blocks") (js "get") p
    (PData (DString (js "12"))) false false _ _ _))).
  - intros _. apply (bool_decide_unpack (46 ∉ js "1")). vm_compute. exact I.
  - rewrite Hp. split; [|apply NoDup_singleton]. constructor; [|constructor]. exists (js "height"), (js "query").
    split; [reflexivity|]. split; [reflexivity|]. apply list_elem_of_here.
  - rewrite Hp. apply list_elem_of_here.
Defined.

(** C18: A part of the description that has been resolved is read instead of what it was
    resolved from.  Once an operation has been resolved its parameters are those of the
    resolved operation, and whatever else is not a map on the way is the resolved one;
    when the resolved parts are thrown away, the description is read as it was loaded. *)
Theorem resolved_parts_are_read {M : Type -> Type} `{ImCollection M} `{ImTreeLaws}
    (state state' : spec_state (M := M)) (path method : jsstr) (value : jdata) :
  map_or_missing (spec_json state) = true ->
  (UPDATE_RESOLVED_SUBTREE [js "paths"; path; method] value state = Ret state' ->
   (forall ps, mget value (js "parameters") = Some (DArray ps) -> opParams state' path method = ps) /\
   (forall keys v, keys <> [] -> getIn (Some value) keys = Some v -> is_map v = false ->
      getIn (Some (specJsonWithResolvedSubtrees state')) (js "paths" :: path :: method :: keys) = Some v)) /\
  (UPDATE_RESOLVED_SUBTREE [] (DObject []) state = Ret state' ->
   forall keys, keys <> [] ->
     getIn (Some (specJsonWithResolvedSubtrees state')) keys = getIn (Some (spec_json state)) keys).
Proof.
  intros Hj. unfold UPDATE_RESOLVED_SUBTREE. split; intros E.
  - destruct (tree_setIn _ _ value) as [t| |] eqn:Et; try done. injection E as <-. apply getIn_tree_setIn in Et.
    assert (Hk : forall keys v, getIn (Some value) keys = Some v -> is_map v = false ->
      getIn (Some (merge_with (mergerFn (S (depth t))) (spec_json state) t)) ([js "paths"; path; method] ++ keys) = Some v).
    { intros keys v Hv Hm.
      apply (resolved_getIn (mkSpec (spec_text state) (spec_url state) (spec_json state) (spec_resolved state) t
        (meta_paths state) (responses state) (requests state) (mutatedRequests state) (defaultScheme state) (scheme state)));
        [done|done| |by rewrite getIn_app; cbn [resolvedSubtrees]; rewrite Et|done].
      cbn [resolvedSubtrees]. destruct t; done. }
    split; [|intros keys v _; apply Hk]. intros ps Hps.
    exact (f_equal list_items (Hk [js "parameters"] (DArray ps) Hps eq_refl)).
  - destruct (tree_setIn _ [] _) as [t| |] eqn:Et; try done. injection E as <-. apply getIn_tree_setIn in Et.
    injection Et as ->. intros keys Hne. destruct keys as [|k keys]; [done|]. by rewrite unresolved_getIn.
Qed.

Lemma resolved_parts_are_read_witness :
  let p := DObject [(js "name", DString (js "height")); (js "in", DString (js "query"))] in
  let operation ps := DObject [(js "parameters", DArray ps)] in
  let json := DObject [(js "paths", DObject [(js "/blocks", DObject [(js "get", operation [])])])] in
  let state := mkSpec (M := fun A => list (jsstr * A)) DUndefined DUndefined json DUndefined DUndefined [] [] [] [] DUndefined [] in
  exists state', UPDATE_RESOLVED_SUBTREE [js "paths"; js "/blocks"; js "get"] (operation [p]) state = Ret state' /\
    opParams state' (js "/blocks") (js "get") = [p].
Proof.
  intros p operation json state. eexists. split; [reflexivity|].
  exact (proj1 (proj1 (resolved_parts_are_read state _ (js "/blocks") (js "get") (operation [p]) eq_refl) eq_refl)
    [p] eq_refl).
Defined.
