(* ===== verification/SwaggerExecute.v ===== *)
(** * Swagger UI: executing an operation

    The state of the plugin for descriptions of version 3, the actions [execute] and
    [executeRequest] of the plugin [spec], and the button that validates what was
    entered, and executes when there are no errors.  Building and sending the request
    is done by the package swagger-client, which is not part of the sources; what it is
    given is modelled here, and what it answers is put into the state. *)

From stdpp Require Import sets.
From S2P Require Import JsPrelude JsNumber JsValue JsImmutable SwaggerData JsJson.
From S2P Require Import SwaggerAuth SwaggerValidate SwaggerSpec SwaggerSpecTheory.

(** A body that was entered: plain data, or a collection of the package. *)
Inductive body_value : Type :=
| BData (d : jdata)
| BTree (d : jdata).

Definition body_truthy (b : body_value) : bool := match b with BData d => truthy d | BTree _ => true end.

(** The value when the text is an object or an array in JSON. *)
Definition isJSONObject (b : body_value) : option jdata :=
  match b with
  | BData (DString s) => match JSON_parse s with Ret o => if isObject o then Some o else None | _ => None end
  | _ => None
  end.

Section execute.
Context {M : Type -> Type} `{ImCollection M} `{ImTree}.

(** ** The state for descriptions of version 3 *)

(** A server and the values of its variables, for every server. *)
Record server_choice : Type := mkChoice {
  sc_selectedServer : jdata;
  sc_serverVariableValues : M (M jdata)
}.

Definition no_choice : server_choice := mkChoice DUndefined im_empty.

Record request_data : Type := mkRequestData {
  rd_bodyValue : body_value;
  rd_requestContentType : jdata;
  rd_responseContentType : jdata
}.

Definition no_request_data : request_data := mkRequestData (BData DUndefined) DUndefined DUndefined.

(** The choice for all operations is kept beside the choices of the namespaces, of which
    none has the name of a field. *)
Record oas3_state : Type := mkOas3 {
  global_choice : server_choice;
  namespaces : M server_choice;
  requestData : M (M request_data)
}.
Implicit Types ostate : oas3_state.

(** An empty namespace is none. *)
Definition choice_of ostate (namespace : jsstr) : server_choice :=
  match namespace with [] => global_choice ostate | _ => default no_choice (im_get (namespaces ostate) namespace) end.

Definition set_choice ostate (namespace : jsstr) (c : server_choice) : oas3_state :=
  match namespace with
  | [] => mkOas3 c (namespaces ostate) (requestData ostate)
  | _ => mkOas3 (global_choice ostate) (im_set (namespaces ostate) namespace c) (requestData ostate)
  end.

Definition request_data_of ostate (path method : jsstr) : request_data :=
  default no_request_data (get2 (requestData ostate) path method).

Definition set_request_data ostate (path method : jsstr) (d : request_data) : oas3_state :=
  mkOas3 (global_choice ostate) (namespaces ostate) (set2 (requestData ostate) path method d).

Definition UPDATE_SELECTED_SERVER (selectedServerUrl : jdata) (namespace : jsstr) ostate : oas3_state :=
  set_choice ostate namespace (mkChoice selectedServerUrl (sc_serverVariableValues (choice_of ostate namespace))).

Definition UPDATE_REQUEST_BODY_VALUE (value : body_value) (path method : jsstr) ostate : oas3_state :=
  let d := request_data_of ostate path method in
  set_request_data ostate path method (mkRequestData value (rd_requestContentType d) (rd_responseContentType d)).

Definition UPDATE_REQUEST_CONTENT_TYPE (value : jdata) (path method : jsstr) ostate : oas3_state :=
  let d := request_data_of ostate path method in
  set_request_data ostate path method (mkRequestData (rd_bodyValue d) value (rd_responseContentType d)).

Definition UPDATE_RESPONSE_CONTENT_TYPE (value : jdata) (path method : jsstr) ostate : oas3_state :=
  let d := request_data_of ostate path method in
  set_request_data ostate path method (mkRequestData (rd_bodyValue d) (rd_requestContentType d) value).

Definition UPDATE_SERVER_VARIABLE_VALUE (server namespace key : jsstr) (val : jdata) ostate : oas3_state :=
  let c := choice_of ostate namespace in
  set_choice ostate namespace (mkChoice (sc_selectedServer c) (set2 (sc_serverVariableValues c) server key val)).

(** The selectors, which give [null] for a description of another version. *)
Definition onlyOAS3 {A} (state : spec_state (M := M)) (selected other : A) : A :=
  if isOAS3 (specJson state) then selected else other.

Definition selectedServer (state : spec_state (M := M)) ostate (namespace : jsstr) : jdata :=
  onlyOAS3 state (d_or (sc_selectedServer (choice_of ostate namespace)) (DString [])) DNull.

Definition requestBodyValue (state : spec_state (M := M)) ostate (path method : jsstr) : body_value :=
  onlyOAS3 state (let b := rd_bodyValue (request_data_of ostate path method) in if body_truthy b then b else BData DNull)
    (BData DNull).

Definition requestContentType (state : spec_state (M := M)) ostate (path method : jsstr) : jdata :=
  onlyOAS3 state (d_or (rd_requestContentType (request_data_of ostate path method)) DNull) DNull.

Definition responseContentType (state : spec_state (M := M)) ostate (path method : jsstr) : jdata :=
  onlyOAS3 state (d_or (rd_responseContentType (request_data_of ostate path method)) DNull) DNull.

Definition serverVariableValue (state : spec_state (M := M)) ostate (server namespace key : jsstr) : jdata :=
  onlyOAS3 state (d_or (default DUndefined (get2 (sc_serverVariableValues (choice_of ostate namespace)) server key)) DNull)
    DNull.

(** Read only for a description of version 3. *)
Definition serverVariables ostate (server namespace : jsstr) : M jdata :=
  default im_empty (im_get (sc_serverVariableValues (choice_of ostate namespace)) server).

(** ** The request *)

(** The fields that are added for a description of version 3. *)
Record oas3_request : Type := mkOas3Request {
  q_server : jdata;
  q_serverVariables : M jdata;
  q_requestBody : body_value
}.

(** What swagger-client is given, without the functions that intercept. *)
Record http_request : Type := mkRequest {
  q_operation : jdata;
  q_pathName : jsstr;
  q_method : jsstr;
  q_parameters : M pvalue;
  q_requestContentType : jdata;
  q_responseContentType : jdata;
  q_scheme : jdata;
  q_contextUrl : jdata;
  q_operationId : jdata;
  q_oas3 : option oas3_request
}.

(** The package url-parse on an address and back, [fn.opId] and [fn.buildRequest]. *)
Variable parse_url : jdata -> jdata.
Variable opId : jdata -> jsstr -> jsstr -> jdata.
Variable buildRequest : http_request -> outcome native_error jdata.
Variable hashCode : jdata -> jsstr.
Variable E : engine.

(** [!paramValue || paramValue && paramValue.size === 0]; a file is not empty. *)
Definition empty_value (v : option pvalue) : bool :=
  match v with
  | None => true
  | Some (PData d) => negb (truthy d) || match dget d (js "size") with DNumber n => num_eqb n (num_of_Z 0) | _ => false end
  | Some _ => false
  end.

(** What is done for one parameter that may be sent without a value; the names of the
    parameters are not inherited ones. *)
Definition include_empty (state : spec_state (M := M)) (pathName method : jsstr) (parameters : M pvalue) (param : jdata)
    : M pvalue :=
  let name := text (p_field param "name") in
  if truthy (parameterInclusionSettingFor state pathName method name (text (p_field param "in")))
     && empty_value (im_get parameters name)
  then im_set parameters name (PData (DString []))
  else parameters.

Definition allows_empty (param : jdata) : bool :=
  match p_field param "allowEmptyValue" with DBool true => true | _ => false end.

Definition oas3_part (state : spec_state (M := M)) ostate (pathName method : jsstr) : oas3_request :=
  let namespace := pathName ++ 58 :: method in
  let server := d_or (selectedServer state ostate namespace) (selectedServer state ostate []) in
  let namespaceVariables := serverVariables ostate (text server) namespace in
  let globalVariables := serverVariables ostate (text server) [] in
  let requestBody := requestBodyValue state ostate pathName method in
  mkOas3Request server
    (match im_values namespaceVariables with [] => globalVariables | _ => namespaceVariables end)
    (match isJSONObject requestBody with Some o => BData o | None =>
       match requestBody with BTree d => BData d | b => b end end).

(** Everything before the request is handed over; [operation] is the operation of the
    page, as an object. *)
Definition prepare_request (state : spec_state (M := M)) ostate (req : http_request) : http_request :=
  let op := q_operation req in
  let pathName := q_pathName req in
  let method := q_method req in
  let parameters :=
    foldl (include_empty state pathName method) (q_parameters req)
      (List.filter allows_empty (list_items (mget op (js "parameters")))) in
  let operationId :=
    if truthy op then
      if truthy (dget op (js "operationId")) then dget op (js "operationId")
      else match pathName, method with _ :: _, _ :: _ => opId op pathName method | _, _ => q_operationId req end
    else q_operationId req in
  let version3 := isOAS3 (specJson state) in
  mkRequest op pathName method parameters
    (if version3 then requestContentType state ostate pathName method else q_requestContentType req)
    (if version3 then d_or (responseContentType state ostate pathName method) (DString (js "*/*")) else q_responseContentType req)
    (q_scheme req) (parse_url (spec_url state)) operationId
    (if version3 then Some (oas3_part state ostate pathName method) else None).

(** [executeRequest] up to the point where the request is on its way. *)
Definition executeRequest (req : http_request) ostate (state : spec_state (M := M))
    : outcome native_error (http_request * spec_state (M := M)) :=
  let req := prepare_request state ostate req in
  parsedRequest ← buildRequest req;
  Ret (req, SET_REQUEST (q_pathName req) (q_method req) parsedRequest state).

Definition execute (operation : jdata) (path method : jsstr) ostate (state : spec_state (M := M))
    : outcome native_error (http_request * spec_state (M := M)) :=
  scheme ← operationScheme state path method;
  let '(requestContentType, responseContentType) := contentTypeValues state path method in
  let isXml := has_xml (text requestContentType) in
  let parameters := parameterValues hashCode state path method isXml in
  executeRequest (mkRequest operation path method parameters requestContentType responseContentType scheme
                    DUndefined DUndefined None) ostate state.

(** The package calls the interceptor with the request [r] it is about to send; what it
    gives back is sent and kept. *)
Definition intercepted (requestInterceptor : jdata -> jdata) (req : http_request) (r : jdata) (state : spec_state (M := M))
    : jdata * spec_state (M := M) :=
  let mutatedRequest := requestInterceptor r in
  let parsedMutatedRequest := match mutatedRequest with DObject ps => DObject (assign_copy ps) | _ => DObject [] end in
  (mutatedRequest, SET_MUTATED_REQUEST (q_pathName req) (q_method req) parsedMutatedRequest state).

(** The answer arrives. *)
Definition answered (req : http_request) (res : jdata) (is_blob : bool) (state : spec_state (M := M)) : spec_state (M := M) :=
  makeReducer (fun s => native (SET_RESPONSE (q_pathName req) (q_method req) res is_blob s)) state.

(** The action [validateParams], with the version of the description. *)
Definition validateParams (path method : jsstr) (state : spec_state (M := M)) : spec_state (M := M) :=
  makeReducer (fun s => native (VALIDATE_PARAMS hashCode E path method (isOAS3 (specJson state)) s)) state.

(** A click on the button: the request that is sent, if one is.  Before it, the page's
    [onExecute] notes in the component, outside of the store, that a request is under
    way. *)
Definition Execute_onClick (operation : jdata) (path method : jsstr) ostate (state : spec_state (M := M))
    : outcome native_error (option http_request * spec_state (M := M)) :=
  let state := validateParams path method state in
  if validateBeforeExecute state path method then
    '(req, state) ← execute operation path method ostate state; Ret (Some req, state)
  else Ret (None, state).
End execute.

(** ** Validation *)

Section validation.
Context {M : Type -> Type} `{ImCollectionLaws M} `{ImTree}.
Context (hashCode : jdata -> jsstr) (hashCode_text : forall p, 46 ∉ hashCode p) (E : engine).
Implicit Types state : spec_state (M := M).

Lemma validate_all_get isXml oas3 ps (res res' : M pmeta) :
  NoDup (name_in ∘ m_def <$> ps) -> validate_all E isXml oas3 ps res = Ret res' ->
  (forall k, k ∉ (name_in ∘ m_def <$> ps) -> im_get res' k = im_get res k) /\
  (forall p, p ∈ ps -> exists es, validateParam E (param_of p) isXml oas3 = Ret es /\
     im_get res' (name_in (m_def p)) = Some (put_errors es (default no_pmeta (im_get res (name_in (m_def p)))))).
Proof.
  revert res. induction ps as [|p ps IH]; intros res Hn Hv; cbn [validate_all] in Hv.
  { injection Hv as <-. split; [done|]. by intros p Hp%elem_of_nil. }
  destruct (validateParam E (param_of p) isXml oas3) as [es| |] eqn:Ep; try done. cbn [mbind outcome_bind] in Hv.
  rewrite fmap_cons, NoDup_cons in Hn. destruct Hn as [Hp Hn]. apply IH in Hv as [Ho Hi]; [|done]. split.
  - intros k Hk. rewrite fmap_cons in Hk. apply not_elem_of_cons in Hk as [Hk1 Hk2]. rewrite Ho, im_get_set by done.
    rewrite (proj2 (jseqb_neq _ k)); [done|]. intros <-. by apply Hk1.
  - intros q Hq. apply elem_of_cons in Hq as [-> |Hq].
    + exists es. split; [done|]. rewrite Ho by done. by rewrite im_get_set, jseqb_refl.
    + destruct (Hi q Hq) as (es' & Hes & Hg). exists es'. split; [done|]. rewrite Hg, im_get_set.
      rewrite (proj2 (jseqb_neq _ (name_in (m_def q)))); [done|]. intros Ek. apply Hp.
      change ((name_in ∘ m_def) p ∈ name_in ∘ m_def <$> ps). change ((name_in ∘ m_def) p = (name_in ∘ m_def) q) in Ek.
      rewrite Ek. by apply list_elem_of_fmap_2.
Qed.

Lemma validate_all_fails isXml oas3 ps (res : M pmeta) :
  (forall res', validate_all E isXml oas3 ps res <> Ret res') ->
  exists p, p ∈ ps /\ forall es, validateParam E (param_of p) isXml oas3 <> Ret es.
Proof.
  revert res. induction ps as [|p ps IH]; intros res Hv; cbn [validate_all] in Hv; [by edestruct Hv|].
  destruct (validateParam E (param_of p) isXml oas3) as [es|e|] eqn:Ep.
  - apply IH in Hv as (q & Hq & Hes). exists q. split; [by apply list_elem_of_further|done].
  - exists p. split; [apply list_elem_of_here|]. by rewrite Ep.
  - exists p. split; [apply list_elem_of_here|]. by rewrite Ep.
Qed.

Lemma name_in_NoDup ps : proper_params ps -> NoDup (name_in <$> ps).
Proof.
  intros [Ha Hn]. induction ps as [|p ps IH]; [constructor|]. rewrite fmap_cons, NoDup_cons in Hn |- *.
  rewrite Forall_cons in Ha. destruct Ha as [Hp Ha], Hn as [Hx Hn]. split; [|by apply IH].
  intros (q & Eq & Hq)%list_elem_of_fmap. apply Hx. rewrite Forall_forall in Ha.
  apply same_parameter_keys in Eq; [|done|by apply Ha]. rewrite Eq. by apply list_elem_of_fmap_2.
Qed.

(** The errors of a parameter as it was entered. *)
Definition errors_of state path method (p : jdata) : outcome native_error (list verr) :=
  validateParam E (param_of (entered hashCode state path method p))
    (has_xml (text (om_consumes_value (op_meta_of state path method)))) (isOAS3 (specJson state)).

(** Errors that are kept for something that is no parameter of the operation. *)
Definition leftover state path method : Prop :=
  exists k m, im_get (parameter_metas state path method) k = Some m /\ has_errors m = true /\
    k ∉ (name_in <$> opParams state path method).

Lemma executable_spec state path method :
  validateBeforeExecute state path method = true <->
  forall k m, im_get (parameter_metas state path method) k = Some m -> has_errors m = false.
Proof.
  unfold validateBeforeExecute. rewrite negb_true_iff. split.
  - intros Hv k m Hk. apply not_true_iff_false. intros Hm. apply not_true_iff_false in Hv. apply Hv.
    apply existsb_exists. exists m. split; [|done]. apply list_elem_of_In, im_values_spec. by exists k.
  - intros Hv. apply not_true_iff_false. intros (m & Hm%list_elem_of_In & He)%existsb_exists.
    apply im_values_spec in Hm as [k Hk]. by rewrite (Hv k m Hk) in He.
Qed.

Lemma entered_keys state path method :
  name_in ∘ m_def <$> (entered hashCode state path method <$> opParams state path method)
  = name_in <$> opParams state path method.
Proof. rewrite <- list_fmap_compose. by apply list_fmap_ext. Qed.

(** The state after the action: the errors of all parameters, or the state it was. *)
Lemma validateParams_spec state path method : proper_params (opParams state path method) ->
  let state' := validateParams hashCode E path method state in
  let ps := opParams state path method in
  let ms := parameter_metas state path method in
  (exists ms', state' = set_parameter_metas state path method ms' /\
     (forall k, k ∉ (name_in <$> ps) -> im_get ms' k = im_get ms k) /\
     (forall p, p ∈ ps -> exists es, errors_of state path method p = Ret es /\
        im_get ms' (name_in p) = Some (put_errors es (default no_pmeta (im_get ms (name_in p)))))) \/
  (state' = state /\ (ps = [] \/ exists p, p ∈ ps /\ forall es, errors_of state path method p <> Ret es)).
Proof.
  intros Hps state' ps ms. unfold state', validateParams, makeReducer, VALIDATE_PARAMS.
  rewrite with_meta_parameters by done. fold ps ms. remember (entered hashCode state path method <$> ps) as qs eqn:Eq.
  destruct qs as [|q0 qs0] eqn:Eqs; [right; split; [done|left]; by destruct ps|]. rewrite <- Eqs in *. cbv zeta.
  set (isXml := has_xml _). set (oas3 := isOAS3 _).
  assert (Hf : (forall ms', validate_all E isXml oas3 qs ms <> Ret ms') ->
    exists p, p ∈ ps /\ forall es, errors_of state path method p <> Ret es).
  { intros (q & Hq & Hes)%validate_all_fails. rewrite Eq in Hq. apply list_elem_of_fmap in Hq as (p & -> & Hp). by exists p. }
  destruct (validate_all E isXml oas3 qs ms) as [ms'|e|] eqn:Ev; [left|right; split; [done|right; by apply Hf]..].
  exists ms'. split; [done|]. apply validate_all_get in Ev as [Ho Hi];
    rewrite Eq, entered_keys in *; [|by apply name_in_NoDup].
  split; [done|]. intros p Hp. apply (Hi (entered hashCode state path method p)). by apply list_elem_of_fmap_2.
Qed.

(** Validating changes no value. *)
Lemma used_after_validation state path method isXml p :
  proper_params (opParams state path method) -> p ∈ opParams state path method ->
  used_value isXml (entered hashCode (validateParams hashCode E path method state) path method p)
  = used_value isXml (entered hashCode state path method p).
Proof.
  intros Hps Hp. destruct (validateParams_spec state path method Hps) as [(ms' & -> & Ho & Hi)|[-> _]]; [|done].
  rewrite !used_entered. unfold hash_value, name_value. rewrite !parameter_metas_set, !jseqb_refl. cbn [andb].
  assert (Hpp : forall q, q ∈ opParams state path method -> proper_param q).
  { destruct Hps as [Hall _]. by rewrite Forall_forall in Hall. }
  rewrite (Ho (name_in_hash hashCode p)).
  2:{ intros (q & Eq & Hq)%list_elem_of_fmap. symmetry in Eq. revert Eq. apply name_in_not_hash; auto. }
  destruct (Hi p Hp) as (es & _ & ->). cbn [mbind option_bind].
  destruct (im_get (parameter_metas state path method) (name_in p)); by destruct (read_slot isXml p).
Qed.

(** When all parameters could be checked, the operation can be executed when all of them
    are right and nothing else has errors. *)
Lemma executable_after_validation state path method :
  proper_params (opParams state path method) ->
  (forall p, p ∈ opParams state path method -> exists es, errors_of state path method p = Ret es) ->
  validateBeforeExecute (validateParams hashCode E path method state) path method = true <->
  (forall p, p ∈ opParams state path method -> errors_of state path method p = Ret []) /\ ~ leftover state path method.
Proof.
  intros Hps Hall. rewrite executable_spec.
  destruct (validateParams_spec state path method Hps) as [(ms' & -> & Ho & Hi)|[-> [Hnil|(p & Hp & Hes)]]].
  - rewrite parameter_metas_set, !jseqb_refl. cbn [andb]. split.
    + intros Hv. split.
      * intros p Hp. destruct (Hi p Hp) as (es & Hes & Hg). rewrite Hes. apply Hv in Hg. by destruct es.
      * intros (k & m & Hk & He & Hn). rewrite <- Ho in Hk by done. by rewrite (Hv k m Hk) in He.
    + intros [Hr Hl] k m Hk. apply not_true_iff_false. intros He.
      destruct (decide (k ∈ (name_in <$> opParams state path method))) as [Hin|Hn].
      * apply list_elem_of_fmap in Hin as (p & -> & Hp). destruct (Hi p Hp) as (es & Hes & Hg).
        rewrite (Hr p Hp) in Hes. injection Hes as <-. rewrite Hg in Hk. by injection Hk as <-.
      * apply Hl. exists k, m. split_and!; [by rewrite <- Ho|done|done].
  - rewrite Hnil. split.
    + intros Hv. split; [by intros p Hp%elem_of_nil|]. intros (k & m & Hk & He & _). by rewrite (Hv k m Hk) in He.
    + intros [_ Hl] k m Hk. apply not_true_iff_false. intros He. apply Hl. exists k, m. rewrite Hnil.
      split_and!; [done|done|apply not_elem_of_nil].
  - destruct (Hall p Hp) as [es Hc]. by apply Hes in Hc.
Qed.

(** The request is made for the kind of body that was checked. *)
Lemma falsy_no_xml d : truthy d = false -> has_xml (text d) = false.
Proof.
  destruct d as [| |b|n|s|es|ps]; try done.
  - by destruct b.
  - destruct n as [sg|sg| |sg m ex]; [by destruct sg|by destruct sg|done|by destruct sg].
  - by destruct s.
Qed.

Lemma content_type_xml state path method :
  has_xml (text (contentTypeValues state path method).1) = has_xml (text (om_consumes_value (op_meta_of state path method))).
Proof.
  unfold contentTypeValues. cbn [fst]. destruct (truthy (om_consumes_value _)) eqn:Et; [done|].
  rewrite (falsy_no_xml _ Et). destruct (parametersIncludeType _ _); [done|]. by destruct (parametersIncludeType _ _).
Qed.

(** ** Parameters that may be empty *)

Definition param_name (p : jdata) : jsstr := text (p_field p "name").

Lemma include_others state path method k ps (m : M pvalue) :
  k ∉ (param_name <$> ps) -> im_get (foldl (include_empty state path method) m ps) k = im_get m k.
Proof.
  revert m. induction ps as [|p ps IH]; intros m Hk; [done|]. rewrite fmap_cons in Hk.
  apply not_elem_of_cons in Hk as [Hp Hk]. cbn [foldl]. rewrite IH by done. unfold include_empty.
  destruct (_ && _); [|done]. rewrite im_get_set, (proj2 (jseqb_neq _ k)); [done|]. intros <-. by apply Hp.
Qed.

Lemma include_keeps_empty state path method k ps (m : M pvalue) :
  im_get m k = Some (PData (DString [])) ->
  im_get (foldl (include_empty state path method) m ps) k = Some (PData (DString [])).
Proof.
  revert m. induction ps as [|p ps IH]; intros m Hm; [done|]. cbn [foldl]. apply IH. unfold include_empty.
  destruct (_ && _); [|done]. rewrite im_get_set. by destruct (jseqb _ k).
Qed.

(** A value that is not there under the plain name becomes the empty one, whatever was
    entered for the parameter. *)
Lemma include_missing state path method p ps (m : M pvalue) :
  p ∈ ps -> truthy (parameterInclusionSettingFor state path method (param_name p) (text (p_field p "in"))) = true ->
  im_get m (param_name p) = None ->
  im_get (foldl (include_empty state path method) m ps) (param_name p) = Some (PData (DString [])).
Proof.
  intros Hp Ht. revert m. induction Hp as [p ps|p q ps Hp IH]; intros m Hm; cbn [foldl].
  - apply include_keeps_empty. unfold include_empty. fold (param_name p). rewrite Ht, Hm. cbn [andb empty_value].
    by rewrite im_get_set, jseqb_refl.
  - assert (Hc : im_get (include_empty state path method m q) (param_name p) = None \/
                 im_get (include_empty state path method m q) (param_name p) = Some (PData (DString []))).
    { unfold include_empty. destruct (_ && _); [|by left]. rewrite im_get_set. destruct (jseqb _ _); [by right|by left]. }
    destruct Hc as [Hc|Hc]; [by apply IH|by apply include_keeps_empty].
Qed.

(** ** The request *)

Context (parse_url : jdata -> jdata) (opId : jdata -> jsstr -> jsstr -> jdata).
Context (buildRequest : http_request (M := M) -> outcome native_error jdata).

Lemma execute_sent operation path method ostate state req state' :
  execute parse_url opId buildRequest hashCode operation path method ostate state = Ret (req, state') ->
  q_pathName req = path /\ q_method req = method /\
  q_parameters req
  = foldl (include_empty state path method)
      (parameterValues hashCode state path method (has_xml (text (om_consumes_value (op_meta_of state path method)))))
      (List.filter allows_empty (list_items (mget operation (js "parameters")))).
Proof.
  unfold execute. destruct (operationScheme state path method) as [sch| |]; [|done|done]. cbn [mbind outcome_bind].
  rewrite (surjective_pairing (contentTypeValues state path method)), content_type_xml. unfold executeRequest.
  destruct (buildRequest _) as [d| |]; [|done|done]. intros [= <- <-]. done.
Qed.

Lemma execute_total operation path method ostate state url :
  spec_url state = DString url -> (forall req, exists d, buildRequest req = Ret d) ->
  exists req state', execute parse_url opId buildRequest hashCode operation path method ostate state = Ret (req, state').
Proof.
  intros Hu Hb. unfold execute, operationScheme. rewrite Hu. cbn [mbind outcome_bind].
  rewrite (surjective_pairing (contentTypeValues state path method)). unfold executeRequest.
  match goal with |- context [buildRequest ?r] => destruct (Hb r) as [d ->] end. by do 2 eexists.
Qed.

Lemma click_sent operation path method ostate state req state' :
  Execute_onClick parse_url opId buildRequest hashCode E operation path method ostate state = Ret (Some req, state') ->
  let validated := validateParams hashCode E path method state in
  validateBeforeExecute validated path method = true /\
  execute parse_url opId buildRequest hashCode operation path method ostate validated = Ret (req, state').
Proof.
  unfold Execute_onClick. destruct (validateBeforeExecute _ _ _); [|done].
  destruct (execute _ _ _ _ _ _ _ _ _) as [[req' state'']| |]; [|done|done]. intros [= <- <-]. done.
Qed.

(** Validating keeps the description and all else that is kept for the operation. *)
Lemma validated_keeps state path method : proper_params (opParams state path method) ->
  let validated := validateParams hashCode E path method state in
  opParams validated path method = opParams state path method /\
  om_consumes_value (op_meta_of validated path method) = om_consumes_value (op_meta_of state path method) /\
  om_parameter_inclusions (op_meta_of validated path method) = om_parameter_inclusions (op_meta_of state path method) /\
  spec_url validated = spec_url state.
Proof.
  intros Hps validated. unfold validated.
  destruct (validateParams_spec state path method Hps) as [(ms' & -> & _)|[-> _]]; [|done].
  rewrite !op_meta_of_set, !jseqb_refl. done.
Qed.
End validation.

(** C7: The button that executes an operation sends only what was checked.  When every
    parameter can be checked, a request is sent only when none of them has an error and
    no errors are left over for other names, it is sent then, and with an error none is
    sent.  When checking a parameter throws, nothing is checked: the operation is
    executed, or not, by the errors that were there before.  The request is for the
    operation; it has for every parameter the value that was checked, under the place
    and the name.  A parameter that may be empty and is to be included is besides sent
    empty under its plain name, whatever value was entered for it. *)
Theorem execute_sends_checked {M : Type -> Type} `{ImCollectionLaws M} `{ImTree} parse_url opId buildRequest
    (hashCode : jdata -> jsstr) (E : engine) (operation : jdata) (path method : jsstr) ostate
    (state : spec_state (M := M)) :
  (forall q, 46 ∉ hashCode q) -> proper_params (opParams state path method) ->
  let ps := opParams state path method in
  let run := execute parse_url opId buildRequest hashCode operation path method ostate in
  let click := Execute_onClick parse_url opId buildRequest hashCode E operation path method ostate state in
  let check := errors_of hashCode E state path method in
  let isXml := has_xml (text (om_consumes_value (op_meta_of state path method))) in
  let optional := List.filter allows_empty (list_items (mget operation (js "parameters"))) in
  ((forall p, p ∈ ps -> exists es, check p = Ret es) ->
   (forall req state', click = Ret (Some req, state') ->
      (forall p, p ∈ ps -> check p = Ret []) /\ ~ leftover state path method) /\
   (forall p e es, p ∈ ps -> check p = Ret (e :: es) -> exists state', click = Ret (None, state')) /\
   ((forall p, p ∈ ps -> check p = Ret []) -> ~ leftover state path method ->
    (exists url, spec_url state = DString url) -> (forall req, exists d, buildRequest req = Ret d) ->
    exists req state', click = Ret (Some req, state'))) /\
  (forall p, p ∈ ps -> (forall es, check p <> Ret es) ->
     click = if validateBeforeExecute state path method
             then '(req, state') ← run state; Ret (Some req, state') else Ret (None, state)) /\
  (forall req state', click = Ret (Some req, state') ->
     q_pathName req = path /\ q_method req = method /\
     (forall p, p ∈ ps -> in_name p ∉ (param_name <$> optional) ->
        im_get (q_parameters req) (in_name p)
        = Some (the_value (param_of (entered hashCode state path method p)) isXml)) /\
     (forall p, p ∈ optional ->
        truthy (parameterInclusionSettingFor state path method (param_name p) (text (p_field p "in"))) = true ->
        param_name p ∉ (in_name <$> ps) -> im_get (q_parameters req) (param_name p) = Some (PData (DString [])))).
Proof.
  intros Hh Hps ps run click check isXml optional.
  destruct (validated_keeps hashCode E state path method Hps) as (Ep & Ec & Ei & Eu).
  split; [intros Hall; pose proof (executable_after_validation hashCode E state path method Hps Hall) as Hex; split_and!|split].
  - intros req state' [Hv _]%click_sent. by apply Hex.
  - intros p e es Hp Hc. unfold click, Execute_onClick. destruct (validateBeforeExecute _ _ _) eqn:Ev; [|by eexists].
    destruct (proj1 Hex eq_refl) as [Hr _]. unfold check in Hc. rewrite (Hr p Hp) in Hc. done.
  - intros Hr Hl [url Hurl] Hb. unfold click, Execute_onClick. rewrite (proj2 Hex) by done.
    destruct (execute_total hashCode parse_url opId buildRequest operation path method ostate
      (validateParams hashCode E path method state) url) as (req & state' & ->); [by rewrite Eu|done|]. by do 2 eexists.
  - intros p Hp Hes. unfold click, Execute_onClick.
    destruct (validateParams_spec hashCode E state path method Hps) as [(ms' & _ & _ & Hi)|[-> _]]; [|done].
    destruct (Hi p Hp) as (es & Hc & _). by apply Hes in Hc.
  - intros req state' [_ (Hpa & Hme & Hq)%execute_sent]%click_sent. rewrite Ec in Hq. split_and!; [done|done|..].
    + intros p Hp Hn. rewrite Hq, include_others by done. rewrite parameterValues_get, Ep by (by rewrite Ep).
      rewrite find_param by done. simpl. by rewrite used_after_validation.
    + intros p Hp Ht Hn. rewrite Hq. apply include_missing; [done| |].
      * unfold parameterInclusionSettingFor in Ht |- *. by rewrite Ei.
      * rewrite parameterValues_get, Ep by (by rewrite Ep). destruct (List.find _ _) as [q|] eqn:Ef; [|done].
        apply find_some in Ef as [Hin%list_elem_of_In Ek%jseqb_eq]. destruct Hn. rewrite <- Ek. by apply list_elem_of_fmap_2.
Qed.

Lemma execute_sends_checked_witness :
  let p := DObject [(js "name", DString (js "height")); (js "in", DString (js "query"));
                    (js "type", DString (js "integer")); (js "allowEmptyValue", DBool true)] in
  let operation := DObject [(js "parameters", DArray [p]); (js "operationId", DString (js "getBlock"))] in
  let json := DObject [(js "paths", DObject [(js "/blocks", DObject [(js "get", operation)])])] in
  let hash := fun _ : jdata => js "1" in
  let E := mkEngine (fun _ _ => Ret true) (fun _ => true) (fun _ => []) (fun _ => None) in
  let loaded := mkSpec (M := fun A => list (jsstr * A)) DUndefined (DString (js "http://localhost/spec")) json
                  DUndefined DUndefined [] [] [] [] DUndefined [] in
  let state := UPDATE_EMPTY_PARAM_INCLUSION (js "/blocks") (js "get") (js "height") (js "query") (DBool true)
                 (UPDATE_PARAM hash (js "/blocks") (js "get") (ByIdentity p) (PData (DString (js "12"))) false loaded) in
  let ostate := mkOas3 (M := fun A => list (jsstr * A)) (mkChoice DUndefined []) [] [] in
  exists req state',
    Execute_onClick (fun d => d) (fun _ _ _ => DUndefined) (fun _ => Ret DUndefined) hash E operation
      (js "/blocks") (js "get") ostate state = Ret (Some req, state') /\
    im_get (q_parameters req) (js "query.height") = Some (PData (DString (js "12"))) /\
    im_get (q_parameters req) (js "height") = Some (PData (DString [])).
Proof.
  intros p operation json hash E loaded state ostate.
  assert (Hp : opParams state (js "/blocks") (js "get") = [p]) by (vm_compute; reflexivity).
  assert (Hc : errors_of hash E state (js "/blocks") (js "get") p = Ret []) by (vm_compute; reflexivity).
  destruct (execute_sends_checked (fun d => d) (fun _ _ _ => DUndefined) (fun _ => Ret DUndefined) hash E operation
    (js "/blocks") (js "get") ostate state) as [Hall [_ Hsent]].
  - intros q. exact (bool_decide_unpack (46 ∉ js "1") I).
  - rewrite Hp. split; [|apply NoDup_singleton]. constructor; [|constructor]. exists (js "height"), (js "query").
    split; [reflexivity|]. split; [reflexivity|]. apply list_elem_of_here.
  - rewrite Hp in Hall, Hsent. assert (Hone : forall q, q ∈ [p] -> errors_of hash E state (js "/blocks") (js "get") q = Ret []).
    { intros q Hq%list_elem_of_singleton. rewrite Hq. exact Hc. }
    destruct Hall as (_ & _ & Hok); [intros q Hq; exists []; exact (Hone q Hq)|].
    destruct Hok as (req & state' & Hreq); [exact Hone| |by eexists|by eexists|].
    { intros (k & m & Hk & Hm & _).
      change (assoc_get [(js "height.query.hash-1", mkPmeta (Some (PData (DString (js "12")))) None None)] k = Some m) in Hk.
      cbn [assoc_get] in Hk. destruct (jseqb _ k); [injection Hk as <-; discriminate Hm|discriminate Hk]. }
    exists req, state'. split; [exact Hreq|]. destruct (Hsent req state' Hreq) as (_ & _ & Hv & Hi). split.
    + exact (Hv p (list_elem_of_here _ _) ltac:(apply (bool_decide_unpack _); vm_compute; exact I)).
    + exact (Hi p (list_elem_of_here p []) eq_refl ltac:(apply (bool_decide_unpack _); vm_compute; exact I)).
Defined.
