(* ===== verification/SwaggerOperations.v ===== *)
(** * Swagger UI: the operations of a description and their tags

    The selectors that list the operations of a description, give them what they inherit
    from its root, and group them by their tags.  A set of the package Immutable.js is
    given by its items, in an order that is a parameter; tags are strings. *)

From stdpp Require Import sets.
From S2P Require Import JsPrelude JsNumber JsValue JsImmutable SwaggerData SwaggerSpec SwaggerSpecTheory.

Definition OPERATION_METHODS : list jsstr :=
  [js "get"; js "put"; js "post"; js "delete"; js "options"; js "head"; js "patch"; js "trace"].

Definition DEFAULT_TAG : jsstr := js "default".

(** An element of the list of the operations. *)
Record op_entry : Type := mkOp {
  e_path : jsstr;
  e_method : jsstr;
  e_operation : jdata;
  e_id : jsstr
}.

Definition map_entries (d : jdata) : list (jsstr * jdata) := match d with DObject ps => ps | _ => [] end.

(** The entries of the path whose names are methods. *)
Definition path_operations (pathName : jsstr) (path : jdata) : list op_entry :=
  omap (fun entry : jsstr * jdata =>
          let '(method, operation) := entry in
          if bool_decide (method ∈ OPERATION_METHODS)
          then Some (mkOp pathName method operation (method ++ 45 :: pathName)) else None)
    (map_entries path).

Definition operations (paths : jdata) : list op_entry :=
  map_entries paths ≫= fun entry => path_operations entry.1 entry.2.

Section tags.
(** The items of [Set(l)]. *)
Variable set_of : list jsstr -> list jsstr.

Definition strings (d : option jdata) : list jsstr :=
  omap (fun e => match e with DString s => Some s | _ => None end) (list_items d).

(** [Set(a).merge(inherited)] for an operation without a value of its own. *)
Definition inherit (op : jdata) (k : string) (inherited : list jsstr) : jdata :=
  match op with
  | DObject ps => if truthy (p_field op k) then op else DObject (assoc_set ps (js k) (DArray (DString <$> set_of inherited)))
  | d => d
  end.

Definition inherit_operation (consumes produces : list jsstr) (op : jdata) : jdata :=
  if truthy op then
    if is_map op then inherit (inherit op "consumes" consumes) "produces" produces else DUndefined
  else DObject [].

Definition operationsWithRootInherited (ops : list op_entry) (consumes produces : list jsstr) : list op_entry :=
  (fun ops => mkOp (e_path ops) (e_method ops) (inherit_operation consumes produces (e_operation ops)) (e_id ops)) <$> ops.

(** [Set(op.getIn(["operation", "tags"]))]. *)
Definition tags_of (op : op_entry) : list jsstr := set_of (strings (mget (e_operation op) (js "tags"))).

(** The names of the tags the description declares. *)
Definition tag_name (tag : jdata) : jsstr := text (p_field tag "name").

(** The first tag that is declared with the name; the map given to [find] is its
    context, so that nothing found is [undefined]. *)
Definition tagDetails (tags : list jdata) (tag : jsstr) : jdata :=
  default DUndefined
    (List.find (fun t => same_primitive (p_field t "name") (DString tag)) (List.filter is_map tags)).

Context {M : Type -> Type} `{ImCollection M}.

(** [m.update(tag, List(), ar => ar.push(op))]. *)
Definition push_at (op : op_entry) (m : M (list op_entry)) (tag : jsstr) : M (list op_entry) :=
  im_set m tag (default [] (im_get m tag) ++ [op]).

Definition push_tags (taggedMap : M (list op_entry)) (op : op_entry) : M (list op_entry) :=
  match tags_of op with
  | [] => push_at op taggedMap DEFAULT_TAG
  | tags => foldl (push_at op) taggedMap tags
  end.

Definition operationsWithTags (ops : list op_entry) (tags : list jdata) : M (list op_entry) :=
  foldl push_tags (foldl (fun taggedMap tag => im_set taggedMap (tag_name tag) []) im_empty tags) ops.

(** ** Groups *)

Context `{!ImCollectionLaws M}.
Hypothesis set_of_NoDup : forall l, NoDup (set_of l).
Hypothesis set_of_elem : forall l k, k ∈ set_of l <-> k ∈ l.

(** Whether an operation belongs to a group. *)
Definition belongs (k : jsstr) (op : op_entry) : bool :=
  match tags_of op with [] => jseqb DEFAULT_TAG k | tags => bool_decide (k ∈ tags) end.

Lemma push_at_get op m tag k :
  im_get (push_at op m tag) k = if jseqb tag k then Some (default [] (im_get m k) ++ [op]) else im_get m k.
Proof. unfold push_at. rewrite im_get_set. destruct (jseqb tag k) eqn:E; [|done]. by apply jseqb_eq in E as ->. Qed.

Lemma push_all_get op tags m k : NoDup tags ->
  im_get (foldl (push_at op) m tags) k
  = if bool_decide (k ∈ tags) then Some (default [] (im_get m k) ++ [op]) else im_get m k.
Proof.
  revert m. induction tags as [|t tags IH]; intros m Hn; [done|]. apply NoDup_cons in Hn as [Ht Hn]. cbn [foldl].
  rewrite IH, push_at_get by done. destruct (jseqb t k) eqn:E.
  - apply jseqb_eq in E as ->. rewrite bool_decide_eq_false_2 by done.
    by rewrite bool_decide_eq_true_2 by apply list_elem_of_here.
  - apply jseqb_neq in E. rewrite (bool_decide_ext (k ∈ t :: tags) (k ∈ tags)); [done|].
    rewrite elem_of_cons. split; [by intros [-> |]|by right].
Qed.

Lemma push_tags_get m op k :
  im_get (push_tags m op) k = if belongs k op then Some (default [] (im_get m k) ++ [op]) else im_get m k.
Proof.
  unfold push_tags, belongs. destruct (tags_of op) as [|t tags] eqn:E; [apply push_at_get|].
  apply push_all_get. rewrite <- E. apply set_of_NoDup.
Qed.

Lemma groups_get ops m k :
  im_get (foldl push_tags m ops) k
  = match List.filter (belongs k) ops with
    | [] => im_get m k
    | found => Some (default [] (im_get m k) ++ found)
    end.
Proof.
  revert m. induction ops as [|op ops IH]; intros m; [done|]. cbn [foldl List.filter]. rewrite IH, push_tags_get.
  destruct (belongs k op); [|done]. destruct (List.filter (belongs k) ops); [done|]. simpl. by rewrite <- app_assoc.
Qed.

Lemma declared_get tags m k : 
  im_get (foldl (fun (taggedMap : M (list op_entry)) tag => im_set taggedMap (tag_name tag) []) m tags) k
  = if bool_decide (k ∈ (tag_name <$> tags)) then Some [] else im_get m k.
Proof.
  revert m. induction tags as [|t tags IH]; intros m; [done|]. cbn [foldl]. rewrite IH, im_get_set, fmap_cons.
  destruct (bool_decide (k ∈ (tag_name <$> tags))) eqn:E.
  - apply bool_decide_eq_true in E. by rewrite bool_decide_eq_true_2 by (by apply list_elem_of_further).
  - apply bool_decide_eq_false in E. destruct (jseqb (tag_name t) k) eqn:Et.
    + apply jseqb_eq in Et as <-. by rewrite bool_decide_eq_true_2 by apply list_elem_of_here.
    + apply jseqb_neq in Et. rewrite bool_decide_eq_false_2; [done|]. intros [-> |]%elem_of_cons; done.
Qed.

Lemma operationsWithTags_get ops tags k :
  im_get (operationsWithTags ops tags) k
  = if existsb (belongs k) ops || bool_decide (k ∈ (tag_name <$> tags)) then Some (List.filter (belongs k) ops) else None.
Proof.
  unfold operationsWithTags. rewrite groups_get, declared_get, im_get_empty.
  assert (Hx : existsb (belongs k) ops = match List.filter (belongs k) ops with [] => false | _ => true end).
  { clear. induction ops as [|op ops IH]; [done|]. simpl. by destruct (belongs k op). }
  rewrite Hx. destruct (List.filter (belongs k) ops) as [|op found]; [done|]. by destruct (bool_decide _).
Qed.
End tags.

(** Whether the description puts an operation under a tag. *)
Definition described_under (k : jsstr) (op : op_entry) : bool :=
  match strings (mget (e_operation op) (js "tags")) with
  | [] => jseqb DEFAULT_TAG k
  | tags => bool_decide (k ∈ tags)
  end.

Lemma inherit_other set_of op k inherited k' : js k <> k' -> mget (inherit set_of op k inherited) k' = mget op k'.
Proof.
  intros Hk. destruct op as [| | | | | |ps]; try done. simpl. destruct (truthy _); [done|]. simpl.
  by rewrite assoc_get_set, (proj2 (jseqb_neq _ _) Hk).
Qed.

Lemma inherit_operation_tags set_of consumes produces op :
  mget (inherit_operation set_of consumes produces op) (js "tags") = mget op (js "tags").
Proof.
  unfold inherit_operation. destruct (truthy op) eqn:Et; [|by destruct op].
  destruct (is_map op) eqn:Em; [by rewrite !inherit_other|]. by destruct op.
Qed.

Lemma belongs_described set_of consumes produces k op :
  (forall l x, x ∈ set_of l <-> x ∈ l) ->
  belongs set_of k (mkOp (e_path op) (e_method op) (inherit_operation set_of consumes produces (e_operation op)) (e_id op))
  = described_under k op.
Proof.
  intros Hs. unfold belongs, described_under, tags_of. cbn [e_operation]. rewrite inherit_operation_tags.
  set (l := strings _). pose proof (Hs l) as Hl. destruct (set_of l) as [|t ts] eqn:E; destruct l as [|x l].
  - done.
  - destruct (not_elem_of_nil x). apply Hl, list_elem_of_here.
  - destruct (not_elem_of_nil t). apply Hl, list_elem_of_here.
  - by apply bool_decide_ext.
Qed.

Lemma elem_of_operations paths op :
  op ∈ operations paths <->
  exists pathName path method operation, (pathName, path) ∈ map_entries paths /\ (method, operation) ∈ map_entries path /\
    method ∈ OPERATION_METHODS /\ op = mkOp pathName method operation (method ++ 45 :: pathName).
Proof.
  unfold operations. rewrite list_elem_of_bind. split.
  - intros ([pathName path] & Hop & Hin). unfold path_operations in Hop.
    apply list_elem_of_omap in Hop as ([method operation] & Hm & Hop). simpl in Hop.
    destruct (bool_decide _) eqn:E; [|done]. injection Hop as <-. apply bool_decide_eq_true in E.
    by exists pathName, path, method, operation.
  - intros (pathName & path & method & operation & Hp & Hm & Hin & ->). exists (pathName, path). split; [|done].
    unfold path_operations. apply list_elem_of_omap. exists (method, operation). split; [done|].
    simpl. by rewrite bool_decide_eq_true_2.
Qed.

Lemma filter_fmap {A B} (f : A -> B) (test : B -> bool) (test' : A -> bool) l :
  (forall x, test (f x) = test' x) -> List.filter test (f <$> l) = f <$> List.filter test' l.
Proof. intros He. induction l as [|x l IH]; [done|]. rewrite fmap_cons. cbn [List.filter]. rewrite He, IH. by destruct (test' x). Qed.

(** C19: The page lists every operation of the description, under each of its tags and
    nowhere else.  The operations are the entries of the paths whose names are methods;
    the group of a tag has the operations the description puts under the tag, each of
    them once and in the order of the description, where an operation without tags is
    under the default tag; there is a group for every tag that is declared or used, and
    no other. *)
Theorem operations_grouped {M : Type -> Type} `{ImCollectionLaws M} (set_of : list jsstr -> list jsstr)
    (paths : jdata) (consumes produces : list jsstr) (tags : list jdata) :
  (forall l, NoDup (set_of l)) -> (forall l k, k ∈ set_of l <-> k ∈ l) ->
  let inherited ops := operationsWithRootInherited set_of ops consumes produces in
  (forall op, op ∈ operations paths <->
     exists pathName path method operation, (pathName, path) ∈ map_entries paths /\
       (method, operation) ∈ map_entries path /\ method ∈ OPERATION_METHODS /\
       op = mkOp pathName method operation (method ++ 45 :: pathName)) /\
  (forall k, im_get (operationsWithTags set_of (M := M) (inherited (operations paths)) tags) k
     = if existsb (described_under k) (operations paths) || bool_decide (k ∈ (tag_name <$> tags))
       then Some (inherited (List.filter (described_under k) (operations paths))) else None).
Proof.
  intros Hn Hs inherited. split; [apply elem_of_operations|]. intros k.
  rewrite operationsWithTags_get by done. unfold inherited, operationsWithRootInherited.
  rewrite (filter_fmap _ _ (described_under k)) by (intros; by apply belongs_described).
  assert (Hx : forall l, existsb (belongs set_of k) ((fun ops => mkOp (e_path ops) (e_method ops)
      (inherit_operation set_of consumes produces (e_operation ops)) (e_id ops)) <$> l) = existsb (described_under k) l).
  { intros l. induction l as [|op l IH]; [done|]. rewrite fmap_cons. cbn [existsb].
    by rewrite belongs_described, IH. }
  by rewrite Hx.
Qed.

Lemma operations_grouped_witness :
  let operation := DObject [(js "tags", DArray [DString (js "Tendermint RPC")])] in
  let paths := DObject [(js "/blocks", DObject [(js "get", operation); (js "parameters", DArray [])])] in
  let op := mkOp (js "/blocks") (js "get") operation (js "get-/blocks") in
  im_get (operationsWithTags (M := fun A => list (jsstr * A)) remove_dups (operationsWithRootInherited remove_dups (operations paths) [] []) [])
    (js "Tendermint RPC") = Some (operationsWithRootInherited remove_dups [op] [] []).
Proof.
  intros operation paths op.
  exact (proj2 (operations_grouped (M := fun A => list (jsstr * A)) remove_dups paths [] [] []
    NoDup_remove_dups (fun l k => elem_of_remove_dups l k)) (js "Tendermint RPC")).
Defined.
