(* ===== verification/SwaggerCurl.v ===== *)
(** * Swagger UI: the command line of a request

    For every request it sent, the page shows a command for the program curl that makes
    the same request.  The command is meant to be pasted into a shell, which takes it
    apart again: here are [curl] and what a POSIX shell reads in its result. *)

From S2P Require Import JsPrelude JsNumber JsValue JsUnicode SwaggerData JsJson.

(** ** The command *)

(** A field of a form: a text, or a file with its name and its type. *)
Inductive form_value : Type :=
| FText (s : jsstr)
| FFile (name type : jsstr).

(** The body of a request: data, or the fields of a form in a map. *)
Inductive curl_body : Type :=
| BodyData (d : jdata)
| BodyForm (fields : list (jsstr * form_value)).

(** The request as the page keeps it; the method, the address and the headers are
    texts, the headers in the order of the map. *)
Record curl_request : Type := mkCurl {
  c_method : jsstr;
  c_url : jsstr;
  c_headers : list (jsstr * jsstr);
  c_body : curl_body
}.

Definition in_quotes (s : jsstr) : jsstr := 34 :: s ++ [34].

Definition header_words (p : jsstr * jsstr) : list jsstr := [js "-H "; in_quotes (p.1 ++ js ": " ++ p.2)].

Definition field_words (p : jsstr * form_value) : list jsstr :=
  [js "-F";
   in_quotes match p.2 with
             | FFile name type => p.1 ++ js "=@" ++ name ++ js ";type=" ++ type
             | FText v => p.1 ++ js "=" ++ v
             end].

(** [.replace(/\\n/g, "")]: every backslash that is followed by the letter n goes, with
    the letter. *)
Fixpoint remove_newlines (s : jsstr) : jsstr :=
  match s with
  | [] => []
  | c :: s' =>
      match s' with
      | d :: s'' => if (c =? 92) && (d =? 110) then remove_newlines s'' else c :: remove_newlines s'
      | [] => [c]
      end
  end.

Definition has_body (b : curl_body) : bool := match b with BodyData d => truthy d | BodyForm _ => true end.

(** [JSON.stringify(body)]; a file has no properties of its own. *)
Definition stringify_body (b : curl_body) : option jsstr :=
  match b with
  | BodyData d => JSON_stringify d
  | BodyForm fields =>
      JSON_stringify (DObject ((fun p => (p.1, match p.2 with FText s => DString s | FFile _ _ => DObject [] end)) <$> fields))
  end.

(** [type] is the value of the last header, whatever header that is. *)
Definition curl (request : curl_request) : outcome native_error jsstr :=
  let type := match last (c_headers request) with Some (_, v) => v | None => [] end in
  let start := [js "curl"; js "-X"; c_method request; in_quotes (c_url request)]
               ++ (c_headers request ≫= header_words) in
  body ← (if has_body (c_body request) then
            if jseqb type (js "multipart/form-data") && jseqb (c_method request) (js "POST") then
              match c_body request with
              | BodyForm fields => Ret (fields ≫= field_words)
              | BodyData _ => Throw (TypeError (js "entrySeq is not a function"))
              end
            else match stringify_body (c_body request) with
                 | Some s => Ret [js "-d"; remove_newlines s]
                 | None => Throw (TypeError (js "Cannot read property 'replace' of undefined"))
                 end
          else Ret []);
  Ret (join [32] (start ++ body)).

(** ** What a shell reads *)

(** Where the shell is in a line: between words, in a word, in double quotes, or behind a
    backslash in double quotes. *)
Inductive shell_mode : Type :=
| Between
| InWord (w : jsstr)
| InQuotes (w : jsstr)
| AfterBackslash (w : jsstr).

(** The units that stand for themselves outside of quotes. *)
Definition shell_plain (c : Z) : bool :=
  (97 <=? c) && (c <=? 122) || (65 <=? c) && (c <=? 90) || (48 <=? c) && (c <=? 57)
  || existsb (Z.eqb c) (js "-_./:,+@%").

(** The words of a command in which nothing is expanded; [None] for another line, such
    as one with an expansion ([$] or a backquote), with a control operator, or with quotes that do
    not end. *)
Fixpoint shell_words (m : shell_mode) (s : jsstr) : option (list jsstr) :=
  match s with
  | [] => match m with Between => Some [] | InWord w => Some [w] | _ => None end
  | c :: s' =>
      match m with
      | Between =>
          if (c =? 32) || (c =? 9) then shell_words Between s'
          else if c =? 34 then shell_words (InQuotes []) s'
          else if shell_plain c then shell_words (InWord [c]) s' else None
      | InWord w =>
          if (c =? 32) || (c =? 9) then (fun ws => w :: ws) <$> shell_words Between s'
          else if c =? 34 then shell_words (InQuotes w) s'
          else if shell_plain c then shell_words (InWord (w ++ [c])) s' else None
      | InQuotes w =>
          if c =? 34 then shell_words (InWord w) s'
          else if c =? 92 then shell_words (AfterBackslash w) s'
          else if (c =? 36) || (c =? 96) then None
          else shell_words (InQuotes (w ++ [c])) s'
      | AfterBackslash w =>
          if existsb (Z.eqb c) [36; 96; 34; 92] then shell_words (InQuotes (w ++ [c])) s'
          else if c =? 10 then shell_words (InQuotes w) s'
          else shell_words (InQuotes (w ++ [92; c])) s'
      end
  end.

(** The arguments that make the request: the form, or the data without line breaks. *)
Definition header_args (p : jsstr * jsstr) : list jsstr := [js "-H"; p.1 ++ js ": " ++ p.2].

Definition without_breaks (s : jsstr) : jsstr := List.filter (fun c => negb (c =? 10)) s.

(** Units that a shell keeps in double quotes. *)
Definition quote_safe (c : Z) : bool := negb (existsb (Z.eqb c) [34; 92; 36; 96]).

(** Units of a text body that arrive: line breaks, and units that are neither control
    characters nor halves of a pair, other than a backslash, a dollar and a backquote. *)
Definition body_safe (c : Z) : bool :=
  (c =? 10) || (32 <=? c) && negb (is_lead c) && negb (is_trail c) && negb (existsb (Z.eqb c) [92; 36; 96]).

(** ** Words *)

(** A token of the command that the shell reads as one word. *)
Definition reads_as (t w : jsstr) : Prop :=
  (forall s, shell_words Between (t ++ 32 :: s) = (fun ws => w :: ws) <$> shell_words Between s)
  /\ shell_words Between t = Some [w].

Lemma reads_join ts ws : Forall2 reads_as ts ws -> shell_words Between (join [32] ts) = Some ws.
Proof.
  induction 1 as [|t w ts ws [Ht Hl] Hts IH]; [done|]. destruct Hts as [|t' w' ts ws H' Hts]; [done|].
  change (join [32] (t :: t' :: ts)) with (t ++ 32 :: join [32] (t' :: ts)). by rewrite Ht, IH.
Qed.

Lemma plain_not_special c : shell_plain c = true -> (c =? 32) || (c =? 9) = false /\ (c =? 34) = false.
Proof.
  intros Hp. split; [apply orb_false_iff; split|]; apply Z.eqb_neq; intros ->; vm_compute in Hp; discriminate.
Qed.

Lemma in_word_plain t w s : forallb shell_plain t = true ->
  shell_words (InWord w) (t ++ s) = shell_words (InWord (w ++ t)) s.
Proof.
  revert w. induction t as [|c t IH]; intros w; [by rewrite app_nil_r|]. cbn [forallb]. intros [Hc Ht]%andb_true_iff.
  cbn [app shell_words]. destruct (plain_not_special c Hc) as [-> ->]. rewrite Hc, IH by done. by rewrite <- app_assoc.
Qed.

Lemma word_reads_itself c t : forallb shell_plain (c :: t) = true -> reads_as (c :: t) (c :: t).
Proof.
  cbn [forallb]. intros [Hc Ht]%andb_true_iff. destruct (plain_not_special c Hc) as [E1 E2]. split.
  - intros s. cbn [app shell_words]. rewrite E1, E2, Hc, in_word_plain by done. done.
  - cbn [shell_words]. rewrite E1, E2, Hc. rewrite <- (app_nil_r t) at 1. by rewrite in_word_plain.
Qed.

(** A quoted token: what is read up to its end is the word. *)
Lemma reads_quoted t w :
  (forall s, shell_words (InQuotes []) (t ++ s) = shell_words (InWord w) s) -> reads_as (34 :: t) w.
Proof.
  intros Ht. split.
  - intros s. change ((34 :: t) ++ 32 :: s) with (34 :: (t ++ 32 :: s)). cbn [shell_words Z.eqb Pos.eqb orb].
    rewrite Ht. done.
  - cbn [shell_words Z.eqb Pos.eqb orb]. rewrite <- (app_nil_r t), Ht. done.
Qed.

Lemma quote_safe_inv c : quote_safe c = true ->
  (c =? 34) = false /\ (c =? 92) = false /\ (c =? 36) || (c =? 96) = false.
Proof.
  unfold quote_safe. cbn [existsb]. rewrite negb_true_iff, !orb_false_iff. tauto.
Qed.

Lemma in_quotes_safe t w s : forallb quote_safe t = true ->
  shell_words (InQuotes w) (t ++ s) = shell_words (InQuotes (w ++ t)) s.
Proof.
  revert w. induction t as [|c t IH]; intros w; [by rewrite app_nil_r|]. cbn [forallb]. intros [Hc Ht]%andb_true_iff.
  cbn [app shell_words]. destruct (quote_safe_inv c Hc) as (-> & -> & ->). rewrite IH by done. by rewrite <- app_assoc.
Qed.

Lemma reads_safe t : forallb quote_safe t = true -> reads_as (in_quotes t) t.
Proof.
  intros Ht. apply reads_quoted. intros s. rewrite <- app_assoc, in_quotes_safe by done. done.
Qed.

(** The text of a body. *)
Lemma remove_cons c s : (c =? 92) = false -> remove_newlines (c :: s) = c :: remove_newlines s.
Proof. intros Hc. destruct s as [|d s]; [done|]. cbn [remove_newlines]. by rewrite Hc. Qed.

Lemma body_safe_inv c : body_safe c = true -> c <> 10 ->
  is_lead c = false /\ is_trail c = false /\ 32 <= c /\ (c =? 92) = false /\ (c =? 36) || (c =? 96) = false.
Proof.
  unfold body_safe. cbn [existsb]. intros Hc Hn. rewrite (proj2 (Z.eqb_neq _ _) Hn) in Hc. cbn [orb] in Hc.
  rewrite !andb_true_iff, !negb_true_iff, !orb_false_iff in Hc. rewrite orb_false_iff.
  destruct Hc as [[[H1%Z.leb_le H2] H3] (H4 & H5 & H6 & _)]. done.
Qed.

Lemma quote_break b : quote_units (10 :: b) = 92 :: 110 :: quote_units b.
Proof. done. Qed.

Lemma quote_other c b : body_safe c = true -> c <> 10 ->
  quote_units (c :: b) = (if c =? 34 then [92; 34] else [c]) ++ quote_units b.
Proof.
  intros Hc Hn. destruct (body_safe_inv c Hc Hn) as (H1 & H2 & H3 & H4 & _). cbn [quote_units]. rewrite H1, H2.
  unfold quote_unit. rewrite H4, orb_false_r. destruct (Z.eqb_spec c 34) as [-> |]; [done|].
  rewrite !(proj2 (Z.eqb_neq _ _)) by lia. by rewrite (proj2 (Z.ltb_ge _ _)) by lia.
Qed.

Lemma body_read b w s : forallb body_safe b = true ->
  shell_words (InQuotes w) (remove_newlines (quote_units b ++ [34]) ++ s) = shell_words (InWord (w ++ without_breaks b)) s.
Proof.
  revert w. induction b as [|c b IH]; intros w; [by rewrite app_nil_r|]. cbn [forallb]. intros [Hc Hb]%andb_true_iff.
  unfold without_breaks. cbn [List.filter]. fold (without_breaks b). destruct (Z.eqb_spec c 10) as [-> |Hn].
  { rewrite quote_break. cbn [app remove_newlines Z.eqb Pos.eqb andb negb]. by apply IH. }
  cbn [negb]. rewrite quote_other by done. destruct (body_safe_inv c Hc Hn) as (_ & _ & _ & H4 & H5).
  destruct (Z.eqb_spec c 34) as [-> |H34].
  - change (([92; 34] ++ quote_units b) ++ [34]) with (92 :: 34 :: quote_units b ++ [34]).
    change (remove_newlines (92 :: 34 :: ?r)) with (92 :: remove_newlines (34 :: r)).
    rewrite remove_cons by done. cbn [app shell_words Z.eqb Pos.eqb orb existsb]. rewrite IH by done. by rewrite <- app_assoc.
  - change (([c] ++ quote_units b) ++ [34]) with (c :: quote_units b ++ [34]). rewrite remove_cons by done.
    cbn [app shell_words]. rewrite (proj2 (Z.eqb_neq _ _) H34), H4, H5, IH by done. by rewrite <- app_assoc.
Qed.

Lemma reads_body b : forallb body_safe b = true -> reads_as (remove_newlines (json_quote b)) (without_breaks b).
Proof.
  intros Hb. unfold json_quote. rewrite remove_cons by done. apply reads_quoted. intros s. by rewrite body_read.
Qed.

(** ** The property *)

(** A word without units that mean something to the shell, and a request without them:
    the method is a word, and the address and the headers have no double quote,
    backslash, dollar and backquote. *)
Definition is_word (m : jsstr) : bool := match m with [] => false | _ => forallb shell_plain m end.

Definition plain_request (r : curl_request) : bool :=
  is_word (c_method r) && forallb quote_safe (c_url r)
  && forallb (fun p => forallb quote_safe p.1 && forallb quote_safe p.2) (c_headers r).

Definition request_args (r : curl_request) : list jsstr :=
  [js "curl"; js "-X"; c_method r; c_url r] ++ (c_headers r ≫= header_args).

Definition field_text (p : jsstr * form_value) : jsstr :=
  match p.2 with
  | FFile name type => p.1 ++ js "=@" ++ name ++ js ";type=" ++ type
  | FText v => p.1 ++ js "=" ++ v
  end.

Definition field_args (p : jsstr * form_value) : list jsstr := [js "-F"; field_text p].

(** Whether the body is sent as a form. *)
Definition sends_form (r : curl_request) : bool :=
  jseqb match last (c_headers r) with Some (_, v) => v | None => [] end (js "multipart/form-data")
  && jseqb (c_method r) (js "POST").

Lemma header_token_read : reads_as (js "-H ") (js "-H").
Proof. split; [|done]. intros s. change (js "-H " ++ 32 :: s) with (45 :: 72 :: 32 :: 32 :: s). done. Qed.

Lemma Forall2_bind {A} (f g : A -> list jsstr) (R : jsstr -> jsstr -> Prop) l :
  (forall x, x ∈ l -> Forall2 R (f x) (g x)) -> Forall2 R (l ≫= f) (l ≫= g).
Proof.
  induction l as [|x l IH]; intros Hl; [constructor|]. cbn [mbind list_bind]. apply Forall2_app.
  - apply Hl, list_elem_of_here.
  - apply IH. intros y Hy. by apply Hl, list_elem_of_further.
Qed.

Lemma start_read r : plain_request r = true ->
  Forall2 reads_as ([js "curl"; js "-X"; c_method r; in_quotes (c_url r)] ++ (c_headers r ≫= header_words)) (request_args r).
Proof.
  unfold plain_request. intros [[Hm Hu]%andb_true_iff Hh]%andb_true_iff. unfold request_args. apply Forall2_app.
  - destruct (c_method r) as [|c m]; [done|].
    repeat constructor; try (by apply word_reads_itself); by apply reads_safe.
  - apply Forall2_bind. intros [h v] Hin. rewrite forallb_forall in Hh.
    apply list_elem_of_In, Hh, andb_true_iff in Hin as [Hk Hv]. cbn [fst snd] in *.
    constructor; [exact header_token_read|]. constructor; [|constructor]. apply reads_safe.
    cbn [fst snd]. rewrite !forallb_app, Hk, Hv. done.
Qed.

Lemma curl_read r body args : plain_request r = true ->
  Forall2 reads_as body args ->
  shell_words Between
    (join [32] ([js "curl"; js "-X"; c_method r; in_quotes (c_url r)] ++ (c_headers r ≫= header_words) ++ body))
  = Some (request_args r ++ args).
Proof. intros Hr Hb. apply reads_join. rewrite app_assoc. apply Forall2_app; [by apply start_read|done]. Qed.

Lemma form_fields_read fields : forallb (fun p => forallb quote_safe (field_text p)) fields = true ->
  Forall2 reads_as (fields ≫= field_words) (fields ≫= field_args).
Proof.
  intros Hf. apply Forall2_bind. intros p Hp%list_elem_of_In. rewrite forallb_forall in Hf. apply Hf in Hp.
  constructor; [by apply word_reads_itself|]. constructor; [|constructor]. by apply reads_safe.
Qed.

(** An expansion in the address. *)
Lemma expansion_in_url method pre c post rest :
  is_word method = true -> forallb quote_safe pre = true ->
  c = 36 \/ c = 96 ->
  shell_words Between (join [32] (js "curl" :: js "-X" :: method :: in_quotes (pre ++ c :: post) :: rest)) = None.
Proof.
  intros Hm Hp Hc. assert (Hj : exists s, join [32] (in_quotes (pre ++ c :: post) :: rest) = 34 :: pre ++ c :: s).
  { unfold in_quotes. destruct rest as [|t rest].
    - exists (post ++ [34]). cbn [join]. by rewrite <- app_assoc.
    - exists (post ++ [34] ++ [32] ++ join [32] (t :: rest)).
      change (join [32] ((34 :: (pre ++ c :: post) ++ [34]) :: t :: rest))
        with (34 :: ((pre ++ c :: post) ++ [34]) ++ [32] ++ join [32] (t :: rest)). by rewrite <- !app_assoc. }
  destruct Hj as [s Hs].
  assert (Hq : shell_words Between (34 :: pre ++ c :: s) = None).
  { cbn [shell_words Z.eqb Pos.eqb orb]. rewrite in_quotes_safe by done. cbn [shell_words].
    by destruct Hc as [-> | ->]. }
  change (join [32] (js "curl" :: js "-X" :: method :: in_quotes (pre ++ c :: post) :: rest))
    with (js "curl" ++ 32 :: js "-X" ++ 32 :: method ++ 32 :: join [32] (in_quotes (pre ++ c :: post) :: rest)).
  rewrite Hs. destruct method as [|m method]; [done|].
  destruct (word_reads_itself 99 (js "url") eq_refl) as [H1 _]. destruct (word_reads_itself 45 (js "X") eq_refl) as [H2 _].
  destruct (word_reads_itself m method Hm) as [H3 _]. rewrite (H1 _ : shell_words Between (js "curl" ++ 32 :: _) = _).
  rewrite (H2 _ : shell_words Between (js "-X" ++ 32 :: _) = _), H3, Hq. done.
Qed.

(** C16: The command for curl that the page shows is read by a shell as the request, as
    long as nothing in it means something to the shell.  For a request whose method is a
    word and whose address and headers have no double quote, backslash, dollar and
    backquote, the words of the command are the method, the address and the headers, and
    then the fields of a form, the data, or nothing; line breaks of the data are gone.
    The page does not escape anything: a dollar or a backquote in the address is
    expanded by the shell, and a text body of a backslash and the letter n leaves a
    command whose quotes do not end. *)
Theorem curl_command_read :
  (forall r, plain_request r = true ->
     (has_body (c_body r) = false -> exists line, curl r = Ret line /\ shell_words Between line = Some (request_args r)) /\
     (forall fields, c_body r = BodyForm fields -> sends_form r = true ->
        forallb (fun p => forallb quote_safe (field_text p)) fields = true ->
        exists line, curl r = Ret line /\ shell_words Between line = Some (request_args r ++ (fields ≫= field_args))) /\
     (forall b, c_body r = BodyData (DString b) -> b <> [] -> sends_form r = false -> forallb body_safe b = true ->
        exists line, curl r = Ret line /\ shell_words Between line = Some (request_args r ++ [js "-d"; without_breaks b])))
  /\ (forall r line pre c post, curl r = Ret line ->
     is_word (c_method r) = true ->
     c_url r = pre ++ c :: post -> forallb quote_safe pre = true -> c = 36 \/ c = 96 ->
     shell_words Between line = None)
  /\ (exists line, curl (mkCurl (js "POST") (js "/txs") [] (BodyData (DString [92; 110]))) = Ret line
     /\ shell_words Between line = None).
Proof.
  split_and!.
  - intros r Hr. unfold curl. fold (sends_form r). split_and!.
    + intros ->. eexists. split; [done|]. rewrite <- (app_nil_r (request_args r)), <- app_assoc. by apply curl_read.
    + intros fields -> Hs Hf. cbn [has_body]. rewrite Hs. eexists. split; [done|].
      rewrite <- app_assoc. apply curl_read; [done|by apply form_fields_read].
    + intros b -> Hne Hs Hb. rewrite Hs. destruct b as [|c b]; [done|]. eexists. split; [done|].
      rewrite <- app_assoc. apply curl_read; [done|]. constructor; [by apply word_reads_itself|].
      constructor; [by apply reads_body|constructor].
  - intros r line pre c post Hl Hm Hu Hp Hc. unfold curl in Hl.
    match type of Hl with (?b ≫= _) = _ => destruct b as [body| |]; [|done|done] end.
    injection Hl as <-. rewrite Hu.
    by apply (expansion_in_url _ pre c post ((c_headers r ≫= header_words) ++ body)).
  - eexists. split; vm_compute; reflexivity.
Qed.

Lemma curl_command_read_witness :
  let text := js "[ " ++ [34] ++ js "sync" ++ [34] ++ js " ]" in
  let r := mkCurl (js "POST") (js "http://localhost:1317/txs") [(js "accept", js "application/json")]
             (BodyData (DString text)) in
  exists line, curl r = Ret line /\ shell_words Between line = Some (request_args r ++ [js "-d"; text]).
Proof.
  intros text r.
  exact (proj2 (proj2 (proj1 curl_command_read r eq_refl)) text eq_refl ltac:(discriminate) eq_refl eq_refl).
Defined.
